(* ===== verification/_CoqProject ===== *)
-Q . S2P
Prelude.v
Domain.v
Crates.v
Transfer.v
Text.v
FileSystem.v
SectorsManager.v
AtomicRegister.v
RegisterFacts.v
Algorithm.v
Linearizability.v
Cluster.v
Atomicity.v
Runs.v
Storage.v
RegisterClient.v
Responses.v
RegisterProcess.v
ProcessFacts.v
WholeSystem.v
Startup.v
Harness.v
HarnessFacts.v
HarnessProgress.v
TestSystem.v
