(* ===== verification/Prelude.v ===== *)
(** * Verification of the distributed atomic disk

    The program ([solution/src/]) is one process of a distributed block device:
    [N] processes keep a copy of every 4096-byte sector and answer READ and
    WRITE commands of clients over TCP; the processes run the
    (N,N)-AtomicRegister algorithm for crash-recovery, one register per sector.
    This file holds what all components share; the development follows the
    parts of the program:

    - [Prelude] (this file): outcomes of Rust code ([Ret], [Err], [Panic]), a
      state monad over them, record assignment, [u8]/[u64] arithmetic with and
      without overflow checks, big-endian integers, the order of stamps
      (timestamp and rank), lemmas on lists and maps.
    - [Domain]: the data of [domain.rs] and [utils.rs], with the source's names.
      [Crates]: what the program uses of the crates [uuid] and [hmac], as
      classes of operations and laws, with one concrete instance ([Toy]).
    - [Transfer]: [transfer_operations.rs], both directions of the wire format.
      A stream is its bytes and the error at their end; a writer may break after
      any number of bytes, also in the middle of a message; the loop that slides
      to the magic number recurses on the remaining bytes, so no fuel is needed.
    - [Text], [FileSystem], [SectorsManager]: [sectors_manager.rs].  [Text] has
      the decimal printing (20 digits of fuel, enough for [u64]), splitting and
      parsing of file names; [FileSystem] is [tokio::fs] as a class with laws
      and an in-memory instance; [SectorsManager] has start-up with recovery,
      [read_data], [read_metadata] and [write], each system call a step, and
      records every directory that a crash can leave ([crash_points], also in
      the middle of writing a file).
    - [AtomicRegister]: [atomic_register.rs]; the struct as a record, one
      function per handler, from the register to the new register and the calls
      it makes ([effect]: [Broadcast], [Send], [Store], [Complete]) in order.
      The order in which a [HashMap] iterates is an argument.
      [RegisterFacts]: the register under any sequence of events.
      [Algorithm]: the algorithm of [(N,N)-AtomicRegister.txt] as a transition
      system ([Nnar]) and its refinement by the handlers.
    - [Linearizability], [Cluster], [Atomicity], [Runs]: the registers of one
      sector in all processes, with the messages between them.  [Cluster] is a
      step relation (events, crashes at any call of a handler, restarts; any
      sent message may arrive any number of times, or never), [Linearizability]
      defines linearizable histories, [Atomicity] proves that the cluster
      refines one atomic sector, [Runs] plays scripted runs.
    - [Storage]: the trait [SectorsManager] of [lib.rs] as a class with laws,
      which the file-based manager and the [RamDrive] of the tests satisfy;
      [build_atomic_register]; registers over storage.
    - [RegisterClient]: [register_client.rs]; channels are numbered so that the
      two senders to oneself alias; the writing and retransmission tasks are
      one function per turn.  The trait is a class with this client and the
      [BufferClient] of the tests as instances.  [TcpStream] says when the stream
      breaks and whether [set_nodelay] succeeds; there is no assumption that
      connections hold.
    - [Responses]: the response functions of [register_process.rs], and the
      reader of the tests ([test-utils/system.rs]) on the other side.
    - [RegisterProcess]: the rest of [register_process.rs]: workers, messages to
      self, connections, the semaphore per sector; one function per turn of a
      task, and the interleavings as a step relation.  [ProcessFacts]: its
      invariant and behaviour, against the classes of storage and client.
      A turn of a task is one step: a worker owns its register, and what it
      shares with other tasks (storage, links, writers) is touched call by call
      in the order of the turn, but other tasks run between turns only; dying
      between two calls of a handler is a step of [Cluster] and of [Storage].
      [WholeSystem]: all processes with all their tasks, over clients that
      remember what was handed to them; a system message with a valid HMAC was
      handed over before, and a worker starts on an unwritten sector.
    - [Startup]: [run_register_process] of [lib.rs].
    - [Harness], [HarnessFacts], [HarnessProgress]: the registers under test of
      [test-utils/atomic_register.rs], over one drive and one buffer of
      messages, every run of a handler with an order of iteration of its own, with the trait [AtomicRegister] of [lib.rs] as a class; the loop
      that delivers messages has fuel, and [potential] of the state is enough.
    - [TestSystem]: the processes under test of [test-utils/system.rs] and the
      header check of [test-utils/transfer.rs]; random numbers, temporary
      directories and connections are arguments.

    What the theorems show:

    - wire format: the reader accepts exactly the streams that hold a frame and
      says exactly when the tag is right; round trip; injectivity; layout;
      errors and panics; truncated messages ([Transfer]).
    - storage: for writes with newer stamps than the stored ones the manager
      refines a map, [write] is atomic under a crash at any point, including a
      torn write, and the directory holds one file per sector; recovery
      ([SectorsManager]).
    - one register: invariant, commands answered once and in order, quorums,
      exact panics, storage before messages, widths ([RegisterFacts]); each
      handler is a step of the algorithm ([Algorithm]); a register survives
      crashes on the file-based storage in handlers that store nothing or a
      newer stamp ([Storage]).
    - all registers of a sector: linearizable whenever decisions pick the
      highest value, for any number of processes, losses, repetitions and
      crashes ([cluster_linearizable]); one process always is
      ([single_process_linearizable]); values are never made up
      ([reads_return_written_values]).
    - the complete system: it refines the cluster sector by sector, with every
      answer on the connection of its command unless a connection broke and the
      worker died of it ([system_refines_cluster]), so what clients see is linearizable under the
      same condition ([system_linearizable]), and without it for one process
      ([lone_process_linearizable]).
    - a process: one permit per sector, registers used as they expect, answers
      on the right connection, every branch of the dispatch ([ProcessFacts]);
      links deliver in order what was handed over, up to where a connection
      breaks, and the retransmission task repeats the last message it has taken
      ([RegisterClient]);
      responses are read back ([Responses]); start-up ([Startup]).
    - progress: delivering messages ends ([propagate_terminates]); with a
      majority of the registers alive every pending command is answered, once
      ([pending_commands_complete]), and without one nothing is answered or
      stored ([minority_answers_nothing]).
    - the tests: their configurations start ([test_processes_start]), a command
      that a test sends is accepted and its answer passes the checks of the test
      ([test_conversation]), the header check accepts a message exactly with its
      own fields ([system_header_checked]), and the drive of the tests behaves
      like the files ([drive_behaves_like_files]).

    Where the code does not do what it means to: the value of a read is decided
    by the write rank alone ([read_decided_by_rank]), so three processes have a
    run with a stale read ([cluster_not_linearizable]), and a write can reuse a
    stamp, which the storage then forgets ([repeated_stamp_forgets_write],
    [write_same_stamp_loses_sector]); VALUE and ACK messages that arrive after a
    restart panic ([system_command_panics_exactly]), as does an unknown message
    type ([deserialize_panics_exactly_on_unknown_type]); only the latest message
    to a process is retransmitted ([retransmits_only_latest]); a process does
    not start unless all others are up ([start_fails]); the rejection of a read
    is shorter than the tests' reader expects ([rejected_read_not_read_back]).

    Two tasks have more runs here than in the code: after a panic of
    [handle_self_messages] or [accept_connections] the task is gone, while their
    later turns stay possible in [process_step].

    Not modelled: the scheduler, timers and sockets of tokio (interleavings and
    ticks are arbitrary); HMAC-SHA256 itself, and hence forgery, which the
    network of [Cluster] excludes; the block device driver in C ([driver/]) and
    the test programs.

    Still to do: restarts and progress in the complete system (the cluster of
    registers has restarts, the registers under test have progress). *)

From Stdlib Require Export ZArith Lia.
From stdpp Require Export base gmap list strings numbers option.

#[global] Open Scope Z_scope.

(** ** Outcomes of Rust code

    [Ret] is a normal return, [Err] a [Result::Err] that the code hands to its
    caller, [Panic] an unwinding panic ([unwrap], [expect], an arithmetic
    overflow or an index out of range). *)

Inductive outcome (E A : Type) : Type :=
| Ret (a : A)
| Err (e : E)
| Panic (why : string).
Arguments Ret {E A} a.
Arguments Err {E A} e.
Arguments Panic {E A} why.

#[global] Instance outcome_ret E : MRet (outcome E) := fun A a => Ret a.
#[global] Instance outcome_bind E : MBind (outcome E) := fun A B f m =>
  match m with
  | Ret a => f a
  | Err e => Err e
  | Panic w => Panic w
  end.

(** [Option::expect] and [Option::unwrap]: [None] panics with a message. *)
Definition expect {E A} (why : string) (o : option A) : outcome E A :=
  match o with Some a => Ret a | None => Panic why end.

(** ** A state monad over outcomes

    The state survives an error or a panic: bytes already taken from a stream
    stay taken, and files already written stay written. *)

Definition M (S E A : Type) : Type := S -> outcome E A * S.

#[global] Instance M_ret S E : MRet (M S E) := fun A a s => (Ret a, s).
#[global] Instance M_bind S E : MBind (M S E) := fun A B f m s =>
  match m s with
  | (Ret a, s') => f a s'
  | (Err e, s') => (Err e, s')
  | (Panic w, s') => (Panic w, s')
  end.

Definition lift {S E A} (o : outcome E A) : M S E A := fun s => (o, s).
Definition get {S E} : M S E S := fun s => (Ret s, s).
Definition modify {S E} (f : S -> S) : M S E unit := fun s => (Ret tt, f s).

(** ** Record fields that the code assigns to

    [r <| f := v |>] is the record [r] after the assignment [r.f = v]. *)

Class Assign {R T : Type} (proj : R -> T) := assign : T -> R -> R.
Arguments assign {R T} proj {_} v r : assert.

Declare Scope assign_scope.
Delimit Scope assign_scope with assign.
Notation "r <| f := v |>" := (assign f v r)
  (at level 1, left associativity, f at level 9, v at level 200,
   format "r  <|  f  :=  v  |>") : assign_scope.
#[global] Open Scope assign_scope.

(** ** Machine integers

    A [u8] or a [u64] is an integer [Z] in range; the range is a hypothesis or
    an invariant wherever a theorem needs it. *)

Abbreviation u8 := Z (only parsing).
Abbreviation u64 := Z (only parsing).

Definition U8_MAX : Z := 255.
Definition U64_MAX : Z := 18446744073709551615.

Definition in_u8 (x : Z) : Prop := 0 <= x <= U8_MAX.
Definition in_u64 (x : Z) : Prop := 0 <= x <= U64_MAX.

#[global] Instance in_u8_dec x : Decision (in_u8 x).
Proof. unfold in_u8. apply _. Defined.
#[global] Instance in_u64_dec x : Decision (in_u64 x).
Proof. unfold in_u64. apply _. Defined.

(** [a + b] on [u64]: with overflow checks (the debug profile) an overflow
    panics, without them (the release profile) it wraps around. *)
Definition u64_add {E} (overflow_checks : bool) (a b : u64) : outcome E u64 :=
  if decide (a + b <= U64_MAX) then Ret (a + b)
  else if overflow_checks then Panic "attempt to add with overflow"
  else Ret ((a + b) mod 2 ^ 64).

(** [a + b] on [u8], same convention. *)
Definition u8_add {E} (overflow_checks : bool) (a b : u8) : outcome E u8 :=
  if decide (a + b <= U8_MAX) then Ret (a + b)
  else if overflow_checks then Panic "attempt to add with overflow"
  else Ret ((a + b) mod 2 ^ 8).

(** [a - b] on [u8], same convention. *)
Definition u8_sub {E} (overflow_checks : bool) (a b : u8) : outcome E u8 :=
  if decide (b <= a) then Ret (a - b)
  else if overflow_checks then Panic "attempt to subtract with overflow"
  else Ret ((a - b) mod 2 ^ 8).

(** ** Byte strings and big-endian integers *)

Abbreviation bytes := (list Z) (only parsing).

Definition bytes_ok (l : bytes) : Prop := Forall in_u8 l.

#[global] Instance bytes_ok_dec l : Decision (bytes_ok l).
Proof. unfold bytes_ok. apply _. Defined.

(** [x.to_be_bytes()] of an integer of [n] bytes. *)
Fixpoint to_be_bytes (n : nat) (x : Z) : bytes :=
  match n with
  | O => []
  | S n' => (x / 256 ^ Z.of_nat n') mod 256 :: to_be_bytes n' x
  end.

(** [from_be_bytes(l)]. *)
Definition from_be_bytes (l : bytes) : Z := fold_left (fun acc b => acc * 256 + b) l 0.

Lemma length_to_be_bytes n x : length (to_be_bytes n x) = n.
Proof. induction n; simpl; congruence. Qed.

Lemma to_be_bytes_ok n x : bytes_ok (to_be_bytes n x).
Proof.
  induction n as [|n IH]; simpl; constructor; [|exact IH].
  unfold in_u8, U8_MAX. pose proof (Z.mod_pos_bound (x / 256 ^ Z.of_nat n) 256). lia.
Qed.

Lemma from_be_bytes_acc l a :
  fold_left (fun acc b => acc * 256 + b) l a = a * 256 ^ Z.of_nat (length l) + from_be_bytes l.
Proof.
  unfold from_be_bytes. revert a. induction l as [|b l IH]; intros a; simpl.
  - change (256 ^ 0) with 1. lia.
  - rewrite (IH (a * 256 + b)), (IH (0 * 256 + b)).
    replace (Z.of_nat (S (length l))) with (Z.succ (Z.of_nat (length l))) by lia.
    rewrite Z.pow_succ_r by lia. ring.
Qed.

Lemma from_be_bytes_cons b l :
  from_be_bytes (b :: l) = b * 256 ^ Z.of_nat (length l) + from_be_bytes l.
Proof. unfold from_be_bytes at 1. simpl. apply from_be_bytes_acc. Qed.

Lemma from_be_bytes_bound l :
  bytes_ok l -> 0 <= from_be_bytes l < 256 ^ Z.of_nat (length l).
Proof.
  induction 1 as [|b l Hb Hl IH]; [simpl; unfold from_be_bytes; simpl; lia|].
  rewrite from_be_bytes_cons. simpl length.
  replace (Z.of_nat (S (length l))) with (Z.succ (Z.of_nat (length l))) by lia.
  rewrite Z.pow_succ_r by lia. unfold in_u8, U8_MAX in Hb. nia.
Qed.

Lemma from_to_be_bytes_mod n x : from_be_bytes (to_be_bytes n x) = x mod 256 ^ Z.of_nat n.
Proof.
  induction n as [|n IH]; simpl to_be_bytes.
  - rewrite Z.mod_1_r. reflexivity.
  - rewrite from_be_bytes_cons, length_to_be_bytes, IH.
    replace (Z.of_nat (S n)) with (Z.of_nat n + 1) by lia.
    rewrite Z.pow_add_r, Z.pow_1_r, Z.rem_mul_r by lia. ring.
Qed.

(** Decoding inverts encoding for an integer that fits. *)
Lemma from_to_be_bytes n x :
  0 <= x < 256 ^ Z.of_nat n -> from_be_bytes (to_be_bytes n x) = x.
Proof. intros. rewrite from_to_be_bytes_mod. apply Z.mod_small. lia. Qed.

Lemma to_be_bytes_mod n x y :
  x mod 256 ^ Z.of_nat n = y mod 256 ^ Z.of_nat n -> to_be_bytes n x = to_be_bytes n y.
Proof.
  induction n as [|n IH]; intros Hxy; [reflexivity|].
  replace (Z.of_nat (S n)) with (Z.of_nat n + 1) in Hxy by lia.
  rewrite Z.pow_add_r, Z.pow_1_r, !Z.rem_mul_r in Hxy by lia.
  pose proof (Z.mod_pos_bound x (256 ^ Z.of_nat n)).
  pose proof (Z.mod_pos_bound y (256 ^ Z.of_nat n)).
  destruct (Z.div_mod_unique (256 ^ Z.of_nat n) ((x / 256 ^ Z.of_nat n) mod 256)
    ((y / 256 ^ Z.of_nat n) mod 256) (x mod 256 ^ Z.of_nat n) (y mod 256 ^ Z.of_nat n))
    as [Hq Hr]; [lia..|].
  simpl. f_equal; [exact Hq|exact (IH Hr)].
Qed.

(** Encoding inverts decoding for a byte string. *)
Lemma to_from_be_bytes l : bytes_ok l -> to_be_bytes (length l) (from_be_bytes l) = l.
Proof.
  induction 1 as [|b l Hb Hl IH]; [reflexivity|].
  rewrite from_be_bytes_cons. simpl.
  pose proof (from_be_bytes_bound l Hl) as Hr.
  unfold in_u8, U8_MAX in Hb.
  f_equal.
  - rewrite Z.div_add_l by lia. rewrite (Z.div_small (from_be_bytes l)) by lia.
    rewrite Z.add_0_r. apply Z.mod_small. lia.
  - etrans; [|exact IH]. apply to_be_bytes_mod.
    rewrite Z.add_comm, Z.mod_add by lia. reflexivity.
Qed.

Lemma from_to_be_u64 x : in_u64 x -> from_be_bytes (to_be_bytes 8 x) = x.
Proof. unfold in_u64, U64_MAX. intros. apply from_to_be_bytes. simpl. lia. Qed.

#[global] Arguments to_be_bytes : simpl never.
#[global] Arguments from_be_bytes : simpl never.

(** ** Running the monad *)

Section MonadFacts.
Context {S E A B : Type}.
Implicit Types (m : M S E A) (f : A -> M S E B).

Lemma M_bind_Ret m f s a s' : m s = (Ret a, s') -> (m ≫= f) s = f a s'.
Proof. intros Hm. unfold mbind, M_bind. by rewrite Hm. Qed.

Lemma M_bind_Err m f s e s' : m s = (Err e, s') -> (m ≫= f) s = (Err e, s').
Proof. intros Hm. unfold mbind, M_bind. by rewrite Hm. Qed.

Lemma M_bind_Panic m f s w s' : m s = (Panic w, s') -> (m ≫= f) s = (Panic w, s').
Proof. intros Hm. unfold mbind, M_bind. by rewrite Hm. Qed.

Lemma M_bind_lift (a : A) f (s : S) : (lift (Ret a) ≫= f) s = f a s.
Proof. reflexivity. Qed.

Lemma M_bind_mret (a : A) f (s : S) : ((mret a : M S E A) ≫= f) s = f a s.
Proof. reflexivity. Qed.

Lemma M_bind_get (f : S -> M S E B) s : (get ≫= f) s = f s s.
Proof. reflexivity. Qed.

Lemma M_bind_modify g (f : unit -> M S E B) s : (modify g ≫= f) s = f tt (g s).
Proof. reflexivity. Qed.

Lemma M_bind_Ret_inv m f s b s'' :
  (m ≫= f) s = (Ret b, s'') -> exists a s', m s = (Ret a, s') /\ f a s' = (Ret b, s'').
Proof. unfold mbind, M_bind. destruct (m s) as [[a|e|w] s']; naive_solver. Qed.

Lemma M_bind_Err_inv m f s e s'' :
  (m ≫= f) s = (Err e, s'') ->
  m s = (Err e, s'') \/ exists a s', m s = (Ret a, s') /\ f a s' = (Err e, s'').
Proof. unfold mbind, M_bind. destruct (m s) as [[a|e'|w] s']; naive_solver. Qed.
End MonadFacts.

#[global] Arguments M_bind : simpl never.
#[global] Typeclasses Opaque M_bind.

Lemma M_bind_bind {S E A B C} (m : M S E A) (f : A -> M S E B) (g : B -> M S E C) (s : S) :
  ((m ≫= f) ≫= g) s = (m ≫= (fun a => f a ≫= g)) s.
Proof. unfold mbind, M_bind. by destruct (m s) as [[a|e|w] s']. Qed.

(** Proves a decidable proposition about concrete data by evaluating it. *)
Ltac by_evaluation :=
  match goal with |- ?P => refine (bool_decide_eq_true_1 P _); vm_compute; reflexivity end.

(** ** Stamps

    The pair of a timestamp and a write rank, with the lexicographic order that
    Rust gives tuples. *)

Abbreviation stamp := (Z * Z)%type (only parsing).

Definition stamp_lt (a b : stamp) : Prop := a.1 < b.1 \/ (a.1 = b.1 /\ a.2 < b.2).
Definition stamp_le (a b : stamp) : Prop := stamp_lt a b \/ a = b.

#[global] Instance stamp_lt_dec a b : Decision (stamp_lt a b).
Proof. unfold stamp_lt. apply _. Defined.
#[global] Instance stamp_le_dec a b : Decision (stamp_le a b).
Proof. unfold stamp_le. apply _. Defined.

(** Decides goals about the order of stamps. *)
Ltac stamp_solve :=
  repeat match goal with s : (Z * Z)%type |- _ => destruct s end;
  unfold stamp_le, stamp_lt in *; simpl in *;
  repeat match goal with
         | H : (_, _) = (_, _) |- _ => injection H as ? ?; subst
         | H : _ \/ _ |- _ => destruct H
         | H : _ /\ _ |- _ => destruct H
         end;
  first [ lia | left; lia | right; f_equal; lia | intros [=]; lia ].

#[global] Instance stamp_lt_strict : StrictOrder stamp_lt.
Proof.
  split.
  - intros s H. stamp_solve.
  - intros a b c H1 H2. stamp_solve.
Qed.

Lemma stamp_trichotomy a b : stamp_lt a b \/ a = b \/ stamp_lt b a.
Proof.
  destruct a as [a1 a2], b as [b1 b2]. unfold stamp_lt. simpl.
  destruct (Z.lt_trichotomy a1 b1) as [|[->|]], (Z.lt_trichotomy a2 b2) as [|[->|]]; auto with lia.
Qed.

Lemma stamp_le_lt_trans a b c : stamp_le a b -> stamp_lt b c -> stamp_lt a c.
Proof. intros [H|H] H2; [by etrans|by subst]. Qed.

Lemma stamp_lt_le_trans a b c : stamp_lt a b -> stamp_le b c -> stamp_lt a c.
Proof. intros H [H2|H2]; [by etrans|by subst]. Qed.

#[global] Instance stamp_le_preorder : PreOrder stamp_le.
Proof.
  split; [by right|]. intros a b c Hab [Hbc|<-]; [left|done]. by eapply stamp_le_lt_trans.
Qed.

Lemma stamp_not_lt a b : ~ stamp_lt a b <-> stamp_le b a.
Proof.
  split.
  - intros Hn. destruct (stamp_trichotomy a b) as [|[->|]]; [done|by right|by left].
  - intros Hle Hlt. apply (irreflexivity stamp_lt a). by eapply stamp_lt_le_trans.
Qed.

Lemma stamp_le_total a b : stamp_le a b \/ stamp_le b a.
Proof. destruct (stamp_trichotomy a b) as [|[->|]]; [by left; left|by left; right|by right; left]. Qed.

#[global] Instance stamp_le_antisym : AntiSymm (=) stamp_le.
Proof. intros a b [Hab|] [Hba|]; [|done..]. destruct (irreflexivity stamp_lt a). by etrans. Qed.

(** ** Maps *)

Lemma alter_as_insert {K A} `{Countable K} (f : A -> A) (m : gmap K A) i x :
  m !! i = Some x -> alter f i m = <[i := f x]> m.
Proof. intros Hx. rewrite <- (insert_id m i x Hx) at 1. apply alter_insert_eq. Qed.

(** ** Lists *)

(** Where an element of an appended list is. *)
Lemma app_split_right {A} (l k l1 l2 : list A) x :
  l ++ k = l1 ++ x :: l2 ->
  (exists l2', l = l1 ++ x :: l2' /\ l2 = l2' ++ k) \/
  (exists k1, l1 = l ++ k1 /\ k = k1 ++ x :: l2).
Proof.
  intros E. destruct (app_eq_inv _ _ _ _ E) as [(m & -> & Hk)|(m & -> & ->)]; [|right; eauto].
  destruct m as [|y m]; simpl in Hk; [right; exists []; by rewrite !app_nil_r, <- Hk|].
  injection Hk as -> ->. left. eauto.
Qed.

Lemma NoDup_split_unique {A} (z : A) l1 l2 k1 k2 :
  NoDup (l1 ++ z :: l2) -> l1 ++ z :: l2 = k1 ++ z :: k2 -> l1 = k1 /\ l2 = k2.
Proof.
  intros Hnd E. pose proof Hnd as Hnd'. rewrite E in Hnd'.
  apply list.NoDup_app in Hnd as (_ & Hz & _), Hnd' as (_ & Hz' & _).
  destruct (not_elem_of_app_cons_inv_l z z l1 l2 k1 k2) as (? & _ & ?); set_solver.
Qed.

Lemma omap_split {A B} (f : A -> option B) l l1 x l2 :
  omap f l = l1 ++ x :: l2 ->
  exists k1 y k2, l = k1 ++ y :: k2 /\ f y = Some x /\ omap f k1 = l1 /\ omap f k2 = l2.
Proof.
  revert l1. induction l as [|y l IH]; intros l1 E; [by destruct l1|]. simpl in E.
  destruct (f y) as [z|] eqn:Ey.
  - destruct l1 as [|z' l1]; simpl in E; injection E as -> E; [by exists [], y, l|].
    destruct (IH l1 E) as (k1 & y' & k2 & -> & Hy' & <- & <-). exists (y :: k1), y', k2. split_and!; [done..| |done].
    simpl. by rewrite Ey.
  - destruct (IH l1 E) as (k1 & y' & k2 & -> & Hy' & <- & <-). exists (y :: k1), y', k2. split_and!; [done..| |done].
    simpl. by rewrite Ey.
Qed.
