(* ===== verification/Domain.v ===== *)
(** * The data of the disk: [solution/src/domain.rs] and [solution/src/utils.rs]

    The structs and enums that every component exchanges.  The type of UUIDs
    comes from the [uuid] crate and is a parameter of the types that hold one. *)

From S2P Require Import Prelude.

Definition MAGIC_NUMBER : bytes := [0x61; 0x74; 0x64; 0x64].

Definition SECTOR_SIZE : nat := N.to_nat 4096.
#[global] Opaque SECTOR_SIZE.

(** [SectorVec(pub Vec<u8>)]; the length is an invariant, not part of the type. *)
Abbreviation SectorVec := (list Z) (only parsing).

Abbreviation SectorIdx := Z (only parsing).

(** [SectorVec(vec![0u8; 4096])]. *)
Definition zero_sector : SectorVec := replicate SECTOR_SIZE 0.

Definition sector_ok (v : SectorVec) : Prop := bytes_ok v /\ length v = SECTOR_SIZE.

#[global] Instance sector_ok_dec v : Decision (sector_ok v).
Proof. unfold sector_ok. apply _. Defined.

Record PublicConfiguration := {
  storage_dir : string;
  tcp_locations : list (string * Z);
  self_rank : u8;
  n_sectors : u64;
}.

Record Configuration := {
  hmac_system_key : bytes;
  hmac_client_key : bytes;
  public : PublicConfiguration;
}.

Module StatusCode.
Inductive t : Set := Ok | AuthFailure | InvalidSectorIndex.

#[global] Instance t_eq_dec : EqDecision t.
Proof. solve_decision. Defined.

(** [status_code as u8]. *)
Definition as_u8 (c : t) : u8 :=
  match c with Ok => 0x00 | AuthFailure => 0x01 | InvalidSectorIndex => 0x02 end.
End StatusCode.

Record ClientCommandHeader := {
  request_identifier : u64;
  c_sector_idx : SectorIdx;
}.

Inductive ClientRegisterCommandContent :=
| Read
| Write (data : SectorVec).

Record ClientRegisterCommand := {
  c_header : ClientCommandHeader;
  c_content : ClientRegisterCommandContent;
}.

Record SystemCommandHeader {Uuid : Type} := {
  process_identifier : u8;
  msg_ident : Uuid;
  sector_idx : SectorIdx;
}.
Arguments SystemCommandHeader Uuid : clear implicits.

Inductive SystemRegisterCommandContent :=
| ReadProc
| Value (timestamp : u64) (write_rank : u8) (sector_data : SectorVec)
| WriteProc (timestamp : u64) (write_rank : u8) (data_to_write : SectorVec)
| Ack.

Record SystemRegisterCommand {Uuid : Type} := {
  header : SystemCommandHeader Uuid;
  content : SystemRegisterCommandContent;
}.
Arguments SystemRegisterCommand Uuid : clear implicits.

Inductive RegisterCommand {Uuid : Type} :=
| Client (c : ClientRegisterCommand)
| System (s : SystemRegisterCommand Uuid).
Arguments RegisterCommand Uuid : clear implicits.

Inductive OperationReturn :=
| ReadReturn (read_data : SectorVec)
| WriteReturn.

Record OperationSuccess := {
  os_request_identifier : u64;
  op_return : OperationReturn;
}.

#[global] Instance ClientRegisterCommandContent_eq_dec : EqDecision ClientRegisterCommandContent.
Proof. solve_decision. Defined.
#[global] Instance ClientCommandHeader_eq_dec : EqDecision ClientCommandHeader.
Proof. solve_decision. Defined.
#[global] Instance ClientRegisterCommand_eq_dec : EqDecision ClientRegisterCommand.
Proof. solve_decision. Defined.
#[global] Instance SystemRegisterCommandContent_eq_dec : EqDecision SystemRegisterCommandContent.
Proof. solve_decision. Defined.
#[global] Instance SystemCommandHeader_eq_dec `{EqDecision Uuid} : EqDecision (SystemCommandHeader Uuid).
Proof. solve_decision. Defined.
#[global] Instance SystemRegisterCommand_eq_dec `{EqDecision Uuid} : EqDecision (SystemRegisterCommand Uuid).
Proof. solve_decision. Defined.
#[global] Instance RegisterCommand_eq_dec `{EqDecision Uuid} : EqDecision (RegisterCommand Uuid).
Proof. solve_decision. Defined.
#[global] Instance OperationReturn_eq_dec : EqDecision OperationReturn.
Proof. solve_decision. Defined.
#[global] Instance OperationSuccess_eq_dec : EqDecision OperationSuccess.
Proof. solve_decision. Defined.

(** ** Errors ([utils.rs]) *)

Inductive SerializationError : Set :=
| Io
| InvalidHMAC
| InvalidMagicNumber
| InvalidMessageType
| InvaildData.

(** [#[derive(Debug)]], which [Result::unwrap] panics with. *)
Definition debug (err : SerializationError) : string :=
  match err with
  | Io => "Io"
  | InvalidHMAC => "InvalidHMAC"
  | InvalidMagicNumber => "InvalidMagicNumber"
  | InvalidMessageType => "InvalidMessageType"
  | InvaildData => "InvaildData"
  end.

(** [impl fmt::Display for SerializationError]. *)
Definition fmt (err : SerializationError) : string :=
  match err with
  | Io => "IO error"
  | InvalidHMAC => "Invalid HMAC signature"
  | InvalidMagicNumber => "Invalid magic number"
  | InvalidMessageType => "Invalid message type"
  | InvaildData => "Invalid data"
  end.

Inductive ErrorKind : Set := UnexpectedEof | ConnectionReset | Other.

(** [std::io::Error]: its kind and the error it wraps, if any. *)
Record Error := { kind : ErrorKind; inner : option SerializationError }.

#[global] Instance SerializationError_eq_dec : EqDecision SerializationError.
Proof. solve_decision. Defined.
#[global] Instance ErrorKind_eq_dec : EqDecision ErrorKind.
Proof. solve_decision. Defined.
#[global] Instance Error_eq_dec : EqDecision Error.
Proof. solve_decision. Defined.

(** [impl From<SerializationError> for Error]. *)
Definition Error_from (err : SerializationError) : Error :=
  {| kind := Other; inner := Some err |}.

(** ** Commands whose fields fit the wire format *)

Definition client_content_ok (c : ClientRegisterCommandContent) : Prop :=
  match c with Read => True | Write data => sector_ok data end.

Definition client_ok (c : ClientRegisterCommand) : Prop :=
  in_u64 (request_identifier (c_header c)) /\ in_u64 (c_sector_idx (c_header c)) /\
  client_content_ok (c_content c).

Definition system_content_ok (c : SystemRegisterCommandContent) : Prop :=
  match c with
  | ReadProc | Ack => True
  | Value ts wr v | WriteProc ts wr v => in_u64 ts /\ in_u8 wr /\ sector_ok v
  end.

Definition system_ok {Uuid} (c : SystemRegisterCommand Uuid) : Prop :=
  in_u8 (process_identifier (header c)) /\ in_u64 (sector_idx (header c)) /\
  system_content_ok (content c).

Definition command_ok {Uuid} (c : RegisterCommand Uuid) : Prop :=
  match c with Client c => client_ok c | System s => system_ok s end.

Lemma length_zero_sector : length zero_sector = SECTOR_SIZE.
Proof. apply length_replicate. Qed.

Lemma zero_sector_ok : sector_ok zero_sector.
Proof.
  split; [|apply length_zero_sector].
  apply Forall_replicate. unfold in_u8, U8_MAX. lia.
Qed.
