(* ===== verification/Crates.v ===== *)
(** * The crates the program calls: [uuid] and [hmac]/[sha2]

    The code of these crates is not part of the repository.  Each is a class of
    operations with a class of laws that state what its documentation promises;
    the components are proved against the laws.  [Toy] gives one concrete
    implementation of every class, on which the theorems are exercised. *)

From S2P Require Import Prelude Domain.

(** [Uuid::as_bytes] and [Uuid::from_slice]; [from_slice] fails on a slice that
    is not 16 bytes long. *)
Class UuidCrate (Uuid : Type) := {
  as_bytes : Uuid -> bytes;
  from_slice : bytes -> option Uuid;
}.

Class UuidLaws (Uuid : Type) `{UuidCrate Uuid} : Prop := {
  as_bytes_length u : length (as_bytes u) = 16%nat;
  as_bytes_ok u : bytes_ok (as_bytes u);
  from_slice_as_bytes u : from_slice (as_bytes u) = Some u;
  from_slice_length l : length l = 16%nat -> is_Some (from_slice l);
  as_bytes_from_slice l u : bytes_ok l -> from_slice l = Some u -> as_bytes u = l;
}.

(** [Hmac<Sha256>] through the [Mac] trait: a streaming authenticator. *)
Class HmacCrate (Mac : Type) := {
  new_from_slice : bytes -> option Mac;
  mac_update : Mac -> bytes -> Mac;
  finalize : Mac -> bytes;
  verify_slice : Mac -> bytes -> bool;
}.

(** A key of any size is accepted, feeding two pieces is feeding their
    concatenation, the tag has 32 bytes, and verification accepts exactly the
    tag that [finalize] computes. *)
Class HmacLaws (Mac : Type) `{HmacCrate Mac} : Prop := {
  new_from_slice_any k : is_Some (new_from_slice k);
  mac_update_app m a b : mac_update (mac_update m a) b = mac_update m (a ++ b);
  finalize_length m : length (finalize m) = 32%nat;
  finalize_ok m : bytes_ok (finalize m);
  verify_slice_spec m t : verify_slice m t = true <-> t = finalize m;
}.

Module Toy.

(** UUIDs as 128-bit numbers. *)
Record Uuid : Type := { number : Z; number_ok : bool_decide (0 <= number < 256 ^ 16) = true }.

Definition uuid (z : Z) : option Uuid :=
  match decide (bool_decide (0 <= z < 256 ^ 16) = true) with
  | left H => Some {| number := z; number_ok := H |}
  | right _ => None
  end.

#[global] Instance Uuid_eq_dec : EqDecision Uuid.
Proof.
  intros [x Hx] [y Hy]. destruct (decide (x = y)) as [Heq|Hne].
  - left. subst. f_equal. apply (proof_irrel Hx Hy).
  - right. intros [=]. done.
Defined.

#[global] Instance uuid_crate : UuidCrate Uuid := {
  as_bytes u := to_be_bytes 16 (number u);
  from_slice l := if decide (length l = 16%nat) then uuid (from_be_bytes l mod 256 ^ 16) else None;
}.

Lemma uuid_number (u : Uuid) : uuid (number u) = Some u.
Proof.
  unfold uuid. destruct u as [z Hz]. simpl. case_decide as H; [|done].
  do 2 f_equal. apply proof_irrel.
Qed.

#[global] Instance uuid_laws : UuidLaws Uuid.
Proof.
  split.
  - intros u. apply length_to_be_bytes.
  - intros u. apply to_be_bytes_ok.
  - intros u. unfold from_slice, as_bytes, uuid_crate.
    rewrite length_to_be_bytes, decide_True by done.
    rewrite from_to_be_bytes_mod, Zmod_mod, Z.mod_small; [apply uuid_number|].
    destruct u as [z Hz]. exact (proj1 (bool_decide_eq_true _) Hz).
  - intros l Hl. unfold from_slice, uuid_crate. rewrite decide_True by done. unfold uuid.
    case_decide as H; [eauto|]. destruct H. apply bool_decide_eq_true.
    apply Z.mod_pos_bound. lia.
  - intros l u Hl. unfold from_slice, as_bytes, uuid_crate, uuid.
    case_decide as Hlen; [|done]. case_decide; [|done]. intros [= <-]. simpl.
    rewrite <- (to_from_be_bytes l Hl) at 2. rewrite Hlen. apply to_be_bytes_mod. apply Zmod_mod.
Qed.

(** A keyed checksum in the place of HMAC-SHA-256. *)
Record Mac := { mac_key : bytes; mac_data : bytes }.

Definition checksum (l : bytes) : Z := fold_left (fun acc b => (acc * 31 + b + 1) mod 2 ^ 255) l 7.

#[global] Instance hmac_crate : HmacCrate Mac := {
  new_from_slice k := Some {| mac_key := k; mac_data := [] |};
  mac_update m d := {| mac_key := mac_key m; mac_data := mac_data m ++ d |};
  finalize m := to_be_bytes 32 (checksum (mac_key m) * 1000003 + checksum (mac_data m));
  verify_slice m t :=
    bool_decide (t = to_be_bytes 32 (checksum (mac_key m) * 1000003 + checksum (mac_data m)));
}.

#[global] Instance hmac_laws : HmacLaws Mac.
Proof.
  split.
  - intros k. simpl. eauto.
  - intros m a b. simpl. by rewrite app_assoc.
  - intros m. apply length_to_be_bytes.
  - intros m. apply to_be_bytes_ok.
  - intros m t. simpl. apply bool_decide_eq_true.
Qed.

End Toy.
