(* ===== verification/Transfer.v ===== *)
(** * Serialization: [solution/src/transfer_operations.rs]

    The wire format in both directions.  A reader is the bytes still to come
    and the error that ends the stream; a writer is the bytes written so far
    and, when it is going to break, how many more bytes it takes before which
    error. *)

From S2P Require Import Prelude Domain Crates.

(** ** Streams *)

Record stream := { pending : bytes; at_end : Error }.

(** [fault] is [None] when the writer never breaks, and [Some (room, e)] when it
    takes [room] more bytes and then fails with [e]. *)
Record sink := { written : bytes; fault : option (nat * Error) }.

(** [data.read_exact(&mut [0; n])]. *)
Definition read_exact (n : nat) : M stream Error bytes := fun s =>
  if decide (n <= length (pending s))%nat
  then (Ret (take n (pending s)), {| pending := drop n (pending s); at_end := at_end s |})
  else (Err (at_end s), {| pending := []; at_end := at_end s |}).

(** [writer.write_all(data)]: a writer that breaks in the middle has taken a
    prefix of the data. *)
Definition write_all (data : bytes) : M sink Error unit := fun w =>
  match fault w with
  | None => (Ret tt, {| written := written w ++ data; fault := None |})
  | Some (room, e) =>
      if decide (length data <= room)%nat
      then (Ret tt, {| written := written w ++ data; fault := Some (room - length data, e)%nat |})
      else (Err e, {| written := written w ++ take room data; fault := Some (0%nat, e) |})
  end.

(** [buff.write_all(data)] on a [Vec<u8>], which cannot fail. *)
Definition vec_write_all (buff data : bytes) : bytes := buff ++ data.

(** [slice.try_into()] to an array of [n] bytes. *)
Definition to_array (n : nat) (l : bytes) : option bytes :=
  if decide (length l = n) then Some l else None.

(** ** Writers that break

    A writer with the fault [f] that was given the data [l], in whatever pieces,
    holds as much of it as it took before it broke. *)

Definition cut (f : option (nat * Error)) (l : bytes) : bytes :=
  match f with None => l | Some (room, _) => take room l end.

Definition given (f : option (nat * Error)) (l : bytes) : sink :=
  {| written := cut f l; fault := (fun x => (x.1 - length l, x.2)%nat) <$> f |}.

Lemma write_all_given f l data : snd (write_all data (given f l)) = given f (l ++ data).
Proof.
  unfold write_all, given. destruct f as [[room e]|]; simpl; [|done]. rewrite length_app.
  case_decide; simpl; rewrite take_app.
  - rewrite (take_ge data) by lia. by rewrite Nat.sub_add_distr.
  - by replace (room - (length l + length data))%nat with 0%nat by lia.
Qed.

Lemma cut_prefix f l : cut f l `prefix_of` l.
Proof. destruct f as [[room e]|]; [apply prefix_take|done]. Qed.

(** The writer after it has taken all of [data]. *)
Definition wrote (data : bytes) (w : sink) : sink :=
  {| written := written w ++ data; fault := (fun x => (x.1 - length data, x.2)%nat) <$> fault w |}.

(** A writer that takes no more bytes. *)
Definition full (w : sink) : Prop := exists e, fault w = Some (0%nat, e).

(** [write_all] succeeds when all of the data fits; otherwise nothing more can be
    written afterwards. *)
Lemma write_all_cases data w :
  write_all data w = (Ret tt, wrote data w) \/
  exists e w', write_all data w = (Err e, w') /\ full w' /\ fault w <> None.
Proof.
  unfold write_all, wrote. destruct (fault w) as [[room e]|]; [|by left]. case_decide; [by left|].
  right. eexists e, _. split; [reflexivity|]. split; [by exists e|done].
Qed.

Lemma write_all_full data w : full w -> full (snd (write_all data w)).
Proof.
  intros [e He]. unfold write_all, full. rewrite He. case_decide; simpl; [|by exists e].
  exists e. by replace (0 - length data)%nat with 0%nat by lia.
Qed.

(** Nothing is missing unless the fault has been met. *)
Lemma cut_all f l : cut f l = l \/ exists room e, f = Some (room, e) /\ (room < length l)%nat.
Proof.
  destruct f as [[room e]|]; [|by left]. simpl. destruct (decide (length l <= room)%nat).
  - left. by apply take_ge.
  - right. exists room, e. split; [done|lia].
Qed.

Module MessageType.
Inductive t : Set := Read | Write | ReadProc | Value | WriteProc | Ack.

#[global] Instance t_eq_dec : EqDecision t.
Proof. solve_decision. Defined.

(** [msg_type as u8]. *)
Definition as_u8 (m : t) : u8 :=
  match m with
  | Read => 0x01 | Write => 0x02
  | ReadProc => 0x03 | Value => 0x04 | WriteProc => 0x05 | Ack => 0x06
  end.

(** [impl TryFrom<u8> for MessageType]. *)
Definition try_from (val : u8) : t + SerializationError :=
  match val with
  | 0x01 => inl Read
  | 0x02 => inl Write
  | 0x03 => inl ReadProc
  | 0x04 => inl Value
  | 0x05 => inl WriteProc
  | 0x06 => inl Ack
  | _ => inr InvalidMessageType
  end.

Lemma try_from_as_u8 m : try_from (as_u8 m) = inl m.
Proof. by destruct m. Qed.

Lemma try_from_inv v m : try_from v = inl m -> v = as_u8 m.
Proof.
  unfold try_from. intros H.
  repeat (case_match; try discriminate); simplify_eq; reflexivity.
Qed.
End MessageType.

Section Transfer.
Context {Uuid Mac : Type} `{UuidCrate Uuid, HmacCrate Mac}.

(** ** Deserialization *)

Definition construct_client_command (mac : Mac) (msg_type : MessageType.t)
  : M stream Error (RegisterCommand Uuid * bool) :=
  buff ← read_exact 8;
  let mac := mac_update mac buff in
  let rid := from_be_bytes buff in
  buff ← read_exact 8;
  let mac := mac_update mac buff in
  let sidx := from_be_bytes buff in
  let header := {| request_identifier := rid; c_sector_idx := sidx |} in
  '(content, mac) ←
    match msg_type with
    | MessageType.Read => mret (Read, mac)
    | MessageType.Write =>
        buff ← read_exact SECTOR_SIZE;
        mret (Write buff, mac_update mac buff)
    | _ => lift (Err (Error_from InvaildData))
    end;
  hmac_tag ← read_exact 32;
  let is_valid := verify_slice mac hmac_tag in
  mret (Client {| c_header := header; c_content := content |}, is_valid).

Definition construct_system_command (mac : Mac) (process_rank : u8) (msg_type : MessageType.t)
  : M stream Error (RegisterCommand Uuid * bool) :=
  buff ← read_exact 16;
  let mac := mac_update mac buff in
  uid ← lift (expect "Uuid::from_slice" (from_slice buff));
  buff ← read_exact 8;
  let mac := mac_update mac buff in
  let sidx := from_be_bytes buff in
  hmac_tag ← read_exact 32;
  let header := {| process_identifier := process_rank; msg_ident := uid; sector_idx := sidx |} in
  content ←
    match msg_type with
    | MessageType.ReadProc => mret ReadProc
    | MessageType.Ack => mret Ack
    | _ => lift (Err (Error_from InvaildData))
    end;
  let is_valid := verify_slice mac hmac_tag in
  mret (System {| header := header; content := content |}, is_valid).

Definition construct_advanced_system_command (mac : Mac) (process_rank : u8)
    (msg_type : MessageType.t) : M stream Error (RegisterCommand Uuid * bool) :=
  buff ← read_exact 16;
  let mac := mac_update mac buff in
  uid ← lift (expect "Uuid::from_slice" (from_slice buff));
  buff ← read_exact 8;
  let mac := mac_update mac buff in
  let sidx := from_be_bytes buff in
  buff ← read_exact 8;
  let mac := mac_update mac buff in
  let ts := from_be_bytes buff in
  buff ← read_exact 8;
  let mac := mac_update mac buff in
  let value_wr := buff !!! 7%nat in
  buff ← read_exact SECTOR_SIZE;
  let mac := mac_update mac buff in
  let svec := buff in
  hmac_tag ← read_exact 32;
  let header := {| process_identifier := process_rank; msg_ident := uid; sector_idx := sidx |} in
  content ←
    match msg_type with
    | MessageType.Value => mret (Value ts value_wr svec)
    | MessageType.WriteProc => mret (WriteProc ts value_wr svec)
    | _ => lift (Err (Error_from InvaildData))
    end;
  let is_valid := verify_slice mac hmac_tag in
  mret (System {| header := header; content := content |}, is_valid).

(** The [while valid_magic_number != MAGIC_NUMBER] loop: shift the window by
    one and read one byte.  Every turn takes a byte of the stream, so the
    recursion is on the bytes still to come. *)
Fixpoint slide (window rest : bytes) (e : Error) : outcome Error bytes * stream :=
  if decide (window = MAGIC_NUMBER) then (Ret window, {| pending := rest; at_end := e |})
  else
    match rest with
    | [] => (Err e, {| pending := []; at_end := e |})
    | b :: rest' => slide (drop 1 window ++ [b]) rest' e
    end.

Definition new_mac (key : bytes) : M stream Error Mac :=
  lift (expect "HmacSha256::new_from_slice" (new_from_slice key)).

(** [deserialize_rc] once the magic number is found: the rest of the first
    eight bytes, then the fields of the message type they announce. *)
Definition deserialize_message (hmac_system_key hmac_client_key valid_magic_number : bytes)
  : M stream Error (RegisterCommand Uuid * bool) :=
  buff ← read_exact 4;
  msg_type ← lift (match MessageType.try_from (buff !!! 3%nat) with
                   | inl m => Ret m
                   | inr err => Panic (debug err)
                   end);
  match msg_type with
  | MessageType.Read | MessageType.Write =>
      mac ← new_mac hmac_client_key;
      let mac := mac_update (mac_update mac valid_magic_number) buff in
      construct_client_command mac msg_type
  | MessageType.ReadProc | MessageType.Ack =>
      mac ← new_mac hmac_system_key;
      let mac := mac_update (mac_update mac valid_magic_number) buff in
      construct_system_command mac (buff !!! 2%nat) msg_type
  | MessageType.Value | MessageType.WriteProc =>
      mac ← new_mac hmac_system_key;
      let mac := mac_update (mac_update mac valid_magic_number) buff in
      construct_advanced_system_command mac (buff !!! 2%nat) msg_type
  end.

Definition deserialize_rc (hmac_system_key hmac_client_key : bytes)
  : M stream Error (RegisterCommand Uuid * bool) :=
  valid_magic_number ← read_exact 4;
  valid_magic_number ← (fun s => slide valid_magic_number (pending s) (at_end s));
  deserialize_message hmac_system_key hmac_client_key valid_magic_number.

(** ** Serialization *)

Definition client_msg_type (content : ClientRegisterCommandContent) : MessageType.t :=
  match content with
  | Read => MessageType.Read
  | Write _ => MessageType.Write
  end.

Definition serialize_client_rc (header : ClientCommandHeader)
    (content : ClientRegisterCommandContent) : bytes :=
  let buff := vec_write_all [] MAGIC_NUMBER in
  let msg_type := client_msg_type content in
  let buff := vec_write_all buff [0; 0; 0; MessageType.as_u8 msg_type] in
  let rid := to_be_bytes 8 (request_identifier header) in
  let buff := vec_write_all buff rid in
  let sidx := to_be_bytes 8 (c_sector_idx header) in
  let buff := vec_write_all buff sidx in
  match content with
  | Read => buff
  | Write data => vec_write_all buff data
  end.

Definition system_msg_type (content : SystemRegisterCommandContent) : MessageType.t :=
  match content with
  | ReadProc => MessageType.ReadProc
  | Ack => MessageType.Ack
  | Value _ _ _ => MessageType.Value
  | WriteProc _ _ _ => MessageType.WriteProc
  end.

Definition serialize_system_rc (header : SystemCommandHeader Uuid)
    (content : SystemRegisterCommandContent) : bytes :=
  let buff := vec_write_all [] MAGIC_NUMBER in
  let msg_type := system_msg_type content in
  let buff := vec_write_all buff [0; 0; process_identifier header; MessageType.as_u8 msg_type] in
  let uid := as_bytes (msg_ident header) in
  let buff := vec_write_all buff uid in
  let sidx := to_be_bytes 8 (sector_idx header) in
  let buff := vec_write_all buff sidx in
  match content with
  | ReadProc | Ack => buff
  | Value timestamp write_rank sector_data =>
      let buff := vec_write_all buff (to_be_bytes 8 timestamp) in
      let wr := to_be_bytes 1 write_rank in
      let buff := vec_write_all buff [0; 0; 0; 0; 0; 0; 0; wr !!! 0%nat] in
      vec_write_all buff sector_data
  | WriteProc timestamp write_rank data_to_write =>
      let buff := vec_write_all buff (to_be_bytes 8 timestamp) in
      let wr := to_be_bytes 1 write_rank in
      let buff := vec_write_all buff [0; 0; 0; 0; 0; 0; 0; wr !!! 0%nat] in
      vec_write_all buff data_to_write
  end.

(** The bytes that [serialize_rc] signs. *)
Definition serialize_body (cmd : RegisterCommand Uuid) : bytes :=
  match cmd with
  | Client c => serialize_client_rc (c_header c) (c_content c)
  | System s => serialize_system_rc (header s) (content s)
  end.

Definition serialize_rc (cmd : RegisterCommand Uuid) (hmac_key : bytes) : M sink Error unit :=
  let data := serialize_body cmd in
  mac ← lift (expect "HmacSha256::new_from_slice" (new_from_slice hmac_key));
  let mac := mac_update mac data in
  tag ← lift (expect "try_into [u8; 32]" (to_array 32 (finalize mac)));
  let data := vec_write_all data tag in
  write_all data.

(** ** The public functions of [solution/src/lib.rs] *)

Definition deserialize_register_command (data : stream) (hmac_system_key hmac_client_key : bytes)
  : outcome Error (RegisterCommand Uuid * bool) * stream :=
  deserialize_rc hmac_system_key hmac_client_key data.

Definition serialize_register_command (cmd : RegisterCommand Uuid) (writer : sink) (hmac_key : bytes)
  : outcome Error unit * sink :=
  serialize_rc cmd hmac_key writer.

(** ** The format

    A frame carries every field of a command; the padding bytes are free,
    since the reader skips them.  The writer sends zeros there. *)

Record padding := { pad_head : bytes; pad_wr : bytes }.

Definition zero_padding (cmd : RegisterCommand Uuid) : padding :=
  {| pad_head := replicate (match cmd with Client _ => 3 | System _ => 2 end) 0;
     pad_wr := replicate 7 0 |}.

Definition padding_ok (pad : padding) (cmd : RegisterCommand Uuid) : Prop :=
  length (pad_head pad) = (match cmd with Client _ => 3 | System _ => 2 end)%nat /\
  length (pad_wr pad) = 7%nat.

Definition client_payload (c : ClientRegisterCommandContent) : bytes :=
  match c with Read => [] | Write data => data end.

Definition system_payload (pw : bytes) (c : SystemRegisterCommandContent) : bytes :=
  match c with
  | ReadProc | Ack => []
  | Value ts wr v | WriteProc ts wr v => to_be_bytes 8 ts ++ (pw ++ [wr]) ++ v
  end.

Definition frame (pad : padding) (cmd : RegisterCommand Uuid) : bytes :=
  match cmd with
  | Client c =>
      MAGIC_NUMBER ++ (pad_head pad ++ [MessageType.as_u8 (client_msg_type (c_content c))]) ++
      to_be_bytes 8 (request_identifier (c_header c)) ++
      to_be_bytes 8 (c_sector_idx (c_header c)) ++ client_payload (c_content c)
  | System s =>
      MAGIC_NUMBER ++
      (pad_head pad ++
       [process_identifier (header s); MessageType.as_u8 (system_msg_type (content s))]) ++
      as_bytes (msg_ident (header s)) ++
      to_be_bytes 8 (sector_idx (header s)) ++ system_payload (pad_wr pad) (content s)
  end.

(** The key that signs a command: clients and processes use different ones. *)
Definition key_for (hmac_system_key hmac_client_key : bytes) (cmd : RegisterCommand Uuid) : bytes :=
  match cmd with Client _ => hmac_client_key | System _ => hmac_system_key end.

(** The tag of a message under a key. *)
Definition tag_of (key body : bytes) : option bytes :=
  mac ← new_from_slice key; mret (finalize (mac_update mac body)).

(** [junk] is what precedes the first magic number of [l]; [rest] follows it. *)
Definition first_magic (l junk rest : bytes) : Prop :=
  l = junk ++ MAGIC_NUMBER ++ rest /\
  forall k, (k < length junk)%nat -> take 4 (drop k l) <> MAGIC_NUMBER.

End Transfer.

(** ** Lemmas on streams and frames *)

Create Rewrite HintDb wire.
Create HintDb wire_safe.

Lemma read_exact_app n a rest e :
  length a = n ->
  read_exact n {| pending := a ++ rest; at_end := e |} =
  (Ret a, {| pending := rest; at_end := e |}).
Proof.
  intros <-. unfold read_exact. simpl. rewrite length_app, decide_True by lia.
  by rewrite take_app_length, drop_app_length.
Qed.

Lemma read_bind {A} n a rest e (f : bytes -> M stream Error A) :
  length a = n ->
  (read_exact n ≫= f) {| pending := a ++ rest; at_end := e |} =
  f a {| pending := rest; at_end := e |}.
Proof. intros Ha. apply M_bind_Ret. by apply read_exact_app. Qed.

Lemma read_exact_inv n s a s' :
  read_exact n s = (Ret a, s') ->
  pending s = a ++ pending s' /\ length a = n /\ at_end s' = at_end s.
Proof.
  unfold read_exact. case_decide as Hn; [|done]. intros [= <- <-]. simpl.
  rewrite take_drop, length_take. split_and!; [done|lia|done].
Qed.

Lemma read_exact_Err n s e s' : read_exact n s = (Err e, s') -> e = at_end s.
Proof. unfold read_exact. case_decide; naive_solver. Qed.

Lemma read_exact_not_Panic n s w s' : read_exact n s <> (Panic w, s').
Proof. unfold read_exact. case_decide; naive_solver. Qed.

Lemma length_MAGIC_NUMBER : length MAGIC_NUMBER = 4%nat.
Proof. reflexivity. Qed.

#[export] Hint Rewrite length_to_be_bytes @length_app @length_replicate @length_cons @length_nil
  length_MAGIC_NUMBER : wire.

(** Lengths of byte strings that the context knows. *)
Ltac wire_len := autorewrite with wire in *; simpl in *; (congruence || lia).

(** A magic number cannot overlap another one. *)
Lemma magic_no_overlap junk rest k :
  (length junk < k + 4)%nat -> (k < length junk)%nat ->
  take 4 (drop k (junk ++ MAGIC_NUMBER ++ rest)) <> MAGIC_NUMBER.
Proof.
  intros Hk1 Hk2 Heq. rewrite drop_app_le in Heq by lia.
  assert (length (drop k junk) < 4)%nat as Hlt by (rewrite length_drop; lia).
  assert (0 < length (drop k junk))%nat as Hpos by (rewrite length_drop; lia).
  destruct (drop k junk) as [|b0 [|b1 [|b2 [|b3 l]]]]; simpl in *; try lia; discriminate.
Qed.

(** Bytes without a magic number in them are exactly what is skipped. *)
Lemma first_magic_clean junk rest :
  (forall k, take 4 (drop k junk) <> MAGIC_NUMBER) ->
  first_magic (junk ++ MAGIC_NUMBER ++ rest) junk rest.
Proof.
  intros Hj. split; [done|]. intros k Hk.
  destruct (decide (k + 4 <= length junk)%nat) as [Hle|Hgt].
  - rewrite drop_app_le by lia. rewrite take_app_le by (rewrite length_drop; lia). apply Hj.
  - apply magic_no_overlap; lia.
Qed.

Lemma slide_spec w rest e :
  length w = 4%nat ->
  (exists junk rest', first_magic (w ++ rest) junk rest' /\
    slide w rest e = (Ret MAGIC_NUMBER, {| pending := rest'; at_end := e |})) \/
  ((forall k, take 4 (drop k (w ++ rest)) <> MAGIC_NUMBER) /\
    slide w rest e = (Err e, {| pending := []; at_end := e |})).
Proof.
  revert w. induction rest as [|b rest IH]; intros w Hw; simpl slide.
  - case_decide as Heq.
    + left. exists [], []. subst. split; [split; [done|simpl; lia]|done].
    + right. split; [|done]. intros k Hk. apply Heq.
      rewrite app_nil_r in Hk. destruct k; [rewrite drop_0, take_ge in Hk by lia; exact Hk|].
      apply (f_equal length) in Hk. rewrite length_take, length_drop, length_MAGIC_NUMBER in Hk. lia.
  - case_decide as Heq.
    + left. exists [], (b :: rest). subst. split; [split; [done|simpl; lia]|done].
    + destruct w as [|a w]; [done|]. simpl drop.
      assert (forall k, take 4 (drop (S k) ((a :: w) ++ b :: rest)) =
                        take 4 (drop k ((w ++ [b]) ++ rest))) as Hshift.
      { intros k. simpl. by rewrite <- app_assoc. }
      assert (take 4 ((a :: w) ++ b :: rest) <> MAGIC_NUMBER) as Hhd.
      { rewrite take_app_le by (simpl in *; lia). by rewrite take_ge by (simpl in *; lia). }
      destruct (IH (w ++ [b])) as [(junk & rest' & [Hl Hf] & Hs)|[Hf Hs]]; [wire_len|left|right].
      * exists (a :: junk), rest'. split; [|done]. split.
        -- transitivity (a :: ((w ++ [b]) ++ rest)); [by rewrite <- app_assoc|]. by rewrite Hl.
        -- intros [|k] Hk; [done|]. rewrite Hshift. apply Hf. simpl in Hk. lia.
      * split; [|done]. intros [|k]; [done|]. rewrite Hshift. apply Hf.
Qed.

Lemma first_magic_unique l j1 r1 j2 r2 :
  first_magic l j1 r1 -> first_magic l j2 r2 -> j1 = j2 /\ r1 = r2.
Proof.
  intros [H1 F1] [H2 F2].
  assert (length j1 = length j2) as Hlen.
  { destruct (lt_eq_lt_dec (length j1) (length j2)) as [[Hlt| ->]|Hlt]; [|done|]; exfalso.
    - apply (F2 _ Hlt). rewrite H1, drop_app_length. reflexivity.
    - apply (F1 _ Hlt). rewrite H2, drop_app_length. reflexivity. }
  rewrite H1 in H2. apply app_inj_1 in H2 as [-> H2]; [|done].
  split; [done|]. simpl in H2. congruence.
Qed.

Section TransferFacts.
Context {Uuid Mac : Type} `{UuidLaws Uuid, HmacLaws Mac}.
Implicit Types (cmd : RegisterCommand Uuid) (sk ck body tag rest junk l : bytes) (e : Error).

(** The stream up to its first magic number is dropped. *)
Lemma deserialize_skip sk ck l junk rest e :
  first_magic l junk rest ->
  deserialize_rc (Uuid:=Uuid) (Mac:=Mac) sk ck {| pending := l; at_end := e |} =
  deserialize_message sk ck MAGIC_NUMBER {| pending := rest; at_end := e |}.
Proof.
  intros Hf. pose proof Hf as [Hl _].
  assert (4 <= length l)%nat as Hlen by (rewrite Hl; wire_len).
  unfold deserialize_rc. rewrite <- (take_drop 4 l).
  rewrite read_bind by (rewrite length_take; lia).
  destruct (slide_spec (take 4 l) (drop 4 l) e) as [(j & r & Hf' & Hs)|[Hno _]].
  - rewrite length_take. lia.
  - rewrite take_drop in Hf'. destruct (first_magic_unique _ _ _ _ _ Hf Hf') as [-> ->].
    by erewrite M_bind_Ret by exact Hs.
  - destruct (Hno (length junk)). rewrite take_drop, Hl, drop_app_length. reflexivity.
Qed.

(** Without a magic number the stream is read to its end. *)
Lemma deserialize_no_magic sk ck l e :
  (forall k, take 4 (drop k l) <> MAGIC_NUMBER) ->
  deserialize_rc (Uuid:=Uuid) (Mac:=Mac) sk ck {| pending := l; at_end := e |} =
  (Err e, {| pending := []; at_end := e |}).
Proof.
  intros Hno. unfold deserialize_rc.
  destruct (decide (4 <= length l)%nat) as [Hlen|Hlen].
  - rewrite <- (take_drop 4 l), read_bind by (rewrite length_take; lia).
    destruct (slide_spec (take 4 l) (drop 4 l) e) as [(j & r & [Hl _] & _)|[_ Hs]].
    + rewrite length_take. lia.
    + destruct (Hno (length j)). rewrite take_drop in Hl. rewrite Hl, drop_app_length. reflexivity.
    + by apply M_bind_Err.
  - apply M_bind_Err. unfold read_exact. simpl. by rewrite decide_False.
Qed.

Lemma new_mac_total key :
  exists mac, new_from_slice key = Some mac /\ new_mac (Mac:=Mac) key = lift (Ret mac).
Proof.
  destruct (new_from_slice_any key) as [mac Hmac]. exists mac. split; [done|].
  unfold new_mac. by rewrite Hmac.
Qed.

(** Whether a tag is the one of a message, as the reader decides it. *)
Lemma verify_tag key mac body tag :
  new_from_slice key = Some mac ->
  verify_slice (mac_update mac body) tag = bool_decide (tag_of (Mac:=Mac) key body = Some tag).
Proof.
  intros Hmac. unfold tag_of. rewrite Hmac. simpl.
  destruct (verify_slice (mac_update mac body) tag) eqn:E; symmetry.
  - apply verify_slice_spec in E. apply bool_decide_eq_true. by subst.
  - apply bool_decide_eq_false. intros [= Ht].
    assert (verify_slice (mac_update mac body) tag = true) by by apply verify_slice_spec.
    congruence.
Qed.

Lemma tag_of_total key body : exists tag, tag_of (Mac:=Mac) key body = Some tag /\ length tag = 32%nat.
Proof.
  unfold tag_of. destruct (new_from_slice_any key) as [mac ->]. simpl.
  eexists. split; [done|]. apply finalize_length.
Qed.

#[local] Hint Rewrite as_bytes_length : wire.

(** Reads the fields of a frame one after the other. *)
Ltac read_fields :=
  repeat (first [ rewrite read_bind by wire_len
                | rewrite M_bind_lift | rewrite M_bind_mret | rewrite M_bind_bind
                | rewrite app_nil_l | rewrite !from_to_be_u64 by done ];
          cbn beta iota zeta).

(** The reader's authenticator has been fed the whole frame. *)
Ltac verify_fields Hmac :=
  rewrite !mac_update_app, <- ?app_assoc, (verify_tag _ _ _ _ Hmac), ?app_nil_r; reflexivity.

(** Projects the fields of a command without computing with its bytes. *)
Ltac frame_fields :=
  cbn [pad_head pad_wr c_header c_content request_identifier c_sector_idx header content
       process_identifier msg_ident sector_idx pending at_end client_payload client_content_ok
       client_msg_type system_payload system_content_ok system_msg_type] in *.

Lemma first_magic_nil rest : first_magic (MAGIC_NUMBER ++ rest) [] rest.
Proof. split; [done|]. simpl. lia. Qed.

Lemma deserialize_client_frame sk ck pad c tag rest e :
  client_ok c -> padding_ok (Uuid:=Uuid) pad (Client c) -> length tag = 32%nat ->
  deserialize_rc (Mac:=Mac) sk ck {| pending := frame pad (Client c) ++ tag ++ rest; at_end := e |} =
  (Ret (Client (Uuid:=Uuid) c,
        bool_decide (tag_of (Mac:=Mac) ck (frame (Uuid:=Uuid) pad (Client c)) = Some tag)),
   {| pending := rest; at_end := e |}).
Proof.
  intros (Hrid & Hsidx & Hdata) [Hph _] Htag. destruct c as [[rid sidx] ct].
  destruct pad as [ph pw]. unfold frame. frame_fields.
  destruct ph as [|a [|b [|c [|? ?]]]]; try discriminate.
  rewrite <- !app_assoc. rewrite (deserialize_skip _ _ _ [] _ _ (first_magic_nil _)).
  unfold deserialize_message. rewrite app_assoc, read_bind by done. cbn beta.
  change (([a; b; c] ++ [?x]) !!! 3%nat) with x. rewrite MessageType.try_from_as_u8.
  rewrite M_bind_lift. cbn beta.
  destruct ct as [|data]; cbn [client_msg_type client_payload].
  all: destruct (new_mac_total ck) as (mac & Hmac & ->); try destruct Hdata;
    unfold construct_client_command; read_fields; verify_fields Hmac.
Qed.

Lemma deserialize_system_frame sk ck pad s tag rest e :
  system_ok s -> padding_ok (Uuid:=Uuid) pad (System s) -> length tag = 32%nat ->
  deserialize_rc (Mac:=Mac) sk ck {| pending := frame pad (System s) ++ tag ++ rest; at_end := e |} =
  (Ret (System s, bool_decide (tag_of (Mac:=Mac) sk (frame pad (System s)) = Some tag)),
   {| pending := rest; at_end := e |}).
Proof.
  intros (Hpid & Hsidx & Hct) [Hph Hpw] Htag. destruct s as [[pid uid sidx] ct].
  destruct pad as [ph pw]. unfold frame. frame_fields.
  destruct ph as [|a [|b [|? ?]]]; try discriminate.
  rewrite <- !app_assoc. rewrite (deserialize_skip _ _ _ [] _ _ (first_magic_nil _)).
  unfold deserialize_message. rewrite app_assoc, read_bind by done. cbn beta.
  change (([a; b] ++ [pid; ?x]) !!! 3%nat) with x. rewrite MessageType.try_from_as_u8.
  change (([a; b] ++ [pid; ?x]) !!! 2%nat) with pid.
  rewrite M_bind_lift. cbn beta.
  destruct ct as [|ts wr v|ts wr v|]; cbn [system_msg_type system_payload];
    destruct (new_mac_total sk) as (mac & Hmac & ->); rewrite M_bind_lift; cbn beta.
  1,4: unfold construct_system_command; cbn beta iota zeta; read_fields;
    rewrite from_slice_as_bytes; simpl expect; read_fields; verify_fields Hmac.
  all: destruct Hct as (Hts & Hwr & _ & Hlen); rewrite <- !app_assoc;
    unfold construct_advanced_system_command; cbn beta iota zeta; read_fields;
    rewrite from_slice_as_bytes; simpl expect; read_fields;
    rewrite app_assoc; read_fields;
    rewrite lookup_total_app_r, Hpw by lia; verify_fields Hmac.
Qed.

Lemma deserialize_frame sk ck pad cmd tag rest e :
  command_ok cmd -> padding_ok pad cmd -> length tag = 32%nat ->
  deserialize_rc (Mac:=Mac) sk ck {| pending := frame pad cmd ++ tag ++ rest; at_end := e |} =
  (Ret (cmd, bool_decide (tag_of (Mac:=Mac) (key_for sk ck cmd) (frame pad cmd) = Some tag)),
   {| pending := rest; at_end := e |}).
Proof. destruct cmd; [apply deserialize_client_frame|apply deserialize_system_frame]. Qed.

(** ** The writer produces frames *)

Lemma zero_padding_ok cmd : padding_ok (zero_padding cmd) cmd.
Proof. by destruct cmd. Qed.

Lemma to_be_bytes_1 x : in_u8 x -> to_be_bytes 1 x = [x].
Proof.
  unfold in_u8, U8_MAX, to_be_bytes. intros. simpl. f_equal.
  rewrite Z.div_1_r. apply Z.mod_small. lia.
Qed.

Lemma serialize_body_frame cmd : command_ok cmd -> serialize_body cmd = frame (zero_padding cmd) cmd.
Proof.
  unfold vec_write_all, serialize_body, frame. destruct cmd as [[h ct]|[h ct]].
  - intros _. unfold serialize_client_rc, vec_write_all. frame_fields.
    destruct ct; cbn [client_payload]; rewrite ?app_nil_l, ?app_nil_r, <- !app_assoc; reflexivity.
  - intros (_ & _ & Hct). unfold serialize_system_rc, vec_write_all. frame_fields.
    destruct ct as [|ts wr v|ts wr v|]; cbn [system_payload];
      rewrite ?app_nil_l, ?app_nil_r, <- !app_assoc; try reflexivity.
    all: destruct Hct as (_ & Hwr & _); rewrite to_be_bytes_1 by done; reflexivity.
Qed.

(** Serializing a command is one [write_all] of its bytes and their tag. *)
Lemma serialize_rc_writes cmd key w :
  exists tag, tag_of (Mac:=Mac) key (serialize_body cmd) = Some tag /\ length tag = 32%nat /\
    serialize_rc (Mac:=Mac) cmd key w = write_all (serialize_body cmd ++ tag) w.
Proof.
  unfold serialize_rc, tag_of.
  destruct (new_from_slice_any key) as [mac ->]. simpl.
  exists (finalize (mac_update mac (serialize_body cmd))). rewrite finalize_length.
  split_and!; [done..|]. rewrite M_bind_lift. unfold to_array.
  rewrite finalize_length, decide_True by done. simpl. by rewrite M_bind_lift.
Qed.

Lemma serialize_rc_ok cmd key w :
  fault w = None ->
  exists tag, tag_of (Mac:=Mac) key (serialize_body cmd) = Some tag /\ length tag = 32%nat /\
    serialize_rc (Mac:=Mac) cmd key w =
    (Ret tt, {| written := written w ++ serialize_body cmd ++ tag; fault := None |}).
Proof.
  intros Hw. destruct (serialize_rc_writes cmd key w) as (tag & Htag & Hlen & Hrun).
  exists tag. split_and!; [done..|]. rewrite Hrun. unfold write_all. by rewrite Hw.
Qed.

(** ** Everything that the reader accepts is a frame *)

(** Reads a field of an accepted stream backwards: [x] is its bytes. *)
Tactic Notation "read_inv" hyp(H) "as" ident(x) :=
  let s := fresh "s" in let Hr := fresh "Hr" in
  apply M_bind_Ret_inv in H as (x & s & Hr & H);
  apply read_exact_inv in Hr as (? & ? & ?); destruct s as [? ?].

Lemma bytes_ok_app a b : bytes_ok (a ++ b) <-> bytes_ok a /\ bytes_ok b.
Proof. apply Forall_app. Qed.

Lemma be_bytes_u64 l : bytes_ok l -> length l = 8%nat ->
  in_u64 (from_be_bytes l) /\ to_be_bytes 8 (from_be_bytes l) = l.
Proof.
  intros Hok Hl. pose proof (from_be_bytes_bound l Hok) as Hb. rewrite Hl in Hb.
  pose proof (to_from_be_bytes l Hok) as Ht. rewrite Hl in Ht.
  split; [|done]. unfold in_u64, U64_MAX. simpl in Hb. lia.
Qed.

Lemma construct_client_inv (mac : Mac) m rest e cmd ok s' :
  bytes_ok rest ->
  construct_client_command mac m {| pending := rest; at_end := e |} = (Ret (cmd, ok), s') ->
  exists c tag, cmd = Client c /\ client_ok c /\ client_msg_type (c_content c) = m /\
    rest = to_be_bytes 8 (request_identifier (c_header c)) ++
           to_be_bytes 8 (c_sector_idx (c_header c)) ++ client_payload (c_content c) ++
           tag ++ pending s' /\
    length tag = 32%nat /\ at_end s' = e.
Proof.
  unfold construct_client_command. intros Hok Hrun.
  read_inv Hrun as rid. read_inv Hrun as sidx. destruct m; try discriminate.
  - rewrite M_bind_mret in Hrun. read_inv Hrun as tag. injection Hrun as <- <- <-.
    frame_fields; subst. rewrite !bytes_ok_app in Hok. destruct Hok as (Hok1 & Hok2 & _).
    eexists _, tag. split; [done|]. unfold client_ok. frame_fields.
    destruct (be_bytes_u64 _ Hok1) as [? E1], (be_bytes_u64 _ Hok2) as [? E2]; [done..|].
    rewrite E1, E2. split_and!; done.
  - rewrite M_bind_bind in Hrun. read_inv Hrun as data. rewrite M_bind_mret in Hrun.
    read_inv Hrun as tag. injection Hrun as <- <- <-. frame_fields; subst. rewrite !bytes_ok_app in Hok.
    destruct Hok as (Hok1 & Hok2 & Hok3 & _).
    eexists _, tag. split; [done|]. unfold client_ok. frame_fields.
    destruct (be_bytes_u64 _ Hok1) as [? E1], (be_bytes_u64 _ Hok2) as [? E2]; [done..|].
    rewrite E1, E2. split_and!; done.
Qed.

Lemma expect_from_slice_inv l (u : Uuid) (s s' : stream) :
  bytes_ok l -> lift (expect (E:=Error) "Uuid::from_slice" (from_slice l)) s = (Ret u, s') ->
  as_bytes u = l /\ s' = s.
Proof.
  intros Hok Hl. destruct (from_slice l) as [u'|] eqn:E; [|done].
  injection Hl as <- <-. split; [|done]. by apply as_bytes_from_slice.
Qed.

Lemma construct_system_inv (mac : Mac) pid m rest e cmd ok s' :
  bytes_ok rest -> in_u8 pid ->
  construct_system_command (Uuid:=Uuid) mac pid m {| pending := rest; at_end := e |} =
    (Ret (cmd, ok), s') ->
  exists s tag pw, cmd = System s /\ system_ok s /\ system_msg_type (content s) = m /\
    process_identifier (header s) = pid /\ length pw = 7%nat /\
    rest = as_bytes (msg_ident (header s)) ++ to_be_bytes 8 (sector_idx (header s)) ++
           system_payload pw (content s) ++ tag ++ pending s' /\
    length tag = 32%nat /\ at_end s' = e.
Proof.
  unfold construct_system_command. intros Hok Hpid Hrun. read_inv Hrun as uid.
  apply M_bind_Ret_inv in Hrun as (u & s1 & Hu & Hrun). frame_fields; subst.
  rewrite bytes_ok_app in Hok. destruct Hok as [Hok1 Hok].
  apply expect_from_slice_inv in Hu as [Hu ->]; [|done].
  read_inv Hrun as sidx. read_inv Hrun as tag. frame_fields; subst.
  rewrite !bytes_ok_app in Hok. destruct Hok as (Hok2 & _).
  destruct (be_bytes_u64 _ Hok2) as [? Hbe]; [done|].
  destruct m; try discriminate; rewrite M_bind_mret in Hrun; injection Hrun as <- <- <-;
    eexists _, tag, (replicate 7 0); (split; [done|]); unfold system_ok; frame_fields; rewrite Hbe; split_and!; done.
Qed.

Lemma last_of_eight (l : bytes) : length l = 8%nat -> l = take 7 l ++ [l !!! 7%nat].
Proof.
  intros Hl. rewrite <- (take_drop 7 l) at 1. f_equal.
  do 8 (destruct l as [|? l]; [discriminate|]). by destruct l.
Qed.

Lemma bytes_ok_lookup l k : bytes_ok l -> (k < length l)%nat -> in_u8 (l !!! k).
Proof.
  intros Hok Hk. destruct (lookup_lt_is_Some_2 l k Hk) as [x Hx].
  rewrite (list_lookup_total_correct _ _ _ Hx). eapply Forall_lookup_1; eauto.
Qed.

Lemma construct_advanced_inv (mac : Mac) pid m rest e cmd ok s' :
  bytes_ok rest -> in_u8 pid ->
  construct_advanced_system_command (Uuid:=Uuid) mac pid m {| pending := rest; at_end := e |} =
    (Ret (cmd, ok), s') ->
  exists s tag pw, cmd = System s /\ system_ok s /\ system_msg_type (content s) = m /\
    process_identifier (header s) = pid /\ length pw = 7%nat /\
    rest = as_bytes (msg_ident (header s)) ++ to_be_bytes 8 (sector_idx (header s)) ++
           system_payload pw (content s) ++ tag ++ pending s' /\
    length tag = 32%nat /\ at_end s' = e.
Proof.
  unfold construct_advanced_system_command. intros Hok Hpid Hrun. read_inv Hrun as uid.
  apply M_bind_Ret_inv in Hrun as (u & s1 & Hu & Hrun). frame_fields; subst.
  rewrite bytes_ok_app in Hok. destruct Hok as [Hok1 Hok].
  apply expect_from_slice_inv in Hu as [Hu ->]; [|done].
  read_inv Hrun as sidx. read_inv Hrun as ts. read_inv Hrun as wrb. read_inv Hrun as data.
  read_inv Hrun as tag. frame_fields; subst.
  rewrite !bytes_ok_app in Hok. destruct Hok as (Hok2 & Hok3 & Hok4 & Hok5 & _).
  destruct (be_bytes_u64 _ Hok2) as [? Hsidx], (be_bytes_u64 _ Hok3) as [? Hts]; [done..|].
  pose proof (bytes_ok_lookup wrb 7 Hok4 ltac:(lia)) as Hwr.
  pose proof (last_of_eight wrb ltac:(done)) as Hsplit.
  assert (length (take 7 wrb) = 7%nat) as Hpw by (rewrite length_take; lia).
  destruct m; try discriminate; rewrite M_bind_mret in Hrun; injection Hrun as <- <- <-.
  all: eexists _, tag, (take 7 wrb); split; [reflexivity|]; unfold system_ok; frame_fields;
    rewrite Hsidx, Hts, <- !app_assoc, (app_assoc (take 7 _)), <- Hsplit; split_and!; done.
Qed.

Lemma first_magic_dec l :
  (exists junk rest, first_magic l junk rest) \/ (forall k, take 4 (drop k l) <> MAGIC_NUMBER).
Proof.
  destruct (decide (4 <= length l)%nat) as [Hl|Hl].
  - destruct (slide_spec (take 4 l) (drop 4 l) {| kind := Other; inner := None |})
      as [(j & r & Hf & _)|[Hno _]]; rewrite ?take_drop in *; eauto.
    rewrite length_take. lia.
  - right. intros k Hk. apply (f_equal length) in Hk.
    rewrite length_take, length_drop, length_MAGIC_NUMBER in Hk. lia.
Qed.

Lemma frame_magic pad cmd : exists t, frame pad cmd = MAGIC_NUMBER ++ t.
Proof. destruct cmd; unfold frame; eauto. Qed.

Lemma header_of_four (hd : bytes) :
  length hd = 4%nat ->
  hd = take 3 hd ++ [hd !!! 3%nat] /\ hd = take 2 hd ++ [hd !!! 2%nat; hd !!! 3%nat].
Proof. intros Hl. do 4 (destruct hd as [|? hd]; [discriminate|]). by destruct hd. Qed.

Lemma deserialize_message_inv sk ck rest e cmd ok s' :
  bytes_ok rest ->
  deserialize_message (Uuid:=Uuid) (Mac:=Mac) sk ck MAGIC_NUMBER
    {| pending := rest; at_end := e |} = (Ret (cmd, ok), s') ->
  exists pad tag, MAGIC_NUMBER ++ rest = frame pad cmd ++ tag ++ pending s' /\
    command_ok cmd /\ padding_ok pad cmd /\ length tag = 32%nat /\ at_end s' = e.
Proof.
  unfold deserialize_message. intros Hok Hrun. read_inv Hrun as hd. frame_fields. subst.
  apply bytes_ok_app in Hok as [Hok1 Hok2].
  match goal with Hl : length hd = 4%nat |- _ =>
    pose proof (header_of_four hd Hl) as [H3 H2'];
    pose proof (bytes_ok_lookup hd 2 Hok1 ltac:(lia)) as Hpid end.
  destruct (MessageType.try_from (hd !!! 3%nat)) as [m|] eqn:Em; [|done].
  rewrite M_bind_lift in Hrun. apply MessageType.try_from_inv in Em.
  destruct (new_mac_total sk) as (smac & _ & Hs), (new_mac_total ck) as (cmac & _ & Hc).
  rewrite Hs, Hc in Hrun.
  destruct m; rewrite M_bind_lift in Hrun; cbn beta zeta in Hrun.
  1,2: apply construct_client_inv in Hrun as (c & tag & -> & Hc' & Hm & -> & Ht & He); [|done];
    exists {| pad_head := take 3 hd; pad_wr := replicate 7 0 |}, tag;
    unfold frame, padding_ok; rewrite Hm, <- Em; cbn [pad_head pad_wr];
    rewrite <- H3, length_take, <- !app_assoc; split_and!; try done; lia.
  all: first [apply construct_system_inv in Hrun | apply construct_advanced_inv in Hrun]; [|done..];
    destruct Hrun as (c & tag & pw & -> & Hc' & Hm & Hp & Hpw & -> & Ht & He);
    exists {| pad_head := take 2 hd; pad_wr := pw |}, tag;
    unfold frame, padding_ok; rewrite Hm, Hp, <- Em; cbn [pad_head pad_wr];
    rewrite <- H2', length_take, <- !app_assoc; split_and!; try done; lia.
Qed.

(** ** Errors and panics *)

(** A reader that fails only with the error of the stream and never panics. *)
Definition stream_safe {A} (m : M stream Error A) : Prop := forall s,
  match m s with
  | (Ret _, s') => at_end s' = at_end s
  | (Err e, _) => e = at_end s
  | (Panic _, _) => False
  end.

Lemma stream_safe_ret {A} (a : A) : stream_safe (mret a).
Proof. intros s. reflexivity. Qed.

Lemma stream_safe_read {A} n (f : bytes -> M stream Error A) :
  (forall a, length a = n -> stream_safe (f a)) -> stream_safe (read_exact n ≫= f).
Proof.
  intros Hf s. unfold mbind, M_bind. destruct (read_exact n s) as [[a|e|w] s1] eqn:E.
  - apply read_exact_inv in E as (_ & Ha & He). specialize (Hf a Ha s1).
    rewrite He in Hf. exact Hf.
  - by apply read_exact_Err in E.
  - by apply read_exact_not_Panic in E.
Qed.

Lemma stream_safe_from_slice {A} l (f : Uuid -> M stream Error A) :
  length l = 16%nat -> (forall u, stream_safe (f u)) ->
  stream_safe (lift (expect "Uuid::from_slice" (from_slice l)) ≫= f).
Proof. intros Hl Hf s. destruct (from_slice_length l Hl) as [u ->]. apply Hf. Qed.

Lemma stream_safe_bind_bind {A B C} (m : M stream Error A) (f : A -> M stream Error B)
    (g : B -> M stream Error C) :
  stream_safe (m ≫= fun a => f a ≫= g) -> stream_safe ((m ≫= f) ≫= g).
Proof. intros Hs s. rewrite M_bind_bind. apply Hs. Qed.

Lemma stream_safe_mret_bind {A B} (a : A) (f : A -> M stream Error B) :
  stream_safe (f a) -> stream_safe ((mret a : M stream Error A) ≫= f).
Proof. intros Hs s. apply Hs. Qed.

#[local] Hint Resolve stream_safe_ret stream_safe_read stream_safe_from_slice
  stream_safe_bind_bind stream_safe_mret_bind : wire_safe.

Lemma construct_client_safe (mac : Mac) m :
  m = MessageType.Read \/ m = MessageType.Write ->
  stream_safe (construct_client_command (Uuid:=Uuid) mac m).
Proof. unfold construct_client_command. intros [-> | ->]; eauto 20 with wire_safe. Qed.

Lemma construct_system_safe (mac : Mac) pid m :
  m = MessageType.ReadProc \/ m = MessageType.Ack ->
  stream_safe (construct_system_command (Uuid:=Uuid) mac pid m).
Proof. unfold construct_system_command. intros [-> | ->]; eauto 20 with wire_safe. Qed.

Lemma construct_advanced_safe (mac : Mac) pid m :
  m = MessageType.Value \/ m = MessageType.WriteProc ->
  stream_safe (construct_advanced_system_command (Uuid:=Uuid) mac pid m).
Proof. unfold construct_advanced_system_command. intros [-> | ->]; eauto 30 with wire_safe. Qed.

Lemma try_from_unknown b : (forall m, b <> MessageType.as_u8 m) ->
  MessageType.try_from b = inr InvalidMessageType.
Proof.
  intros Hb. destruct (MessageType.try_from b) as [m|err] eqn:E.
  - by destruct (Hb m); apply MessageType.try_from_inv.
  - unfold MessageType.try_from in E. repeat (case_match; try discriminate); congruence.
Qed.

Lemma message_panic sk ck b0 b1 b2 b3 rest e :
  (forall m, b3 <> MessageType.as_u8 m) ->
  deserialize_message (Uuid:=Uuid) (Mac:=Mac) sk ck MAGIC_NUMBER
    {| pending := b0 :: b1 :: b2 :: b3 :: rest; at_end := e |} =
  (Panic (debug InvalidMessageType), {| pending := rest; at_end := e |}).
Proof.
  intros Hb. unfold deserialize_message.
  change (b0 :: b1 :: b2 :: b3 :: rest) with ([b0; b1; b2; b3] ++ rest).
  rewrite read_bind by done. cbn beta. change ([b0; b1; b2; b3] !!! 3%nat) with b3.
  by rewrite try_from_unknown.
Qed.

(** After the magic number: an error of the stream, a panic on the message
    type, or a command. *)
Lemma message_cases sk ck rest e :
  let r := deserialize_message (Uuid:=Uuid) (Mac:=Mac) sk ck MAGIC_NUMBER
             {| pending := rest; at_end := e |} in
  (exists s', r = (Err e, s')) \/ (exists c s', r = (Ret c, s')) \/
  (exists b0 b1 b2 b3 rest', rest = b0 :: b1 :: b2 :: b3 :: rest' /\
     (forall m, b3 <> MessageType.as_u8 m)).
Proof.
  intros r. destruct (decide (4 <= length rest)%nat) as [Hl|Hl].
  2: { left. eexists. apply M_bind_Err. unfold read_exact. simpl. by rewrite decide_False. }
  do 4 (destruct rest as [|? rest]; [simpl in Hl; lia|]). clear Hl.
  match goal with r := context [?b0 :: ?b1 :: ?b2 :: ?b3 :: rest] |- _ =>
    change (b0 :: b1 :: b2 :: b3 :: rest) with ([b0; b1; b2; b3] ++ rest) in r;
    unfold r, deserialize_message; rewrite read_bind by done; cbn beta; clear r;
    change ([b0; b1; b2; b3] !!! 3%nat) with b3;
    destruct (MessageType.try_from b3) as [m|] eqn:Em
  end.
  2: { right. right. do 5 eexists. split; [done|]. intros m ->.
       by rewrite MessageType.try_from_as_u8 in Em. }
  rewrite M_bind_lift.
  destruct (new_mac_total sk) as (smac & _ & ->), (new_mac_total ck) as (cmac & _ & ->).
  destruct m; rewrite M_bind_lift; cbn beta zeta.
  all: match goal with |- context [?run ?s = _] =>
    let Hs := fresh in
    assert (stream_safe run) as Hs by
      (apply construct_client_safe || apply construct_system_safe || apply construct_advanced_safe;
       tauto);
    specialize (Hs s); destruct (run s) as [[c|e'|w] s']; simpl in Hs; subst; eauto; done
  end.
Qed.

(** ** More input does not change a decision *)

(** A result that is not an error of the stream stays the same, and leaves the
    extra bytes behind, when more bytes follow. *)
Definition stream_mono {A} (m : M stream Error A) : Prop := forall p q e r s',
  m {| pending := p; at_end := e |} = (r, s') -> (forall e', r <> Err e') ->
  m {| pending := p ++ q; at_end := e |} =
  (r, {| pending := pending s' ++ q; at_end := at_end s' |}).

Lemma stream_mono_lift {A} (o : outcome Error A) : stream_mono (lift o).
Proof. intros p q e r s' [= <- <-] _. reflexivity. Qed.

Lemma stream_mono_ret {A} (a : A) : stream_mono (mret a).
Proof. intros p q e r s' [= <- <-] _. reflexivity. Qed.

Lemma stream_mono_read n : stream_mono (read_exact n).
Proof.
  intros p q e r s' Hrun Hr. unfold read_exact in *. simpl in *.
  case_decide as Hn; [|destruct (Hr e); congruence].
  injection Hrun as <- <-. rewrite length_app, decide_True by lia. simpl.
  by rewrite take_app_le, drop_app_le by lia.
Qed.

Lemma stream_mono_slide w : stream_mono (fun s => slide w (pending s) (at_end s)).
Proof.
  intros p q e r s'. simpl. revert w. induction p as [|b p IH]; intros w; simpl.
  - case_decide as Hw.
    + intros [= <- <-] _. simpl. destruct q; simpl; by rewrite decide_True.
    + intros [= <- <-] Hr. by destruct (Hr e).
  - case_decide as Hw; [by intros [= <- <-] _|]. apply IH.
Qed.

Lemma stream_mono_bind {A B} (m : M stream Error A) (f : A -> M stream Error B) :
  stream_mono m -> (forall a, stream_mono (f a)) -> stream_mono (m ≫= f).
Proof.
  intros Hm Hf p q e r s' Hrun Hr. unfold mbind, M_bind in *.
  destruct (m {| pending := p; at_end := e |}) as [[a|e'|w] s1] eqn:E.
  - rewrite (Hm _ q _ _ _ E) by done. destruct s1 as [p1 e1]. by apply Hf.
  - destruct (Hr e'). congruence.
  - rewrite (Hm _ q _ _ _ E) by done. by simplify_eq.
Qed.

#[local] Hint Resolve stream_mono_lift stream_mono_ret stream_mono_read stream_mono_slide
  stream_mono_bind : wire_safe.

Lemma deserialize_mono sk ck : stream_mono (deserialize_rc (Uuid:=Uuid) (Mac:=Mac) sk ck).
Proof.
  unfold deserialize_rc. do 2 (apply stream_mono_bind; [auto with wire_safe|intros ?]).
  unfold deserialize_message. do 2 (apply stream_mono_bind; [auto with wire_safe|intros ?]).
  case_match; apply stream_mono_bind; unfold new_mac; auto with wire_safe; intros mac.
  all: unfold construct_client_command, construct_system_command,
         construct_advanced_system_command; cbn beta zeta iota;
       repeat (apply stream_mono_bind; [auto with wire_safe|intros ?]); auto with wire_safe.
  all: case_match; auto with wire_safe.
Qed.

Lemma deserialize_frame_after junk pad cmd tag rest sk ck e :
  (forall k, (k < length junk)%nat ->
     take 4 (drop k (junk ++ frame pad cmd ++ tag ++ rest)) <> MAGIC_NUMBER) ->
  command_ok cmd -> padding_ok pad cmd -> length tag = 32%nat ->
  deserialize_rc (Mac:=Mac) sk ck
    {| pending := junk ++ frame pad cmd ++ tag ++ rest; at_end := e |} =
  (Ret (cmd, bool_decide (tag_of (Mac:=Mac) (key_for sk ck cmd) (frame pad cmd) = Some tag)),
   {| pending := rest; at_end := e |}).
Proof.
  intros Hf Hc Hp Ht. rewrite <- (deserialize_frame sk ck pad cmd tag rest e) by done.
  destruct (frame_magic pad cmd) as [t E]. rewrite E in *.
  rewrite <- !app_assoc in *.
  rewrite (deserialize_skip _ _ _ junk (t ++ tag ++ rest)) by done.
  by rewrite (deserialize_skip _ _ _ [] _ _ (first_magic_nil _)).
Qed.

(** C7: The reader accepts exactly the byte strings that hold, after what
    precedes the first magic number, a frame of a well-formed command and a
    32-byte tag; it returns that command, leaves what follows the tag in the
    stream, and reports the HMAC as valid exactly when the tag is the one of
    the frame under the key of the command's kind. *)
Theorem deserialize_accepts_exactly_frames sk ck l e cmd ok s' :
  bytes_ok l ->
  deserialize_rc (Uuid:=Uuid) (Mac:=Mac) sk ck {| pending := l; at_end := e |} = (Ret (cmd, ok), s') <->
  exists junk pad tag,
    l = junk ++ frame pad cmd ++ tag ++ pending s' /\
    (forall k, (k < length junk)%nat -> take 4 (drop k l) <> MAGIC_NUMBER) /\
    command_ok cmd /\ padding_ok pad cmd /\ length tag = 32%nat /\
    ok = bool_decide (tag_of (Mac:=Mac) (key_for sk ck cmd) (frame pad cmd) = Some tag) /\
    at_end s' = e.
Proof.
  intros Hok. split.
  - intros Hrun. destruct (first_magic_dec l) as [(junk & rest & Hf)|Hno].
    2: { by rewrite deserialize_no_magic in Hrun. }
    pose proof Hf as [Hl Hfirst]. rewrite (deserialize_skip _ _ _ _ _ _ Hf) in Hrun.
    pose proof Hok as Hok'. rewrite Hl, !bytes_ok_app in Hok'.
    destruct (deserialize_message_inv _ _ _ _ _ _ _ (proj2 (proj2 Hok')) Hrun)
      as (pad & tag & Heq & Hc & Hp & Ht & He).
    exists junk, pad, tag. rewrite <- Heq. split_and!; try done.
    rewrite <- (deserialize_skip _ _ _ [] _ _ (first_magic_nil _)), Heq in Hrun.
    rewrite deserialize_frame in Hrun by done. congruence.
  - intros (junk & pad & tag & -> & Hf & Hc & Hp & Ht & -> & <-).
    rewrite deserialize_frame_after by done. by destruct s'.
Qed.

(** What is written is read back. *)
Lemma round_trip sk ck cmd w junk rest e :
  command_ok cmd -> fault w = None ->
  (forall k, take 4 (drop k junk) <> MAGIC_NUMBER) ->
  exists wire,
    serialize_rc (Mac:=Mac) cmd (key_for sk ck cmd) w =
      (Ret tt, {| written := written w ++ wire; fault := None |}) /\
    deserialize_rc (Uuid:=Uuid) (Mac:=Mac) sk ck
      {| pending := junk ++ wire ++ rest; at_end := e |} =
      (Ret (cmd, true), {| pending := rest; at_end := e |}).
Proof.
  intros Hc Hw Hj.
  destruct (serialize_rc_ok cmd (key_for sk ck cmd) w Hw) as (tag & Htag & Hlen & Hs).
  exists (serialize_body cmd ++ tag). split; [exact Hs|].
  rewrite serialize_body_frame in * by done. rewrite <- app_assoc.
  rewrite deserialize_frame_after; [by rewrite bool_decide_true| |done|apply zero_padding_ok|done].
  destruct (frame_magic (zero_padding cmd) cmd) as [t ->]. rewrite <- !app_assoc.
  apply first_magic_clean, Hj.
Qed.

(** C30: Round trip with resynchronisation: a well-formed command written to a
    sink, received after bytes that hold no magic number and followed by
    anything, is read back with a valid HMAC and what follows is left in the
    stream. *)
Theorem serialize_deserialize_roundtrip sk ck cmd w junk rest e :
  command_ok cmd -> fault w = None ->
  (forall k, take 4 (drop k junk) <> MAGIC_NUMBER) ->
  exists wire,
    serialize_rc (Mac:=Mac) cmd (key_for sk ck cmd) w =
      (Ret tt, {| written := written w ++ wire; fault := None |}) /\
    deserialize_rc (Uuid:=Uuid) (Mac:=Mac) sk ck
      {| pending := junk ++ wire ++ rest; at_end := e |} =
      (Ret (cmd, true), {| pending := rest; at_end := e |}).
Proof. apply round_trip. Qed.

(** The signed bytes determine the command: two well-formed commands with
    the same body are the same command, whatever their kinds. *)
Theorem serialize_body_injective (a b : RegisterCommand Uuid) :
  command_ok a -> command_ok b -> serialize_body a = serialize_body b -> a = b.
Proof.
  intros Ha Hb Heq. rewrite !serialize_body_frame in Heq by done.
  set (tag := replicate 32 0). set (e := Error_from Io).
  pose proof (deserialize_frame [] [] _ a tag [] e Ha (zero_padding_ok a) eq_refl) as Ra.
  pose proof (deserialize_frame [] [] _ b tag [] e Hb (zero_padding_ok b) eq_refl) as Rb.
  rewrite Heq, Rb in Ra. congruence.
Qed.

(** C34: The reader panics exactly when the first magic number is followed by a
    message type that it does not know; the eight bytes of the header are gone
    from the stream by then. *)
Theorem deserialize_panics_exactly_on_unknown_type sk ck l e w s' :
  deserialize_rc (Uuid:=Uuid) (Mac:=Mac) sk ck {| pending := l; at_end := e |} = (Panic w, s') <->
  exists junk b0 b1 b2 b3,
    first_magic l junk (b0 :: b1 :: b2 :: b3 :: pending s') /\
    (forall m, b3 <> MessageType.as_u8 m) /\
    w = debug InvalidMessageType /\ at_end s' = e.
Proof.
  destruct (first_magic_dec l) as [(junk & rest & Hf)|Hno].
  - rewrite (deserialize_skip _ _ _ _ _ _ Hf). split.
    + intros Hrun. destruct (message_cases sk ck rest e) as
        [(s1 & Hr)|[(c & s1 & Hr)|(b0 & b1 & b2 & b3 & rest' & -> & Hb)]]; [congruence..|].
      rewrite message_panic in Hrun by done. injection Hrun as <- <-. by exists junk, b0, b1, b2, b3.
    + intros (j & b0 & b1 & b2 & b3 & Hf' & Hb & -> & He).
      destruct (first_magic_unique _ _ _ _ _ Hf Hf') as [-> ->]. subst e. rewrite message_panic by done. by destruct s'.
  - rewrite deserialize_no_magic by done. split; [done|].
    intros (j & b0 & b1 & b2 & b3 & [Hl _] & _). destruct (Hno (length j)).
    rewrite Hl, drop_app_length. reflexivity.
Qed.

Lemma deserialize_cases sk ck l e :
  (exists s', deserialize_rc (Uuid:=Uuid) (Mac:=Mac) sk ck {| pending := l; at_end := e |} = (Err e, s')) \/
  (exists r s', deserialize_rc (Uuid:=Uuid) (Mac:=Mac) sk ck {| pending := l; at_end := e |} = (r, s') /\
     forall e', r <> Err e').
Proof.
  destruct (first_magic_dec l) as [(junk & rest & Hf)|Hno].
  - rewrite (deserialize_skip _ _ _ _ _ _ Hf).
    destruct (message_cases sk ck rest e) as
      [(s1 & ->)|[(c & s1 & ->)|(b0 & b1 & b2 & b3 & rest' & -> & Hb)]].
    + eauto.
    + right. by do 2 eexists.
    + right. rewrite message_panic by done. by do 2 eexists.
  - left. rewrite deserialize_no_magic by done. eauto.
Qed.

(** Every error the reader returns is the one that ended the stream; in
    particular the [InvaildData] arms of the field readers are never taken. *)
Theorem deserialize_error_is_stream_error sk ck s e s' :
  deserialize_rc (Uuid:=Uuid) (Mac:=Mac) sk ck s = (Err e, s') -> e = at_end s.
Proof.
  destruct s as [l e0]. intros Hrun.
  destruct (deserialize_cases sk ck l e0) as [(s1 & Hr)|(r & s1 & Hr & Hne)]; simpl.
  - congruence.
  - destruct (Hne e). congruence.
Qed.

(** A message cut short is never accepted: on a strict prefix of what the
    writer sends, the reader returns the error that ended the stream. *)
Theorem truncated_message_is_error sk ck cmd tag p q e :
  command_ok cmd ->
  tag_of (Mac:=Mac) (key_for sk ck cmd) (serialize_body cmd) = Some tag ->
  serialize_body cmd ++ tag = p ++ q -> q <> [] ->
  exists s', deserialize_rc (Uuid:=Uuid) (Mac:=Mac) sk ck {| pending := p; at_end := e |} = (Err e, s').
Proof.
  intros Hc Htag Hpq Hq.
  assert (length tag = 32%nat) as Hlen.
  { destruct (tag_of_total (key_for sk ck cmd) (serialize_body cmd)) as (t & ? & ?). congruence. }
  rewrite serialize_body_frame in * by done. set (pad := zero_padding cmd) in *.
  pose proof (deserialize_frame sk ck pad cmd tag [] e Hc (zero_padding_ok cmd) Hlen) as Hfull.
  rewrite app_nil_r, Hpq in Hfull.
  pose proof (deserialize_mono sk ck p q e) as Hmono.
  destruct (deserialize_cases sk ck p e) as [Herr|(r & s' & Hrun & Hr)]; [exact Herr|].
  specialize (Hmono r s' Hrun Hr). rewrite Hmono in Hfull.
  injection Hfull as _ Hnil. by apply app_eq_nil in Hnil as [_ ->].
Qed.

(** The layout of a message: the magic number, the sender and the message
    type at offsets 6 and 7, the identifier of the request or of the operation
    from offset 8 on, the sector index, and the total length with the tag. *)
Lemma serialized_layout cmd :
  command_ok cmd ->
  let b := serialize_body cmd in
  take 4 b = MAGIC_NUMBER /\
  match cmd with
  | Client c =>
      b !! 7%nat = Some (MessageType.as_u8 (client_msg_type (c_content c))) /\
      from_be_bytes (take 8 (drop 8 b)) = request_identifier (c_header c) /\
      from_be_bytes (take 8 (drop 16 b)) = c_sector_idx (c_header c) /\
      length b = match c_content c with Read => 24%nat | Write _ => (24 + SECTOR_SIZE)%nat end
  | System s =>
      b !! 6%nat = Some (process_identifier (header s)) /\
      b !! 7%nat = Some (MessageType.as_u8 (system_msg_type (content s))) /\
      take 16 (drop 8 b) = as_bytes (msg_ident (header s)) /\
      from_be_bytes (take 8 (drop 24 b)) = sector_idx (header s) /\
      length b = match content s with
                 | ReadProc | Ack => 32%nat
                 | Value _ _ _ | WriteProc _ _ _ => (48 + SECTOR_SIZE)%nat
                 end
  end.
Proof.
  intros Hok. cbn zeta. rewrite serialize_body_frame by done. destruct cmd as [c|s]; simpl in Hok.
  - destruct Hok as (Hr & Hs & Hc). split; [done|]. split; [done|].
    unfold frame. cbn [zero_padding pad_head].
    rewrite (app_assoc MAGIC_NUMBER), drop_app_length', take_app_length' by wire_len.
    rewrite (app_assoc _ (to_be_bytes 8 _)), drop_app_length', take_app_length' by wire_len.
    rewrite !from_to_be_u64 by done. split_and!; [done..|].
    autorewrite with wire. destruct (c_content c); simpl in *; [done|]. destruct Hc. lia.
  - destruct Hok as (Hp & Hs & Hc). do 3 (split; [done|]).
    unfold frame. cbn [zero_padding pad_head pad_wr].
    rewrite (app_assoc MAGIC_NUMBER), drop_app_length', take_app_length' by wire_len.
    rewrite (app_assoc _ (as_bytes _)), drop_app_length', take_app_length' by wire_len.
    rewrite from_to_be_u64 by done. split_and!; [done..|].
    autorewrite with wire. destruct (content s); simpl in *; try done.
    all: destruct Hc as (_ & _ & _ & Hlen); autorewrite with wire; lia.
Qed.

End TransferFacts.

(** ** The theorems at concrete messages *)

Module TransferExamples.

Definition sk : bytes := replicate 64 1.
Definition ck : bytes := replicate 32 5.
Definition eof : Error := {| kind := UnexpectedEof; inner := None |}.

Definition read_cmd : RegisterCommand Toy.Uuid :=
  Client {| c_header := {| request_identifier := 7; c_sector_idx := 8 |}; c_content := Read |}.
Definition write_cmd : RegisterCommand Toy.Uuid :=
  Client {| c_header := {| request_identifier := 1778; c_sector_idx := 12 |};
            c_content := Write (replicate SECTOR_SIZE 3) |}.

Definition wire_of (cmd : RegisterCommand Toy.Uuid) : bytes :=
  written (snd (serialize_rc (Mac:=Toy.Mac) cmd (key_for sk ck cmd) {| written := []; fault := None |})).

Definition garbage : bytes := [0x61; 0x74; 0x64; 0; 0x61].

Lemma example_bytes_ok : bytes_ok (garbage ++ wire_of read_cmd ++ [9]).
Proof. by_evaluation. Qed.

Lemma example_accepted :
  deserialize_rc (Uuid:=Toy.Uuid) (Mac:=Toy.Mac) sk ck
    {| pending := garbage ++ wire_of read_cmd ++ [9]; at_end := eof |} =
  (Ret (read_cmd, true), {| pending := [9]; at_end := eof |}).
Proof. vm_compute. reflexivity. Qed.

Lemma deserialize_accepts_exactly_frames_witness :
  exists junk pad tag,
    garbage ++ wire_of read_cmd ++ [9] = junk ++ frame pad read_cmd ++ tag ++ [9] /\ length tag = 32%nat.
Proof.
  destruct (proj1 (deserialize_accepts_exactly_frames (Mac:=Toy.Mac) sk ck
    (garbage ++ wire_of read_cmd ++ [9]) eof read_cmd true {| pending := [9]; at_end := eof |}
    example_bytes_ok) example_accepted) as (junk & pad & tag & Hl & _ & _ & _ & Ht & _).
  exists junk, pad, tag. split; [exact Hl|exact Ht].
Defined.

Lemma garbage_clean k : take 4 (drop k garbage) <> MAGIC_NUMBER.
Proof. do 5 (destruct k as [|k]; [done|]). by destruct k. Qed.

Lemma command_ok_write : command_ok write_cmd.
Proof.
  unfold command_ok, client_ok, write_cmd. simpl. unfold in_u64, U64_MAX.
  split; [lia|]. split; [lia|]. split; [|apply length_replicate].
  apply Forall_replicate. unfold in_u8, U8_MAX. lia.
Qed.

Lemma serialize_deserialize_roundtrip_witness :
  exists wire, deserialize_rc (Uuid:=Toy.Uuid) (Mac:=Toy.Mac) sk ck
    {| pending := garbage ++ wire ++ [1; 2]; at_end := eof |} =
    (Ret (write_cmd, true), {| pending := [1; 2]; at_end := eof |}).
Proof.
  destruct (serialize_deserialize_roundtrip (Mac:=Toy.Mac) sk ck write_cmd
    {| written := []; fault := None |} garbage [1; 2] eof command_ok_write eq_refl garbage_clean)
    as (wire & _ & H).
  exists wire. exact H.
Defined.

Lemma serialize_body_injective_witness : write_cmd = write_cmd.
Proof. apply serialize_body_injective; [exact command_ok_write|exact command_ok_write|reflexivity]. Defined.

Lemma deserialize_panics_exactly_on_unknown_type_witness :
  deserialize_rc (Uuid:=Toy.Uuid) (Mac:=Toy.Mac) sk ck
    {| pending := 7 :: MAGIC_NUMBER ++ [0; 0; 0; 9; 1; 2]; at_end := eof |} =
  (Panic (debug InvalidMessageType), {| pending := [1; 2]; at_end := eof |}).
Proof.
  apply (deserialize_panics_exactly_on_unknown_type (Uuid:=Toy.Uuid) (Mac:=Toy.Mac) sk ck
    (7 :: MAGIC_NUMBER ++ [0; 0; 0; 9; 1; 2]) eof (debug InvalidMessageType) {| pending := [1; 2]; at_end := eof |}).
  exists [7], 0, 0, 0, 9. split; [|split; [intros []; discriminate|split; reflexivity]].
  split; [reflexivity|]. intros [|k] Hk; [discriminate|simpl in Hk; lia].
Defined.

Lemma deserialize_error_is_stream_error_witness :
  let s := {| pending := take 20 (wire_of read_cmd); at_end := eof |} in
  fst (deserialize_rc (Uuid:=Toy.Uuid) (Mac:=Toy.Mac) sk ck s) = Err eof /\ eof = at_end s.
Proof.
  split; [vm_compute; reflexivity|].
  apply (deserialize_error_is_stream_error (Uuid:=Toy.Uuid) (Mac:=Toy.Mac) sk ck
    {| pending := take 20 (wire_of read_cmd); at_end := eof |} eof {| pending := []; at_end := eof |}).
  vm_compute. reflexivity.
Defined.

Lemma truncated_message_is_error_witness :
  exists s', deserialize_rc (Uuid:=Toy.Uuid) (Mac:=Toy.Mac) sk ck
    {| pending := take 30 (wire_of read_cmd); at_end := eof |} = (Err eof, s').
Proof.
  apply (truncated_message_is_error sk ck read_cmd (drop 24 (wire_of read_cmd))
    (take 30 (wire_of read_cmd)) (drop 30 (wire_of read_cmd)) eof).
  - repeat split; unfold in_u64, U64_MAX; simpl; lia.
  - vm_compute. reflexivity.
  - vm_compute. reflexivity.
  - vm_compute. discriminate.
Defined.

End TransferExamples.
