(* ===== verification/Text.v ===== *)
(** * Numbers in file names

    The parts of the standard library that [sectors_manager.rs] names its files
    with: [format!] of unsigned integers, [str::split] and [str::parse]. *)

From Stdlib Require Import Ascii.
From S2P Require Import Prelude.

#[local] Open Scope string_scope.

(** ** Decimal printing: [format!] with one integer *)

Definition digit (d : Z) : ascii := ascii_of_N (Z.to_N (48 + d)).

Fixpoint display_go (fuel : nat) (x : Z) (acc : string) : string :=
  match fuel with
  | O => acc
  | S fuel' =>
      let acc := String (digit (x mod 10)) acc in
      if decide (x / 10 = 0) then acc else display_go fuel' (x / 10) acc
  end.

(** Twenty digits hold every [u64]. *)
Definition display (x : u64) : string := display_go 20 x "".

(** ** Decimal parsing: [str::parse] at an unsigned type with maximum [max] *)

Definition digit_val (c : ascii) : option Z :=
  let n := Z.of_N (N_of_ascii c) in
  if decide (48 <= n <= 57) then Some (n - 48) else None.

Fixpoint parse_go (max acc : Z) (s : string) : option Z :=
  match s with
  | EmptyString => Some acc
  | String c s' =>
      d ← digit_val c;
      if decide (acc * 10 + d <= max) then parse_go max (acc * 10 + d) s' else None
  end.

(** An empty string is refused, as is a lone sign; a leading [+] is allowed. *)
Definition parse_uint (max : Z) (s : string) : option Z :=
  match s with
  | EmptyString => None
  | String c s' =>
      if decide (c = "+"%char)
      then match s' with EmptyString => None | _ => parse_go max 0 s' end
      else parse_go max 0 s
  end.

(** ** [str::split] at a character *)

Fixpoint split (c : ascii) (s : string) : list string :=
  match s with
  | EmptyString => [""]
  | String a s' =>
      if decide (a = c) then "" :: split c s'
      else match split c s' with
           | [] => []
           | h :: t => String a h :: t
           end
  end.

(** ** Facts *)

Fixpoint string_forall (P : ascii -> Prop) (s : string) : Prop :=
  match s with EmptyString => True | String c s' => P c /\ string_forall P s' end.

Definition is_digit (c : ascii) : Prop := is_Some (digit_val c).

Lemma digit_val_digit d : 0 <= d < 10 -> digit_val (digit d) = Some d.
Proof.
  intros Hd. unfold digit_val, digit. rewrite N_ascii_embedding by lia.
  rewrite Z2N.id by lia. rewrite decide_True by lia. f_equal. lia.
Qed.

Lemma mod_10_digit x : 0 <= x mod 10 < 10.
Proof. apply Z.mod_pos_bound. lia. Qed.

Lemma parse_display_go max fuel x acc :
  0 <= x <= max -> x < 10 ^ Z.of_nat fuel ->
  parse_go max 0 (display_go fuel x acc) = parse_go max x acc.
Proof.
  revert x acc. induction fuel as [|fuel IH]; intros x acc Hx Hf; simpl.
  - change (10 ^ Z.of_nat 0) with 1 in Hf. by replace x with 0 by lia.
  - pose proof (Z.div_mod x 10 ltac:(lia)) as Hdm. pose proof (mod_10_digit x) as Hm.
    assert (0 <= x / 10) by (apply Z.div_pos; lia).
    case_decide as H0.
    + simpl. rewrite digit_val_digit by done. simpl. rewrite decide_True by lia. f_equal. lia.
    + rewrite IH; [|lia|].
      * simpl. rewrite digit_val_digit by done. simpl. rewrite decide_True by lia. f_equal. lia.
      * apply Z.div_lt_upper_bound; [lia|].
        replace (Z.of_nat (S fuel)) with (Z.succ (Z.of_nat fuel)) in Hf by lia.
        rewrite Z.pow_succ_r in Hf by lia. lia.
Qed.

Lemma display_go_digits fuel x acc :
  string_forall is_digit acc -> string_forall is_digit (display_go fuel x acc).
Proof.
  revert x acc. induction fuel as [|fuel IH]; intros x acc Hacc; simpl; [done|].
  assert (string_forall is_digit (String (digit (x mod 10)) acc)).
  { split; [|done]. eexists. apply digit_val_digit, mod_10_digit. }
  case_decide; auto.
Qed.

Lemma display_digits x : string_forall is_digit (display x).
Proof. by apply display_go_digits. Qed.

Lemma display_go_nonempty fuel x c acc : exists c' s, display_go fuel x (String c acc) = String c' s.
Proof.
  revert x c acc. induction fuel as [|fuel IH]; intros x c acc; simpl; [eauto|].
  case_decide; eauto.
Qed.

Lemma display_go_S_nonempty fuel x acc : exists c s, display_go (S fuel) x acc = String c s.
Proof. simpl. case_decide; eauto using display_go_nonempty. Qed.

Lemma display_nonempty x : exists c s, display x = String c s.
Proof. apply (display_go_S_nonempty 19). Qed.

Lemma string_forall_weaken (P Q : ascii -> Prop) s :
  (forall c, P c -> Q c) -> string_forall P s -> string_forall Q s.
Proof. intros HPQ. induction s; simpl; naive_solver. Qed.

Lemma digit_not_sign c : is_digit c -> c <> "+"%char.
Proof. intros [d Hd] ->. vm_compute in Hd. discriminate. Qed.

Lemma digit_not_underscore c : is_digit c -> c <> "_"%char.
Proof. intros [d Hd] ->. vm_compute in Hd. discriminate. Qed.

(** Printing then parsing gives the number back. *)
Lemma parse_display max x : 0 <= x <= max -> max <= U64_MAX -> parse_uint max (display x) = Some x.
Proof.
  intros Hx Hmax. unfold parse_uint.
  destruct (display_nonempty x) as (c & s & E). rewrite E.
  pose proof (display_digits x) as Hd. rewrite E in Hd. destruct Hd as [Hc _].
  rewrite decide_False by by apply digit_not_sign.
  rewrite <- E. unfold display. rewrite parse_display_go; [done|done|].
  change (Z.of_nat 20) with 20. unfold U64_MAX in Hmax. lia.
Qed.

Lemma split_none c s : string_forall (fun a => a <> c) s -> split c s = [s].
Proof.
  induction s as [|a s IH]; simpl; [done|]. intros [Ha Hs].
  rewrite decide_False by done. by rewrite IH.
Qed.

Lemma split_app c s1 s2 :
  string_forall (fun a => a <> c) s1 -> split c (s1 +:+ String c s2) = s1 :: split c s2.
Proof.
  induction s1 as [|a s IH]; simpl.
  - intros _. by rewrite decide_True.
  - intros [Ha Hs]. rewrite decide_False by done. by rewrite IH.
Qed.

Lemma display_no_underscore x : string_forall (fun a => a <> "_"%char) (display x).
Proof. eapply string_forall_weaken, display_digits. apply digit_not_underscore. Qed.
