(* ===== verification/FileSystem.v ===== *)
(** * The file system that the sectors manager calls

    [tokio::fs] on the storage directory.  Its code is not part of the
    repository: it is a class of operations, with a class of laws that state
    the documented effect of each on the regular files of the directory.  An
    operation that returns [None] failed.  [RamDir] implements the laws. *)

From S2P Require Import Prelude.

Class FileSystem (D : Type) := {
  (** The regular files of the directory with their contents; [None] when the
      directory does not exist. *)
  files : D -> option (gmap string bytes);
  (** [read_dir]: the names of the entries, in no particular order. *)
  fs_read_dir : D -> option (list string);
  fs_create_dir_all : D -> option D;
  (** [File::create]: a new or truncated file. *)
  fs_create : D -> string -> option D;
  (** [write_all] on a file just created. *)
  fs_write_all : D -> string -> bytes -> option D;
  (** What a process that dies during [write_all] can leave behind. *)
  fs_write_torn : D -> string -> bytes -> list D;
  fs_sync_data : D -> string -> option D;
  fs_rename : D -> string -> string -> option D;
  fs_remove_file : D -> string -> option D;
  (** [File::open] for reading: the contents. *)
  fs_open : D -> string -> option bytes;
}.

Class FileSystemLaws (D : Type) `{FileSystem D} : Prop := {
  read_dir_missing d : files d = None -> fs_read_dir d = None;
  read_dir_entries d m : files d = Some m ->
    exists l, fs_read_dir d = Some l /\ l ≡ₚ (map_to_list m).*1;
  create_dir_all_missing d : files d = None ->
    exists d', fs_create_dir_all d = Some d' /\ files d' = Some ∅;
  create_file d m n : files d = Some m ->
    exists d', fs_create d n = Some d' /\ files d' = Some (<[n := []]> m);
  write_all_file d m n c data : files d = Some m -> m !! n = Some c ->
    exists d', fs_write_all d n data = Some d' /\ files d' = Some (<[n := c ++ data]> m);
  write_torn_file d m n c data d' : files d = Some m -> m !! n = Some c ->
    d' ∈ fs_write_torn d n data -> exists k, files d' = Some (<[n := c ++ take k data]> m);
  sync_data_file d m n c : files d = Some m -> m !! n = Some c ->
    exists d', fs_sync_data d n = Some d' /\ files d' = Some m;
  rename_file d m a b c : files d = Some m -> m !! a = Some c ->
    exists d', fs_rename d a b = Some d' /\ files d' = Some (<[b := c]> (delete a m));
  remove_file_present d m n c : files d = Some m -> m !! n = Some c ->
    exists d', fs_remove_file d n = Some d' /\ files d' = Some (delete n m);
  remove_file_missing d m n : files d = Some m -> m !! n = None -> fs_remove_file d n = None;
  open_file d m n : files d = Some m -> fs_open d n = m !! n;
}.

(** ** A directory held in memory *)

Module RamDir.
Record t := { entries : option (gmap string bytes) }.

Definition with_files (d : t) (f : gmap string bytes -> option (gmap string bytes)) : option t :=
  m ← entries d; m' ← f m; Some {| entries := Some m' |}.

#[global] Instance fs : FileSystem t := {
  files := entries;
  fs_read_dir d := (fun m => (map_to_list m).*1) <$> entries d;
  fs_create_dir_all d := Some {| entries := Some (default ∅ (entries d)) |};
  fs_create d n := with_files d (fun m => Some (<[n := []]> m));
  fs_write_all d n data := with_files d (fun m => c ← m !! n; Some (<[n := c ++ data]> m));
  fs_write_torn d n data :=
    omap (fun k => with_files d (fun m => c ← m !! n; Some (<[n := c ++ take k data]> m)))
         (seq 0 (length data));
  fs_sync_data d n := with_files d (fun m => c ← m !! n; Some m);
  fs_rename d a b := with_files d (fun m => c ← m !! a; Some (<[b := c]> (delete a m)));
  fs_remove_file d n := with_files d (fun m => c ← m !! n; Some (delete n m));
  fs_open d n := m ← entries d; m !! n;
}.

#[global] Instance fs_laws : FileSystemLaws t.
Proof.
  split; intros [m0] *; simpl; unfold with_files; simpl; intros; subst; simpl;
    try match goal with Hin : _ ∈ omap _ _ |- _ => apply list_elem_of_omap in Hin as (k & _ & Hk) end;
    simpl in *;
    repeat match goal with
           | Hl : _ !! _ = _ |- _ => rewrite Hl; simpl
           | Hl : _ !! _ = _, Hk : _ = Some _ |- _ => rewrite Hl in Hk; simpl in Hk; injection Hk as <-
           end; eauto.
Qed.
End RamDir.
