(* ===== verification/SectorsManager.v ===== *)
(** * Stable storage: [solution/src/sectors_manager.rs]

    One file per written sector, named after the sector and its stamp.  The
    state is the directory, the in-memory map of stamps, and the list of
    directories that the operations passed through since the log was cleared:
    a process that dies leaves one of them. *)

From Stdlib Require Import Ascii.
From S2P Require Import Prelude Domain Text FileSystem.

(** ** State *)

Record SectorsManagerState {D : Type} := {
  disk : D;
  data_access : gmap Z stamp;
  crash_points : list D;
}.
Arguments SectorsManagerState D : clear implicits.

Section Operations.
Context {D : Type} `{FileSystem D}.

Abbreviation SM A := (M (SectorsManagerState D) Empty_set A).

Definition set_disk (d : D) (s : SectorsManagerState D) : SectorsManagerState D :=
  {| disk := d; data_access := data_access s; crash_points := crash_points s ++ [d] |}.

Definition set_data_access (m : gmap Z stamp) (s : SectorsManagerState D) : SectorsManagerState D :=
  {| disk := disk s; data_access := m; crash_points := crash_points s |}.

(** A call that changes the directory, with the [expect] that follows it. *)
Definition fs_do (why : string) (op : D -> option D) : SM unit := fun s =>
  match op (disk s) with
  | Some d => (Ret tt, set_disk d s)
  | None => (Panic why, s)
  end.

(** The directories that dying inside [write_all] would leave. *)
Definition may_tear (n : string) (data : bytes) : SM unit := fun s =>
  (Ret tt, {| disk := disk s; data_access := data_access s;
              crash_points := crash_points s ++ fs_write_torn (disk s) n data |}).

(** ** File names *)

Definition sectoridx_file_path (idx : SectorIdx) (ts : u64) (wr : u8) : string :=
  display idx +:+ String "_" (display ts +:+ String "_" (display wr)).

Definition sectoridx_tmp_file_path (idx : SectorIdx) (ts : u64) (wr : u8) : string :=
  "tmp" +:+ String "_" (display idx +:+ String "_" (display ts +:+ String "_" (display wr))).

(** ** Recovery *)

(** The loop over the entries of the directory. *)
Fixpoint sectors_crash_recovery (dir : list string) (data_access : gmap Z stamp)
  : SM (gmap Z stamp) :=
  match dir with
  | [] => mret data_access
  | file_name :: dir =>
      match split "_" file_name with
      | [part0; part1; part2] =>
          sidx ← lift (expect "Failed to parse sector index" (parse_uint U64_MAX part0));
          ts ← lift (expect "Failed to parse timestamp" (parse_uint U64_MAX part1));
          wr ← lift (expect "Failed to parse write rank" (parse_uint U8_MAX part2));
          let '(old_ts, old_wr) := default (0, 0) (data_access !! sidx) in
          if decide ((old_ts, old_wr) = (0, 0)) then
            sectors_crash_recovery dir (<[sidx := (ts, wr)]> data_access)
          else if decide (stamp_lt (old_ts, old_wr) (ts, wr)) then
            fs_do "Failed to remove old sector file"
              (fun d => fs_remove_file d (sectoridx_file_path sidx old_ts old_wr)) ;;
            sectors_crash_recovery dir (<[sidx := (ts, wr)]> data_access)
          else
            fs_do "Failed to remove invalid file" (fun d => fs_remove_file d file_name) ;;
            sectors_crash_recovery dir data_access
      | _ =>
          fs_do "Failed to remove invalid file" (fun d => fs_remove_file d file_name) ;;
          sectors_crash_recovery dir data_access
      end
  end.

(** [SectorsManagerState::new] on the directory of the state. *)
Definition new : SM unit :=
  s ← get;
  dir ← match fs_read_dir (disk s) with
        | Some dir => mret dir
        | None =>
            fs_do "Failed to create storage directory" fs_create_dir_all ;;
            s ← get;
            lift (expect "Failed to read storage directory after creation" (fs_read_dir (disk s)))
        end;
  data_access ← sectors_crash_recovery dir ∅;
  modify (set_data_access data_access).

(** ** The [SectorsManager] trait *)

Definition read_data (idx : SectorIdx) : SM SectorVec :=
  s ← get;
  let file_path :=
    match data_access s !! idx with
    | Some (ts, wr) => Some (sectoridx_file_path idx ts wr)
    | None => None
    end in
  match file_path with
  | Some file_path =>
      file ← lift (expect "Failed to open sector file" (fs_open (disk s) file_path));
      if decide (SECTOR_SIZE <= length file)%nat then mret (take SECTOR_SIZE file)
      else lift (Panic "Failed to read sector data")
  | None => mret zero_sector
  end.

Definition read_metadata (idx : SectorIdx) : SM stamp :=
  s ← get;
  mret (default (0, 0) (data_access s !! idx)).

Definition write (idx : SectorIdx) (sector : SectorVec * u64 * u8) : SM unit :=
  let '(data, ts, wr) := sector in
  let file_path := sectoridx_file_path idx ts wr in
  let tmp_file_path := sectoridx_tmp_file_path idx ts wr in
  fs_do "unwrap" (fun d => fs_create d tmp_file_path) ;;
  may_tear tmp_file_path data ;;
  fs_do "Failed to write sector data to temporary file" (fun d => fs_write_all d tmp_file_path data) ;;
  fs_do "Failed to sync temporary sector file" (fun d => fs_sync_data d tmp_file_path) ;;
  fs_do "Failed to rename temporary sector file" (fun d => fs_rename d tmp_file_path file_path) ;;
  s ← get;
  _ ← lift (expect "Failed to open sector file" (fs_open (disk s) file_path));
  fs_do "Failed to sync sector file" (fun d => fs_sync_data d file_path) ;;
  s ← get;
  let '(old_ts, old_wr) := default (0, 0) (data_access s !! idx) in
  modify (fun s => set_data_access (<[idx := (ts, wr)]> (data_access s)) s) ;;
  if decide ((old_ts, old_wr) <> (0, 0)) then
    fs_do "Failed to remove old sector file"
      (fun d => fs_remove_file d (sectoridx_file_path idx old_ts old_wr))
  else mret tt.

End Operations.

(** ** What the directory stands for *)

(** The stored sectors: the stamp and the data of every sector ever written. *)
Abbreviation store := (gmap Z (stamp * bytes)).

Definition path_of (idx : SectorIdx) (s : stamp) : string := sectoridx_file_path idx s.1 s.2.

Definition stamp_ok (s : stamp) : Prop := in_u64 s.1 /\ in_u8 s.2 /\ s <> (0, 0).

Definition entry_ok (idx : SectorIdx) (e : stamp * bytes) : Prop :=
  in_u64 idx /\ stamp_ok e.1 /\ length e.2 = SECTOR_SIZE.

Definition store_ok (A : store) : Prop := map_Forall entry_ok A.

(** A clean directory: one file for each stored sector, and nothing else. *)
Definition holds (A : store) (m : gmap string bytes) : Prop :=
  forall n c, m !! n = Some c <-> exists idx s, n = path_of idx s /\ A !! idx = Some (s, c).

(** A file that recovery removes or keeps: not a sector file at all, or a file
    of a stored sector that is older than, or is, the stored one. *)
Definition stale_or_current (A : store) (n : string) (c : bytes) : Prop :=
  length (split "_" n) <> 3%nat \/
  exists idx s sA cA, n = path_of idx s /\ in_u64 idx /\ stamp_ok s /\ A !! idx = Some (sA, cA) /\
    (stamp_lt s sA \/ (s = sA /\ c = cA)).

(** A directory from which recovery restores [A]. *)
Definition dirty (A : store) (m : gmap string bytes) : Prop :=
  (forall n c, m !! n = Some c -> stale_or_current A n c) /\
  (forall idx s c, A !! idx = Some (s, c) -> m !! path_of idx s = Some c).

(** The state of a manager that serves [A]. *)
Definition represents {D} `{FileSystem D} (A : store) (w : SectorsManagerState D) : Prop :=
  store_ok A /\ data_access w = fst <$> A /\ exists m, files (disk w) = Some m /\ holds A m.

(** A directory, possibly left by a crash, that recovers to [A]. *)
Definition recoverable {D} `{FileSystem D} (A : store) (d : D) : Prop :=
  exists m, files d = Some m /\ dirty A m.

(** ** File names *)

Lemma split_file_path idx ts wr :
  split "_" (sectoridx_file_path idx ts wr) = [display idx; display ts; display wr].
Proof.
  unfold sectoridx_file_path. rewrite !split_app by apply display_no_underscore.
  by rewrite split_none by apply display_no_underscore.
Qed.

Lemma split_tmp_file_path idx ts wr :
  split "_" (sectoridx_tmp_file_path idx ts wr) = ["tmp"; display idx; display ts; display wr].
Proof.
  unfold sectoridx_tmp_file_path. rewrite split_app by (simpl; done).
  rewrite !split_app by apply display_no_underscore.
  by rewrite split_none by apply display_no_underscore.
Qed.

Lemma display_inj x y : in_u64 x -> in_u64 y -> display x = display y -> x = y.
Proof.
  unfold in_u64. intros Hx Hy E.
  pose proof (parse_display U64_MAX x Hx ltac:(done)) as Px.
  pose proof (parse_display U64_MAX y Hy ltac:(done)) as Py. congruence.
Qed.

Lemma in_u8_u64 x : in_u8 x -> in_u64 x.
Proof. unfold in_u8, in_u64, U8_MAX, U64_MAX. lia. Qed.

Lemma path_of_inj i s j t :
  in_u64 i -> stamp_ok s -> in_u64 j -> stamp_ok t -> path_of i s = path_of j t -> i = j /\ s = t.
Proof.
  intros Hi (Hs1 & Hs2 & _) Hj (Ht1 & Ht2 & _) E. destruct s as [s1 s2], t as [t1 t2]. simpl in *.
  apply (f_equal (split "_")) in E. unfold path_of in E. rewrite !split_file_path in E.
  injection E as E1 E2 E3.
  split; [by apply display_inj|]. f_equal; apply display_inj; auto using in_u8_u64.
Qed.

Lemma tmp_not_sector idx ts wr : length (split "_" (sectoridx_tmp_file_path idx ts wr)) <> 3%nat.
Proof. by rewrite split_tmp_file_path. Qed.

Lemma path_of_sector idx s : length (split "_" (path_of idx s)) = 3%nat.
Proof. unfold path_of. by rewrite split_file_path. Qed.

Lemma tmp_ne_path idx ts wr j s : sectoridx_tmp_file_path idx ts wr <> path_of j s.
Proof. intros E. by apply (tmp_not_sector idx ts wr); rewrite E; apply path_of_sector. Qed.

(** ** Directories *)

Lemma holds_dirty A m : store_ok A -> holds A m -> dirty A m.
Proof.
  intros Hok Hm. split.
  - intros n c Hn. apply Hm in Hn as (idx & s & -> & HA). right.
    destruct (Hok _ _ HA) as (? & ? & _). exists idx, s, s, c. split_and!; auto.
  - intros idx s c HA. apply Hm. eauto.
Qed.

Lemma dirty_insert_junk A m n c :
  length (split "_" n) <> 3%nat -> dirty A m -> dirty A (<[n := c]> m).
Proof.
  intros Hn [H1 H2]. split.
  - intros n' c'. destruct (decide (n = n')) as [->|Hne]; [by left|].
    rewrite lookup_insert_ne by done. apply H1.
  - intros idx s c' HA. rewrite lookup_insert_ne; [by apply H2|].
    intros ->. by rewrite path_of_sector in Hn.
Qed.

Lemma dirty_delete A m n :
  (forall idx s c, A !! idx = Some (s, c) -> n <> path_of idx s) -> dirty A m -> dirty A (delete n m).
Proof.
  intros Hn [H1 H2]. split.
  - intros n' c' [_ Hn']%lookup_delete_Some. by apply H1.
  - intros idx s c HA. rewrite lookup_delete_ne by by eapply Hn. by apply H2.
Qed.

(** ** Recovery restores the store *)

(** The loop invariant: [m] is the directory, [da] the map built so far and
    [todo] the entries not yet looked at. *)
Record recovery_inv (A : store) (m : gmap string bytes) (da : gmap Z stamp) (todo : list string) : Prop := {
  ri_dirty : dirty A m;
  ri_nodup : NoDup todo;
  ri_todo n : n ∈ todo -> is_Some (m !! n);
  ri_da idx s : da !! idx = Some s ->
    in_u64 idx /\ stamp_ok s /\ is_Some (m !! path_of idx s) /\ path_of idx s ∉ todo;
  ri_done n : is_Some (m !! n) -> n ∈ todo \/ exists idx s, n = path_of idx s /\ da !! idx = Some s;
}.

(** Every canonical file of the directory is at most as new as the store. *)
Lemma dirty_path A m idx s c :
  dirty A m -> in_u64 idx -> stamp_ok s -> m !! path_of idx s = Some c ->
  exists sA cA, A !! idx = Some (sA, cA) /\ (stamp_lt s sA \/ (s = sA /\ c = cA)).
Proof.
  intros [H1 _] Hi Hs Hm. destruct (H1 _ _ Hm) as [Hj|(j & t & sA & cA & E & Hj & Ht & HA & Hle)].
  - by rewrite path_of_sector in Hj.
  - apply path_of_inj in E as [-> ->]; eauto.
Qed.

(** A file that is older than the stored one is not the stored one. *)
Lemma older_not_stored A idx s sA cA :
  store_ok A -> in_u64 idx -> stamp_ok s -> A !! idx = Some (sA, cA) -> stamp_lt s sA ->
  forall j t c, A !! j = Some (t, c) -> path_of idx s <> path_of j t.
Proof.
  intros Hok Hi Hs HA Hlt j t c HA' E. destruct (Hok _ _ HA') as (? & ? & _).
  apply path_of_inj in E as [-> ->]; [|done..]. simplify_eq. exact (irreflexivity stamp_lt _ Hlt).
Qed.

Lemma recovery_junk A m da n todo :
  recovery_inv A m da (n :: todo) -> length (split "_" n) <> 3%nat ->
  recovery_inv A (delete n m) da todo.
Proof.
  intros [Hd Hnd Htodo Hda Hdone] Hn. apply list.NoDup_cons in Hnd as [Hnin Hnd]. split.
  - apply dirty_delete; [|done]. intros idx s c _ ->. by rewrite path_of_sector in Hn.
  - done.
  - intros n' Hn'. rewrite lookup_delete_ne by set_solver. apply Htodo. set_solver.
  - intros idx s Hs. destruct (Hda _ _ Hs) as (? & ? & ? & ?).
    rewrite lookup_delete_ne by set_solver. set_solver.
  - intros n' [c Hc]. apply lookup_delete_Some in Hc as [Hne Hc].
    destruct (Hdone n') as [Hin|?]; [by eauto|set_solver|auto].
Qed.

Lemma recovery_first A m da idx s todo :
  recovery_inv A m da (path_of idx s :: todo) -> in_u64 idx -> stamp_ok s -> da !! idx = None ->
  recovery_inv A m (<[idx := s]> da) todo.
Proof.
  intros [Hd Hnd Htodo Hda Hdone] Hi Hs Hnone. apply list.NoDup_cons in Hnd as [Hnin Hnd]. split.
  - done.
  - done.
  - intros n Hn. apply Htodo. set_solver.
  - intros j t. rewrite lookup_insert_Some. intros [[<- <-]|[Hne Ht]].
    + split_and!; [done..| |done]. apply Htodo. set_solver.
    + destruct (Hda _ _ Ht) as (? & ? & ? & ?). set_solver.
  - intros n Hn. destruct (Hdone n Hn) as [Hin|(j & t & -> & Ht)].
    + apply elem_of_cons in Hin as [->|?]; [|auto]. right. exists idx, s. by rewrite lookup_insert_eq.
    + right. exists j, t. split; [done|]. rewrite lookup_insert_ne; [done|]. congruence.
Qed.

Lemma recovery_newer A m da idx old s todo :
  store_ok A -> recovery_inv A m da (path_of idx s :: todo) -> in_u64 idx -> stamp_ok s ->
  da !! idx = Some old -> stamp_lt old s ->
  recovery_inv A (delete (path_of idx old) m) (<[idx := s]> da) todo.
Proof.
  intros Hok [Hd Hnd Htodo Hda Hdone] Hi Hs Hold Hlt. apply list.NoDup_cons in Hnd as [Hnin Hnd].
  destruct (Hda _ _ Hold) as (_ & Hos & _ & Honin).
  destruct (Htodo (path_of idx s)) as [c Hc]; [set_solver|].
  destruct (dirty_path _ _ _ _ _ Hd Hi Hs Hc) as (sA & cA & HA & Hle).
  assert (stamp_lt old sA) as Hlt' by (destruct Hle as [|[<- _]]; [by etrans|done]).
  split.
  - apply dirty_delete; [by eapply older_not_stored|done].
  - done.
  - intros n Hn. rewrite lookup_delete_ne by set_solver. apply Htodo. set_solver.
  - intros j t. rewrite lookup_insert_Some. intros [[<- <-]|[Hne Ht]].
    + split_and!; [done..| |done]. rewrite lookup_delete_ne by set_solver. eauto.
    + destruct (Hda _ _ Ht) as (Hj & Ht' & ? & ?). split_and!; [done..| |set_solver].
      rewrite lookup_delete_ne; [done|]. intros E. by apply path_of_inj in E as [? _].
  - intros n [c' Hn]. apply lookup_delete_Some in Hn as [Hne Hn].
    destruct (Hdone n) as [Hin|(j & t & -> & Ht)]; [by eauto| |].
    + apply elem_of_cons in Hin as [->|?]; [|auto]. right. exists idx, s. by rewrite lookup_insert_eq.
    + right. exists j, t. split; [done|]. rewrite lookup_insert_ne; [done|]. intros ->.
      apply Hne. congruence.
Qed.

Lemma recovery_older A m da idx old s todo :
  store_ok A -> recovery_inv A m da (path_of idx s :: todo) -> in_u64 idx -> stamp_ok s ->
  da !! idx = Some old -> ~ stamp_lt old s ->
  recovery_inv A (delete (path_of idx s) m) da todo.
Proof.
  intros Hok [Hd Hnd Htodo Hda Hdone] Hi Hs Hold Hnlt. apply list.NoDup_cons in Hnd as [Hnin Hnd].
  destruct (Hda _ _ Hold) as (_ & Hos & [c Hc] & Honin).
  destruct (dirty_path _ _ _ _ _ Hd Hi Hos Hc) as (sA & cA & HA & Hle).
  assert (stamp_lt s old) as Hlt.
  { apply stamp_not_lt in Hnlt as [?| ->]; [done|]. set_solver. }
  assert (stamp_lt s sA) as Hlt' by (destruct Hle as [|[<- _]]; [by etrans|done]).
  split.
  - apply dirty_delete; [by eapply older_not_stored|done].
  - done.
  - intros n Hn. rewrite lookup_delete_ne by set_solver. apply Htodo. set_solver.
  - intros j t Ht. destruct (Hda _ _ Ht) as (? & ? & ? & ?).
    rewrite lookup_delete_ne by set_solver. set_solver.
  - intros n [c' Hn]. apply lookup_delete_Some in Hn as [Hne Hn].
    destruct (Hdone n) as [Hin|?]; [by eauto|set_solver|auto].
Qed.

Lemma recovery_finished A m da :
  store_ok A -> recovery_inv A m da [] -> da = fst <$> A /\ holds A m.
Proof.
  intros Hok [Hd _ _ Hda Hdone].
  assert (forall idx s c, m !! path_of idx s = Some c -> in_u64 idx -> stamp_ok s -> da !! idx = Some s) as Hcov.
  { intros idx s c Hm Hi Hs. destruct (Hdone (path_of idx s)) as [Hin|(j & t & E & Ht)];
      [by eauto|by apply not_elem_of_nil in Hin|].
    destruct (Hda _ _ Ht) as (? & ? & _). by apply path_of_inj in E as [-> ->]. }
  assert (forall idx s c, A !! idx = Some (s, c) -> da !! idx = Some s) as HAda.
  { intros idx s c HA. destruct (Hok _ _ HA) as (? & ? & _).
    eapply Hcov; [|done..]. by apply Hd. }
  assert (forall idx s, da !! idx = Some s -> exists c, A !! idx = Some (s, c) /\ m !! path_of idx s = Some c)
    as HdaA.
  { intros idx s Hs. destruct (Hda _ _ Hs) as (Hi & Hsok & [c Hc] & _).
    destruct (dirty_path _ _ _ _ _ Hd Hi Hsok Hc) as (sA & cA & HA & _).
    pose proof (HAda _ _ _ HA). simplify_eq. exists cA. split; [done|]. by apply Hd. }
  split.
  - apply map_eq. intros idx. rewrite lookup_fmap.
    destruct (da !! idx) as [s|] eqn:E.
    + destruct (HdaA _ _ E) as (c & -> & _). done.
    + destruct (A !! idx) as [[s c]|] eqn:EA; [|done]. apply HAda in EA. congruence.
  - intros n c. split.
    + intros Hm. destruct (Hdone n) as [Hin|(idx & s & -> & Hs)];
        [by eauto|by apply not_elem_of_nil in Hin|].
      destruct (HdaA _ _ Hs) as (c' & HA & Hm'). simplify_eq. eauto.
    + intros (idx & s & -> & HA). by apply Hd.
Qed.

(** ** Running the operations *)

Section Correctness.
Context {D : Type} `{FileSystemLaws D}.
Implicit Types (w : SectorsManagerState D) (A : store).

(** [w'] is [w] with a new directory, and every directory in between recovers
    to one of the stores [P] allows. *)
Definition passes_through (P : store -> Prop) w w' : Prop :=
  exists log, crash_points w' = crash_points w ++ log /\
    Forall (fun d => exists A, P A /\ recoverable A d) log.

Lemma passes_through_refl P w : passes_through P w w.
Proof. exists []. by rewrite app_nil_r. Qed.

Lemma passes_through_trans P w1 w2 w3 :
  passes_through P w1 w2 -> passes_through P w2 w3 -> passes_through P w1 w3.
Proof.
  intros (l1 & E1 & F1) (l2 & E2 & F2). exists (l1 ++ l2). rewrite E2, E1, app_assoc.
  split; [done|]. by apply Forall_app.
Qed.

Lemma passes_through_weaken (P Q : store -> Prop) w w' :
  (forall A, P A -> Q A) -> passes_through P w w' -> passes_through Q w w'.
Proof.
  intros HPQ (l & E & F). exists l. split; [done|]. eapply Forall_impl; [|exact F].
  intros d (A & HA & Hd). eauto.
Qed.

Lemma passes_through_set_disk (P : store -> Prop) A d w :
  P A -> recoverable A d -> passes_through P w (set_disk d w).
Proof. intros HA Hd. exists [d]. split; [done|]. constructor; eauto. Qed.

Lemma fs_do_bind {B} why op w d' (f : unit -> M (SectorsManagerState D) Empty_set B) :
  op (disk w) = Some d' -> (fs_do why op ≫= f) w = f tt (set_disk d' w).
Proof. intros Hop. apply M_bind_Ret. unfold fs_do. by rewrite Hop. Qed.

(** A recovery step that ends with the store [A] restored. *)
Definition recovers_to A (run : M (SectorsManagerState D) Empty_set (gmap Z stamp)) w : Prop :=
  exists w' m', run w = (Ret (fst <$> A), w') /\ files (disk w') = Some m' /\ holds A m' /\
    data_access w' = data_access w /\ passes_through (eq A) w w'.

Lemma recovers_remove A why n m da todo w run :
  files (disk w) = Some m -> is_Some (m !! n) -> recovery_inv A (delete n m) da todo ->
  (forall w1, files (disk w1) = Some (delete n m) -> recovers_to A run w1) ->
  recovers_to A (fs_do why (fun d => fs_remove_file d n) ;; run) w.
Proof.
  intros Hm [c Hc] Hinv Hrest. destruct (remove_file_present _ _ _ _ Hm Hc) as (d' & Hd & Hf).
  destruct (Hrest (set_disk d' w) Hf) as (w' & m' & Hrun & Hf' & Hh & Hda & Hp).
  exists w', m'. split_and!; [by erewrite fs_do_bind|done..|].
  eapply passes_through_trans; [|exact Hp]. apply passes_through_set_disk with A; [done|].
  exists (delete n m). split; [done|]. apply Hinv.
Qed.

Lemma parse_path idx s :
  in_u64 idx -> stamp_ok s ->
  parse_uint U64_MAX (display idx) = Some idx /\ parse_uint U64_MAX (display s.1) = Some s.1 /\
  parse_uint U8_MAX (display s.2) = Some s.2.
Proof. intros Hi (H1 & H2 & _). split_and!; apply parse_display; done. Qed.

Lemma recovery_junk_step n todo da w :
  length (split "_" n) <> 3%nat ->
  sectors_crash_recovery (n :: todo) da w =
  (fs_do "Failed to remove invalid file" (fun d => fs_remove_file d n) ;;
   sectors_crash_recovery todo da) w.
Proof.
  intros Hn. simpl. by destruct (split "_" n) as [|? [|? [|? [|? ?]]]].
Qed.

Lemma recovery_path_step idx s todo da w :
  in_u64 idx -> stamp_ok s ->
  sectors_crash_recovery (path_of idx s :: todo) da w =
  (let old := default (0, 0) (da !! idx) in
   if decide (old = (0, 0)) then sectors_crash_recovery todo (<[idx := s]> da)
   else if decide (stamp_lt old s) then
     fs_do "Failed to remove old sector file" (fun d => fs_remove_file d (path_of idx old)) ;;
     sectors_crash_recovery todo (<[idx := s]> da)
   else
     fs_do "Failed to remove invalid file" (fun d => fs_remove_file d (path_of idx s)) ;;
     sectors_crash_recovery todo da) w.
Proof.
  intros Hi Hs. destruct (parse_path idx s Hi Hs) as (P1 & P2 & P3). simpl.
  unfold path_of at 1. rewrite split_file_path, P1, P2, P3. simpl. rewrite !M_bind_lift.
  destruct s as [ts wr]. by destruct (default (0, 0) (da !! idx)).
Qed.

(** The loop, from any point at which its invariant holds. *)
Lemma sectors_crash_recovery_correct A todo m da w :
  store_ok A -> recovery_inv A m da todo -> files (disk w) = Some m ->
  recovers_to A (sectors_crash_recovery todo da) w.
Proof.
  intros Hok. revert m da w. induction todo as [|n todo IH]; intros m da w Hinv Hm.
  { destruct (recovery_finished _ _ _ Hok Hinv) as [-> Hh]. exists w, m. simpl.
    split_and!; try done. apply passes_through_refl. }
  destruct (ri_todo _ _ _ _ Hinv n) as [c Hc]; [set_solver|].
  destruct (ri_dirty _ _ _ _ Hinv) as [Hstale _]. unfold recovers_to.
  destruct (Hstale _ _ Hc) as [Hj|(idx & s & sA & cA & -> & Hi & Hs & HA & _)].
  - setoid_rewrite recovery_junk_step; [|done..].
    eapply recovers_remove; [done|by eauto|by apply recovery_junk|].
    intros w1 Hw1. eapply IH; [by apply recovery_junk|done].
  - setoid_rewrite recovery_path_step; [|done..]. cbv zeta.
    destruct (da !! idx) as [old|] eqn:Hold; simpl default; cycle 1.
    { rewrite decide_True by done. eapply IH; [by apply recovery_first|done]. }
    destruct (ri_da _ _ _ _ Hinv _ _ Hold) as (_ & (_ & _ & Hnz) & Hin & _).
    rewrite decide_False by done. case_decide as Hlt.
    + eapply recovers_remove; [done|done|by apply recovery_newer|].
      intros w1 Hw1. eapply IH; [by apply recovery_newer|done].
    + eapply recovers_remove; [done|by eauto|by eapply recovery_older|].
      intros w1 Hw1. eapply IH; [by eapply recovery_older|done].
Qed.

(** ** Start-up *)

Lemma recovery_start A m dir :
  dirty A m -> dir ≡ₚ (map_to_list m).*1 -> recovery_inv A m ∅ dir.
Proof.
  intros Hd Hperm.
  assert (forall n, n ∈ dir <-> is_Some (m !! n)) as Hdir.
  { intros n. rewrite Hperm, list_elem_of_fmap. split.
    - intros ([n' c] & -> & Hin). apply elem_of_map_to_list in Hin. simpl. eauto.
    - intros [c Hc]. exists (n, c). split; [done|]. by apply elem_of_map_to_list. }
  split.
  - done.
  - rewrite Hperm. apply NoDup_fst_map_to_list.
  - intros n. by apply Hdir.
  - intros idx s Hs. by rewrite lookup_empty in Hs.
  - intros n Hn. left. by apply Hdir.
Qed.

Lemma new_on_directory A w :
  store_ok A -> recoverable A (disk w) ->
  exists w', new w = (Ret tt, w') /\ represents A w' /\ passes_through (eq A) w w'.
Proof.
  intros Hok (m & Hm & Hd). destruct (read_dir_entries _ _ Hm) as (dir & Hdir & Hperm).
  destruct (sectors_crash_recovery_correct A dir m ∅ w Hok) as (w' & m' & Hrun & Hf & Hh & _ & Hp);
    [by apply recovery_start|done|].
  exists (set_data_access (fst <$> A) w'). split_and!.
  - unfold new. rewrite M_bind_get, Hdir, M_bind_mret.
    by erewrite M_bind_Ret by exact Hrun.
  - split_and!; [done..|]. exists m'. done.
  - exact Hp.
Qed.

(** ** Writing *)

Lemma holds_no_junk A m n : holds A m -> length (split "_" n) <> 3%nat -> m !! n = None.
Proof.
  intros Hh Hn. destruct (m !! n) as [c|] eqn:E; [|done].
  apply Hh in E as (idx & s & -> & _). by rewrite path_of_sector in Hn.
Qed.

(** The stamp that the code takes for the current one. *)
Definition current_stamp A (idx : SectorIdx) : stamp := default (0, 0) (fst <$> A !! idx).

Definition put (idx : SectorIdx) (s : stamp) (data : bytes) A : store := <[idx := (s, data)]> A.

Lemma put_ok A idx s data :
  store_ok A -> in_u64 idx -> stamp_ok s -> length data = SECTOR_SIZE -> store_ok (put idx s data A).
Proof. intros. by apply map_Forall_insert_2. Qed.

(** The directory when both the old and the new file are there. *)
Lemma dirty_both_files A m idx s data :
  store_ok A -> holds A m -> in_u64 idx -> stamp_ok s -> stamp_lt (current_stamp A idx) s ->
  dirty (put idx s data A) (<[path_of idx s := data]> m).
Proof.
  intros Hok Hh Hi Hs Hlt. split.
  - intros n c. rewrite lookup_insert_Some. intros [[<- <-]|[Hne Hm]].
    + right. exists idx, s, s, data. unfold put. rewrite lookup_insert_eq. split_and!; auto.
    + apply Hh in Hm as (j & t & -> & HA). destruct (Hok _ _ HA) as (Hj & Ht & _).
      right. unfold put. destruct (decide (idx = j)) as [->|Hij].
      * exists j, t, s, data. rewrite lookup_insert_eq. split_and!; try done. left.
        unfold current_stamp in Hlt. by rewrite HA in Hlt.
      * exists j, t, t, c. rewrite lookup_insert_ne by done. split_and!; auto.
  - intros j t c. unfold put. rewrite lookup_insert_Some. intros [[<- [= <- <-]]|[Hne HA]].
    + apply lookup_insert_eq.
    + destruct (Hok _ _ HA) as (Hj & Ht & _). rewrite lookup_insert_ne; [apply Hh; eauto|].
      intros E. by apply path_of_inj in E as [? _].
Qed.

(** The directory when the old file, if there was one, is gone. *)
Lemma holds_new_file A m idx s data :
  store_ok A -> holds A m -> in_u64 idx -> stamp_ok s -> stamp_lt (current_stamp A idx) s ->
  holds (put idx s data A)
    (match A !! idx with
     | Some (old, _) => delete (path_of idx old) (<[path_of idx s := data]> m)
     | None => <[path_of idx s := data]> m
     end).
Proof.
  intros Hok Hh Hi Hs Hlt n c. pose proof (Hh n c : _ <-> _) as Hnc. unfold put, current_stamp in *.
  assert (forall j t c', A !! j = Some (t, c') -> j <> idx -> path_of idx s <> path_of j t) as Hother.
  { intros j t c' HA Hne E. destruct (Hok _ _ HA) as (? & ? & _). by apply path_of_inj in E as [? _]. }
  transitivity ((n = path_of idx s /\ c = data) \/
    exists j t, n = path_of j t /\ j <> idx /\ A !! j = Some (t, c)); cycle 1.
  { split.
    - intros [[-> ->]|(j & t & -> & Hne & HA)]; [exists idx, s|exists j, t].
      + by rewrite lookup_insert_eq.
      + by rewrite lookup_insert_ne.
    - intros (j & t & -> & HA). apply lookup_insert_Some in HA as [[<- [= <- <-]]|[Hne HA]];
        [by left|]. right. eauto. }
  destruct (A !! idx) as [[old oc]|] eqn:HA; simpl in Hlt.
  - destruct (Hok _ _ HA) as (_ & Ho & _). rewrite lookup_delete_Some, lookup_insert_Some, Hnc.
    split.
    + intros [Hne [[<- <-]|[Hne' (j & t & -> & HAj)]]]; [by left|]. right. exists j, t.
      split_and!; [done| |done]. intros ->. apply Hne. congruence.
    + intros [[-> ->]|(j & t & -> & Hne & HAj)].
      * split; [|by left]. intros E. apply path_of_inj in E as [_ ->]; [|done..].
        exact (irreflexivity stamp_lt _ Hlt).
      * destruct (Hok _ _ HAj) as (? & ? & _). split.
        -- intros E. by apply path_of_inj in E as [? _].
        -- right. split; [by eapply Hother|]. eauto.
  - rewrite lookup_insert_Some, Hnc. split.
    + intros [[<- <-]|[Hne' (j & t & -> & HAj)]]; [by left|]. right. exists j, t.
      split_and!; [done| |done]. congruence.
    + intros [[-> ->]|(j & t & -> & Hne & HAj)]; [by left|]. right.
      split; [by eapply Hother|]. eauto.
Qed.

Lemma passes_through_tear (P : store -> Prop) A n data w :
  P A -> (forall d, d ∈ fs_write_torn (disk w) n data -> recoverable A d) ->
  passes_through P w (may_tear n data w).2.
Proof.
  intros HA Hd. exists (fs_write_torn (disk w) n data). split; [done|].
  apply Forall_forall. intros d Hin. exists A. split; [done|]. apply Hd. by apply list_elem_of_In.
Qed.

(** The first half of [write]: up to the rename, everything happens in the
    temporary file; after it, the new file is complete beside the old one. *)
Lemma write_publishes A m w idx ts wr data (P : store -> Prop) :
  P A -> P (put idx (ts, wr) data A) ->
  dirty (put idx (ts, wr) data A) (<[path_of idx (ts, wr) := data]> m) ->
  store_ok A -> holds A m -> files (disk w) = Some m ->
  exists w', files (disk w') = Some (<[path_of idx (ts, wr) := data]> m) /\
    data_access w' = data_access w /\ passes_through P w w' /\
    write idx (data, ts, wr) w =
    (let '(old_ts, old_wr) := default (0, 0) (data_access w' !! idx) in
     modify (fun s => set_data_access (<[idx := (ts, wr)]> (data_access s)) s) ;;
     if decide ((old_ts, old_wr) <> (0, 0)) then
       fs_do "Failed to remove old sector file"
         (fun d => fs_remove_file d (sectoridx_file_path idx old_ts old_wr))
     else mret tt) w'.
Proof.
  intros HPA HPB Hdboth Hok Hh Hm. set (tmp := sectoridx_tmp_file_path idx ts wr).
  pose proof (tmp_not_sector idx ts wr : length (split "_" tmp) <> 3%nat) as Htmp.
  pose proof (holds_dirty _ _ Hok Hh) as Hd.
  pose proof (holds_no_junk _ _ _ Hh Htmp) as Hfresh.
  destruct (create_file (disk w) m tmp Hm) as (d1 & E1 & F1).
  destruct (write_all_file d1 _ tmp [] data F1) as (d2 & E2 & F2); [apply lookup_insert_eq|].
  rewrite insert_insert_eq in F2. simpl in F2.
  destruct (sync_data_file d2 _ tmp data F2) as (d3 & E3 & F3); [apply lookup_insert_eq|].
  destruct (rename_file d3 _ tmp (path_of idx (ts, wr)) data F3) as (d4 & E4 & F4);
    [apply lookup_insert_eq|]. rewrite delete_insert_id in F4 by done.
  destruct (sync_data_file d4 _ (path_of idx (ts, wr)) data F4) as (d5 & E5 & F5);
    [apply lookup_insert_eq|].
  exists (set_disk d5 (set_disk d4 (set_disk d3 (set_disk d2 (may_tear tmp data (set_disk d1 w)).2)))).
  assert (forall d c, files d = Some (<[tmp := c]> m) -> recoverable A d) as Htmpd.
  { intros d c Hf. exists (<[tmp := c]> m). split; [done|]. by apply dirty_insert_junk. }
  assert (forall d, files d = Some (<[path_of idx (ts, wr) := data]> m) ->
    recoverable (put idx (ts, wr) data A) d) as Hboth.
  { intros d Hf. eexists. by split; [exact Hf|]. }
  split_and!; [done|done| |].
  - do 2 (eapply passes_through_trans; [|by eapply passes_through_set_disk; [exact HPB|eauto]]).
    do 2 (eapply passes_through_trans; [|by eapply passes_through_set_disk; [exact HPA|eauto]]).
    eapply passes_through_trans; [eapply (passes_through_set_disk _ A d1); [done|by eauto]|].
    apply passes_through_tear with A; [done|]. intros d Hin.
    destruct (write_torn_file d1 _ tmp [] data d F1 ltac:(apply lookup_insert_eq) Hin) as (k & Hk).
    rewrite insert_insert_eq in Hk. eauto.
  - unfold write. erewrite fs_do_bind by exact E1.
    erewrite (M_bind_Ret (may_tear tmp data)) by reflexivity.
    erewrite fs_do_bind by exact E2. erewrite fs_do_bind by exact E3.
    erewrite fs_do_bind by exact E4. rewrite M_bind_get. cbn [disk set_disk].
    rewrite (open_file _ _ _ F4), lookup_insert_eq. cbn [expect]. rewrite M_bind_lift.
    erewrite fs_do_bind by exact E5. rewrite M_bind_get. reflexivity.
Qed.

Lemma stamp_lt_nonzero A idx ts wr :
  store_ok A -> in_u64 ts -> in_u8 wr -> stamp_lt (current_stamp A idx) (ts, wr) -> stamp_ok (ts, wr).
Proof.
  intros Hok Hts Hwr Hlt. split_and!; [done..|]. intros [= -> ->]. unfold current_stamp in Hlt.
  destruct (A !! idx) as [[[ots owr] c]|] eqn:HA; simpl in Hlt.
  - destruct (Hok _ _ HA) as (_ & (H1 & H2 & _) & _). simpl in *.
    unfold in_u64, in_u8, stamp_lt in *. simpl in *. lia.
  - unfold stamp_lt in Hlt. simpl in Hlt. lia.
Qed.

Lemma represents_current A w idx :
  represents A w -> default (0, 0) (data_access w !! idx) = current_stamp A idx.
Proof. intros (_ & -> & _). by rewrite lookup_fmap. Qed.

Lemma write_correct A w idx ts wr data :
  represents A w -> in_u64 idx -> in_u64 ts -> in_u8 wr -> length data = SECTOR_SIZE ->
  stamp_lt (current_stamp A idx) (ts, wr) ->
  exists w', write idx (data, ts, wr) w = (Ret tt, w') /\
    represents (put idx (ts, wr) data A) w' /\
    passes_through (fun B => B = A \/ B = put idx (ts, wr) data A) w w'.
Proof.
  intros Hrep Hi Hts Hwr Hlen Hlt. pose proof Hrep as (Hok & Hda & m & Hm & Hh).
  pose proof (stamp_lt_nonzero _ _ _ _ Hok Hts Hwr Hlt) as Hs.
  set (A' := put idx (ts, wr) data A).
  assert (store_ok A') as Hok' by by apply put_ok.
  assert (<[idx := (ts, wr)]> (fst <$> A) = fst <$> A') as Hda'.
  { unfold A', put. by rewrite fmap_insert. }
  destruct (write_publishes A m w idx ts wr data (fun B => B = A \/ B = A'))
    as (w1 & F1 & Hda1 & Hp & Hrun); [by auto using dirty_both_files..|].
  pose proof (holds_new_file A m idx (ts, wr) data Hok Hh Hi Hs Hlt) as Hh'. fold A' in Hh'.
  rewrite Hrun, Hda1, (represents_current _ _ idx Hrep).
  destruct (current_stamp A idx) as [old_ts old_wr] eqn:Hcur. rewrite M_bind_modify.
  unfold current_stamp in Hcur. destruct (A !! idx) as [[old oc]|] eqn:HA; simpl in Hcur; subst.
  - destruct (Hok _ _ HA) as (_ & Ho & _). rewrite decide_True by by destruct Ho as (_ & _ & ?).
    destruct (remove_file_present (disk w1) _ (path_of idx (old_ts, old_wr)) oc F1)
      as (d2 & E2 & F2).
    { rewrite lookup_insert_ne; [apply Hh; eauto|]. intros E. apply path_of_inj in E as [_ E];
        [|done..]. rewrite E in Hlt. exact (irreflexivity stamp_lt _ Hlt). }
    eexists. split_and!.
    + unfold fs_do. cbn [disk set_data_access]. unfold path_of in E2. simpl in E2. by rewrite E2.
    + split_and!; [done| |by eexists]. simpl. by rewrite Hda1, Hda.
    + eapply passes_through_trans; [exact Hp|].
      eapply (passes_through_set_disk _ A' d2 (set_data_access _ w1)); [by right|].
      eexists. split; [exact F2|]. by apply holds_dirty.
  - injection Hcur as <- <-. rewrite decide_False by auto. eexists. split_and!; [done| |exact Hp].
    split_and!; [done| |by eexists]. simpl. by rewrite Hda1, Hda.
Qed.

(** ** Reading *)

Lemma read_metadata_correct A w idx :
  represents A w -> read_metadata idx w = (Ret (current_stamp A idx), w).
Proof.
  intros Hrep. unfold read_metadata. rewrite M_bind_get. by rewrite (represents_current _ _ idx Hrep).
Qed.

Definition current_data A (idx : SectorIdx) : SectorVec := default zero_sector (snd <$> A !! idx).

Lemma read_data_correct A w idx :
  represents A w -> read_data idx w = (Ret (current_data A idx), w).
Proof.
  intros (Hok & Hda & m & Hm & Hh). unfold read_data, current_data.
  rewrite M_bind_get, Hda, lookup_fmap.
  destruct (A !! idx) as [[[ts wr] c]|] eqn:HA; simpl; [|done].
  assert (m !! path_of idx (ts, wr) = Some c) as Hc by (apply Hh; eauto).
  rewrite (open_file _ _ _ Hm). unfold path_of in Hc. simpl in Hc. rewrite Hc. simpl.
  destruct (Hok _ _ HA) as (_ & _ & Hlen). simpl in Hlen.
  rewrite M_bind_lift, decide_True by lia. by rewrite <- Hlen, firstn_all.
Qed.

(** ** Crashes *)

(** A process that starts on a directory. *)
Definition boot (d : D) : SectorsManagerState D :=
  {| disk := d; data_access := ∅; crash_points := [] |}.

Lemma boot_recoverable A d :
  store_ok A -> recoverable A d -> exists w, new (boot d) = (Ret tt, w) /\ represents A w.
Proof.
  intros Hok Hd. destruct (new_on_directory A (boot d) Hok Hd) as (w & Hrun & Hrep & _). eauto.
Qed.

Lemma represents_recoverable A w : represents A w -> recoverable A (disk w).
Proof. intros (Hok & _ & m & Hm & Hh). exists m. split; [done|]. by apply holds_dirty. Qed.

Lemma passes_through_elem P w w' d :
  crash_points w = [] -> passes_through P w w' -> d ∈ crash_points w' ->
  exists A, P A /\ recoverable A d.
Proof.
  intros Hnil (log & E & F) Hin. rewrite E, Hnil in Hin. simpl in Hin.
  rewrite Forall_forall in F. apply F. by apply list_elem_of_In.
Qed.

(** C6: A [write] with a newer stamp than the stored one is atomic under
    crashes.  (A write that repeats the stored stamp is not: it loses the sector,
    [write_same_stamp_loses_sector] below.)  On a manager that serves the store
    [A], the write returns and then serves the updated store;
    and whatever directory a process that dies on the way leaves (before the
    first call, between any two calls, or in the middle of writing the
    temporary file), a restart on it returns and serves either the old store
    or the updated one. *)
Theorem write_is_crash_atomic A w idx ts wr data :
  represents A w -> crash_points w = [] ->
  in_u64 idx -> in_u64 ts -> in_u8 wr -> length data = SECTOR_SIZE ->
  stamp_lt (current_stamp A idx) (ts, wr) ->
  exists w', write idx (data, ts, wr) w = (Ret tt, w') /\
    represents (put idx (ts, wr) data A) w' /\
    forall d, d = disk w \/ d ∈ crash_points w' ->
      exists B w2, (B = A \/ B = put idx (ts, wr) data A) /\
        new (boot d) = (Ret tt, w2) /\ represents B w2.
Proof.
  intros Hrep Hnil Hi Hts Hwr Hlen Hlt.
  destruct (write_correct A w idx ts wr data) as (w' & Hrun & Hrep' & Hp); [done..|].
  exists w'. split_and!; [done..|]. intros d Hd.
  assert (exists B, (B = A \/ B = put idx (ts, wr) data A) /\ recoverable B d) as (B & HB & Hrec).
  { destruct Hd as [->|Hd]; [|by eapply passes_through_elem].
    exists A. split; [auto|]. by apply represents_recoverable. }
  destruct (boot_recoverable B d) as (w2 & ? & ?); [|done|by exists B, w2].
  destruct HB as [->| ->]; [apply Hrep|apply Hrep'].
Qed.

(** C28: Recovery restores the stored sectors from any directory that a crash
    can leave, removes every temporary and outdated file, and can itself be
    interrupted anywhere and run again. *)
Theorem recovery_restores_store A d :
  store_ok A -> recoverable A d ->
  exists w, new (boot d) = (Ret tt, w) /\ represents A w /\
    forall d', d' ∈ crash_points w -> exists w2, new (boot d') = (Ret tt, w2) /\ represents A w2.
Proof.
  intros Hok Hd. destruct (new_on_directory A (boot d) Hok Hd) as (w & Hrun & Hrep & Hp).
  exists w. split_and!; [done..|]. intros d' Hd'.
  destruct (passes_through_elem _ (boot d) w d' eq_refl Hp Hd') as (B & <- & Hrec).
  by apply boot_recoverable.
Qed.

Lemma new_on_missing_directory w :
  files (disk w) = None -> exists w', new w = (Ret tt, w') /\ represents ∅ w'.
Proof.
  intros Hnone. destruct (create_dir_all_missing _ Hnone) as (d1 & E1 & F1).
  destruct (read_dir_entries _ _ F1) as (dir & Hdir & Hperm).
  assert (dir = []) as ->. { apply Permutation_nil_r. by rewrite Hperm, map_to_list_empty. }
  exists (set_data_access ∅ (set_disk d1 w)). split.
  - unfold new. rewrite M_bind_get, (read_dir_missing _ Hnone), M_bind_bind.
    erewrite fs_do_bind by exact E1. rewrite M_bind_bind, M_bind_get. cbn [disk set_disk].
    by rewrite Hdir.
  - split_and!; [by apply map_Forall_empty|by rewrite fmap_empty|]. exists ∅. split; [done|].
    intros n c. rewrite lookup_empty. split; [done|]. intros (idx & s & _ & HA).
    by rewrite lookup_empty in HA.
Qed.

(** ** The manager as a map: sequences of operations *)

Inductive operation :=
| OpWrite (idx : SectorIdx) (sector : SectorVec * u64 * u8)
| OpReadData (idx : SectorIdx)
| OpReadMetadata (idx : SectorIdx)
| OpRestart.

Inductive answer :=
| Done
| Data (v : SectorVec)
| Metadata (s : stamp).

Definition exec (o : operation) : M (SectorsManagerState D) Empty_set answer :=
  match o with
  | OpWrite idx sector => write idx sector ;; mret Done
  | OpReadData idx => v ← read_data idx; mret (Data v)
  | OpReadMetadata idx => s ← read_metadata idx; mret (Metadata s)
  | OpRestart => modify (fun w => boot (disk w)) ;; new ;; mret Done
  end.

Fixpoint exec_all (os : list operation) : M (SectorsManagerState D) Empty_set (list answer) :=
  match os with
  | [] => mret []
  | o :: os => a ← exec o; l ← exec_all os; mret (a :: l)
  end.

(** The same operations on a map from sectors to stamped data. *)
Definition spec_step A (o : operation) : store * answer :=
  match o with
  | OpWrite idx (data, ts, wr) => (put idx (ts, wr) data A, Done)
  | OpReadData idx => (A, Data (current_data A idx))
  | OpReadMetadata idx => (A, Metadata (current_stamp A idx))
  | OpRestart => (A, Done)
  end.

Fixpoint spec_all A (os : list operation) : store * list answer :=
  match os with
  | [] => (A, [])
  | o :: os => let '(A, a) := spec_step A o in let '(A, l) := spec_all A os in (A, a :: l)
  end.

(** Writes carry data of the right size and a newer stamp. *)
Definition op_ok A (o : operation) : Prop :=
  match o with
  | OpWrite idx (data, ts, wr) =>
      in_u64 idx /\ in_u64 ts /\ in_u8 wr /\ length data = SECTOR_SIZE /\
      stamp_lt (current_stamp A idx) (ts, wr)
  | _ => True
  end.

Fixpoint ops_ok A (os : list operation) : Prop :=
  match os with [] => True | o :: os => op_ok A o /\ ops_ok (spec_step A o).1 os end.

Lemma exec_correct A w o :
  represents A w -> op_ok A o ->
  exists w', exec o w = (Ret (spec_step A o).2, w') /\ represents (spec_step A o).1 w'.
Proof.
  intros Hrep Hok. destruct o as [idx [[data ts] wr]|idx|idx|]; simpl in *.
  - destruct Hok as (? & ? & ? & ? & ?).
    destruct (write_correct A w idx ts wr data) as (w' & Hrun & Hrep' & _); [done..|].
    exists w'. by erewrite M_bind_Ret by exact Hrun.
  - exists w. by erewrite M_bind_Ret by by apply read_data_correct.
  - exists w. by erewrite M_bind_Ret by by apply read_metadata_correct.
  - destruct (boot_recoverable A (disk w)) as (w' & Hrun & Hrep');
      [apply Hrep|by apply represents_recoverable|].
    exists w'. rewrite M_bind_modify. by erewrite M_bind_Ret by exact Hrun.
Qed.

Lemma exec_all_correct A w os :
  represents A w -> ops_ok A os ->
  exists w', exec_all os w = (Ret (spec_all A os).2, w') /\ represents (spec_all A os).1 w'.
Proof.
  revert A w. induction os as [|o os IH]; intros A w Hrep Hok; simpl in *; [by exists w|].
  destruct Hok as [Ho Hos]. destruct (exec_correct A w o Hrep Ho) as (w1 & Hrun & Hrep1).
  destruct (spec_step A o) as [A1 a]. simpl in *.
  destruct (IH A1 w1 Hrep1 Hos) as (w2 & Hrun2 & Hrep2). destruct (spec_all A1 os) as [A2 l].
  exists w2. erewrite M_bind_Ret by exact Hrun. by erewrite M_bind_Ret by exact Hrun2.
Qed.

(** C29: As long as every write has a newer stamp than the one stored for its
    sector ([ops_ok]), the manager refines a map: every sequence of such writes,
    reads and restarts returns, gives the answers that the map gives, and ends
    in a state that serves the map's contents. *)
Theorem sectors_manager_refines_map A w os :
  represents A w -> ops_ok A os ->
  exists w', exec_all os w = (Ret (spec_all A os).2, w') /\ represents (spec_all A os).1 w'.
Proof. apply exec_all_correct. Qed.

(** ** Space *)

Definition file_of (e : Z * (stamp * bytes)) : string * bytes := (path_of e.1 e.2.1, e.2.2).

Lemma holds_files A m : store_ok A -> holds A m -> map_to_list m ≡ₚ file_of <$> map_to_list A.
Proof.
  intros Hok Hh. apply NoDup_Permutation.
  - apply NoDup_map_to_list.
  - apply NoDup_fmap_2_strong; [|apply NoDup_map_to_list].
    intros [i [s c]] [j [t c']] Hi%elem_of_map_to_list Hj%elem_of_map_to_list [= E <-].
    destruct (Hok _ _ Hi) as (? & ? & _), (Hok _ _ Hj) as (? & ? & _).
    apply path_of_inj in E as [-> ->]; done.
  - intros [n c]. rewrite elem_of_map_to_list, list_elem_of_fmap.
    rewrite (Hh n c : _ <-> _). split.
    + intros (idx & s & -> & HA). exists (idx, (s, c)). by rewrite elem_of_map_to_list.
    + intros ([idx [s c']] & [= -> ->] & HA). apply elem_of_map_to_list in HA. eauto.
Qed.

Definition dir_bytes (m : gmap string bytes) : nat := sum_list ((fun f => length f.2) <$> map_to_list m).

Lemma represents_space A w m :
  represents A w -> files (disk w) = Some m ->
  size m = size A /\ dir_bytes m = (SECTOR_SIZE * size A)%nat.
Proof.
  intros (Hok & _ & m' & Hm' & Hh) Hm. rewrite Hm in Hm'. injection Hm' as <-.
  pose proof (holds_files _ _ Hok Hh) as Hperm.
  assert (size m = size A) as Hsize.
  { rewrite <- !length_map_to_list, Hperm. apply length_fmap. }
  split; [done|]. unfold dir_bytes. rewrite Hperm, <- length_map_to_list, <- list_fmap_compose.
  assert (Forall (fun e => length (file_of e).2 = SECTOR_SIZE) (map_to_list A)) as Hlen.
  { apply Forall_forall. intros [idx [s c]] Hin%list_elem_of_In%elem_of_map_to_list.
    by destruct (Hok _ _ Hin) as (_ & _ & ?). }
  clear Hperm Hsize. induction Hlen as [|e l He _ IH]; [simpl; lia|]. rewrite fmap_cons.
  change (sum_list (?x :: ?y)) with (x + sum_list y)%nat. rewrite IH. unfold compose.
  rewrite He. simpl length. lia.
Qed.

(** The sectors that a sequence of operations writes. *)
Definition sectors_written (os : list operation) : gset Z :=
  list_to_set (omap (fun o => match o with OpWrite idx _ => Some idx | _ => None end) os).

Lemma spec_all_dom A os : dom (spec_all A os).1 = dom A ∪ sectors_written os.
Proof.
  revert A. induction os as [|o os IH]; intros A; unfold sectors_written in *; simpl; [set_solver|].
  destruct (spec_step A o) as [A1 a] eqn:E. specialize (IH A1). destruct (spec_all A1 os) as [A2 l]. simpl in *.
  rewrite IH. destruct o as [idx [[data ts] wr]|idx|idx|]; injection E as <- _; simpl; [|done..].
  unfold put. rewrite dom_insert_L. set_solver.
Qed.

(** C36: Storage does not grow with the number of writes.  After a start on any
    directory that a crash can leave and any sequence of reads, restarts and
    writes with newer stamps than the stored ones, the directory holds one file
    of one sector for every sector that was stored before or written since, and
    nothing more: no temporary and no outdated file is left. *)
Theorem storage_space A d os :
  store_ok A -> recoverable A d -> ops_ok A os ->
  exists w w' m, new (boot d) = (Ret tt, w) /\ exec_all os w = (Ret (spec_all A os).2, w') /\
    files (disk w') = Some m /\
    size m = size (dom A ∪ sectors_written os) /\
    dir_bytes m = (SECTOR_SIZE * size (dom A ∪ sectors_written os))%nat.
Proof.
  intros Hok Hd Hos. destruct (boot_recoverable A d Hok Hd) as (w & Hnew & Hrep).
  destruct (exec_all_correct A w os Hrep Hos) as (w' & Hrun & Hrep').
  pose proof Hrep' as (_ & _ & m & Hm & _). exists w, w', m. split_and!; [done..| |];
    destruct (represents_space _ _ _ Hrep' Hm) as [Hs Hb]; by rewrite <- spec_all_dom, size_dom.
Qed.

(** ** Writing the same stamp twice *)

Lemma holds_overwrite A m idx s c data :
  store_ok A -> holds A m -> A !! idx = Some (s, c) -> holds (put idx s data A) (<[path_of idx s := data]> m).
Proof.
  intros Hok Hh HA n c'. rewrite lookup_insert_Some, (Hh n c' : _ <-> _). unfold put.
  destruct (Hok _ _ HA) as (Hi & Hs & _). split.
  - intros [[<- <-]|[Hne (j & t & -> & HAj)]].
    + exists idx, s. by rewrite lookup_insert_eq.
    + exists j, t. rewrite lookup_insert_ne; [done|]. intros <-. congruence.
  - intros (j & t & -> & HAj). apply lookup_insert_Some in HAj as [[<- [= <- <-]]|[Hne HAj]]; [by left|].
    right. split; [|by eauto]. destruct (Hok _ _ HAj) as (? & ? & _). intros E.
    by apply path_of_inj in E as [? _].
Qed.

Lemma holds_removed A m idx s c data :
  store_ok A -> holds A m -> A !! idx = Some (s, c) ->
  holds (delete idx A) (delete (path_of idx s) (<[path_of idx s := data]> m)).
Proof.
  intros Hok Hh HA n c'. rewrite delete_insert_eq, lookup_delete_Some, (Hh n c' : _ <-> _).
  destruct (Hok _ _ HA) as (Hi & Hs & _). split.
  - intros [Hne (j & t & -> & HAj)]. exists j, t. split; [done|]. apply lookup_delete_Some.
    split; [|done]. intros <-. congruence.
  - intros (j & t & -> & [Hne HAj]%lookup_delete_Some). split; [|by eauto].
    destruct (Hok _ _ HAj) as (? & ? & _). intros E. by apply path_of_inj in E as [? _].
Qed.

Lemma write_same_stamp A w idx ts wr c data :
  represents A w -> A !! idx = Some ((ts, wr), c) -> length data = SECTOR_SIZE ->
  exists w', write idx (data, ts, wr) w = (Ret tt, w') /\
    read_data idx w' = (Panic "Failed to open sector file", w') /\
    recoverable (delete idx A) (disk w').
Proof.
  intros Hrep HA Hlen. pose proof Hrep as (Hok & Hda & m & Hm & Hh).
  destruct (Hok _ _ HA) as (Hi & Hs & _). simpl in Hs.
  destruct (write_publishes A m w idx ts wr data (fun _ => True)) as (w1 & F1 & Hda1 & _ & Hrun);
    [done|done| |done..|].
  { apply holds_dirty; [by apply put_ok|]. by eapply holds_overwrite. }
  rewrite Hrun, Hda1, (represents_current _ _ idx Hrep). unfold current_stamp. rewrite HA. simpl.
  rewrite M_bind_modify, decide_True by by destruct Hs as (_ & _ & ?).
  destruct (remove_file_present (disk w1) _ (path_of idx (ts, wr)) data F1) as (d2 & E2 & F2);
    [apply lookup_insert_eq|].
  eexists. split_and!.
  - unfold fs_do. cbn [disk set_data_access]. unfold path_of in E2. simpl in E2. by rewrite E2.
  - unfold read_data. rewrite M_bind_get. cbn [data_access set_disk set_data_access disk].
    rewrite lookup_insert_eq, (open_file _ _ _ F2). unfold path_of. simpl.
    by rewrite lookup_delete_eq.
  - eexists. split; [exact F2|]. apply holds_dirty; [by apply map_Forall_delete|by eapply holds_removed].
Qed.

(** Writing a sector again with the stamp it has removes the file that was
    just written: [write] returns, the next read of the sector panics, and after
    a restart the sector reads as never written. *)
Theorem write_same_stamp_loses_sector A w idx ts wr c data :
  represents A w -> A !! idx = Some ((ts, wr), c) -> length data = SECTOR_SIZE ->
  exists w' w2, write idx (data, ts, wr) w = (Ret tt, w') /\
    read_data idx w' = (Panic "Failed to open sector file", w') /\
    new (boot (disk w')) = (Ret tt, w2) /\
    read_data idx w2 = (Ret zero_sector, w2) /\ read_metadata idx w2 = (Ret (0, 0), w2).
Proof.
  intros Hrep HA Hlen. destruct (write_same_stamp A w idx ts wr c data Hrep HA Hlen) as (w' & Hrun & Hread & Hrec).
  assert (store_ok (delete idx A)) as Hok by (apply map_Forall_delete, Hrep).
  destruct (boot_recoverable _ _ Hok Hrec) as (w2 & Hnew & Hrep2). exists w', w2.
  split_and!; [done..| |].
  - rewrite (read_data_correct _ _ _ Hrep2). unfold current_data. by rewrite lookup_delete_eq.
  - rewrite (read_metadata_correct _ _ _ Hrep2). unfold current_stamp. by rewrite lookup_delete_eq.
Qed.

End Correctness.

(** ** The theorems on a concrete directory *)

Module SectorsManagerExamples.

Definition sector (b : Z) : SectorVec := replicate SECTOR_SIZE b.

(** Sector 1 holds [sector 7] with stamp (1, 2). *)
Definition A1 : store := {[ 1 := ((1, 2), sector 7) ]}.
Definition dir1 : gmap string bytes := {[ path_of 1 (1, 2) := sector 7 ]}.
Definition w1 : SectorsManagerState RamDir.t :=
  {| disk := {| RamDir.entries := Some dir1 |}; data_access := {[ 1 := (1, 2) ]}; crash_points := [] |}.

Lemma A1_ok : store_ok A1.
Proof.
  apply map_Forall_singleton. split; [by_evaluation|]. split; [|apply length_replicate].
  split; [by_evaluation|]. split; [by_evaluation|done].
Qed.

Lemma w1_represents : represents A1 w1.
Proof.
  split_and!; [apply A1_ok|unfold A1; by rewrite map_fmap_singleton|].
  exists dir1. split; [done|]. intros n c. unfold dir1, A1. rewrite lookup_singleton_Some. split.
  - intros [<- <-]. exists 1, (1, 2). by rewrite lookup_singleton_eq.
  - intros (idx & s & -> & HA). apply lookup_singleton_Some in HA as [<- [= <- <-]]. done.
Qed.

Lemma write_is_crash_atomic_witness :
  exists w', write 1 (sector 9, 2, 1) w1 = (Ret tt, w') /\
    represents (put 1 (2, 1) (sector 9) A1) w'.
Proof.
  destruct (write_is_crash_atomic A1 w1 1 2 1 (sector 9) w1_represents eq_refl)
    as (w' & Hrun & Hrep & _);
    [by_evaluation|by_evaluation|by_evaluation|apply length_replicate|by_evaluation|].
  exists w'. split; [exact Hrun|exact Hrep].
Defined.

(** The directory after a crash between the rename and the removal, with a
    torn temporary file of another write. *)
Definition dir2 : RamDir.t := {| RamDir.entries := Some
  (<[sectoridx_tmp_file_path 4 8 1 := [1; 2; 3]]>
    (<[path_of 1 (1, 2) := sector 7]> {[ path_of 1 (1, 1) := sector 3 ]})) |}.

Lemma dir2_recoverable : recoverable A1 dir2.
Proof.
  eexists. split; [reflexivity|]. apply dirty_insert_junk; [apply tmp_not_sector|]. split.
  - intros n c. rewrite lookup_insert_Some, lookup_singleton_Some. intros [[<- <-]|[_ [<- <-]]]; right.
    + exists 1, (1, 2), (1, 2), (sector 7). split_and!; [done|by_evaluation| |done|by right].
      split; [by_evaluation|]. by split; [by_evaluation|].
    + exists 1, (1, 1), (1, 2), (sector 7). split_and!; [done|by_evaluation| |done|left; by_evaluation].
      split; [by_evaluation|]. by split; [by_evaluation|].
  - intros idx s c HA. unfold A1 in HA.
    apply lookup_singleton_Some in HA as [<- [= <- <-]]. apply lookup_insert_eq.
Qed.

Lemma recovery_restores_store_witness :
  exists w, new (boot dir2) = (Ret tt, w) /\ represents A1 w.
Proof.
  destruct (recovery_restores_store A1 dir2 A1_ok dir2_recoverable) as (w & Hrun & Hrep & _).
  exists w. split; [exact Hrun|exact Hrep].
Defined.

Definition script : list operation :=
  [OpWrite 1 (sector 9, 2, 1); OpRestart; OpReadData 1; OpReadMetadata 5; OpWrite 5 (sector 4, 1, 3);
   OpReadMetadata 5].

Lemma sectors_manager_refines_map_witness :
  exists w', exec_all script w1 =
    (Ret [Done; Done; Data (sector 9); Metadata (0, 0); Done; Metadata (1, 3)], w').
Proof.
  destruct (sectors_manager_refines_map A1 w1 script w1_represents) as (w' & Hrun & _).
  - repeat split; try (by_evaluation); apply length_replicate.
  - exists w'. exact Hrun.
Defined.

(** Two sectors are stored at the end, one of them written three times. *)
Lemma storage_space_witness :
  exists w w' m, new (boot dir2) = (Ret tt, w) /\
    exec_all (script ++ [OpWrite 1 (sector 2, 3, 3)]) w =
      (Ret [Done; Done; Data (sector 9); Metadata (0, 0); Done; Metadata (1, 3); Done], w') /\
    files (disk w') = Some m /\ size m = 2%nat /\ dir_bytes m = (SECTOR_SIZE * 2)%nat.
Proof.
  destruct (storage_space A1 dir2 (script ++ [OpWrite 1 (sector 2, 3, 3)]) A1_ok dir2_recoverable)
    as (w & w' & m & Hnew & Hrun & Hm & Hsize & Hbytes).
  - repeat split; try (by_evaluation); apply length_replicate.
  - exists w, w', m. split; [exact Hnew|]. split; [exact Hrun|]. split; [exact Hm|].
    split; [exact Hsize|exact Hbytes].
Defined.

Lemma write_same_stamp_loses_sector_witness :
  exists w' w2, write 1 (sector 9, 1, 2) w1 = (Ret tt, w') /\
    read_data 1 w' = (Panic "Failed to open sector file", w') /\
    new (boot (disk w')) = (Ret tt, w2) /\
    read_data 1 w2 = (Ret zero_sector, w2) /\ read_metadata 1 w2 = (Ret (0, 0), w2).
Proof.
  exact (write_same_stamp_loses_sector A1 w1 1 1 2 (sector 7) (sector 9) w1_represents eq_refl
    (length_replicate _ _)).
Defined.

End SectorsManagerExamples.
