(* ===== verification/AtomicRegister.v ===== *)
(** * The register: [solution/src/atomic_register.rs]

    One instance of the (N,N)-AtomicRegister algorithm.  A handler takes the
    state of the register to its new state and the calls it makes on the way,
    in order: messages handed to the [RegisterClient], writes handed to the
    [SectorsManager] and the completed operation handed to the callback. *)

From S2P Require Import Prelude Domain.

(** ** State *)

Record AtomicRegisterState {Uuid Callback : Type} := {
  self_ident : u8;
  ar_sector_idx : SectorIdx;
  processes_count : u8;
  ts : u64;
  wr : u8;
  val : SectorVec;
  readlist : gmap Z (stamp * SectorVec);
  acklist : gset Z;
  reading : bool;
  writing : bool;
  writeval : SectorVec;
  readval : SectorVec;
  write_phase : bool;
  callback : option Callback;
  rid : option u64;
  op_id : option Uuid;
}.
Arguments AtomicRegisterState Uuid Callback : clear implicits.

Section Assignments.
Context {Uuid Callback : Type}.

#[export] Instance assign_ts : Assign (R:=AtomicRegisterState Uuid Callback) ts := fun v s =>
  {| self_ident := self_ident s; ar_sector_idx := ar_sector_idx s; processes_count :=
     processes_count s; ts := v; wr := wr s; val := val s; readlist := readlist s; acklist
     := acklist s; reading := reading s; writing := writing s; writeval := writeval s;
     readval := readval s; write_phase := write_phase s; callback := callback s; rid := rid
     s; op_id := op_id s |}.
#[export] Instance assign_wr : Assign (R:=AtomicRegisterState Uuid Callback) wr := fun v s =>
  {| self_ident := self_ident s; ar_sector_idx := ar_sector_idx s; processes_count :=
     processes_count s; ts := ts s; wr := v; val := val s; readlist := readlist s; acklist
     := acklist s; reading := reading s; writing := writing s; writeval := writeval s;
     readval := readval s; write_phase := write_phase s; callback := callback s; rid := rid
     s; op_id := op_id s |}.
#[export] Instance assign_val : Assign (R:=AtomicRegisterState Uuid Callback) val := fun v s =>
  {| self_ident := self_ident s; ar_sector_idx := ar_sector_idx s; processes_count :=
     processes_count s; ts := ts s; wr := wr s; val := v; readlist := readlist s; acklist :=
     acklist s; reading := reading s; writing := writing s; writeval := writeval s; readval
     := readval s; write_phase := write_phase s; callback := callback s; rid := rid s; op_id
     := op_id s |}.
#[export] Instance assign_readlist : Assign (R:=AtomicRegisterState Uuid Callback) readlist := fun v s =>
  {| self_ident := self_ident s; ar_sector_idx := ar_sector_idx s; processes_count :=
     processes_count s; ts := ts s; wr := wr s; val := val s; readlist := v; acklist :=
     acklist s; reading := reading s; writing := writing s; writeval := writeval s; readval
     := readval s; write_phase := write_phase s; callback := callback s; rid := rid s; op_id
     := op_id s |}.
#[export] Instance assign_acklist : Assign (R:=AtomicRegisterState Uuid Callback) acklist := fun v s =>
  {| self_ident := self_ident s; ar_sector_idx := ar_sector_idx s; processes_count :=
     processes_count s; ts := ts s; wr := wr s; val := val s; readlist := readlist s;
     acklist := v; reading := reading s; writing := writing s; writeval := writeval s;
     readval := readval s; write_phase := write_phase s; callback := callback s; rid := rid
     s; op_id := op_id s |}.
#[export] Instance assign_reading : Assign (R:=AtomicRegisterState Uuid Callback) reading := fun v s =>
  {| self_ident := self_ident s; ar_sector_idx := ar_sector_idx s; processes_count :=
     processes_count s; ts := ts s; wr := wr s; val := val s; readlist := readlist s;
     acklist := acklist s; reading := v; writing := writing s; writeval := writeval s;
     readval := readval s; write_phase := write_phase s; callback := callback s; rid := rid
     s; op_id := op_id s |}.
#[export] Instance assign_writing : Assign (R:=AtomicRegisterState Uuid Callback) writing := fun v s =>
  {| self_ident := self_ident s; ar_sector_idx := ar_sector_idx s; processes_count :=
     processes_count s; ts := ts s; wr := wr s; val := val s; readlist := readlist s;
     acklist := acklist s; reading := reading s; writing := v; writeval := writeval s;
     readval := readval s; write_phase := write_phase s; callback := callback s; rid := rid
     s; op_id := op_id s |}.
#[export] Instance assign_writeval : Assign (R:=AtomicRegisterState Uuid Callback) writeval := fun v s =>
  {| self_ident := self_ident s; ar_sector_idx := ar_sector_idx s; processes_count :=
     processes_count s; ts := ts s; wr := wr s; val := val s; readlist := readlist s;
     acklist := acklist s; reading := reading s; writing := writing s; writeval := v;
     readval := readval s; write_phase := write_phase s; callback := callback s; rid := rid
     s; op_id := op_id s |}.
#[export] Instance assign_readval : Assign (R:=AtomicRegisterState Uuid Callback) readval := fun v s =>
  {| self_ident := self_ident s; ar_sector_idx := ar_sector_idx s; processes_count :=
     processes_count s; ts := ts s; wr := wr s; val := val s; readlist := readlist s;
     acklist := acklist s; reading := reading s; writing := writing s; writeval := writeval
     s; readval := v; write_phase := write_phase s; callback := callback s; rid := rid s;
     op_id := op_id s |}.
#[export] Instance assign_write_phase : Assign (R:=AtomicRegisterState Uuid Callback) write_phase := fun v s =>
  {| self_ident := self_ident s; ar_sector_idx := ar_sector_idx s; processes_count :=
     processes_count s; ts := ts s; wr := wr s; val := val s; readlist := readlist s;
     acklist := acklist s; reading := reading s; writing := writing s; writeval := writeval
     s; readval := readval s; write_phase := v; callback := callback s; rid := rid s; op_id
     := op_id s |}.
#[export] Instance assign_callback : Assign (R:=AtomicRegisterState Uuid Callback) callback := fun v s =>
  {| self_ident := self_ident s; ar_sector_idx := ar_sector_idx s; processes_count :=
     processes_count s; ts := ts s; wr := wr s; val := val s; readlist := readlist s;
     acklist := acklist s; reading := reading s; writing := writing s; writeval := writeval
     s; readval := readval s; write_phase := write_phase s; callback := v; rid := rid s;
     op_id := op_id s |}.
#[export] Instance assign_rid : Assign (R:=AtomicRegisterState Uuid Callback) rid := fun v s =>
  {| self_ident := self_ident s; ar_sector_idx := ar_sector_idx s; processes_count :=
     processes_count s; ts := ts s; wr := wr s; val := val s; readlist := readlist s;
     acklist := acklist s; reading := reading s; writing := writing s; writeval := writeval
     s; readval := readval s; write_phase := write_phase s; callback := callback s; rid :=
     v; op_id := op_id s |}.
#[export] Instance assign_op_id : Assign (R:=AtomicRegisterState Uuid Callback) op_id := fun v s =>
  {| self_ident := self_ident s; ar_sector_idx := ar_sector_idx s; processes_count :=
     processes_count s; ts := ts s; wr := wr s; val := val s; readlist := readlist s;
     acklist := acklist s; reading := reading s; writing := writing s; writeval := writeval
     s; readval := readval s; write_phase := write_phase s; callback := callback s; rid :=
     rid s; op_id := v |}.

End Assignments.

(** What a handler does besides changing the register. *)
Inductive effect {Uuid Callback : Type} :=
| Broadcast (cmd : SystemRegisterCommand Uuid)
| Send (cmd : SystemRegisterCommand Uuid) (target : u8)
| Store (idx : SectorIdx) (sector : SectorVec * u64 * u8)
| Complete (callback : Callback) (success : OperationSuccess).
Arguments effect Uuid Callback : clear implicits.

(** ** [Iterator::max_by]: the last of the greatest elements *)

Definition max_by {A} (compare : A -> A -> comparison) (l : list A) : option A :=
  match l with
  | [] => None
  | x :: l => Some (fold_left (fun x y => match compare x y with Gt => x | _ => y end) l x)
  end.

Section Register.
Context {Uuid Callback : Type} `{!EqDecision Uuid}.

Abbreviation state := (AtomicRegisterState Uuid Callback).
Abbreviation entry := (stamp * SectorVec)%type.

(** The order in which a [HashMap] iterates depends on its random hasher; it is
    an argument of the handler that iterates. *)
Abbreviation iteration := (gmap Z entry -> list (Z * entry)).

(** [AtomicRegisterState::new]. *)
Definition new (self_ident : u8) (sector_idx : SectorIdx) (processes_count : u8)
    (ts : u64) (wr : u8) (val : SectorVec) : state :=
  {| self_ident := self_ident; ar_sector_idx := sector_idx; processes_count := processes_count;
     ts := ts; wr := wr; val := val; readlist := ∅; acklist := ∅; reading := false;
     writing := false; writeval := zero_sector; readval := zero_sector; write_phase := false;
     callback := None; rid := None; op_id := None |}.

(** ** Client commands *)

(** [new_v4] is the identifier that [Uuid::new_v4] draws. *)
Definition client_command (new_v4 : Uuid) (cmd : ClientRegisterCommand) (success_callback : Callback)
    (self : state) : state * list (effect Uuid Callback) :=
  let self := self <| op_id := Some new_v4 |> in
  let self := self <| callback := Some success_callback |> in
  let self := self <| rid := Some (request_identifier (c_header cmd)) |> in
  let self :=
    match c_content cmd with
    | Read => self <| readlist := ∅ |> <| acklist := ∅ |> <| reading := true |>
    | Write data =>
        self <| writeval := data |> <| acklist := ∅ |> <| readlist := ∅ |> <| writing := true |>
    end in
  let sidx := c_sector_idx (c_header cmd) in
  let header :=
    {| process_identifier := self_ident self; msg_ident := new_v4; sector_idx := sidx |} in
  (self, [Broadcast {| header := header; content := ReadProc |}]).

(** ** System commands *)

(** The comparison of line 199: [a.1.1.cmp(&b.1.1)] on pairs of a key and a
    triple compares the second component of the triples. *)
Definition compare_entries (a b : Z * entry) : comparison := Z.compare (a.2.1.2) (b.2.1.2).

Definition handle_read_proc (h : SystemCommandHeader Uuid) (self : state)
  : state * list (effect Uuid Callback) :=
  let p := process_identifier h in
  let header := {| process_identifier := self_ident self; msg_ident := msg_ident h;
                   sector_idx := sector_idx h |} in
  (self, [Send {| header := header; content := Value (ts self) (wr self) (val self) |} p]).

Definition handle_value (overflow_checks : bool) (iter : iteration)
    (h : SystemCommandHeader Uuid) (timestamp : u64) (write_rank : u8) (sector_data : SectorVec)
    (self : state) : outcome Empty_set (state * list (effect Uuid Callback)) :=
  let q := process_identifier h in
  let id := msg_ident h in
  let sidx := sector_idx h in
  op ← expect "op_id" (op_id self);
  if bool_decide (id = op) && negb (write_phase self) then
    let self := self <| readlist := <[q := ((timestamp, write_rank), sector_data)]> (readlist self) |> in
    if (Z.of_nat (size (readlist self)) >? processes_count self / 2) && (reading self || writing self) then
      let self :=
        self <| readlist := <[self_ident self := ((ts self, wr self), val self)]> (readlist self) |> in
      highest ← expect "max_by" (max_by compare_entries (iter (readlist self)));
      let '(maxts, rr, readval') := highest.2 in
      let self := self <| readval := readval' |> <| readlist := ∅ |> <| acklist := ∅ |>
                       <| write_phase := true |> in
      let header := {| process_identifier := self_ident self; msg_ident := op; sector_idx := sidx |} in
      if reading self then
        mret (self, [Broadcast {| header := header; content := WriteProc maxts rr readval' |}])
      else
        new_ts ← u64_add overflow_checks maxts 1;
        let self := self <| ts := new_ts |> <| wr := self_ident self |> <| val := writeval self |> in
        mret (self, [Store (ar_sector_idx self) (val self, ts self, wr self);
                     Broadcast {| header := header;
                                  content := WriteProc (ts self) (self_ident self) (writeval self) |}])
    else mret (self, [])
  else mret (self, []).

Definition handle_write_proc (h : SystemCommandHeader Uuid) (timestamp : u64) (write_rank : u8)
    (data_to_write : SectorVec) (self : state) : state * list (effect Uuid Callback) :=
  let p := process_identifier h in
  let '(self, stores) :=
    if decide (stamp_lt (ts self, wr self) (timestamp, write_rank)) then
      let self := self <| ts := timestamp |> <| wr := write_rank |> <| val := data_to_write |> in
      (self, [Store (ar_sector_idx self) (val self, ts self, wr self)])
    else (self, []) in
  let header := {| process_identifier := self_ident self; msg_ident := msg_ident h;
                   sector_idx := sector_idx h |} in
  (self, stores ++ [Send {| header := header; content := Ack |} p]).

Definition handle_ack (h : SystemCommandHeader Uuid) (self : state)
  : outcome Empty_set (state * list (effect Uuid Callback)) :=
  let q := process_identifier h in
  let id := msg_ident h in
  op ← expect "op_id" (op_id self);
  if bool_decide (id = op) && write_phase self then
    let self := self <| acklist := {[ q ]} ∪ acklist self |> in
    if (Z.of_nat (size (acklist self)) >? processes_count self / 2) && (reading self || writing self) then
      let self := self <| acklist := ∅ |> <| write_phase := false |> in
      let '(self, op_return) :=
        if reading self then (self <| reading := false |>, ReadReturn (readval self))
        else (self <| writing := false |>, WriteReturn) in
      match callback self with
      | Some cb =>
          let self := self <| callback := None |> in
          request ← expect "rid" (rid self);
          mret (self, [Complete cb {| os_request_identifier := request; op_return := op_return |}])
      | None => mret (self, [])
      end
    else mret (self, [])
  else mret (self, []).

Definition system_command (overflow_checks : bool) (iter : iteration)
    (cmd : SystemRegisterCommand Uuid) (self : state)
  : outcome Empty_set (state * list (effect Uuid Callback)) :=
  match content cmd with
  | ReadProc => Ret (handle_read_proc (header cmd) self)
  | Value timestamp write_rank sector_data =>
      handle_value overflow_checks iter (header cmd) timestamp write_rank sector_data self
  | WriteProc timestamp write_rank data_to_write =>
      Ret (handle_write_proc (header cmd) timestamp write_rank data_to_write self)
  | Ack => handle_ack (header cmd) self
  end.

End Register.

(** ** Facts on [max_by] *)

Lemma max_by_elem {A} compare (l : list A) x : max_by compare l = Some x -> x ∈ l.
Proof.
  destruct l as [|a l]; [done|]. simpl. intros [= <-]. revert a.
  induction l as [|b l IH]; intros a; simpl; [set_solver|].
  destruct (compare a b); specialize (IH a) as IHa; specialize (IH b) as IHb; set_solver.
Qed.

Lemma max_by_total {A} compare (l : list A) : l <> [] -> is_Some (max_by compare l).
Proof. destruct l; [done|]. simpl. eauto. Qed.

Lemma max_by_rank (l : list (Z * (stamp * SectorVec))) x y :
  max_by compare_entries l = Some x -> y ∈ l -> y.2.1.2 <= x.2.1.2.
Proof.
  destruct l as [|a l]; [done|]. simpl. intros [= <-]. revert y a.
  induction l as [|b l IH]; intros y a; simpl.
  - intros ->%list_elem_of_singleton. lia.
  - rewrite !elem_of_cons. set (c := match compare_entries a b with Gt => a | _ => b end).
    assert (a.2.1.2 <= c.2.1.2 /\ b.2.1.2 <= c.2.1.2) as [Ha Hb].
    { unfold c, compare_entries. destruct (Z.compare_spec a.2.1.2 b.2.1.2); lia. }
    assert (forall y, y ∈ c :: l -> y.2.1.2 <= _) as Hc by (intros z Hz; apply (IH z c Hz)).
    intros [->|[->|Hy]].
    + etrans; [exact Ha|]. apply Hc, elem_of_cons. by left.
    + etrans; [exact Hb|]. apply Hc, elem_of_cons. by left.
    + apply Hc, elem_of_cons. by right.
Qed.

(** ** The branches of the handlers *)

Section Branches.
Context {Uuid Callback : Type} `{!EqDecision Uuid}.
Abbreviation state := (AtomicRegisterState Uuid Callback).
Abbreviation effects := (list (effect Uuid Callback)).
Implicit Types (s : state) (h : SystemCommandHeader Uuid).

Definition majority (n : nat) s : Prop := processes_count s / 2 < Z.of_nat n.
Definition busy s : Prop := reading s = true \/ writing s = true.
Definition idle s : Prop := reading s = false /\ writing s = false.

Lemma busy_or_idle s : busy s \/ idle s.
Proof. unfold busy, idle. destruct (reading s), (writing s); auto. Qed.

Lemma busy_not_idle s : busy s -> idle s -> False.
Proof. unfold busy, idle. intros [?|?] [? ?]; congruence. Qed.

Lemma busy_orb s : reading s || writing s = true <-> busy s.
Proof. unfold busy. destruct (reading s), (writing s); naive_solver. Qed.

(** The reply of the writer's own process is added once a majority answered. *)
Definition full_readlist s h (timestamp : u64) (write_rank : u8) (v : SectorVec) : gmap Z (stamp * SectorVec) :=
  <[self_ident s := ((ts s, wr s), val s)]>
    (<[process_identifier h := ((timestamp, write_rank), v)]> (readlist s)).

Definition reply_header s h (op : Uuid) : SystemCommandHeader Uuid :=
  {| process_identifier := self_ident s; msg_ident := op; sector_idx := sector_idx h |}.

Inductive value_case (overflow_checks : bool) iter s h (timestamp : u64) (write_rank : u8) (v : SectorVec)
  : state -> effects -> Prop :=
| value_ignored op :
    op_id s = Some op -> msg_ident h <> op \/ write_phase s = true ->
    value_case overflow_checks iter s h timestamp write_rank v s []
| value_collected op rl :
    op_id s = Some op -> msg_ident h = op -> write_phase s = false ->
    rl = <[process_identifier h := ((timestamp, write_rank), v)]> (readlist s) ->
    ~ majority (size rl) s \/ idle s ->
    value_case overflow_checks iter s h timestamp write_rank v (s <| readlist := rl |>) []
| value_read_decided op k maxts rr v' :
    op_id s = Some op -> msg_ident h = op -> write_phase s = false ->
    majority (size (<[process_identifier h := ((timestamp, write_rank), v)]> (readlist s))) s ->
    reading s = true ->
    max_by compare_entries (iter (full_readlist s h timestamp write_rank v)) = Some (k, ((maxts, rr), v')) ->
    value_case overflow_checks iter s h timestamp write_rank v
      (s <| readval := v' |> <| readlist := ∅ |> <| acklist := ∅ |> <| write_phase := true |>)
      [Broadcast {| header := reply_header s h op; content := WriteProc maxts rr v' |}]
| value_write_decided op k maxts rr v' ts' :
    op_id s = Some op -> msg_ident h = op -> write_phase s = false ->
    majority (size (<[process_identifier h := ((timestamp, write_rank), v)]> (readlist s))) s ->
    reading s = false -> writing s = true ->
    max_by compare_entries (iter (full_readlist s h timestamp write_rank v)) = Some (k, ((maxts, rr), v')) ->
    u64_add (E:=Empty_set) overflow_checks maxts 1 = Ret ts' ->
    value_case overflow_checks iter s h timestamp write_rank v
      (s <| readval := v' |> <| readlist := ∅ |> <| acklist := ∅ |> <| write_phase := true |>
         <| ts := ts' |> <| wr := self_ident s |> <| val := writeval s |>)
      [Store (ar_sector_idx s) (writeval s, ts', self_ident s);
       Broadcast {| header := reply_header s h op; content := WriteProc ts' (self_ident s) (writeval s) |}].

Inductive ack_case s h : state -> effects -> Prop :=
| ack_ignored op :
    op_id s = Some op -> msg_ident h <> op \/ write_phase s = false -> ack_case s h s []
| ack_collected op al :
    op_id s = Some op -> msg_ident h = op -> write_phase s = true ->
    al = {[ process_identifier h ]} ∪ acklist s -> ~ majority (size al) s \/ idle s ->
    ack_case s h (s <| acklist := al |>) []
| ack_read_done op cb request :
    op_id s = Some op -> msg_ident h = op -> write_phase s = true ->
    majority (size ({[ process_identifier h ]} ∪ acklist s)) s -> reading s = true ->
    callback s = Some cb -> rid s = Some request ->
    ack_case s h
      (s <| acklist := ∅ |> <| write_phase := false |> <| reading := false |> <| callback := None |>)
      [Complete cb {| os_request_identifier := request; op_return := ReadReturn (readval s) |}]
| ack_write_done op cb request :
    op_id s = Some op -> msg_ident h = op -> write_phase s = true ->
    majority (size ({[ process_identifier h ]} ∪ acklist s)) s ->
    reading s = false -> writing s = true -> callback s = Some cb -> rid s = Some request ->
    ack_case s h
      (s <| acklist := ∅ |> <| write_phase := false |> <| writing := false |> <| callback := None |>)
      [Complete cb {| os_request_identifier := request; op_return := WriteReturn |}]
| ack_done_silently op s' :
    op_id s = Some op -> msg_ident h = op -> write_phase s = true -> busy s ->
    callback s = None ->
    s' = (if reading s
          then s <| acklist := ∅ |> <| write_phase := false |> <| reading := false |>
          else s <| acklist := ∅ |> <| write_phase := false |> <| writing := false |>) ->
    ack_case s h s' [].

Lemma gtb_majority n s : (Z.of_nat n >? processes_count s / 2) = true <-> majority n s.
Proof. unfold majority. rewrite Z.gtb_gt. lia. Qed.

(** The condition of both quorum tests. *)
Lemma quorum_test n s :
  (Z.of_nat n >? processes_count s / 2) && (reading s || writing s) = true <-> majority n s /\ busy s.
Proof. by rewrite andb_true_iff, gtb_majority, busy_orb. Qed.

Lemma quorum_test_false n s :
  (Z.of_nat n >? processes_count s / 2) && (reading s || writing s) = false ->
  ~ majority n s \/ idle s.
Proof.
  intros Hf. destruct (busy_or_idle s) as [Hb|?]; [|auto]. left. intros Hm.
  assert (~ false = true) as Hne by done. apply Hne. rewrite <- Hf. by apply quorum_test.
Qed.

Lemma handle_value_cases oc iter h t r v s s' effs :
  handle_value oc iter h t r v s = Ret (s', effs) -> value_case oc iter s h t r v s' effs.
Proof.
  unfold handle_value. destruct (op_id s) as [op|] eqn:Hop; [|done]. simpl.
  destruct (bool_decide (msg_ident h = op) && negb (write_phase s)) eqn:Hc; cycle 1.
  { intros [= <- <-]. apply value_ignored with op; [done|].
    apply andb_false_iff in Hc as [Hc|Hc]; [left|right].
    - by apply bool_decide_eq_false in Hc.
    - by apply negb_false_iff in Hc. }
  apply andb_true_iff in Hc as [Hid%bool_decide_eq_true Hwp%negb_true_iff].
  match goal with |- context [if ?b then _ else _] => destruct b eqn:Hq end; cycle 1.
  { intros [= <- <-]. eapply value_collected; [done..|]. by apply quorum_test_false in Hq. }
  apply quorum_test in Hq as [Hm Hb]. simpl in Hb.
  match goal with |- context [max_by compare_entries ?l] =>
    destruct (max_by compare_entries l) as [[k [[maxts rr] v']]|] eqn:Hmax; [|done] end.
  simpl. destruct (reading s) eqn:Hrd; simpl.
  - intros [= <- <-].
    exact (value_read_decided oc iter s h t r v op k maxts rr v' Hop Hid Hwp Hm Hrd Hmax).
  - destruct (u64_add oc maxts 1) as [ts'|[]|] eqn:Hadd; [|done]. intros [= <- <-].
    destruct Hb as [Hb|Hb]; [congruence|].
    exact (value_write_decided oc iter s h t r v op k maxts rr v' ts' Hop Hid Hwp Hm Hrd Hb Hmax Hadd).
Qed.

Lemma handle_ack_cases h s s' effs :
  handle_ack h s = Ret (s', effs) -> ack_case s h s' effs.
Proof.
  unfold handle_ack. destruct (op_id s) as [op|] eqn:Hop; [|done]. simpl.
  destruct (bool_decide (msg_ident h = op) && write_phase s) eqn:Hc; cycle 1.
  { intros [= <- <-]. apply ack_ignored with op; [done|].
    apply andb_false_iff in Hc as [Hc|Hc]; [left|right]; [|done].
    by apply bool_decide_eq_false in Hc. }
  apply andb_true_iff in Hc as [Hid%bool_decide_eq_true Hwp].
  match goal with |- context [if ?b then _ else _] => destruct b eqn:Hq end; cycle 1.
  { intros [= <- <-]. eapply ack_collected; [done..|]. by apply quorum_test_false in Hq. }
  apply quorum_test in Hq as [Hm Hb]. simpl in Hb.
  destruct (reading s) eqn:Hrd; simpl; destruct (callback s) as [cb|] eqn:Hcb; simpl;
    try (destruct (rid s) as [request|] eqn:Hr; simpl; [|done]); intros [= <- <-].
  - exact (ack_read_done s h op cb request Hop Hid Hwp Hm Hrd Hcb Hr).
  - eapply ack_done_silently; [done..|]. by rewrite Hrd.
  - destruct Hb as [Hb|Hb]; [congruence|].
    exact (ack_write_done s h op cb request Hop Hid Hwp Hm Hrd Hb Hcb Hr).
  - eapply ack_done_silently; [done..|]. by rewrite Hrd.
Qed.

End Branches.
