(* ===== verification/RegisterFacts.v ===== *)
(** * What one register guarantees

    The register as a state machine: events are client commands (which the
    process hands over only while the register is idle) and system commands
    in any order, any number of times.  The theorems hold along every sequence
    of events from a fresh register. *)

From S2P Require Import Prelude Domain AtomicRegister.

Section Facts.
Context {Uuid Callback : Type} `{!EqDecision Uuid}.
Abbreviation state := (AtomicRegisterState Uuid Callback).
Abbreviation effects := (list (effect Uuid Callback)).
Implicit Types (s : state) (h : SystemCommandHeader Uuid).

(** ** Steps *)

(** A [HashMap] yields each of its entries once. *)
Definition iter_ok (iter : gmap Z (stamp * SectorVec) -> list (Z * (stamp * SectorVec))) : Prop :=
  forall m, iter m ≡ₚ map_to_list m.

Inductive event :=
| EvClient (new_v4 : Uuid) (cmd : ClientRegisterCommand) (cb : Callback)
| EvSystem (cmd : SystemRegisterCommand Uuid).

Inductive step (overflow_checks : bool) s : event -> state -> effects -> Prop :=
| step_client new_v4 cmd cb s' effs :
    idle s -> client_command new_v4 cmd cb s = (s', effs) ->
    step overflow_checks s (EvClient new_v4 cmd cb) s' effs
| step_system iter cmd s' effs :
    iter_ok iter -> system_command overflow_checks iter cmd s = Ret (s', effs) ->
    step overflow_checks s (EvSystem cmd) s' effs.

(** A history: the events with their effects, the latest last. *)
Abbreviation history := (list (event * effects)).

Inductive reaches (overflow_checks : bool) s0 : history -> state -> Prop :=
| reaches_start : reaches overflow_checks s0 [] s0
| reaches_step tr s e s' effs :
    reaches overflow_checks s0 tr s -> step overflow_checks s e s' effs ->
    reaches overflow_checks s0 (tr ++ [(e, effs)]) s'.

(** ** The invariant *)

Record register_inv s : Prop := {
  inv_exclusive : reading s = true -> writing s = false;
  inv_phase : write_phase s = true -> busy s;
  inv_callback : busy s <-> is_Some (callback s);
  inv_ids : busy s -> is_Some (rid s) /\ is_Some (op_id s);
  inv_readlist : write_phase s = true -> readlist s = ∅;
  inv_acklist : write_phase s = false -> acklist s = ∅;
  inv_read_quorum : busy s -> ~ majority (size (readlist s)) s;
  inv_ack_quorum : ~ majority (size (acklist s)) s;
}.

Lemma idle_write_phase s : register_inv s -> idle s -> write_phase s = false.
Proof.
  intros Hinv Hidle. destruct (write_phase s) eqn:E; [|done].
  destruct (busy_not_idle s (inv_phase _ Hinv E) Hidle).
Qed.

Lemma majority_0 s : 0 <= processes_count s -> ~ majority 0 s.
Proof. unfold majority. intros. pose proof (Z.div_pos (processes_count s) 2). lia. Qed.

Lemma majority_no_acks s : 0 <= processes_count s -> ~ majority (size (∅ : gset Z)) s.
Proof. rewrite size_empty. apply majority_0. Qed.

Lemma majority_no_values s :
  0 <= processes_count s -> ~ majority (size (∅ : gmap Z (stamp * SectorVec))) s.
Proof. rewrite map_size_empty. apply majority_0. Qed.

Lemma new_inv self idx n t w v :
  0 <= n -> register_inv (new (Uuid:=Uuid) (Callback:=Callback) self idx n t w v).
Proof.
  intros Hn. assert (~ busy (new (Uuid:=Uuid) (Callback:=Callback) self idx n t w v)) as Hb
    by (intros [?|?]; done).
  split; try done.
  - split; [done|]. intros [? ?]. done.
  - by apply majority_no_acks.
Qed.

(** Fields that no handler touches. *)
Definition same_identity s s' : Prop :=
  self_ident s' = self_ident s /\ processes_count s' = processes_count s /\
  ar_sector_idx s' = ar_sector_idx s.

Lemma step_same_identity oc s e s' effs : step oc s e s' effs -> same_identity s s'.
Proof.
  intros Hstep. unfold same_identity.
  destruct Hstep as [id [hd ct] cb s' effs _ Hc|iter [h ct] s' effs _ Hsys].
  - unfold client_command in Hc. simpl in Hc. destruct ct; injection Hc as <- _; done.
  - unfold system_command in Hsys. simpl in Hsys. destruct ct as [|t r v|t r v|].
    + by injection Hsys as <- _.
    + by destruct (handle_value_cases _ _ _ _ _ _ _ _ _ Hsys).
    + unfold handle_write_proc in Hsys. case_decide; by injection Hsys as <- _.
    + destruct (handle_ack_cases _ _ _ _ Hsys); try done. subst. by destruct (reading s).
Qed.

Lemma majority_same n s s' : processes_count s' = processes_count s -> majority n s' <-> majority n s.
Proof. unfold majority. by intros ->. Qed.

Lemma client_command_inv id cmd cb s :
  0 <= processes_count s -> register_inv s -> idle s ->
  register_inv (client_command id cmd cb s).1.
Proof.
  intros Hn Hinv Hidle. pose proof (idle_write_phase s Hinv Hidle) as Hwp.
  destruct Hidle as [Hr Hw], cmd as [hd ct].
  destruct ct as [|data]; unfold client_command; split; simpl; rewrite ?Hwp, ?Hr, ?Hw; try done.
  all: try (intros; by apply majority_no_acks); try (intros; by apply majority_no_values).
  all: unfold busy; simpl; naive_solver.
Qed.

Lemma value_inv oc iter s h t r v s' effs :
  0 <= processes_count s -> register_inv s -> value_case oc iter s h t r v s' effs -> register_inv s'.
Proof.
  intros Hn Hinv Hcase. pose proof Hinv as [He Hp Hcb Hids Hrl Hal Hrq Haq].
  destruct Hcase as [op _ _|op rl _ _ Hwp _ Hq|op k mt rr v' Hop _ Hwp _ Hr _
                    |op k mt rr v' ts' Hop _ Hwp _ Hr Hw _ _]; [done|..].
  - split; simpl; try done; try congruence. intros Hb Hm.
    destruct Hq as [Hq|Hq]; [done|]. by eapply busy_not_idle.
  - assert (busy s) as Hb by by left.
    split; simpl; try done; intros; by (apply majority_no_acks || apply majority_no_values).
  - assert (busy s) as Hb by by right.
    split; simpl; try done; intros; by (apply majority_no_acks || apply majority_no_values).
Qed.

Lemma ack_inv s h s' effs :
  0 <= processes_count s -> register_inv s -> ack_case s h s' effs -> register_inv s'.
Proof.
  intros Hn Hinv Hcase. pose proof Hinv as [He Hp Hcb Hids Hrl Hal Hrq Haq].
  destruct Hcase as [op _ _|op al _ _ Hwp _ Hq|op cb rq Hop _ Hwp _ Hr Hcb' Hrid
    |op cb rq Hop _ Hwp _ Hr Hw Hcb' Hrid|op s' _ _ Hwp Hb Hno]; [done|..].
  - split; simpl; try done; try congruence. intros Hm.
    destruct Hq as [Hq|Hq]; [done|]. by eapply busy_not_idle; eauto.
  - specialize (He Hr).
    assert (~ busy (s <| acklist := ∅ |> <| write_phase := false |> <| reading := false |>
      <| callback := None |>)) as Hnb by (intros [?|?]; simpl in *; congruence).
    split; simpl; done || by apply majority_no_acks.
  - assert (~ busy (s <| acklist := ∅ |> <| write_phase := false |> <| writing := false |>
      <| callback := None |>)) as Hnb by (intros [?|?]; simpl in *; congruence).
    split; simpl; done || by apply majority_no_acks.
  - apply Hcb in Hb as [cb Hcb']. congruence.
Qed.

Lemma step_inv oc s e s' effs :
  0 <= processes_count s -> register_inv s -> step oc s e s' effs -> register_inv s'.
Proof.
  intros Hn Hinv [id cmd cb s1 effs1 Hidle Hc|iter [h ct] s1 effs1 _ Hsys].
  - pose proof (client_command_inv id cmd cb s Hn Hinv Hidle) as H. by rewrite Hc in H.
  - unfold system_command in Hsys. simpl in Hsys. destruct ct as [|t r v|t r v|].
    + by injection Hsys as <- _.
    + eapply value_inv; [done..|]. by eapply handle_value_cases.
    + unfold handle_write_proc in Hsys. destruct Hinv.
      case_decide; injection Hsys as <- _; by split.
    + eapply ack_inv; [done..|]. by eapply handle_ack_cases.
Qed.

Lemma reaches_inv oc s0 tr s :
  0 <= processes_count s0 -> register_inv s0 -> reaches oc s0 tr s ->
  register_inv s /\ processes_count s = processes_count s0 /\ self_ident s = self_ident s0 /\
  ar_sector_idx s = ar_sector_idx s0.
Proof.
  intros Hn Hinv Htr. induction Htr as [|tr s e s' effs Htr IH Hstep]; [done|].
  destruct IH as (Hi & Hc & Hs & Hx). destruct (step_same_identity _ _ _ _ _ Hstep) as (E1 & E2 & E3).
  split_and!; [|congruence..]. eapply step_inv; [|done..]. by rewrite Hc.
Qed.

Lemma fresh_inv oc self idx n t w v tr s :
  0 <= n -> reaches oc (new (Uuid:=Uuid) (Callback:=Callback) self idx n t w v) tr s ->
  register_inv s /\ processes_count s = n /\ self_ident s = self /\ ar_sector_idx s = idx.
Proof. intros Hn Htr. eapply (reaches_inv oc (new self idx n t w v)); [done|by apply new_inv|done]. Qed.

(** C16: From a fresh register on, whatever messages arrive: at most one
    operation is running, it has exactly one waiting callback with its request
    and operation identifiers, the two phases of the algorithm never overlap,
    and no quorum is ever left standing without being acted upon. *)
Theorem register_invariant oc self idx n t w v tr s :
  0 <= n -> reaches oc (new (Uuid:=Uuid) (Callback:=Callback) self idx n t w v) tr s -> register_inv s.
Proof. intros Hn Htr. by eapply fresh_inv. Qed.

(** ** Completion *)

(** What identifies an operation to its client. *)
Definition ticket : Type := Callback * u64 * bool.

Definition is_read (ct : ClientRegisterCommandContent) : bool :=
  match ct with Read => true | Write _ => false end.

Definition issued_by (e : event) : list ticket :=
  match e with
  | EvClient _ cmd cb => [(cb, request_identifier (c_header cmd), is_read (c_content cmd))]
  | EvSystem _ => []
  end.

Definition completed_by (f : effect Uuid Callback) : list ticket :=
  match f with
  | Complete cb r =>
      [(cb, os_request_identifier r, match op_return r with ReadReturn _ => true | WriteReturn => false end)]
  | _ => []
  end.

Definition issued (tr : history) : list ticket := tr ≫= fun x => issued_by x.1.
Definition completed (tr : history) : list ticket := tr ≫= fun x => x.2 ≫= completed_by.

(** The operation in progress, if any. *)
Definition in_progress s : list ticket :=
  match callback s, rid s with
  | Some cb, Some r => [(cb, r, reading s)]
  | _, _ => []
  end.

Lemma idle_in_progress s : register_inv s -> idle s -> in_progress s = [].
Proof.
  intros Hinv Hi. unfold in_progress. destruct (callback s) eqn:E; [|done].
  destruct (busy_not_idle s); [|done]. apply (inv_callback _ Hinv). eauto.
Qed.

Lemma step_tickets oc s e s' effs :
  register_inv s -> step oc s e s' effs ->
  in_progress s ++ issued_by e = (effs ≫= completed_by) ++ in_progress s'.
Proof.
  intros Hinv [id [hd ct] cb s1 effs1 Hidle Hc|iter [h ct] s1 effs1 _ Hsys].
  - rewrite (idle_in_progress s Hinv Hidle). unfold client_command in Hc. simpl in Hc.
    destruct Hidle as [Hr Hw]. destruct ct; injection Hc as <- <-; simpl; [done|].
    unfold in_progress. simpl. by rewrite Hr.
  - rewrite app_nil_r. unfold system_command in Hsys. simpl in Hsys. destruct ct as [|t r v|t r v|].
    + by injection Hsys as <- <-.
    + by destruct (handle_value_cases _ _ _ _ _ _ _ _ _ Hsys).
    + unfold handle_write_proc in Hsys. case_decide; by injection Hsys as <- <-.
    + unfold in_progress.
      destruct (handle_ack_cases _ _ _ _ Hsys) as [| |op cb rq Hop _ Hwp _ Hr Hcb Hrid
        |op cb rq Hop _ Hwp _ Hr Hw Hcb Hrid|op s2 _ _ _ Hb Hno _]; try done.
      * simpl. by rewrite Hcb, Hrid, Hr.
      * simpl. by rewrite Hcb, Hrid, Hr.
      * apply (inv_callback _ Hinv) in Hb as [cb Hcb]. congruence.
Qed.

(** What a step does with the callback: a client command brings it, and the
    step that completes the operation calls it and does nothing else. *)
Definition no_completion (effs : effects) : Prop := forall cb op, Complete cb op ∉ effs.

Lemma client_step_callback oc s id cmd cb s' effs :
  register_inv s -> step oc s (EvClient id cmd cb) s' effs ->
  no_completion effs /\ callback s' = Some cb /\ rid s' = Some (request_identifier (c_header cmd)) /\
  reading s' = is_read (c_content cmd).
Proof.
  intros Hinv Hstep. inversion Hstep as [? ? ? ? ? [Hr _] Hc|]; subst.
  unfold client_command in Hc. destruct cmd as [hd []]; injection Hc as <- <-; (split; [|done]);
    intros ? ? Hin; set_solver.
Qed.

Lemma system_step_callback oc s cmd s' effs :
  register_inv s -> step oc s (EvSystem cmd) s' effs ->
  (no_completion effs /\ callback s' = callback s /\ rid s' = rid s /\ reading s' = reading s) \/
  (exists cb op, effs = [Complete cb op] /\ callback s = Some cb /\ callback s' = None /\
    rid s = Some (os_request_identifier op) /\
    match op_return op with ReadReturn v => reading s = true /\ v = readval s | WriteReturn => reading s = false end).
Proof.
  intros Hinv Hstep. inversion Hstep as [|iter ? ? ? _ Hsys]; subst. destruct cmd as [h ct].
  unfold system_command in Hsys. simpl in Hsys. destruct ct as [|t w v|t w v|].
  - injection Hsys as <- <-. left. split; [|done]. intros ? ? ?. set_solver.
  - left. destruct (handle_value_cases _ _ _ _ _ _ _ _ _ Hsys); (split; [|done]); intros ? ? ?; set_solver.
  - left. unfold handle_write_proc in Hsys. case_decide; injection Hsys as <- <-; (split; [|done]);
      intros ? ? ?; set_solver.
  - destruct (handle_ack_cases _ _ _ _ Hsys) as [| |op cb rq Hop _ Hwp _ Hr Hcb Hrid
      |op cb rq Hop _ Hwp _ Hr Hw Hcb Hrid|op s2 _ _ _ Hb Hno _].
    + left. split; [|done]. intros ? ? ?. set_solver.
    + left. split; [|done]. intros ? ? ?. set_solver.
    + right. by eexists cb, _.
    + right. by eexists cb, _.
    + apply (inv_callback _ Hinv) in Hb as [cb Hcb]. congruence.
Qed.

Lemma issued_snoc tr e effs : issued (tr ++ [(e, effs)]) = issued tr ++ issued_by e.
Proof. unfold issued. rewrite bind_app. simpl. by rewrite app_nil_r. Qed.

Lemma completed_snoc tr e effs :
  completed (tr ++ [(e, effs)]) = completed tr ++ (effs ≫= completed_by).
Proof. unfold completed. rewrite bind_app. simpl. by rewrite app_nil_r. Qed.

(** C17: Every client command is answered at most once, in the order in which
    the commands came, through its own callback, with its own request
    identifier and with the kind of answer it asked for; only the command in
    progress is still to be answered. *)
Theorem completions_match_commands oc self idx n t w v tr s :
  0 <= n -> reaches oc (new (Uuid:=Uuid) (Callback:=Callback) self idx n t w v) tr s ->
  issued tr = completed tr ++ in_progress s.
Proof.
  intros Hn Htr. remember (new self idx n t w v) as s0 eqn:Es0.
  induction Htr as [|tr s e s' effs Htr IH Hstep]; [by subst|]. subst s0.
  destruct (fresh_inv oc self idx n t w v tr s Hn Htr) as [Hinv _].
  rewrite issued_snoc, completed_snoc, IH, <- !app_assoc. f_equal. by eapply step_tickets.
Qed.

(** ** Quorums *)

Definition ack_sender (op : Uuid) (e : event) : gset Z :=
  match e with
  | EvSystem {| header := h; content := Ack |} =>
      if decide (msg_ident h = op) then {[ process_identifier h ]} else ∅
  | _ => ∅
  end.

Definition value_sender (op : Uuid) (e : event) : gset Z :=
  match e with
  | EvSystem {| header := h; content := Value _ _ _ |} =>
      if decide (msg_ident h = op) then {[ process_identifier h ]} else ∅
  | _ => ∅
  end.

(** The processes from which the history has an ACK (a VALUE) for [op]. *)
Definition ack_senders (op : Uuid) (tr : history) : gset Z := ⋃ ((fun x => ack_sender op x.1) <$> tr).
Definition value_senders (op : Uuid) (tr : history) : gset Z := ⋃ ((fun x => value_sender op x.1) <$> tr).

Lemma ack_senders_snoc op tr e effs :
  ack_senders op (tr ++ [(e, effs)]) = ack_senders op tr ∪ ack_sender op e.
Proof.
  unfold ack_senders. rewrite fmap_app. simpl. rewrite union_list_app_L. simpl. set_solver.
Qed.

Lemma value_senders_snoc op tr e effs :
  value_senders op (tr ++ [(e, effs)]) = value_senders op tr ∪ value_sender op e.
Proof.
  unfold value_senders. rewrite fmap_app. simpl. rewrite union_list_app_L. simpl. set_solver.
Qed.

(** What the register has counted is in the history. *)
Record counted (tr : history) s : Prop := {
  counted_acks op : op_id s = Some op -> acklist s ⊆ ack_senders op tr;
  counted_values op : op_id s = Some op -> dom (readlist s) ⊆ value_senders op tr;
  counted_phase op : op_id s = Some op -> write_phase s = true -> majority (size (value_senders op tr)) s;
}.

Lemma majority_mono (X Y : gset Z) s : X ⊆ Y -> majority (size X) s -> majority (size Y) s.
Proof. unfold majority. intros Hsub. pose proof (subseteq_size X Y Hsub). lia. Qed.

Lemma counted_weaken tr e effs s : counted tr s -> counted (tr ++ [(e, effs)]) s.
Proof.
  intros [Ha Hv Hp]. split; intros op Hop.
  - rewrite ack_senders_snoc. specialize (Ha op Hop). set_solver.
  - rewrite value_senders_snoc. specialize (Hv op Hop). set_solver.
  - intros Hwp. eapply majority_mono; [|by apply Hp]. rewrite value_senders_snoc. set_solver.
Qed.

(** The readlist with the new reply is covered by the history with it. *)
Lemma counted_value tr s h op t r v effs :
  counted tr s -> op_id s = Some op -> msg_ident h = op ->
  dom (<[process_identifier h := ((t, r), v)]> (readlist s)) ⊆
  value_senders op (tr ++ [(EvSystem {| header := h; content := Value t r v |}, effs)]).
Proof.
  intros [_ Hv _] Hop Hid. rewrite value_senders_snoc, dom_insert_L. simpl.
  rewrite decide_True by done. specialize (Hv op Hop). set_solver.
Qed.

Lemma counted_ack tr s h op effs :
  counted tr s -> op_id s = Some op -> msg_ident h = op ->
  {[ process_identifier h ]} ∪ acklist s ⊆
  ack_senders op (tr ++ [(EvSystem {| header := h; content := Ack |}, effs)]).
Proof.
  intros [Ha _ _] Hop Hid. rewrite ack_senders_snoc. simpl.
  rewrite decide_True by done. specialize (Ha op Hop). set_solver.
Qed.

Lemma step_counted oc tr s e s' effs :
  register_inv s -> counted tr s -> step oc s e s' effs -> counted (tr ++ [(e, effs)]) s'.
Proof.
  intros Hinv Hc [id [hd ct] cb s1 effs1 Hidle Hcl|iter [h ct] s1 effs1 _ Hsys].
  - pose proof (idle_write_phase s Hinv Hidle) as Hwp.
    unfold client_command in Hcl. simpl in Hcl.
    destruct ct; injection Hcl as <- <-; split; simpl; intros; rewrite ?dom_empty_L; try set_solver;
      congruence.
  - unfold system_command in Hsys. simpl in Hsys. destruct ct as [|t r v|t r v|].
    + injection Hsys as <- <-. by apply counted_weaken.
    + destruct (handle_value_cases _ _ _ _ _ _ _ _ _ Hsys)
        as [|op rl Hop Hid Hwp -> _|op k mt rr v' Hop Hid Hwp Hm Hr _
            |op k mt rr v' ts' Hop Hid Hwp Hm Hr Hw _ _]; [by apply counted_weaken|..].
      all: pose proof (fun effs => counted_value tr s h op t r v effs Hc Hop Hid) as Hdom.
      * apply (counted_weaken _ (EvSystem {| header := h; content := Value t r v |}) []) in Hc as [Ha Hv Hp].
        split; simpl; [done| |done]. intros op' Hop'. assert (op' = op) as -> by congruence. apply Hdom.
      * split; simpl; intros op' Hop'; assert (op' = op) as -> by congruence;
          [set_solver|rewrite dom_empty_L; set_solver|]. intros _.
        eapply majority_mono; [apply Hdom|]. by rewrite size_dom.
      * split; simpl; intros op' Hop'; assert (op' = op) as -> by congruence;
          [set_solver|rewrite dom_empty_L; set_solver|]. intros _.
        eapply majority_mono; [apply Hdom|]. by rewrite size_dom.
    + apply (counted_weaken _ (EvSystem {| header := h; content := WriteProc t r v |}) effs1) in Hc
        as [Ha Hv Hp].
      unfold handle_write_proc in Hsys. case_decide; injection Hsys as <- <-; by split.
    + destruct (handle_ack_cases _ _ _ _ Hsys)
        as [|op al Hop Hid Hwp -> _|op cb rq _ _ _ _ _ _ _|op cb rq _ _ _ _ _ _ _ _
            |op s2 _ _ _ Hb Hno _]; [by apply counted_weaken|..].
      * pose proof (counted_ack tr s h op [] Hc Hop Hid) as Hal.
        apply (counted_weaken _ (EvSystem {| header := h; content := Ack |}) []) in Hc as [_ Hv Hp].
        split; simpl; [|done|done]. intros op' Hop'. by assert (op' = op) as -> by congruence.
      * match goal with |- counted (_ ++ [(?e, ?l)]) _ =>
          apply (counted_weaken _ e l) in Hc as [_ Hv _] end. by split.
      * match goal with |- counted (_ ++ [(?e, ?l)]) _ =>
          apply (counted_weaken _ e l) in Hc as [_ Hv _] end. by split.
      * apply (inv_callback _ Hinv) in Hb as [cb Hcb]. congruence.
Qed.

Lemma reaches_counted oc s0 tr s :
  0 <= processes_count s0 -> register_inv s0 -> counted [] s0 -> reaches oc s0 tr s -> counted tr s.
Proof.
  intros Hn Hinv Hc Htr. induction Htr as [|tr s e s' effs Htr IH Hstep]; [done|].
  eapply step_counted; [|exact IH|exact Hstep]. by eapply reaches_inv.
Qed.

Lemma complete_by_ack oc s e s' effs cb r :
  step oc s e s' effs -> Complete cb r ∈ effs ->
  exists h op, e = EvSystem {| header := h; content := Ack |} /\ op_id s = Some op /\ op_id s' = Some op /\
    msg_ident h = op /\ write_phase s = true /\ majority (size ({[ process_identifier h ]} ∪ acklist s)) s.
Proof.
  intros [id [hd ct] cb' s1 effs1 _ Hc|iter [h ct] s1 effs1 _ Hsys] Hin.
  - unfold client_command in Hc. destruct ct; injection Hc as <- <-; set_solver.
  - unfold system_command in Hsys. simpl in Hsys. destruct ct as [|t w v|t w v|].
    + injection Hsys as <- <-. set_solver.
    + destruct (handle_value_cases _ _ _ _ _ _ _ _ _ Hsys); set_solver.
    + unfold handle_write_proc in Hsys. case_decide; injection Hsys as <- <-; set_solver.
    + destruct (handle_ack_cases _ _ _ _ Hsys); try set_solver; by exists h, op.
Qed.

(** C8: An operation is answered only after a majority of the processes have
    each reported their value and a majority have each acknowledged the chosen
    one, all in messages that carry the identifier of that very operation. *)
Theorem completion_needs_majorities oc self idx n t w v tr s e effs s' cb r :
  0 <= n -> reaches oc (new (Uuid:=Uuid) (Callback:=Callback) self idx n t w v) tr s ->
  step oc s e s' effs -> Complete cb r ∈ effs ->
  exists op, op_id s = Some op /\
    n / 2 < Z.of_nat (size (value_senders op tr)) /\
    n / 2 < Z.of_nat (size (ack_senders op (tr ++ [(e, effs)]))).
Proof.
  intros Hn Htr Hstep Hin. set (s0 := new self idx n t w v) in *.
  destruct (fresh_inv oc self idx n t w v tr s Hn Htr) as (Hinv & Hcount & _).
  assert (register_inv s0) as Hinv0 by by apply new_inv.
  assert (counted tr s) as Hc by (eapply (reaches_counted oc s0); done).
  destruct (complete_by_ack _ _ _ _ _ _ _ Hstep Hin) as (h & op & -> & Hop & _ & Hid & Hwp & Hm).
  assert (forall k, majority k s -> n / 2 < Z.of_nat k) as Hmaj
    by (intros k; unfold majority; by rewrite Hcount).
  exists op. split_and!; [done|by apply Hmaj, (counted_phase _ _ Hc)|].
  apply Hmaj. eapply majority_mono; [|exact Hm]. by apply counted_ack.
Qed.

(** ** Panics *)

(** The reply completes the quorum of the operation in progress. *)
Definition decides s h (timestamp : u64) (write_rank : u8) (v : SectorVec) : Prop :=
  op_id s = Some (msg_ident h) /\ write_phase s = false /\ busy s /\
  majority (size (<[process_identifier h := ((timestamp, write_rank), v)]> (readlist s))) s.

Lemma iter_max_by iter (m : gmap Z (stamp * SectorVec)) :
  iter_ok iter -> m <> ∅ -> exists k e, max_by compare_entries (iter m) = Some (k, e) /\ m !! k = Some e.
Proof.
  intros Hiter Hm. destruct (max_by_total compare_entries (iter m)) as [[k e] Hmax].
  - intros E. specialize (Hiter m). rewrite E in Hiter. symmetry in Hiter.
    by apply Permutation_nil_r, map_to_list_empty_iff in Hiter.
  - exists k, e. split; [done|]. apply max_by_elem in Hmax. rewrite (Hiter m) in Hmax.
    by apply elem_of_map_to_list in Hmax.
Qed.

Lemma full_readlist_nonempty s h t r v : full_readlist s h t r v <> ∅.
Proof. unfold full_readlist. apply insert_non_empty. Qed.

Lemma value_panics oc iter s h t r v :
  iter_ok iter ->
  (exists w, handle_value oc iter h t r v s = Panic w) <->
  op_id s = None \/
  (oc = true /\ reading s = false /\ decides s h t r v /\ exists k maxts rr v',
    max_by compare_entries (iter (full_readlist s h t r v)) = Some (k, ((maxts, rr), v')) /\
    U64_MAX < maxts + 1).
Proof.
  intros Hiter. unfold handle_value, decides. destruct (op_id s) as [op|] eqn:Hop; simpl; [|naive_solver].
  destruct (bool_decide (msg_ident h = op) && negb (write_phase s)) eqn:Hc; cycle 1.
  { split; [by intros [w [=]]|]. intros [[=]|(_ & _ & ([= ->] & Hwp & _) & _)].
    by rewrite bool_decide_true, Hwp in Hc. }
  apply andb_true_iff in Hc as [<-%bool_decide_eq_true Hwp%negb_true_iff].
  match goal with |- context [if ?b then _ else _] => destruct b eqn:Hq end; cycle 1.
  { split; [by intros [w [=]]|]. intros [[=]|(_ & _ & (_ & _ & Hb & Hm) & _)].
    rewrite (proj2 (quorum_test _ _)) in Hq; done. }
  apply quorum_test in Hq as [Hm Hb]. simpl in Hb.
  destruct (iter_max_by iter (full_readlist s h t r v) Hiter (full_readlist_nonempty _ _ _ _ _))
    as (k & [[maxts rr] v'] & Hmax & _).
  unfold full_readlist in *. rewrite Hmax. simpl.
  destruct (reading s) eqn:Hr; simpl; [naive_solver|].
  unfold u64_add. case_decide; simpl; [|destruct oc; simpl].
  - split; [by intros [w [=]]|]. intros [[=]|(_ & _ & _ & ? & ? & ? & ? & [= <- <- <- <-] & ?)]. lia.
  - split; [|eauto]. intros _. right. split_and!; try done. exists k, maxts, rr, v'. split; [done|lia].
  - naive_solver.
Qed.

Lemma ack_panics s h :
  register_inv s -> (exists w, handle_ack (Callback:=Callback) h s = Panic w) <-> op_id s = None.
Proof.
  intros Hinv. unfold handle_ack. destruct (op_id s) as [op|] eqn:Hop; simpl; [|naive_solver].
  split; [|done]. intros [w Hw]. exfalso. revert Hw.
  destruct (bool_decide (msg_ident h = op) && write_phase s); [|done].
  match goal with |- context [if ?b then _ else _] => destruct b eqn:Hq end; [|done].
  apply quorum_test in Hq as [_ Hb]. simpl in Hb.
  destruct (inv_ids _ Hinv) as [[q Hrid] _]; [exact Hb|].
  destruct (reading s); simpl; destruct (callback s); simpl; by rewrite ?Hrid.
Qed.

(** C33: A system command makes a reachable register panic in exactly two
    situations: a VALUE or an ACK arrives before the first client command since
    the start of the process, or, with overflow checks, the timestamp chosen for
    a write does not fit 64 bits. *)
Theorem system_command_panics_exactly oc iter self idx n t w v tr s cmd :
  0 <= n -> reaches oc (new (Uuid:=Uuid) (Callback:=Callback) self idx n t w v) tr s -> iter_ok iter ->
  (exists why, system_command oc iter cmd s = Panic why) <->
  (op_id s = None /\ (content cmd = Ack \/ exists t' r' v', content cmd = Value t' r' v')) \/
  (oc = true /\ reading s = false /\ exists t' r' v', content cmd = Value t' r' v' /\
    decides s (header cmd) t' r' v' /\ exists k maxts rr v'',
    max_by compare_entries (iter (full_readlist s (header cmd) t' r' v')) = Some (k, ((maxts, rr), v'')) /\
    U64_MAX < maxts + 1).
Proof.
  intros Hn Htr Hiter.
  destruct (fresh_inv oc self idx n t w v tr s Hn Htr) as [Hinv _].
  destruct cmd as [h [|t' r' v'|t' r' v'|]]; unfold system_command; simpl.
  - naive_solver.
  - rewrite (value_panics oc iter s h t' r' v' Hiter). naive_solver.
  - naive_solver.
  - rewrite (ack_panics s h Hinv). naive_solver.
Qed.

(** ** Stable storage *)

Abbreviation stored_sector := (SectorVec * u64 * u8)%type.

(** The triple that the register holds in memory. *)
Definition in_memory s : stored_sector := (val s, ts s, wr s).

Definition stamp_of (d : stored_sector) : stamp := (d.1.2, d.2).

(** What storage holds for the sector [idx] after the calls [effs]. *)
Definition stored (idx : SectorIdx) (d : stored_sector) (effs : effects) : stored_sector :=
  fold_left (fun d f => match f with
                        | Store i sector => if decide (i = idx) then sector else d
                        | _ => d
                        end) effs d.

Arguments stored : simpl never.

Lemma stored_app idx d effs1 effs2 : stored idx d (effs1 ++ effs2) = stored idx (stored idx d effs1) effs2.
Proof. unfold stored. apply fold_left_app. Qed.

Lemma stored_store idx d sector effs :
  stored idx d (Store idx sector :: effs) = stored idx sector effs.
Proof. unfold stored. simpl. by rewrite decide_True. Qed.

Lemma step_stored oc s e s' effs :
  step oc s e s' effs -> stored (ar_sector_idx s) (in_memory s) effs = in_memory s'.
Proof.
  intros [id [hd ct] cb s1 effs1 _ Hc|iter [h ct] s1 effs1 _ Hsys].
  - unfold client_command in Hc. destruct ct; by injection Hc as <- <-.
  - unfold system_command in Hsys. simpl in Hsys. destruct ct as [|t w v|t w v|].
    + by injection Hsys as <- <-.
    + destruct (handle_value_cases _ _ _ _ _ _ _ _ _ Hsys); try done. by rewrite stored_store.
    + unfold handle_write_proc in Hsys. case_decide; injection Hsys as <- <-; [|done].
      simpl app. by rewrite stored_store.
    + destruct (handle_ack_cases _ _ _ _ Hsys); try done. subst. by destruct (reading s).
Qed.

(** Between two handlers, storage holds exactly the timestamp, rank and
    value that the register holds in memory, so a restart at that point resumes
    with them. *)
Theorem storage_mirrors_memory oc self idx n t w v tr s :
  0 <= n -> reaches oc (new (Uuid:=Uuid) (Callback:=Callback) self idx n t w v) tr s ->
  stored idx (v, t, w) (tr ≫= snd) = in_memory s.
Proof.
  intros Hn Htr. remember (new self idx n t w v) as s0 eqn:Es0.
  induction Htr as [|tr s e s' effs Htr IH Hstep]; [by subst|]. subst s0.
  destruct (fresh_inv oc self idx n t w v tr s Hn Htr) as (_ & _ & _ & Hidx).
  rewrite bind_app, stored_app, IH by done. simpl. rewrite app_nil_r, <- Hidx. by eapply step_stored.
Qed.



(** ** Machine widths *)

Definition entry_fits (en : stamp * SectorVec) : Prop :=
  in_u64 en.1.1 /\ in_u8 en.1.2 /\ sector_ok en.2.

(** The fields of the register are within the widths of their Rust types, and
    its values are sectors. *)
Record state_fits s : Prop := {
  fits_self : in_u8 (self_ident s);
  fits_idx : in_u64 (ar_sector_idx s);
  fits_memory : entry_fits ((ts s, wr s), val s);
  fits_readlist : map_Forall (fun _ en => entry_fits en) (readlist s);
  fits_writeval : sector_ok (writeval s);
  fits_readval : sector_ok (readval s);
}.

Definition event_fits (e : event) : Prop :=
  match e with EvClient _ cmd _ => client_ok cmd | EvSystem cmd => system_ok cmd end.

Definition effect_fits (f : effect Uuid Callback) : Prop :=
  match f with
  | Broadcast cmd => system_ok cmd
  | Send cmd target => system_ok cmd /\ in_u8 target
  | Store idx sector => in_u64 idx /\ entry_fits (stamp_of sector, sector.1.1)
  | Complete _ r => match op_return r with ReadReturn v => sector_ok v | WriteReturn => True end
  end.

Lemma u64_add_fits oc a x : in_u64 a -> u64_add (E:=Empty_set) oc a 1 = Ret x -> in_u64 x.
Proof.
  unfold u64_add, in_u64, U64_MAX. intros Ha. case_decide; [intros [= <-]; lia|].
  destruct oc; [done|]. intros [= <-]. pose proof (Z.mod_pos_bound (a + 1) (2 ^ 64)). lia.
Qed.

Lemma picked_entry iter m k en :
  iter_ok iter -> max_by compare_entries (iter m) = Some (k, en) -> m !! k = Some en.
Proof. intros Hiter Hmax%max_by_elem. rewrite (Hiter m) in Hmax. by apply elem_of_map_to_list. Qed.

Lemma full_readlist_fits s h t r v :
  state_fits s -> entry_fits ((t, r), v) -> map_Forall (fun _ en => entry_fits en) (full_readlist s h t r v).
Proof. intros [_ _ Hm Hrl _ _] Hen. unfold full_readlist. by repeat apply map_Forall_insert_2. Qed.

(** Proves that the effects of a handler fit. *)
Ltac effects_fit :=
  repeat match goal with
         | |- Forall _ (_ :: _) => apply List.Forall_cons
         | |- Forall _ [] => apply List.Forall_nil
         end;
  unfold effect_fits, system_ok, system_content_ok, entry_fits in *; simpl in *;
  repeat match goal with |- _ /\ _ => split end; tauto.

Lemma value_fits oc iter s h t r v s' effs :
  iter_ok iter -> state_fits s -> in_u8 (process_identifier h) -> in_u64 (sector_idx h) ->
  entry_fits ((t, r), v) -> value_case oc iter s h t r v s' effs ->
  state_fits s' /\ Forall effect_fits effs.
Proof.
  intros Hiter Hs Hp Hsi Hen Hcase. pose proof (full_readlist_fits s h t r v Hs Hen) as Hfull.
  destruct Hs as [H1 H2 H3 H4 H5 H6].
  destruct Hcase as [op _ _|op rl _ _ _ -> _|op k mt rr v' _ _ _ _ _ Hmax
                    |op k mt rr v' ts' _ _ _ _ _ _ Hmax Hadd]; [done| |..].
  - split; [|done]. split; simpl; try done. by apply map_Forall_insert_2.
  - apply picked_entry in Hmax; [|done]. pose proof (Hfull _ _ Hmax) as (F1 & F2 & F3). simpl in *.
    split; [|effects_fit]. by split.
  - apply picked_entry in Hmax; [|done]. pose proof (Hfull _ _ Hmax) as (F1 & F2 & F3). simpl in *.
    apply u64_add_fits in Hadd; [|done].
    split; [|effects_fit]. by split.
Qed.

Lemma step_fits oc s e s' effs :
  state_fits s -> event_fits e -> step oc s e s' effs -> state_fits s' /\ Forall effect_fits effs.
Proof.
  intros Hs He Hstep. destruct Hstep as [id [hd ct] cb s1 effs1 _ Hc|iter [h ct] s1 effs1 Hiter Hsys].
  - destruct He as (_ & Hi & Hct), Hs. unfold client_command in Hc. simpl in *.
    destruct ct; injection Hc as <- <-; (split; [by split|effects_fit]).
  - destruct He as (Hp & Hi & Hct). unfold system_command in Hsys. simpl in *.
    destruct ct as [|t r v|t r v|].
    + injection Hsys as <- <-. split; [done|]. destruct Hs. effects_fit.
    + apply handle_value_cases in Hsys. eapply (value_fits oc iter); [done..| |exact Hsys]. done.
    + destruct Hs. unfold handle_write_proc in Hsys.
      case_decide; injection Hsys as <- <-; (split; [by split|effects_fit]).
    + destruct Hs. destruct (handle_ack_cases _ _ _ _ Hsys); 
        (split; [|effects_fit]); try by split.
      subst. destruct (reading s); by split.
Qed.

(** C32: A register whose fields are within the widths of their types keeps
    them so, and what it sends, stores and answers fits the wire format and the
    storage, as long as what it receives does. *)
Theorem register_output_fits oc self idx n t w v tr s :
  in_u8 self -> in_u64 idx -> entry_fits ((t, w), v) ->
  reaches oc (new (Uuid:=Uuid) (Callback:=Callback) self idx n t w v) tr s ->
  Forall (fun x => event_fits x.1) tr ->
  state_fits s /\ Forall (fun x => Forall effect_fits x.2) tr.
Proof.
  intros Hself Hidx Hv Htr. remember (new self idx n t w v) as s0 eqn:Es0.
  induction Htr as [|tr s e s' effs Htr IH Hstep].
  - intros _. subst. split; [|constructor]. pose proof zero_sector_ok. by split.
  - intros [Hev [He _]%Forall_cons_1]%Forall_app. destruct (IH Hev) as [Hs Heffs].
    destruct (step_fits _ _ _ _ _ Hs He Hstep) as [Hs' Heffs']. split; [done|].
    apply Forall_app. by repeat constructor.
Qed.

(** ** Executable runs

    The steps of a list of events, iterating over maps in key order. *)

Definition exec (oc : bool) (e : event) s : option (state * effects) :=
  match e with
  | EvClient id cmd cb =>
      if reading s || writing s then None else Some (client_command id cmd cb s)
  | EvSystem cmd =>
      match system_command oc map_to_list cmd s with Ret r => Some r | _ => None end
  end.

Fixpoint run (oc : bool) (es : list event) s : option (history * state) :=
  match es with
  | [] => Some ([], s)
  | e :: es =>
      '(s', effs) ← exec oc e s;
      '(tr, s'') ← run oc es s';
      Some ((e, effs) :: tr, s'')
  end.

Lemma exec_step oc e s s' effs : exec oc e s = Some (s', effs) -> step oc s e s' effs.
Proof.
  destruct e as [id cmd cb|cmd]; simpl.
  - destruct (reading s) eqn:Hr, (writing s) eqn:Hw; simpl; try done.
    intros H. apply step_client; [done|by injection H as <- <-].
  - destruct (system_command _ _ _ _) as [[]| |] eqn:E; [|done..]. intros [= -> ->].
    apply (step_system _ _ map_to_list); [|done]. by intros m.
Qed.

Lemma reaches_app oc s0 tr1 s1 tr2 s2 :
  reaches oc s0 tr1 s1 -> reaches oc s1 tr2 s2 -> reaches oc s0 (tr1 ++ tr2) s2.
Proof.
  intros H1. induction 1 as [|tr s e s' effs _ IH Hstep]; [by rewrite app_nil_r|].
  rewrite app_assoc. by econstructor.
Qed.

Lemma run_reaches oc es s tr s' : run oc es s = Some (tr, s') -> reaches oc s tr s'.
Proof.
  revert s tr. induction es as [|e es IH]; intros s tr; simpl; [intros [= <- <-]; constructor|].
  destruct (exec oc e s) as [[s1 effs]|] eqn:E1; [|done]. simpl.
  destruct (run oc es s1) as [[tr' s2]|] eqn:E2; [|done]. simpl. intros [= <- <-].
  apply (reaches_app _ _ [(e, effs)] s1); [|by apply IH].
  apply (reaches_step _ _ [] s); [constructor|by apply exec_step].
Qed.

End Facts.

(** ** The theorems on a concrete run

    Process 1 of 3 reads its sector: it collects two values, imposes the one of
    process 2 and is acknowledged twice. *)

Module RegisterFactsExamples.

Abbreviation event := (@event Z unit).

Definition from (q : Z) (ct : SystemRegisterCommandContent) : event :=
  EvSystem {| header := {| process_identifier := q; msg_ident := 7; sector_idx := 0 |}; content := ct |}.

Definition read_begins : list event :=
  [EvClient 7 {| c_header := {| request_identifier := 11; c_sector_idx := 0 |}; c_content := Read |} tt;
   from 1 ReadProc; from 1 (Value 0 0 []); from 2 (Value 3 2 [9]);
   from 1 (WriteProc 3 2 [9]); from 1 Ack].

Definition register_1 : AtomicRegisterState Z unit := new 1 0 3 0 0 [].

Lemma read_runs : exists tr s, run true read_begins register_1 = Some (tr, s) /\
  exists s' r, step true s (from 2 Ack) s' [Complete tt r] /\ in_memory s = ([9], 3, 2).
Proof.
  destruct (run true read_begins register_1) as [[tr s]|] eqn:E; vm_compute in E; [|done].
  injection E as <- <-. eexists _, _. split; [reflexivity|].
  eexists _, _. split; [apply exec_step; vm_compute; reflexivity|]. reflexivity.
Qed.

Lemma register_invariant_witness :
  exists tr s, reaches true register_1 tr s /\ register_inv s.
Proof.
  destruct read_runs as (tr & s & Hrun%run_reaches & _). exists tr, s. split; [exact Hrun|].
  apply (register_invariant true 1 0 3 0 0 [] tr s); [lia|exact Hrun].
Defined.

Lemma completions_match_commands_witness :
  exists tr s, reaches true register_1 tr s /\ issued tr = completed tr ++ in_progress s.
Proof.
  destruct read_runs as (tr & s & Hrun%run_reaches & _). exists tr, s. split; [exact Hrun|].
  apply (completions_match_commands true 1 0 3 0 0 [] tr s); [lia|exact Hrun].
Defined.

Lemma completion_needs_majorities_witness :
  exists tr s e effs op, reaches true register_1 tr s /\ op_id s = Some op /\
    3 / 2 < Z.of_nat (size (value_senders op tr)) /\
    3 / 2 < Z.of_nat (size (ack_senders op (tr ++ [(e, effs)]))).
Proof.
  destruct read_runs as (tr & s & Hrun%run_reaches & s' & r & Hstep & _).
  exists tr, s, (from 2 Ack), [Complete tt r].
  destruct (completion_needs_majorities true 1 0 3 0 0 [] tr s _ _ _ tt r ltac:(lia) Hrun Hstep)
    as [op H]; [apply list_elem_of_singleton; reflexivity|].
  exists op. split; [exact Hrun|exact H].
Defined.

Lemma register_output_fits_witness :
  exists tr s, reaches true (new 1 0 3 0 0 zero_sector) tr s /\ length tr = 2%nat /\
    state_fits (Uuid:=Z) (Callback:=unit) s /\ Forall (fun x => Forall effect_fits x.2) tr.
Proof.
  destruct (run true [from 2 (WriteProc 3 2 zero_sector); from 2 ReadProc] (new 1 0 3 0 0 zero_sector))
    as [[tr s]|] eqn:E; [|discriminate E].
  exists tr, s. pose proof (run_reaches _ _ _ _ _ E) as Hrun. split; [exact Hrun|].
  injection E as <- <-. split; [reflexivity|].
  apply (register_output_fits true 1 0 3 0 0 zero_sector _ _); [by_evaluation|by_evaluation| |exact Hrun|].
  - split_and!; [by_evaluation|by_evaluation|apply zero_sector_ok].
  - constructor; [|constructor; [|constructor]]; (split; [by_evaluation|split; [by_evaluation|]]); [|exact I].
    split; [by_evaluation|split; [by_evaluation|apply zero_sector_ok]].
Defined.

Lemma system_command_panics_exactly_witness :
  exists why, system_command (Callback:=unit) true map_to_list
    {| header := {| process_identifier := 2; msg_ident := 7; sector_idx := 0 |}; content := Ack |}
    register_1 = Panic why.
Proof.
  apply (system_command_panics_exactly true map_to_list 1 0 3 0 0 [] [] register_1);
    [lia|constructor|intros m; reflexivity|].
  left. split; [reflexivity|left; reflexivity].
Defined.

Lemma storage_mirrors_memory_witness :
  exists tr s, reaches true register_1 tr s /\ stored 0 ([], 0, 0) (tr ≫= snd) = in_memory s /\
    in_memory s = ([9], 3, 2).
Proof.
  destruct read_runs as (tr & s & Hrun%run_reaches & s' & r & _ & Hm). exists tr, s. split; [exact Hrun|].
  split; [|exact Hm].
  apply (storage_mirrors_memory true 1 0 3 0 0 [] tr s); [lia|exact Hrun].
Defined.


End RegisterFactsExamples.
