(* ===== verification/Algorithm.v ===== *)
(** * The (N,N)-AtomicRegister algorithm and its implementation

    The abstract algorithm of [(N,N)-AtomicRegister.txt]: a process is idle,
    collects values for an operation, or imposes a value and collects
    acknowledgements.  The flags, lists and options of [AtomicRegisterState]
    encode these three phases, and every handler is a step of the algorithm as
    long as the value it picks from the collected ones is the [highest].  The
    comparison in the code looks at the write rank only, so this condition is
    not automatic: the second half gives runs in which it fails. *)

From S2P Require Import Prelude Domain AtomicRegister RegisterFacts.

(** ** The algorithm *)

Module Nnar.
Section Spec.
Context {Uuid : Type}.

Abbreviation entry := (stamp * SectorVec)%type.

(** The operation that a process runs for a client. *)
Inductive operation := ORead | OWrite (v : SectorVec).

Inductive phase :=
| Idle
| Query (op : Uuid) (o : operation) (readlist : gmap Z entry)
| Impose (op : Uuid) (answer : OperationReturn) (acklist : gset Z).

(** What survives a crash, and the phase. *)
Record process := { stable : entry; current : phase }.

Inductive input :=
| Invoke (op : Uuid) (o : operation)
| Deliver (from : Z) (id : Uuid) (m : SystemRegisterCommandContent).

Inductive output :=
| OBroadcast (id : Uuid) (m : SystemRegisterCommandContent)
| OSend (to : Z) (id : Uuid) (m : SystemRegisterCommandContent)
| OStore (e : entry)
| OReturn (answer : OperationReturn).

(** [highest(readlist)]: the largest entry by timestamp, then rank. *)
Definition highest (rl : gmap Z entry) (e : entry) : Prop :=
  (exists q, rl !! q = Some e) /\ forall q e', rl !! q = Some e' -> stamp_le e'.1 e.1.

Definition quorum (n : Z) (k : nat) : Prop := n / 2 < Z.of_nat k.

Definition querying (id : Uuid) (p : phase) : Prop := exists o rl, p = Query id o rl.
Definition imposing (id : Uuid) (p : phase) : Prop := exists a al, p = Impose id a al.

Definition full (self q : Z) (mine e : entry) (rl : gmap Z entry) : gmap Z entry :=
  <[self := mine]> (<[q := e]> rl).

(** One event of process [self] of [n]. *)
Inductive step (self n : Z) : process -> input -> process -> list output -> Prop :=
| nnar_invoke d op o :
    step self n {| stable := d; current := Idle |} (Invoke op o)
      {| stable := d; current := Query op o ∅ |} [OBroadcast op ReadProc]
| nnar_read_proc d ph p id :
    step self n {| stable := d; current := ph |} (Deliver p id ReadProc)
      {| stable := d; current := ph |} [OSend p id (Value d.1.1 d.1.2 d.2)]
| nnar_value_ignored d ph q id t r v :
    ~ querying id ph ->
    step self n {| stable := d; current := ph |} (Deliver q id (Value t r v))
      {| stable := d; current := ph |} []
| nnar_value d op o rl q t r v :
    ~ quorum n (size (<[q := ((t, r), v)]> rl)) ->
    step self n {| stable := d; current := Query op o rl |} (Deliver q op (Value t r v))
      {| stable := d; current := Query op o (<[q := ((t, r), v)]> rl) |} []
| nnar_value_read d op rl q t r v maxts rr readval :
    quorum n (size (<[q := ((t, r), v)]> rl)) ->
    highest (full self q d ((t, r), v) rl) ((maxts, rr), readval) ->
    step self n {| stable := d; current := Query op ORead rl |} (Deliver q op (Value t r v))
      {| stable := d; current := Impose op (ReadReturn readval) ∅ |}
      [OBroadcast op (WriteProc maxts rr readval)]
| nnar_value_write d op writeval rl q t r v maxts rr readval :
    quorum n (size (<[q := ((t, r), v)]> rl)) ->
    highest (full self q d ((t, r), v) rl) ((maxts, rr), readval) ->
    step self n {| stable := d; current := Query op (OWrite writeval) rl |} (Deliver q op (Value t r v))
      {| stable := ((maxts + 1, self), writeval); current := Impose op WriteReturn ∅ |}
      [OStore ((maxts + 1, self), writeval); OBroadcast op (WriteProc (maxts + 1) self writeval)]
| nnar_write_proc_newer d ph p id t r v :
    stamp_lt d.1 (t, r) ->
    step self n {| stable := d; current := ph |} (Deliver p id (WriteProc t r v))
      {| stable := ((t, r), v); current := ph |} [OStore ((t, r), v); OSend p id Ack]
| nnar_write_proc_older d ph p id t r v :
    ~ stamp_lt d.1 (t, r) ->
    step self n {| stable := d; current := ph |} (Deliver p id (WriteProc t r v))
      {| stable := d; current := ph |} [OSend p id Ack]
| nnar_ack_ignored d ph q id :
    ~ imposing id ph ->
    step self n {| stable := d; current := ph |} (Deliver q id Ack)
      {| stable := d; current := ph |} []
| nnar_ack d op a al q :
    ~ quorum n (size ({[ q ]} ∪ al)) ->
    step self n {| stable := d; current := Impose op a al |} (Deliver q op Ack)
      {| stable := d; current := Impose op a ({[ q ]} ∪ al) |} []
| nnar_return d op a al q :
    quorum n (size ({[ q ]} ∪ al)) ->
    step self n {| stable := d; current := Impose op a al |} (Deliver q op Ack)
      {| stable := d; current := Idle |} [OReturn a].

Lemma highest_exists (rl : gmap Z entry) : rl <> ∅ -> exists e, highest rl e.
Proof.
  induction rl as [|q e rl Hq IH] using map_ind; [done|]. intros _.
  destruct (decide (rl = ∅)) as [->|Hne].
  - exists e. split; [exists q; by simplify_map_eq|].
    intros q' e' H%lookup_insert_Some. destruct H as [[_ ->]|[_ H]]; [done|]. by simplify_map_eq.
  - destruct (IH Hne) as (e1 & [q1 Hq1] & Hmax).
    destruct (stamp_le_total e.1 e1.1) as [Hle|Hge].
    + exists e1. split; [exists q1; rewrite lookup_insert_ne; congruence|].
      intros q' e' [[_ <-]|[_ H]]%lookup_insert_Some; [done|by eapply Hmax].
    + exists e. split; [exists q; by simplify_map_eq|].
      intros q' e' [[_ <-]|[_ H]]%lookup_insert_Some; [done|].
      etrans; [by eapply Hmax|done].
Qed.
End Spec.
End Nnar.

(** ** The implementation as an instance of the algorithm *)

Section Refinement.
Context {Uuid Callback : Type} `{!EqDecision Uuid}.
Abbreviation state := (AtomicRegisterState Uuid Callback).
Abbreviation event := (@event Uuid Callback).
Implicit Types (s : state) (e : event) (f : effect Uuid Callback).

Definition abs_phase s : Nnar.phase :=
  match op_id s with
  | Some op =>
      if reading s then
        if write_phase s then Nnar.Impose op (ReadReturn (readval s)) (acklist s)
        else Nnar.Query op Nnar.ORead (readlist s)
      else if writing s then
        if write_phase s then Nnar.Impose op WriteReturn (acklist s)
        else Nnar.Query op (Nnar.OWrite (writeval s)) (readlist s)
      else Nnar.Idle
  | None => Nnar.Idle
  end.

Definition abs s : Nnar.process :=
  {| Nnar.stable := ((ts s, wr s), val s); Nnar.current := abs_phase s |}.

Definition abs_event e : Nnar.input :=
  match e with
  | EvClient id cmd _ =>
      Nnar.Invoke id (match c_content cmd with Read => Nnar.ORead | Write v => Nnar.OWrite v end)
  | EvSystem cmd => Nnar.Deliver (process_identifier (header cmd)) (msg_ident (header cmd)) (content cmd)
  end.

Definition abs_effect f : Nnar.output :=
  match f with
  | Broadcast cmd => Nnar.OBroadcast (msg_ident (header cmd)) (content cmd)
  | Send cmd target => Nnar.OSend target (msg_ident (header cmd)) (content cmd)
  | Store _ (v, t, r) => Nnar.OStore ((t, r), v)
  | Complete _ success => Nnar.OReturn (op_return success)
  end.

(** The stamp that a decision imposes is at least (for a write, beyond) all the
    collected ones. *)
Definition picks_highest s e f : Prop :=
  match e, f with
  | EvSystem {| header := h; content := Value t r v |}, Broadcast {| content := WriteProc t' r' _ |} =>
      map_Forall (fun _ en => if reading s then stamp_le en.1 (t', r') else en.1.1 < t')
        (full_readlist s h t r v)
  | _, _ => True
  end.

Lemma abs_phase_idle s : register_inv s -> idle s -> abs_phase s = Nnar.Idle.
Proof. intros Hinv [Hr Hw]. unfold abs_phase. destruct (op_id s); by rewrite ?Hr, ?Hw. Qed.

Lemma abs_phase_querying s op :
  op_id s = Some op -> write_phase s = false -> busy s ->
  abs_phase s = Nnar.Query op (if reading s then Nnar.ORead else Nnar.OWrite (writeval s)) (readlist s).
Proof. unfold abs_phase. intros -> -> [->| ->]; [done|]. by destruct (reading s). Qed.

Lemma abs_phase_imposing s op :
  op_id s = Some op -> write_phase s = true -> busy s ->
  abs_phase s = Nnar.Impose op (if reading s then ReadReturn (readval s) else WriteReturn) (acklist s).
Proof. unfold abs_phase. intros -> -> [->| ->]; [done|]. by destruct (reading s). Qed.

Lemma querying_inv s id : Nnar.querying id (abs_phase s) ->
  op_id s = Some id /\ write_phase s = false /\ busy s.
Proof.
  unfold abs_phase, Nnar.querying, busy. intros (o & rl & H).
  destruct (op_id s), (reading s), (writing s), (write_phase s); naive_solver.
Qed.

Lemma imposing_inv s id : Nnar.imposing id (abs_phase s) ->
  op_id s = Some id /\ write_phase s = true /\ busy s.
Proof.
  unfold abs_phase, Nnar.imposing, busy. intros (o & rl & H).
  destruct (op_id s), (reading s), (writing s), (write_phase s); naive_solver.
Qed.

Lemma picked_highest_read iter m k maxts rr v :
  iter_ok iter -> max_by compare_entries (iter m) = Some (k, ((maxts, rr), v)) ->
  map_Forall (fun _ en => stamp_le en.1 (maxts, rr)) m -> Nnar.highest m ((maxts, rr), v).
Proof. intros Hiter Hmax Hall. split; [|done]. exists k. by eapply picked_entry. Qed.

(** For a write only the timestamp of the highest entry matters. *)
Lemma picked_highest_write iter m k maxts rr v :
  iter_ok iter -> max_by compare_entries (iter m) = Some (k, ((maxts, rr), v)) ->
  map_Forall (fun _ en => en.1.1 < maxts + 1) m -> exists rr' v', Nnar.highest m ((maxts, rr'), v').
Proof.
  intros Hiter Hmax Hall. apply picked_entry in Hmax; [|done].
  destruct (Nnar.highest_exists m) as ([[t r] v'] & [q Hq] & Hhi); [intros ->; by simplify_map_eq|].
  pose proof (Hhi _ _ Hmax) as Hle. pose proof (Hall _ _ Hq) as Hlt. simpl in *.
  assert (t = maxts) as -> by stamp_solve. exists r, v'. split; [by exists q|done].
Qed.

Lemma u64_add_no_wrap oc a ts' : u64_add (E:=Empty_set) oc a 1 = Ret ts' -> a < ts' -> ts' = a + 1.
Proof.
  unfold u64_add. case_decide; [by intros [= <-]|]. destruct oc; [done|]. intros [= <-] Hlt.
  pose proof (Z.mod_le (a + 1) (2 ^ 64)). unfold U64_MAX in *. lia.
Qed.

Lemma value_refines oc iter s h t r v s' effs :
  register_inv s -> iter_ok iter -> value_case oc iter s h t r v s' effs ->
  Forall (picks_highest s (EvSystem {| header := h; content := Value t r v |})) effs ->
  Nnar.step (self_ident s) (processes_count s) (abs s)
    (Nnar.Deliver (process_identifier h) (msg_ident h) (Value t r v)) (abs s') (abs_effect <$> effs).
Proof.
  intros Hinv Hiter Hcase Hpick. unfold abs.
  destruct Hcase as [op Hop Hno|op rl Hop <- Hwp -> Hq|op k mt rr v' Hop <- Hwp Hm Hr Hmax
                    |op k mt rr v' ts' Hop <- Hwp Hm Hr Hw Hmax Hadd].
  - apply Nnar.nnar_value_ignored. intros (Hop' & Hwp & _)%querying_inv. destruct Hno; congruence.
  - destruct (busy_or_idle s) as [Hb|Hi].
    + rewrite (abs_phase_querying s _ Hop Hwp Hb). erewrite abs_phase_querying by done.
      apply Nnar.nnar_value. destruct Hq as [Hq|Hi]; [done|]. by destruct (busy_not_idle s).
    + assert (abs_phase (s <| readlist := <[process_identifier h:=(t, r, v)]> (readlist s) |>) = abs_phase s)
        as -> by (unfold abs_phase; simpl; destruct Hi as [-> ->]; done).
      apply Nnar.nnar_value_ignored. intros (_ & _ & Hb)%querying_inv. by eapply busy_not_idle.
  - rewrite (abs_phase_querying s _ Hop Hwp) by by left. rewrite Hr.
    erewrite abs_phase_imposing by (done || by left). simpl. rewrite Hr.
    apply Nnar.nnar_value_read; [done|]. eapply picked_highest_read; [done..|].
    inversion_clear Hpick as [|? ? Hp _]. simpl in Hp. by rewrite Hr in Hp.
  - rewrite (abs_phase_querying s _ Hop Hwp) by by right. rewrite Hr.
    erewrite abs_phase_imposing by (done || by right). simpl. rewrite Hr.
    inversion_clear Hpick as [|? ? _ Hp']. inversion_clear Hp' as [|? ? Hp _]. simpl in Hp. rewrite Hr in Hp.
    assert (ts' = mt + 1) as ->.
    { eapply u64_add_no_wrap; [done|]. apply (Hp k ((mt, rr), v')). by eapply picked_entry. }
    destruct (picked_highest_write _ _ _ _ _ _ Hiter Hmax Hp) as (rr' & v'' & Hhi).
    by eapply Nnar.nnar_value_write.
Qed.

Lemma ack_refines s h s' effs :
  register_inv s -> ack_case s h s' effs ->
  Nnar.step (self_ident s) (processes_count s) (abs s)
    (Nnar.Deliver (process_identifier h) (msg_ident h) Ack) (abs s') (abs_effect <$> effs).
Proof.
  intros Hinv Hcase. unfold abs.
  destruct Hcase as [op Hop Hno|op al Hop <- Hwp -> Hq|op cb rq Hop <- Hwp Hm Hr Hcb Hrid
    |op cb rq Hop <- Hwp Hm Hr Hw Hcb Hrid|op s' _ _ Hwp Hb Hno _].
  - apply Nnar.nnar_ack_ignored. intros (Hop' & Hwp & _)%imposing_inv. destruct Hno; congruence.
  - pose proof (inv_phase _ Hinv Hwp) as Hb.
    rewrite (abs_phase_imposing s _ Hop Hwp Hb). erewrite abs_phase_imposing by done.
    apply Nnar.nnar_ack. destruct Hq as [Hq|Hi]; [done|]. by destruct (busy_not_idle s).
  - pose proof (inv_exclusive _ Hinv Hr) as Hw.
    rewrite (abs_phase_imposing s _ Hop Hwp) by by left.
    assert (abs_phase (s <| acklist := ∅ |> <| write_phase := false |> <| reading := false |>
      <| callback := None |>) = Nnar.Idle) as -> by (unfold abs_phase; simpl; by rewrite Hop, Hw).
    rewrite Hr. by apply Nnar.nnar_return.
  - rewrite (abs_phase_imposing s _ Hop Hwp) by by right.
    assert (abs_phase (s <| acklist := ∅ |> <| write_phase := false |> <| writing := false |>
      <| callback := None |>) = Nnar.Idle) as -> by (unfold abs_phase; simpl; by rewrite Hop, Hr).
    rewrite Hr. by apply Nnar.nnar_return.
  - apply (inv_callback _ Hinv) in Hb as [cb Hcb]. congruence.
Qed.

(** C4: Every handler of a reachable register is one step of the
    (N,N)-AtomicRegister algorithm, with the same messages, stores and answers,
    provided that a decision picks the highest of the collected values. *)
Theorem handlers_refine_algorithm oc self idx n t w v tr s e s' effs :
  0 <= n -> reaches oc (new self idx n t w v) tr s ->
  step oc s e s' effs -> Forall (picks_highest s e) effs ->
  Nnar.step self n (abs s) (abs_event e) (abs s') (abs_effect <$> effs).
Proof.
  intros Hn Htr Hstep Hpick.
  destruct (fresh_inv oc self idx n t w v tr s Hn Htr) as (Hinv & <- & <- & _). clear Htr Hn.
  destruct Hstep as [id [hd ct] cb s1 effs1 Hidle Hc|iter [h ct] s1 effs1 Hiter Hsys].
  - unfold abs. rewrite (abs_phase_idle s Hinv Hidle). unfold client_command in Hc. simpl in Hc.
    pose proof (idle_write_phase s Hinv Hidle) as Hwp.
    destruct Hidle as [Hr Hw].
    destruct ct; injection Hc as <- <-; simpl; unfold abs_phase; simpl; rewrite ?Hr, ?Hwp;
      apply Nnar.nnar_invoke.
  - unfold system_command in Hsys. simpl in Hsys. destruct ct as [|t' r' v'|t' r' v'|].
    + injection Hsys as <- <-. apply Nnar.nnar_read_proc.
    + eapply value_refines; [done..| |done]. by eapply handle_value_cases.
    + unfold handle_write_proc in Hsys. case_decide as Hlt; injection Hsys as <- <-.
      * by apply Nnar.nnar_write_proc_newer.
      * by apply Nnar.nnar_write_proc_older.
    + eapply ack_refines; [done|]. by eapply handle_ack_cases.
Qed.

End Refinement.

(** ** Decisions that are not the highest *)

Section RankOnly.
Context {Uuid Callback : Type} `{!EqDecision Uuid}.
Implicit Types (s : AtomicRegisterState Uuid Callback) (h : SystemCommandHeader Uuid).

(** The reply [((t, r), v)] has the largest rank of those collected. *)
Definition top_rank s h (t : u64) (r : u8) (v : SectorVec) : Prop :=
  process_identifier h <> self_ident s /\
  map_Forall (fun q en => q <> process_identifier h -> en.1.2 < r) (full_readlist s h t r v).

Lemma top_rank_picked iter s h t r v :
  iter_ok iter -> top_rank s h t r v ->
  max_by compare_entries (iter (full_readlist s h t r v)) = Some (process_identifier h, ((t, r), v)).
Proof.
  intros Hiter [Hne Htop].
  destruct (iter_max_by iter (full_readlist s h t r v) Hiter (full_readlist_nonempty _ _ _ _ _))
    as (k & en & Hmax & Hk).
  assert (full_readlist s h t r v !! process_identifier h = Some ((t, r), v)) as Hh.
  { unfold full_readlist. rewrite lookup_insert_ne by congruence. by simplify_map_eq. }
  destruct (decide (k = process_identifier h)) as [->|Hk']; [congruence|].
  pose proof (Htop _ _ Hk Hk') as Hlt.
  assert ((process_identifier h, ((t, r), v)) ∈ iter (full_readlist s h t r v)) as Hin.
  { rewrite (Hiter _). by apply elem_of_map_to_list. }
  pose proof (max_by_rank _ _ _ Hmax Hin) as Hle. simpl in *. lia.
Qed.

Lemma decides_test s h t r v op :
  op_id s = Some op -> decides s h t r v ->
  bool_decide (msg_ident h = op) && negb (write_phase s) = true /\
  (Z.of_nat (size (<[process_identifier h := ((t, r), v)]> (readlist s))) >? processes_count s / 2) &&
    (reading s || writing s) = true.
Proof.
  intros Hop (Hop' & Hwp & Hb & Hm). split; [|by apply quorum_test].
  rewrite bool_decide_true by congruence. by rewrite Hwp.
Qed.

(** A read is decided by ranks alone: when the reply that completes the
    quorum has the largest rank, the register imposes and later returns it,
    however old its timestamp is compared with the others and with its own. *)
Theorem read_decided_by_rank oc iter s h t r v :
  iter_ok iter -> decides s h t r v -> reading s = true -> top_rank s h t r v ->
  exists s', handle_value oc iter h t r v s =
    Ret (s', [Broadcast {| header := reply_header s h (msg_ident h); content := WriteProc t r v |}]) /\
    readval s' = v.
Proof.
  intros Hiter Hdec Hr Htop. pose proof (top_rank_picked iter s h t r v Hiter Htop) as Hmax.
  destruct (decides_test s h t r v _ (proj1 Hdec) Hdec) as [Hc Hq].
  unfold handle_value. rewrite (proj1 Hdec). simpl. rewrite Hc. simpl.
  rewrite Hq. unfold full_readlist in Hmax. rewrite Hmax. simpl. rewrite Hr.
  eexists. split; reflexivity.
Qed.

(** A write can be given the stamp that the register already holds for another
    value, when the reply of largest rank is one step behind. *)
Lemma repeats_stamp oc iter s h t r v :
  iter_ok iter -> decides s h t r v -> reading s = false -> top_rank s h t r v ->
  wr s = self_ident s -> ts s = t + 1 -> in_u64 (ts s) ->
  exists s', handle_value oc iter h t r v s =
    Ret (s', [Store (ar_sector_idx s) (writeval s, ts s, wr s);
              Broadcast {| header := reply_header s h (msg_ident h);
                           content := WriteProc (ts s) (wr s) (writeval s) |}]) /\
    (ts s', wr s', val s') = (ts s, wr s, writeval s).
Proof.
  intros Hiter Hdec Hr Htop Hwr Hts Hfit. pose proof (top_rank_picked iter s h t r v Hiter Htop) as Hmax.
  destruct (decides_test s h t r v _ (proj1 Hdec) Hdec) as [Hc Hq].
  unfold handle_value. rewrite (proj1 Hdec). simpl. rewrite Hc. simpl.
  rewrite Hq. unfold full_readlist in Hmax. rewrite Hmax. simpl. rewrite Hr. simpl.
  unfold u64_add. unfold in_u64 in Hfit. rewrite decide_True by lia. simpl.
  rewrite Hwr, Hts. eexists. split; reflexivity.
Qed.

End RankOnly.

(** ** The theorems on concrete registers *)

Module AlgorithmExamples.
Import RegisterFactsExamples.

(** Process 2 holds the only written value, so its rank is the largest and its
    timestamp too. *)
Lemma handlers_refine_algorithm_witness :
  exists tr s e s' effs, reaches true register_1 tr s /\ step true s e s' effs /\
    Nnar.step 1 3 (abs s) (abs_event e) (abs s') (abs_effect <$> effs) /\
    Nnar.current (abs s') = Nnar.Impose 7 (ReadReturn [9]) ∅.
Proof.
  destruct (run true (take 3 read_begins) register_1) as [[tr s]|] eqn:E; [|vm_compute in E; discriminate E].
  pose proof (run_reaches _ _ _ _ _ E) as Hrun. vm_compute in E. injection E as <- <-.
  eexists _, _, (from 2 (Value 3 2 [9])), _, _. split; [exact Hrun|].
  assert (forall A B C : Prop, A -> (A -> B /\ C) -> A /\ B /\ C) as Hconj by (intros; tauto).
  apply Hconj; [apply exec_step; vm_compute; reflexivity|]. intros Hstep.
  split; [|vm_compute; reflexivity].
  apply (handlers_refine_algorithm true 1 0 3 0 0 [] _ _ _ _ _ ltac:(lia) Hrun Hstep).
  constructor; [|constructor]. by_evaluation.
Defined.

(** Process 1 of 3 holds [(5, 1)]; process 2 still holds [(4, 2)]. *)
Definition ahead (ct : ClientRegisterCommandContent) : list event :=
  [EvClient 7 {| c_header := {| request_identifier := 11; c_sector_idx := 0 |}; c_content := ct |} tt;
   from 1 (Value 5 1 [50])].

Definition register_ahead : AtomicRegisterState Z unit := new 1 0 3 5 1 [50].

Definition reply_2 : SystemCommandHeader Z :=
  {| process_identifier := 2; msg_ident := 7; sector_idx := 0 |}.

Definition state_ahead (ct : ClientRegisterCommandContent) : AtomicRegisterState Z unit :=
  match run true (ahead ct) register_ahead with Some (_, s) => s | None => register_ahead end.

Lemma key_order : iter_ok map_to_list.
Proof. intros m. reflexivity. Qed.

Lemma read_decided_by_rank_witness :
  exists s', handle_value true map_to_list reply_2 4 2 [40] (state_ahead Read) =
    Ret (s', [Broadcast {| header := {| process_identifier := 1; msg_ident := 7; sector_idx := 0 |};
                           content := WriteProc 4 2 [40] |}]) /\ readval s' = [40] /\
    in_memory (state_ahead Read) = ([50], 5, 1).
Proof.
  destruct (read_decided_by_rank true map_to_list (state_ahead Read) reply_2 4 2 [40] key_order)
    as (s' & H1 & H2).
  - split_and!; [reflexivity|reflexivity|left; reflexivity|vm_compute; reflexivity].
  - reflexivity.
  - split; [done|]. by_evaluation.
  - exists s'. split; [exact H1|]. split; [exact H2|reflexivity].
Defined.

End AlgorithmExamples.
