(* ===== verification/Linearizability.v ===== *)
(** * Linearizable histories of a sector

    What the disk promises its clients: a history of invocations and answers is
    linearizable when its operations can be put in one order that respects real
    time and in which every read returns the value of the last write before it.
    A history whose operations carry consistent stamps is linearizable; the
    order is by stamp, writes before the reads of their value. *)

From stdpp Require Import sorting.
From S2P Require Import Prelude Domain.

(** [x] comes before [y] in the list. *)
Definition precedes {A} (x y : A) (l : list A) : Prop :=
  exists l1 l2 l3, l = l1 ++ x :: l2 ++ y :: l3.

Lemma precedes_elem {A} (x y : A) l : precedes x y l -> x ∈ l /\ y ∈ l.
Proof. intros (l1 & l2 & l3 & ->). set_solver. Qed.

Lemma precedes_cons {A} (x y z : A) l : precedes x y l -> precedes x y (z :: l).
Proof. intros (l1 & l2 & l3 & ->). by exists (z :: l1), l2, l3. Qed.

Lemma precedes_head {A} (x y : A) l : y ∈ l -> precedes x y (x :: l).
Proof. intros (l2 & l3 & ->)%list_elem_of_split. by exists [], l2, l3. Qed.

Lemma precedes_fmap {A B} (f : A -> B) x y l : precedes x y l -> precedes (f x) (f y) (f <$> l).
Proof.
  intros (l1 & l2 & l3 & ->). exists (f <$> l1), (f <$> l2), (f <$> l3).
  by rewrite fmap_app, fmap_cons, fmap_app, fmap_cons.
Qed.

Lemma precedes_app_l {A} (x y : A) l k : y ∉ k -> precedes x y (l ++ k) -> precedes x y l.
Proof.
  intros Hy (l1 & l2 & l3 & E). rewrite app_comm_cons, app_assoc in E.
  destruct (app_split_right _ _ _ _ _ E) as [(l3' & -> & _)|(k1 & E' & ->)]; [|set_solver].
  exists l1, l2, l3'. by rewrite app_comm_cons, app_assoc.
Qed.

(** In a sorted list, an element that is not after another precedes it. *)
Lemma sorted_precedes {A} (R : A -> A -> Prop) `{!Reflexive R} l x y :
  StronglySorted R l -> x ∈ l -> y ∈ l -> ~ R y x -> precedes x y l.
Proof.
  intros Hl Hx Hy Hn. induction Hl as [|z l Hl IH Hz]; [set_solver|].
  rewrite list.Forall_forall in Hz.
  apply elem_of_cons in Hx as [->|Hx], Hy as [->|Hy].
  - by destruct Hn.
  - by apply precedes_head.
  - destruct Hn. by apply Hz.
  - by apply precedes_cons, IH.
Qed.

Section Spec.
Context {Op : Type}.

(** ** Histories and their linearizations *)

Inductive action :=
| Inv (op : Op) (o : ClientRegisterCommandContent)
| Res (op : Op) (a : OperationReturn).

Record operation := {
  o_op : Op;
  o_content : ClientRegisterCommandContent;
  o_answer : OperationReturn;
}.

(** The operations of [l], one after the other, on a sector that holds [v]. *)
Fixpoint legal (v : SectorVec) (l : list operation) : Prop :=
  match l with
  | [] => True
  | x :: l =>
      match o_content x with
      | Read => o_answer x = ReadReturn v /\ legal v l
      | Write w => o_answer x = WriteReturn /\ legal w l
      end
  end.

(** Operations that never returned may have taken effect or not. *)
Record linearization (h : list action) (l : list operation) : Prop := {
  lin_once : NoDup (o_op <$> l);
  lin_returned op a : Res op a ∈ h -> exists x, x ∈ l /\ o_op x = op /\ o_answer x = a;
  lin_invoked x : x ∈ l -> Inv (o_op x) (o_content x) ∈ h;
  lin_legal : legal zero_sector l;
  lin_real_time op a op' o' x y :
    precedes (Res op a) (Inv op' o') h -> x ∈ l -> y ∈ l -> o_op x = op -> o_op y = op' -> precedes x y l;
}.

Definition linearizable (h : list action) : Prop := exists l, linearization h l.

(** ** Stamped operations *)

Record stamped := {
  operation_of : operation;
  stamp_at : stamp;
  invoked_at : nat;
}.
Implicit Types (x y : stamped) (l : list stamped).

Definition is_write x : Prop := exists w, o_content (operation_of x) = Write w.

Definition reads_after_writes x : Z := match o_content (operation_of x) with Write _ => 0 | Read => 1 end.

(** By stamp, then writes before reads, then by invocation. *)
Definition stamped_le x y : Prop :=
  stamp_lt (stamp_at x) (stamp_at y) \/
  (stamp_at x = stamp_at y /\
   (reads_after_writes x < reads_after_writes y \/
    (reads_after_writes x = reads_after_writes y /\ (invoked_at x <= invoked_at y)%nat))).

#[local] Instance stamped_le_dec x y : Decision (stamped_le x y).
Proof. unfold stamped_le. apply _. Defined.

#[local] Instance stamped_le_refl : Reflexive stamped_le.
Proof. intros x. right. split; [done|]. right. lia. Qed.

#[local] Instance stamped_le_trans : Transitive stamped_le.
Proof.
  intros x y z [Hxy|[E Hxy]] [Hyz|[E' Hyz]].
  - left. by etrans.
  - left. by rewrite <- E'.
  - left. by rewrite E.
  - right. split; [congruence|]. lia.
Qed.

#[local] Instance stamped_le_total : Total stamped_le.
Proof.
  intros x y. unfold stamped_le. destruct (stamp_trichotomy (stamp_at x) (stamp_at y)) as [H|[E|H]]; [auto| |auto].
  rewrite E.
  destruct (Z.lt_trichotomy (reads_after_writes x) (reads_after_writes y)) as [H|[->|H]]; [auto| |auto].
  destruct (Nat.le_ge_cases (invoked_at x) (invoked_at y)); auto 6.
Qed.

Lemma read_rank x : o_content (operation_of x) = Read -> reads_after_writes x = 1.
Proof. unfold reads_after_writes. by intros ->. Qed.

Lemma write_rank_0 x : is_write x -> reads_after_writes x = 0.
Proof. unfold reads_after_writes. by intros [w ->]. Qed.

(** [l] is what remains to be executed when the sector holds [v] with the
    stamp [st]. *)
Record executable (st : stamp) (v : SectorVec) l : Prop := {
  ex_writes_new x : x ∈ l -> is_write x -> stamp_lt st (stamp_at x);
  ex_writes_answer x : x ∈ l -> is_write x -> o_answer (operation_of x) = WriteReturn;
  ex_writes_unique x y :
    x ∈ l -> y ∈ l -> is_write x -> is_write y -> stamp_at x = stamp_at y -> x = y;
  ex_reads x : x ∈ l -> o_content (operation_of x) = Read ->
    exists r, o_answer (operation_of x) = ReadReturn r /\
      ((stamp_at x = st /\ r = v) \/
       exists y, y ∈ l /\ o_content (operation_of y) = Write r /\ stamp_at y = stamp_at x);
}.

Lemma executable_write st v x l w :
  NoDup (x :: l) -> Forall (stamped_le x) l -> executable st v (x :: l) ->
  o_content (operation_of x) = Write w -> executable (stamp_at x) w l.
Proof.
  intros [Hx _]%list.NoDup_cons Hle [Hnew Hans Huniq Hreads] Hw. rewrite list.Forall_forall in Hle.
  assert (is_write x) as Hxw by by exists w.
  assert (forall y, y ∈ l -> stamp_le (stamp_at x) (stamp_at y)) as Hxy.
  { intros y Hy. destruct (Hle y Hy) as [H|[H _]]; [by left|by right]. }
  split.
  - intros y Hy Hyw. destruct (Hxy y Hy) as [|E]; [done|]. exfalso. apply Hx.
    rewrite (Huniq x y); [done|set_solver..|done|done|done].
  - intros y Hy. apply Hans. set_solver.
  - intros y z Hy Hz. apply Huniq; set_solver.
  - intros y Hy Hr. destruct (Hreads y) as (r & Ha & Hjust); [set_solver|done|]. exists r. split; [done|].
    destruct Hjust as [[E _]|(z & Hz & Hzw & E)].
    + exfalso. apply (irreflexivity stamp_lt st).
      eapply stamp_lt_le_trans; [apply (Hnew x); [set_solver|done]|]. rewrite <- E. by apply Hxy.
    + apply elem_of_cons in Hz as [->|Hz]; [left|right; eauto]. split; [done|congruence].
Qed.

Lemma executable_read st v x l :
  Forall (stamped_le x) l -> executable st v (x :: l) -> o_content (operation_of x) = Read ->
  o_answer (operation_of x) = ReadReturn v /\ executable st v l.
Proof.
  intros Hle [Hnew Hans Huniq Hreads] Hr. rewrite list.Forall_forall in Hle. split.
  - destruct (Hreads x) as (r & Ha & [[_ ->]|(z & Hz & Hzw & E)]); [set_solver|done|done|].
    apply elem_of_cons in Hz as [->|Hz]; [congruence|].
    destruct (Hle z Hz) as [H|[_ H]]; [rewrite E in H; by destruct (irreflexivity stamp_lt (stamp_at x))|].
    rewrite (read_rank x Hr), (write_rank_0 z) in H by by eexists. lia.
  - split; [intros y Hy; apply Hnew; set_solver|intros y Hy; apply Hans; set_solver|
      intros y z Hy Hz; apply Huniq; set_solver|].
    intros y Hy Hyr. destruct (Hreads y) as (r & Ha & Hjust); [set_solver|done|]. exists r. split; [done|].
    destruct Hjust as [?|(z & Hz & Hzw & E)]; [by left|right].
    apply elem_of_cons in Hz as [->|Hz]; [congruence|eauto].
Qed.

Lemma executable_legal st v l :
  NoDup l -> StronglySorted stamped_le l -> executable st v l -> legal v (operation_of <$> l).
Proof.
  intros Hnd Hl. revert st v Hnd. induction Hl as [|x l Hl IH Hx]; intros st v Hnd Hex; [done|].
  pose proof Hnd as [_ Hnd']%list.NoDup_cons. simpl. destruct (o_content (operation_of x)) as [|w] eqn:Ex.
  - destruct (executable_read _ _ _ _ Hx Hex Ex) as [Ha Hex']. split; [done|]. by eapply IH.
  - split; [apply (ex_writes_answer _ _ _ Hex); [set_solver|by eexists]|].
    eapply IH; [done|]. by eapply executable_write.
Qed.

(** What makes stamps consistent with a history. *)
Record consistent (h : list action) l : Prop := {
  cons_once : NoDup ((fun x => o_op (operation_of x)) <$> l);
  cons_returned op a : Res op a ∈ h -> exists x, x ∈ l /\ o_op (operation_of x) = op /\ o_answer (operation_of x) = a;
  cons_invoked x : x ∈ l -> Inv (o_op (operation_of x)) (o_content (operation_of x)) ∈ h;
  cons_executable : executable (0, 0) zero_sector l;
  cons_real_time op a op' o' x y :
    precedes (Res op a) (Inv op' o') h -> x ∈ l -> y ∈ l ->
    o_op (operation_of x) = op -> o_op (operation_of y) = op' ->
    stamp_le (stamp_at x) (stamp_at y) /\ (is_write y -> stamp_lt (stamp_at x) (stamp_at y)) /\
    (invoked_at x < invoked_at y)%nat;
}.

#[local] Instance executable_proper st v : Proper (Permutation ==> impl) (executable st v).
Proof.
  intros l l' Hl [Hnew Hans Huniq Hreads]. split.
  - intros x. rewrite <- Hl. apply Hnew.
  - intros x. rewrite <- Hl. apply Hans.
  - intros x y. rewrite <- Hl. apply Huniq.
  - intros x Hx Hr. rewrite <- Hl in Hx. destruct (Hreads x Hx Hr) as (r & Ha & Hj). exists r. split; [done|].
    destruct Hj as [?|(y & Hy & ?)]; [by left|right]. exists y. by rewrite <- Hl.
Qed.

Lemma stamped_before x y :
  stamp_le (stamp_at x) (stamp_at y) -> (is_write y -> stamp_lt (stamp_at x) (stamp_at y)) ->
  (invoked_at x < invoked_at y)%nat -> ~ stamped_le y x.
Proof.
  intros Hle Hlt Hat [H|[E H]].
  - apply (irreflexivity stamp_lt (stamp_at y)). by eapply stamp_lt_le_trans.
  - destruct (o_content (operation_of y)) as [|w] eqn:Ey.
    + rewrite (read_rank y Ey) in H. unfold reads_after_writes in H. destruct (o_content (operation_of x)); lia.
    + apply (irreflexivity stamp_lt (stamp_at y)). rewrite E at 1. apply Hlt. by eexists.
Qed.

Lemma consistent_linearizable h l : consistent h l -> linearizable h.
Proof.
  intros [Honce Hret Hinv Hex Hrt]. pose proof (merge_sort_Permutation stamped_le l) as Hperm.
  pose proof (StronglySorted_merge_sort stamped_le l) as Hsort.
  set (l' := merge_sort stamped_le l) in *. exists (operation_of <$> l'). split.
  - rewrite <- list_fmap_compose. unfold compose. by rewrite Hperm.
  - intros op a (x & Hx & Hop & Ha)%Hret. exists (operation_of x). split_and!; [|done..].
    apply list_elem_of_fmap. exists x. by rewrite Hperm.
  - intros o (x & -> & Hx)%list_elem_of_fmap. rewrite Hperm in Hx. by apply Hinv.
  - eapply executable_legal; [|done|by rewrite Hperm]. rewrite Hperm. by eapply NoDup_fmap_1.
  - intros op a op' o' ox oy Hpre (x & -> & Hx)%list_elem_of_fmap (y & -> & Hy)%list_elem_of_fmap Eop Eop'.
    apply precedes_fmap. apply (sorted_precedes stamped_le); [done..|].
    rewrite Hperm in Hx, Hy. destruct (Hrt _ _ _ _ _ _ Hpre Hx Hy Eop Eop') as (H1 & H2 & H3).
    by apply stamped_before.
Qed.

End Spec.
Arguments action Op : clear implicits.
