(* ===== verification/Cluster.v ===== *)
(** * The registers of one sector in all processes

    The registers that the processes [1..n] run for one sector, their disks and
    the messages between them.  A register handles a client command or any
    message that was ever sent to it, any number of times and in any order, so
    the steps cover loss, duplication, delay and retransmission.  A process may
    crash at any point of a handler; it restarts with what its disk holds.
    Messages are never made up: the network only carries authentic ones.

    The [log] records what clients see, and the decisions of the operations. *)

From S2P Require Import Prelude Domain AtomicRegister RegisterFacts.

Section Cluster.
Context {Uuid Callback : Type} `{!EqDecision Uuid}.
Abbreviation state := (AtomicRegisterState Uuid Callback).
Abbreviation event := (@event Uuid Callback).
Abbreviation packet := (Z * SystemRegisterCommand Uuid)%type.
Implicit Types (p q : Z) (s : state) (e : event) (f : effect Uuid Callback).

(** ** State *)

(** [Decided] is when an operation fixes the stamp and the value it imposes;
    [Returned] has the processes whose acknowledgements completed it. *)
Inductive log_event :=
| Invoked (op : Uuid) (p : Z) (o : ClientRegisterCommandContent)
| Decided (op : Uuid) (st : stamp) (v : SectorVec)
| Returned (op : Uuid) (answer : OperationReturn) (quorum : gset Z).

Record cluster := {
  registers : gmap Z state;
  disks : gmap Z (SectorVec * u64 * u8);
  network : list packet;
  log : list log_event;
}.
Implicit Types (c : cluster).

Variables (oc : bool) (n : Z) (idx : SectorIdx).

(** ** Effects of a handler on the cluster *)

Definition sent f : list packet :=
  match f with
  | Broadcast cmd => (fun q => (q, cmd)) <$> seqZ 1 n
  | Send cmd target => [(target, cmd)]
  | Store _ _ | Complete _ _ => []
  end.

(** The value of a write is decided when it is stored, the value of a read when
    it is broadcast. *)
Definition logged s e f : list log_event :=
  match op_id s, e, f with
  | Some op, EvSystem {| content := Value _ _ _ |}, Store _ (v, t, r) => [Decided op (t, r) v]
  | Some op, EvSystem {| content := Value _ _ _ |}, Broadcast {| content := WriteProc t r v |} =>
      if reading s then [Decided op (t, r) v] else []
  | Some op, EvSystem {| header := h; content := Ack |}, Complete _ r =>
      [Returned op (op_return r) ({[ process_identifier h ]} ∪ acklist s)]
  | _, _, _ => []
  end.

Definition invocation p e : list log_event :=
  match e with EvClient id cmd _ => [Invoked id p (c_content cmd)] | EvSystem _ => [] end.

(** Process [p] has made the calls [effs] while handling [e], and its register
    is [s'] now. *)
Definition effects_on p s e (effs : list (effect Uuid Callback)) s' c : cluster :=
  {| registers := <[p := s']> (registers c);
     disks := alter (fun d => stored idx d effs) p (disks c);
     network := network c ++ (effs ≫= sent);
     log := log c ++ invocation p e ++ (effs ≫= logged s e) |}.

(** The register that a process builds from its disk. *)
Definition restarted p (d : SectorVec * u64 * u8) : state := new p idx n d.1.2 d.2 d.1.1.

(** ** Steps *)

(** Operation identifiers are fresh, and messages were sent before. *)
Definition may_handle c p e : Prop :=
  match e with
  | EvClient id cmd _ => c_sector_idx (c_header cmd) = idx /\ forall q o, Invoked id q o ∉ log c
  | EvSystem cmd => (p, cmd) ∈ network c
  end.

(** [ok] restricts the calls that handlers make. *)
Inductive cluster_step (ok : state -> event -> effect Uuid Callback -> Prop) c : cluster -> Prop :=
| cs_handle p s e s' effs :
    registers c !! p = Some s -> may_handle c p e -> step oc s e s' effs -> Forall (ok s e) effs ->
    cluster_step ok c (effects_on p s e effs s' c)
| cs_crash p s e s' before after d :
    registers c !! p = Some s -> may_handle c p e -> step oc s e s' (before ++ after) ->
    Forall (ok s e) (before ++ after) -> disks c !! p = Some d ->
    cluster_step ok c (effects_on p s e before (restarted p (stored idx d before)) c)
| cs_restart p s d :
    registers c !! p = Some s -> disks c !! p = Some d ->
    cluster_step ok c {| registers := <[p := restarted p d]> (registers c); disks := disks c;
                         network := network c; log := log c |}.

Definition start : cluster :=
  {| registers := list_to_map ((fun p => (p, new p idx n 0 0 zero_sector)) <$> seqZ 1 n);
     disks := list_to_map ((fun p => (p, (zero_sector, 0, 0))) <$> seqZ 1 n);
     network := []; log := [] |}.

Definition cluster_reaches ok c : Prop := rtc (cluster_step ok) start c.

Definition any_call s e f : Prop := True.

Lemma cluster_invariant ok (P : cluster -> Prop) :
  P start -> (forall c c', cluster_reaches ok c -> P c -> cluster_step ok c c' -> P c') ->
  forall c, cluster_reaches ok c -> P c.
Proof. intros H0 Hstep. apply rtc_ind_r; [done|]. intros c c' Hc Hcc' HP. by eapply Hstep. Qed.

Lemma start_register p s :
  registers start !! p = Some s -> 1 <= p <= n /\ s = new p idx n 0 0 zero_sector.
Proof.
  simpl. intros H%elem_of_list_to_map_2. apply list_elem_of_fmap in H as (q & [= -> ->] & Hq).
  apply elem_of_seqZ in Hq. split; [lia|done].
Qed.

Lemma start_disk p : 1 <= p <= n -> disks start !! p = Some (zero_sector, 0, 0).
Proof.
  intros Hp. simpl. apply elem_of_list_to_map_1.
  - rewrite <- list_fmap_compose. simpl. rewrite list_fmap_id. apply NoDup_seqZ.
  - apply list_elem_of_fmap. exists p. split; [done|]. apply elem_of_seqZ. lia.
Qed.

Lemma start_disk_inv p d : disks start !! p = Some d -> d = (zero_sector, 0, 0).
Proof.
  simpl. intros H%elem_of_list_to_map_2. by apply list_elem_of_fmap in H as (q & [= -> ->] & _).
Qed.

(** ** Values

    Every value anywhere in the system is the initial one or was written by a
    client. *)

Section Values.
Variable P : SectorVec -> Prop.

Definition content_values (ct : SystemRegisterCommandContent) : Prop :=
  match ct with Value _ _ v | WriteProc _ _ v => P v | ReadProc | Ack => True end.

Definition event_values e : Prop :=
  match e with
  | EvClient _ cmd _ => match c_content cmd with Write v => P v | Read => True end
  | EvSystem cmd => content_values (content cmd)
  end.

Definition effect_values f : Prop :=
  match f with
  | Broadcast cmd | Send cmd _ => content_values (content cmd)
  | Store _ d => P d.1.1
  | Complete _ r => match op_return r with ReadReturn v => P v | WriteReturn => True end
  end.

Record state_values s : Prop := {
  values_val : P (val s);
  values_writeval : P (writeval s);
  values_readval : P (readval s);
  values_readlist : map_Forall (fun _ en => P en.2) (readlist s);
}.

Lemma full_readlist_values s h t r v :
  state_values s -> P v -> map_Forall (fun _ en => P en.2) (full_readlist s h t r v).
Proof. intros [H1 _ _ H4] Hv. unfold full_readlist. by repeat apply map_Forall_insert_2. Qed.

Lemma value_values iter s h t r v s' effs :
  iter_ok iter -> state_values s -> P v -> value_case oc iter s h t r v s' effs ->
  state_values s' /\ Forall effect_values effs.
Proof.
  intros Hiter Hs Hv Hcase. pose proof (full_readlist_values s h t r v Hs Hv) as Hfull.
  destruct Hs as [H1 H2 H3 H4].
  destruct Hcase as [op _ _|op rl _ _ _ -> _|op k mt rr v' _ _ _ _ _ Hmax
                    |op k mt rr v' ts' _ _ _ _ _ _ Hmax _]; [done|..].
  - split; [|done]. split; simpl; try done. by apply map_Forall_insert_2.
  - apply picked_entry in Hmax; [|done]. pose proof (Hfull _ _ Hmax) as Hp. simpl in Hp.
    split; [by split|]. by repeat constructor.
  - apply picked_entry in Hmax; [|done]. pose proof (Hfull _ _ Hmax) as Hp. simpl in Hp.
    split; [by split|]. by repeat constructor.
Qed.

Lemma step_values s e s' effs :
  state_values s -> event_values e -> step oc s e s' effs -> state_values s' /\ Forall effect_values effs.
Proof.
  intros Hs He Hstep. destruct Hstep as [id [hd ct] cb s1 effs1 _ Hc|iter [h ct] s1 effs1 Hiter Hsys].
  - unfold client_command in Hc. destruct Hs, ct; simpl in He; injection Hc as <- <-;
      (split; [by split|by repeat constructor]).
  - unfold system_command in Hsys. simpl in *. destruct ct as [|t r v|t r v|].
    + injection Hsys as <- <-. split; [done|]. destruct Hs. by repeat constructor.
    + apply handle_value_cases in Hsys. by eapply value_values.
    + destruct Hs. unfold handle_write_proc in Hsys.
      case_decide; injection Hsys as <- <-; (split; [by split|by repeat constructor]).
    + destruct Hs. destruct (handle_ack_cases _ _ _ _ Hsys);
        (split; [|by repeat constructor]); try by split.
      subst. destruct (reading s); by split.
Qed.

Lemma stored_values d effs : P d.1.1 -> Forall effect_values effs -> P (stored idx d effs).1.1.
Proof.
  intros Hd Heffs. revert d Hd. induction Heffs as [|f effs Hf _ IH]; intros d Hd; [done|].
  change (f :: effs) with ([f] ++ effs). rewrite stored_app. apply IH.
  unfold stored. destruct f; simpl; try done. by case_decide.
Qed.

End Values.

Lemma state_values_mono (P Q : SectorVec -> Prop) s :
  (forall v, P v -> Q v) -> state_values P s -> state_values Q s.
Proof. intros HPQ [H1 H2 H3 H4]. split; auto. intros q en Hq. apply HPQ, (H4 _ _ Hq). Qed.

Lemma content_values_mono (P Q : SectorVec -> Prop) ct :
  (forall v, P v -> Q v) -> content_values P ct -> content_values Q ct.
Proof. intros HPQ. destruct ct; simpl; auto. Qed.

(** The initial value, or the value of a write that was invoked. *)
Definition known (l : list log_event) (v : SectorVec) : Prop :=
  v = zero_sector \/ exists op p, Invoked op p (Write v) ∈ l.

Lemma known_app l k v : known l v -> known (l ++ k) v.
Proof. intros [->|(op & p & H)]; [by left|right]. exists op, p. set_solver. Qed.

Record values_inv c : Prop := {
  vi_registers : map_Forall (fun _ s => state_values (known (log c)) s) (registers c);
  vi_disks : map_Forall (fun _ d => known (log c) d.1.1) (disks c);
  vi_network : Forall (fun pk => content_values (known (log c)) (content pk.2)) (network c);
  vi_returned l1 op v quorum l2 :
    log c = l1 ++ Returned op (ReadReturn v) quorum :: l2 -> known l1 v;
}.

Lemma logged_returned s e f op a quorum :
  Returned op a quorum ∈ logged s e f -> exists cb r, f = Complete cb r /\ op_return r = a.
Proof.
  unfold logged. destruct (op_id s), e as [|[h ct]], f as [[h' ct']| |? [[v t] r]|cb1 r];
    try destruct ct; try destruct ct'; try destruct (reading s); intros H; set_solver.
Qed.

Lemma effects_values_inv p s e effs effs' s' c :
  values_inv c -> registers c !! p = Some s -> may_handle c p e -> step oc s e s' (effs ++ effs') ->
  state_values (known (log c ++ invocation p e)) s' /\
  Forall (effect_values (known (log c ++ invocation p e))) effs.
Proof.
  intros [Hr _ Hn _] Hs Hmay Hstep.
  destruct (step_values (known (log c ++ invocation p e)) s e s' (effs ++ effs')) as [H1 H2]; [..|done|].
  - eapply state_values_mono; [apply known_app|]. by apply (Hr _ _ Hs).
  - destruct e as [id cmd cb|cmd]; simpl in *.
    + destruct (c_content cmd) as [|v] eqn:E; [done|]. right. exists id, p. set_solver.
    + rewrite list.Forall_forall in Hn. eapply content_values_mono; [apply known_app|]. by apply (Hn _ Hmay).
  - apply Forall_app in H2 as [H2 _]. done.
Qed.

Lemma effects_on_values p s e effs effs' s1 s2 c :
  values_inv c -> registers c !! p = Some s -> may_handle c p e -> step oc s e s1 (effs ++ effs') ->
  state_values (known (log c ++ invocation p e)) s2 -> values_inv (effects_on p s e effs s2 c).
Proof.
  intros Hinv Hs Hmay Hstep Hs2.
  destruct (effects_values_inv _ _ _ _ _ _ _ Hinv Hs Hmay Hstep) as [_ Heffs]. destruct Hinv as [Hr Hd Hn Hret].
  assert (forall v, known (log c ++ invocation p e) v -> known (log (effects_on p s e effs s2 c)) v) as Hk1.
  { intros v Hv. simpl. rewrite app_assoc. by apply known_app. }
  assert (forall v, known (log c) v -> known (log (effects_on p s e effs s2 c)) v) as Hk0.
  { intros v Hv. by apply Hk1, known_app. }
  split.
  - simpl. intros q sq [[-> <-]|[_ Hq]]%lookup_insert_Some; (eapply state_values_mono; [|done || apply (Hr _ _ Hq)]); done.
  - simpl. intros q d Hq. apply lookup_alter_Some in Hq as [(-> & d0 & Hd0 & ->)|[_ Hq]]; [|by apply Hk0, (Hd _ _ Hq)].
    apply Hk1, stored_values; [|done]. by apply known_app, (Hd _ _ Hd0).
  - simpl. apply Forall_app. split.
    + eapply Forall_impl; [|exact Hn]. intros pk. apply content_values_mono, Hk0.
    + apply list.Forall_forall. intros pk (f & Hpk & Hf)%list_elem_of_bind.
      rewrite list.Forall_forall in Heffs. specialize (Heffs f Hf). eapply content_values_mono; [apply Hk1|].
      destruct f; simpl in *; [apply list_elem_of_fmap in Hpk as (q & -> & _)|..]; set_solver.
  - intros l1 op v quorum l2 E. simpl in E.
    destruct (app_split_right _ _ _ _ _ E) as [(l2' & E' & _)|(k1 & -> & E')]; [by eapply Hret|].
    destruct (app_split_right _ _ _ _ _ E') as [(l2' & E'' & _)|(k2 & -> & E'')].
    + exfalso. destruct e; simpl in E''; destruct k1 as [|? [|]]; by simplify_eq/=.
    + assert (Returned op (ReadReturn v) quorum ∈ effs ≫= logged s e) as Hin by (rewrite E''; set_solver).
      apply list_elem_of_bind in Hin as (f & Hf & Hfin). apply logged_returned in Hf as (cb & r & -> & Ha).
      rewrite list.Forall_forall in Heffs. specialize (Heffs _ Hfin). simpl in Heffs. rewrite Ha in Heffs.
      rewrite app_assoc. by apply known_app.
Qed.

Lemma start_values : values_inv start.
Proof.
  split.
  - intros p s Hs. apply start_register in Hs as [_ ->]. split; simpl; try by left.
  - intros p d ->%start_disk_inv. by left.
  - constructor.
  - intros l1 op v quorum l2 E. by destruct l1.
Qed.

Lemma restarted_values (P : SectorVec -> Prop) p d : P zero_sector -> P d.1.1 -> state_values P (restarted p d).
Proof. intros H0 Hd. by split. Qed.

Lemma step_values_inv ok c c' : values_inv c -> cluster_step ok c c' -> values_inv c'.
Proof.
  intros Hinv Hstep.
  destruct Hstep as [p s e s' effs Hs Hmay Hstep _|p s e s' effs effs' d Hs Hmay Hstep _ Hd|p s d Hs Hd].
  - assert (step oc s e s' (effs ++ [])) as Hstep' by by rewrite app_nil_r.
    eapply effects_on_values; [done..|]. by eapply effects_values_inv.
  - eapply effects_on_values; [done..|].
    destruct (effects_values_inv _ _ _ _ _ _ _ Hinv Hs Hmay Hstep) as [_ Heffs].
    apply restarted_values; [by left|]. apply stored_values; [|done]. apply known_app.
    by apply (vi_disks _ Hinv _ _ Hd).
  - destruct Hinv as [Hr Hdi Hn Hret]. split; simpl; try done.
    intros q sq [[-> <-]|[_ Hq]]%lookup_insert_Some; [|by apply (Hr _ _ Hq)].
    apply restarted_values; [by left|]. by apply (Hdi _ _ Hd).
Qed.

(** C14: A read never returns a made-up value: whatever the messages and crashes,
    and however decisions pick, the value of a read was written by a write
    that was invoked before the read returned, or is the initial one. *)
Theorem reads_return_written_values ok c l1 op v quorum l2 :
  cluster_reaches ok c -> log c = l1 ++ Returned op (ReadReturn v) quorum :: l2 ->
  v = zero_sector \/ exists op' p, Invoked op' p (Write v) ∈ l1.
Proof.
  intros Hc. apply (vi_returned c).
  revert c Hc. apply cluster_invariant; [apply start_values|]. intros c c' _. apply step_values_inv.
Qed.

End Cluster.
