(* ===== verification/Atomicity.v ===== *)
(** * Atomicity of the registers of a sector

    The registers of [Cluster] as one linearizable sector.  The argument is the
    one of the (N,N)-AtomicRegister algorithm: stamps of a process only grow,
    two quorums meet, so an operation sees what every operation before it has
    imposed.  It needs the decisions to pick the highest collected value, which
    the code guarantees for a single process only: the last part has a run of
    three processes whose history is not linearizable. *)

From S2P Require Import Prelude Domain AtomicRegister RegisterFacts Algorithm Linearizability Cluster.

(** ** Quorums *)

Lemma quorums_meet (n : Z) (X Y : gset Z) :
  0 <= n -> (forall q, q ∈ X -> 1 <= q <= n) -> (forall q, q ∈ Y -> 1 <= q <= n) ->
  n / 2 < Z.of_nat (size X) -> n / 2 < Z.of_nat (size Y) -> exists q, q ∈ X /\ q ∈ Y.
Proof.
  intros Hn HX HY SX SY. destruct (decide (X ∩ Y = ∅)) as [E|(q & Hq)%set_choose_L]; [|exists q; set_solver].
  exfalso. set (U := list_to_set (seqZ 1 n) : gset Z).
  assert (X ∪ Y ⊆ U) as Hsub%subseteq_size.
  { intros q [Hq|Hq]%elem_of_union; apply elem_of_list_to_set, elem_of_seqZ;
      [specialize (HX q Hq)|specialize (HY q Hq)]; lia. }
  rewrite size_union in Hsub by set_solver.
  assert (size U = Z.to_nat n) as HU.
  { unfold U. rewrite size_list_to_set by apply NoDup_seqZ. by rewrite length_seqZ. }
  rewrite HU in Hsub. pose proof (Z.div_mod n 2). pose proof (Z.mod_pos_bound n 2). lia.
Qed.

#[local] Arguments stored : simpl never.

Section Atomicity.
Context {Uuid Callback : Type} `{!EqDecision Uuid}.
Abbreviation state := (AtomicRegisterState Uuid Callback).
Abbreviation event := (@event Uuid Callback).
Abbreviation log_event := (@log_event Uuid).
Abbreviation disk := (gmap Z (SectorVec * u64 * u8)).
Variables (oc : bool) (n : Z) (idx : SectorIdx).
Implicit Types (L K : list log_event) (D : disk) (s : state) (op : Uuid) (p q : Z) (st : stamp) (v : SectorVec).

(** ** What the log, the messages and the disks tell *)

Definition id_of (x : log_event) : option Uuid := match x with Invoked op _ _ => Some op | _ => None end.

Definition ids L : list Uuid := omap id_of L.

(** The disk of [q] has reached the stamp [st]. *)
Definition disk_at_least D q st : Prop := exists d, D !! q = Some d /\ stamp_le st (stamp_of d).

(** The initial value, or the value of a decided write. *)
Definition origin L st v : Prop :=
  (st = (0, 0) /\ v = zero_sector) \/ exists op p, Invoked op p (Write v) ∈ L /\ Decided op st v ∈ L.

(** [st] is a stamp that [q], when it is in the quorum of an operation that
    returned before [op] was invoked, can report to [op]. *)
Definition covers L op q st : Prop := forall op0 a quorum p o st0 v0,
  precedes (Returned op0 a quorum) (Invoked op p o) L -> q ∈ quorum -> Decided op0 st0 v0 ∈ L -> stamp_le st0 st.

Definition packet_ok L D (cmd : SystemRegisterCommand Uuid) : Prop :=
  let q := process_identifier (header cmd) in
  let op := msg_ident (header cmd) in
  1 <= q <= n /\ (exists p o, Invoked op p o ∈ L) /\
  match content cmd with
  | ReadProc => True
  | Value t r v => origin L (t, r) v /\ covers L op q (t, r)
  | WriteProc t r v => Decided op (t, r) v ∈ L
  | Ack => exists st v, Decided op st v ∈ L /\ disk_at_least D q st
  end.

(** What a decision of [op] by [p] has to satisfy. *)
Definition decision_ok L D op p (o : ClientRegisterCommandContent) st v : Prop :=
  match o with
  | Read => origin L st v
  | Write w => v = w /\ st.2 = p /\ 0 < st.1 /\ disk_at_least D p st
  end.

Record log_ok L D : Prop := {
  lo_ids : NoDup (ids L);
  lo_decided_once op st v st' v' : Decided op st v ∈ L -> Decided op st' v' ∈ L -> st = st' /\ v = v';
  lo_decided op st v : Decided op st v ∈ L -> exists p o, Invoked op p o ∈ L /\ decision_ok L D op p o st v;
  lo_writes op p w op' p' w' st v v' :
    Invoked op p (Write w) ∈ L -> Invoked op' p' (Write w') ∈ L ->
    Decided op st v ∈ L -> Decided op' st v' ∈ L -> op = op';
  lo_returned op a quorum : Returned op a quorum ∈ L ->
    exists p o st v, Invoked op p o ∈ L /\ Decided op st v ∈ L /\
      a = match o with Read => ReadReturn v | Write _ => WriteReturn end /\
      n / 2 < Z.of_nat (size quorum) /\ forall q, q ∈ quorum -> 1 <= q <= n /\ disk_at_least D q st;
  lo_real_time op0 a quorum op p o st0 v0 st v :
    precedes (Returned op0 a quorum) (Invoked op p o) L -> Decided op0 st0 v0 ∈ L -> Decided op st v ∈ L ->
    stamp_le st0 st /\ (o <> Read -> stamp_lt st0 st);
  lo_invoked_first l1 op a quorum l2 :
    L = l1 ++ Returned op a quorum :: l2 -> exists p o, Invoked op p o ∈ l1;
}.

(** ** Growth *)

Definition disks_grow D D' : Prop := forall q st, disk_at_least D q st -> disk_at_least D' q st.

Create HintDb growth.

Lemma disks_grow_refl D : disks_grow D D.
Proof. by intros q st. Qed.
#[local] Hint Resolve disks_grow_refl : growth.

Lemma ids_elem L op : op ∈ ids L <-> exists p o, Invoked op p o ∈ L.
Proof.
  unfold ids. rewrite list_elem_of_omap. split.
  - intros ([op' p o| |] & Hx & [= ->]). eauto.
  - intros (p & o & H). by exists (Invoked op p o).
Qed.

Lemma ids_app L K : ids (L ++ K) = ids L ++ ids K.
Proof. apply omap_app. Qed.

Lemma invoked_unique L op p o p' o' :
  NoDup (ids L) -> Invoked op p o ∈ L -> Invoked op p' o' ∈ L -> p = p' /\ o = o'.
Proof.
  induction L as [|x L IH]; [set_solver|]. change (x :: L) with ([x] ++ L). rewrite ids_app.
  intros (_ & Hdis & Hnd)%list.NoDup_app H1 H2.
  assert (forall p o, Invoked op p o ∈ [x] -> forall p o, Invoked op p o ∈ L -> False) as Hno.
  { intros p1 o1 Hx p2 o2 HL. apply (Hdis op); apply ids_elem; eauto. }
  apply elem_of_app in H1 as [H1|H1], H2 as [H2|H2]; [|by destruct (Hno _ _ H1 _ _ H2)|by destruct (Hno _ _ H2 _ _ H1)|by apply IH].
  apply list_elem_of_singleton in H1, H2. rewrite <- H2 in H1. by injection H1 as -> ->.
Qed.

Lemma invoked_not_again L K op p o p' o' : NoDup (ids (L ++ K)) -> Invoked op p o ∈ L -> Invoked op p' o' ∉ K.
Proof.
  rewrite ids_app. intros (_ & Hdis & _)%list.NoDup_app HL HK. apply (Hdis op); apply ids_elem; eauto.
Qed.

Lemma origin_app L K st v : origin L st v -> origin (L ++ K) st v.
Proof. intros [?|(op & p & H1 & H2)]; [by left|right]. exists op, p. set_solver. Qed.

#[local] Hint Resolve origin_app : growth.

Lemma decision_ok_grow L K D D' op p o st v :
  disks_grow D D' -> decision_ok L D op p o st v -> decision_ok (L ++ K) D' op p o st v.
Proof.
  intros HD. destruct o; simpl; [apply origin_app|]. intros (? & ? & ? & ?). split_and!; [done..|]. by apply HD.
Qed.

#[local] Hint Resolve decision_ok_grow : growth.

Lemma covers_app L K D D' op q st p o :
  log_ok L D -> log_ok (L ++ K) D' -> Invoked op p o ∈ L -> covers L op q st -> covers (L ++ K) op q st.
Proof.
  intros HL HL' Hop Hcov op0 a quorum p' o' st0 v0 Hpre Hq Hdec.
  apply precedes_app_l in Hpre; [|by eapply invoked_not_again; [apply HL'|]].
  destruct (lo_returned _ _ HL op0 a quorum) as (p0 & o0 & st1 & v1 & _ & Hdec' & _); [by apply precedes_elem in Hpre as [? _]|].
  destruct (lo_decided_once _ _ HL' op0 st0 v0 st1 v1) as [-> _]; [done|set_solver|]. by eapply Hcov.
Qed.

Lemma packet_ok_grow L K D D' cmd :
  log_ok L D -> log_ok (L ++ K) D' -> disks_grow D D' -> packet_ok L D cmd -> packet_ok (L ++ K) D' cmd.
Proof.
  intros HL HL' HD (Hq & (p & o & Hop) & Hct). split; [done|]. split; [exists p, o; set_solver|].
  destruct (content cmd) as [|t r v|t r v|]; [done| |set_solver|].
  - destruct Hct as [Ho Hc]. split; [by apply origin_app|]. by eapply covers_app.
  - destruct Hct as (st & v & Hdec & Hd). exists st, v. split; [set_solver|by apply HD].
Qed.

(** ** Steps of the log *)

Lemma log_grow_disk L D D' : log_ok L D -> disks_grow D D' -> log_ok L D'.
Proof.
  intros [H1 H2 H3 H4 H5 H6 H7] HD. split; try done.
  - intros op st v (p & o & Hop & Hdec)%H3. exists p, o. split; [done|].
    rewrite <- (app_nil_r L). by eapply decision_ok_grow.
  - intros op a quorum (p & o & st & v & Hop & Hdec & Ha & Hm & Hq)%H5. exists p, o, st, v.
    split_and!; [done..|]. intros q Hqq. split; [by apply Hq|]. by apply HD, Hq.
Qed.

(** A log that grows by one entry that is not a decision. *)
Lemma decided_snoc L x op st v :
  (forall op st v, x <> Decided op st v) -> Decided op st v ∈ L ++ [x] -> Decided op st v ∈ L.
Proof. intros Hx [H|H%list_elem_of_singleton]%elem_of_app; [done|]. by destruct (Hx op st v). Qed.

Lemma invoked_first_snoc L D x :
  log_ok L D -> (forall op a quorum, x = Returned op a quorum -> exists p o, Invoked op p o ∈ L) ->
  forall l1 op a quorum l2, L ++ [x] = l1 ++ Returned op a quorum :: l2 -> exists p o, Invoked op p o ∈ l1.
Proof.
  intros HL Hx l1 op a quorum l2 E.
  destruct (app_split_right _ _ _ _ _ E) as [(l2' & E' & _)|(k1 & -> & E')]; [by eapply lo_invoked_first|].
  destruct k1 as [|? [|]]; simplify_eq/=. destruct (Hx op a quorum eq_refl) as (p & o & H). exists p, o. set_solver.
Qed.

Lemma log_invoke L D op p o :
  log_ok L D -> (forall q o, Invoked op q o ∉ L) -> log_ok (L ++ [Invoked op p o]) D.
Proof.
  intros HL Hfresh. pose proof HL as [H1 H2 H3 H4 H5 H6 H7].
  assert (forall op' st v, Decided op' st v ∈ L ++ [Invoked op p o] -> Decided op' st v ∈ L) as Hdec
    by (intros op' st v; by apply decided_snoc).
  assert (forall op' st v, Decided op' st v ∈ L -> op' <> op) as Hne.
  { intros op' st v (p' & o' & Hin & _)%H3 ->. by destruct (Hfresh p' o'). }
  split.
  - rewrite ids_app. simpl. apply list.NoDup_app. split_and!; [done| |apply NoDup_singleton].
    intros op' (q & o' & Hin)%ids_elem ->%list_elem_of_singleton. by destruct (Hfresh q o').
  - intros op' st v st' v' Hd%Hdec Hd'%Hdec. by eapply H2.
  - intros op' st v Hd%Hdec. destruct (H3 _ _ _ Hd) as (p' & o' & Hin & Hok). exists p', o'.
    split; [set_solver|]. eauto with growth.
  - intros op1 p1 w1 op2 p2 w2 st v v' Hi1 Hi2 Hd1%Hdec Hd2%Hdec.
    pose proof (Hne _ _ _ Hd1). pose proof (Hne _ _ _ Hd2).
    apply elem_of_app in Hi1 as [Hi1|[= -> _ _]%list_elem_of_singleton]; [|done].
    apply elem_of_app in Hi2 as [Hi2|[= -> _ _]%list_elem_of_singleton]; [|done]. by eapply H4.
  - intros op' a quorum Hr. apply elem_of_app in Hr as [Hr|Hr%list_elem_of_singleton]; [|done].
    destruct (H5 _ _ _ Hr) as (p' & o' & st & v & Hi & Hd & Hrest). exists p', o', st, v.
    split; [set_solver|]. split; [set_solver|done].
  - intros op0 a quorum op1 p1 o1 st0 v0 st v Hpre Hd0%Hdec Hd%Hdec.
    eapply H6; [|exact Hd0|exact Hd]. eapply precedes_app_l; [|exact Hpre].
    intros [= -> _ _]%list_elem_of_singleton. by destruct (Hne _ _ _ Hd).
  - eapply invoked_first_snoc; [done|]. done.
Qed.

Lemma log_return L D op p o st v a (quorum : gset Z) :
  log_ok L D -> Invoked op p o ∈ L -> Decided op st v ∈ L ->
  a = match o with Read => ReadReturn v | Write _ => WriteReturn end ->
  n / 2 < Z.of_nat (size quorum) -> (forall q, q ∈ quorum -> 1 <= q <= n /\ disk_at_least D q st) ->
  log_ok (L ++ [Returned op a quorum]) D.
Proof.
  intros HL Hop Hdec0 Ha Hm Hq. pose proof HL as [H1 H2 H3 H4 H5 H6 H7].
  assert (forall op' st v, Decided op' st v ∈ L ++ [Returned op a quorum] -> Decided op' st v ∈ L) as Hdec
    by (intros op' st' v'; by apply decided_snoc).
  split.
  - rewrite ids_app. simpl. by rewrite app_nil_r.
  - intros op' st1 v1 st' v' Hd%Hdec Hd'%Hdec. by eapply H2.
  - intros op' st1 v1 Hd%Hdec. destruct (H3 _ _ _ Hd) as (p' & o' & Hin & Hok). exists p', o'.
    split; [set_solver|]. eauto with growth.
  - intros op1 p1 w1 op2 p2 w2 st1 v1 v' Hi1 Hi2 Hd1%Hdec Hd2%Hdec.
    apply elem_of_app in Hi1 as [Hi1|Hi1%list_elem_of_singleton]; [|done].
    apply elem_of_app in Hi2 as [Hi2|Hi2%list_elem_of_singleton]; [|done]. by eapply H4.
  - intros op' a' quorum' Hr. apply elem_of_app in Hr as [Hr|Hr%list_elem_of_singleton].
    + destruct (H5 _ _ _ Hr) as (p' & o' & st1 & v1 & Hi & Hd & Hrest). exists p', o', st1, v1.
      split; [set_solver|]. split; [set_solver|done].
    + injection Hr as -> -> ->. exists p, o, st, v. split; [set_solver|]. split; [set_solver|done].
  - intros op0 a0 quorum0 op1 p1 o1 st0 v0 st1 v1 Hpre Hd0%Hdec Hd%Hdec.
    eapply H6; [|exact Hd0|exact Hd]. eapply precedes_app_l; [|exact Hpre].
    by intros ?%list_elem_of_singleton.
  - eapply invoked_first_snoc; [done|]. intros ? ? ? [= <- _ _]. eauto.
Qed.

(** A new decision: later than what it has to be later than, and for a write
    beyond the stamp that its process had. *)
Lemma log_decide L D D' op p o st v :
  log_ok L D -> disks_grow D D' -> Invoked op p o ∈ L -> (forall st v, Decided op st v ∉ L) ->
  decision_ok L D' op p o st v ->
  (o <> Read -> ~ disk_at_least D p st) ->
  (forall op0 a quorum st0 v0, precedes (Returned op0 a quorum) (Invoked op p o) L -> Decided op0 st0 v0 ∈ L ->
    stamp_le st0 st /\ (o <> Read -> stamp_lt st0 st)) ->
  log_ok (L ++ [Decided op st v]) D'.
Proof.
  intros HL HD Hop Hnew Hok Hbeyond Hafter. pose proof HL as [H1 H2 H3 H4 H5 H6 H7].
  assert (forall op' st' v', Decided op' st' v' ∈ L ++ [Decided op st v] ->
    Decided op' st' v' ∈ L \/ (op' = op /\ st' = st /\ v' = v)) as Hdec.
  { intros op' st' v' [H|H%list_elem_of_singleton]%elem_of_app; [by left|right]. by injection H as -> -> ->. }
  assert (forall op' p' o', Invoked op' p' o' ∈ L ++ [Decided op st v] -> Invoked op' p' o' ∈ L) as Hinv.
  { intros op' p' o' [H|H%list_elem_of_singleton]%elem_of_app; done. }
  assert (forall op' p' w' o', Invoked op p (Write w') ∈ L -> Invoked op' p' o' ∈ L -> o' <> Read ->
    forall v', Decided op' st v' ∈ L -> False) as Hfresh.
  { intros op' p' w' o' Hw Hi Hv' v' Hd. destruct (invoked_unique L op p o p (Write w')) as [_ ->]; [done..|].
    destruct (H3 _ _ _ Hd) as (p1 & o1 & Hi1 & Hok1).
    destruct (invoked_unique L op' p' o' p1 o1) as [-> ->]; [done..|].
    destruct o1 as [|w1]; [done|]. destruct Hok as (_ & E & _), Hok1 as (_ & E1 & _ & Hd1).
    assert (p1 = p) as -> by congruence. by apply Hbeyond. }
  split.
  - rewrite ids_app. simpl. by rewrite app_nil_r.
  - intros op' st1 v1 st' v' [Hd|(-> & -> & ->)]%Hdec [Hd'|(E & -> & ->)]%Hdec; [by eapply H2| | |done].
    + subst. by destruct (Hnew st1 v1).
    + by destruct (Hnew st' v').
  - intros op' st1 v1 [Hd|(-> & -> & ->)]%Hdec.
    + destruct (H3 _ _ _ Hd) as (p' & o' & Hin & Hok'). exists p', o'. split; [set_solver|]. eauto with growth.
    + exists p, o. split; [set_solver|]. eauto with growth.
  - intros op1 p1 w1 op2 p2 w2 st1 v1 v' Hi1%Hinv Hi2%Hinv [Hd1|(-> & -> & ->)]%Hdec [Hd2|(-> & E & E')]%Hdec; [by eapply H4| | |done].
    + subst. destruct (invoked_unique L op p o p2 (Write w2)) as [<- ->]; [done..|]. exfalso. by eapply (Hfresh op1 p1).
    + destruct (invoked_unique L op p o p1 (Write w1)) as [<- ->]; [done..|]. exfalso. by eapply (Hfresh op2 p2).
  - intros op' a' quorum' Hr. apply elem_of_app in Hr as [Hr|Hr%list_elem_of_singleton]; [|done].
    destruct (H5 _ _ _ Hr) as (p' & o' & st1 & v1 & Hi & Hd & Ha & Hm & Hq). exists p', o', st1, v1.
    split; [set_solver|]. split; [set_solver|]. split_and!; [done..|]. intros q Hqq. split; [by apply Hq|]. by apply HD, Hq.
  - intros op0 a0 quorum0 op1 p1 o1 st0 v0 st1 v1 Hpre Hd0 Hd.
    apply precedes_app_l in Hpre; [|by intros ?%list_elem_of_singleton].
    pose proof (precedes_elem _ _ _ Hpre) as [Hr Hi].
    assert (Decided op0 st0 v0 ∈ L) as Hd0'.
    { apply Hdec in Hd0 as [?|(-> & _ & _)]; [done|].
      destruct (H5 _ _ _ Hr) as (? & ? & ? & ? & _ & Hdd & _). by destruct (Hnew _ _ Hdd). }
    apply Hdec in Hd as [Hd|(-> & -> & ->)]; [by eapply H6|].
    destruct (invoked_unique L op p o p1 o1) as [<- <-]; [done..|]. by eapply Hafter.
  - eapply invoked_first_snoc; [done|]. done.
Qed.

(** ** The invariant of the cluster *)

(** What a register knows of its operation. *)
Record operation_ok L D p s : Prop := {
  oo_op op : op_id s = Some op -> exists o, Invoked op p o ∈ L /\
    (busy s -> match o with Read => reading s = true | Write w => reading s = false /\ writeval s = w end);
  oo_undecided op : op_id s = Some op -> busy s -> write_phase s = false -> forall st v, Decided op st v ∉ L;
  oo_readlist op q st v : op_id s = Some op -> readlist s !! q = Some (st, v) ->
    1 <= q <= n /\ origin L st v /\ covers L op q st;
  oo_decided op : op_id s = Some op -> write_phase s = true -> exists st v, Decided op st v ∈ L /\
    (reading s = true -> readval s = v) /\ forall q, q ∈ acklist s -> 1 <= q <= n /\ disk_at_least D q st;
}.

Record register_ok D p s : Prop := {
  ro_range : 1 <= p <= n;
  ro_self : self_ident s = p;
  ro_count : processes_count s = n;
  ro_idx : ar_sector_idx s = idx;
  ro_inv : register_inv s;
  ro_disk : D !! p = Some (in_memory s);
}.

Definition disks_ok L D : Prop := map_Forall (fun _ d => origin L (stamp_of d) d.1.1) D.

Definition network_ok L D (N : list (Z * SystemRegisterCommand Uuid)) : Prop :=
  Forall (fun pk => packet_ok L D pk.2) N.

Record cluster_ok (c : cluster (Uuid:=Uuid) (Callback:=Callback)) : Prop := {
  co_log : log_ok (log c) (disks c);
  co_disks : disks_ok (log c) (disks c);
  co_network : network_ok (log c) (disks c) (network c);
  co_registers p s : registers c !! p = Some s -> register_ok (disks c) p s;
  co_operations p s : registers c !! p = Some s -> operation_ok (log c) (disks c) p s;
}.

(** The log and the disks after process [p] did something. *)
Record evolves p L D K D' : Prop := {
  ev_log : log_ok (L ++ K) D';
  ev_grow : disks_grow D D';
  ev_disks : disks_ok (L ++ K) D';
  ev_others q : q <> p -> D' !! q = D !! q;
  ev_decided op st v : Decided op st v ∈ K -> exists o, Invoked op p o ∈ L;
}.

Lemma operation_ok_grow p L D K D' q s :
  log_ok L D -> evolves p L D K D' ->
  (forall op st v, op_id s = Some op -> busy s -> write_phase s = false -> Decided op st v ∉ K) ->
  operation_ok L D q s -> operation_ok (L ++ K) D' q s.
Proof.
  intros HL [HL' HD _ _ _] HK [H1 H2 H3 H4]. split.
  - intros op (o & Hop & Ho)%H1. exists o. split; [set_solver|done].
  - intros op Hop Hb Hwp st v [Hin|Hin]%elem_of_app; [by eapply H2|by eapply HK].
  - intros op q' st v Hop Hrl. destruct (H1 op Hop) as (o & Hinv & _). destruct (H3 op q' st v Hop Hrl) as (Hq & Ho & Hc).
    split; [done|]. split; [by apply origin_app|]. by eapply covers_app.
  - intros op Hop Hwp. destruct (H4 op Hop Hwp) as (st & v & Hd & Hr & Ha). exists st, v.
    split; [set_solver|]. split; [done|]. intros q' Hq'. split; [by apply Ha|]. by apply HD, Ha.
Qed.

(** The operation of another process is not affected. *)
Lemma operation_ok_other p L D K D' q s :
  log_ok L D -> evolves p L D K D' -> q <> p -> operation_ok L D q s -> operation_ok (L ++ K) D' q s.
Proof.
  intros HL Hev Hne Hs. eapply operation_ok_grow; [done..| |done].
  intros op st v Hop _ _ Hin. destruct (ev_decided _ _ _ _ _ Hev _ _ _ Hin) as [o Ho].
  destruct (oo_op _ _ _ _ Hs op Hop) as (o' & Ho' & _).
  destruct (invoked_unique L op p o q o') as [-> _]; [apply HL|done..].
Qed.

Lemma register_ok_other p L D K D' q s :
  evolves p L D K D' -> q <> p -> register_ok D q s -> register_ok D' q s.
Proof. intros Hev Hne [H1 H2 H3 H4 H5 H6]. split; try done. by rewrite (ev_others _ _ _ _ _ Hev). Qed.

Lemma network_ok_grow p L D K D' N :
  log_ok L D -> evolves p L D K D' -> network_ok L D N -> network_ok (L ++ K) D' N.
Proof.
  intros HL [HL' HD _ _ _] HN. eapply Forall_impl; [|exact HN]. intros pk. by apply packet_ok_grow.
Qed.

(** The cluster after a step of process [p]. *)
Lemma cluster_ok_step c p s e effs s' :
  cluster_ok c ->
  evolves p (log c) (disks c) (invocation p e ++ (effs ≫= logged s e)) (alter (fun d => stored idx d effs) p (disks c)) ->
  network_ok (log (effects_on n idx p s e effs s' c)) (disks (effects_on n idx p s e effs s' c)) (effs ≫= sent n) ->
  register_ok (disks (effects_on n idx p s e effs s' c)) p s' ->
  operation_ok (log (effects_on n idx p s e effs s' c)) (disks (effects_on n idx p s e effs s' c)) p s' ->
  cluster_ok (effects_on n idx p s e effs s' c).
Proof.
  intros [H1 H2 H3 H4 H5] Hev HN Hr Ho. split; simpl in *.
  - apply Hev.
  - apply Hev.
  - apply Forall_app. split; [|done]. by eapply network_ok_grow.
  - intros q sq [[-> <-]|[Hne Hq]]%lookup_insert_Some; [done|]. eapply register_ok_other; [done|done|auto].
  - intros q sq [[-> <-]|[Hne Hq]]%lookup_insert_Some; [done|]. eapply operation_ok_other; [done|done|done|auto].
Qed.

(** ** Effects of the handlers *)

Lemma disks_grow_insert D p d d' :
  D !! p = Some d -> stamp_le (stamp_of d) (stamp_of d') -> disks_grow D (<[p := d']> D).
Proof.
  intros Hd Hle q st (d1 & Hd1 & Hst). destruct (decide (q = p)) as [->|Hne].
  - exists d'. split; [by simplify_map_eq|]. simplify_map_eq. by etrans.
  - exists d1. split; [by rewrite lookup_insert_ne|done].
Qed.

Lemma evolves_log p L D K :
  disks_ok L D -> log_ok (L ++ K) D -> (forall op st v, Decided op st v ∈ K -> exists o, Invoked op p o ∈ L) ->
  evolves p L D K D.
Proof.
  intros HD HL HK. split; [done|apply disks_grow_refl| |done|done].
  intros q d Hd. by apply origin_app, (HD _ _ Hd).
Qed.

Lemma evolves_nothing p L D : log_ok L D -> disks_ok L D -> evolves p L D [] D.
Proof. intros HL HD. apply evolves_log; [done|by rewrite app_nil_r|]. intros op st v. set_solver. Qed.

Lemma evolves_store p L D K d d' :
  disks_ok L D -> D !! p = Some d -> stamp_le (stamp_of d) (stamp_of d') -> origin (L ++ K) (stamp_of d') d'.1.1 ->
  log_ok (L ++ K) (<[p := d']> D) -> (forall op st v, Decided op st v ∈ K -> exists o, Invoked op p o ∈ L) ->
  evolves p L D K (<[p := d']> D).
Proof.
  intros HD Hd Hle Ho HL HK. split; [done|by eapply disks_grow_insert| | |done].
  - intros q d1 [[_ <-]|[_ Hq]]%lookup_insert_Some; [done|]. by apply origin_app, (HD _ _ Hq).
  - intros q Hq. by rewrite lookup_insert_ne.
Qed.

(** A restarted register knows of no operation. *)
Lemma restarted_operation_ok L D p d : operation_ok L D p (restarted n idx p d).
Proof. by split. Qed.

Lemma restarted_register_ok D p d :
  1 <= p <= n -> D !! p = Some d -> register_ok D p (restarted n idx p d).
Proof.
  intros Hp Hd. split; try done; [apply new_inv; lia|]. rewrite Hd. by destruct d as [[v t] r].
Qed.

Definition effect_ok L D (f : effect Uuid Callback) : Prop :=
  match f with Broadcast cmd | Send cmd _ => packet_ok L D cmd | Store _ _ | Complete _ _ => True end.

Lemma sent_ok L D (effs : list (effect Uuid Callback)) :
  Forall (effect_ok L D) effs -> network_ok L D (effs ≫= sent n).
Proof.
  intros Heffs. apply list.Forall_forall. intros pk (f & Hpk & Hf)%list_elem_of_bind.
  rewrite list.Forall_forall in Heffs. specialize (Heffs f Hf).
  destruct f; simpl in *; [apply list_elem_of_fmap in Hpk as (q & -> & _)|..]; set_solver.
Qed.

Section Handlers.
Variables (c : cluster (Uuid:=Uuid) (Callback:=Callback)) (p : Z) (s : state).
Hypothesis Hc : cluster_ok c.
Hypothesis Hs : registers c !! p = Some s.

Let L := log c.
Let D := disks c.
Implicit Types (effs after : list (effect Uuid Callback)) (e : event).

Lemma here_log : log_ok L D. Proof. apply Hc. Qed.
Lemma here_disks : disks_ok L D. Proof. apply Hc. Qed.
Lemma here_register : register_ok D p s. Proof. by apply Hc. Qed.
Lemma here_operation : operation_ok L D p s. Proof. by apply Hc. Qed.
Lemma here_nothing : evolves p L D [] D. Proof. apply evolves_nothing; apply Hc. Qed.

Lemma here_stored effs :
  alter (fun d => stored idx d effs) p D = <[p := stored idx (in_memory s) effs]> D.
Proof. apply (alter_as_insert (fun d => stored idx d effs)), (ro_disk _ _ _ here_register). Qed.

Lemma here_unchanged effs :
  stored idx (in_memory s) effs = in_memory s -> alter (fun d => stored idx d effs) p D = D.
Proof. intros E. rewrite here_stored, E. apply insert_id. apply (ro_disk _ _ _ here_register). Qed.

Lemma here_origin : origin L (ts s, wr s) (val s).
Proof. apply (here_disks _ _ (ro_disk _ _ _ here_register)). Qed.

Lemma here_packet cmd : (p, cmd) ∈ network c -> packet_ok L D cmd.
Proof. intros Hin. pose proof (co_network _ Hc) as HN. unfold network_ok in HN. rewrite list.Forall_forall in HN. apply (HN _ Hin). Qed.

(** The step has been taken as far as the calls [effs]. *)
Definition handled e effs : Prop :=
  let K := invocation p e ++ (effs ≫= logged s e) in
  let D' := alter (fun d => stored idx d effs) p D in
  evolves p L D K D' /\ Forall (effect_ok (L ++ K) D') effs.

(** ... entirely, and the register is [s'] now. *)
Definition completed e effs s' : Prop :=
  operation_ok (L ++ invocation p e ++ (effs ≫= logged s e)) (alter (fun d => stored idx d effs) p D) p s'.

Lemma handled_nothing cmd : handled (EvSystem cmd) [].
Proof.
  unfold handled. simpl. rewrite here_unchanged by done. split; [apply here_nothing|constructor].
Qed.

(** *** Client commands *)

Lemma client_evolves id o : (forall q o, Invoked id q o ∉ L) -> evolves p L D [Invoked id p o] D.
Proof.
  intros Hfresh. apply evolves_log; [apply here_disks|apply log_invoke; [apply here_log|done]|].
  intros op st v. set_solver.
Qed.

Lemma client_handled id cmd cb s' effs after :
  may_handle idx c p (EvClient id cmd cb) -> client_command id cmd cb s = (s', effs ++ after) ->
  handled (EvClient id cmd cb) effs.
Proof.
  intros [Hsidx Hfresh] Hcmd. pose proof (client_evolves id (c_content cmd) Hfresh) as Hev.
  assert (effs ++ after = [Broadcast {| header := {| process_identifier := p; msg_ident := id;
    sector_idx := c_sector_idx (c_header cmd) |}; content := ReadProc |}]) as E.
  { unfold client_command in Hcmd. pose proof (ro_self _ _ _ here_register) as Hp.
    destruct (c_content cmd); simpl in Hcmd; rewrite Hp in Hcmd; by injection Hcmd as _ <-. }
  unfold handled. destruct effs as [|f [|]]; simplify_eq/=; rewrite here_unchanged by done.
  - split; [done|constructor].
  - unfold logged. simpl. split; [by destruct (op_id s)|].
    constructor; [|constructor]. split; [apply here_register|]. split; [|done].
    exists p, (c_content cmd). set_solver.
Qed.

Lemma client_completed id cmd cb s' effs :
  idle s -> may_handle idx c p (EvClient id cmd cb) -> client_command id cmd cb s = (s', effs) ->
  completed (EvClient id cmd cb) effs s'.
Proof.
  intros Hidle [_ Hfresh] Hcmd. pose proof (idle_write_phase s (ro_inv _ _ _ here_register) Hidle) as Hwp.
  destruct Hidle as [Hr Hw]. unfold completed. simpl in Hfresh.
  assert (forall st v, Decided id st v ∉ L) as Hno.
  { intros st v (p' & o' & Hin & _)%(lo_decided _ _ here_log). by destruct (Hfresh p' o'). }
  unfold client_command in Hcmd. destruct cmd as [hd ct].
  destruct ct as [|w]; injection Hcmd as <- <-; unfold logged; simpl; destruct (op_id s); simpl;
    rewrite here_unchanged by done; (split; simpl; [intros op [= <-]; eexists; split; [apply elem_of_app; right; by apply list_elem_of_singleton|done]| |
      intros; by simplify_map_eq|congruence]);
    intros op [= <-] _ _ st v [Hin|Hin%list_elem_of_singleton]%elem_of_app; try done; by eapply Hno.
Qed.

(** *** READ_PROC and WRITE_PROC *)

Lemma logged_read_proc h f : logged s (EvSystem {| header := h; content := ReadProc |}) f = [].
Proof. unfold logged. by destruct (op_id s). Qed.

Lemma logged_write_proc h t r v f : logged s (EvSystem {| header := h; content := WriteProc t r v |}) f = [].
Proof. unfold logged. by destruct (op_id s). Qed.

Lemma here_at_least q st st' v v' op :
  Decided op st v ∈ L -> Decided op st' v' ∈ L -> disk_at_least D q st -> disk_at_least D q st'.
Proof. intros H1 H2. by destruct (lo_decided_once _ _ here_log op st v st' v') as [-> _]. Qed.

Lemma here_stamp st : disk_at_least D p st <-> stamp_le st (ts s, wr s).
Proof.
  unfold disk_at_least. rewrite (ro_disk _ _ _ here_register). split; [by intros (d & [= <-] & H)|eauto].
Qed.

Lemma returned_at_least op a quorum q st v :
  Returned op a quorum ∈ L -> q ∈ quorum -> Decided op st v ∈ L -> 1 <= q <= n /\ disk_at_least D q st.
Proof.
  intros Hret Hq Hdec. destruct (lo_returned _ _ here_log _ _ _ Hret) as (p0 & o0 & st1 & v1 & _ & Hd1 & _ & _ & Hall).
  destruct (Hall q Hq) as [Hr Hd]. split; [done|]. by eapply here_at_least.
Qed.

Lemma here_covers op : covers L op p (ts s, wr s).
Proof.
  intros op0 a quorum p0 o0 st0 v0 [Hret _]%precedes_elem Hq Hdec.
  apply here_stamp. by eapply returned_at_least.
Qed.

Lemma here_done cmd : completed (EvSystem cmd) [] s.
Proof. unfold completed. simpl. rewrite here_unchanged, app_nil_r by done. apply here_operation. Qed.

Lemma read_proc_handled h effs after :
  packet_ok L D {| header := h; content := ReadProc |} -> (handle_read_proc h s).2 = effs ++ after ->
  handled (EvSystem {| header := h; content := ReadProc |}) effs.
Proof.
  intros (Hq & Hop & _) E. destruct effs as [|f [|]]; simplify_eq/=; [apply handled_nothing|].
  unfold handled. rewrite here_unchanged by done. simpl. rewrite logged_read_proc. simpl.
  split; [apply here_nothing|]. rewrite app_nil_r. constructor; [|constructor].
  split; [simpl; rewrite (ro_self _ _ _ here_register); apply here_register|]. split; [done|]. simpl.
  rewrite (ro_self _ _ _ here_register). split; [apply here_origin|apply here_covers].
Qed.

Lemma decided_origin op st v : Decided op st v ∈ L -> origin L st v.
Proof.
  intros Hd. destruct (lo_decided _ _ here_log _ _ _ Hd) as (p0 & [|w] & Hi & Hok); [done|].
  destruct Hok as (-> & _). right. eauto.
Qed.

(** A register that kept its operation, with a new stored value. *)
Lemma store_keeps_operation D' t r v :
  evolves p L D [] D' ->
  operation_ok (L ++ []) D' p (s <| ts := t |> <| wr := r |> <| val := v |>).
Proof.
  intros Hev. assert (operation_ok (L ++ []) D' p s) as [H1 H2 H3 H4]; [|by split].
  eapply operation_ok_grow; [apply here_log|done|set_solver|apply here_operation].
Qed.

Lemma store_evolves op t r v :
  Decided op (t, r) v ∈ L -> stamp_lt (ts s, wr s) (t, r) -> evolves p L D [] (<[p := (v, t, r)]> D).
Proof.
  intros Hdec Hlt. assert (stamp_le (stamp_of (in_memory s)) (stamp_of (v, t, r))) as Hle by by left.
  pose proof (ro_disk _ _ _ here_register) as Hd.
  eapply evolves_store; [apply here_disks|done|done| | |set_solver]; rewrite app_nil_r.
  - by eapply decided_origin.
  - eapply log_grow_disk; [apply here_log|]. by eapply disks_grow_insert.
Qed.

Lemma write_proc_handled h t r v s' effs after :
  packet_ok L D {| header := h; content := WriteProc t r v |} ->
  handle_write_proc h t r v s = (s', effs ++ after) ->
  let e := EvSystem {| header := h; content := WriteProc t r v |} in
  handled e effs /\ (after = [] -> completed e effs s').
Proof.
  intros (Hq & Hop & Hdec) Hcmd. simpl in *.
  pose proof (ro_self _ _ _ here_register) as Hself. pose proof (ro_range _ _ _ here_register) as Hrange.
  assert (forall D', disk_at_least D' p (t, r) -> effect_ok (L ++ []) D'
    (Send {| header := {| process_identifier := self_ident s; msg_ident := msg_ident h; sector_idx := sector_idx h |};
             content := Ack |} (process_identifier h))) as Hack.
  { intros D' HD'. rewrite app_nil_r. split; simpl; rewrite Hself; [done|]. split; [done|]. by exists (t, r), v. }
  unfold handle_write_proc in Hcmd. case_decide as Hlt; injection Hcmd as <- E.
  - pose proof (store_evolves _ t r v Hdec Hlt) as Hev. simpl in E. rewrite (ro_idx _ _ _ here_register) in E.
    assert (forall fs : list (effect Uuid Callback), (forall f, f ∈ fs -> exists cmd q, f = Send cmd q) ->
      stored idx (in_memory s) (Store idx (v, t, r) :: fs) = (v, t, r)) as Hst.
    { intros fs Hfs. rewrite stored_store. induction fs as [|f fs IH]; [done|].
      destruct (Hfs f) as (cmd & q & ->); [set_solver|]. apply IH. set_solver. }
    destruct effs as [|f [|f' [|]]]; simplify_eq/=.
    + split; [apply handled_nothing|done].
    + split; [|done]. unfold handled. rewrite here_stored, Hst by set_solver. simpl. rewrite logged_write_proc.
      split; [done|]. by repeat constructor.
    + unfold handled, completed. rewrite here_stored, Hst by (intros f ->%list_elem_of_singleton; eauto). simpl.
      rewrite !logged_write_proc. split; [split; [done|]|intros _; by apply store_keeps_operation].
      constructor; [done|]. constructor; [|constructor]. apply Hack. exists (v, t, r). by simplify_map_eq.
  - destruct effs as [|f [|]]; simplify_eq/=; [split; [apply handled_nothing|done]|].
    unfold handled, completed. rewrite here_unchanged by done. simpl. rewrite !logged_write_proc. split.
    + split; [apply here_nothing|]. constructor; [|constructor]. apply Hack, here_stamp. by apply stamp_not_lt.
    + intros _. simpl. rewrite app_nil_r. apply here_operation.
Qed.

(** *** ACK *)

(** The operation that the register is imposing a value for. *)
Lemma here_imposing op :
  op_id s = Some op -> write_phase s = true -> busy s ->
  exists o st v, Invoked op p o ∈ L /\ Decided op st v ∈ L /\
    (if reading s then ReadReturn (readval s) else WriteReturn) =
      match o with Read => ReadReturn v | Write _ => WriteReturn end /\
    forall q, q ∈ acklist s -> 1 <= q <= n /\ disk_at_least D q st.
Proof.
  intros Hop Hwp Hb. destruct (oo_op _ _ _ _ here_operation op Hop) as (o & Hinv & Ho). specialize (Ho Hb).
  destruct (oo_decided _ _ _ _ here_operation op Hop Hwp) as (st & v & Hdec & Hrv & Hal).
  exists o, st, v. split_and!; [done..| |done]. destruct o as [|w].
  - by rewrite Ho, (Hrv Ho).
  - by destruct Ho as [-> _].
Qed.

Lemma ack_quorum h op st v :
  packet_ok L D {| header := h; content := Ack |} -> msg_ident h = op -> Decided op st v ∈ L ->
  (forall q, q ∈ acklist s -> 1 <= q <= n /\ disk_at_least D q st) ->
  forall q, q ∈ {[ process_identifier h ]} ∪ acklist s -> 1 <= q <= n /\ disk_at_least D q st.
Proof.
  intros (Hq & _ & st' & v' & Hdec' & Hd) <- Hdec Hal q [->%elem_of_singleton|Hin]%elem_of_union; [|by apply Hal].
  split; [done|]. exact (here_at_least _ _ _ _ _ _ Hdec' Hdec Hd).
Qed.

Lemma returned_evolves h op :
  packet_ok L D {| header := h; content := Ack |} -> op_id s = Some op -> msg_ident h = op ->
  write_phase s = true -> busy s -> majority (size ({[ process_identifier h ]} ∪ acklist s)) s ->
  evolves p L D [Returned op (if reading s then ReadReturn (readval s) else WriteReturn)
                   ({[ process_identifier h ]} ∪ acklist s)] D.
Proof.
  intros Hpk Hop Hid Hwp Hb Hm. destruct (here_imposing op Hop Hwp Hb) as (o & st & v & Hinv & Hdec & Ha & Hal).
  apply evolves_log; [apply here_disks| |set_solver].
  eapply log_return; [apply here_log|done..| |by eapply ack_quorum].
  unfold majority in Hm. by rewrite (ro_count _ _ _ here_register) in Hm.
Qed.

(** After the answer, the register waits for the next command. *)
Lemma returned_completed K s' :
  evolves p L D K D -> op_id s' = op_id s -> readlist s' = readlist s -> ~ busy s' ->
  write_phase s' = false -> operation_ok (L ++ K) D p s'.
Proof.
  intros Hev Eop Erl Hnb Hwp. pose proof (ev_log _ _ _ _ _ Hev) as HL'.
  destruct here_operation as [H1 H2 H3 H4]. split; rewrite ?Eop, ?Erl.
  - intros op (o & Hinv & _)%H1. exists o. split; [set_solver|done].
  - done.
  - intros op q st v Hop Hrl. destruct (H1 op Hop) as (o & Hinv & _). destruct (H3 _ _ _ _ Hop Hrl) as (Hq & Ho & Hcov).
    split; [done|]. split; [by apply origin_app|]. eapply covers_app; [apply here_log|done..].
  - congruence.
Qed.

Lemma ack_handled h s' effs after :
  packet_ok L D {| header := h; content := Ack |} -> ack_case s h s' (effs ++ after) ->
  let e := EvSystem {| header := h; content := Ack |} in
  handled e effs /\ (after = [] -> completed e effs s').
Proof.
  intros Hpk Hcase e. pose proof (ro_inv _ _ _ here_register) as Hinv.
  remember (effs ++ after) as fs eqn:E.
  destruct Hcase as [op Hop _|op al Hop Hid Hwp -> _|op cb rq Hop Hid Hwp Hm Hr Hcb Hrid
    |op cb rq Hop Hid Hwp Hm Hr Hw Hcb Hrid|op s' _ _ _ Hb Hno _].
  - destruct effs; simplify_eq/=. split; [apply handled_nothing|intros _; apply here_done].
  - destruct effs; simplify_eq/=. split; [apply handled_nothing|intros _].
    unfold completed. rewrite here_unchanged by done. simpl. rewrite app_nil_r.
    destruct here_operation as [H1 H2 H3 H4]. split; try done. simpl. intros op' Hop' _.
    assert (op' = msg_ident h) as -> by congruence. destruct (H4 _ Hop Hwp) as (st & v & Hdec & Hrv & Hal).
    exists st, v. split_and!; [done..|]. by eapply ack_quorum.
  - destruct effs as [|f [|]]; simplify_eq/=; [split; [apply handled_nothing|done]|].
    assert (busy s) as Hb by by left. pose proof (returned_evolves h _ Hpk Hop eq_refl Hwp Hb Hm) as Hev.
    rewrite Hr in Hev. unfold handled, completed, logged. rewrite here_unchanged by done. simpl. rewrite Hop.
    split; [split; [done|by repeat constructor]|]. intros _. apply returned_completed; try done.
    intros [?|?]; simpl in *; [done|]. rewrite (inv_exclusive _ Hinv Hr) in *. done.
  - destruct effs as [|f [|]]; simplify_eq/=; [split; [apply handled_nothing|done]|].
    assert (busy s) as Hb by by right. pose proof (returned_evolves h _ Hpk Hop eq_refl Hwp Hb Hm) as Hev.
    rewrite Hr in Hev. unfold handled, completed, logged. rewrite here_unchanged by done. simpl. rewrite Hop.
    split; [split; [done|by repeat constructor]|]. intros _. apply returned_completed; try done.
    intros [?|?]; simpl in *; congruence.
  - apply (inv_callback _ Hinv) in Hb as [cb Hcb]. congruence.
Qed.

(** *** VALUE *)

Section Collected.
Variables (h : SystemCommandHeader Uuid) (op : Uuid) (t : u64) (r : u8) (v : SectorVec).
Hypothesis Hpk : packet_ok L D {| header := h; content := Value t r v |}.
Hypothesis Hop : op_id s = Some op.
Hypothesis Hid : msg_ident h = op.

Let collected := <[process_identifier h := ((t, r), v)]> (readlist s).

Lemma collected_entry q st v' :
  collected !! q = Some (st, v') -> 1 <= q <= n /\ origin L st v' /\ covers L op q st.
Proof.
  destruct Hpk as (Hq & _ & Ho & Hcov). simpl in *. intros [[<- [= <- <-]]|[_ Hrl]]%lookup_insert_Some.
  - rewrite Hid in Hcov. done.
  - by apply (oo_readlist _ _ _ _ here_operation).
Qed.

Lemma full_entry q st v' :
  full_readlist s h t r v !! q = Some (st, v') ->
  (q = p /\ st = (ts s, wr s) /\ v' = val s) \/ (q <> p /\ collected !! q = Some (st, v')).
Proof.
  unfold full_readlist. rewrite (ro_self _ _ _ here_register).
  intros [[<- [= <- <-]]|[Hne H]]%lookup_insert_Some; [by left|right]. done.
Qed.

Lemma full_origin q st v' : full_readlist s h t r v !! q = Some (st, v') -> origin L st v'.
Proof.
  intros [(_ & -> & ->)|[_ H]]%full_entry; [apply here_origin|]. by apply collected_entry in H as (_ & ? & _).
Qed.

(** The quorum of an earlier operation is met by the collected replies. *)
Lemma earlier_reported op0 a quorum p' o st0 v0 :
  majority (size collected) s -> precedes (Returned op0 a quorum) (Invoked op p' o) L -> Decided op0 st0 v0 ∈ L ->
  exists q en, full_readlist s h t r v !! q = Some en /\ stamp_le st0 en.1.
Proof.
  intros Hm Hpre Hdec. pose proof (precedes_elem _ _ _ Hpre) as [Hret _].
  destruct (lo_returned _ _ here_log _ _ _ Hret) as (p0 & o0 & st1 & v1 & _ & _ & _ & Hm0 & _).
  assert (forall q, q ∈ quorum -> 1 <= q <= n /\ disk_at_least D q st0) as Hq0
    by (intros q Hq; by eapply returned_at_least).
  destruct (quorums_meet n (dom collected) quorum) as (q & Hq & Hqq).
  - pose proof (ro_range _ _ _ here_register). lia.
  - intros q [[st v'] H]%elem_of_dom. by apply collected_entry in H as (? & _).
  - intros q Hq. by apply Hq0.
  - unfold majority in Hm. rewrite (ro_count _ _ _ here_register) in Hm. by rewrite size_dom.
  - done.
  - apply elem_of_dom in Hq as [[st v'] Hq]. pose proof (ro_self _ _ _ here_register) as Hself.
    destruct (decide (q = p)) as [->|Hne].
    + exists p, ((ts s, wr s), val s). split; [unfold full_readlist; rewrite Hself; by simplify_map_eq|].
      apply here_stamp. by apply Hq0.
    + exists q, (st, v'). split; [unfold full_readlist; rewrite Hself; by rewrite lookup_insert_ne|].
      apply collected_entry in Hq as (_ & _ & Hcov). by eapply Hcov.
Qed.

Hypothesis Hwp : write_phase s = false.
Hypothesis Hm : majority (size collected) s.

Lemma read_decided_evolves k maxts rr v' :
  reading s = true -> full_readlist s h t r v !! k = Some ((maxts, rr), v') ->
  map_Forall (fun _ en => stamp_le en.1 (maxts, rr)) (full_readlist s h t r v) ->
  evolves p L D [Decided op (maxts, rr) v'] D.
Proof.
  intros Hr Hk Hhigh. assert (busy s) as Hb by by left.
  destruct (oo_op _ _ _ _ here_operation op Hop) as (o & Hinv & Ho). specialize (Ho Hb).
  destruct o as [|w]; [|destruct Ho; congruence].
  apply evolves_log; [apply here_disks| |intros op' st v'' [= -> _ _]%list_elem_of_singleton; eauto].
  eapply log_decide; [apply here_log|apply disks_grow_refl|done|exact (oo_undecided _ _ _ _ here_operation op Hop Hb Hwp)
    |by eapply full_origin|done|].
  intros op0 a quorum st0 v0 Hpre Hdec. split; [|done].
  destruct (earlier_reported op0 a quorum p Read st0 v0) as (q & en & Hq & Hle); [done..|].
  etrans; [exact Hle|]. apply (Hhigh _ _ Hq).
Qed.

Lemma origin_nonneg st v' : origin L st v' -> 0 <= st.1.
Proof.
  intros [[-> _]|(op' & p' & Hinv & Hdec)]; [done|].
  destruct (lo_decided _ _ here_log _ _ _ Hdec) as (p1 & o1 & Hinv1 & Hok).
  destruct (invoked_unique L op' p' (Write v') p1 o1) as [_ <-]; [apply here_log|done..|].
  destruct Hok as (_ & _ & Hpos & _). lia.
Qed.

Lemma write_decided_evolves ts' :
  reading s = false -> writing s = true ->
  map_Forall (fun _ en => en.1.1 < ts') (full_readlist s h t r v) ->
  evolves p L D [Decided op (ts', p) (writeval s)] (<[p := (writeval s, ts', p)]> D).
Proof.
  intros Hr Hw Hhigh. assert (busy s) as Hb by by right.
  destruct (oo_op _ _ _ _ here_operation op Hop) as (o & Hinv & Ho). specialize (Ho Hb).
  destruct o as [|w]; [congruence|]. destruct Ho as [_ Ho].
  assert (ts s < ts') as Hts.
  { apply (Hhigh p ((ts s, wr s), val s)). unfold full_readlist. rewrite (ro_self _ _ _ here_register). by simplify_map_eq. }
  assert (0 < ts') as Hpos. { pose proof (origin_nonneg _ _ (here_origin)). simpl in *. lia. }
  assert (stamp_le (stamp_of (in_memory s)) (stamp_of (writeval s, ts', p))) as Hle by (by left; left).
  pose proof (ro_disk _ _ _ here_register) as Hd.
  eapply evolves_store; [apply here_disks|done|done| | |intros op' st v'' [= -> _ _]%list_elem_of_singleton; eauto].
  - right. exists op, p. rewrite Ho. set_solver.
  - eapply log_decide; [apply here_log|by eapply disks_grow_insert|done|exact (oo_undecided _ _ _ _ here_operation op Hop Hb Hwp)
      | | |].
    + split; [done|]. split; [done|]. split; [done|]. exists (writeval s, ts', p). by simplify_map_eq.
    + intros _ H%here_stamp. stamp_solve.
    + intros op0 a quorum st0 v0 Hpre Hdec.
      destruct (earlier_reported op0 a quorum p (Write w) st0 v0) as (q & en & Hq & Hst); [done..|].
      pose proof (Hhigh _ _ Hq) as Hlt. simpl in Hlt. destruct en as [st1 v1]. simpl in *.
      assert (stamp_lt st0 (ts', p)); [stamp_solve|]. split; [by left|done].
Qed.

End Collected.

(** After a decision, the register collects acknowledgements of it. *)
Lemma decided_completed K D' s' op st v :
  log_ok (L ++ K) D' -> op_id s' = Some op -> op_id s = Some op -> busy s ->
  reading s' = reading s -> writeval s' = writeval s -> readlist s' = ∅ -> acklist s' = ∅ -> write_phase s' = true ->
  Decided op st v ∈ K -> (reading s = true -> readval s' = v) -> operation_ok (L ++ K) D' p s'.
Proof.
  intros HL' Eop' Eop Hb Er Ew Erl Eal Ewp Hdec Hrv. destruct here_operation as [H1 H2 H3 H4]. split.
  - intros op' Hop'. assert (op' = op) as -> by congruence. destruct (H1 op Eop) as (o & Hinv & Ho).
    exists o. split; [set_solver|]. rewrite Er, Ew. intros _. exact (Ho Hb).
  - congruence.
  - rewrite Erl. intros. by simplify_map_eq.
  - intros op' Hop' _. assert (op' = op) as -> by congruence. exists st, v.
    split; [set_solver|]. rewrite Er, Eal. split; [done|set_solver].
Qed.

Lemma decided_effect_ok K D' h op t r v :
  op_id s = Some op -> Decided op (t, r) v ∈ K ->
  effect_ok (L ++ K) D' (Broadcast {| header := reply_header s h op; content := WriteProc t r v |}).
Proof.
  intros Hop Hdec. pose proof (ro_self _ _ _ here_register) as Hself. unfold effect_ok, packet_ok. simpl.
  rewrite Hself. split; [apply here_register|]. destruct (oo_op _ _ _ _ here_operation op Hop) as (o & Hinv & _).
  split; [exists p, o|]; set_solver.
Qed.

Lemma value_handled iter h t r v s' effs after :
  let e := EvSystem {| header := h; content := Value t r v |} in
  packet_ok L D {| header := h; content := Value t r v |} -> iter_ok iter ->
  value_case oc iter s h t r v s' (effs ++ after) -> Forall (picks_highest s e) (effs ++ after) ->
  handled e effs /\ (after = [] -> completed e effs s').
Proof.
  intros e Hpk Hiter Hcase Hpick. remember (effs ++ after) as fs eqn:E.
  destruct Hcase as [op Hop _|op rl Hop Hid Hwp -> _|op k mt rr v' Hop Hid Hwp Hm Hr Hmax
                    |op k mt rr v' ts' Hop Hid Hwp Hm Hr Hw Hmax Hadd].
  - destruct effs; simplify_eq/=. split; [apply handled_nothing|intros _; apply here_done].
  - destruct effs; simplify_eq/=. split; [apply handled_nothing|intros _].
    unfold completed. rewrite here_unchanged by done. simpl. rewrite app_nil_r.
    destruct here_operation as [H1 H2 H3 H4]. split; try done. simpl. intros op' q st v' Hop'.
    intros Hrl. eapply (collected_entry h op' t r v); [done|exact Hop'|congruence|exact Hrl].
  - rewrite list.Forall_singleton in Hpick. simpl in Hpick. rewrite Hr in Hpick.
    apply picked_entry in Hmax; [|done].
    pose proof (read_decided_evolves h op t r v Hpk Hop Hid Hwp Hm k mt rr v' Hr Hmax Hpick) as Hev.
    destruct effs as [|f [|]]; simplify_eq/=; [split; [apply handled_nothing|done]|].
    unfold handled, completed, logged. rewrite here_unchanged by done. simpl. rewrite Hop, Hr. simpl.
    split; [split; [done|]|].
    + constructor; [|constructor]. apply decided_effect_ok; set_solver.
    + intros _. eapply decided_completed; [apply Hev|done|exact Hop|by left|done|done|done|done|done|by apply list_elem_of_singleton|done].
  - apply Forall_cons_1 in Hpick as [_ Hpick]. rewrite list.Forall_singleton in Hpick. simpl in Hpick. rewrite Hr in Hpick.
    pose proof (write_decided_evolves h op t r v Hpk Hop Hid Hwp Hm ts' Hr Hw Hpick) as Hev.
    rewrite (ro_idx _ _ _ here_register), (ro_self _ _ _ here_register) in E.
    destruct effs as [|f [|f' [|]]]; simplify_eq/=; [split; [apply handled_nothing|done]|split; [|done]|].
    + unfold handled, logged. rewrite here_stored, stored_store. simpl. rewrite Hop. split; [done|by repeat constructor].
    + unfold handled, completed, logged. rewrite here_stored, stored_store. simpl. rewrite Hop, Hr. simpl.
      split; [split; [done|]|].
      * constructor; [done|]. constructor; [|constructor]. apply decided_effect_ok; set_solver.
      * intros _. eapply decided_completed; [apply Hev|done|exact Hop|by right|done|done|done|done|done|by apply list_elem_of_singleton|]. simpl. congruence.
Qed.

Lemma step_handled e s' effs after :
  may_handle idx c p e -> step oc s e s' (effs ++ after) -> Forall (picks_highest s e) (effs ++ after) ->
  handled e effs /\ (after = [] -> completed e effs s').
Proof.
  intros Hmay Hstep Hpick. remember (effs ++ after) as fs eqn:E.
  destruct Hstep as [id cmd cb s' fs Hidle Hcmd|iter [h ct] s' fs Hiter Hsys]; subst fs.
  - split; [by eapply client_handled|]. intros ->. rewrite app_nil_r in Hcmd. by eapply client_completed.
  - apply here_packet in Hmay. unfold system_command in Hsys. simpl in Hsys. destruct ct as [|t r v|t r v|].
    + injection Hsys as <- Heffs. split; [by eapply read_proc_handled|]. intros ->.
      unfold completed. rewrite app_nil_r in Heffs. subst effs. rewrite here_unchanged by done. simpl.
      rewrite logged_read_proc. simpl. rewrite app_nil_r. apply here_operation.
    + eapply value_handled; [done..| |done]. by apply handle_value_cases.
    + eapply write_proc_handled; [done|]. by injection Hsys.
    + eapply ack_handled; [done|]. by apply handle_ack_cases.
Qed.

Lemma step_register_ok e s' effs :
  step oc s e s' effs -> register_ok (alter (fun d => stored idx d effs) p D) p s'.
Proof.
  intros Hstep. pose proof here_register as [H1 H2 H3 H4 H5 H6].
  destruct (step_same_identity _ _ _ _ _ Hstep) as (E1 & E2 & E3).
  split; [done|congruence..| |].
  - eapply step_inv; [|exact H5|exact Hstep]. lia.
  - rewrite here_stored, <- H4, (step_stored _ _ _ _ _ Hstep). by simplify_map_eq.
Qed.

End Handlers.

Lemma cluster_ok_preserved c c' : cluster_ok c -> cluster_step oc n idx picks_highest c c' -> cluster_ok c'.
Proof.
  intros Hc Hstep.
  destruct Hstep as [p s e s' effs Hs Hmay Hstep Hpick|p s e s' effs after d Hs Hmay Hstep Hpick Hd|p s d Hs Hd].
  - rewrite <- (app_nil_r effs) in Hstep, Hpick.
    destruct (step_handled c p s Hc Hs e s' effs [] Hmay Hstep Hpick) as [[Hev Heffs] Hdone].
    rewrite app_nil_r in Hstep. apply cluster_ok_step; [done|exact Hev|by apply sent_ok| |by apply Hdone].
    by eapply step_register_ok.
  - destruct (step_handled c p s Hc Hs e s' effs after Hmay Hstep Hpick) as [[Hev Heffs] _].
    apply cluster_ok_step; [done|exact Hev|by apply sent_ok| |apply restarted_operation_ok].
    apply restarted_register_ok; [by apply (ro_range _ _ _ (co_registers _ Hc _ _ Hs))|].
    simpl. by rewrite lookup_alter_eq, Hd.
  - destruct Hc as [H1 H2 H3 H4 H5]. split; simpl; try done.
    + intros q sq [[-> <-]|[_ Hq]]%lookup_insert_Some; [|auto]. apply restarted_register_ok; [|done].
      by apply (ro_range _ _ _ (H4 _ _ Hs)).
    + intros q sq [[-> <-]|[_ Hq]]%lookup_insert_Some; [apply restarted_operation_ok|auto].
Qed.

Lemma start_ok : cluster_ok (start n idx).
Proof.
  split.
  - split; try (intros; set_solver).
    + constructor.
    + intros l1 op a quorum l2 E. by destruct l1.
  - intros p d ->%start_disk_inv. by left.
  - constructor.
  - intros p s [Hp ->]%start_register. split; try done; [apply new_inv; lia|]. by apply start_disk.
  - intros p s [Hp ->]%start_register. by split.
Qed.

Lemma reaches_ok c : cluster_reaches oc n idx picks_highest c -> cluster_ok c.
Proof. revert c. apply cluster_invariant; [apply start_ok|]. intros c c' _. apply cluster_ok_preserved. Qed.

(** ** The history of a run and its linearization *)

Definition action_of (x : log_event) : option (action Uuid) :=
  match x with
  | Invoked op _ o => Some (Inv op o)
  | Returned op a _ => Some (Res op a)
  | Decided _ _ _ => None
  end.

(** What clients see of a run. *)
Definition history_of L : list (action Uuid) := omap action_of L.

Definition decision L op : option (stamp * SectorVec) :=
  head (omap (fun x => match x with Decided op' st v => if decide (op' = op) then Some (st, v) else None | _ => None end) L).

Definition has_returned L op : bool :=
  existsb (fun x => match x with Returned op' _ _ => bool_decide (op' = op) | _ => false end) L.

(** The operation that the entry [x] at position [i] begins: a write counts
    once it is decided, a read once it has returned. *)
Definition stamped_at L (i : nat) (x : log_event) : option stamped :=
  match x with
  | Invoked op _ o =>
      '(st, v) ← decision L op;
      match o with
      | Write _ => Some {| operation_of := {| o_op := op; o_content := o; o_answer := WriteReturn |};
                           stamp_at := st; invoked_at := i |}
      | Read =>
          if has_returned L op then
            Some {| operation_of := {| o_op := op; o_content := o; o_answer := ReadReturn v |};
                    stamp_at := st; invoked_at := i |}
          else None
      end
  | _ => None
  end.

Definition stamped_operations L : list stamped := omap id (imap (stamped_at L) L).

Lemma decision_spec L D op st v : log_ok L D -> decision L op = Some (st, v) <-> Decided op st v ∈ L.
Proof.
  intros HL. unfold decision.
  assert (forall st v, Decided op st v ∈ L <-> (st, v) ∈ omap (fun x => match x with
    Decided op' st v => if decide (op' = op) then Some (st, v) else None | _ => None end) L) as Hin.
  { intros st' v'. rewrite list_elem_of_omap. split.
    - intros H. exists (Decided op st' v'). by rewrite decide_True.
    - intros ([|op' st1 v1|] & Hx & E); try done. case_decide; [|done]. by simplify_eq. }
  split.
  - intros Hh%head_Some_elem_of. by apply Hin.
  - intros Hd. destruct (omap _ L) as [|[st' v'] l] eqn:E; [apply Hin in Hd; set_solver|]. simpl.
    destruct (lo_decided_once _ _ HL op st v st' v') as [-> ->]; [done| |done]. apply Hin. set_solver.
Qed.

Lemma has_returned_spec L op : has_returned L op = true <-> exists a quorum, Returned op a quorum ∈ L.
Proof.
  unfold has_returned. rewrite existsb_exists. split.
  - intros ([| |op' a quorum] & Hx & E); try done. apply bool_decide_eq_true in E as ->.
    apply list_elem_of_In in Hx. eauto.
  - intros (a & quorum & H). exists (Returned op a quorum). split; [by apply list_elem_of_In|].
    by apply bool_decide_eq_true.
Qed.

(** The operations of the linearization, read off the log. *)
Lemma stamped_operations_spec L D x :
  log_ok L D ->
  x ∈ stamped_operations L <->
  exists p v, L !! invoked_at x = Some (Invoked (o_op (operation_of x)) p (o_content (operation_of x))) /\
    Decided (o_op (operation_of x)) (stamp_at x) v ∈ L /\
    match o_content (operation_of x) with
    | Write _ => o_answer (operation_of x) = WriteReturn
    | Read => o_answer (operation_of x) = ReadReturn v /\ has_returned L (o_op (operation_of x)) = true
    end.
Proof.
  intros HL. unfold stamped_operations. rewrite list_elem_of_omap. split.
  - intros (y & Hy & E). simpl in E. subst y. apply elem_of_lookup_imap in Hy as (i & y & E & Hi).
    destruct y as [op p o| |]; simpl in E; try done.
    destruct (decision L op) as [[st v]|] eqn:Hd; [|done]. apply (decision_spec L D) in Hd; [|done]. simpl in E.
    exists p, v. destruct o as [|w].
    + destruct (has_returned L op) eqn:Hr; [|done]. by injection E as ->.
    + by injection E as ->.
  - intros (p & v & Hi & Hd & Hans). exists (Some x). split; [|done]. apply elem_of_lookup_imap.
    eexists _, _. split; [|exact Hi]. simpl. apply (decision_spec L D) in Hd as ->; [|done]. simpl.
    destruct x as [[op o a] st i]. simpl in *. destruct o as [|w]; [destruct Hans as [-> ->]|rewrite Hans]; done.
Qed.

Lemma ops_sublist (f : nat -> log_event -> option (stamped (Op:=Uuid))) L :
  (forall i y x, f i y = Some x -> id_of y = Some (o_op (operation_of x))) ->
  sublist ((fun x => o_op (operation_of x)) <$> omap id (imap f L)) (ids L).
Proof.
  revert f. induction L as [|y L IH]; intros f Hf; [constructor|].
  specialize (IH (f ∘ S)). simpl. unfold ids in *. simpl. destruct (f 0%nat y) as [x|] eqn:E; simpl.
  - rewrite (Hf _ _ _ E). constructor. apply IH. intros i. apply (Hf (S i)).
  - destruct (id_of y); [constructor|]; apply IH; intros i; apply (Hf (S i)).
Qed.

Lemma stamped_once L D : log_ok L D -> NoDup ((fun x => o_op (operation_of x)) <$> stamped_operations L).
Proof.
  intros HL. apply (sublist_NoDup _ (ids L)); [apply HL|]. apply ops_sublist.
  intros i [op p o| |] x; simpl; [|done..]. destruct (decision L op) as [[st v]|]; [|done]. simpl.
  destruct o; [destruct (has_returned L op); [|done]|]; by intros [= <-].
Qed.

(** Positions of the log. *)
Lemma invoked_index L i j op p o p' o' :
  NoDup (ids L) -> L !! i = Some (Invoked op p o) -> L !! j = Some (Invoked op p' o') -> (i <= j)%nat.
Proof.
  intros Hnd Hi Hj. destruct (Nat.le_gt_cases i j) as [|Hlt]; [done|]. exfalso.
  rewrite <- (take_drop i L) in Hnd. eapply (invoked_not_again (take i L) (drop i L) op); [done| |].
  - apply (list_elem_of_lookup_2 _ j). by rewrite lookup_take_lt.
  - apply (list_elem_of_lookup_2 _ 0). rewrite lookup_drop. by rewrite Nat.add_0_r.
Qed.

Lemma returned_index L D op a quorum op' p' o' i j p o :
  log_ok L D -> precedes (Returned op a quorum) (Invoked op' p' o') L ->
  L !! i = Some (Invoked op p o) -> L !! j = Some (Invoked op' p' o') -> (i < j)%nat.
Proof.
  intros HL (l1 & l2 & l3 & E) Hi Hj.
  destruct (lo_invoked_first _ _ HL _ _ _ _ _ E) as (p1 & o1 & [k Hk]%list_elem_of_lookup).
  pose proof (lookup_lt_Some _ _ _ Hk) as Hlen.
  assert (L !! k = Some (Invoked op p1 o1)) as HLk by (rewrite E; by apply lookup_app_l_Some).
  assert (L !! (length l1 + S (length l2))%nat = Some (Invoked op' p' o')) as HLj.
  { rewrite E, lookup_app_r by lia. replace (_ - _)%nat with (S (length l2)) by lia. simpl. by apply list_lookup_middle. }
  pose proof (invoked_index L i k op p o p1 o1 (lo_ids _ _ HL) Hi HLk).
  pose proof (invoked_index L _ j op' p' o' p' o' (lo_ids _ _ HL) HLj Hj). lia.
Qed.

Lemma history_precedes L op a op' o' :
  precedes (Res op a) (Inv op' o') (history_of L) ->
  exists quorum p', precedes (Returned op a quorum) (Invoked op' p' o') L.
Proof.
  intros (l1 & l2 & l3 & E). destruct (omap_split _ _ _ _ _ E) as (k1 & x & k2 & -> & Hx & _ & E').
  destruct (omap_split _ _ _ _ _ E') as (k3 & y & k4 & -> & Hy & _ & _).
  destruct x as [| |op1 a1 quorum], y as [op2 p' o2| |]; simplify_eq/=. exists quorum, p', k1, k3, k4. done.
Qed.

Lemma stamped_unique L D x y :
  log_ok L D -> x ∈ stamped_operations L -> y ∈ stamped_operations L ->
  o_op (operation_of x) = o_op (operation_of y) -> x = y.
Proof.
  intros HL Hx Hy E. pose proof (stamped_once L D HL) as Hnd. revert Hx Hy.
  induction (stamped_operations L) as [|z l IH]; [set_solver|]. simpl in Hnd.
  apply list.NoDup_cons in Hnd as [Hz Hnd].
  assert (forall u, u ∈ l -> o_op (operation_of z) <> o_op (operation_of u)) as Hne.
  { intros u Hu Eu. apply Hz. rewrite Eu. apply list_elem_of_fmap. eauto. }
  intros [->|Hx]%elem_of_cons [->|Hy]%elem_of_cons; [done|by destruct (Hne y)|by destruct (Hne x)|by apply IH].
Qed.

Lemma stamped_write L D op p w st v :
  log_ok L D -> Invoked op p (Write w) ∈ L -> Decided op st v ∈ L ->
  exists x, x ∈ stamped_operations L /\ o_op (operation_of x) = op /\ o_content (operation_of x) = Write w /\
    o_answer (operation_of x) = WriteReturn /\ stamp_at x = st.
Proof.
  intros HL [i Hi]%list_elem_of_lookup Hd.
  exists {| operation_of := {| o_op := op; o_content := Write w; o_answer := WriteReturn |}; stamp_at := st; invoked_at := i |}.
  split; [|done]. apply (stamped_operations_spec L D); [done|]. by exists p, v.
Qed.

(** The facts about a decided write in the linearization. *)
Lemma stamped_write_inv L D x :
  log_ok L D -> x ∈ stamped_operations L -> is_write x ->
  exists p w, Invoked (o_op (operation_of x)) p (Write w) ∈ L /\ Decided (o_op (operation_of x)) (stamp_at x) w ∈ L /\
    o_answer (operation_of x) = WriteReturn /\ 0 < (stamp_at x).1.
Proof.
  intros HL Hx [w Hw]. apply (stamped_operations_spec L D) in Hx as (p & v & Hi & Hd & Ha); [|done].
  rewrite Hw in Hi, Ha. apply list_elem_of_lookup_2 in Hi.
  destruct (lo_decided _ _ HL _ _ _ Hd) as (p1 & o1 & Hi1 & Hok).
  destruct (invoked_unique L _ p (Write w) p1 o1 (lo_ids _ _ HL) Hi Hi1) as [<- <-].
  destruct Hok as (-> & _ & Hpos & _). by exists p, w.
Qed.

Lemma stamped_executable L D : log_ok L D -> executable (0, 0) zero_sector (stamped_operations L).
Proof.
  intros HL. split.
  - intros x Hx Hw. destruct (stamped_write_inv L D x HL Hx Hw) as (p & w & _ & _ & _ & Hpos). by left.
  - intros x Hx Hw. by destruct (stamped_write_inv L D x HL Hx Hw) as (p & w & _ & _ & Ha & _).
  - intros x y Hx Hy Hwx Hwy E.
    destruct (stamped_write_inv L D x HL Hx Hwx) as (p & w & Hi & Hd & _).
    destruct (stamped_write_inv L D y HL Hy Hwy) as (p' & w' & Hi' & Hd' & _).
    rewrite E in Hd. eapply stamped_unique; [done..|]. exact (lo_writes _ _ HL _ _ _ _ _ _ _ _ _ Hi Hi' Hd Hd').
  - intros x Hx Hr. apply (stamped_operations_spec L D) in Hx as (p & v & Hi & Hd & Ha); [|done].
    rewrite Hr in Hi, Ha. destruct Ha as [Ha _]. exists v. split; [done|].
    apply list_elem_of_lookup_2 in Hi. destruct (lo_decided _ _ HL _ _ _ Hd) as (p1 & o1 & Hi1 & Hok).
    destruct (invoked_unique L _ p Read p1 o1 (lo_ids _ _ HL) Hi Hi1) as [<- <-].
    destruct Hok as [?|(op' & p' & Hi' & Hd')]; [by left|right].
    destruct (stamped_write L D op' p' v (stamp_at x) v HL Hi' Hd') as (y & Hy & _ & Hc & _ & Hst). by exists y.
Qed.

Lemma stamped_returned L D op a :
  log_ok L D -> Res op a ∈ history_of L ->
  exists x, x ∈ stamped_operations L /\ o_op (operation_of x) = op /\ o_answer (operation_of x) = a.
Proof.
  intros HL (y & Hy & E)%list_elem_of_omap. destruct y as [| |op' a' quorum]; simplify_eq/=.
  destruct (lo_returned _ _ HL _ _ _ Hy) as (p & o & st & v & Hi & Hd & -> & _).
  destruct o as [|w].
  - apply list_elem_of_lookup in Hi as [i Hi].
    exists {| operation_of := {| o_op := op; o_content := Read; o_answer := ReadReturn v |}; stamp_at := st; invoked_at := i |}.
    split; [|done]. apply (stamped_operations_spec L D); [done|]. exists p, v. split_and!; try done.
    split; [done|]. apply has_returned_spec. eauto.
  - destruct (stamped_write L D op p w st v HL Hi Hd) as (x & Hx & Ho & _ & Ha & _). by exists x.
Qed.

Lemma stamped_real_time L D op a op' o' x y :
  log_ok L D -> precedes (Res op a) (Inv op' o') (history_of L) ->
  x ∈ stamped_operations L -> y ∈ stamped_operations L -> o_op (operation_of x) = op -> o_op (operation_of y) = op' ->
  stamp_le (stamp_at x) (stamp_at y) /\ (is_write y -> stamp_lt (stamp_at x) (stamp_at y)) /\
  (invoked_at x < invoked_at y)%nat.
Proof.
  intros HL (quorum & p' & Hpre)%history_precedes Hx Hy <- <-.
  apply (stamped_operations_spec L D) in Hx as (px & vx & Hix & Hdx & _); [|done].
  apply (stamped_operations_spec L D) in Hy as (py & vy & Hiy & Hdy & _); [|done].
  destruct (invoked_unique L _ p' o' py (o_content (operation_of y)) (lo_ids _ _ HL)
    (proj2 (precedes_elem _ _ _ Hpre)) (list_elem_of_lookup_2 _ _ _ Hiy)) as [-> ->].
  destruct (lo_real_time _ _ HL _ _ _ _ _ _ _ _ _ _ Hpre Hdx Hdy) as [Hle Hlt].
  split; [done|]. split; [intros [w Hw]; apply Hlt; by rewrite Hw|]. by eapply returned_index.
Qed.

Lemma log_consistent L D : log_ok L D -> consistent (history_of L) (stamped_operations L).
Proof.
  intros HL. split.
  - by eapply stamped_once.
  - intros op a. by eapply stamped_returned.
  - intros x Hx. apply (stamped_operations_spec L D) in Hx as (p & v & Hi & _); [|done].
    apply list_elem_of_lookup_2 in Hi. apply list_elem_of_omap. by eexists.
  - by eapply stamped_executable.
  - intros op a op' o' x y. by eapply stamped_real_time.
Qed.

Lemma reaches_linearizable (c : cluster (Uuid:=Uuid) (Callback:=Callback)) :
  cluster_reaches oc n idx picks_highest c -> linearizable (history_of (log c)).
Proof. intros Hc%reaches_ok. eapply consistent_linearizable, log_consistent, Hc. Qed.

(** C2: The registers of a sector behave as one atomic sector: when every
    decision picks the highest collected value, the history that clients see
    is linearizable, whatever messages are lost, delayed or repeated and
    whenever processes crash. *)
Theorem cluster_linearizable (c : cluster (Uuid:=Uuid) (Callback:=Callback)) :
  cluster_reaches oc n idx picks_highest c -> linearizable (history_of (log c)).
Proof. apply reaches_linearizable. Qed.

End Atomicity.
