(* ===== verification/Runs.v ===== *)
(** * Runs of the registers of a sector

    A player for scripted runs of [Cluster], and what the runs show: a single
    process is linearizable as it is, three processes are not. *)

From S2P Require Import Prelude Domain AtomicRegister RegisterFacts Algorithm Linearizability Cluster Atomicity.

(** ** One process *)

Section OneProcess.
Context {Uuid Callback : Type} `{!EqDecision Uuid}.
Implicit Types (c : cluster (Uuid:=Uuid) (Callback:=Callback)) (s : AtomicRegisterState Uuid Callback).
Variable idx : SectorIdx.

(** Only the process itself replies, and a register always counts what it holds
    itself. *)
Lemma alone_full_readlist c s h t r v q en :
  cluster_ok 1 idx c -> registers c !! 1 = Some s -> op_id s = Some (msg_ident h) ->
  packet_ok 1 (log c) (disks c) {| header := h; content := Value t r v |} ->
  full_readlist s h t r v !! q = Some en -> en = ((ts s, wr s), val s).
Proof.
  intros Hc Hs Hop Hpk. destruct en as [st v']. intros H.
  destruct (full_entry 1 idx c 1 s Hc Hs h t r v q st v' H) as [(_ & -> & ->)|[Hq H']]; [done|].
  apply (collected_entry 1 idx c 1 s Hc Hs h (msg_ident h) t r v Hpk Hop eq_refl) in H' as [Hr _]. lia.
Qed.

Lemma alone_picks_highest c p s e s' effs :
  cluster_ok 1 idx c -> registers c !! p = Some s -> may_handle idx c p e -> step true s e s' effs ->
  Forall (picks_highest s e) effs.
Proof.
  intros Hc Hs Hmay Hstep. assert (p = 1) as -> by (pose proof (ro_range _ _ _ _ _ (co_registers _ _ _ Hc _ _ Hs)); lia).
  destruct Hstep as [id cmd cb s' effs _ _|iter [h ct] s' effs Hiter Hsys].
  { apply list.Forall_forall. by intros f _. }
  destruct ct as [|t r v|t r v|]; try (apply list.Forall_forall; by intros f _).
  apply handle_value_cases in Hsys.
  assert (packet_ok 1 (log c) (disks c) {| header := h; content := Value t r v |}) as Hpk
    by by eapply (here_packet 1 idx c 1 Hc).
  destruct Hsys as [op _ _|op rl _ _ _ _ _|op k mt rr v' Hop <- Hwp Hm Hr Hmax
                   |op k mt rr v' ts' Hop <- Hwp Hm Hr Hw Hmax Hadd]; [constructor|constructor|..];
    apply picked_entry in Hmax; try done;
    pose proof (fun q en => alone_full_readlist c s h t r v q en Hc Hs Hop Hpk) as Hall; pose proof (Hall _ _ Hmax) as Ek.
  - constructor; [|constructor]. simpl. rewrite Hr. intros q en ->%Hall. injection Ek as -> -> _. by right.
  - constructor; [done|]. constructor; [|constructor]. simpl. rewrite Hr. intros q en ->%Hall. injection Ek as -> _ _.
    simpl. unfold u64_add in Hadd. case_decide; [|done]. injection Hadd as <-. lia.
Qed.

Lemma alone_reaches c : cluster_reaches true 1 idx any_call c -> cluster_reaches true 1 idx picks_highest c.
Proof.
  revert c. apply cluster_invariant; [constructor|]. intros c c' _ Hc Hstep.
  pose proof (reaches_ok _ _ _ _ Hc) as Hok. eapply rtc_r; [exact Hc|].
  destruct Hstep as [p s e s' effs Hs Hmay Hstep _|p s e s' effs after d Hs Hmay Hstep _ Hd|p s d Hs Hd].
  - by eapply cs_handle, alone_picks_highest.
  - by eapply cs_crash; [..|eapply alone_picks_highest|].
  - by eapply cs_restart.
Qed.

(** C12: A system of one process is linearizable as the code stands, in a build
    with overflow checks. *)
Theorem single_process_linearizable c :
  cluster_reaches true 1 idx any_call c -> linearizable (history_of (log c)).
Proof. intros Hc%alone_reaches. by eapply reaches_linearizable. Qed.

End OneProcess.

(** ** Scripted runs *)

Section Player.
Context {Uuid : Type} `{!EqDecision Uuid}.
Abbreviation cluster := (cluster (Uuid:=Uuid) (Callback:=unit)).
Abbreviation state := (AtomicRegisterState Uuid unit).
Variables (n : Z) (idx : SectorIdx).
Variable ok : state -> @event Uuid unit -> effect Uuid unit -> Prop.
Context `{!forall s e f, Decision (ok s e f)}.
Implicit Types (c : cluster).

(** A client gives process [p] a command, or the [k]-th message is delivered. *)
Inductive move :=
| Command (p : Z) (id : Uuid) (o : ClientRegisterCommandContent)
| Delivery (k : nat).

Definition event_of c (m : move) : option (Z * @event Uuid unit) :=
  match m with
  | Command p id o =>
      if decide (id ∈ ids (log c)) then None
      else Some (p, EvClient id {| c_header := {| request_identifier := 0; c_sector_idx := idx |}; c_content := o |} tt)
  | Delivery k => '(p, cmd) ← network c !! k; Some (p, EvSystem cmd)
  end.

Definition play1 (m : move) c : option cluster :=
  '(p, e) ← event_of c m;
  s ← registers c !! p;
  '(s', effs) ← exec true e s;
  if decide (Forall (ok s e) effs) then Some (effects_on n idx p s e effs s' c) else None.

Fixpoint play (ms : list move) c : option cluster :=
  match ms with [] => Some c | m :: ms => play1 m c ≫= play ms end.

Lemma play1_step m c c' : play1 m c = Some c' -> cluster_step true n idx ok c c'.
Proof.
  unfold play1. destruct (event_of c m) as [[p e]|] eqn:He; [|done]. simpl.
  destruct (registers c !! p) as [s|] eqn:Hs; [|done]. simpl.
  destruct (exec true e s) as [[s' effs]|] eqn:Hx; [|done]. simpl. case_decide as Hok; [|done]. intros [= <-].
  eapply cs_handle; [done| |by apply exec_step|done].
  destruct m as [p' id o|k]; simpl in He.
  - case_decide as Hid; [done|]. injection He as -> <-. split; [done|]. intros q o' Hin. apply Hid, ids_elem. eauto.
  - destruct (network c !! k) as [[q cmd]|] eqn:Hk; [|done]. injection He as -> <-.
    by eapply list_elem_of_lookup_2.
Qed.

Lemma play_reaches ms c : play ms (start n idx) = Some c -> cluster_reaches true n idx ok c.
Proof.
  unfold cluster_reaches. generalize (start (Uuid:=Uuid) (Callback:=unit) n idx) as c0.
  induction ms as [|m ms IH]; intros c0; simpl; [by intros [= ->]|].
  destruct (play1 m c0) as [c1|] eqn:E; [|done]. simpl. intros Hp. eapply rtc_l; [by eapply play1_step|by apply IH].
Qed.

End Player.

#[export] Instance any_call_dec {Uuid Callback : Type} s e f : Decision (any_call (Uuid:=Uuid) (Callback:=Callback) s e f).
Proof. left. exact I. Defined.

#[export] Instance picks_highest_dec {Uuid Callback : Type} (s : AtomicRegisterState Uuid Callback) e f :
  Decision (picks_highest s e f).
Proof.
  destruct e as [|[h []]], f as [[h' []]| | |]; try (left; exact I).
  simpl. destruct (reading s); apply _.
Defined.

(** ** Three processes

    Process 2 writes [x] at itself and process 3; process 1 then writes [y] at
    itself and process 2, and reads its own register and process 3.  Process 3
    answers with [x], of the older timestamp and the larger rank. *)

Section StaleRead.
Variables (x y : SectorVec).

Definition stale_read : list (move (Uuid:=Z)) :=
  Command 2 1 (Write x) :: (Delivery <$> [1; 2; 3; 4; 6; 7; 8; 9]%nat) ++
  Command 1 2 (Write y) :: (Delivery <$> [10; 12; 13; 14; 15; 16; 18; 19]%nat) ++
  Command 1 3 Read :: (Delivery <$> [20; 22; 23; 24; 25; 27; 28; 29]%nat).

Definition seen (c : option (cluster (Uuid:=Z) (Callback:=unit))) : option (list (action Z)) :=
  c ← c; Some (history_of (log c)).

Definition stale_history : list (action Z) :=
  [Inv 1 (Write x); Res 1 WriteReturn; Inv 2 (Write y); Res 2 WriteReturn; Inv 3 Read; Res 3 (ReadReturn x)].

Lemma seen_reaches ok `{!forall s e f, Decision (ok s e f)} n ms h :
  seen (play n 0 ok ms (start n 0)) = Some h ->
  exists c, cluster_reaches true n 0 ok c /\ history_of (log c) = h.
Proof.
  unfold seen. destruct (play n 0 ok ms (start n 0)) as [c|] eqn:E; [|done]. intros [= <-].
  exists c. split; [by eapply play_reaches|done].
Qed.

Lemma stale_read_plays : seen (play 3 0 any_call stale_read (start 3 0)) = Some stale_history.
Proof.
  unfold start, new, stale_read, stale_history. generalize zero_sector as z. intros z. vm_compute. reflexivity.
Qed.

Lemma three_in_order (k : list Z) :
  NoDup k -> (forall i, i ∈ k <-> i ∈ [1; 2; 3]) -> precedes 1 2 k -> precedes 2 3 k -> k = [1; 2; 3].
Proof.
  intros Hnd Hin (l1 & l2 & l3 & E) (k1 & k2 & k3 & E').
  assert (k ≡ₚ [1; 2; 3]) as Hlen%Permutation_length
    by (apply NoDup_Permutation; [done|apply (bool_decide_unpack _); by vm_compute|done]).
  rewrite app_comm_cons, app_assoc in E. rewrite E in E', Hnd.
  destruct (NoDup_split_unique _ _ _ _ _ Hnd E') as [<- ->]. rewrite E in Hlen |- *.
  rewrite !length_app in Hlen. simpl in Hlen. rewrite !length_app in Hlen. simpl in Hlen.
  destruct l1, l2, k2, k3; simpl in Hlen; try lia. done.
Qed.

(** The only order that respects real time is the order of invocation, and
    there the read returns [y]. *)
Lemma stale_history_not_linearizable : x <> y -> ~ linearizable stale_history.
Proof.
  intros Hxy [l Hlin]. unfold stale_history in Hlin.
  assert (forall i a, Res i a ∈ stale_history -> exists u, u ∈ l /\ o_op u = i /\ o_answer u = a) as Hret
    by apply (lin_returned _ _ Hlin).
  destruct (Hret 1 WriteReturn) as (a & Ha & Ea & _); [unfold stale_history; set_solver|].
  destruct (Hret 2 WriteReturn) as (b & Hb & Eb & _); [unfold stale_history; set_solver|].
  destruct (Hret 3 (ReadReturn x)) as (d & Hd & Ed & Ad); [unfold stale_history; set_solver|].
  assert (o_op <$> l = [1; 2; 3]) as El.
  { apply three_in_order; [apply Hlin| | |].
    - intros i. split.
      + intros (u & -> & Hu)%list_elem_of_fmap. pose proof (lin_invoked _ _ Hlin u Hu). set_solver.
      + rewrite list_elem_of_fmap. intros Hi. set_solver.
    - rewrite <- Ea, <- Eb. apply precedes_fmap, (lin_real_time _ _ Hlin 1 WriteReturn 2 (Write y)); try done.
      by exists [Inv 1 (Write x)], [], [Res 2 WriteReturn; Inv 3 Read; Res 3 (ReadReturn x)].
    - rewrite <- Eb, <- Ed. apply precedes_fmap, (lin_real_time _ _ Hlin 2 WriteReturn 3 Read); try done.
      by exists [Inv 1 (Write x); Res 1 WriteReturn; Inv 2 (Write y)], [], [Res 3 (ReadReturn x)]. }
  pose proof (lin_legal _ _ Hlin) as Hlegal.
  assert (forall u, u ∈ l -> o_content u = match o_op u with 1 => Write x | 2 => Write y | _ => Read end) as Hct.
  { intros u Hu. pose proof (lin_invoked _ _ Hlin u Hu) as Hin. rewrite !elem_of_cons, elem_of_nil in Hin.
    destruct Hin as [[= -> ->]|[?|[[= -> ->]|[?|[[= -> ->]|[?|[]]]]]]]; done. }
  destruct l as [|a' [|b' [|d' [|]]]]; simpl in El; try done. injection El as Ea' Eb' Ed'.
  simpl in Hlegal. rewrite (Hct a'), (Hct b'), (Hct d'), Ea', Eb', Ed' in Hlegal by set_solver.
  destruct Hlegal as (_ & _ & Hd' & _).
  rewrite !elem_of_cons, elem_of_nil in Hd. destruct Hd as [->|[->|[->|[]]]]; congruence.
Qed.

(** C37: Three processes are not linearizable: there is a run of the code, with
    no crash, in which a read that begins after the write of [y] has returned
    still returns the older value [x]. *)
Theorem cluster_not_linearizable :
  x <> y -> exists c : cluster (Uuid:=Z) (Callback:=unit),
    cluster_reaches true 3 0 any_call c /\ history_of (log c) = stale_history /\ ~ linearizable (history_of (log c)).
Proof.
  intros Hxy. destruct (seen_reaches _ _ _ _ stale_read_plays) as (c & Hc & Hh). exists c.
  split; [done|]. rewrite Hh. split; [done|]. by apply stale_history_not_linearizable.
Qed.

End StaleRead.

(** ** The theorems on concrete runs *)

Module RunsExamples.

Definition sector (b : Z) : SectorVec := replicate SECTOR_SIZE b.

Lemma sectors_differ : sector 1 <> sector 2.
Proof. intros E. apply (f_equal head) in E. vm_compute in E. discriminate E. Qed.

(** Process 2 writes at itself and process 3; process 1 reads itself and
    process 3.  All decisions pick the highest value. *)
Definition good_read (x : SectorVec) : list (move (Uuid:=Z)) :=
  Command 2 1 (Write x) :: (Delivery <$> [1; 2; 3; 4; 6; 7; 8; 9]%nat) ++
  Command 1 2 Read :: (Delivery <$> [10; 12; 13; 14; 15; 17; 18; 19]%nat).

Definition good_history (x : SectorVec) : list (action Z) :=
  [Inv 1 (Write x); Res 1 WriteReturn; Inv 2 Read; Res 2 (ReadReturn x)].

Lemma good_read_plays x : seen (play 3 0 picks_highest (good_read x) (start 3 0)) = Some (good_history x).
Proof.
  unfold start, new, good_read, good_history. generalize zero_sector as z. intros z. vm_compute. reflexivity.
Qed.

Lemma cluster_linearizable_witness :
  exists c : cluster (Uuid:=Z) (Callback:=unit), cluster_reaches true 3 0 picks_highest c /\
    history_of (log c) = good_history (sector 1) /\ linearizable (history_of (log c)).
Proof.
  destruct (seen_reaches _ _ _ _ (good_read_plays (sector 1))) as (c & Hc & Hh).
  exists c. split; [exact Hc|]. split; [exact Hh|]. apply (cluster_linearizable true 3 0 c Hc).
Defined.

Lemma reads_return_written_values_witness :
  exists (c : cluster (Uuid:=Z) (Callback:=unit)) l1 quorum l2, cluster_reaches true 3 0 any_call c /\
    log c = l1 ++ Returned 3 (ReadReturn (sector 1)) quorum :: l2 /\
    (sector 1 = zero_sector \/ exists op' p, Invoked op' p (Write (sector 1)) ∈ l1).
Proof.
  destruct (seen_reaches _ _ _ _ (stale_read_plays (sector 1) (sector 2))) as (c & Hc & Hh).
  assert (Res 3 (ReadReturn (sector 1)) ∈ history_of (log c)) as Hin.
  { rewrite Hh. unfold stale_history. rewrite !elem_of_cons. tauto. }
  apply list_elem_of_omap in Hin as ([| |op a quorum] & Hin & E); try discriminate E. injection E as -> ->.
  apply list_elem_of_split in Hin as (l1 & l2 & El). exists c, l1, quorum, l2.
  split; [exact Hc|]. split; [exact El|].
  apply (reads_return_written_values true 3 0 any_call c l1 3 (sector 1) quorum l2 Hc El).
Defined.

(** A process on its own writes and reads. *)
Definition alone (x : SectorVec) : list (move (Uuid:=Z)) :=
  Command 1 1 (Write x) :: (Delivery <$> [0; 1; 2; 3]%nat) ++ Command 1 2 Read :: (Delivery <$> [4; 5; 6; 7]%nat).

Lemma alone_plays x : seen (play 1 0 any_call (alone x) (start 1 0)) = Some (good_history x).
Proof.
  unfold start, new, alone, good_history. generalize zero_sector as z. intros z. vm_compute. reflexivity.
Qed.

Lemma single_process_linearizable_witness :
  exists c : cluster (Uuid:=Z) (Callback:=unit), cluster_reaches true 1 0 any_call c /\
    history_of (log c) = good_history (sector 1) /\ linearizable (history_of (log c)).
Proof.
  destruct (seen_reaches _ _ _ _ (alone_plays (sector 1))) as (c & Hc & Hh).
  exists c. split; [exact Hc|]. split; [exact Hh|]. apply (single_process_linearizable 0 c Hc).
Defined.

Lemma cluster_not_linearizable_witness :
  exists c : cluster (Uuid:=Z) (Callback:=unit), cluster_reaches true 3 0 any_call c /\
    history_of (log c) = stale_history (sector 1) (sector 2) /\ ~ linearizable (history_of (log c)).
Proof. apply (cluster_not_linearizable (sector 1) (sector 2)). apply sectors_differ. Defined.

End RunsExamples.
