(* ===== verification/Storage.v ===== *)
(** * Registers over stable storage: the [SectorsManager] trait of [solution/src/lib.rs]

    The trait is a class of operations with a class of laws; a register is
    proved against the laws, and the file-based manager and the in-memory drive
    of the test utilities discharge them.  [build_atomic_register] starts a
    register from storage and [perform] makes the calls of a handler. *)

From S2P Require Import Prelude Domain FileSystem SectorsManager AtomicRegister RegisterFacts Algorithm.

(** ** The trait *)

Class SectorsManager (St : Type) := {
  sm_read_data : SectorIdx -> M St Empty_set SectorVec;
  sm_read_metadata : SectorIdx -> M St Empty_set stamp;
  sm_write : SectorIdx -> SectorVec * u64 * u8 -> M St Empty_set unit;
}.

(** A sector that the manager can be asked to write over the store [A]. *)
Definition writable (A : store) (idx : SectorIdx) (sector : SectorVec * u64 * u8) : Prop :=
  in_u64 idx /\ in_u64 sector.1.2 /\ in_u8 sector.2 /\ length sector.1.1 = SECTOR_SIZE /\
  stamp_lt (current_stamp A idx) (stamp_of sector).

(** What a manager promises to registers: it serves a store, and a write with a
    newer stamp replaces the sector and nothing else. *)
Class SectorsManagerLaws (St : Type) `{SectorsManager St} := {
  serves : store -> St -> Prop;
  serves_ok A w : serves A w -> store_ok A;
  serves_read_data A w idx : serves A w -> sm_read_data idx w = (Ret (current_data A idx), w);
  serves_read_metadata A w idx : serves A w -> sm_read_metadata idx w = (Ret (current_stamp A idx), w);
  serves_write A w idx sector : serves A w -> writable A idx sector ->
    exists w', sm_write idx sector w = (Ret tt, w') /\ serves (put idx (stamp_of sector) sector.1.1 A) w';
}.

(** ** The file-based manager *)

#[global] Instance files_manager {D} `{FileSystem D} : SectorsManager (SectorsManagerState D) := {
  sm_read_data := read_data;
  sm_read_metadata := read_metadata;
  sm_write := write;
}.

#[global] Program Instance files_manager_laws {D} `{FileSystemLaws D} :
  SectorsManagerLaws (SectorsManagerState D) := {| serves := represents |}.
Next Obligation. by intros D ? ? A w [? _]. Qed.
Next Obligation. intros D ? ? A w idx. apply read_data_correct. Qed.
Next Obligation. intros D ? ? A w idx. apply read_metadata_correct. Qed.
Next Obligation.
  intros D ? ? A w idx [[data ts] wr] Hrep (Hi & Hts & Hwr & Hlen & Hlt). simpl in *.
  destruct (write_correct A w idx ts wr data) as (w' & Hrun & Hrep' & _); [done..|]. by exists w'.
Qed.

(** ** The drive of the tests ([test-utils/atomic_register.rs]) *)

Module RamDrive.
Abbreviation t := (gmap Z (SectorVec * u64 * u8)).

Definition read_data (idx : SectorIdx) : M t Empty_set SectorVec :=
  map ← get;
  mret (match map !! idx with Some (sector_data, _, _) => sector_data | None => zero_sector end).

Definition read_metadata (idx : SectorIdx) : M t Empty_set stamp :=
  map ← get;
  mret (match map !! idx with Some (_, timestamp, rank) => (timestamp, rank) | None => (0, 0) end).

Definition write (idx : SectorIdx) (sector : SectorVec * u64 * u8) : M t Empty_set unit :=
  modify (fun map => <[idx := sector]> map).

#[global] Instance manager : SectorsManager t := {
  sm_read_data := read_data;
  sm_read_metadata := read_metadata;
  sm_write := write;
}.

Definition as_triple (e : stamp * bytes) : SectorVec * u64 * u8 := (e.2, e.1.1, e.1.2).

#[global] Program Instance manager_laws : SectorsManagerLaws t := {|
  serves A m := store_ok A /\ m = as_triple <$> A
|}.
Next Obligation. by intros A w [? _]. Qed.
Next Obligation.
  intros A w idx [_ ->]. unfold sm_read_data. simpl. unfold read_data, current_data.
  rewrite M_bind_get, lookup_fmap. by destruct (A !! idx).
Qed.
Next Obligation.
  intros A w idx [_ ->]. unfold sm_read_metadata. simpl. unfold read_metadata, current_stamp.
  rewrite M_bind_get, lookup_fmap. by destruct (A !! idx) as [[[? ?] ?]|].
Qed.
Next Obligation.
  intros A w idx [[data ts] wr] [Hok ->] (Hi & Hts & Hwr & Hlen & Hlt). simpl in *.
  eexists. split; [reflexivity|]. split.
  - apply put_ok; [done..| |done]. by eapply stamp_lt_nonzero.
  - unfold put. by rewrite fmap_insert.
Qed.
End RamDrive.

(** ** Registers *)

Section Registers.
Context {Uuid Callback : Type} `{!EqDecision Uuid}.
Context {St : Type} `{SectorsManagerLaws St}.
Abbreviation state := (AtomicRegisterState Uuid Callback).
Implicit Types (s : state) (effs : list (effect Uuid Callback)) (A : store) (w : St).

(** [build_atomic_register], the handler of Init and Recovery. *)
Definition build_atomic_register (self_ident : u8) (sector_idx : SectorIdx) (processes_count : u8)
  : M St Empty_set state :=
  '(ts, wr) ← sm_read_metadata sector_idx;
  val ← sm_read_data sector_idx;
  mret (AtomicRegister.new self_ident sector_idx processes_count ts wr val).

(** The writes that a handler asks of the manager, in order. *)
Fixpoint perform effs : M St Empty_set unit :=
  match effs with
  | [] => mret tt
  | Store idx sector :: effs => sm_write idx sector ;; perform effs
  | _ :: effs => perform effs
  end.

(** The sector of the register is stored as the register holds it. *)
Definition in_sync A s : Prop :=
  current_data A (ar_sector_idx s) = val s /\ current_stamp A (ar_sector_idx s) = (ts s, wr s).

Lemma build_atomic_register_correct A w self idx n :
  serves A w ->
  build_atomic_register self idx n w =
    (Ret (AtomicRegister.new self idx n (current_stamp A idx).1 (current_stamp A idx).2 (current_data A idx)), w).
Proof.
  intros Hs. unfold build_atomic_register.
  erewrite M_bind_Ret by exact (serves_read_metadata A w idx Hs).
  destruct (current_stamp A idx) as [ts wr]. by erewrite M_bind_Ret by exact (serves_read_data A w idx Hs).
Qed.

Lemma build_in_sync A w self idx n :
  serves A w -> exists s, build_atomic_register self idx n w = (Ret s, w) /\ in_sync A s /\
    s = AtomicRegister.new self idx n (ts s) (wr s) (val s).
Proof.
  intros Hs. eexists. split; [by apply build_atomic_register_correct|].
  split; [|done]. split; [done|]. simpl. by destruct (current_stamp A idx).
Qed.

(** What a handler stores has a newer stamp than what the register holds. *)
Definition stores_newer s effs : Prop :=
  forall idx sector, Store idx sector ∈ effs -> stamp_lt (ts s, wr s) (stamp_of sector).

(** The calls that a step makes on storage: none, or the new contents once. *)
Lemma step_stores oc s e s' effs :
  step oc s e s' effs ->
  (perform effs = mret tt /\ in_memory s' = in_memory s) \/
  (perform effs = (sm_write (ar_sector_idx s) (in_memory s') ;; mret tt) /\
   Store (ar_sector_idx s) (in_memory s') ∈ effs).
Proof.
  intros Hstep. destruct Hstep as [id [hd ct] cb s1 effs1 _ Hc|iter [h ct] s1 effs1 _ Hsys].
  - unfold client_command in Hc. destruct ct; injection Hc as <- <-; by left.
  - unfold system_command in Hsys. simpl in Hsys. destruct ct as [|t w v|t w v|].
    + injection Hsys as <- <-. by left.
    + destruct (handle_value_cases _ _ _ _ _ _ _ _ _ Hsys); [by left..|right].
      split; [done|]. apply list_elem_of_here.
    + unfold handle_write_proc in Hsys.
      case_decide; injection Hsys as <- <-; [right; split; [done|apply list_elem_of_here]|by left].
    + destruct (handle_ack_cases _ _ _ _ Hsys); try (by left). left. subst. by destruct (reading s).
Qed.

(** Only a decision can store an old stamp, and only when it does not pick the
    highest value. *)
Lemma picks_highest_stores_newer oc s e s' effs :
  step oc s e s' effs -> Forall (picks_highest s e) effs -> stores_newer s effs.
Proof.
  intros Hstep Hpick idx sector Hin.
  destruct Hstep as [id [hd ct] cb s1 effs1 _ Hc|iter [h ct] s1 effs1 _ Hsys].
  - unfold client_command in Hc. destruct ct; injection Hc as <- <-; by apply list_elem_of_singleton in Hin.
  - unfold system_command in Hsys. simpl in Hsys. destruct ct as [|t w v|t w v|].
    + injection Hsys as <- <-. by apply list_elem_of_singleton in Hin.
    + destruct (handle_value_cases _ _ _ _ _ _ _ _ _ Hsys) as [| | |op k mt rr v' ts' _ _ _ _ Hr _ _ _];
        [by apply not_elem_of_nil in Hin..| |].
      * apply list_elem_of_singleton in Hin. done.
      * apply list.Forall_cons in Hpick as [_ [Hp _]%list.Forall_cons].
        simpl in Hp. rewrite Hr in Hp. apply elem_of_cons in Hin as [[= -> ->]|Hin%list_elem_of_singleton]; [|done].
        left. apply (Hp (self_ident s) ((ts s, wr s), val s)). apply lookup_insert_eq.
    + unfold handle_write_proc in Hsys. case_decide; injection Hsys as <- <-.
      * apply elem_of_cons in Hin as [[= -> ->]|Hin%list_elem_of_singleton]; done.
      * by apply list_elem_of_singleton in Hin.
    + destruct (handle_ack_cases _ _ _ _ Hsys); 
        first [by apply not_elem_of_nil in Hin|by apply list_elem_of_singleton in Hin].
Qed.

Lemma fits_writable A s s' :
  in_sync A s -> state_fits s' -> ar_sector_idx s' = ar_sector_idx s ->
  stamp_lt (ts s, wr s) (ts s', wr s') -> writable A (ar_sector_idx s) (in_memory s').
Proof.
  intros [_ Hst] Hfit Hidx Hlt. destruct (fits_memory _ Hfit) as (? & ? & [_ ?]). pose proof (fits_idx _ Hfit).
  unfold writable. rewrite Hst, <- Hidx. by split_and!.
Qed.

Lemma in_sync_put A s s' :
  ar_sector_idx s' = ar_sector_idx s ->
  in_sync (put (ar_sector_idx s) (stamp_of (in_memory s')) (in_memory s').1.1 A) s'.
Proof.
  intros Hidx. unfold in_sync, current_data, current_stamp, put. rewrite Hidx, lookup_insert_eq. done.
Qed.

Lemma in_sync_same A s s' :
  in_memory s' = in_memory s -> ar_sector_idx s' = ar_sector_idx s -> in_sync A s -> in_sync A s'.
Proof. unfold in_memory, in_sync. intros [= -> -> ->] ->. done. Qed.

(** C25: A handler that stores nothing, or stores a newer stamp than the
    register holds ([stores_newer]; the condition fails for a write decided
    under the same stamp, which is the theorem [repeated_stamp_forgets_write]),
    stays in step with the storage: the calls that it makes on the manager
    return, leave the other sectors alone, and a register built from
    the storage afterwards starts with exactly the timestamp, rank and value
    that the running one holds. *)
Theorem register_survives_restart oc A w s e s' effs :
  serves A w -> in_sync A s -> state_fits s -> event_fits e ->
  step oc s e s' effs -> stores_newer s effs ->
  exists A' w', perform effs w = (Ret tt, w') /\ serves A' w' /\ in_sync A' s' /\
    (forall j, j <> ar_sector_idx s -> A' !! j = A !! j) /\
    forall self n, build_atomic_register self (ar_sector_idx s) n w' =
      (Ret (AtomicRegister.new self (ar_sector_idx s) n (ts s') (wr s') (val s')), w').
Proof.
  intros Hs Hsync Hfit Hefit Hstep Hnew.
  destruct (step_fits _ _ _ _ _ Hfit Hefit Hstep) as [Hfit' _].
  destruct (step_same_identity _ _ _ _ _ Hstep) as (_ & _ & Hidx).
  assert (exists A' w', perform effs w = (Ret tt, w') /\ serves A' w' /\ in_sync A' s' /\
    (forall j, j <> ar_sector_idx s -> A' !! j = A !! j)) as (A' & w' & Hrun & Hs' & Hsync' & Hother).
  { destruct (step_stores _ _ _ _ _ Hstep) as [[-> Hmem]|[-> Hlt%Hnew]].
    - exists A, w. split_and!; try done. by eapply in_sync_same.
    - destruct (serves_write A w (ar_sector_idx s) (in_memory s') Hs) as (w' & Hrun & Hs');
        [by eapply fits_writable|].
      eexists _, w'. split_and!; [by erewrite M_bind_Ret by exact Hrun|exact Hs'|by apply in_sync_put|].
      intros j Hj. unfold put. by rewrite lookup_insert_ne. }
  exists A', w'. split_and!; try done. intros self n.
  rewrite (build_atomic_register_correct A' w' _ _ _ Hs').
  destruct Hsync' as [Hd Hst]. rewrite Hidx in Hd, Hst. by rewrite Hd, Hst.
Qed.

End Registers.

(** ** Registers over files *)

Section Files.
Context {Uuid Callback : Type} `{!EqDecision Uuid}.
Context {D : Type} `{FileSystemLaws D}.
Implicit Types (s : AtomicRegisterState Uuid Callback) (A : store) (w : SectorsManagerState D).

(** Every directory on the way restarts as the store before or after. *)
Lemma perform_crash oc A w s e s' effs :
  represents A w -> in_sync A s -> state_fits s -> event_fits e ->
  step oc s e s' effs -> stores_newer s effs ->
  exists w', perform effs w = (Ret tt, w') /\
    passes_through (fun B => store_ok B /\ (in_sync B s \/ in_sync B s')) w w'.
Proof.
  intros Hrep Hsync Hfit Hefit Hstep Hnew.
  destruct (step_fits _ _ _ _ _ Hfit Hefit Hstep) as [Hfit' _].
  destruct (step_same_identity _ _ _ _ _ Hstep) as (_ & _ & Hidx).
  destruct (step_stores (St:=SectorsManagerState D) _ _ _ _ _ Hstep) as [[-> Hmem]|[-> Hlt%Hnew]].
  - exists w. split; [done|apply passes_through_refl].
  - destruct (fits_writable A s s' Hsync Hfit' Hidx Hlt) as (Hi & Hts & Hwr & Hlen & Hst).
    destruct (write_correct A w (ar_sector_idx s) (ts s') (wr s') (val s'))
      as (w' & Hrun & Hrep' & Hp); [done..|].
    exists w'. split; [by erewrite M_bind_Ret by exact Hrun|].
    eapply passes_through_weaken; [|exact Hp]. intros B [->| ->].
    + split; [apply Hrep|by left].
    + split; [apply Hrep'|right]. by apply (in_sync_put A s s').
Qed.

(** C9: A process may die at any point of a handler that stores nothing or
    stores a newer stamp than the register holds ([stores_newer]; for a write
    decided under the same stamp see [repeated_stamp_forgets_write]), also inside
    the file operations: the register that a restart builds holds either the timestamp,
    rank and value from before the handler or those from after it. *)
Theorem register_survives_crash oc A w s e s' effs :
  represents A w -> crash_points w = [] -> in_sync A s -> state_fits s -> event_fits e ->
  step oc s e s' effs -> stores_newer s effs ->
  exists w', perform effs w = (Ret tt, w') /\
    forall d, d = disk w \/ d ∈ crash_points w' ->
      exists w2 s2, SectorsManager.new (boot d) = (Ret tt, w2) /\
        build_atomic_register (Uuid:=Uuid) (Callback:=Callback)
          (self_ident s) (ar_sector_idx s) (processes_count s) w2 = (Ret s2, w2) /\
        (in_memory s2 = in_memory s \/ in_memory s2 = in_memory s').
Proof.
  intros Hrep Hnil Hsync Hfit Hefit Hstep Hnewer.
  destruct (perform_crash oc A w s e s' effs) as (w' & Hrun & Hp); [done..|].
  destruct (step_same_identity _ _ _ _ _ Hstep) as (_ & _ & Hidx).
  exists w'. split; [done|]. intros d Hd.
  assert (exists B, (store_ok B /\ (in_sync B s \/ in_sync B s')) /\ recoverable B d)
    as (B & [Hok HB] & Hrec).
  { destruct Hd as [->|Hd]; [|by eapply passes_through_elem].
    exists A. split; [split; [apply Hrep|by left]|]. by apply represents_recoverable. }
  destruct (boot_recoverable B d Hok Hrec) as (w2 & Hnew & Hrep2).
  eexists w2, _. split; [exact Hnew|]. split; [exact (build_atomic_register_correct B w2 _ _ _ Hrep2)|].
  unfold in_memory. simpl.
  destruct HB as [[Hd1 Hs1]|[Hd1 Hs1]]; rewrite ?Hidx in Hd1, Hs1; rewrite Hd1, Hs1; auto.
Qed.

(** C38: A write that is decided under the stamp the register already has is
    lost by the storage: the handler stores it and announces it to everyone,
    and a restart of the process finds the sector as if it had never been
    written. *)
Theorem repeated_stamp_forgets_write oc iter A w s h t r v :
  represents A w -> in_sync A s -> state_fits s -> A !! ar_sector_idx s <> None ->
  iter_ok iter -> decides s h t r v -> reading s = false -> top_rank s h t r v ->
  wr s = self_ident s -> ts s = t + 1 ->
  exists s' effs msg w' w2,
    handle_value oc iter h t r v s = Ret (s', effs) /\
    Broadcast msg ∈ effs /\ content msg = WriteProc (ts s) (wr s) (writeval s) /\
    perform effs w = (Ret tt, w') /\
    SectorsManager.new (boot (disk w')) = (Ret tt, w2) /\
    build_atomic_register (self_ident s) (ar_sector_idx s) (processes_count s) w2 =
      (Ret (AtomicRegister.new (Uuid:=Uuid) (Callback:=Callback)
              (self_ident s) (ar_sector_idx s) (processes_count s) 0 0 zero_sector), w2).
Proof.
  intros Hrep [_ Hcs] Hfit HA Hiter Hdec Hr Htop Hwr Hts.
  destruct (fits_memory _ Hfit) as (Hu & _ & _). simpl in Hu.
  destruct (repeats_stamp oc iter s h t r v Hiter Hdec Hr Htop Hwr Hts Hu) as (s' & Hrun & _).
  unfold current_stamp in Hcs. destruct (A !! ar_sector_idx s) as [[st c]|] eqn:HAi; [|done].
  simpl in Hcs. subst st.
  destruct (write_same_stamp A w (ar_sector_idx s) (ts s) (wr s) c (writeval s) Hrep HAi)
    as (w' & Hw & _ & Hrec); [apply (fits_writeval _ Hfit)|].
  assert (store_ok (delete (ar_sector_idx s) A)) as Hok by (apply map_Forall_delete, Hrep).
  destruct (boot_recoverable _ _ Hok Hrec) as (w2 & Hnew & Hrep2).
  eexists s', _, _, w', w2. split; [exact Hrun|].
  split; [apply list_elem_of_further, list_elem_of_here|]. split; [done|].
  split; [by simpl; erewrite M_bind_Ret by exact Hw|]. split; [done|].
  etrans; [exact (build_atomic_register_correct (delete (ar_sector_idx s) A) w2 _ _ _ Hrep2)|].
  unfold current_stamp, current_data. by rewrite lookup_delete_eq.
Qed.

End Files.

(** ** The drive of the tests and the files behave alike *)

(** Calls on a manager and what they return. *)
Inductive storage_call :=
| CallReadData (idx : SectorIdx)
| CallReadMetadata (idx : SectorIdx)
| CallWrite (idx : SectorIdx) (sector : SectorVec * u64 * u8).

Inductive storage_answer := Data (v : SectorVec) | Metadata (s : stamp) | Written.

Definition serve {St} `{SectorsManager St} (c : storage_call) : M St Empty_set storage_answer :=
  match c with
  | CallReadData idx => v ← sm_read_data idx; mret (Data v)
  | CallReadMetadata idx => s ← sm_read_metadata idx; mret (Metadata s)
  | CallWrite idx sector => sm_write idx sector ;; mret Written
  end.

Definition store_after (A : store) (c : storage_call) : store :=
  match c with
  | CallWrite idx sector => put idx (stamp_of sector) sector.1.1 A
  | CallReadData _ | CallReadMetadata _ => A
  end.

(** Every write has a newer stamp than what it replaces. *)
Fixpoint calls_ok (A : store) (cs : list storage_call) : Prop :=
  match cs with
  | [] => True
  | c :: cs => match c with CallWrite idx sector => writable A idx sector | _ => True end /\ calls_ok (store_after A c) cs
  end.

Definition answer (A : store) (c : storage_call) : storage_answer :=
  match c with
  | CallReadData idx => Data (current_data A idx)
  | CallReadMetadata idx => Metadata (current_stamp A idx)
  | CallWrite _ _ => Written
  end.

Fixpoint answers_of (A : store) (cs : list storage_call) : list storage_answer :=
  match cs with [] => [] | c :: cs => answer A c :: answers_of (store_after A c) cs end.

(** A lawful manager answers from the store that it serves. *)
Lemma serve_runs {St} `{SectorsManagerLaws St} A (w : St) cs :
  serves A w -> calls_ok A cs ->
  exists w', mapM serve cs w = (Ret (answers_of A cs), w') /\ serves (foldl store_after A cs) w'.
Proof.
  revert A w. induction cs as [|c cs IH]; intros A w Hs Hok; [by exists w|]. destruct Hok as [Hc Hok].
  assert (exists w1, serve c w = (Ret (answer A c), w1) /\ serves (store_after A c) w1) as (w1 & Hrun & Hs1).
  { destruct c as [idx|idx|idx sector]; simpl.
    - exists w. by erewrite M_bind_Ret by exact (serves_read_data A w idx Hs).
    - exists w. by erewrite M_bind_Ret by exact (serves_read_metadata A w idx Hs).
    - destruct (serves_write A w idx sector Hs Hc) as (w1 & Hw & Hs1). exists w1. by erewrite M_bind_Ret by exact Hw. }
  destruct (IH (store_after A c) w1 Hs1 Hok) as (w2 & Hrun2 & Hs2). exists w2. split; [|exact Hs2]. simpl.
  erewrite M_bind_Ret by exact Hrun. by erewrite M_bind_Ret by exact Hrun2.
Qed.

(** C26: The drive of the tests is a faithful stand-in for the files: started on
    the same sectors, the two managers give the same answers to every sequence
    of calls in which stamps grow, and hold the same sectors afterwards, so what
    the tests see of registers over the drive is what registers over the files
    do. *)
Theorem drive_behaves_like_files {D} `{FileSystemLaws D} A (w : SectorsManagerState D) (d : RamDrive.t) cs :
  represents A w -> serves A d -> calls_ok A cs ->
  exists answers w' d', mapM serve cs w = (Ret answers, w') /\ mapM serve cs d = (Ret answers, d') /\
    represents (foldl store_after A cs) w' /\ d' = RamDrive.as_triple <$> foldl store_after A cs.
Proof.
  intros Hw Hd Hok. assert (serves (St:=SectorsManagerState D) A w) as Hw' by exact Hw.
  destruct (serve_runs A w cs Hw' Hok) as (w' & Hrw & Hsw). destruct (serve_runs A d cs Hd Hok) as (d' & Hrd & [_ Hsd]).
  exists (answers_of A cs), w', d'. done.
Qed.

(** ** The theorems on concrete registers *)

Module StorageExamples.
Import RegisterFactsExamples AlgorithmExamples SectorsManagerExamples.

(** Process 1 of 3 serves sector 0, which holds [sector 7] with stamp (5, 1). *)
Definition A5 : store := {[ 0 := ((5, 1), sector 7) ]}.
Definition w5 : SectorsManagerState RamDir.t :=
  {| disk := {| RamDir.entries := Some {[ path_of 0 (5, 1) := sector 7 ]} |};
     data_access := {[ 0 := (5, 1) ]}; crash_points := [] |}.

Lemma sector_ok_all b : in_u8 b -> sector_ok (sector b).
Proof. intros Hb. split; [by apply Forall_replicate|apply length_replicate]. Qed.

Lemma w5_represents : represents A5 w5.
Proof.
  split_and!; [|unfold A5; by rewrite map_fmap_singleton|].
  - apply map_Forall_singleton. split; [by_evaluation|]. split; [|apply length_replicate].
    split; [by_evaluation|]. split; [by_evaluation|done].
  - eexists. split; [reflexivity|]. intros n c. unfold A5. rewrite lookup_singleton_Some. split.
    + intros [<- <-]. exists 0, (5, 1). by rewrite lookup_singleton_eq.
    + intros (idx & s & -> & HA). apply lookup_singleton_Some in HA as [<- [= <- <-]]. done.
Qed.

Lemma w5_serves : serves A5 w5.
Proof. exact w5_represents. Qed.

Definition register_5 : AtomicRegisterState Z unit := AtomicRegister.new 1 0 3 5 1 (sector 7).

Lemma register_5_fits : state_fits register_5.
Proof. split; by_evaluation. Qed.

(** Process 2 imposes [sector 9] with stamp (6, 2). *)
Definition newer : event := from 2 (WriteProc 6 2 (sector 9)).

Lemma newer_fits : event_fits newer.
Proof.
  split; [by_evaluation|split; [by_evaluation|]]. split; [by_evaluation|split; [by_evaluation|]].
  apply sector_ok_all. by_evaluation.
Qed.

Lemma newer_step : exists s' effs, step true register_5 newer s' effs /\
  stores_newer register_5 effs /\ in_memory s' = (sector 9, 6, 2).
Proof.
  assert (exists s' effs, step true register_5 newer s' effs /\
    Forall (picks_highest register_5 newer) effs /\ in_memory s' = (sector 9, 6, 2)) as (s' & effs & Hstep & Hpick & Hmem).
  { eexists _, _. split; [apply exec_step; reflexivity|]. split; [|reflexivity]. repeat constructor. }
  exists s', effs. split_and!; [done| |done]. by eapply picks_highest_stores_newer.
Qed.

Lemma register_survives_restart_witness :
  exists w', build_atomic_register (Uuid:=Z) (Callback:=unit) 1 0 3 w' =
    (Ret (AtomicRegister.new 1 0 3 6 2 (sector 9)), w' : SectorsManagerState RamDir.t).
Proof.
  destruct newer_step as (s' & effs & Hstep & Hnewer & Hmem).
  destruct (register_survives_restart true A5 w5 register_5 newer s' effs w5_serves
    (conj eq_refl eq_refl) register_5_fits newer_fits Hstep Hnewer) as (A' & w' & _ & _ & _ & _ & Hbuild).
  exists w'. injection Hmem as <- <- <-. exact (Hbuild 1 3).
Defined.

Lemma register_survives_crash_witness :
  exists (s' : AtomicRegisterState Z unit) (effs : list (effect Z unit)) w', perform effs w5 = (Ret tt, w') /\ in_memory s' = (sector 9, 6, 2) /\
    forall d, d ∈ crash_points w' -> exists w2 s2, SectorsManager.new (boot d) = (Ret tt, w2) /\
      build_atomic_register (Uuid:=Z) (Callback:=unit) 1 0 3 w2 = (Ret s2, w2) /\
      (in_memory s2 = (sector 7, 5, 1) \/ in_memory s2 = (sector 9, 6, 2)).
Proof.
  destruct newer_step as (s' & effs & Hstep & Hnewer & Hmem).
  destruct (register_survives_crash true A5 w5 register_5 newer s' effs w5_represents eq_refl
    (conj eq_refl eq_refl) register_5_fits newer_fits Hstep Hnewer) as (w' & Hrun & Hcrash).
  exists s', effs, w'. split; [exact Hrun|]. split; [exact Hmem|].
  intros d Hd. rewrite <- Hmem. exact (Hcrash d (or_intror Hd)).
Defined.

(** Process 1 writes [sector 8] while process 2 still reports (4, 2). *)
Definition register_5_writing : AtomicRegisterState Z unit :=
  match run true [EvClient 7 {| c_header := {| request_identifier := 11; c_sector_idx := 0 |};
                                c_content := Write (sector 8) |} tt;
                  from 1 (Value 5 1 (sector 7))] register_5
  with Some (_, s) => s | None => register_5 end.

Lemma register_5_writing_fits : state_fits register_5_writing.
Proof. split; by_evaluation. Qed.

Lemma repeated_stamp_forgets_write_witness :
  exists w2, build_atomic_register (Uuid:=Z) (Callback:=unit) 1 0 3 w2 =
    (Ret (AtomicRegister.new 1 0 3 0 0 zero_sector), w2 : SectorsManagerState RamDir.t).
Proof.
  destruct (repeated_stamp_forgets_write true map_to_list A5 w5 register_5_writing reply_2 4 2 (sector 3)
    w5_represents (conj eq_refl eq_refl) register_5_writing_fits)
    as (s' & effs & msg & w' & w2 & _ & _ & _ & _ & _ & H).
  - discriminate.
  - exact key_order.
  - split_and!; [reflexivity|reflexivity|right; reflexivity|vm_compute; reflexivity].
  - reflexivity.
  - split; [done|]. by_evaluation.
  - reflexivity.
  - reflexivity.
  - exists w2. exact H.
Defined.

Lemma drive_behaves_like_files_witness :
  exists w' d', mapM serve [CallReadMetadata 0; CallWrite 0 (sector 9, 6, 2); CallReadData 0] w5 =
      (Ret [Metadata (5, 1); Written; Data (sector 9)], w') /\
    mapM serve [CallReadMetadata 0; CallWrite 0 (sector 9, 6, 2); CallReadData 0] ({[ 0 := (sector 7, 5, 1) ]} : RamDrive.t) =
      (Ret [Metadata (5, 1); Written; Data (sector 9)], d').
Proof.
  destruct (drive_behaves_like_files A5 w5 {[ 0 := (sector 7, 5, 1) ]}
    [CallReadMetadata 0; CallWrite 0 (sector 9, 6, 2); CallReadData 0] w5_represents) as (answers & w' & d' & H1 & H2 & _).
  - split; [apply w5_represents|]. unfold A5. by rewrite map_fmap_singleton.
  - split; [done|]. split; [|done]. unfold writable. simpl. split_and!; by_evaluation || apply length_replicate.
  - exists w', d'. pose proof H2 as H2'. cbv in H2'. injection H2' as <- _. split; [exact H1|exact H2].
Defined.

End StorageExamples.
