(* ===== verification/RegisterClient.v ===== *)
(** * Links between processes: [solution/src/register_client.rs]

    Channels, the tasks that write to the connections, the tasks that
    retransmit, and the [RegisterClient] trait on top of them.  A [Sender] is
    the number of its channel, so that two senders of one channel alias. *)

From S2P Require Import Prelude Domain Crates Transfer.

(** ** Channels and tasks *)

(** An [async_channel::unbounded] channel: the messages not yet received, and
    whether the receiver still exists. *)
Record Channel {Msg : Type} := { queue : list Msg; open : bool }.
Arguments Channel Msg : clear implicits.

(** A [tokio::net::TcpStream]: after how many bytes writing to it is going to
    fail, and with which error ([None] when it never does), and whether
    [set_nodelay] succeeds on it. *)
Record TcpStream := { stream_fault : option (nat * Error); nodelay_ok : bool }.

Definition set_nodelay (stream : TcpStream) : option unit :=
  if nodelay_ok stream then Some tt else None.

(** The writing half of [stream.into_split()]; nothing has been written yet. *)
Definition into_split_writer (stream : TcpStream) : sink := given (stream_fault stream) [].

(** The locals of a [handle_writing] task. *)
Record WritingTask := { wt_rx : nat; wt_writer : sink }.

(** The locals of a [handle_retransmission] task. *)
Record RetransmissionTask {Uuid : Type} := {
  rt_connection_tx : nat;
  rt_rx : nat;
  rt_cmd : option (SystemRegisterCommand Uuid);
}.
Arguments RetransmissionTask Uuid : clear implicits.

(** What the links of a process consist of.  Tasks are named after the process
    that they were spawned for. *)
Record Links {Uuid : Type} := {
  channels : gmap nat (Channel (SystemRegisterCommand Uuid));
  next_channel : nat;
  writing_tasks : gmap Z WritingTask;
  retransmission_tasks : gmap Z (RetransmissionTask Uuid);
}.
Arguments Links Uuid : clear implicits.

Record RegisterClientState := {
  rc_processes_count : u8;
  processes_txs : gmap Z nat;
  retransmission_txs : gmap Z nat;
}.

Section Client.
Context {Uuid Mac : Type} `{UuidCrate Uuid, HmacCrate Mac}.
Abbreviation command := (SystemRegisterCommand Uuid).
Abbreviation LinkM A := (M (Links Uuid) Empty_set A).
Implicit Types (w : Links Uuid) (c r : nat).

#[export] Instance assign_channels : Assign (R:=Links Uuid) channels := fun v w =>
  {| channels := v; next_channel := next_channel w; writing_tasks := writing_tasks w;
     retransmission_tasks := retransmission_tasks w |}.
#[export] Instance assign_next_channel : Assign (R:=Links Uuid) next_channel := fun v w =>
  {| channels := channels w; next_channel := v; writing_tasks := writing_tasks w;
     retransmission_tasks := retransmission_tasks w |}.
#[export] Instance assign_writing_tasks : Assign (R:=Links Uuid) writing_tasks := fun v w =>
  {| channels := channels w; next_channel := next_channel w; writing_tasks := v;
     retransmission_tasks := retransmission_tasks w |}.
#[export] Instance assign_retransmission_tasks : Assign (R:=Links Uuid) retransmission_tasks := fun v w =>
  {| channels := channels w; next_channel := next_channel w; writing_tasks := writing_tasks w;
     retransmission_tasks := v |}.

(** [unbounded()]. *)
Definition unbounded : LinkM nat := fun w =>
  let c := next_channel w in
  (Ret c, w <| channels := <[c := {| queue := []; open := true |}]> (channels w) |>
            <| next_channel := S c |>).

(** [tx.send(msg).await.expect(why)]: fails when the receiver is gone. *)
Definition chan_send (why : string) c (msg : command) : LinkM unit := fun w =>
  match channels w !! c with
  | Some {| queue := q; open := true |} =>
      (Ret tt, w <| channels := <[c := {| queue := q ++ [msg]; open := true |}]> (channels w) |>)
  | _ => (Panic why, w)
  end.

(** The next message of a channel, and the links without it. *)
Definition chan_recv c w : option (command * Links Uuid) :=
  match channels w !! c with
  | Some {| queue := msg :: q; open := o |} =>
      Some (msg, w <| channels := <[c := {| queue := q; open := o |}]> (channels w) |>)
  | _ => None
  end.

(** ** [RegisterClientState::new] *)

(** [TcpStream::connect(addr)], [None] on failure. *)
Variable connect : string * Z -> option TcpStream.

(** The body of the loop over [0..processes_count]. *)
Definition connect_process (overflow_checks : bool) (self_ident : u8) (tcp_locations : list (string * Z))
    (i : u8) (txs : gmap Z nat * gmap Z nat) : LinkM (gmap Z nat * gmap Z nat) :=
  self ← lift (u8_sub overflow_checks self_ident 1);
  if decide (i = self) then mret txs
  else
    addr ← lift (expect "index out of bounds" (tcp_locations !! Z.to_nat i));
    stream ← lift (expect "Failed to connect to process" (connect addr));
    lift (expect "Failed to set nodelay" (set_nodelay stream)) ;;
    let writer := into_split_writer stream in
    connection ← unbounded;
    retransmission ← unbounded;
    let process_ident := i + 1 in
    modify (fun w => w <| writing_tasks :=
      <[process_ident := {| wt_rx := connection; wt_writer := writer |}]> (writing_tasks w) |>) ;;
    modify (fun w => w <| retransmission_tasks :=
      <[process_ident := {| rt_connection_tx := connection; rt_rx := retransmission; rt_cmd := None |}]>
        (retransmission_tasks w) |>) ;;
    mret (<[process_ident := connection]> txs.1, <[process_ident := retransmission]> txs.2).

Fixpoint connect_processes (overflow_checks : bool) (self_ident : u8) (tcp_locations : list (string * Z))
    (range : list u8) (txs : gmap Z nat * gmap Z nat) : LinkM (gmap Z nat * gmap Z nat) :=
  match range with
  | [] => mret txs
  | i :: range =>
      txs ← connect_process overflow_checks self_ident tcp_locations i txs;
      connect_processes overflow_checks self_ident tcp_locations range txs
  end.

Definition new (overflow_checks : bool) (self_ident : u8) (self_tx : nat) (processes_count : u8)
    (tcp_locations : list (string * Z)) : LinkM RegisterClientState :=
  let processes_txs := {[ self_ident := self_tx ]} in
  let retransmission_txs := {[ self_ident := self_tx ]} in
  '(processes_txs, retransmission_txs) ←
    connect_processes overflow_checks self_ident tcp_locations (seqZ 0 processes_count)
      (processes_txs, retransmission_txs);
  mret {| rc_processes_count := processes_count; processes_txs := processes_txs;
          retransmission_txs := retransmission_txs |}.

(** ** [impl RegisterClient for RegisterClientState] *)

Definition send (self : RegisterClientState) (cmd : command) (target : u8) : LinkM unit :=
  channel ← lift (expect "No such process" (processes_txs self !! target));
  chan_send "Failed to pass the message to sender task" channel cmd ;;
  retransmission_channel ← lift (expect "No such process" (retransmission_txs self !! target));
  chan_send "Failed to pass the message to retransmission task" retransmission_channel cmd.

(** The loop body of [broadcast] is the body of [send]. *)
Fixpoint broadcast_to (self : RegisterClientState) (cmd : command) (targets : list u8) : LinkM unit :=
  match targets with
  | [] => mret tt
  | target :: targets => send self cmd target ;; broadcast_to self cmd targets
  end.

Definition broadcast (self : RegisterClientState) (cmd : command) : LinkM unit :=
  broadcast_to self cmd (seqZ 1 (rc_processes_count self)).

(** ** The tasks *)

(** One turn of the loop of the [handle_writing] task for process [q]; [None]
    while it waits.  The result of the serialization is dropped. *)
Definition handle_writing (hmac_system_key : bytes) (q : Z) w : option (Links Uuid) :=
  t ← writing_tasks w !! q;
  '(msg, w) ← chan_recv (wt_rx t) w;
  let writer := snd (serialize_register_command (Mac:=Mac) (System msg) (wt_writer t) hmac_system_key) in
  Some (w <| writing_tasks := <[q := {| wt_rx := wt_rx t; wt_writer := writer |}]> (writing_tasks w) |>).

(** One turn of the loop of the [handle_retransmission] task for process [q];
    [tick] says whether the interval has elapsed, which the [biased] selection
    looks at first.  [None] while it waits. *)
Definition handle_retransmission (tick : bool) (q : Z) w : option (outcome Empty_set unit * Links Uuid) :=
  t ← retransmission_tasks w !! q;
  if tick then
    match rt_cmd t with
    | Some command =>
        Some (chan_send "Failed to pass the retransmission message to sender task"
                (rt_connection_tx t) command w)
    | None => Some (Ret tt, w)
    end
  else
    '(msg, w) ← chan_recv (rt_rx t) w;
    Some (Ret tt, w <| retransmission_tasks :=
      <[q := {| rt_connection_tx := rt_connection_tx t; rt_rx := rt_rx t; rt_cmd := Some msg |}]>
        (retransmission_tasks w) |>).

End Client.

(** ** The [RegisterClient] trait of [solution/src/lib.rs] *)

Class RegisterClient (Uuid Cl : Type) := {
  rc_send : SystemRegisterCommand Uuid -> u8 -> M Cl Empty_set unit;
  rc_broadcast : SystemRegisterCommand Uuid -> M Cl Empty_set unit;
}.

(** A client together with the links that it sends on. *)
Record linked_client {Uuid : Type} := { lc_state : RegisterClientState; lc_links : Links Uuid }.
Arguments linked_client Uuid : clear implicits.

Definition on_links {Uuid A} (f : RegisterClientState -> M (Links Uuid) Empty_set A)
  : M (linked_client Uuid) Empty_set A := fun c =>
  let '(o, w) := f (lc_state c) (lc_links c) in (o, {| lc_state := lc_state c; lc_links := w |}).

#[global] Instance links_client {Uuid} : RegisterClient Uuid (linked_client Uuid) := {
  rc_send cmd target := on_links (fun self => send self cmd target);
  rc_broadcast cmd := on_links (fun self => broadcast self cmd);
}.

(** [BufferClient] of [test-utils/atomic_register.rs]: one buffer of messages
    with their targets. *)
Module BufferClient.
Record t {Uuid : Type} := { bc_processes_count : u8; buffer : list (SystemRegisterCommand Uuid * u8) }.
Arguments t Uuid : clear implicits.

Definition send {Uuid} (cmd : SystemRegisterCommand Uuid) (target : u8) : M (t Uuid) Empty_set unit :=
  modify (fun self => {| bc_processes_count := bc_processes_count self;
                         buffer := buffer self ++ [(cmd, target)] |}).

Fixpoint broadcast_range {Uuid} (cmd : SystemRegisterCommand Uuid) (range : list u8) : M (t Uuid) Empty_set unit :=
  match range with
  | [] => mret tt
  | target :: range => send cmd (target + 1) ;; broadcast_range cmd range
  end.

Definition broadcast {Uuid} (cmd : SystemRegisterCommand Uuid) : M (t Uuid) Empty_set unit :=
  self ← get;
  broadcast_range cmd (seqZ 0 (bc_processes_count self)).

#[global] Instance client {Uuid} : RegisterClient Uuid (t Uuid) := {
  rc_send := send;
  rc_broadcast := broadcast;
}.
End BufferClient.

(** ** How [new] wires the process *)

Section Wiring.
Context {Uuid : Type}.
Abbreviation command := (SystemRegisterCommand Uuid).
Implicit Types (st : RegisterClientState) (w : Links Uuid) (c r : nat) (q : Z).

(** The link to process [q]: its two channels and its two tasks, with what the
    writer has written and what is to be retransmitted. *)
Record link st w q c r (sk : sink) (cmd : option command) : Prop := {
  link_tx : processes_txs st !! q = Some c;
  link_retransmission_tx : retransmission_txs st !! q = Some r;
  link_writing : writing_tasks w !! q = Some {| wt_rx := c; wt_writer := sk |};
  link_retransmission :
    retransmission_tasks w !! q = Some {| rt_connection_tx := c; rt_rx := r; rt_cmd := cmd |};
}.

Definition is_open w c : Prop := exists l, channels w !! c = Some {| queue := l; open := true |}.

(** Process [self] of [n]: an open link to every other process, whose channels
    are used by that link only ([roles] names the user of a channel), and the
    channel to itself in both maps. *)
Record wired (roles : gmap nat (Z * bool)) (self n : Z) st w : Prop := {
  wired_count : rc_processes_count st = n;
  wired_self : exists c, processes_txs st !! self = Some c /\ retransmission_txs st !! self = Some c /\
    roles !! c = Some (self, true) /\ is_open w c;
  wired_link q : 1 <= q <= n -> q <> self -> exists c r sk cmd, link st w q c r sk cmd /\
    roles !! c = Some (q, true) /\ roles !! r = Some (q, false) /\ is_open w c /\ is_open w r;
}.

(** The messages waiting for the writer to [q] and for the retransmission task
    of [q]. *)
Definition waiting (txs : gmap Z nat) w q : list command :=
  match txs !! q with
  | Some c => match channels w !! c with Some ch => queue ch | None => [] end
  | None => []
  end.
Definition conn_queue st w q : list command := waiting (processes_txs st) w q.
Definition retr_queue st w q : list command := waiting (retransmission_txs st) w q.

Lemma waiting_lookup txs w q c l o :
  txs !! q = Some c -> channels w !! c = Some {| queue := l; open := o |} -> waiting txs w q = l.
Proof. unfold waiting. by intros -> ->. Qed.

(** A change of the channel [c] only. *)
Definition requeue c l w : Links Uuid :=
  w <| channels := <[c := {| queue := l; open := true |}]> (channels w) |>.

Lemma chan_send_open why c m l w :
  channels w !! c = Some {| queue := l; open := true |} ->
  chan_send why c m w = (Ret tt, requeue c (l ++ [m]) w).
Proof. unfold chan_send. by intros ->. Qed.

Lemma requeue_open c l w c' : is_open w c' -> is_open (requeue c l w) c'.
Proof.
  intros [l' Hl']. destruct (decide (c = c')) as [->|Hne]; unfold is_open; simpl.
  - rewrite lookup_insert_eq. eauto.
  - rewrite lookup_insert_ne by done. eauto.
Qed.

Lemma requeue_wired roles self n st w c l : wired roles self n st w -> wired roles self n st (requeue c l w).
Proof.
  intros [Hn (c0 & H1 & H2 & H3 & H4) Hl]. split; [done| |].
  - exists c0. split_and!; [done..|by apply requeue_open].
  - intros q Hq Hne. destruct (Hl q Hq Hne) as (cq & rq & sk & cmd & [? ? ? ?] & ? & ? & ? & ?).
    exists cq, rq, sk, cmd. split; [by split|]. split_and!; [done..| |]; by apply requeue_open.
Qed.

Lemma waiting_requeue txs w q c l :
  waiting txs (requeue c l w) q = if decide (txs !! q = Some c) then l else waiting txs w q.
Proof.
  unfold waiting. simpl. case_decide as E.
  - by rewrite E, lookup_insert_eq.
  - destruct (txs !! q) as [c'|]; [|done]. by rewrite lookup_insert_ne by congruence.
Qed.

(** Which of the maps name a channel is known from its role. *)
Lemma role_tx roles self n st w q c :
  wired roles self n st w -> 1 <= q <= n -> processes_txs st !! q = Some c -> roles !! c = Some (q, true).
Proof.
  intros Hw Hq Hc. destruct (decide (q = self)) as [->|Hne].
  - destruct (wired_self _ _ _ _ _ Hw) as (c0 & H1 & _ & H3 & _). congruence.
  - destruct (wired_link _ _ _ _ _ Hw q Hq Hne) as (c0 & r0 & sk & cmd & [H1 _ _ _] & H3 & _). congruence.
Qed.

Lemma role_retransmission roles self n st w q r :
  wired roles self n st w -> 1 <= q <= n -> q <> self -> retransmission_txs st !! q = Some r ->
  roles !! r = Some (q, false).
Proof.
  intros Hw Hq Hne Hr. destruct (wired_link _ _ _ _ _ Hw q Hq Hne) as (c0 & r0 & sk & cmd & [_ H1 _ _] & _ & H3 & _).
  congruence.
Qed.

(** What [send] and [broadcast] add to the queues of [q]. *)
Definition copies self q' q (m : command) : list command :=
  if decide (q = q') then if decide (q = self) then [m; m] else [m] else [].

Definition same_tasks w w' : Prop :=
  writing_tasks w' = writing_tasks w /\ retransmission_tasks w' = retransmission_tasks w.

(** The effect of handing [m] over for [target]. *)
Record handed_over roles self n st target m w w' : Prop := {
  ho_wired : wired roles self n st w';
  ho_tasks : same_tasks w w';
  ho_conn q : 1 <= q <= n -> conn_queue st w' q = conn_queue st w q ++ copies self target q m;
  ho_retr q : 1 <= q <= n -> q <> self ->
    retr_queue st w' q = retr_queue st w q ++ if decide (q = target) then [m] else [];
}.

Lemma not_tx roles self n st w q c u b :
  wired roles self n st w -> 1 <= q <= n -> roles !! c = Some (u, b) -> (q, true) <> (u, b) ->
  processes_txs st !! q <> Some c.
Proof. intros Hw Hq Hc Hne Hq'. pose proof (role_tx _ _ _ _ _ _ _ Hw Hq Hq'). congruence. Qed.

Lemma not_retransmission roles self n st w q c u b :
  wired roles self n st w -> 1 <= q <= n -> q <> self -> roles !! c = Some (u, b) -> (q, false) <> (u, b) ->
  retransmission_txs st !! q <> Some c.
Proof.
  intros Hw Hq Hqs Hc Hne Hq'. pose proof (role_retransmission _ _ _ _ _ _ _ Hw Hq Hqs Hq'). congruence.
Qed.

Lemma send_self roles self n st w m :
  wired roles self n st w -> 1 <= self <= n ->
  exists w', send st m self w = (Ret tt, w') /\ handed_over roles self n st self m w w'.
Proof.
  intros Hw Hself. destruct (wired_self _ _ _ _ _ Hw) as (c & H1 & H2 & H3 & [l Hl]).
  exists (requeue c ((l ++ [m]) ++ [m]) (requeue c (l ++ [m]) w)). split; [|split].
  - unfold send. rewrite H1. cbn [expect]. rewrite M_bind_lift. erewrite M_bind_Ret by by apply chan_send_open.
    rewrite H2. cbn [expect]. rewrite M_bind_lift. apply chan_send_open. apply lookup_insert_eq.
  - by do 2 apply requeue_wired.
  - done.
  - intros q Hq. unfold conn_queue, copies. rewrite !waiting_requeue.
    destruct (decide (q = self)) as [->|Hqs].
    + rewrite decide_True by done. rewrite (waiting_lookup _ _ _ _ _ _ H1 Hl). by rewrite <- app_assoc.
    + rewrite !decide_False by (eapply not_tx; [done..|congruence]). by rewrite app_nil_r.
  - intros q Hq Hqs. unfold retr_queue. rewrite !waiting_requeue.
    rewrite (decide_False (P:=q = self)) by done.
    rewrite !decide_False by (eapply not_retransmission; [done..|congruence]). by rewrite app_nil_r.
Qed.

Lemma send_other roles self n st w m target :
  wired roles self n st w -> 1 <= target <= n -> target <> self ->
  exists w', send st m target w = (Ret tt, w') /\ handed_over roles self n st target m w w'.
Proof.
  intros Hw Htarget Hne.
  destruct (wired_link _ _ _ _ _ Hw target Htarget Hne)
    as (c & r & sk & cmd & [H1 H2 _ _] & Hc & Hr & [l Hl] & [k Hk]).
  assert (c <> r) as Hcr by congruence.
  exists (requeue r (k ++ [m]) (requeue c (l ++ [m]) w)). split; [|split].
  - unfold send. rewrite H1. cbn [expect]. rewrite M_bind_lift. erewrite M_bind_Ret by by apply chan_send_open.
    rewrite H2. cbn [expect]. rewrite M_bind_lift. apply chan_send_open. simpl. by rewrite lookup_insert_ne.
  - by do 2 apply requeue_wired.
  - done.
  - intros q Hq. unfold conn_queue, copies. rewrite !waiting_requeue.
    rewrite (decide_False (P:=processes_txs st !! q = Some r)) by (eapply not_tx; [done..|congruence]).
    destruct (decide (q = target)) as [->|Hqt].
    + rewrite (decide_True (P:=processes_txs st !! target = Some c)), (decide_False (P:=target = self)) by done.
      by rewrite (waiting_lookup _ _ _ _ _ _ H1 Hl).
    + rewrite decide_False by (eapply not_tx; [done..|congruence]). by rewrite app_nil_r.
  - intros q Hq Hqs. unfold retr_queue. rewrite !waiting_requeue.
    rewrite (decide_False (P:=retransmission_txs st !! q = Some c))
      by (eapply not_retransmission; [done..|congruence]).
    destruct (decide (q = target)) as [->|Hqt].
    + rewrite (decide_True (P:=retransmission_txs st !! target = Some r)) by done.
      by rewrite (waiting_lookup _ _ _ _ _ _ H2 Hk).
    + rewrite decide_False by (eapply not_retransmission; [done..|congruence]). by rewrite app_nil_r.
Qed.

Lemma send_wired roles self n st w m target :
  wired roles self n st w -> 1 <= self <= n -> 1 <= target <= n ->
  exists w', send st m target w = (Ret tt, w') /\ handed_over roles self n st target m w w'.
Proof.
  intros Hw Hself Ht. destruct (decide (target = self)) as [->|Hne]; [by apply send_self|by apply send_other].
Qed.

(** ** Broadcasting *)

Lemma elem_of_cons_ne (q t : Z) targets : q <> t -> q ∈ t :: targets <-> q ∈ targets.
Proof. rewrite elem_of_cons. naive_solver. Qed.

Lemma broadcast_to_wired roles self n st w m targets :
  wired roles self n st w -> 1 <= self <= n -> NoDup targets ->
  (forall q, q ∈ targets -> 1 <= q <= n) ->
  exists w', broadcast_to st m targets w = (Ret tt, w') /\ wired roles self n st w' /\ same_tasks w w' /\
    (forall q, 1 <= q <= n ->
      conn_queue st w' q = conn_queue st w q ++ if decide (q ∈ targets) then copies self q q m else []) /\
    (forall q, 1 <= q <= n -> q <> self ->
      retr_queue st w' q = retr_queue st w q ++ if decide (q ∈ targets) then [m] else []).
Proof.
  intros Hw Hself Hnd Hin. revert w Hw.
  induction targets as [|t targets IH]; intros w Hw; simpl.
  - exists w. split_and!; try done; intros; by rewrite app_nil_r.
  - apply list.NoDup_cons in Hnd as [Hnin Hnd].
    destruct (send_wired roles self n st w m t Hw Hself) as (w1 & Hrun & [Hw1 Ht1 Hc1 Hr1]); [set_solver|].
    destruct (IH Hnd ltac:(set_solver) w1 Hw1) as (w2 & Hrun2 & Hw2 & Ht2 & Hc2 & Hr2).
    exists w2. split_and!; [by erewrite M_bind_Ret by exact Hrun|done| | |].
    + destruct Ht1, Ht2. split; congruence.
    + intros q Hq. rewrite Hc2, Hc1, <- app_assoc by done. f_equal. unfold copies.
      destruct (decide (q = t)) as [->|Hqt].
      * rewrite (decide_False (P:=t ∈ targets)) by done.
        rewrite (decide_True (P:=t ∈ t :: targets)) by apply list_elem_of_here.
        rewrite app_nil_r. by rewrite (decide_True (P:=t = t)).
      * by rewrite (decide_ext (q ∈ t :: targets) (q ∈ targets)) by by apply elem_of_cons_ne.
    + intros q Hq Hqs. rewrite Hr2, Hr1, <- app_assoc by done. f_equal.
      destruct (decide (q = t)) as [->|Hqt].
      * rewrite (decide_False (P:=t ∈ targets)) by done.
        by rewrite (decide_True (P:=t ∈ t :: targets)) by apply list_elem_of_here.
      * by rewrite (decide_ext (q ∈ t :: targets) (q ∈ targets)) by by apply elem_of_cons_ne.
Qed.

Lemma broadcast_wired roles self n st w m :
  wired roles self n st w -> 1 <= self <= n ->
  exists w', broadcast st m w = (Ret tt, w') /\ wired roles self n st w' /\ same_tasks w w' /\
    (forall q, 1 <= q <= n ->
      conn_queue st w' q = conn_queue st w q ++ if decide (q = self) then [m; m] else [m]) /\
    (forall q, 1 <= q <= n -> q <> self -> retr_queue st w' q = retr_queue st w q ++ [m]).
Proof.
  intros Hw Hself. unfold broadcast. rewrite (wired_count _ _ _ _ _ Hw).
  assert (forall q, q ∈ seqZ 1 n <-> 1 <= q <= n) as Hseq by (intros q; rewrite elem_of_seqZ; lia).
  destruct (broadcast_to_wired roles self n st w m (seqZ 1 n) Hw Hself) as (w' & Hrun & Hw' & Ht & Hc & Hr);
    [apply NoDup_seqZ|by intros; apply Hseq|].
  exists w'. split_and!; try done.
  - intros q Hq. rewrite Hc, decide_True by by rewrite ?Hseq. unfold copies. by rewrite decide_True.
  - intros q Hq Hqs. by rewrite Hr, decide_True by by rewrite ?Hseq.
Qed.

End Wiring.

(** ** [new] *)

Section New.
Context {Uuid : Type} (connect : string * Z -> option TcpStream) (oc : bool).
Context (self n : Z) (self_tx : nat) (tcp_locations : list (string * Z)).
Hypothesis Hself : 1 <= self <= n.
Implicit Types (w : Links Uuid) (c r : nat) (q : Z) (txs : gmap Z nat * gmap Z nat).

Definition st_of txs : RegisterClientState :=
  {| rc_processes_count := n; processes_txs := txs.1; retransmission_txs := txs.2 |}.

(** A link on which nothing has been sent. *)
Definition fresh_link txs w q c r : Prop :=
  exists stream addr, link (st_of txs) w q c r (into_split_writer stream) None /\
    tcp_locations !! Z.to_nat (q - 1) = Some addr /\ connect addr = Some stream /\
    channels w !! c = Some {| queue := []; open := true |} /\
    channels w !! r = Some {| queue := []; open := true |}.

(** The state of the loop: the processes in [linked] are linked, and channels
    with a role exist. *)
Record wiring (roles : gmap nat (Z * bool)) (linked : list Z) txs w : Prop := {
  wg_self : txs.1 !! self = Some self_tx /\ txs.2 !! self = Some self_tx /\
    roles !! self_tx = Some (self, true) /\ is_open w self_tx;
  wg_link q : q ∈ linked -> exists c r, fresh_link txs w q c r /\
    roles !! c = Some (q, true) /\ roles !! r = Some (q, false);
  wg_fresh c : is_Some (roles !! c) -> (c < next_channel w)%nat;
}.

Lemma connect_process_wiring roles linked txs w i addr sk :
  wiring roles linked txs w -> 0 <= i < n -> i + 1 <> self -> i + 1 ∉ linked ->
  tcp_locations !! Z.to_nat i = Some addr -> connect addr = Some sk -> nodelay_ok sk = true ->
  exists txs' w' roles', connect_process connect oc self tcp_locations i txs w = (Ret txs', w') /\
    wiring roles' (i + 1 :: linked) txs' w'.
Proof.
  intros [(S1 & S2 & S3 & [l0 S4]) Hlink Hfresh] Hi Hne Hnin Haddr Hsk Hnd.
  set (c := next_channel w). set (r := S c).
  assert (roles !! c = None) as Hc.
  { apply eq_None_not_Some. intros H. apply Hfresh in H. unfold c in H. lia. }
  assert (roles !! r = None) as Hr.
  { apply eq_None_not_Some. intros H. apply Hfresh in H. unfold r, c in H. lia. }
  assert (c <> r) as Hcr by (unfold r; lia).
  eexists _, _, (<[c := (i + 1, true)]> (<[r := (i + 1, false)]> roles)). split.
  { unfold connect_process, u8_sub. rewrite decide_True by lia. rewrite M_bind_lift.
    rewrite decide_False by lia. rewrite Haddr. cbn [expect]. rewrite M_bind_lift, Hsk. cbn [expect].
    rewrite M_bind_lift. unfold set_nodelay. rewrite Hnd. cbn [expect]. rewrite M_bind_lift. reflexivity. }
  fold c r. split.
  - simpl. rewrite !lookup_insert_ne by congruence. split_and!; [done..|].
    exists l0. simpl. by rewrite !lookup_insert_ne by congruence.
  - intros q [->|Hq]%elem_of_cons.
    + exists c, r. split.
      * exists sk, addr. split; [split; simpl; by rewrite lookup_insert_eq|].
        replace (i + 1 - 1) with i by lia. split_and!; [done..| |].
        -- simpl. rewrite lookup_insert_ne by done. by rewrite lookup_insert_eq.
        -- simpl. by rewrite lookup_insert_eq.
      * rewrite lookup_insert_eq, lookup_insert_ne, lookup_insert_eq by done. done.
    + destruct (Hlink q Hq) as (c1 & r1 & (sk1 & a1 & [L1 L2 L3 L4] & Ha1 & Hs1 & C1 & C2) & R1 & R2).
      exists c1, r1. assert (i + 1 <> q) as Hiq by congruence.
      split; [exists sk1, a1; split; [split; simpl; by rewrite lookup_insert_ne|]|];
        simpl; rewrite !lookup_insert_ne by congruence; done.
  - intros c1. simpl. intros H. fold c r. destruct (decide (c1 = c)) as [->|H1]; [lia|].
    destruct (decide (c1 = r)) as [->|H2]; [lia|]. rewrite !lookup_insert_ne in H by done.
    apply Hfresh in H. unfold r, c. lia.
Qed.

Lemma connect_self_skips roles linked txs w i :
  wiring roles linked txs w -> i + 1 = self ->
  connect_process connect oc self tcp_locations i txs w = (Ret txs, w).
Proof.
  intros _ Hi. unfold connect_process, u8_sub. rewrite decide_True by lia.
  rewrite M_bind_lift. by rewrite decide_True by lia.
Qed.

(** The addresses of the other processes accept connections, on which
    [set_nodelay] succeeds. *)
Definition reachable_peers : Prop :=
  forall i, 0 <= i < n -> i + 1 <> self ->
    exists addr stream, tcp_locations !! Z.to_nat i = Some addr /\ connect addr = Some stream /\
      nodelay_ok stream = true.

Lemma connect_processes_wiring range roles linked txs w :
  reachable_peers -> wiring roles linked txs w -> NoDup range ->
  (forall i, i ∈ range -> 0 <= i < n /\ i + 1 ∉ linked) ->
  exists txs' w' roles' linked',
    connect_processes connect oc self tcp_locations range txs w = (Ret txs', w') /\
    wiring roles' linked' txs' w' /\
    (forall q, q ∈ linked \/ (q - 1 ∈ range /\ q <> self) -> q ∈ linked').
Proof.
  intros Hpeers. revert roles linked txs w. induction range as [|i range IH]; intros roles linked txs w Hw Hnd Hin.
  - exists txs, w, roles, linked. split_and!; [done..|]. set_solver.
  - apply list.NoDup_cons in Hnd as [Hnin Hnd]. destruct (Hin i) as [Hi Hil]; [apply list_elem_of_here|].
    assert (exists txs1 w1 roles1 linked1, connect_process connect oc self tcp_locations i txs w = (Ret txs1, w1) /\
      wiring roles1 linked1 txs1 w1 /\ (linked1 = linked \/ linked1 = i + 1 :: linked) /\
      (i + 1 <> self -> i + 1 ∈ linked1)) as (txs1 & w1 & roles1 & linked1 & Hrun & Hw1 & Hl1 & Hi1).
    { destruct (decide (i + 1 = self)) as [E|E].
      - exists txs, w, roles, linked. split_and!; [by eapply connect_self_skips|done|by left|done].
      - destruct (Hpeers i Hi E) as (addr & sk & Ha & Hs & Hnodelay).
        destruct (connect_process_wiring roles linked txs w i addr sk Hw Hi E Hil Ha Hs Hnodelay)
          as (txs1 & w1 & roles1 & Hrun & Hw1).
        exists txs1, w1, roles1, (i + 1 :: linked). split_and!; [done|done|by right|].
        intros _. apply list_elem_of_here. }
    destruct (IH roles1 linked1 txs1 w1 Hw1 Hnd) as (txs2 & w2 & roles2 & linked2 & Hrun2 & Hw2 & Hl2).
    { intros j Hj. destruct (Hin j) as [Hj1 Hj2]; [by apply list_elem_of_further|]. split; [done|].
      destruct Hl1 as [->| ->]; [done|]. rewrite elem_of_cons. intros [E|E]; [|done].
      assert (j = i) by lia. by subst. }
    exists txs2, w2, roles2, linked2. split_and!; [|done|].
    + simpl. by erewrite M_bind_Ret by exact Hrun.
    + intros q Hq. apply Hl2. destruct Hq as [Hq|[Hq Hqs]].
      * left. destruct Hl1 as [->| ->]; [done|]. by apply list_elem_of_further.
      * apply elem_of_cons in Hq as [Hq|Hq]; [|by right]. left.
        assert (q = i + 1) as -> by lia. by apply Hi1.
Qed.

Lemma new_wiring w :
  reachable_peers -> (self_tx < next_channel w)%nat -> is_open w self_tx ->
  exists st w' roles, new connect oc self self_tx n tcp_locations w = (Ret st, w') /\
    wired roles self n st w' /\
    (forall q, 1 <= q <= n -> q <> self -> exists c r,
      fresh_link (processes_txs st, retransmission_txs st) w' q c r) /\
    processes_txs st !! self = Some self_tx.
Proof.
  intros Hpeers Hlt Hopen.
  destruct (connect_processes_wiring (seqZ 0 n) {[ self_tx := (self, true) ]} []
    ({[ self := self_tx ]}, {[ self := self_tx ]}) w Hpeers) as (txs & w' & roles & linked & Hrun & Hw & Hl).
  - split.
    + simpl. by rewrite !lookup_singleton_eq.
    + set_solver.
    + intros c [x Hx]. by apply lookup_singleton_Some in Hx as [<- _].
  - apply NoDup_seqZ.
  - intros i Hi%elem_of_seqZ. split; [lia|set_solver].
  - assert (forall q, 1 <= q <= n -> q <> self -> q ∈ linked) as Hall.
    { intros q Hq Hqs. apply Hl. right. rewrite elem_of_seqZ. split; [lia|done]. }
    exists (st_of txs), w', roles. split_and!.
    + unfold new. erewrite M_bind_Ret by exact Hrun. by destruct txs.
    + split; [done|exists self_tx; apply (wg_self _ _ _ _ Hw)|]. intros q Hq Hqs.
      destruct (wg_link _ _ _ _ Hw q (Hall q Hq Hqs)) as (c & r & (sk & a & Hlk & _ & _ & C1 & C2) & R1 & R2).
      exists c, r, (into_split_writer sk), None. split_and!; [done..| |]; eexists; done.
    + intros q Hq Hqs. destruct (wg_link _ _ _ _ Hw q (Hall q Hq Hqs)) as (c & r & Hf & _). by exists c, r.
    + apply (wg_self _ _ _ _ Hw).
Qed.

End New.

(** ** The tasks on wired links *)

Section Tasks.
Context {Uuid Mac : Type} `{UuidCrate Uuid, HmacCrate Mac}.
Context (key : bytes) (roles : gmap nat (Z * bool)) (self n : Z) (st : RegisterClientState).
Abbreviation command := (SystemRegisterCommand Uuid).
Implicit Types (w : Links Uuid) (q : Z).

Definition peer q : Prop := 1 <= q <= n /\ q <> self.

(** All there is to know about the link to [q]: what waits for its writer and
    for its retransmission task, and the two tasks. *)
Definition view : Type :=
  list command * list command * option WritingTask * option (RetransmissionTask Uuid).
Definition view_of w q : view :=
  (conn_queue st w q, retr_queue st w q, writing_tasks w !! q, retransmission_tasks w !! q).

Definition others_same w w' q : Prop := forall q', peer q' -> q' <> q -> view_of w' q' = view_of w q'.

Lemma retransmission_wired w q t :
  wired roles self n st w ->
  (forall t0, retransmission_tasks w !! q = Some t0 ->
    rt_connection_tx t = rt_connection_tx t0 /\ rt_rx t = rt_rx t0) ->
  wired roles self n st (w <| retransmission_tasks := <[q := t]> (retransmission_tasks w) |>).
Proof.
  intros [Hn Hs Hl] Ht. split; [done..|]. intros q' Hq Hne.
  destruct (Hl q' Hq Hne) as (c & r & sk & cmd & [L1 L2 L3 L4] & Hrest).
  destruct (decide (q = q')) as [->|Hqq].
  - exists c, r, sk, (rt_cmd t). split; [|done]. split; [done..|]. simpl. rewrite lookup_insert_eq.
    destruct t as [tc tr tm], (Ht _ L4) as [E1 E2]. simpl in *. by subst.
  - exists c, r, sk, cmd. split; [|done]. split; [done..|]. simpl. by rewrite lookup_insert_ne.
Qed.

Lemma writing_wired w q t :
  wired roles self n st w ->
  (forall t0, writing_tasks w !! q = Some t0 -> wt_rx t = wt_rx t0) ->
  wired roles self n st (w <| writing_tasks := <[q := t]> (writing_tasks w) |>).
Proof.
  intros [Hn Hs Hl] Ht. split; [done..|]. intros q' Hq Hne.
  destruct (Hl q' Hq Hne) as (c & r & sk & cmd & [L1 L2 L3 L4] & Hrest).
  destruct (decide (q = q')) as [->|Hqq].
  - exists c, r, (wt_writer t), cmd. split; [|done]. split; [done..| |done]. simpl. rewrite lookup_insert_eq.
    destruct t as [tc tw]. pose proof (Ht _ L3) as E1. simpl in *. by subst.
  - exists c, r, sk, cmd. split; [|done]. split; [done..| |done]. simpl. by rewrite lookup_insert_ne.
Qed.

(** Replacing the queue of the writer's (the retransmission task's) channel. *)
Lemma requeue_conn w q c r sk cmd l :
  wired roles self n st w -> peer q -> link st w q c r sk cmd ->
  conn_queue st (requeue c l w) q = l /\ retr_queue st (requeue c l w) q = retr_queue st w q /\
  others_same w (requeue c l w) q.
Proof.
  intros Hw [Hq Hqs] [L1 L2 L3 L4]. pose proof (role_tx _ _ _ _ _ _ _ Hw Hq L1) as Hc.
  unfold others_same, view_of, conn_queue, retr_queue. split_and!.
  - by rewrite waiting_requeue, decide_True.
  - rewrite waiting_requeue, decide_False; [done|]. eapply not_retransmission; [done..|congruence].
  - intros q' [Hq' Hqs'] Hne. rewrite !waiting_requeue, !decide_False; [done| |].
    + eapply not_retransmission; [done..|congruence].
    + eapply not_tx; [done..|congruence].
Qed.

Lemma requeue_retr w q c r sk cmd l :
  wired roles self n st w -> peer q -> link st w q c r sk cmd ->
  conn_queue st (requeue r l w) q = conn_queue st w q /\ retr_queue st (requeue r l w) q = l /\
  others_same w (requeue r l w) q.
Proof.
  intros Hw [Hq Hqs] [L1 L2 L3 L4]. pose proof (role_retransmission _ _ _ _ _ _ _ Hw Hq Hqs L2) as Hr.
  unfold others_same, view_of, conn_queue, retr_queue. split_and!.
  - rewrite waiting_requeue, decide_False; [done|]. eapply not_tx; [done..|congruence].
  - by rewrite waiting_requeue, decide_True.
  - intros q' [Hq' Hqs'] Hne. rewrite !waiting_requeue, !decide_False; [done| |].
    + eapply not_retransmission; [done..|congruence].
    + eapply not_tx; [done..|congruence].
Qed.

Lemma chan_recv_open c l w x w' :
  channels w !! c = Some {| queue := l; open := true |} -> chan_recv c w = Some (x, w') ->
  exists l', l = x :: l' /\ w' = requeue c l' w.
Proof. unfold chan_recv. intros ->. destruct l as [|y l]; [done|]. intros [= <- <-]. by exists l. Qed.

(** The writer takes the next message and writes it. *)
Lemma handle_writing_view w q w' :
  wired roles self n st w -> peer q -> handle_writing (Mac:=Mac) key q w = Some w' ->
  wired roles self n st w' /\ others_same w w' q /\
  exists m l rq c sk rt, view_of w q = (m :: l, rq, Some {| wt_rx := c; wt_writer := sk |}, rt) /\
    view_of w' q = (l, rq, Some {| wt_rx := c; wt_writer := (serialize_rc (Mac:=Mac) (System m) key sk).2 |}, rt).
Proof.
  intros Hw Hq. pose proof Hq as [Hq1 Hq2].
  destruct (wired_link _ _ _ _ _ Hw q Hq1 Hq2) as (c & r & sk & cmd & Hl & _ & _ & [l Hc] & _).
  pose proof Hl as [L1 L2 L3 L4]. unfold handle_writing. rewrite L3. simpl.
  destruct (chan_recv c w) as [[m w1]|] eqn:E; [|done]. simpl. intros [= <-].
  destruct (chan_recv_open _ _ _ _ _ Hc E) as (l' & -> & ->).
  destruct (requeue_conn w q c r sk cmd l' Hw Hq Hl) as (Q1 & Q2 & Q3).
  pose proof (requeue_wired _ _ _ _ _ c l' Hw) as Hw1. split_and!.
  - apply (writing_wired (requeue c l' w)); [done|]. intros t0. simpl. rewrite L3. by intros [= <-].
  - intros q' Hq' Hne. rewrite <- (Q3 q' Hq' Hne). unfold view_of. simpl. by rewrite lookup_insert_ne.
  - assert (conn_queue st w q = m :: l') as Hcq by (unfold conn_queue; by eapply waiting_lookup).
    eexists m, l', (retr_queue st w q), c, sk, _. unfold view_of. rewrite Hcq, L3. split; [reflexivity|].
    refine (f_equal2 pair (f_equal2 pair (f_equal2 pair Q1 Q2) _) eq_refl). apply lookup_insert_eq.
Qed.

(** The retransmission task sends its message again, or takes a new one. *)
Lemma handle_retransmission_view w tick q w' :
  wired roles self n st w -> peer q -> handle_retransmission tick q w = Some (Ret tt, w') ->
  wired roles self n st w' /\ others_same w w' q /\
  exists cq rq wt c r cmd, view_of w q = (cq, rq, wt, Some {| rt_connection_tx := c; rt_rx := r; rt_cmd := cmd |}) /\
    (if tick then view_of w' q = (cq ++ option_list cmd, rq, wt, retransmission_tasks w !! q)
     else exists m l, rq = m :: l /\
       view_of w' q = (cq, l, wt, Some {| rt_connection_tx := c; rt_rx := r; rt_cmd := Some m |})).
Proof.
  intros Hw Hq. pose proof Hq as [Hq1 Hq2].
  destruct (wired_link _ _ _ _ _ Hw q Hq1 Hq2) as (c & r & sk & cmd & Hl & _ & _ & [l Hc] & [k Hk]).
  pose proof Hl as [L1 L2 L3 L4]. unfold handle_retransmission. rewrite L4. simpl.
  assert (conn_queue st w q = l) as Hcq by (unfold conn_queue; by eapply waiting_lookup).
  assert (retr_queue st w q = k) as Hrq by (unfold retr_queue; by eapply waiting_lookup).
  destruct tick.
  - destruct cmd as [m|].
    + rewrite (chan_send_open _ _ _ _ _ Hc). intros [= <-].
      destruct (requeue_conn w q c r sk (Some m) (l ++ [m]) Hw Hq Hl) as (Q1 & Q2 & Q3).
      split_and!; [by apply requeue_wired|done|].
      eexists l, _, _, c, r, (Some m). split; [unfold view_of; by rewrite L4, Hcq|].
      unfold view_of. rewrite Q1, Q2. simpl. by rewrite L4.
    + intros [= <-]. split_and!; [done..|].
      eexists l, _, _, c, r, None. split; [unfold view_of; by rewrite L4, Hcq|].
      unfold view_of. rewrite L4, Hcq. by rewrite app_nil_r.
  - destruct (chan_recv r w) as [[m w1]|] eqn:E; [|done]. simpl. intros [= <-].
    destruct (chan_recv_open _ _ _ _ _ Hk E) as (k' & -> & ->).
    destruct (requeue_retr w q c r sk cmd k' Hw Hq Hl) as (Q1 & Q2 & Q3).
    pose proof (requeue_wired _ _ _ _ _ r k' Hw) as Hw1. split_and!.
    + apply (retransmission_wired (requeue r k' w)); [done|]. intros t0. simpl. rewrite L4. by intros [= <-].
    + intros q' Hq' Hne. rewrite <- (Q3 q' Hq' Hne). unfold view_of. simpl. by rewrite lookup_insert_ne.
    + eexists _, (m :: k'), _, c, r, cmd. split; [unfold view_of; by rewrite L4, Hrq|].
      exists m, k'. split; [done|].
      refine (f_equal2 pair (f_equal2 pair (f_equal2 pair Q1 Q2) eq_refl) _). apply lookup_insert_eq.
Qed.

End Tasks.

(** ** What goes over a link *)

Section Traffic.
Context {Uuid Mac : Type} `{UuidLaws Uuid, HmacLaws Mac}.
Abbreviation command := (SystemRegisterCommand Uuid).
Implicit Types (w : Links Uuid) (q : Z) (D sent : list command).

(** A command as it appears on the wire. *)
Definition signed (key : bytes) (cmd : command) : bytes :=
  serialize_body (System cmd) ++ default [] (tag_of (Mac:=Mac) key (serialize_body (System cmd))).

Definition wire (key : bytes) D : bytes := concat (signed key <$> D).

(** The receiver of the connection reads [k] commands. *)
Fixpoint receive (system_key client_key : bytes) (k : nat)
  : M stream Error (list (RegisterCommand Uuid * bool)) :=
  match k with
  | O => mret []
  | S k =>
      x ← deserialize_rc (Mac:=Mac) system_key client_key;
      l ← receive system_key client_key k;
      mret (x :: l)
  end.

(** Whatever a writer was given before, the task gives it the whole message. *)
Lemma serialize_signed key cmd f l :
  snd (serialize_rc (Mac:=Mac) (System cmd) key (given f l)) = given f (l ++ signed key cmd).
Proof.
  destruct (serialize_rc_writes (Mac:=Mac) (System cmd) key (given f l)) as (tag & Htag & _ & ->).
  unfold signed. rewrite Htag. apply write_all_given.
Qed.

Lemma deserialize_signed sk ck cmd rest e :
  system_ok cmd ->
  deserialize_rc (Uuid:=Uuid) (Mac:=Mac) sk ck {| pending := signed sk cmd ++ rest; at_end := e |} =
    (Ret (System cmd, true), {| pending := rest; at_end := e |}).
Proof.
  intros Hc. unfold signed. destruct (tag_of_total (Mac:=Mac) sk (serialize_body (System cmd))) as (tag & Htag & Hlen).
  rewrite Htag. cbn [default]. rewrite (serialize_body_frame (System cmd) Hc) in *.
  change (default [] (Some tag)) with tag. rewrite <- app_assoc.
  rewrite (deserialize_frame sk ck _ (System cmd) tag rest e Hc (zero_padding_ok _) Hlen).
  by rewrite bool_decide_true.
Qed.

Lemma receive_wire sk ck D rest e :
  Forall system_ok D ->
  receive sk ck (length D) {| pending := wire sk D ++ rest; at_end := e |} =
    (Ret ((fun c => (System c, true)) <$> D), {| pending := rest; at_end := e |}).
Proof.
  induction 1 as [|c D Hc _ IH]; [done|]. unfold wire in *. simpl. rewrite <- app_assoc.
  erewrite M_bind_Ret by by apply deserialize_signed. by erewrite M_bind_Ret by exact IH.
Qed.

Lemma wire_snoc key D m : wire key (D ++ [m]) = wire key D ++ signed key m.
Proof. unfold wire. rewrite fmap_app, concat_app. simpl. by rewrite app_nil_r. Qed.

(** A strict prefix of a message is not read as a message. *)
Lemma deserialize_cut_short sk ck cmd p e :
  system_ok cmd -> p `prefix_of` signed sk cmd -> p <> signed sk cmd ->
  exists s', deserialize_rc (Uuid:=Uuid) (Mac:=Mac) sk ck {| pending := p; at_end := e |} = (Err e, s').
Proof.
  intros Hc [z Hz] Hne. unfold signed in *.
  destruct (tag_of_total (Mac:=Mac) sk (serialize_body (System cmd))) as (tag & Htag & Hlen).
  rewrite Htag in Hz, Hne. eapply (truncated_message_is_error sk ck (System cmd) tag p z e Hc Htag Hz).
  intros ->. rewrite app_nil_r in Hz. congruence.
Qed.

Lemma deserialize_nothing sk ck e :
  exists s', deserialize_rc (Uuid:=Uuid) (Mac:=Mac) sk ck {| pending := []; at_end := e |} = (Err e, s').
Proof. eexists. reflexivity. Qed.

(** A prefix of the messages on the wire is read as the whole messages in it,
    and then the reader meets the end of the stream. *)
Lemma receive_prefix sk ck D p e :
  Forall system_ok D -> p `prefix_of` wire sk D ->
  exists D1 D2 s1 s2, D = D1 ++ D2 /\
    receive sk ck (length D1) {| pending := p; at_end := e |} =
      (Ret ((fun c => (System c, true)) <$> D1), s1) /\
    deserialize_rc (Uuid:=Uuid) (Mac:=Mac) sk ck s1 = (Err e, s2) /\
    (p = wire sk D -> D2 = []).
Proof.
  intros Hok. revert p. induction Hok as [|c D Hc Hok IH]; intros p Hp.
  - apply prefix_nil_inv in Hp as ->. destruct (deserialize_nothing sk ck e) as [s' Hs'].
    by exists [], [], {| pending := []; at_end := e |}, s'.
  - change (wire sk (c :: D)) with (signed sk c ++ wire sk D) in *.
    destruct (decide (length (signed sk c) <= length p)%nat) as [Hlen|Hlen].
    + destruct Hp as [z Hz]. assert (exists p', p = signed sk c ++ p' /\ wire sk D = p' ++ z) as (p' & -> & Hz').
      { exists (drop (length (signed sk c)) p). pose proof Hz as Hz1.
        apply (f_equal (take (length (signed sk c)))) in Hz. rewrite take_app_length, take_app_le in Hz by done.
        rewrite Hz at 1. rewrite take_drop. split; [done|].
        apply (f_equal (drop (length (signed sk c)))) in Hz1.
        by rewrite drop_app_length, drop_app_le in Hz1. }
      destruct (IH p' ltac:(by exists z)) as (D1 & D2 & s1 & s2 & -> & Hrecv & Herr & Hall).
      exists (c :: D1), D2, s1, s2. split_and!; [done| |done|].
      * simpl. erewrite M_bind_Ret by by apply deserialize_signed. by erewrite M_bind_Ret by exact Hrecv.
      * intros Heq. apply app_inv_head in Heq. auto.
    + assert (p `prefix_of` signed sk c) as Hp1.
      { destruct Hp as [z Hz]. exists (drop (length p) (signed sk c)).
        apply (f_equal (take (length p))) in Hz. rewrite take_app_length, take_app_le in Hz by lia.
        rewrite <- Hz at 1. by rewrite take_drop. }
      destruct (deserialize_cut_short sk ck c p e Hc Hp1) as [s' Hs']; [intros ->; lia|].
      exists [], (c :: D), {| pending := p; at_end := e |}, s'. split_and!; [done..|].
      intros ->. rewrite length_app in Hlen. lia.
Qed.

(** What registers do with the links, and turns of the tasks. *)
Inductive link_event :=
| LSend (cmd : command) (target : Z)
| LBroadcast (cmd : command)
| LWrite (q : Z)
| LRetransmit (tick : bool) (q : Z).

(** The messages of an event for process [q]. *)
Definition handed_by (ev : link_event) q : list command :=
  match ev with
  | LSend cmd target => if decide (q = target) then [cmd] else []
  | LBroadcast cmd => [cmd]
  | _ => []
  end.

Section Link.
Context (key : bytes) (roles : gmap nat (Z * bool)) (self n : Z) (st : RegisterClientState).
Context (Hself : 1 <= self <= n).

Inductive link_step w : link_event -> Links Uuid -> Prop :=
| link_send cmd target w' :
    1 <= target <= n -> send st cmd target w = (Ret tt, w') -> link_step w (LSend cmd target) w'
| link_broadcast cmd w' :
    broadcast st cmd w = (Ret tt, w') -> link_step w (LBroadcast cmd) w'
| link_write q w' :
    peer self n q -> handle_writing (Mac:=Mac) key q w = Some w' -> link_step w (LWrite q) w'
| link_retransmit tick q w' :
    peer self n q -> handle_retransmission tick q w = Some (Ret tt, w') ->
    link_step w (LRetransmit tick q) w'.

Inductive link_run w : list link_event -> Links Uuid -> Prop :=
| link_run_nil : link_run w [] w
| link_run_snoc evs w1 ev w2 : link_run w evs w1 -> link_step w1 ev w2 -> link_run w (evs ++ [ev]) w2.

(** [sent] was handed over for this process: the writer, on a connection with
    the fault [f], was given the messages [D]; the retransmission task has taken
    all but what waits for it, and remembers the last. *)
Definition traffic f sent D (v : view) : Prop :=
  exists cq rq c r taken,
    v = (cq, rq, Some {| wt_rx := c; wt_writer := given f (wire key D) |},
         Some {| rt_connection_tx := c; rt_rx := r; rt_cmd := list.last taken |}) /\
    sent `sublist_of` (D ++ cq) /\ (forall m, m ∈ D ++ cq -> m ∈ sent) /\ sent = taken ++ rq.

Lemma traffic_handed f sent D cq rq wt rt m :
  traffic f sent D (cq, rq, wt, rt) -> traffic f (sent ++ [m]) D (cq ++ [m], rq ++ [m], wt, rt).
Proof.
  intros (? & ? & c & r & taken & [= <- <- -> ->] & Hsub & Hin & ->).
  eexists _, _, c, r, taken. split; [reflexivity|]. split_and!.
  - rewrite app_assoc. by apply sublist_app.
  - intros x. specialize (Hin x). rewrite !elem_of_app in *. naive_solver.
  - by rewrite app_assoc.
Qed.

Lemma traffic_written f sent D m cq rq c sk rt :
  traffic f sent D (m :: cq, rq, Some {| wt_rx := c; wt_writer := sk |}, rt) ->
  traffic f sent (D ++ [m]) (cq, rq, Some {| wt_rx := c; wt_writer := (serialize_rc (Mac:=Mac) (System m) key sk).2 |}, rt).
Proof.
  intros (? & ? & c' & r & taken & [= <- <- <- -> ->] & Hsub & Hin & Htaken).
  eexists _, _, c, r, taken. split; [by rewrite serialize_signed, <- wire_snoc|].
  by rewrite <- !app_assoc.
Qed.

Lemma traffic_tick f sent D cq rq wt c r cmd :
  traffic f sent D (cq, rq, wt, Some {| rt_connection_tx := c; rt_rx := r; rt_cmd := cmd |}) ->
  traffic f sent D (cq ++ option_list cmd, rq, wt, Some {| rt_connection_tx := c; rt_rx := r; rt_cmd := cmd |}).
Proof.
  intros (? & ? & c' & r' & taken & [= <- <- -> <- <- ->] & Hsub & Hin & ->).
  eexists _, _, c, r, taken. split; [reflexivity|]. split_and!; [| |done].
  - rewrite app_assoc. by apply sublist_inserts_r.
  - intros x. specialize (Hin x). rewrite !elem_of_app in *. intros [?|[?|Hx]]; [tauto..|].
    left. destruct (list.last taken) as [y|] eqn:E; [|by apply not_elem_of_nil in Hx].
    apply list_elem_of_singleton in Hx as ->. by eapply last_Some_elem_of.
Qed.

Lemma traffic_latest f sent D cq rq wt c r cmd m :
  traffic f sent D (cq, m :: rq, wt, Some {| rt_connection_tx := c; rt_rx := r; rt_cmd := cmd |}) ->
  traffic f sent D (cq, rq, wt, Some {| rt_connection_tx := c; rt_rx := r; rt_cmd := Some m |}).
Proof.
  intros (? & ? & c' & r' & taken & [= <- <- -> <- <- _] & Hsub & Hin & ->).
  eexists _, _, c, r, (taken ++ [m]). rewrite last_snoc. split; [reflexivity|]. by rewrite <- app_assoc.
Qed.

Definition handed (evs : list link_event) q : list command := evs ≫= fun ev => handed_by ev q.

Lemma handed_snoc evs ev q : handed (evs ++ [ev]) q = handed evs q ++ handed_by ev q.
Proof. unfold handed. rewrite bind_app. simpl. by rewrite app_nil_r. Qed.

Lemma send_unique w cmd target w' :
  wired roles self n st w -> 1 <= target <= n -> send st cmd target w = (Ret tt, w') ->
  handed_over roles self n st target cmd w w'.
Proof.
  intros Hw Ht Hrun. destruct (send_wired roles self n st w cmd target Hw Hself Ht) as (w1 & Hrun1 & Hh).
  rewrite Hrun in Hrun1. by injection Hrun1 as <-.
Qed.

Lemma link_step_wired w ev w' : wired roles self n st w -> link_step w ev w' -> wired roles self n st w'.
Proof.
  intros Hw [cmd t w1 Ht Hrun|cmd w1 Hrun|q w1 Hq Hrun|tick q w1 Hq Hrun].
  - by eapply ho_wired, send_unique.
  - destruct (broadcast_wired roles self n st w cmd Hw Hself) as (w2 & Hrun2 & Hw2 & _). congruence.
  - by eapply handle_writing_view in Hrun as [? _].
  - by eapply handle_retransmission_view in Hrun as [? _].
Qed.

Lemma view_handed w w' q m (l : list command) :
  same_tasks w w' -> conn_queue st w' q = conn_queue st w q ++ l ->
  retr_queue st w' q = retr_queue st w q ++ l -> l = [m] \/ l = [] ->
  forall f sent D, traffic f sent D (view_of st w q) -> traffic f (sent ++ l) D (view_of st w' q).
Proof.
  intros [E1 E2] Hc Hr [-> | ->] f sent D Ht; unfold view_of; rewrite Hc, Hr, E1, E2.
  - by apply traffic_handed.
  - by rewrite !app_nil_r.
Qed.

Lemma link_step_traffic w ev w' q f sent D :
  wired roles self n st w -> link_step w ev w' -> peer self n q ->
  traffic f sent D (view_of st w q) -> exists D', traffic f (sent ++ handed_by ev q) D' (view_of st w' q).
Proof.
  intros Hw Hstep Hq. pose proof Hq as [Hq1 Hq2].
  destruct Hstep as [cmd t w1 Ht Hrun|cmd w1 Hrun|q' w1 Hq' Hrun|tick q' w1 Hq' Hrun]; simpl; intros Htr.
  - exists D. apply send_unique in Hrun as [_ Hs Hc Hr]; [|done..].
    specialize (Hc q Hq1). specialize (Hr q Hq1 Hq2). unfold copies in Hc. rewrite (decide_False (P:=q = self)) in Hc by done.
    eapply (view_handed w w1 q cmd); [done..| |done]. case_decide; auto.
  - exists D. destruct (broadcast_wired roles self n st w cmd Hw Hself) as (w2 & Hrun2 & _ & Hs & Hc & Hr).
    assert (w2 = w1) as -> by congruence. specialize (Hc q Hq1). rewrite decide_False in Hc by done.
    eapply (view_handed w w1 q cmd); [done..| |by left|done]. by apply Hr.
  - rewrite app_nil_r. destruct (handle_writing_view key roles self n st w q' w1 Hw Hq' Hrun)
      as (_ & Hsame & m & l & rq & c & sk & rt & V1 & V2).
    destruct (decide (q = q')) as [->|Hne]; [|exists D; by rewrite (Hsame q Hq Hne)].
    exists (D ++ [m]). rewrite V2. apply traffic_written. by rewrite <- V1.
  - rewrite app_nil_r. destruct (handle_retransmission_view roles self n st w tick q' w1 Hw Hq' Hrun)
      as (_ & Hsame & cq & rq & wt & c & r & cmd & V1 & V2). exists D.
    destruct (decide (q = q')) as [->|Hne]; [|by rewrite (Hsame q Hq Hne)].
    destruct tick; [|destruct V2 as (m & l & -> & V2)]; rewrite V2; rewrite V1 in Htr.
    + injection V1 as _ _ _ ->. by apply traffic_tick.
    + by eapply traffic_latest.
Qed.

Lemma link_run_traffic w0 evs w q f :
  wired roles self n st w0 -> link_run w0 evs w -> peer self n q ->
  traffic f [] [] (view_of st w0 q) ->
  wired roles self n st w /\ exists D, traffic f (handed evs q) D (view_of st w q).
Proof.
  intros Hw0 Hrun Hq Ht0. induction Hrun as [|evs w1 ev w2 Hrun [Hw1 [D Ht]] Hstep]; [by eauto|].
  split; [by eapply link_step_wired|]. rewrite handed_snoc. by eapply link_step_traffic.
Qed.

Lemma link_run_wired w0 evs w :
  wired roles self n st w0 -> link_run w0 evs w -> wired roles self n st w.
Proof. intros Hw0. induction 1; [done|]. by eapply link_step_wired. Qed.

End Link.

(** ** A process that has connected *)

Section Connected.
Context (connect : string * Z -> option TcpStream) (oc : bool) (key : bytes).
Context (self n : Z) (self_tx : nat) (tcp_locations : list (string * Z)) (w : Links Uuid).
Hypothesis Hself : 1 <= self <= n.
Hypothesis Hpeers : reachable_peers connect self n tcp_locations.
Hypothesis Hself_tx : (self_tx < next_channel w)%nat /\ is_open w self_tx.

(** The links of the process after [new] and any traffic. *)
Definition connected st evs w' : Prop :=
  exists w0, new connect oc self self_tx n tcp_locations w = (Ret st, w0) /\
    link_run key self n st w0 evs w'.

Lemma connected_wired st evs w' :
  connected st evs w' -> exists roles w0, wired roles self n st w0 /\ link_run key self n st w0 evs w' /\
    processes_txs st !! self = Some self_tx /\
    forall q, peer self n q -> exists addr stream, tcp_locations !! Z.to_nat (q - 1) = Some addr /\
      connect addr = Some stream /\ traffic key (stream_fault stream) [] [] (view_of st w0 q).
Proof.
  intros (w0 & Hnew & Hrun). destruct Hself_tx as [Hlt Hopen].
  destruct (new_wiring connect oc self n self_tx tcp_locations Hself w Hpeers Hlt Hopen)
    as (st1 & w1 & roles & Hnew1 & Hw & Hfresh & Htx).
  rewrite Hnew in Hnew1. injection Hnew1 as <- <-.
  exists roles, w0. split_and!; [done..|]. intros q [Hq1 Hq2].
  destruct (Hfresh q Hq1 Hq2) as (c & r & stream & addr & [L1 L2 L3 L4] & Haddr & Hconn & C1 & C2).
  simpl in L1, L2. exists addr, stream. split_and!; [done..|].
  exists [], [], c, r, []. unfold view_of, conn_queue, retr_queue.
  rewrite (waiting_lookup _ _ _ _ _ _ L1 C1), (waiting_lookup _ _ _ _ _ _ L2 C2), L3, L4.
  by split_and!.
Qed.

(** What is known of the link to [q] after any traffic. *)
Lemma connected_traffic st evs w' q :
  connected st evs w' -> peer self n q -> exists roles addr stream D,
    wired roles self n st w' /\ tcp_locations !! Z.to_nat (q - 1) = Some addr /\ connect addr = Some stream /\
    traffic key (stream_fault stream) (handed evs q) D (view_of st w' q).
Proof.
  intros Hconn Hq. destruct (connected_wired st evs w' Hconn) as (roles & w0 & Hw0 & Hrun & _ & Ht0).
  destruct (Ht0 q Hq) as (addr & stream & Haddr & Hstream & Ht).
  destruct (link_run_traffic key roles self n st Hself w0 evs w' q _ Hw0 Hrun Hq Ht) as [Hw' [D HD]].
  by exists roles, addr, stream, D.
Qed.

(** C22: Whatever went over the links before, a broadcast returns and adds the
    message once to the connection of every other process and once to its
    retransmission task; the process itself gets it twice, since both entries
    for itself are the same channel. *)
Theorem broadcast_reaches_every_process st evs w' m :
  connected st evs w' -> exists w2, broadcast st m w' = (Ret tt, w2) /\
    (forall q, 1 <= q <= n ->
      conn_queue st w2 q = conn_queue st w' q ++ if decide (q = self) then [m; m] else [m]) /\
    (forall q, 1 <= q <= n -> q <> self -> retr_queue st w2 q = retr_queue st w' q ++ [m]).
Proof.
  intros (roles & w0 & Hw0 & Hrun & _)%connected_wired.
  destruct (broadcast_wired roles self n st w' m) as (w2 & R1 & _ & _ & R2 & R3); [|done|by exists w2].
  by eapply link_run_wired.
Qed.

(** C21: The writing task gives the connection to another process the messages
    [D] one after another, whether or not the connection has broken: all of them
    were handed over for that process, and what was handed over is all in [D] or
    still waiting for the task, in its order.  Whatever part [got] of the bytes
    reaches the other process, it reads the first messages [D1] of [D], each
    with a valid HMAC and nothing in between, and then the end of the stream: a
    message cut off by the break is not read.  If all the written bytes arrive,
    messages are missing ([D2]) only when the connection broke before the
    end of [D]. *)
Theorem link_carries_what_was_sent st evs w' q ck e :
  connected st evs w' -> peer self n q -> Forall system_ok (handed evs q) ->
  exists addr stream D t,
    tcp_locations !! Z.to_nat (q - 1) = Some addr /\ connect addr = Some stream /\
    writing_tasks w' !! q = Some t /\
    (forall m, m ∈ D -> m ∈ handed evs q) /\
    handed evs q `sublist_of` D ++ conn_queue st w' q /\
    (forall got, got `prefix_of` written (wt_writer t) -> exists D1 D2 s1 s2, D = D1 ++ D2 /\
      receive key ck (length D1) {| pending := got; at_end := e |} =
        (Ret ((fun c => (System c, true)) <$> D1), s1) /\
      deserialize_rc (Uuid:=Uuid) (Mac:=Mac) key ck s1 = (Err e, s2) /\
      (got = written (wt_writer t) ->
        D2 = [] \/ exists room err, stream_fault stream = Some (room, err) /\
          (room < length (wire key D))%nat)).
Proof.
  intros Hconn Hq Hok. destruct (connected_traffic st evs w' q Hconn Hq)
    as (roles & addr & stream & D & Hw' & Haddr & Hstream & cq & rq & c & r & taken & Hv & Hsub & Hin & _).
  injection Hv as <- <- Hwt _. eexists addr, stream, D, _. split_and!; [done..| | |].
  - intros m Hm. apply Hin. rewrite elem_of_app. by left.
  - done.
  - simpl. intros got Hgot. destruct (receive_prefix key ck D got e) as (D1 & D2 & s1 & s2 & HD & Hrecv & Herr & Hall).
    + rewrite list.Forall_forall in Hok |- *. intros m Hm. apply Hok, Hin. rewrite elem_of_app. by left.
    + by etrans; [|apply cut_prefix].
    + exists D1, D2, s1, s2. split_and!; [done..|]. intros ->.
      destruct (cut_all (stream_fault stream) (wire key D)) as [E|Hbroken]; [|by right]. left. auto.
Qed.

(** C23: Only the latest message for a process is retransmitted: the
    retransmission task takes the messages handed over for the process in their
    order, and a tick puts the last one that it has taken (if any) into the
    writer's queue again, and nothing else; while messages are waiting for the
    task, that is an older one than the last handed over. *)
Theorem retransmits_only_latest st evs w' q :
  connected st evs w' -> peer self n q ->
  exists taken, handed evs q = taken ++ retr_queue st w' q /\
    (exists w2, handle_retransmission true q w' = Some (Ret tt, w2) /\
      conn_queue st w2 q = conn_queue st w' q ++ option_list (list.last taken) /\
      retr_queue st w2 q = retr_queue st w' q) /\
    (forall m rest, retr_queue st w' q = m :: rest ->
      exists w3, handle_retransmission false q w' = Some (Ret tt, w3) /\
        conn_queue st w3 q = conn_queue st w' q /\ retr_queue st w3 q = rest).
Proof.
  intros Hconn Hq. destruct (connected_traffic st evs w' q Hconn Hq)
    as (roles & addr & stream & D & Hw' & _ & _ & cq & rq & c & r & taken & Hv & _ & _ & Htaken).
  injection Hv as <- <- _ Hrt. exists taken. split; [done|]. pose proof Hq as [Hq1 Hq2].
  destruct (wired_link _ _ _ _ _ Hw' q Hq1 Hq2) as (c' & r' & sk & cmd & [_ L2 _ L4] & _ & _ & [l Hl] & [k Hk]).
  rewrite Hrt in L4. injection L4 as <- <- _. split.
  - assert (exists w2, handle_retransmission true q w' = Some (Ret tt, w2)) as [w2 Hstep].
    { unfold handle_retransmission. rewrite Hrt. simpl. destruct (list.last taken) as [m|]; [|by eauto].
      rewrite (chan_send_open _ _ _ _ _ Hl). by eauto. }
    exists w2. split; [done|].
    destruct (handle_retransmission_view roles self n st w' true q w2 Hw' Hq Hstep)
      as (_ & _ & cq & rq & wt & c1 & r1 & cmd1 & V1 & V2).
    injection V1 as <- <- _ V1. injection V2 as V2 V3 _ _. rewrite V2, V3.
    rewrite Hrt in V1. injection V1 as _ _ <-. done.
  - intros m rest Hm. assert (k = m :: rest) as ->.
    { rewrite <- Hm. symmetry. unfold retr_queue. by eapply waiting_lookup. }
    assert (exists w3, handle_retransmission false q w' = Some (Ret tt, w3)) as [w3 Hstep].
    { unfold handle_retransmission, chan_recv. rewrite Hrt. simpl. rewrite Hk. by eauto. }
    exists w3. split; [done|].
    destruct (handle_retransmission_view roles self n st w' false q w3 Hw' Hq Hstep)
      as (_ & _ & cq & rq & wt & c1 & r1 & cmd1 & V1 & m' & l' & -> & V2).
    injection V1 as <- V1 _ _. injection V2 as -> -> _ _. split; [done|]. congruence.
Qed.

End Connected.
End Traffic.

(** ** The theorems on concrete links

    Process 1 of 2 sends three messages to process 2, on a connection that
    breaks in the middle of the second one. *)

Module RegisterClientExamples.

Abbreviation command := (SystemRegisterCommand Toy.Uuid).

Definition key : bytes := replicate 64 1.
Definition client_key : bytes := replicate 32 2.
Definition eof : Error := {| kind := UnexpectedEof; inner := None |}.

Definition reset : Error := {| kind := ConnectionReset; inner := None |}.

Definition connect (addr : string * Z) : option TcpStream :=
  Some {| stream_fault := Some (80%nat, reset); nodelay_ok := true |}.
Definition locations : list (string * Z) := [("127.0.0.1", 4001); ("127.0.0.1", 4002)].

(** The channel of the process to itself is there already. *)
Definition start : Links Toy.Uuid :=
  {| channels := {[ 0%nat := {| queue := []; open := true |} ]}; next_channel := 1;
     writing_tasks := ∅; retransmission_tasks := ∅ |}.

Definition msg (sector : Z) (ct : SystemRegisterCommandContent) : command :=
  {| header := {| process_identifier := 1;
                  msg_ident := {| Toy.number := 77; Toy.number_ok := eq_refl |}; sector_idx := sector |};
     content := ct |}.

Definition script : list (link_event (Uuid:=Toy.Uuid)) :=
  [LSend (msg 4 Ack) 2; LBroadcast (msg 5 ReadProc); LWrite 2; LRetransmit false 2;
   LSend (msg 6 Ack) 2; LRetransmit false 2; LRetransmit false 2; LWrite 2].

Definition exec (st : RegisterClientState) (ev : link_event) (w : Links Toy.Uuid) : option (Links Toy.Uuid) :=
  match ev with
  | LSend cmd t =>
      if decide (1 <= t <= 2) then
        match send st cmd t w with (Ret _, w) => Some w | _ => None end
      else None
  | LBroadcast cmd => match broadcast st cmd w with (Ret _, w) => Some w | _ => None end
  | LWrite q =>
      if decide (1 <= q <= 2 /\ q <> 1) then handle_writing (Mac:=Toy.Mac) key q w else None
  | LRetransmit tick q =>
      if decide (1 <= q <= 2 /\ q <> 1) then
        match handle_retransmission tick q w with Some (Ret _, w) => Some w | _ => None end
      else None
  end.

Lemma exec_link_step st ev w w' : exec st ev w = Some w' -> link_step (Mac:=Toy.Mac) key 1 2 st w ev w'.
Proof.
  destruct ev as [cmd t|cmd|q|tick q]; simpl.
  - case_decide; [|done]. destruct (send st cmd t w) as [[[]| |] w1] eqn:E; [|done..].
    intros [= <-]. by constructor.
  - destruct (broadcast st cmd w) as [[[]| |] w1] eqn:E; [|done..]. intros [= <-]. by constructor.
  - case_decide; [|done]. intros E. by constructor.
  - case_decide; [|done]. destruct (handle_retransmission tick q w) as [[[[]| |] w1]|] eqn:E; [|done..].
    intros [= <-]. by constructor.
Qed.

Lemma exec_link_run st evs w0 w1 w2 evs0 :
  link_run (Mac:=Toy.Mac) key 1 2 st w0 evs0 w1 ->
  foldl (fun o ev => o ≫= exec st ev) (Some w1) evs = Some w2 ->
  link_run (Mac:=Toy.Mac) key 1 2 st w0 (evs0 ++ evs) w2.
Proof.
  revert w1 evs0. induction evs as [|ev evs IH]; intros w1 evs0 Hrun; simpl.
  - intros [= <-]. by rewrite app_nil_r.
  - destruct (exec st ev w1) as [w3|] eqn:E.
    + intros Hf. replace (evs0 ++ ev :: evs) with ((evs0 ++ [ev]) ++ evs) by by rewrite <- app_assoc.
      eapply IH; [|exact Hf]. econstructor; [done|]. by apply exec_link_step.
    + intros Hf. exfalso. clear -Hf. induction evs as [|ev' evs IH]; [done|]. by apply IH.
Qed.

Lemma connected_example :
  exists st w, connected (Mac:=Toy.Mac) connect true key 1 2 0 locations start st script w /\
    retr_queue st w 2 = [] /\ conn_queue st w 2 = [msg 6 Ack] /\
    (length ∘ written ∘ wt_writer) <$> writing_tasks w !! 2 = Some 80%nat.
Proof.
  destruct (new connect true 1 0 2 locations start) as [o w0] eqn:E. pose proof E as Hnew.
  vm_compute in E. injection E as <- <-.
  match type of Hnew with _ = (Ret ?st, ?w0) =>
    destruct (foldl (fun o ev => o ≫= exec st ev) (Some w0) script) as [w|] eqn:Hrun;
      [|vm_compute in Hrun; discriminate Hrun]; exists st, w end.
  split.
  - eexists. split; [exact Hnew|]. eapply (exec_link_run _ script _ _ _ []); [constructor|exact Hrun].
  - vm_compute in Hrun. injection Hrun as <-. by vm_compute.
Qed.

Lemma peers_example : reachable_peers connect 1 2 locations.
Proof.
  intros i Hi Hne. assert (i = 1) as -> by lia. by eexists _, _.
Qed.

Lemma peer_example : peer 1 2 2.
Proof. split; lia. Qed.

Lemma start_example : (0 < next_channel start)%nat /\ is_open start 0.
Proof. split; [simpl; lia|]. by eexists. Qed.

Lemma messages_ok : Forall system_ok (handed script 2).
Proof.
  change (handed script 2) with [msg 4 Ack; msg 5 ReadProc; msg 6 Ack].
  repeat (constructor; [split; [by_evaluation|split; [by_evaluation|exact I]]|]). constructor.
Qed.

Lemma broadcast_reaches_every_process_witness :
  exists st w w2, broadcast st (msg 5 Ack) w = (Ret tt, w2) /\
    conn_queue st w2 2 = [msg 6 Ack; msg 5 Ack] /\ conn_queue st w2 1 = conn_queue st w 1 ++ [msg 5 Ack; msg 5 Ack].
Proof.
  destruct connected_example as (st & w & Hc & _ & Hq & _).
  destruct (broadcast_reaches_every_process connect true key 1 2 0 locations start ltac:(lia) peers_example
    start_example st script w (msg 5 Ack) Hc) as (w2 & H1 & H2 & _).
  exists st, w, w2. split; [exact H1|]. split; [|exact (H2 1 ltac:(lia))].
  rewrite (H2 2 ltac:(lia)), Hq. reflexivity.
Defined.

(** The connection took the first message and a part of the second. *)
Lemma link_carries_what_was_sent_witness :
  exists st w D t D1 D2 s1 s2, writing_tasks w !! 2 = Some t /\ conn_queue st w 2 = [msg 6 Ack] /\
    handed script 2 `sublist_of` D ++ [msg 6 Ack] /\ D = D1 ++ D2 /\
    receive (Mac:=Toy.Mac) key client_key (length D1) {| pending := written (wt_writer t); at_end := eof |} =
      (Ret ((fun c => (System c, true)) <$> D1), s1) /\
    deserialize_rc (Uuid:=Toy.Uuid) (Mac:=Toy.Mac) key client_key s1 = (Err eof, s2) /\
    length (written (wt_writer t)) = 80%nat.
Proof.
  destruct connected_example as (st & w & Hc & _ & Hq & Hlen).
  destruct (link_carries_what_was_sent connect true key 1 2 0 locations start ltac:(lia) peers_example
    start_example st script w 2 client_key eof Hc peer_example messages_ok)
    as (addr & stream & D & t & _ & _ & Ht & _ & Hsub & Hrecv).
  destruct (Hrecv _ (reflexivity _)) as (D1 & D2 & s1 & s2 & H1 & H2 & H3 & _).
  rewrite Hq in Hsub. exists st, w, D, t, D1, D2, s1, s2. split_and!; [done..|]. rewrite Ht in Hlen. by injection Hlen.
Defined.

Lemma retransmits_only_latest_witness :
  exists st w w2, handle_retransmission true 2 w = Some (Ret tt, w2) /\
    conn_queue st w2 2 = [msg 6 Ack; msg 6 Ack].
Proof.
  destruct connected_example as (st & w & Hc & Hr & Hq & _).
  destruct (retransmits_only_latest connect true key 1 2 0 locations start ltac:(lia) peers_example
    start_example st script w 2 Hc peer_example) as (taken & H0 & (w2 & H1 & H2 & _) & _).
  exists st, w, w2. split; [exact H1|]. rewrite Hr, app_nil_r in H0. rewrite H2, Hq, <- H0. reflexivity.
Defined.

End RegisterClientExamples.
