(* ===== verification/Responses.v ===== *)
(** * Answers to clients: the response functions of [solution/src/register_process.rs]

    The construction of the three kinds of response and their delivery, and, on
    the other side of the connection, the reader that the test utilities
    ([test-utils/system.rs]) use. *)

From S2P Require Import Prelude Domain Crates Transfer.

Section Responses.
Context {Uuid Mac : Type} `{HmacCrate Mac}.

(** ** Construction *)

Definition get_rid_and_msg_type {E} (cmd : RegisterCommand Uuid) : outcome E (u64 * u8) :=
  match cmd with
  | Client {| c_header := header; c_content := content |} =>
      match content with
      | Read => Ret (request_identifier header, 0x01)
      | Write _ => Ret (request_identifier header, 0x02)
      end
  | System _ => Panic "System command should not be handled here"
  end.

(** The tag of [buf], and [buf] followed by it. *)
Definition seal (hmac_client_key buf : bytes) : outcome Error bytes :=
  mac ← expect "HMAC can take key of any size" (new_from_slice hmac_client_key);
  tag ← expect "HMAC output is of the correct length" (to_array 32 (finalize (mac_update (mac : Mac) buf)));
  mret (vec_write_all buf tag).

Definition construct_valid_response (overflow_checks : bool) (op_success : OperationSuccess)
    (hmac_client_key : bytes) (msg_type : u8) (request_identifier : u64) : outcome Error bytes :=
  let status_code := StatusCode.as_u8 StatusCode.Ok in
  response_msg_type ← u8_add overflow_checks msg_type 0x40;
  let buf := vec_write_all [] MAGIC_NUMBER in
  let buf := vec_write_all buf [0; 0; status_code; response_msg_type] in
  let buf := vec_write_all buf (to_be_bytes 8 request_identifier) in
  let buf := match op_return op_success with
             | ReadReturn read_data => vec_write_all buf read_data
             | WriteReturn => buf
             end in
  seal hmac_client_key buf.

Definition construct_invalid_hmac_response (overflow_checks : bool) (hmac_client_key : bytes)
    (msg_type : u8) (request_identifier : u64) : outcome Error bytes :=
  let status_code := StatusCode.as_u8 StatusCode.AuthFailure in
  response_msg_type ← u8_add overflow_checks msg_type 0x40;
  let buf := vec_write_all [] MAGIC_NUMBER in
  let buf := vec_write_all buf [0; 0; status_code; response_msg_type] in
  let buf := vec_write_all buf (to_be_bytes 8 request_identifier) in
  seal hmac_client_key buf.

Definition construct_invalid_sector_index_response (overflow_checks : bool) (hmac_client_key : bytes)
    (msg_type : u8) (request_identifier : u64) : outcome Error bytes :=
  let status_code := StatusCode.as_u8 StatusCode.InvalidSectorIndex in
  response_msg_type ← u8_add overflow_checks msg_type 0x40;
  let buf := vec_write_all [] MAGIC_NUMBER in
  let buf := vec_write_all buf [0; 0; status_code; response_msg_type] in
  let buf := vec_write_all buf (to_be_bytes 8 request_identifier) in
  seal hmac_client_key buf.

(** [send_response]: the writer of the connection is locked for the whole
    response. *)
Definition send_response {E} (response : bytes) : M sink E unit := fun writer =>
  match write_all response writer with
  | (Ret _, writer) => (Ret tt, writer)
  | (_, writer) => (Panic "Failed to write response", writer)
  end.

Lemma send_response_cases {E} response w :
  send_response (E:=E) response w = (Ret tt, wrote response w) \/
  exists why w', send_response (E:=E) response w = (Panic why, w') /\ full w' /\ fault w <> None.
Proof.
  unfold send_response. destruct (write_all_cases response w) as [->|(e & w' & -> & Hfull & Hf)]; [by left|].
  right. by eexists _, w'.
Qed.

Lemma send_response_full {E} response w : full w -> full (snd (send_response (E:=E) response w)).
Proof.
  intros Hw. pose proof (write_all_full response w Hw) as Hfull. unfold send_response.
  by destruct (write_all response w) as [[[]| |] w'].
Qed.

(** ** The reader of the tests *)

Inductive RegisterResponseContent := ResponseRead (sector : SectorVec) | ResponseWrite.

Record RegisterResponse := {
  status_code : StatusCode.t;
  response_request_identifier : u64;
  response_content : RegisterResponseContent;
  hmac_tag : bytes;
}.

Definition response_msg_type (content : RegisterResponseContent) : u8 :=
  match content with ResponseRead _ => 0x41 | ResponseWrite => 0x42 end.

Definition try_to_status_code (byte : u8) : option StatusCode.t :=
  match byte with
  | 0 => Some StatusCode.Ok
  | 1 => Some StatusCode.AuthFailure
  | 2 => Some StatusCode.InvalidSectorIndex
  | _ => None
  end.

(** [stream.read_exact(..).await.unwrap()]. *)
Definition read_or_panic (k : nat) : M stream string bytes := fun s =>
  match read_exact k s with
  | (Ret buf, s) => (Ret buf, s)
  | (_, s) => (Panic "unwrap", s)
  end.

Definition read_response : M stream string RegisterResponse :=
  buf ← read_or_panic 8;
  if decide (take 4 buf <> MAGIC_NUMBER) then lift (Err "Invalid magic number")
  else
    match try_to_status_code (buf !!! 6%nat) with
    | None => lift (Err "Invalid status code")
    | Some status =>
        let msg_type := buf !!! 7%nat in
        buf ← read_or_panic 8;
        let request_number := from_be_bytes buf in
        match msg_type with
        | 66 =>
            tag ← read_or_panic 32;
            mret {| status_code := status; response_request_identifier := request_number;
                    response_content := ResponseWrite; hmac_tag := tag |}
        | 65 =>
            sector ← read_or_panic SECTOR_SIZE;
            tag ← read_or_panic 32;
            mret {| status_code := status; response_request_identifier := request_number;
                    response_content := ResponseRead sector; hmac_tag := tag |}
        | _ => lift (Err "Invalid message type")
        end
    end.

Definition hmac_tag_is_ok (hmac_client_key : bytes) (response : RegisterResponse) : bool :=
  let data := MAGIC_NUMBER ++
    [0; 0; StatusCode.as_u8 (status_code response); response_msg_type (response_content response)] ++
    to_be_bytes 8 (response_request_identifier response) ++
    match response_content response with ResponseRead sector => sector | ResponseWrite => [] end in
  match new_from_slice hmac_client_key with
  | Some mac => verify_slice (mac_update (mac : Mac) data) (hmac_tag response)
  | None => false
  end.

End Responses.

(** ** Correctness *)

Section Correctness.
Context {Uuid Mac : Type} `{HmacLaws Mac}.
Implicit Types (cmd : RegisterCommand Uuid) (c : ClientRegisterCommand).

Definition msg_type_of c : u8 := MessageType.as_u8 (client_msg_type (c_content c)).

Lemma get_rid_and_msg_type_client {E} c :
  get_rid_and_msg_type (E:=E) (Client (Uuid:=Uuid) c) = Ret (request_identifier (c_header c), msg_type_of c).
Proof. by destruct c as [h []]. Qed.

(** The bytes of a response before its tag. *)
Definition response_head (status : StatusCode.t) (msg_type : u8) (rid : u64) : bytes :=
  MAGIC_NUMBER ++ [0; 0; StatusCode.as_u8 status; msg_type + 0x40] ++ to_be_bytes 8 rid.

Lemma u8_add_40 c oc : u8_add (E:=Error) oc (msg_type_of c) 0x40 = Ret (msg_type_of c + 0x40).
Proof. by destruct c as [h []]. Qed.

Lemma seal_total key buf :
  exists tag, seal (Mac:=Mac) key buf = Ret (buf ++ tag) /\ tag_of (Mac:=Mac) key buf = Some tag /\
    length tag = 32%nat.
Proof.
  unfold seal, tag_of. destruct (new_from_slice_any key) as [mac ->]. simpl.
  exists (finalize (mac_update mac buf)). unfold to_array.
  rewrite finalize_length, decide_True by done. done.
Qed.

(** The body that each kind of response carries. *)
Definition return_payload (r : OperationReturn) : bytes :=
  match r with ReadReturn v => v | WriteReturn => [] end.

Lemma construct_valid_response_spec oc c op key :
  construct_valid_response (Mac:=Mac) oc op key (msg_type_of c) (request_identifier (c_header c)) =
  seal (Mac:=Mac) key
    (response_head StatusCode.Ok (msg_type_of c) (request_identifier (c_header c)) ++ return_payload (op_return op)).
Proof.
  unfold construct_valid_response. rewrite u8_add_40. simpl. unfold vec_write_all, response_head.
  destruct (op_return op); simpl return_payload; by rewrite ?app_nil_r, ?app_nil_l, <- ?app_assoc.
Qed.

Lemma construct_invalid_hmac_response_spec oc c key :
  construct_invalid_hmac_response (Mac:=Mac) oc key (msg_type_of c) (request_identifier (c_header c)) =
  seal (Mac:=Mac) key (response_head StatusCode.AuthFailure (msg_type_of c) (request_identifier (c_header c))).
Proof.
  unfold construct_invalid_hmac_response. rewrite u8_add_40. simpl. unfold vec_write_all, response_head.
  by rewrite ?app_nil_l, <- ?app_assoc.
Qed.

Lemma construct_invalid_sector_index_response_spec oc c key :
  construct_invalid_sector_index_response (Mac:=Mac) oc key (msg_type_of c) (request_identifier (c_header c)) =
  seal (Mac:=Mac) key
    (response_head StatusCode.InvalidSectorIndex (msg_type_of c) (request_identifier (c_header c))).
Proof.
  unfold construct_invalid_sector_index_response. rewrite u8_add_40. simpl. unfold vec_write_all, response_head.
  by rewrite ?app_nil_l, <- ?app_assoc.
Qed.

Lemma read_or_panic_app k a rest e :
  length a = k ->
  read_or_panic k {| pending := a ++ rest; at_end := e |} = (Ret a, {| pending := rest; at_end := e |}).
Proof. intros Hk. unfold read_or_panic. by rewrite read_exact_app. Qed.

Lemma read_or_panic_bind {A} k a rest e (f : bytes -> M stream string A) :
  length a = k ->
  (read_or_panic k ≫= f) {| pending := a ++ rest; at_end := e |} = f a {| pending := rest; at_end := e |}.
Proof. intros Hk. by erewrite M_bind_Ret by by apply read_or_panic_app. Qed.

Lemma try_to_status_code_as_u8 st : try_to_status_code (StatusCode.as_u8 st) = Some st.
Proof. by destruct st. Qed.

(** What the reader makes of the head of a response. *)
Lemma read_response_head st mt rid rest e :
  in_u64 rid ->
  read_response {| pending := response_head st mt rid ++ rest; at_end := e |} =
  match mt + 0x40 with
  | 66 =>
      (tag ← read_or_panic 32;
       mret {| status_code := st; response_request_identifier := rid;
               response_content := ResponseWrite; hmac_tag := tag |}) {| pending := rest; at_end := e |}
  | 65 =>
      (sector ← read_or_panic SECTOR_SIZE;
       tag ← read_or_panic 32;
       mret {| status_code := st; response_request_identifier := rid;
               response_content := ResponseRead sector; hmac_tag := tag |}) {| pending := rest; at_end := e |}
  | _ => (Err "Invalid message type", {| pending := rest; at_end := e |})
  end.
Proof.
  intros Hrid. unfold read_response, response_head. rewrite <- !app_assoc.
  rewrite (app_assoc MAGIC_NUMBER). rewrite read_or_panic_bind by done.
  rewrite decide_False by (intros Hne; by apply Hne).
  change ((MAGIC_NUMBER ++ [0; 0; StatusCode.as_u8 st; mt + 64]) !!! 6%nat) with (StatusCode.as_u8 st).
  change ((MAGIC_NUMBER ++ [0; 0; StatusCode.as_u8 st; mt + 64]) !!! 7%nat) with (mt + 64).
  rewrite try_to_status_code_as_u8. rewrite read_or_panic_bind by apply length_to_be_bytes.
  rewrite from_to_be_u64 by done. repeat case_match; reflexivity.
Qed.

(** The answer that an operation gives has the kind of the command. *)
Definition answers c (r : OperationReturn) : Prop :=
  match c_content c, r with
  | Read, ReadReturn v => length v = SECTOR_SIZE
  | Write _, WriteReturn => True
  | _, _ => False
  end.

Definition content_of (r : OperationReturn) : RegisterResponseContent :=
  match r with ReadReturn v => ResponseRead v | WriteReturn => ResponseWrite end.

Lemma hmac_tag_is_ok_spec key st rid ct tag :
  tag_of (Mac:=Mac) key (MAGIC_NUMBER ++ [0; 0; StatusCode.as_u8 st; response_msg_type ct] ++ to_be_bytes 8 rid ++
    match ct with ResponseRead v => v | ResponseWrite => [] end) = Some tag ->
  hmac_tag_is_ok (Mac:=Mac) key {| status_code := st; response_request_identifier := rid;
                                   response_content := ct; hmac_tag := tag |} = true.
Proof.
  unfold tag_of, hmac_tag_is_ok. cbn [status_code response_request_identifier response_content hmac_tag].
  destruct (new_from_slice key) as [mac|]; simpl; [|done]. intros [= <-]. by apply verify_slice_spec.
Qed.

(** A response with content [ct] is read back, and its tag accepted. *)
Lemma response_read_back key st c r tag rest e :
  in_u64 (request_identifier (c_header c)) -> answers c r -> length tag = 32%nat ->
  tag_of (Mac:=Mac) key (response_head st (msg_type_of c) (request_identifier (c_header c)) ++ return_payload r) = Some tag ->
  exists resp, read_response
      {| pending := response_head st (msg_type_of c) (request_identifier (c_header c)) ++ return_payload r ++ tag ++ rest;
         at_end := e |} = (Ret resp, {| pending := rest; at_end := e |}) /\
    status_code resp = st /\ response_request_identifier resp = request_identifier (c_header c) /\
    response_content resp = content_of r /\ hmac_tag_is_ok (Mac:=Mac) key resp = true.
Proof.
  intros Hrid Hr Hlen Htag. rewrite read_response_head by done.
  unfold answers, msg_type_of in *. destruct (c_content c), r as [v|]; try done; simpl return_payload in *.
  - simpl. eexists. rewrite read_or_panic_bind, read_or_panic_bind by done. split; [reflexivity|].
    split_and!; [done..|]. apply hmac_tag_is_ok_spec. unfold response_head in Htag. by rewrite <- !app_assoc in Htag.
  - simpl. eexists. rewrite read_or_panic_bind by done. split; [reflexivity|].
    split_and!; [done..|]. apply hmac_tag_is_ok_spec. unfold response_head in Htag. by rewrite <- !app_assoc in Htag.
Qed.

Lemma success_read_back oc key c op rest e :
  in_u64 (request_identifier (c_header c)) -> answers c (op_return op) ->
  exists response resp,
    construct_valid_response (Mac:=Mac) oc op key (msg_type_of c) (request_identifier (c_header c)) = Ret response /\
    read_response {| pending := response ++ rest; at_end := e |} = (Ret resp, {| pending := rest; at_end := e |}) /\
    status_code resp = StatusCode.Ok /\ response_request_identifier resp = request_identifier (c_header c) /\
    response_content resp = content_of (op_return op) /\ hmac_tag_is_ok (Mac:=Mac) key resp = true.
Proof.
  intros Hrid Hans. rewrite construct_valid_response_spec.
  destruct (seal_total key (response_head StatusCode.Ok (msg_type_of c) (request_identifier (c_header c)) ++
    return_payload (op_return op))) as (tag & -> & Htag & Hlen).
  destruct (response_read_back key StatusCode.Ok c (op_return op) tag rest e Hrid Hans Hlen Htag) as (resp & Hrun & Hresp).
  eexists _, resp. split; [reflexivity|]. by rewrite <- !app_assoc.
Qed.

(** The response to a completed command is read back by the client's
    reader as a success with the identifier of the request and the data of the
    operation, its HMAC is accepted, and nothing of the stream behind it is
    taken. *)
Theorem success_response_read_back oc key c op rest e :
  in_u64 (request_identifier (c_header c)) -> answers c (op_return op) ->
  exists response resp,
    construct_valid_response (Mac:=Mac) oc op key (msg_type_of c) (request_identifier (c_header c)) = Ret response /\
    read_response {| pending := response ++ rest; at_end := e |} = (Ret resp, {| pending := rest; at_end := e |}) /\
    status_code resp = StatusCode.Ok /\ response_request_identifier resp = request_identifier (c_header c) /\
    response_content resp = content_of (op_return op) /\ hmac_tag_is_ok (Mac:=Mac) key resp = true.
Proof. apply success_read_back. Qed.

(** What the process answers to a command that it rejects. *)
Definition rejects (oc : bool) (key : bytes) c (st : StatusCode.t) (response : bytes) : Prop :=
  (st = StatusCode.AuthFailure /\
   construct_invalid_hmac_response (Mac:=Mac) oc key (msg_type_of c) (request_identifier (c_header c)) = Ret response) \/
  (st = StatusCode.InvalidSectorIndex /\
   construct_invalid_sector_index_response (Mac:=Mac) oc key (msg_type_of c) (request_identifier (c_header c)) = Ret response).

Lemma rejects_sealed oc key c st response :
  rejects oc key c st response -> exists tag,
    response = response_head st (msg_type_of c) (request_identifier (c_header c)) ++ tag /\
    tag_of (Mac:=Mac) key (response_head st (msg_type_of c) (request_identifier (c_header c))) = Some tag /\
    length tag = 32%nat.
Proof.
  intros [[-> Hr]|[-> Hr]]; [rewrite construct_invalid_hmac_response_spec in Hr
                            |rewrite construct_invalid_sector_index_response_spec in Hr];
    match type of Hr with seal _ ?b = _ =>
      destruct (seal_total key b) as (tag & E & Htag & Hlen); rewrite E in Hr; injection Hr as <- end;
    by exists tag.
Qed.

(** The rejection of a write is read back with its status and the
    identifier of the request, and its HMAC is accepted. *)
Theorem rejected_write_read_back oc key c st response data rest e :
  in_u64 (request_identifier (c_header c)) -> c_content c = Write data -> rejects oc key c st response ->
  exists resp,
    read_response {| pending := response ++ rest; at_end := e |} = (Ret resp, {| pending := rest; at_end := e |}) /\
    status_code resp = st /\ response_request_identifier resp = request_identifier (c_header c) /\
    response_content resp = ResponseWrite /\ hmac_tag_is_ok (Mac:=Mac) key resp = true.
Proof.
  intros Hrid Hct Hrej. destruct (rejects_sealed _ _ _ _ _ Hrej) as (tag & -> & Htag & Hlen).
  rewrite <- app_assoc. rewrite <- (app_nil_r (response_head _ _ _)) in Htag.
  refine (response_read_back key st c WriteReturn tag rest e Hrid _ Hlen Htag).
  unfold answers. by rewrite Hct.
Qed.

(** C40: The rejection of a read is 48 bytes long and carries no sector, but
    has the message type of a read response, for which the reader of the tests
    waits for 4096 bytes more: at the end of the stream it panics. *)
Theorem rejected_read_not_read_back oc key c st response e :
  in_u64 (request_identifier (c_header c)) -> c_content c = Read -> rejects oc key c st response ->
  length response = 48%nat /\
  (read_response {| pending := response; at_end := e |}).1 = Panic "unwrap".
Proof.
  intros Hrid Hct Hrej. destruct (rejects_sealed _ _ _ _ _ Hrej) as (tag & -> & Htag & Hlen).
  assert (SECTOR_SIZE = N.to_nat 4096) as Hsize by reflexivity.
  split.
  - unfold response_head. rewrite !length_app, length_to_be_bytes, Hlen. reflexivity.
  - rewrite read_response_head by done. unfold msg_type_of. rewrite Hct. simpl.
    erewrite M_bind_Panic; [reflexivity|]. unfold read_or_panic, read_exact.
    simpl pending. rewrite decide_False; [reflexivity|]. rewrite Hlen, Hsize. lia.
Qed.

End Correctness.

(** ** The theorems on concrete responses *)

Module ResponsesExamples.

Definition key : bytes := replicate 32 3.
Definition eof : Error := {| kind := UnexpectedEof; inner := None |}.
Definition cmd (ct : ClientRegisterCommandContent) : ClientRegisterCommand :=
  {| c_header := {| request_identifier := 1778; c_sector_idx := 12 |}; c_content := ct |}.
Definition sector (b : Z) : SectorVec := replicate SECTOR_SIZE b.

Lemma success_response_read_back_witness :
  exists response resp, read_response {| pending := response ++ [1]; at_end := eof |} =
      (Ret resp, {| pending := [1]; at_end := eof |}) /\ response_content resp = ResponseRead (sector 7) /\
    hmac_tag_is_ok (Mac:=Toy.Mac) key resp = true.
Proof.
  destruct (success_response_read_back (Mac:=Toy.Mac) true key (cmd Read)
    {| os_request_identifier := 1778; op_return := ReadReturn (sector 7) |} [1] eof)
    as (response & resp & _ & H1 & _ & _ & H2 & H3); [by_evaluation|apply length_replicate|].
  exists response, resp. split; [exact H1|]. split; [exact H2|exact H3].
Defined.

Lemma rejection ct : exists response,
  rejects (Mac:=Toy.Mac) true key (cmd ct) StatusCode.AuthFailure response.
Proof. eexists. left. split; [reflexivity|]. destruct ct; reflexivity. Qed.

Lemma rejected_write_read_back_witness :
  exists response resp, read_response {| pending := response ++ [1]; at_end := eof |} =
      (Ret resp, {| pending := [1]; at_end := eof |}) /\ status_code resp = StatusCode.AuthFailure.
Proof.
  destruct (rejection (Write (sector 7))) as [response Hrej].
  destruct (rejected_write_read_back (Mac:=Toy.Mac) true key (cmd (Write (sector 7))) StatusCode.AuthFailure
    response (sector 7) [1] eof) as (resp & H1 & H2 & _); [by_evaluation|reflexivity|exact Hrej|].
  exists response, resp. split; [exact H1|exact H2].
Defined.

Lemma rejected_read_not_read_back_witness :
  exists response, length response = 48%nat /\
    (read_response {| pending := response; at_end := eof |}).1 = Panic "unwrap".
Proof.
  destruct (rejection Read) as [response Hrej]. exists response.
  apply (rejected_read_not_read_back (Mac:=Toy.Mac) true key (cmd Read) StatusCode.AuthFailure response eof);
    [by_evaluation|reflexivity|exact Hrej].
Defined.

End ResponsesExamples.
