(* ===== verification/RegisterProcess.v ===== *)
(** * The process: [solution/src/register_process.rs]

    The tasks of one process: a worker with a register per sector, the task
    that hands over messages of the process to itself, and a task per
    connection.  They share the channels of the workers, a semaphore per sector
    and the writers of the connections.  One turn of a task is one step; tasks
    interleave arbitrarily.  A worker and a connection that panic stop.  The
    tasks [handle_self_messages] and [accept_connections] only take the turns
    that return: a panic would end them, so there are more runs here than in the
    code, not fewer. *)

From S2P Require Import Prelude Domain Crates Transfer AtomicRegister RegisterFacts Storage.
From S2P Require Import RegisterClient Responses.

(** ** State *)

(** What [success_callback] captures: the command, the writer of the connection
    it came from, and the permit of its sector. *)
Record Callback {Uuid : Type} := {
  cb_cmd : RegisterCommand Uuid;
  cb_writer : nat;
  cb_guard : SectorIdx;
}.
Arguments Callback Uuid : clear implicits.

(** Where the task of a connection stands: at the top of its loop, waiting for
    the semaphore of a sector, or stopped by a panic. *)
Inductive conn_state {Uuid : Type} := Reading | Acquiring (cmd : RegisterCommand Uuid) | Stopped.
Arguments conn_state Uuid : clear implicits.

Record Connection {Uuid : Type} := { reader : stream; writer : sink; doing : conn_state Uuid }.
Arguments Connection Uuid : clear implicits.

(** A worker builds its register, then runs it. *)
Inductive worker {Uuid : Type} :=
| Starting
| Running (ar_worker : AtomicRegisterState Uuid (Callback Uuid))
| Dead.
Arguments worker Uuid : clear implicits.

Abbreviation sector_message Uuid := (RegisterCommand Uuid * option (Callback Uuid))%type.

Record Process {Uuid St Cl : Type} := {
  rp_self_ident : u8;
  rp_processes_count : u8;
  rp_hmac_system_key : bytes;
  rp_hmac_client_key : bytes;
  rp_n_sectors : u64;
  sectors_txs : gmap Z (list (sector_message Uuid));
  sectors_guards : gmap Z nat;
  workers : gmap Z (worker Uuid);
  connections : gmap nat (Connection Uuid);
  storage : St;
  client : Cl;
}.
Arguments Process Uuid St Cl : clear implicits.

Section Assignments.
Context {Uuid St Cl : Type}.

#[export] Instance assign_sectors_txs : Assign (R:=Process Uuid St Cl) sectors_txs := fun v p =>
  {| rp_self_ident := rp_self_ident p; rp_processes_count := rp_processes_count p;
     rp_hmac_system_key := rp_hmac_system_key p; rp_hmac_client_key := rp_hmac_client_key p;
     rp_n_sectors := rp_n_sectors p; sectors_txs := v; sectors_guards := sectors_guards p;
     workers := workers p; connections := connections p; storage := storage p; client := client p |}.
#[export] Instance assign_sectors_guards : Assign (R:=Process Uuid St Cl) sectors_guards := fun v p =>
  {| rp_self_ident := rp_self_ident p; rp_processes_count := rp_processes_count p;
     rp_hmac_system_key := rp_hmac_system_key p; rp_hmac_client_key := rp_hmac_client_key p;
     rp_n_sectors := rp_n_sectors p; sectors_txs := sectors_txs p; sectors_guards := v;
     workers := workers p; connections := connections p; storage := storage p; client := client p |}.
#[export] Instance assign_workers : Assign (R:=Process Uuid St Cl) workers := fun v p =>
  {| rp_self_ident := rp_self_ident p; rp_processes_count := rp_processes_count p;
     rp_hmac_system_key := rp_hmac_system_key p; rp_hmac_client_key := rp_hmac_client_key p;
     rp_n_sectors := rp_n_sectors p; sectors_txs := sectors_txs p; sectors_guards := sectors_guards p;
     workers := v; connections := connections p; storage := storage p; client := client p |}.
#[export] Instance assign_connections : Assign (R:=Process Uuid St Cl) connections := fun v p =>
  {| rp_self_ident := rp_self_ident p; rp_processes_count := rp_processes_count p;
     rp_hmac_system_key := rp_hmac_system_key p; rp_hmac_client_key := rp_hmac_client_key p;
     rp_n_sectors := rp_n_sectors p; sectors_txs := sectors_txs p; sectors_guards := sectors_guards p;
     workers := workers p; connections := v; storage := storage p; client := client p |}.
#[export] Instance assign_storage : Assign (R:=Process Uuid St Cl) storage := fun v p =>
  {| rp_self_ident := rp_self_ident p; rp_processes_count := rp_processes_count p;
     rp_hmac_system_key := rp_hmac_system_key p; rp_hmac_client_key := rp_hmac_client_key p;
     rp_n_sectors := rp_n_sectors p; sectors_txs := sectors_txs p; sectors_guards := sectors_guards p;
     workers := workers p; connections := connections p; storage := v; client := client p |}.
#[export] Instance assign_client : Assign (R:=Process Uuid St Cl) client := fun v p =>
  {| rp_self_ident := rp_self_ident p; rp_processes_count := rp_processes_count p;
     rp_hmac_system_key := rp_hmac_system_key p; rp_hmac_client_key := rp_hmac_client_key p;
     rp_n_sectors := rp_n_sectors p; sectors_txs := sectors_txs p; sectors_guards := sectors_guards p;
     workers := workers p; connections := connections p; storage := storage p; client := v |}.
End Assignments.

Section Operations.
Context {Uuid Mac St Cl : Type} `{!EqDecision Uuid} `{UuidCrate Uuid, HmacCrate Mac}.
Context `{SectorsManager St} `{!RegisterClient Uuid Cl}.
Abbreviation process := (Process Uuid St Cl).
Abbreviation PM A := (M process Empty_set A).
Implicit Types (p : process) (idx : SectorIdx).

(** The arithmetic of the build profile. *)
Variable oc : bool.

(** [RegisterProcessState::new] with the workers that it spawns. *)
Definition new (self_ident : u8) (hmac_system_key hmac_client_key : bytes) (processes_count : u8)
    (n_sectors : u64) (register_client : Cl) (sectors_manager : St) : process :=
  {| rp_self_ident := self_ident; rp_processes_count := processes_count;
     rp_hmac_system_key := hmac_system_key; rp_hmac_client_key := hmac_client_key;
     rp_n_sectors := n_sectors;
     sectors_txs := list_to_map ((fun i => (i, [])) <$> seqZ 0 n_sectors);
     sectors_guards := list_to_map ((fun i => (i, 1%nat)) <$> seqZ 0 n_sectors);
     workers := list_to_map ((fun i => (i, Starting)) <$> seqZ 0 n_sectors);
     connections := ∅; storage := sectors_manager; client := register_client |}.

(** ** Access to the shared parts *)

Definition on_storage {A} (f : M St Empty_set A) : PM A := fun p =>
  let '(o, w) := f (storage p) in (o, p <| storage := w |>).

Definition on_client {A} (f : M Cl Empty_set A) : PM A := fun p =>
  let '(o, c) := f (client p) in (o, p <| client := c |>).

(** The writer of connection [c]; it outlives the task of the connection. *)
Definition on_writer {A} (c : nat) (f : M sink Empty_set A) : PM A := fun p =>
  match connections p !! c with
  | Some conn =>
      let '(o, w) := f (writer conn) in
      (o, p <| connections := <[c := {| reader := reader conn; writer := w; doing := doing conn |}]> (connections p) |>)
  | None => (Panic "no such connection", p)
  end.

(** [tx.send(..).await.expect("Failed to send message to sector")]: the channel
    is closed once its worker is dead. *)
Definition send_to_sector idx (msg : sector_message Uuid) : PM unit := fun p =>
  match sectors_txs p !! idx with
  | None => (Panic "Sector handler not found", p)
  | Some q =>
      match workers p !! idx with
      | Some Dead | None => (Panic "Failed to send message to sector", p)
      | _ => (Ret tt, p <| sectors_txs := <[idx := q ++ [msg]]> (sectors_txs p) |>)
      end
  end.

Definition release idx : PM unit :=
  modify (fun p => p <| sectors_guards := alter S idx (sectors_guards p) |>).

(** [result.expect(why)]. *)
Definition expect_ok {A} (why : string) (o : outcome Error A) : outcome Empty_set A :=
  match o with Ret a => Ret a | Err _ => Panic why | Panic w => Panic w end.

(** ** Callbacks and handlers *)

(** The closure that [success_callback] returns, called with the result. *)
Definition success_callback (cb : Callback Uuid) (op_success : OperationSuccess) : PM unit :=
  '(rid, msg_type) ← lift (get_rid_and_msg_type (cb_cmd cb));
  p ← get;
  response ← lift (expect_ok "unwrap"
    (construct_valid_response (Mac:=Mac) oc op_success (rp_hmac_client_key p) msg_type rid));
  on_writer (cb_writer cb) (send_response response) ;;
  release (cb_guard cb).

(** The calls that a handler of the register makes. *)
Definition perform_effect (f : effect Uuid (Callback Uuid)) : PM unit :=
  match f with
  | Broadcast cmd => on_client (rc_broadcast cmd)
  | Send cmd target => on_client (rc_send cmd target)
  | Store idx sector => on_storage (sm_write idx sector)
  | Complete cb op_success => success_callback cb op_success
  end.

Fixpoint perform_effects (effs : list (effect Uuid (Callback Uuid))) : PM unit :=
  match effs with
  | [] => mret tt
  | f :: effs => perform_effect f ;; perform_effects effs
  end.

(** ** Workers *)

(** The first statement of [run_ar_worker]. *)
Definition ar_worker_start idx : PM unit :=
  p ← get;
  ar_worker ← on_storage (build_atomic_register (rp_self_ident p) idx (rp_processes_count p));
  modify (fun p => p <| workers := <[idx := Running ar_worker]> (workers p) |>).

(** One turn of the loop of [run_ar_worker], with the message it receives.
    [new_v4] and [iter] are as in the register. *)
Definition ar_worker_turn (iter : gmap Z (stamp * SectorVec) -> list (Z * (stamp * SectorVec))) (new_v4 : Uuid)
    idx (ar_worker : AtomicRegisterState Uuid (Callback Uuid)) (msg : sector_message Uuid) : PM unit :=
  '(ar_worker, effs) ←
    match msg with
    | (Client c, callback) =>
        cb ← lift (expect "callback" callback);
        mret (client_command new_v4 c cb ar_worker)
    | (System s, _) => lift (system_command oc iter s ar_worker)
    end;
  modify (fun p => p <| workers := <[idx := Running ar_worker]> (workers p) |>) ;;
  perform_effects effs.

(** ** Messages to self and connections *)

(** One turn of [handle_self_messages]. *)
Definition handle_self_messages (msg : SystemRegisterCommand Uuid) : PM unit :=
  send_to_sector (sector_idx (header msg)) (System msg, None).

Definition set_doing (c : nat) (d : conn_state Uuid) : PM unit :=
  modify (fun p => p <| connections :=
    alter (fun conn => {| reader := reader conn; writer := writer conn; doing := d |}) c (connections p) |>).

(** One turn of the loop of [accept_connections]: [incoming] is what
    [listener.accept()] returns, the stream and what can be read from it; [c]
    names the connection. *)
Definition accept_connection (c : nat) (incoming : option (TcpStream * stream)) : PM unit :=
  '(stream, reader) ← lift (expect "Failed to accept connection" incoming);
  lift (expect "Failed to set nodelay" (set_nodelay stream)) ;;
  modify (fun p => p <| connections :=
    <[c := {| reader := reader; writer := into_split_writer stream; doing := Reading |}]> (connections p) |>).

(** Reading the next command of connection [c]. *)
Definition read_command (c : nat) : PM (RegisterCommand Uuid * bool) := fun p =>
  match connections p !! c with
  | Some conn =>
      let '(o, s) := deserialize_register_command (Mac:=Mac) (reader conn) (rp_hmac_system_key p) (rp_hmac_client_key p) in
      (match o with Ret x => Ret x | _ => Panic "Failed to deserialize command" end,
       p <| connections := <[c := {| reader := s; writer := writer conn; doing := doing conn |}]> (connections p) |>)
  | None => (Panic "no such connection", p)
  end.

(** What a connection does with a command it has read, up to the point where it
    waits for the semaphore of a sector. *)
Definition dispatch_command (c : nat) (cmd : RegisterCommand Uuid) (hmac_ok : bool) : PM unit :=
  p ← get;
  if hmac_ok then
    match cmd with
    | Client {| c_header := header |} =>
        let idx := c_sector_idx header in
        if decide (idx < rp_n_sectors p) then
          _ ← lift (expect "Sector handler not found" (sectors_txs p !! idx));
          _ ← lift (expect "Sector mutex not found" (sectors_guards p !! idx));
          set_doing c (Acquiring cmd)
        else
          '(rid, msg_type) ← lift (get_rid_and_msg_type cmd);
          resp ← lift (expect_ok "Failed to construct response"
            (construct_invalid_sector_index_response (Mac:=Mac) oc (rp_hmac_client_key p) msg_type rid));
          on_writer c (send_response resp)
    | System s => send_to_sector (sector_idx (header s)) (cmd, None)
    end
  else
    match cmd with
    | Client _ =>
        '(rid, msg_type) ← lift (get_rid_and_msg_type cmd);
        resp ← lift (expect_ok "Failed to construct response"
          (construct_invalid_hmac_response (Mac:=Mac) oc (rp_hmac_client_key p) msg_type rid));
        on_writer c (send_response resp)
    | System _ => mret tt
    end.

(** One turn of the loop of a connection task. *)
Definition connection_turn (c : nat) : PM unit :=
  '(cmd, hmac_ok) ← read_command c;
  dispatch_command c cmd hmac_ok.

(** The rest of the turn, once the permit is there. *)
Definition connection_acquired (c : nat) (cmd : RegisterCommand Uuid) idx : PM unit :=
  modify (fun p => p <| sectors_guards := alter Nat.pred idx (sectors_guards p) |>) ;;
  send_to_sector idx (cmd, Some {| cb_cmd := cmd; cb_writer := c; cb_guard := idx |}) ;;
  set_doing c Reading.

(** ** Steps of the process *)

(** The task of a connection is gone; its writer stays. *)
Definition stop_connection (c : nat) p : process :=
  (set_doing c Stopped p).2.

(** A worker that dies drops the permits of the callbacks it owns. *)
Definition guards_of (ar_worker : AtomicRegisterState Uuid (Callback Uuid)) (msg : sector_message Uuid) : nat :=
  (match callback ar_worker with Some _ => 1 | None => 0 end + match msg.2 with Some _ => 1 | None => 0 end)%nat.

Definition kill_worker idx (guards : nat) p : process :=
  p <| workers := <[idx := Dead]> (workers p) |>
    <| sectors_guards := alter (Nat.add guards) idx (sectors_guards p) |>.

(** Which task takes a turn, and with what. *)
Inductive turn :=
| Accepts (c : nat)
| Reads (c : nat)
| Acquires (c : nat)
| Begins (idx : SectorIdx)
| Handles (iter : gmap Z (stamp * SectorVec) -> list (Z * (stamp * SectorVec))) (new_v4 : Uuid) (idx : SectorIdx)
    (msg : sector_message Uuid)
| Forwards (msg : SystemRegisterCommand Uuid).

Inductive process_step p : turn -> process -> Prop :=
| ps_accept c incoming p' :
    connections p !! c = None -> accept_connection c incoming p = (Ret tt, p') ->
    process_step p (Accepts c) p'
| ps_connection c conn p' :
    connections p !! c = Some conn -> doing conn = Reading -> connection_turn c p = (Ret tt, p') ->
    process_step p (Reads c) p'
| ps_connection_panic c conn why p' :
    connections p !! c = Some conn -> doing conn = Reading -> connection_turn c p = (Panic why, p') ->
    process_step p (Reads c) (stop_connection c p')
| ps_acquire c conn cmd k p' :
    connections p !! c = Some conn -> doing conn = Acquiring (Client cmd) ->
    sectors_guards p !! c_sector_idx (c_header cmd) = Some (S k) ->
    connection_acquired c (Client cmd) (c_sector_idx (c_header cmd)) p = (Ret tt, p') ->
    process_step p (Acquires c) p'
| ps_acquire_panic c conn cmd k why p' :
    connections p !! c = Some conn -> doing conn = Acquiring (Client cmd) ->
    sectors_guards p !! c_sector_idx (c_header cmd) = Some (S k) ->
    connection_acquired c (Client cmd) (c_sector_idx (c_header cmd)) p = (Panic why, p') ->
    process_step p (Acquires c) (stop_connection c (release (c_sector_idx (c_header cmd)) p').2)
| ps_worker_start idx p' :
    workers p !! idx = Some Starting -> ar_worker_start idx p = (Ret tt, p') -> process_step p (Begins idx) p'
| ps_worker_start_panic idx why p' :
    workers p !! idx = Some Starting -> ar_worker_start idx p = (Panic why, p') ->
    process_step p (Begins idx) (kill_worker idx 0 p')
| ps_worker iter new_v4 idx r msg q p' :
    workers p !! idx = Some (Running r) -> sectors_txs p !! idx = Some (msg :: q) -> iter_ok iter ->
    ar_worker_turn iter new_v4 idx r msg (p <| sectors_txs := <[idx := q]> (sectors_txs p) |>) = (Ret tt, p') ->
    process_step p (Handles iter new_v4 idx msg) p'
| ps_worker_panic iter new_v4 idx r msg q why p' :
    workers p !! idx = Some (Running r) -> sectors_txs p !! idx = Some (msg :: q) -> iter_ok iter ->
    ar_worker_turn iter new_v4 idx r msg (p <| sectors_txs := <[idx := q]> (sectors_txs p) |>) = (Panic why, p') ->
    process_step p (Handles iter new_v4 idx msg) (kill_worker idx (guards_of r msg) p')
| ps_self msg p' :
    handle_self_messages msg p = (Ret tt, p') -> process_step p (Forwards msg) p'.

End Operations.
