(* ===== verification/ProcessFacts.v ===== *)
(** * What a process guarantees

    The semaphores make the process hand a client command to a register only
    when the register is idle, so everything proved about registers holds for
    the registers of a process, under any interleaving of its tasks and with
    tasks that die; and every completed command is answered on the connection
    that it came from. *)

From S2P Require Import Prelude Domain Crates Transfer AtomicRegister RegisterFacts Storage.
From S2P Require Import RegisterClient Responses RegisterProcess.

Section Facts.
Context {Uuid Mac St Cl : Type} `{!EqDecision Uuid} `{UuidLaws Uuid, HmacLaws Mac}.
Context `{SectorsManager St} `{!RegisterClient Uuid Cl}.
Context (oc : bool).
Abbreviation process := (Process Uuid St Cl).
Implicit Types (p : process) (idx : SectorIdx) (cb : Callback Uuid) (c : nat).

(** ** The part of the state that the invariant is about *)

Definition conns p : gmap nat (stream * conn_state Uuid) :=
  (fun conn => (reader conn, doing conn)) <$> connections p.

Definition core p :=
  (rp_self_ident p, rp_processes_count p, rp_hmac_system_key p, rp_hmac_client_key p, rp_n_sectors p,
   sectors_txs p, sectors_guards p, workers p, conns p).

Lemma on_storage_core {A} (f : M St Empty_set A) p o p' : on_storage f p = (o, p') -> core p' = core p.
Proof. unfold on_storage. destruct (f (storage p)). by intros [= _ <-]. Qed.

Lemma on_storage_result {A} (f : M St Empty_set A) p o p' :
  on_storage f p = (o, p') -> exists w, f (storage p) = (o, w).
Proof. unfold on_storage. destruct (f (storage p)) as [o1 w]. intros [= <- _]. eauto. Qed.

Lemma on_client_core {A} (f : M Cl Empty_set A) p o p' : on_client f p = (o, p') -> core p' = core p.
Proof. unfold on_client. destruct (f (client p)). by intros [= _ <-]. Qed.

Lemma on_writer_core {A} c (f : M sink Empty_set A) p o p' : on_writer c f p = (o, p') -> core p' = core p.
Proof.
  unfold on_writer. destruct (connections p !! c) as [conn|] eqn:E; [|by intros [= _ <-]].
  destruct (f (writer conn)) as [o' w]. intros [= _ <-]. unfold core, conns. simpl.
  rewrite fmap_insert. simpl. rewrite insert_id; [done|]. by rewrite lookup_fmap, E.
Qed.

(** [release] on the guards only. *)
Definition released idx p : process := p <| sectors_guards := alter S idx (sectors_guards p) |>.

Lemma success_callback_core cb op p o p' :
  success_callback (Mac:=Mac) oc cb op p = (o, p') ->
  (o = Ret tt /\ core p' = core (released (cb_guard cb) p)) \/ (o <> Ret tt /\ core p' = core p).
Proof.
  unfold success_callback. destruct (get_rid_and_msg_type (cb_cmd cb)) as [[rid mt]|[]|why] eqn:E.
  2: { rewrite (M_bind_Panic _ _ p why p) by done. intros [= <- <-]. by right. }
  rewrite M_bind_lift, M_bind_get.
  match goal with |- context [lift ?x] => destruct x as [response|[]|why] end.
  2: { rewrite (M_bind_Panic _ _ p why p) by done. intros [= <- <-]. by right. }
  rewrite M_bind_lift.
  destruct (on_writer (cb_writer cb) (send_response response) p) as [[[]|[]|why] p1] eqn:Ew;
    pose proof (on_writer_core _ _ _ _ _ Ew) as Hcore.
  - erewrite M_bind_Ret by exact Ew. intros [= <- <-]. left. split; [done|].
    unfold core, released, conns in *. simpl in *. by injection Hcore as -> -> -> -> -> -> -> -> ->.
  - erewrite M_bind_Panic by exact Ew. intros [= <- <-]. by right.
Qed.

(** What the effects of one step of a register do to the core: nothing but
    releasing the permit of the command that they complete. *)
Definition completes (effs : list (effect Uuid (Callback Uuid))) : option (Callback Uuid) :=
  match effs with [Complete cb _] => Some cb | _ => None end.

Lemma perform_effect_core f p o p' :
  perform_effect (Mac:=Mac) oc f p = (o, p') -> (forall cb op, f <> Complete cb op) -> core p' = core p.
Proof.
  destruct f as [cmd|cmd t|i sector|cb op]; simpl; intros Hrun Hno.
  - by eapply on_client_core.
  - by eapply on_client_core.
  - by eapply on_storage_core.
  - by destruct (Hno cb op).
Qed.

Lemma perform_effects_core effs p o p' :
  perform_effects (Mac:=Mac) oc effs p = (o, p') -> (forall cb op, Complete cb op ∉ effs) -> core p' = core p.
Proof.
  revert p. induction effs as [|f effs IH]; intros p; simpl; [by intros [= _ <-]|].
  intros Hrun Hno. destruct (perform_effect oc f p) as [o1 p1] eqn:E.
  assert (core p1 = core p) as Hc.
  { eapply perform_effect_core; [exact E|]. intros cb op ->. apply (Hno cb op). apply list_elem_of_here. }
  destruct o1 as [[]|[]|why].
  - erewrite M_bind_Ret in Hrun by exact E. rewrite <- Hc. eapply IH; [exact Hrun|].
    intros cb op Hin. apply (Hno cb op). by apply list_elem_of_further.
  - erewrite M_bind_Panic in Hrun by exact E. by injection Hrun as <- <-.
Qed.

Lemma no_completion_core effs p o p' :
  no_completion effs -> perform_effects (Mac:=Mac) oc effs p = (o, p') -> core p' = core p.
Proof. intros Hno Hrun. by eapply perform_effects_core. Qed.

Lemma completion_core cb op p o p' :
  perform_effects (Mac:=Mac) oc [Complete cb op] p = (o, p') ->
  (o = Ret tt /\ core p' = core (released (cb_guard cb) p)) \/ (o <> Ret tt /\ core p' = core p).
Proof.
  simpl. intros Hrun. destruct (success_callback oc cb op p) as [o1 p1] eqn:E.
  pose proof (success_callback_core cb op p o1 p1 E) as Hc. destruct o1 as [[]|[]|why].
  - erewrite M_bind_Ret in Hrun by exact E. by injection Hrun as <- <-.
  - erewrite M_bind_Panic in Hrun by exact E. by injection Hrun as <- <-.
Qed.

(** ** The invariant *)

(** Client commands in the channel of a worker; the permit in its register. *)
Definition pending_clients (q : list (sector_message Uuid)) : nat := length (filter (fun m => is_Some m.2) q).

Definition held (w : worker Uuid) : nat :=
  match w with
  | Running r => match callback r with Some _ => 1 | None => 0 end
  | _ => 0
  end.

Abbreviation conn_map := (gmap nat (stream * conn_state Uuid)).

(** A callback of sector [idx] belongs to a client command for [idx], holds the
    permit of [idx], and answers on a connection that exists. *)
Definition callback_ok (cs : conn_map) idx (cmd : ClientRegisterCommand) cb : Prop :=
  cb_cmd cb = Client cmd /\ c_sector_idx (c_header cmd) = idx /\ cb_guard cb = idx /\
  is_Some (cs !! cb_writer cb).

Definition message_ok (cs : conn_map) idx (m : sector_message Uuid) : Prop :=
  match m with
  | (Client cmd, Some cb) => callback_ok cs idx cmd cb
  | (System s, None) => sector_idx (header s) = idx
  | _ => False
  end.

(** The register of a worker: well-formed, for its sector, and running the
    command of the callback that it holds. *)
Record worker_ok (cs : conn_map) (self n : Z) idx (r : AtomicRegisterState Uuid (Callback Uuid)) : Prop := {
  wo_inv : register_inv r;
  wo_self : self_ident r = self;
  wo_count : processes_count r = n;
  wo_sector : ar_sector_idx r = idx;
  wo_callback cb : callback r = Some cb -> exists cmd, callback_ok cs idx cmd cb /\
    rid r = Some (request_identifier (c_header cmd)) /\ reading r = is_read (c_content cmd);
}.

Record inv (self n n_sectors : Z) (txs : gmap Z (list (sector_message Uuid))) (guards : gmap Z nat)
    (ws : gmap Z (worker Uuid)) (cs : conn_map) : Prop := {
  pi_count : 0 <= n;
  pi_txs idx : is_Some (txs !! idx) <-> 0 <= idx < n_sectors;
  pi_guards idx : is_Some (guards !! idx) <-> 0 <= idx < n_sectors;
  pi_workers idx : is_Some (ws !! idx) <-> 0 <= idx < n_sectors;
  pi_permit idx q g w : txs !! idx = Some q -> guards !! idx = Some g -> ws !! idx = Some w ->
    (g + pending_clients q + held w = 1)%nat;
  pi_queue idx q : txs !! idx = Some q -> Forall (message_ok cs idx) q;
  pi_worker idx r : ws !! idx = Some (Running r) -> worker_ok cs self n idx r;
  pi_conn c rd cmd : cs !! c = Some (rd, Acquiring cmd) -> exists cc, cmd = Client cc;
}.

Definition process_inv p : Prop :=
  inv (rp_self_ident p) (rp_processes_count p) (rp_n_sectors p) (sectors_txs p) (sectors_guards p)
    (workers p) (conns p).

Lemma process_inv_core p p' : core p' = core p -> process_inv p -> process_inv p'.
Proof. unfold core, process_inv. by intros [= -> -> _ _ -> -> -> -> ->]. Qed.

Definition keeps (cs cs' : conn_map) : Prop := forall c, is_Some (cs !! c) -> is_Some (cs' !! c).

Lemma callback_ok_keeps cs cs' idx cmd cb : keeps cs cs' -> callback_ok cs idx cmd cb -> callback_ok cs' idx cmd cb.
Proof. intros Hk (? & ? & ? & ?). split_and!; auto. Qed.

Lemma message_ok_keeps cs cs' idx m : keeps cs cs' -> message_ok cs idx m -> message_ok cs' idx m.
Proof. intros Hk. destruct m as [[] []]; simpl; eauto using callback_ok_keeps. Qed.

Lemma worker_ok_keeps cs cs' self n idx r :
  keeps cs cs' -> worker_ok cs self n idx r -> worker_ok cs' self n idx r.
Proof.
  intros Hk [? ? ? ? Hcb]. split; [done..|]. intros cb Hcb'. destruct (Hcb cb Hcb') as (cmd & ? & ?).
  exists cmd. eauto using callback_ok_keeps.
Qed.

(** New and changed connections. *)
Lemma inv_conns self n m txs guards ws cs cs' :
  inv self n m txs guards ws cs -> keeps cs cs' ->
  (forall c rd cmd, cs' !! c = Some (rd, Acquiring cmd) -> exists cc, cmd = Client cc) ->
  inv self n m txs guards ws cs'.
Proof.
  intros [] Hk Hacq. split; [done..| | |done].
  - intros idx q Hq. eapply Forall_impl; [|by eapply pi_queue0]. intros x. by apply message_ok_keeps.
  - intros idx r Hr. eapply worker_ok_keeps; [done|by eapply pi_worker0].
Qed.

(** A change of one sector. *)
Lemma inv_sector self n m txs guards ws cs idx q g w :
  inv self n m txs guards ws cs -> 0 <= idx < m ->
  (g + pending_clients q + held w = 1)%nat -> Forall (message_ok cs idx) q ->
  (forall r, w = Running r -> worker_ok cs self n idx r) ->
  inv self n m (<[idx := q]> txs) (<[idx := g]> guards) (<[idx := w]> ws) cs.
Proof.
  intros [] Hidx Hp Hq Hw.
  split; [done|..]; try done; intros i; destruct (decide (idx = i)) as [<-|Hne];
    rewrite ?lookup_insert_eq, ?(lookup_insert_ne _ _ _ _ Hne); try done.
  all: intros; simplify_eq; eauto.
Qed.

(** ** Every step keeps the invariant *)

Lemma pending_clients_cons m q :
  pending_clients (m :: q) = ((match m.2 with Some _ => 1 | None => 0 end) + pending_clients q)%nat.
Proof. unfold pending_clients. by destruct m as [cmd [cb|]]. Qed.

Lemma pending_clients_snoc q m :
  pending_clients (q ++ [m]) = (pending_clients q + match m.2 with Some _ => 1 | None => 0 end)%nat.
Proof. unfold pending_clients. rewrite list.filter_app, length_app. by destruct m as [cmd [cb|]]. Qed.

(** [send_to_sector] enqueues for a live worker, or panics and changes nothing. *)
Lemma send_to_sector_cases idx msg p o p' :
  send_to_sector idx msg p = (o, p') ->
  (exists q w, sectors_txs p !! idx = Some q /\ workers p !! idx = Some w /\ w <> Dead /\ o = Ret tt /\
     p' = p <| sectors_txs := <[idx := q ++ [msg]]> (sectors_txs p) |>) \/
  (exists why, o = Panic why /\ p' = p).
Proof.
  unfold send_to_sector. destruct (sectors_txs p !! idx) as [q|] eqn:Eq; [|intros [= <- <-]; eauto].
  destruct (workers p !! idx) as [[| |]|] eqn:Ew; intros [= <- <-]; eauto 10.
Qed.

Lemma inv_push_system p idx s q :
  process_inv p -> sectors_txs p !! idx = Some q -> sector_idx (header s) = idx ->
  process_inv (p <| sectors_txs := <[idx := q ++ [(System s, None)]]> (sectors_txs p) |>).
Proof.
  intros Hinv Hq Hs. assert (0 <= idx < rp_n_sectors p) as Hidx by (apply (pi_txs _ _ _ _ _ _ _ Hinv); eauto).
  destruct (proj2 (pi_guards _ _ _ _ _ _ _ Hinv idx) Hidx) as [g Hg].
  destruct (proj2 (pi_workers _ _ _ _ _ _ _ Hinv idx) Hidx) as [w Hw].
  pose proof (pi_permit _ _ _ _ _ _ _ Hinv idx q g w Hq Hg Hw) as Hp.
  unfold process_inv. simpl. rewrite <- (insert_id (sectors_guards p) idx g Hg), <- (insert_id (workers p) idx w Hw).
  apply inv_sector; [done..| | |].
  - rewrite pending_clients_snoc. simpl. lia.
  - apply Forall_app. split; [by apply (pi_queue _ _ _ _ _ _ _ Hinv)|]. by repeat constructor.
  - intros r ->. by apply (pi_worker _ _ _ _ _ _ _ Hinv).
Qed.

Lemma send_system_inv idx s p o p' :
  process_inv p -> sector_idx (header s) = idx -> send_to_sector idx (System s, None) p = (o, p') ->
  process_inv p'.
Proof.
  intros Hinv Hs Hrun. destruct (send_to_sector_cases _ _ _ _ _ Hrun) as [(q & w & Hq & _ & _ & _ & ->)|(why & _ & ->)];
    [|done]. by apply inv_push_system.
Qed.

(** Changing a connection that exists. *)
Lemma inv_set_conn p c rd d cs' :
  process_inv p -> (forall cmd, d = Acquiring cmd -> exists cc, cmd = Client cc) ->
  cs' = <[c := (rd, d)]> (conns p) ->
  inv (rp_self_ident p) (rp_processes_count p) (rp_n_sectors p) (sectors_txs p) (sectors_guards p) (workers p) cs'.
Proof.
  intros Hinv Hd ->. eapply inv_conns; [exact Hinv| |].
  - intros c'. rewrite lookup_insert_is_Some. destruct (decide (c = c')); auto.
  - intros c' rd' cmd. rewrite lookup_insert_Some. intros [[_ [= _ ->]]|[_ Hc]]; [by apply Hd|].
    by eapply (pi_conn _ _ _ _ _ _ _ Hinv).
Qed.

Lemma set_doing_conns c d p conn :
  connections p !! c = Some conn ->
  conns ((set_doing c d p).2) = <[c := (reader conn, d)]> (conns p).
Proof.
  intros Hc. unfold conns. simpl. apply map_eq. intros c'. rewrite lookup_fmap.
  destruct (decide (c = c')) as [<-|Hne].
  - by rewrite lookup_alter_eq, Hc, lookup_insert_eq.
  - by rewrite lookup_alter_ne, lookup_insert_ne, lookup_fmap by done.
Qed.

Lemma set_doing_inv c d p :
  process_inv p -> (forall cmd, d = Acquiring cmd -> exists cc, cmd = Client cc) ->
  process_inv (set_doing c d p).2.
Proof.
  intros Hinv Hd. destruct (connections p !! c) as [conn|] eqn:E.
  - apply (inv_set_conn p c (reader conn) d); [done..|]. by apply set_doing_conns.
  - eapply process_inv_core; [|exact Hinv]. unfold core, conns. simpl.
    rewrite alter_id; [done|]. by rewrite E.
Qed.

Lemma read_command_inv c p o p' conn :
  process_inv p -> connections p !! c = Some conn -> doing conn = Reading ->
  read_command (Mac:=Mac) c p = (o, p') -> process_inv p'.
Proof.
  intros Hinv Hc Hd. unfold read_command. rewrite Hc.
  destruct (deserialize_register_command (reader conn) _ _) as [o1 rd]. intros [= _ <-].
  apply (inv_set_conn p c rd Reading); [done..|]. unfold conns. simpl. by rewrite fmap_insert, Hd.
Qed.

(** [m ≫= f] keeps what both parts keep. *)
Lemma keeps_bind {A B} (P : process -> Prop) (x : M process Empty_set A) (f : A -> M process Empty_set B) p o p' :
  (forall o1 p1, x p = (o1, p1) -> P p1) ->
  (forall a p1 o2 p2, P p1 -> f a p1 = (o2, p2) -> P p2) ->
  (x ≫= f) p = (o, p') -> P p'.
Proof.
  intros Hx Hf. destruct (x p) as [[a|[]|why] p1] eqn:E.
  - erewrite M_bind_Ret by exact E. apply Hf. by eapply Hx.
  - erewrite M_bind_Panic by exact E. intros [= _ <-]. by eapply Hx.
Qed.

Lemma keeps_lift {A} (P : process -> Prop) (x : outcome Empty_set A) p o p' :
  P p -> lift x p = (o, p') -> P p'.
Proof. intros Hp. by intros [= _ <-]. Qed.

(** Answering on a connection. *)
Lemma respond_inv c p resp o p' :
  process_inv p -> on_writer c (send_response resp) p = (o, p') -> process_inv p'.
Proof. intros Hinv Hrun. eapply process_inv_core; [by eapply on_writer_core|done]. Qed.

Lemma reject_inv {E} c p (x : outcome Empty_set (u64 * u8)) (mk : u64 -> u8 -> outcome E bytes)
    (g : outcome E bytes -> outcome Empty_set bytes) o p' :
  process_inv p ->
  ('(rid, msg_type) ← lift x; resp ← lift (g (mk rid msg_type)); on_writer c (send_response resp)) p = (o, p') ->
  process_inv p'.
Proof.
  intros Hinv. apply (keeps_bind process_inv).
  - intros o1 p1. by apply keeps_lift.
  - intros [rid mt] p1 o2 p2 Hp1. apply (keeps_bind process_inv).
    + intros o3 p3. by apply keeps_lift.
    + intros resp p3 o4 p4 Hp3. by apply respond_inv.
Qed.

Lemma connection_turn_inv c conn p o p' :
  process_inv p -> connections p !! c = Some conn -> doing conn = Reading ->
  connection_turn (Mac:=Mac) oc c p = (o, p') -> process_inv p'.
Proof.
  intros Hinv Hc Hd. apply (keeps_bind process_inv); [intros o1 p1; by eapply read_command_inv|].
  intros [cmd ok] p1 o1 p2 Hp1. unfold dispatch_command. rewrite M_bind_get. destruct ok, cmd as [[hd ct]|s]; cbn beta iota zeta.
  - case_decide; [|by apply (reject_inv (E:=Error))].
    apply (keeps_bind process_inv); [intros o3 p3; by apply keeps_lift|]. intros _ p3 o4 p4 Hp3.
    apply (keeps_bind process_inv); [intros o5 p5; by apply keeps_lift|]. intros _ p5 o6 p6 Hp5.
    intros Hset. assert (p6 = (set_doing c (Acquiring (Client {| c_header := hd; c_content := ct |})) p5).2) as ->
      by by rewrite Hset.
    apply set_doing_inv; [done|]. intros cmd [= <-]. by eexists.
  - by apply send_system_inv.
  - by apply (reject_inv (E:=Error)).
  - by intros [= _ <-].
Qed.

Lemma stop_connection_inv c p : process_inv p -> process_inv (stop_connection c p).
Proof. intros Hinv. by apply set_doing_inv. Qed.

Lemma connection_acquired_inv c conn cmd k p o p' :
  process_inv p -> connections p !! c = Some conn -> doing conn = Acquiring (Client cmd) ->
  sectors_guards p !! c_sector_idx (c_header cmd) = Some (S k) ->
  connection_acquired c (Client cmd) (c_sector_idx (c_header cmd)) p = (o, p') ->
  process_inv (match o with Ret _ => p' | _ => (release (c_sector_idx (c_header cmd)) p').2 end).
Proof.
  intros Hinv Hc Hd Hg. set (idx := c_sector_idx (c_header cmd)) in *. unfold connection_acquired.
  rewrite M_bind_modify. set (p1 := p <| sectors_guards := _ |>).
  set (msg := (Client cmd, Some {| cb_cmd := Client cmd; cb_writer := c; cb_guard := idx |})).
  destruct (send_to_sector idx msg p1) as [o1 p2] eqn:Es.
  destruct (send_to_sector_cases _ _ _ _ _ Es) as [(q & w & Hq & Hw & Hlive & -> & ->)|(why & -> & ->)].
  - erewrite M_bind_Ret by exact Es. intros [= <- <-].
    refine (set_doing_inv c Reading _ _ _); [|done]. simpl in Hq, Hw.
    pose proof (pi_permit _ _ _ _ _ _ _ Hinv idx q (S k) w Hq Hg Hw) as Hp.
    unfold process_inv. simpl. rewrite (alter_as_insert Nat.pred _ _ _ Hg), <- (insert_id (workers p) idx w Hw).
    apply inv_sector; [done|apply (pi_txs _ _ _ _ _ _ _ Hinv); by eauto|..].
    + rewrite pending_clients_snoc. simpl in *. lia.
    + apply Forall_app. split; [by apply (pi_queue _ _ _ _ _ _ _ Hinv)|].
      constructor; [|done]. split_and!; [done..|]. unfold conns. rewrite lookup_fmap. simpl. rewrite Hc. by eexists.
    + intros r ->. by apply (pi_worker _ _ _ _ _ _ _ Hinv).
  - erewrite M_bind_Panic by exact Es. intros [= <- <-].
    eapply process_inv_core; [|exact Hinv]. unfold core, conns. simpl.
    rewrite (alter_as_insert Nat.pred _ _ _ Hg), alter_insert_eq. simpl. by rewrite insert_id.
Qed.

(** ** Workers *)

Lemma build_fresh self idx n w o w' :
  build_atomic_register (Uuid:=Uuid) (Callback:=Callback Uuid) self idx n w = (o, w') ->
  (exists t r v, o = Ret (AtomicRegister.new self idx n t r v)) \/ (exists why, o = Panic why).
Proof.
  unfold build_atomic_register. destruct (sm_read_metadata idx w) as [[[t r]|[]|why] w1] eqn:E1.
  - erewrite M_bind_Ret by exact E1. destruct (sm_read_data idx w1) as [[v|[]|why] w2] eqn:E2.
    + erewrite M_bind_Ret by exact E2. intros [= <- _]. left. eauto.
    + erewrite M_bind_Panic by exact E2. intros [= <- _]. eauto.
  - erewrite M_bind_Panic by exact E1. intros [= <- _]. eauto.
Qed.

Lemma fresh_worker_ok cs self n idx t r v :
  0 <= n -> worker_ok cs self n idx (AtomicRegister.new self idx n t r v).
Proof. intros Hn. by split; [apply new_inv|..]. Qed.

(** A change of the worker of a sector, everything else of it staying. *)
Lemma inv_set_worker p idx w w' q g :
  process_inv p -> workers p !! idx = Some w -> sectors_txs p !! idx = Some q ->
  sectors_guards p !! idx = Some g -> held w' = held w ->
  (forall r, w' = Running r -> worker_ok (conns p) (rp_self_ident p) (rp_processes_count p) idx r) ->
  process_inv (p <| workers := <[idx := w']> (workers p) |>).
Proof.
  intros Hinv Hw Hq Hg Hh Hok. unfold process_inv. simpl.
  rewrite <- (insert_id (sectors_txs p) idx q Hq), <- (insert_id (sectors_guards p) idx g Hg).
  apply inv_sector; [done|apply (pi_txs _ _ _ _ _ _ _ Hinv); by eauto| | |done].
  - rewrite Hh. by apply (pi_permit _ _ _ _ _ _ _ Hinv idx).
  - by apply (pi_queue _ _ _ _ _ _ _ Hinv).
Qed.

(** The channel and the semaphore of the sector of a worker. *)
Lemma worker_sector p idx w :
  process_inv p -> workers p !! idx = Some w ->
  exists q g, sectors_txs p !! idx = Some q /\ sectors_guards p !! idx = Some g.
Proof.
  intros Hinv Hw. assert (0 <= idx < rp_n_sectors p) as Hidx by (apply (pi_workers _ _ _ _ _ _ _ Hinv); eauto).
  destruct (proj2 (pi_txs _ _ _ _ _ _ _ Hinv idx) Hidx) as [q Hq].
  destruct (proj2 (pi_guards _ _ _ _ _ _ _ Hinv idx) Hidx) as [g Hg]. eauto.
Qed.

Lemma worker_start_inv idx p o p' :
  process_inv p -> workers p !! idx = Some Starting -> ar_worker_start idx p = (o, p') ->
  process_inv (match o with Ret _ => p' | _ => kill_worker idx 0 p' end).
Proof.
  intros Hinv Hw. destruct (worker_sector p idx _ Hinv Hw) as (q & g & Hq & Hg).
  unfold ar_worker_start. rewrite M_bind_get.
  set (build := build_atomic_register (rp_self_ident p) idx (rp_processes_count p)).
  destruct (on_storage build p) as [o1 p1] eqn:E. pose proof (on_storage_core _ _ _ _ E) as Hcore.
  assert (process_inv p1) as Hinv1 by by eapply process_inv_core.
  unfold core in Hcore. injection Hcore as E1 E2 _ _ _ E3 E4 E5 E6.
  destruct (on_storage_result _ _ _ _ E) as [w2 Eb].
  destruct (build_fresh _ _ _ _ _ _ Eb) as [(t & r & v & ->)|(why & ->)].
  - erewrite M_bind_Ret by exact E. intros [= <- <-].
    eapply (inv_set_worker p1 idx Starting); [done|by rewrite E5|by rewrite E3|by rewrite E4|done|].
    intros r0 [= <-]. rewrite E1, E2. apply fresh_worker_ok. apply (pi_count _ _ _ _ _ _ _ Hinv).
  - erewrite M_bind_Panic by exact E. intros [= <- <-].
    eapply process_inv_core; [|eapply (inv_set_worker p1 idx Starting Dead);
      [done|by rewrite E5|by rewrite E3|by rewrite E4|done|done]].
    unfold core, kill_worker, conns. simpl. by rewrite alter_id.
Qed.

(** The event of the register that a message stands for. *)
Definition event_of (new_v4 : Uuid) (msg : sector_message Uuid) : option (@event Uuid (Callback Uuid)) :=
  match msg with
  | (Client cmd, Some cb) => Some (EvClient new_v4 cmd cb)
  | (System s, None) => Some (EvSystem s)
  | _ => None
  end.

(** The semaphore keeps a second client command away from a busy register. *)
Lemma client_finds_idle p idx r cmd cb q :
  process_inv p -> workers p !! idx = Some (Running r) ->
  sectors_txs p !! idx = Some ((Client cmd, Some cb) :: q) -> idle r.
Proof.
  intros Hinv Hw Hq. destruct (worker_sector p idx _ Hinv Hw) as (q' & g & _ & Hg).
  pose proof (pi_permit _ _ _ _ _ _ _ Hinv idx _ g _ Hq Hg Hw) as Hp.
  rewrite pending_clients_cons in Hp. simpl in Hp. destruct (busy_or_idle r) as [Hb|Hi]; [|done].
  destruct (pi_worker _ _ _ _ _ _ _ Hinv idx r Hw) as [Hri _ _ _ _].
  apply (inv_callback _ Hri) in Hb as [cb' Hcb]. rewrite Hcb in Hp. lia.
Qed.

(** The handler of the register for an event. *)
Definition handler iter (e : @event Uuid (Callback Uuid)) r : outcome Empty_set (AtomicRegisterState Uuid (Callback Uuid) * list (effect Uuid (Callback Uuid))) :=
  match e with
  | EvClient new_v4 cmd cb => Ret (client_command new_v4 cmd cb r)
  | EvSystem s => system_command oc iter s r
  end.

(** A turn of a worker is a step of its register, followed by the effects of
    that step; or the handler panics before any of them. *)
Lemma worker_turn_cases p iter new_v4 idx r msg q p1 o p' :
  process_inv p -> workers p !! idx = Some (Running r) -> sectors_txs p !! idx = Some (msg :: q) ->
  iter_ok iter -> ar_worker_turn (Mac:=Mac) oc iter new_v4 idx r msg p1 = (o, p') ->
  exists e, event_of new_v4 msg = Some e /\
    ((exists r' effs, handler iter e r = Ret (r', effs) /\ step oc r e r' effs /\
        perform_effects (Mac:=Mac) oc effs (p1 <| workers := <[idx := Running r']> (workers p1) |>) = (o, p')) \/
     (exists why, handler iter e r = Panic why /\ o = Panic why /\ p' = p1)).
Proof.
  intros Hinv Hw Hq Hiter Hrun. pose proof (pi_queue _ _ _ _ _ _ _ Hinv idx _ Hq) as Hmsg.
  apply list.Forall_cons in Hmsg as [Hmsg _]. unfold ar_worker_turn in Hrun.
  destruct msg as [[cmd|s] [cb|]]; simpl in Hmsg; try done; eexists; (split; [reflexivity|]);
    cbn beta iota delta [expect] in Hrun.
  - rewrite M_bind_bind, M_bind_lift, M_bind_mret in Hrun.
    destruct (client_command new_v4 cmd cb r) as [r' effs] eqn:Ec.
    rewrite M_bind_modify in Hrun. left. exists r', effs.
    split; [simpl; by rewrite Ec|]. split; [|done]. apply step_client; [by eapply client_finds_idle|done].
  - destruct (system_command oc iter s r) as [[r' effs]|[]|why] eqn:Es.
    + rewrite M_bind_lift, M_bind_modify in Hrun. left. exists r', effs.
      split; [done|]. split; [|done]. by eapply step_system.
    + erewrite M_bind_Panic in Hrun by done. injection Hrun as <- <-. right. exists why. split; [done|]. eauto.
Qed.

(** The process with the sector [idx] replaced. *)
Definition with_sector p idx q g w : process :=
  p <| sectors_txs := <[idx := q]> (sectors_txs p) |> <| sectors_guards := <[idx := g]> (sectors_guards p) |>
    <| workers := <[idx := w]> (workers p) |>.

Lemma with_sector_inv p p2 idx q g w :
  process_inv p -> 0 <= idx < rp_n_sectors p -> (g + pending_clients q + held w = 1)%nat ->
  Forall (message_ok (conns p) idx) q ->
  (forall r, w = Running r -> worker_ok (conns p) (rp_self_ident p) (rp_processes_count p) idx r) ->
  core p2 = core (with_sector p idx q g w) -> process_inv p2.
Proof.
  intros Hinv Hidx Hp Hq Hw Hcore. eapply process_inv_core; [exact Hcore|]. by apply inv_sector.
Qed.

Definition held_by (r : AtomicRegisterState Uuid (Callback Uuid)) : nat := held (Running r).

(** The register after a step still fits its worker. *)
Lemma worker_ok_step cs self n idx r new_v4 msg e r' effs :
  0 <= n -> worker_ok cs self n idx r -> message_ok cs idx msg -> event_of new_v4 msg = Some e ->
  step oc r e r' effs -> worker_ok cs self n idx r'.
Proof.
  intros Hn [Hri Hself Hcount Hidx Hcb] Hmsg He Hstep.
  destruct (step_same_identity _ _ _ _ _ Hstep) as (E1 & E2 & E3).
  split; [by eapply step_inv; [rewrite Hcount|..]|congruence..|].
  intros cb Hcb'. destruct msg as [[cmd|s] [cb0|]]; simpl in He; try done; injection He as <-.
  - destruct (client_step_callback _ _ _ _ _ _ _ Hri Hstep) as (_ & F1 & F2 & F3).
    assert (cb = cb0) as -> by congruence. by exists cmd.
  - destruct (system_step_callback _ _ _ _ _ Hri Hstep)
      as [(_ & F1 & F2 & F3)|(cb1 & op & _ & _ & F1 & _)]; [|congruence].
    rewrite F1 in Hcb'. destruct (Hcb cb Hcb') as (cmd & ? & ? & ?). exists cmd. by rewrite F2, F3.
Qed.

(** What the effects of a step do to the permit of the sector. *)
Lemma worker_effects_core cs self n idx r new_v4 msg e r' effs p2 o p' :
  worker_ok cs self n idx r -> event_of new_v4 msg = Some e -> step oc r e r' effs ->
  perform_effects (Mac:=Mac) oc effs p2 = (o, p') ->
  (core p' = core p2 /\ held_by r' = guards_of r msg) \/
  (core p' = core (released idx p2) /\ o = Ret tt /\ guards_of r msg = 1%nat /\ held_by r' = 0%nat) \/
  (core p' = core p2 /\ o <> Ret tt).
Proof.
  intros [Hri _ _ _ Hcb] He Hstep Hrun. unfold held_by, guards_of. simpl.
  destruct msg as [[cmd|s] [cb0|]]; simpl in He; try done; injection He as <-.
  - destruct (client_step_callback _ _ _ _ _ _ _ Hri Hstep) as (F0 & F1 & F2 & F3). left.
    split; [by eapply no_completion_core|]. inversion Hstep as [? ? ? ? ? Hidle|]; subst.
    rewrite F1. destruct (callback r) eqn:E; [|done].
    destruct (busy_not_idle r); [|done]. apply (inv_callback _ Hri). eauto.
  - destruct (system_step_callback _ _ _ _ _ Hri Hstep)
      as [(F0 & F1 & _)|(cb1 & op & -> & F1 & F2 & _)].
    + left. split; [by eapply no_completion_core|]. rewrite F1. simpl. by destruct (callback r).
    + destruct (Hcb cb1 F1) as (cmd & (_ & _ & Hg & _) & _).
      destruct (completion_core _ _ _ _ _ Hrun) as [[-> Hc]|[Hne Hc]]; [|by right; right].
      right; left. rewrite <- Hg, F1, F2. done.
Qed.

Lemma worker_turn_inv p iter new_v4 idx r msg q o p' :
  process_inv p -> workers p !! idx = Some (Running r) -> sectors_txs p !! idx = Some (msg :: q) ->
  iter_ok iter ->
  ar_worker_turn (Mac:=Mac) oc iter new_v4 idx r msg (p <| sectors_txs := <[idx := q]> (sectors_txs p) |>) = (o, p') ->
  process_inv (match o with Ret _ => p' | _ => kill_worker idx (guards_of r msg) p' end).
Proof.
  intros Hinv Hw Hq Hiter Hrun. destruct (worker_sector p idx _ Hinv Hw) as (q0 & g & _ & Hg).
  pose proof (pi_permit _ _ _ _ _ _ _ Hinv idx _ g _ Hq Hg Hw) as Hp. rewrite pending_clients_cons in Hp.
  assert (0 <= idx < rp_n_sectors p) as Hidx by (apply (pi_workers _ _ _ _ _ _ _ Hinv); eauto).
  pose proof (pi_queue _ _ _ _ _ _ _ Hinv idx _ Hq) as Hok. apply list.Forall_cons in Hok as [Hmsg Hok].
  pose proof (pi_worker _ _ _ _ _ _ _ Hinv idx r Hw) as Hwo.
  assert (forall p2, core p2 = core (with_sector p idx q (guards_of r msg + g) Dead) -> process_inv p2) as Hdead.
  { intros p2. apply with_sector_inv; try done. unfold guards_of. simpl in *. lia. }
  destruct (worker_turn_cases _ _ _ _ _ _ _ _ _ _ Hinv Hw Hq Hiter Hrun)
    as (e & He & [(r' & effs & _ & Hstep & Heffs)|(why & _ & -> & ->)]); cycle 1.
  { apply Hdead. unfold core, kill_worker, with_sector, conns. simpl. by rewrite (alter_as_insert _ _ _ _ Hg). }
  pose proof (worker_ok_step _ _ _ _ _ _ _ _ _ _ (pi_count _ _ _ _ _ _ _ Hinv) Hwo Hmsg He Hstep) as Hwo'.
  assert (forall p2, core p' = core p2 -> p2 = with_sector p idx q g (Running r') ->
    process_inv (kill_worker idx (guards_of r msg) p')) as Hkill.
  { intros p2 Hcore ->. apply Hdead. unfold core, kill_worker, with_sector, conns in *. simpl in *.
    injection Hcore as -> -> -> -> -> -> -> -> ->.
    by rewrite alter_insert_eq, insert_insert_eq. }
  assert (p <| sectors_txs := <[idx:=q]> (sectors_txs p) |> <| workers := <[idx:=Running r']> (workers p) |> =
    with_sector p idx q g (Running r')) as Ep2.
  { unfold with_sector. by rewrite (insert_id (sectors_guards p) idx g Hg). }
  simpl in Heffs. rewrite Ep2 in Heffs.
  destruct (worker_effects_core _ _ _ _ _ _ _ _ _ _ _ _ _ Hwo He Hstep Heffs)
    as [[Hcore Hheld]|[(Hcore & -> & Hone & Hzero)|[Hcore Hne]]].
  - destruct o as [[]|[]|why]; [|by eapply Hkill].
    eapply with_sector_inv; [done..| | | |exact Hcore]; [|done|by intros ? [= <-]].
    unfold held_by, guards_of in Hheld. simpl in *. lia.
  - eapply (with_sector_inv p p' idx q (S g) (Running r')); [done..| | | |]; [|done|by intros ? [= <-]|].
    + unfold held_by, guards_of in *. simpl in *. lia.
    + rewrite Hcore. unfold core, released, with_sector, conns. simpl. by rewrite alter_insert_eq.
  - destruct o as [[]|[]|why]; [done|by eapply Hkill].
Qed.

(** ** Reachable processes *)

Lemma accept_cases c incoming p p' :
  accept_connection c incoming p = (Ret tt, p') -> exists stream rd,
    p' = p <| connections := <[c := {| reader := rd; writer := into_split_writer stream; doing := Reading |}]> (connections p) |>.
Proof.
  unfold accept_connection. destruct incoming as [[stream rd]|]; [|done]. cbn [expect]. rewrite M_bind_lift.
  unfold set_nodelay. destruct (nodelay_ok stream); [|done]. cbn [expect]. rewrite M_bind_lift.
  intros [= <-]. by exists stream, rd.
Qed.

Lemma process_step_inv p τ p' : process_inv p -> process_step (Mac:=Mac) oc p τ p' -> process_inv p'.
Proof.
  intros Hinv [c inc p1 Hc Hrun|c conn p1 Hc Hd Hrun|c conn why p1 Hc Hd Hrun|c conn cmd k p1 Hc Hd Hg Hrun
    |c conn cmd k why p1 Hc Hd Hg Hrun|idx p1 Hw Hrun|idx why p1 Hw Hrun
    |iter id idx r msg q p1 Hw Hq Hi Hrun|iter id idx r msg q why p1 Hw Hq Hi Hrun|msg p1 Hrun].
  - apply accept_cases in Hrun as (stream & rd & ->).
    apply (inv_set_conn p c rd Reading); [done..|]. unfold conns. simpl. by rewrite fmap_insert.
  - by eapply connection_turn_inv.
  - apply stop_connection_inv. by eapply connection_turn_inv.
  - by apply (connection_acquired_inv _ _ _ _ _ _ _ Hinv Hc Hd Hg Hrun).
  - apply stop_connection_inv. by apply (connection_acquired_inv _ _ _ _ _ _ _ Hinv Hc Hd Hg Hrun).
  - by apply (worker_start_inv _ _ _ _ Hinv Hw Hrun).
  - by apply (worker_start_inv _ _ _ _ Hinv Hw Hrun).
  - by apply (worker_turn_inv _ _ _ _ _ _ _ _ _ Hinv Hw Hq Hi Hrun).
  - by apply (worker_turn_inv _ _ _ _ _ _ _ _ _ Hinv Hw Hq Hi Hrun).
  - by eapply send_system_inv in Hrun.
Qed.

Definition process_reaches : process -> process -> Prop := rtc (fun p p' => exists τ, process_step (Mac:=Mac) oc p τ p').

Lemma lookup_range {A} (x : A) n i y :
  (list_to_map ((fun i => (i, x)) <$> seqZ 0 n) : gmap Z A) !! i = Some y <-> 0 <= i < n /\ x = y.
Proof.
  rewrite <- elem_of_list_to_map.
  - rewrite list_elem_of_fmap. setoid_rewrite elem_of_seqZ. split; [intros (? & [= <- <-] & ?); split; [lia|done]|].
    intros [Hi <-]. exists i. split; [done|lia].
  - rewrite <- list_fmap_compose. apply NoDup_fmap_2; [by intros ? ? ?|apply NoDup_seqZ].
Qed.

Lemma range_is_Some {A} (x : A) n i :
  is_Some ((list_to_map ((fun i => (i, x)) <$> seqZ 0 n) : gmap Z A) !! i) <-> 0 <= i < n.
Proof.
  split; [intros [y Hy]; by apply lookup_range in Hy as [? _]|]. intros Hi. exists x. by apply lookup_range.
Qed.

Lemma new_process_inv self sk ck n m cl w : 0 <= n -> process_inv (RegisterProcess.new self sk ck n m cl w).
Proof.
  intros Hn. split; simpl; [done|intros; apply range_is_Some..| | | |].
  - intros idx q g x [_ <-]%lookup_range [_ <-]%lookup_range [_ <-]%lookup_range. done.
  - intros idx q [_ <-]%lookup_range. constructor.
  - intros idx r [_ Hr]%lookup_range. done.
  - intros c rd cmd. unfold conns. simpl. by rewrite fmap_empty, lookup_empty.
Qed.

Lemma reaches_process_inv self sk ck n m cl w p :
  0 <= n -> process_reaches (RegisterProcess.new self sk ck n m cl w) p -> process_inv p.
Proof.
  intros Hn Hp. assert (process_inv (RegisterProcess.new self sk ck n m cl w)) as H0' by by apply new_process_inv.
  induction Hp as [|p1 p2 p3 [τ Hstep] _ IH]; [done|]. apply IH. by eapply process_step_inv.
Qed.

(** C5: In every state that a process can get into, whichever way its tasks
    interleave and die: each sector has exactly one permit, which is in its
    semaphore, with a client command in its channel or with the operation its
    register runs; every register satisfies the register invariant and runs the
    command of the callback that it holds; and no message sits in the channel
    of a wrong sector or without the callback it needs. *)
Theorem process_invariant self sk ck n m cl w p :
  0 <= n -> process_reaches (RegisterProcess.new self sk ck n m cl w) p -> process_inv p.
Proof. apply reaches_process_inv. Qed.

(** A worker uses its register as the register expects: whatever message
    it takes next is an event of the register in the sense of [step], a client
    command in particular only arriving while the register is idle; the worker
    then performs exactly the effects of that step, unless the handler panics. *)
Theorem worker_turns_are_register_steps self sk ck n m cl w p iter new_v4 idx r msg q o p' :
  0 <= n -> process_reaches (RegisterProcess.new self sk ck n m cl w) p ->
  workers p !! idx = Some (Running r) -> sectors_txs p !! idx = Some (msg :: q) -> iter_ok iter ->
  ar_worker_turn (Mac:=Mac) oc iter new_v4 idx r msg (p <| sectors_txs := <[idx := q]> (sectors_txs p) |>) = (o, p') ->
  exists e, event_of new_v4 msg = Some e /\
    ((exists r' effs, step oc r e r' effs /\
        perform_effects (Mac:=Mac) oc effs
          (p <| sectors_txs := <[idx := q]> (sectors_txs p) |> <| workers := <[idx := Running r']> (workers p) |>) = (o, p')) \/
     exists why, o = Panic why /\ p' = p <| sectors_txs := <[idx := q]> (sectors_txs p) |>).
Proof.
  intros Hn Hp Hw Hq Hiter Hrun. apply reaches_process_inv in Hp; [|done].
  destruct (worker_turn_cases _ _ _ _ _ _ _ _ _ _ Hp Hw Hq Hiter Hrun)
    as (e & He & [(r' & effs & _ & Hstep & Heffs)|(why & _ & -> & ->)]); exists e; eauto 10.
Qed.

(** ** Answers *)

(** The answer has the kind that the command asked for. *)
Definition same_kind (cmd : ClientRegisterCommand) (r : OperationReturn) : Prop :=
  is_read (c_content cmd) = match r with ReadReturn _ => true | WriteReturn => false end.

Lemma success_callback_cases cb cmd op conn p :
  cb_cmd cb = Client cmd -> connections p !! cb_writer cb = Some conn ->
  exists response,
    construct_valid_response (Mac:=Mac) oc op (rp_hmac_client_key p) (msg_type_of cmd) (request_identifier (c_header cmd))
      = Ret response /\
    (success_callback (Mac:=Mac) oc cb op p =
       (Ret tt, released (cb_guard cb) (p <| connections := <[cb_writer cb :=
          {| reader := reader conn; writer := wrote response (writer conn); doing := doing conn |}]> (connections p) |>)) \/
     exists why w', success_callback (Mac:=Mac) oc cb op p = (Panic why, p <| connections := <[cb_writer cb :=
          {| reader := reader conn; writer := w'; doing := doing conn |}]> (connections p) |>) /\
       full w' /\ fault (writer conn) <> None).
Proof.
  intros Hcmd Hconn. unfold success_callback. rewrite Hcmd, get_rid_and_msg_type_client, M_bind_lift, M_bind_get.
  destruct (seal_total (Mac:=Mac) (rp_hmac_client_key p) (response_head StatusCode.Ok (msg_type_of cmd)
    (request_identifier (c_header cmd)) ++ return_payload (op_return op))) as (tag & Hseal & _ & _).
  rewrite <- construct_valid_response_spec with (oc := oc) in Hseal. rewrite Hseal. cbn [expect_ok].
  rewrite M_bind_lift. eexists. split; [reflexivity|].
  match goal with |- context [send_response ?x] =>
    destruct (send_response_cases (E:=Empty_set) x (writer conn)) as [Hs|(why & w' & Hs & Hfull & Hf)] end.
  - left. erewrite M_bind_Ret; [reflexivity|]. unfold on_writer. by rewrite Hconn, Hs.
  - right. exists why, w'. split; [|done]. erewrite M_bind_Panic; [reflexivity|]. unfold on_writer. by rewrite Hconn, Hs.
Qed.

Lemma success_callback_answers cb cmd op conn p p' :
  cb_cmd cb = Client cmd -> connections p !! cb_writer cb = Some conn ->
  success_callback (Mac:=Mac) oc cb op p = (Ret tt, p') ->
  exists response,
    construct_valid_response (Mac:=Mac) oc op (rp_hmac_client_key p) (msg_type_of cmd) (request_identifier (c_header cmd))
      = Ret response /\
    p' = released (cb_guard cb) (p <| connections := <[cb_writer cb :=
      {| reader := reader conn; writer := wrote response (writer conn); doing := doing conn |}]> (connections p) |>).
Proof.
  intros Hcmd Hconn Hrun. destruct (success_callback_cases cb cmd op conn p Hcmd Hconn) as (response & Hr & Hcase).
  exists response. split; [done|]. destruct Hcase as [E|(why & w' & E & _)]; congruence.
Qed.

(** It returns if the connection can be written to. *)
Lemma success_callback_runs cb cmd op conn p :
  cb_cmd cb = Client cmd -> connections p !! cb_writer cb = Some conn -> fault (writer conn) = None ->
  exists p', success_callback (Mac:=Mac) oc cb op p = (Ret tt, p').
Proof.
  intros Hcmd Hconn Hf. destruct (success_callback_cases cb cmd op conn p Hcmd Hconn) as (response & _ & [E|(why & w' & _ & _ & Hno)]);
    [by eauto|done].
Qed.

(** C18: When an operation completes, its response (with the status Ok, the
    identifier of the request and the result) is appended to the connection that
    the command came from, to no other, and the permit of the sector is free
    again. *)
Theorem completed_command_is_answered self sk ck n m cl w p iter new_v4 idx r msg q p' r' cb op :
  0 <= n -> process_reaches (RegisterProcess.new self sk ck n m cl w) p ->
  workers p !! idx = Some (Running r) -> sectors_txs p !! idx = Some ((System msg, None) :: q) -> iter_ok iter ->
  system_command oc iter msg r = Ret (r', [Complete cb op]) ->
  ar_worker_turn (Mac:=Mac) oc iter new_v4 idx r (System msg, None)
    (p <| sectors_txs := <[idx := q]> (sectors_txs p) |>) = (Ret tt, p') ->
  exists cmd conn response,
    cb_cmd cb = Client cmd /\ c_sector_idx (c_header cmd) = idx /\ same_kind cmd (op_return op) /\
    connections p !! cb_writer cb = Some conn /\
    construct_valid_response (Mac:=Mac) oc op (rp_hmac_client_key p) (msg_type_of cmd) (request_identifier (c_header cmd))
      = Ret response /\
    connections p' = <[cb_writer cb := {| reader := reader conn; writer := wrote response (writer conn);
      doing := doing conn |}]> (connections p) /\
    sectors_guards p !! idx = Some 0%nat /\ sectors_guards p' !! idx = Some 1%nat.
Proof.
  intros Hn Hp Hw Hq Hiter Hsys Hrun. apply reaches_process_inv in Hp; [|done].
  destruct (pi_worker _ _ _ _ _ _ _ Hp idx r Hw) as [Hri _ _ _ Hcb].
  assert (step oc r (EvSystem msg) r' [Complete cb op]) as Hstep by by eapply step_system.
  destruct (system_step_callback _ _ _ _ _ Hri Hstep)
    as [(F0 & _)|(cb1 & op1 & [= <- <-] & F1 & _ & _ & F2)].
  { destruct (F0 cb op). apply list_elem_of_here. }
  destruct (Hcb cb F1) as (cmd & (Hc1 & Hc2 & Hc3 & [[rd d] Hc4]) & _ & Hread).
  unfold conns in Hc4. rewrite lookup_fmap in Hc4.
  destruct (connections p !! cb_writer cb) as [conn|] eqn:Hconn; [|done].
  destruct (worker_sector p idx _ Hp Hw) as (q0 & g & _ & Hg).
  pose proof (pi_permit _ _ _ _ _ _ _ Hp idx _ g _ Hq Hg Hw) as Hpermit. simpl in Hpermit. rewrite F1 in Hpermit.
  assert (g = 0%nat) as -> by lia.
  unfold ar_worker_turn in Hrun. rewrite Hsys, M_bind_lift, M_bind_modify in Hrun. simpl in Hrun.
  apply M_bind_Ret_inv in Hrun as ([] & p1 & Hcall & [= <-]).
  eapply success_callback_answers in Hcall as (response & Hresp & ->); [|exact Hc1|exact Hconn].
  exists cmd, conn, response. split_and!; [done|done| |done|done| |done|].
  - unfold same_kind. rewrite <- Hread. destruct (op_return op); [apply F2|done].
  - reflexivity.
  - simpl. rewrite Hc3, (alter_as_insert _ _ _ _ Hg). apply lookup_insert_eq.
Qed.

(** ** What a connection does with a command *)

Definition set_conn c conn p : process := p <| connections := <[c := conn]> (connections p) |>.

(** The process after a connection has dealt with a command that it read. *)
Inductive dispatched p c (rd : stream) (conn : Connection Uuid)
  : RegisterCommand Uuid -> bool -> outcome Empty_set unit * process -> Prop :=
| dispatch_bad_hmac cmd response :
    rejects (Mac:=Mac) oc (rp_hmac_client_key p) cmd StatusCode.AuthFailure response ->
    dispatched p c rd conn (Client cmd) false
      (Ret tt, set_conn c {| reader := rd; doing := doing conn;
        writer := {| written := written (writer conn) ++ response; fault := None |} |} p)
| dispatch_bad_sector cmd response :
    rp_n_sectors p <= c_sector_idx (c_header cmd) ->
    rejects (Mac:=Mac) oc (rp_hmac_client_key p) cmd StatusCode.InvalidSectorIndex response ->
    dispatched p c rd conn (Client cmd) true
      (Ret tt, set_conn c {| reader := rd; doing := doing conn;
        writer := {| written := written (writer conn) ++ response; fault := None |} |} p)
| dispatch_client cmd :
    0 <= c_sector_idx (c_header cmd) < rp_n_sectors p ->
    dispatched p c rd conn (Client cmd) true
      (Ret tt, set_conn c {| reader := rd; doing := Acquiring (Client cmd); writer := writer conn |} p)
| dispatch_forged_system s :
    dispatched p c rd conn (System s) false
      (Ret tt, set_conn c {| reader := rd; doing := doing conn; writer := writer conn |} p)
| dispatch_system s q w :
    sectors_txs p !! sector_idx (header s) = Some q -> workers p !! sector_idx (header s) = Some w -> w <> Dead ->
    dispatched p c rd conn (System s) true
      (Ret tt, set_conn c {| reader := rd; doing := doing conn; writer := writer conn |} p
                 <| sectors_txs := <[sector_idx (header s) := q ++ [(System s, None)]]> (sectors_txs p) |>)
| dispatch_system_dead s why :
    ~ (0 <= sector_idx (header s) < rp_n_sectors p) \/ workers p !! sector_idx (header s) = Some Dead ->
    dispatched p c rd conn (System s) true
      (Panic why, set_conn c {| reader := rd; doing := doing conn; writer := writer conn |} p).

(** Rejecting a command on a connection that can be written to. *)
Lemma reject_runs c conn p cmd st mk key :
  connections p !! c = Some conn -> fault (writer conn) = None -> key = rp_hmac_client_key p ->
  (forall response, mk (msg_type_of cmd) (request_identifier (c_header cmd)) = Ret response ->
     rejects (Mac:=Mac) oc key cmd st response) ->
  (exists response, mk (msg_type_of cmd) (request_identifier (c_header cmd)) = Ret response) ->
  exists response, rejects (Mac:=Mac) oc key cmd st response /\
    ('(rid, msg_type) ← lift (get_rid_and_msg_type (Client (Uuid:=Uuid) cmd));
     resp ← lift (expect_ok "Failed to construct response" (mk msg_type rid));
     on_writer c (send_response resp)) p =
    (Ret tt, set_conn c {| reader := reader conn; doing := doing conn;
       writer := {| written := written (writer conn) ++ response; fault := None |} |} p).
Proof.
  intros Hc Hf -> Hrej [response Hmk]. exists response. split; [by apply Hrej|].
  rewrite get_rid_and_msg_type_client, M_bind_lift, Hmk. cbn [expect_ok]. rewrite M_bind_lift.
  unfold on_writer. rewrite Hc. unfold send_response, write_all. by rewrite Hf.
Qed.

Section Dispatch.
Context p c (conn : Connection Uuid) (rd : stream).
Hypotheses (Hp : process_inv p) (Hf : fault (writer conn) = None).

(** The connection once the command is read. *)
Definition after_read : process :=
  set_conn c {| reader := rd; writer := writer conn; doing := doing conn |} p.

Lemma set_conn_after_read x : set_conn c x after_read = set_conn c x p.
Proof. unfold after_read, set_conn, assign, assign_connections. simpl. by rewrite insert_insert_eq. Qed.

Lemma after_read_lookup :
  connections after_read !! c = Some {| reader := rd; writer := writer conn; doing := doing conn |}.
Proof. apply lookup_insert_eq. Qed.

Lemma dispatch_client_runs cmd :
  0 <= c_sector_idx (c_header cmd) < rp_n_sectors p ->
  dispatched p c rd conn (Client cmd) true (dispatch_command (Mac:=Mac) oc c (Client cmd) true after_read).
Proof.
  intros Hidx. unfold dispatch_command. rewrite M_bind_get. destruct cmd as [hd ct]. cbn beta iota zeta.
  rewrite decide_True by (simpl in *; lia).
  destruct (proj2 (pi_txs _ _ _ _ _ _ _ Hp _) Hidx) as [q Hq].
  destruct (proj2 (pi_guards _ _ _ _ _ _ _ Hp _) Hidx) as [g Hg]. simpl in Hq, Hg.
  simpl. rewrite Hq, Hg. simpl. rewrite M_bind_lift, M_bind_lift. unfold set_doing, modify.
  rewrite (alter_as_insert _ _ _ _ after_read_lookup).
  replace (after_read <| connections := _ |>) with
    (set_conn c {| reader := rd; writer := writer conn; doing := Acquiring (Client {| c_header := hd; c_content := ct |}) |} p)
    by by rewrite <- set_conn_after_read.
  by apply dispatch_client.
Qed.

Lemma dispatch_bad_sector_runs cmd :
  rp_n_sectors p <= c_sector_idx (c_header cmd) ->
  dispatched p c rd conn (Client cmd) true (dispatch_command (Mac:=Mac) oc c (Client cmd) true after_read).
Proof.
  intros Hidx. unfold dispatch_command. rewrite M_bind_get.
  destruct (reject_runs c {| reader := rd; writer := writer conn; doing := doing conn |} after_read cmd
    StatusCode.InvalidSectorIndex
    (fun mt rid => construct_invalid_sector_index_response (Mac:=Mac) oc (rp_hmac_client_key p) mt rid)
    (rp_hmac_client_key p) after_read_lookup Hf eq_refl) as (response & Hrej & Hrun).
  - intros response Hr. by right.
  - rewrite construct_invalid_sector_index_response_spec.
    match goal with |- context [seal ?k ?b] => destruct (seal_total (Mac:=Mac) k b) as (tag & -> & _) end. eauto.
  - destruct cmd as [hd ct]. cbn beta iota zeta. rewrite decide_False by (simpl in *; lia).
    simpl in Hrun |- *. rewrite Hrun, set_conn_after_read. by apply dispatch_bad_sector.
Qed.

Lemma dispatch_bad_hmac_runs cmd :
  dispatched p c rd conn (Client cmd) false (dispatch_command (Mac:=Mac) oc c (Client cmd) false after_read).
Proof.
  unfold dispatch_command. rewrite M_bind_get. cbn beta iota zeta.
  destruct (reject_runs c {| reader := rd; writer := writer conn; doing := doing conn |} after_read cmd
    StatusCode.AuthFailure
    (fun mt rid => construct_invalid_hmac_response (Mac:=Mac) oc (rp_hmac_client_key p) mt rid)
    (rp_hmac_client_key p) after_read_lookup Hf eq_refl) as (response & Hrej & Hrun).
  - intros response Hr. by left.
  - rewrite construct_invalid_hmac_response_spec.
    match goal with |- context [seal ?k ?b] => destruct (seal_total (Mac:=Mac) k b) as (tag & -> & _) end. eauto.
  - simpl in Hrun |- *. rewrite Hrun, set_conn_after_read. by apply dispatch_bad_hmac.
Qed.

Lemma dispatch_system_runs s :
  dispatched p c rd conn (System s) true (dispatch_command (Mac:=Mac) oc c (System s) true after_read).
Proof.
  unfold dispatch_command. rewrite M_bind_get. cbn beta iota zeta. unfold send_to_sector.
  change (sectors_txs after_read) with (sectors_txs p). change (workers after_read) with (workers p).
  destruct (sectors_txs p !! sector_idx (header s)) as [q|] eqn:Hq; cycle 1.
  { apply dispatch_system_dead. left. intros Hidx. apply (pi_txs _ _ _ _ _ _ _ Hp) in Hidx as [? ?]. congruence. }
  destruct (proj2 (pi_workers _ _ _ _ _ _ _ Hp (sector_idx (header s)))) as [w0 Hw0];
    [apply (pi_txs _ _ _ _ _ _ _ Hp); by eauto|].
  rewrite Hw0. destruct w0; [by eapply dispatch_system..|]. apply dispatch_system_dead. by right.
Qed.

End Dispatch.

Lemma turn_dispatches p c conn cmd ok rd :
  process_inv p -> connections p !! c = Some conn -> fault (writer conn) = None ->
  deserialize_register_command (Mac:=Mac) (reader conn) (rp_hmac_system_key p) (rp_hmac_client_key p) = (Ret (cmd, ok), rd) ->
  (forall cc, cmd = Client cc -> 0 <= c_sector_idx (c_header cc)) ->
  dispatched p c rd conn cmd ok (connection_turn (Mac:=Mac) oc c p).
Proof.
  intros Hp Hc Hf Hread Hpos.
  unfold connection_turn. erewrite M_bind_Ret; [|unfold read_command; by rewrite Hc, Hread].
  destruct cmd as [cmd|s], ok.
  - specialize (Hpos cmd eq_refl).
    destruct (decide (c_sector_idx (c_header cmd) < rp_n_sectors p)).
    + by apply dispatch_client_runs.
    + apply dispatch_bad_sector_runs; [done|lia].
  - by apply dispatch_bad_hmac_runs.
  - by apply dispatch_system_runs.
  - apply dispatch_forged_system.
Qed.

(** C19: A connection deals with every command that it reads as the format
    demands: a client command with a wrong HMAC or a sector that does not exist
    is answered at once with that status, its request identifier and kind;
    another client command waits for the permit of its sector; a system message
    with a wrong HMAC is dropped, any other one goes to the end of the channel
    of its sector; one for a sector without a live worker makes the task of the
    connection panic. *)
Theorem connection_dispatches self sk ck n m cl w p c conn cmd ok rd :
  0 <= n -> process_reaches (RegisterProcess.new self sk ck n m cl w) p ->
  connections p !! c = Some conn -> fault (writer conn) = None ->
  deserialize_register_command (Mac:=Mac) (reader conn) (rp_hmac_system_key p) (rp_hmac_client_key p) = (Ret (cmd, ok), rd) ->
  (forall cc, cmd = Client cc -> 0 <= c_sector_idx (c_header cc)) ->
  dispatched p c rd conn cmd ok (connection_turn (Mac:=Mac) oc c p).
Proof. intros Hn Hp. apply reaches_process_inv in Hp; [|done]. by apply turn_dispatches. Qed.

End Facts.

(** ** The theorems on a concrete process

    A process alone in its system, with two sectors, over the drive and the
    client of the tests; a client reads sector 0. *)

Module ProcessFactsExamples.

Definition sk : bytes := replicate 64 1.
Definition ck : bytes := replicate 32 5.
Definition eof : Error := {| kind := UnexpectedEof; inner := None |}.

Abbreviation process := (Process Toy.Uuid RamDrive.t (BufferClient.t Toy.Uuid)).

Definition id9 : Toy.Uuid := {| Toy.number := 9; Toy.number_ok := eq_refl |}.

Definition alone : process :=
  RegisterProcess.new 1 sk ck 1 2 {| BufferClient.bc_processes_count := 1; BufferClient.buffer := [] |} ∅.

Inductive action :=
| AAccept (c : nat) (input : bytes)
| AConnection (c : nat)
| AAcquire (c : nat)
| AStart (idx : Z)
| AWorker (idx : Z)
| ASelf (msg : SystemRegisterCommand Toy.Uuid).

(** A connection that never breaks. *)
Definition healthy : TcpStream := {| stream_fault := None; nodelay_ok := true |}.

Definition returned (r : outcome Empty_set unit * process) : option process :=
  match r with (Ret _, p) => Some p | _ => None end.

Definition act (a : action) (p : process) : option process :=
  match a with
  | AAccept c input =>
      match connections p !! c with
      | None => returned (accept_connection c (Some (healthy, {| pending := input; at_end := eof |})) p)
      | Some _ => None
      end
  | AConnection c =>
      match connections p !! c with
      | Some {| doing := Reading |} => returned (connection_turn (Mac:=Toy.Mac) true c p)
      | _ => None
      end
  | AAcquire c =>
      match connections p !! c with
      | Some {| doing := Acquiring (Client cmd) |} =>
          match sectors_guards p !! c_sector_idx (c_header cmd) with
          | Some (S _) => returned (connection_acquired c (Client cmd) (c_sector_idx (c_header cmd)) p)
          | _ => None
          end
      | _ => None
      end
  | AStart idx =>
      match workers p !! idx with
      | Some Starting => returned (ar_worker_start idx p)
      | _ => None
      end
  | AWorker idx =>
      match workers p !! idx, sectors_txs p !! idx with
      | Some (Running r), Some (msg :: q) =>
          returned (ar_worker_turn (Mac:=Toy.Mac) true map_to_list id9 idx r msg
                      (p <| sectors_txs := <[idx := q]> (sectors_txs p) |>))
      | _, _ => None
      end
  | ASelf msg => returned (handle_self_messages msg p)
  end.

Lemma returned_Some r p : returned r = Some p -> r = (Ret tt, p).
Proof. destruct r as [[[]| |] p']; simpl; congruence. Qed.

Lemma act_step a p p' : act a p = Some p' -> exists τ, process_step (Mac:=Toy.Mac) true p τ p'.
Proof.
  destruct a as [c input|c|c|idx|idx|msg]; simpl.
  - destruct (connections p !! c) eqn:E; [done|]. intros [= <-]. eexists.
    by eapply (ps_accept true p c (Some (healthy, {| pending := input; at_end := eof |}))).
  - destruct (connections p !! c) as [conn|] eqn:E; [|done].
    destruct conn as [rd wr [|cmd|]]; [|done..]. intros ?%returned_Some. eexists. by eapply ps_connection.
  - destruct (connections p !! c) as [conn|] eqn:E; [|done].
    destruct conn as [rd wr [|[cmd|s]|]]; [done| |done..].
    destruct (sectors_guards p !! _) as [[|k]|] eqn:Eg; [done| |done].
    intros ?%returned_Some. eexists. by eapply ps_acquire.
  - destruct (workers p !! idx) as [[| |]|] eqn:E; [|done..]. intros ?%returned_Some. eexists. by eapply ps_worker_start.
  - destruct (workers p !! idx) as [[|r|]|] eqn:E; [done| |done..].
    destruct (sectors_txs p !! idx) as [[|msg q]|] eqn:Eq; [done| |done].
    intros ?%returned_Some. eexists. by eapply (ps_worker _ _ map_to_list); [..|intros m; reflexivity|].
  - intros ?%returned_Some. eexists. by eapply ps_self.
Qed.

Definition acts (l : list action) (p : process) : option process := foldl (fun o a => o ≫= act a) (Some p) l.

Lemma acts_reaches l p p' : acts l p = Some p' -> process_reaches (Mac:=Toy.Mac) true p p'.
Proof.
  unfold acts. revert p. induction l as [|a l IH]; intros p; simpl; [intros [= <-]; apply rtc_refl|].
  destruct (act a p) as [p1|] eqn:E.
  - intros Hl. eapply rtc_l; [exact (act_step _ _ _ E)|by apply IH].
  - intros Hl. exfalso. clear -Hl. by induction l.
Qed.

Definition read_0 : ClientRegisterCommand :=
  {| c_header := {| request_identifier := 7; c_sector_idx := 0 |}; c_content := Read |}.

Definition wire_of (key : bytes) : bytes :=
  written (snd (serialize_rc (Uuid:=Toy.Uuid) (Mac:=Toy.Mac) (Client read_0) key {| written := []; fault := None |})).

Definition self_msg (ct : SystemRegisterCommandContent) : SystemRegisterCommand Toy.Uuid :=
  {| header := {| process_identifier := 1; msg_ident := id9; sector_idx := 0 |}; content := ct |}.

(** Up to the message that completes the read. *)
Definition until_ack : list action :=
  [AAccept 0 (wire_of ck); AConnection 0; AAcquire 0; AStart 0; AWorker 0;
   ASelf (self_msg ReadProc); AWorker 0; ASelf (self_msg (Value 0 0 zero_sector)); AWorker 0;
   ASelf (self_msg (WriteProc 0 0 zero_sector)); AWorker 0; ASelf (self_msg Ack)].

Lemma map_order : iter_ok map_to_list.
Proof. intros m. reflexivity. Qed.

Lemma alone_reads : exists p r cb op p' r', acts until_ack alone = Some p /\
  workers p !! 0 = Some (Running r) /\ sectors_txs p !! 0 = Some [(System (self_msg Ack), None)] /\
  system_command true map_to_list (self_msg Ack) r = Ret (r', [Complete cb op]) /\
  ar_worker_turn (Mac:=Toy.Mac) true map_to_list id9 0 r (System (self_msg Ack), None)
    (p <| sectors_txs := <[0 := []]> (sectors_txs p) |>) = (Ret tt, p') /\
  op = {| os_request_identifier := 7; op_return := ReadReturn zero_sector |}.
Proof.
  destruct (acts until_ack alone) as [p|] eqn:E; vm_compute in E; [|done]. injection E as <-.
  do 6 eexists. split; [reflexivity|]. split; [reflexivity|]. split; [reflexivity|].
  split; [vm_compute; reflexivity|]. split; [vm_compute; reflexivity|]. vm_compute. reflexivity.
Qed.

Lemma process_invariant_witness : exists p, acts until_ack alone = Some p /\ process_inv p.
Proof.
  destruct alone_reads as (p & _ & _ & _ & _ & _ & Hrun & _). exists p. split; [exact Hrun|].
  apply (process_invariant (Mac:=Toy.Mac) true 1 sk ck 1 2
    {| BufferClient.bc_processes_count := 1; BufferClient.buffer := [] |} (∅ : RamDrive.t) p); [lia|].
  exact (acts_reaches _ _ _ Hrun).
Defined.

Lemma worker_turns_are_register_steps_witness :
  exists p r r' effs, workers p !! 0 = Some (Running r) /\ acts until_ack alone = Some p /\
    step true r (EvSystem (self_msg Ack)) r' effs.
Proof.
  destruct alone_reads as (p & r & cb & op & p' & r1 & Hrun & Hw & Hq & Hsys & Hturn & _).
  destruct (worker_turns_are_register_steps (Mac:=Toy.Mac) true 1 sk ck 1 2
    {| BufferClient.bc_processes_count := 1; BufferClient.buffer := [] |} (∅ : RamDrive.t) p map_to_list id9 0 r
    _ _ _ _ ltac:(lia) (acts_reaches _ _ _ Hrun) Hw Hq map_order Hturn)
    as (e & [= <-] & [(r' & effs & Hstep & _)|(why & Hno & _)]); [|discriminate Hno].
  exists p, r, r', effs. split; [exact Hw|]. split; [exact Hrun|exact Hstep].
Defined.

Lemma completed_command_is_answered_witness :
  exists (p p' : process) (cb : Callback Toy.Uuid) cmd conn response, acts until_ack alone = Some p /\ cb_cmd cb = Client cmd /\
    connections p' !! cb_writer cb = Some {| reader := reader conn; doing := doing conn;
      writer := wrote response (writer conn) |} /\
    construct_valid_response (Mac:=Toy.Mac) true {| os_request_identifier := 7; op_return := ReadReturn zero_sector |}
      (rp_hmac_client_key p) (msg_type_of cmd) (request_identifier (c_header cmd)) = Ret response /\
    sectors_guards p' !! 0 = Some 1%nat.
Proof.
  destruct alone_reads as (p & r & cb & op & p' & r1 & Hrun & Hw & Hq & Hsys & Hturn & Hop). subst op.
  destruct (completed_command_is_answered (Mac:=Toy.Mac) true 1 sk ck 1 2
    {| BufferClient.bc_processes_count := 1; BufferClient.buffer := [] |} (∅ : RamDrive.t) p map_to_list id9 0 r
    _ _ _ _ _ _ ltac:(lia) (acts_reaches _ _ _ Hrun) Hw Hq map_order Hsys Hturn)
    as (cmd & conn & response & H1 & H2 & H3 & H4 & H5 & H6 & H7 & H8).
  exists p, p', cb, cmd, conn, response. split; [exact Hrun|]. split; [exact H1|]. split; [|split; [exact H5|exact H8]].
  rewrite H6. apply lookup_insert_eq.
Defined.

(** A command with a wrong key is rejected at once. *)
Lemma connection_dispatches_witness :
  exists (p : process) r conn, acts [AAccept 0 (wire_of sk)] alone = Some p /\
    connection_turn (Mac:=Toy.Mac) true 0 p = r /\
    dispatched (Mac:=Toy.Mac) true p 0 {| pending := []; at_end := eof |} conn (Client read_0) false r.
Proof.
  destruct (acts [AAccept 0 (wire_of sk)] alone) as [p|] eqn:E; [|discriminate E].
  pose proof (acts_reaches _ _ _ E) as Hp.
  exists p, (connection_turn (Mac:=Toy.Mac) true 0 p).
  assert (exists conn, connections p !! 0%nat = Some conn /\ fault (writer conn) = None /\
    deserialize_register_command (Uuid:=Toy.Uuid) (Mac:=Toy.Mac) (reader conn) (rp_hmac_system_key p) (rp_hmac_client_key p) =
      (Ret (Client read_0, false), {| pending := []; at_end := eof |})) as (conn & H1 & H2 & H3).
  { injection E as <-. eexists. split; [reflexivity|]. split; [reflexivity|]. vm_compute. reflexivity. }
  exists conn. split; [reflexivity|]. split; [reflexivity|].
  apply (connection_dispatches (Mac:=Toy.Mac) true 1 sk ck 1 2
    {| BufferClient.bc_processes_count := 1; BufferClient.buffer := [] |} (∅ : RamDrive.t) p 0 conn
    (Client read_0) false _ ltac:(lia) Hp H1 H2 H3).
  intros cc [= <-]. simpl. lia.
Defined.

End ProcessFactsExamples.
