(* ===== verification/WholeSystem.v ===== *)
(** * All processes together

    The processes [1..n], each with all its tasks, sectors and connections, and
    the messages between them.  A run interleaves the turns of all tasks of all
    processes.  The network is taken at its word: a system message that passes
    its HMAC was handed over for this process before ([link_carries_what_was_sent]
    is the reason, for connections that carry what processes write).

    Every run is, sector by sector, a run of the registers of [Cluster], so what
    is proved there holds for what clients see of the complete processes. *)

From S2P Require Import Prelude Domain Crates Transfer AtomicRegister RegisterFacts Algorithm Linearizability.
From S2P Require Import Cluster Atomicity Runs Storage RegisterClient Responses RegisterProcess ProcessFacts.

(** ** Clients that remember

    A client with the list of what was handed to it. *)

Record recorded {Uuid Cl : Type} := { rec_client : Cl; rec_handed : list (Z * SystemRegisterCommand Uuid) }.
Arguments recorded Uuid Cl : clear implicits.

(** ** Histories with answers left out *)

Section Erases.
Context {Op : Type}.
Implicit Types (lost : Op -> Prop) (h : list (action Op)).

(** [h] is [h'] without some answers to the operations in [lost]. *)
Inductive erases lost : list (action Op) -> list (action Op) -> Prop :=
| erases_nil : erases lost [] []
| erases_keep x h h' : erases lost h h' -> erases lost (x :: h) (x :: h')
| erases_drop op a h h' : lost op -> erases lost h h' -> erases lost h (Res op a :: h').

Lemma erases_refl lost h : erases lost h h.
Proof. induction h; by constructor. Qed.

Lemma erases_weaken lost lost' h h' : (forall op, lost op -> lost' op) -> erases lost h h' -> erases lost' h h'.
Proof. intros Hl. induction 1; constructor; auto. Qed.

(** Without lost operations the histories are the same. *)
Lemma erases_none lost h h' : (forall op, ~ lost op) -> erases lost h h' -> h = h'.
Proof. intros Hl. induction 1 as [| |op a h h' Hop]; [done|by f_equal|by destruct (Hl op)]. Qed.

Lemma erases_app lost h1 h1' h2 h2' : erases lost h1 h1' -> erases lost h2 h2' -> erases lost (h1 ++ h2) (h1' ++ h2').
Proof. induction 1; simpl; [done|constructor; auto..]. Qed.

Lemma erases_elem lost h h' x : erases lost h h' -> x ∈ h -> x ∈ h'.
Proof.
  induction 1 as [|y h h' _ IH|op a h h' _ _ IH]; [done| |]; rewrite ?elem_of_cons; [|by auto]. intros [->|Hx]; auto.
Qed.

Lemma erases_inv lost h h' op o : erases lost h h' -> Inv op o ∈ h' -> Inv op o ∈ h.
Proof.
  induction 1 as [|y h h' _ IH|op' a h h' _ _ IH]; [done| |]; rewrite ?elem_of_cons; [intros [->|Hx]; auto|]. intros [[=]|Hx]; auto.
Qed.

Lemma erases_precedes lost h h' x y : erases lost h h' -> precedes x y h -> precedes x y h'.
Proof.
  intros Her. induction Her as [|z h h' Her IH|op a h h' _ Her IH]; [done| |].
  - intros ([|z' l1] & l2 & l3 & E); simpl in E; injection E as -> E.
    + apply precedes_head. eapply erases_elem; [done|]. rewrite E. set_solver.
    + apply precedes_cons, IH. by exists l1, l2, l3.
  - intros Hp. by apply precedes_cons, IH.
Qed.

(** An answer that nobody saw can be forgotten. *)
Lemma erases_linearizable lost h h' : erases lost h h' -> linearizable h' -> linearizable h.
Proof.
  intros Her [l [H1 H2 H3 H4 H5]]. exists l. split; [done| | |done|].
  - intros op a Hin. eapply H2. by eapply erases_elem.
  - intros x Hx. eapply erases_inv; [done|]. by apply H3.
  - intros op a op' o' x y Hp. eapply H5. by eapply erases_precedes.
Qed.

End Erases.

Section System.
Context {Uuid Mac St Cl : Type} `{!EqDecision Uuid} `{UuidLaws Uuid, HmacLaws Mac}.
Context `{SectorsManager St} `{!RegisterClient Uuid Cl}.
Variables (oc : bool) (n : Z).

Definition record {A} (l : list (Z * SystemRegisterCommand Uuid)) (f : M Cl Empty_set A) : M (recorded Uuid Cl) Empty_set A :=
  fun c => let '(o, cl) := f (rec_client c) in (o, {| rec_client := cl; rec_handed := rec_handed c ++ l |}).

#[local] Instance recorded_client : RegisterClient Uuid (recorded Uuid Cl) := {
  rc_send cmd target := record [(target, cmd)] (rc_send cmd target);
  rc_broadcast cmd := record ((fun q => (q, cmd)) <$> seqZ 1 n) (rc_broadcast cmd);
}.

Abbreviation process := (Process Uuid St (recorded Uuid Cl)).
Abbreviation state := (AtomicRegisterState Uuid (Callback Uuid)).
Abbreviation event := (@event Uuid (Callback Uuid)).
Abbreviation turn := (@turn Uuid).
Implicit Types (i : Z) (p : process) (τ : turn) (r : state) (idx : SectorIdx) (s : SystemRegisterCommand Uuid).
Implicit Types (effs : list (effect Uuid (Callback Uuid))).

(** ** State *)

(** [drawn] has the identifiers that operations were given, [seen] what clients
    see of each sector. *)
Record system := {
  procs : gmap Z process;
  drawn : list Uuid;
  seen : list (SectorIdx * action Uuid);
}.
Implicit Types (σ : system).

Definition handed_over σ i s : Prop := exists j p, procs σ !! j = Some p /\ (i, s) ∈ rec_handed (client p).

(** The answers that the register [r] gives with the effects of a step. *)
Definition answered r effs : list (action Uuid) :=
  effs ≫= fun f => match f, op_id r with Complete _ res, Some op => [Res op (op_return res)] | _, _ => [] end.

(** From [p] to [p'], the response to a completed command was put on the
    connection that the command came from. *)
Definition responded p p' (cb : Callback Uuid) (res : OperationSuccess) : bool :=
  match get_rid_and_msg_type (E:=Error) (cb_cmd cb), connections p !! cb_writer cb, connections p' !! cb_writer cb with
  | Ret (rid, msg_type), Some conn, Some conn' =>
      match construct_valid_response (Mac:=Mac) oc res (rp_hmac_client_key p) msg_type rid with
      | Ret response => bool_decide (written (writer conn') = written (writer conn) ++ response)
      | _ => false
      end
  | _, _, _ => false
  end.

(** The answers that clients get from the effects of a turn. *)
Definition responses p p' r effs : list (action Uuid) :=
  effs ≫= fun f =>
    match f, op_id r with
    | Complete cb res, Some op => if responded p p' cb res then [Res op (op_return res)] else []
    | _, _ => []
    end.

(** An operation begins when its register takes it, and ends when its response
    is on the connection of the client. *)
Definition observed p τ p' : list (SectorIdx * action Uuid) :=
  match τ with
  | Handles iter new_v4 idx (Client cmd, _) => [(idx, Inv new_v4 (c_content cmd))]
  | Handles iter new_v4 idx (System s, _) =>
      match workers p !! idx with
      | Some (Running r) =>
          match system_command oc iter s r with Ret (_, effs) => (fun a => (idx, a)) <$> responses p p' r effs | _ => [] end
      | _ => []
      end
  | _ => []
  end.

Definition draws τ : list Uuid :=
  match τ with Handles _ new_v4 _ (Client _, _) => [new_v4] | _ => [] end.

Definition sector_history idx σ : list (action Uuid) :=
  omap (fun x => if decide (x.1 = idx) then Some x.2 else None) (seen σ).

(** ** Steps *)

(** What a turn may meet: messages are authentic, identifiers fresh, and a
    worker that starts finds its sector unwritten.  [ok] restricts the calls
    that handlers make. *)
Definition admissible (ok : state -> event -> effect Uuid (Callback Uuid) -> Prop) σ i p τ p' : Prop :=
  match τ with
  | Accepts _ | Acquires _ => True
  | Reads c => forall conn s rd, connections p !! c = Some conn ->
      deserialize_register_command (Mac:=Mac) (reader conn) (rp_hmac_system_key p) (rp_hmac_client_key p) = (Ret (System s, true), rd) ->
      handed_over σ i s
  | Forwards s => handed_over σ i s
  | Begins idx => forall r, workers p' !! idx = Some (Running r) -> r = AtomicRegister.new i idx n 0 0 zero_sector
  | Handles iter new_v4 idx msg =>
      (forall cmd cb, msg = (Client cmd, cb) -> new_v4 ∉ drawn σ) /\
      (forall r e r' effs, workers p !! idx = Some (Running r) -> event_of new_v4 msg = Some e ->
         handler oc iter e r = Ret (r', effs) -> Forall (ok r e) effs)
  end.

Inductive system_step ok σ : system -> Prop :=
| system_turn i p τ p' :
    procs σ !! i = Some p -> process_step (Mac:=Mac) oc p τ p' -> admissible ok σ i p τ p' ->
    system_step ok σ {| procs := <[i := p']> (procs σ); drawn := drawn σ ++ draws τ; seen := seen σ ++ observed p τ p' |}.

(** The processes as they are after start-up, with any clients and storage. *)
Variables (sk ck : bytes) (n_sectors : u64) (links : Z -> Cl) (files : Z -> St).

Definition system_start : system :=
  {| procs := list_to_map ((fun i => (i, RegisterProcess.new i sk ck n n_sectors {| rec_client := links i; rec_handed := [] |} (files i))) <$> seqZ 1 n);
     drawn := []; seen := [] |}.

Definition system_reaches ok σ : Prop := rtc (system_step ok) system_start σ.

(** ** What turns change *)

Definition queued p idx : list (SystemRegisterCommand Uuid) :=
  omap (fun m : sector_message Uuid => match m.1 with System s => Some s | Client _ => None end)
    (default [] (sectors_txs p !! idx)).

(** Nothing of [p] changes for registers, but system messages in [P] may have
    come into their channels. *)
Record quiet_change (P : SystemRegisterCommand Uuid -> Prop) p p' : Prop := {
  qc_self : rp_self_ident p' = rp_self_ident p;
  qc_count : rp_processes_count p' = rp_processes_count p;
  qc_workers : workers p' = workers p;
  qc_client : client p' = client p;
  qc_queued idx s : s ∈ queued p' idx -> s ∈ queued p idx \/ P s;
}.

Lemma quiet_refl P p : quiet_change P p p.
Proof. split; auto. Qed.

Lemma quiet_same P p p1 p2 :
  quiet_change P p p1 ->
  rp_self_ident p2 = rp_self_ident p1 -> rp_processes_count p2 = rp_processes_count p1 -> workers p2 = workers p1 ->
  client p2 = client p1 -> sectors_txs p2 = sectors_txs p1 -> quiet_change P p p2.
Proof. intros [? ? ? ? Hq] E1 E2 E3 E4 E5. split; [congruence..|]. unfold queued in *. by rewrite E5. Qed.

Lemma quiet_on_writer {A} P c (f : M sink Empty_set A) p p1 o p2 :
  quiet_change P p p1 -> on_writer c f p1 = (o, p2) -> quiet_change P p p2.
Proof.
  intros Hq. unfold on_writer. destruct (connections p1 !! c) as [conn|]; [|by intros [= _ <-]].
  destruct (f (writer conn)) as [o' w]. intros [= _ <-]. by eapply quiet_same.
Qed.

Lemma quiet_send_to_sector P idx msg p p1 o p2 :
  quiet_change P p p1 -> (forall s, msg.1 = System s -> P s) -> send_to_sector idx msg p1 = (o, p2) -> quiet_change P p p2.
Proof.
  intros [? ? ? ? Hq] Hmsg [(q & w & Hlook & _ & _ & _ & ->)|(why & _ & ->)]%send_to_sector_cases; [|done].
  split; [done..|]. intros idx' s. unfold queued in *. simpl. destruct (decide (idx = idx')) as [<-|Hne].
  - rewrite lookup_insert_eq. simpl. rewrite omap_app, elem_of_app. intros [Hs|Hs].
    + apply Hq. by rewrite Hlook.
    + right. apply Hmsg. destruct msg as [[c|s'] cb]; simpl in Hs; [by apply not_elem_of_nil in Hs|].
      by apply list_elem_of_singleton in Hs as ->.
  - rewrite lookup_insert_ne by done. apply Hq.
Qed.

Lemma quiet_dispatch P c cmd ok p p1 o p2 :
  quiet_change P p p1 -> (forall s, cmd = System s -> ok = true -> P s) ->
  dispatch_command (Mac:=Mac) oc c cmd ok p1 = (o, p2) -> quiet_change P p p2.
Proof.
  intros Hq HP. unfold dispatch_command. rewrite M_bind_get.
  destruct ok, cmd as [[hd ct]|s].
  - case_decide.
    + apply keeps_bind; [intros o1 p3; by apply keeps_lift|]. intros _ p3 o3 p4 Hq3.
      apply keeps_bind; [intros o1 p5; by apply keeps_lift|]. intros _ p5 o5 p6 Hq5.
      unfold set_doing, modify. intros [= _ <-]. by eapply quiet_same.
    + apply keeps_bind; [intros o1 p3; by apply keeps_lift|]. intros [rid mt] p3 o3 p4 Hq3.
      apply keeps_bind; [intros o1 p5; by apply keeps_lift|]. intros resp p5 o5 p6 Hq5. by eapply quiet_on_writer.
  - eapply quiet_send_to_sector; [done|]. intros s' [= <-]. by apply HP.
  - apply keeps_bind; [intros o1 p3; by apply keeps_lift|]. intros [rid mt] p3 o3 p4 Hq3.
    apply keeps_bind; [intros o1 p5; by apply keeps_lift|]. intros resp p5 o5 p6 Hq5. by eapply quiet_on_writer.
  - by intros [= _ <-].
Qed.

(** The system messages that a turn takes in. *)
Definition taken_in p τ s : Prop :=
  match τ with
  | Reads c => exists conn rd, connections p !! c = Some conn /\
      deserialize_register_command (Mac:=Mac) (reader conn) (rp_hmac_system_key p) (rp_hmac_client_key p) = (Ret (System s, true), rd)
  | Forwards s' => s = s'
  | _ => False
  end.

Lemma quiet_connection_turn c p o p' :
  connection_turn (Mac:=Mac) oc c p = (o, p') -> quiet_change (taken_in p (Reads c)) p p'.
Proof.
  unfold connection_turn. destruct (read_command (Mac:=Mac) c p) as [[[cmd ok]|[]|why] p1] eqn:Hread.
  - assert (quiet_change (taken_in p (Reads c)) p p1 /\ (forall s, cmd = System s -> ok = true -> taken_in p (Reads c) s)) as [Hq HP].
    { unfold read_command in Hread. destruct (connections p !! c) as [conn|] eqn:Hc; [|done].
      destruct (deserialize_register_command (reader conn) _ _) as [[x|e|w] rd] eqn:Hd; try done. injection Hread as -> <-.
      split; [eapply quiet_same; [apply quiet_refl|..]; done|]. intros s -> ->. by exists conn, rd. }
    erewrite M_bind_Ret by exact Hread. by apply quiet_dispatch.
  - erewrite M_bind_Panic by exact Hread. intros [= _ <-]. unfold read_command in Hread.
    destruct (connections p !! c) as [conn|]; [|injection Hread as _ <-; apply quiet_refl].
    destruct (deserialize_register_command (reader conn) _ _) as [x rd]. injection Hread as _ <-.
    eapply quiet_same; [apply quiet_refl|..]; done.
Qed.

Lemma quiet_acquired P c cmd idx p o p' :
  connection_acquired c (Client cmd) idx p = (o, p') -> quiet_change P p p'.
Proof.
  unfold connection_acquired. rewrite M_bind_modify. set (p0 := p <| sectors_guards := _ |>).
  assert (quiet_change P p p0) as Hq by (eapply quiet_same; [apply quiet_refl|..]; done).
  apply keeps_bind.
  - intros o1 p1. by apply quiet_send_to_sector.
  - intros _ p1 o2 p2 Hq1. unfold set_doing, modify. intros [= _ <-]. by eapply quiet_same.
Qed.

(** Every turn but those of workers. *)
Lemma quiet_step p τ p' :
  process_step (Mac:=Mac) oc p τ p' -> match τ with Begins _ | Handles _ _ _ _ => False | _ => True end ->
  quiet_change (taken_in p τ) p p'.
Proof.
  intros Hstep Hτ. destruct Hstep as [c inc p1 Hc Hrun|c conn p1 Hc Hd Hrun|c conn why p1 Hc Hd Hrun|c conn cmd k p1 Hc Hd Hg Hrun
    |c conn cmd k why p1 Hc Hd Hg Hrun|idx p1 Hw Hrun|idx why p1 Hw Hrun
    |iter id idx r msg q p1 Hw Hq Hi Hrun|iter id idx r msg q why p1 Hw Hq Hi Hrun|msg p1 Hrun]; try done.
  - apply accept_cases in Hrun as (stream & rd & ->). eapply quiet_same; [apply quiet_refl|..]; done.
  - by eapply quiet_connection_turn.
  - eapply quiet_same; [by eapply quiet_connection_turn|..]; done.
  - by eapply quiet_acquired.
  - eapply quiet_same; [by eapply quiet_acquired|..]; done.
  - eapply quiet_send_to_sector; [apply quiet_refl| |exact Hrun]. by intros s [= ->].
Qed.

(** ** Broken connections *)

(** Some connection has taken all that it is going to take. *)
Definition broken p : Prop := exists c conn, connections p !! c = Some conn /\ full (writer conn).

Lemma broken_same p p' : connections p' = connections p -> broken p -> broken p'.
Proof. unfold broken. by intros ->. Qed.

(** Replacing the connection [c] by one whose writer is still full if it was. *)
Lemma broken_insert p p' c conn conn' :
  connections p !! c = Some conn -> connections p' = <[c := conn']> (connections p) ->
  (full (writer conn) -> full (writer conn')) -> broken p -> broken p'.
Proof.
  intros Hc E Hfull (c1 & conn1 & Hc1 & Hf1). destruct (decide (c = c1)) as [<-|Hne].
  - exists c, conn'. rewrite E, lookup_insert_eq. split; [done|]. apply Hfull. by simplify_eq.
  - exists c1, conn1. by rewrite E, lookup_insert_ne.
Qed.

Lemma broken_on_writer c response p o p' :
  broken p -> on_writer c (send_response response) p = (o, p') -> broken p'.
Proof.
  intros Hb. unfold on_writer. destruct (connections p !! c) as [conn|] eqn:Hc; [|by intros [= _ <-]].
  pose proof (send_response_full (E:=Empty_set) response (writer conn)) as Hfull.
  destruct (send_response response (writer conn)) as [o' w]. intros [= _ <-]. by eapply broken_insert.
Qed.

Lemma broken_set_doing c d p : broken p -> broken (set_doing c d p).2.
Proof.
  unfold set_doing, modify, broken. simpl. intros (c1 & conn & Hc & Hf). destruct (decide (c = c1)) as [<-|Hne].
  - exists c. rewrite lookup_alter_eq, Hc. simpl. by eexists.
  - exists c1, conn. by rewrite lookup_alter_ne.
Qed.

Lemma broken_send_to_sector idx msg p o p' : broken p -> send_to_sector idx msg p = (o, p') -> broken p'.
Proof. intros Hb [(q & w & _ & _ & _ & _ & ->)|(why & _ & ->)]%send_to_sector_cases; [|done]. by eapply broken_same. Qed.

Lemma broken_dispatch c cmd ok p o p' :
  broken p -> dispatch_command (Mac:=Mac) oc c cmd ok p = (o, p') -> broken p'.
Proof.
  intros Hb. unfold dispatch_command. rewrite M_bind_get. destruct ok, cmd as [[hd ct]|s].
  - case_decide.
    + apply (keeps_bind broken); [intros o1 p1; by apply keeps_lift|]. intros _ p1 o2 p2 Hb1.
      apply (keeps_bind broken); [intros o3 p3; by apply keeps_lift|]. intros _ p3 o4 p4 Hb3 Hrun.
      pose proof (broken_set_doing c (Acquiring (Client {| c_header := hd; c_content := ct |})) p3 Hb3) as Hb4.
      by rewrite Hrun in Hb4.
    + apply (keeps_bind broken); [intros o1 p1; by apply keeps_lift|]. intros [rid mt] p1 o2 p2 Hb1.
      apply (keeps_bind broken); [intros o3 p3; by apply keeps_lift|]. intros resp p3 o4 p4 Hb3. by apply broken_on_writer.
  - by apply broken_send_to_sector.
  - apply (keeps_bind broken); [intros o1 p1; by apply keeps_lift|]. intros [rid mt] p1 o2 p2 Hb1.
    apply (keeps_bind broken); [intros o3 p3; by apply keeps_lift|]. intros resp p3 o4 p4 Hb3. by apply broken_on_writer.
  - by intros [= _ <-].
Qed.

Lemma broken_connection_turn c p o p' : broken p -> connection_turn (Mac:=Mac) oc c p = (o, p') -> broken p'.
Proof.
  intros Hb. apply (keeps_bind broken).
  - intros o1 p1. unfold read_command. destruct (connections p !! c) as [conn|] eqn:Hc; [|by intros [= _ <-]].
    destruct (deserialize_register_command (reader conn) _ _) as [x rd]. intros [= _ <-]. by eapply broken_insert.
  - intros [cmd ok] p1 o2 p2 Hb1. by apply broken_dispatch.
Qed.

Lemma broken_acquired c cmd idx p o p' : broken p -> connection_acquired c cmd idx p = (o, p') -> broken p'.
Proof.
  intros Hb. unfold connection_acquired. rewrite M_bind_modify. apply (keeps_bind broken).
  - intros o1 p1. by apply broken_send_to_sector.
  - intros _ p1 o2 p2 Hb1 Hrun. pose proof (broken_set_doing c Reading p1 Hb1) as Hb2. by rewrite Hrun in Hb2.
Qed.

Lemma broken_success_callback cb op p o p' : broken p -> success_callback (Mac:=Mac) oc cb op p = (o, p') -> broken p'.
Proof.
  intros Hb. unfold success_callback. apply (keeps_bind broken); [intros o1 p1; by apply keeps_lift|].
  intros [rid mt] p1 o2 p2 Hb1. rewrite M_bind_get.
  apply (keeps_bind broken); [intros o3 p3; by apply keeps_lift|]. intros resp p3 o4 p4 Hb3.
  apply (keeps_bind broken); [intros o5 p5; by apply broken_on_writer|]. intros _ p5 o6 p6 Hb5 [= _ <-]. by eapply broken_same.
Qed.

Lemma broken_on_client {A} (f : M (recorded Uuid Cl) Empty_set A) p o p' : broken p -> on_client f p = (o, p') -> broken p'.
Proof. intros Hb. unfold on_client. destruct (f (client p)). intros [= _ <-]. by eapply broken_same. Qed.

Lemma broken_on_storage {A} (f : M St Empty_set A) p o p' : broken p -> on_storage f p = (o, p') -> broken p'.
Proof. intros Hb. unfold on_storage. destruct (f (storage p)). intros [= _ <-]. by eapply broken_same. Qed.

Lemma broken_worker_start idx p o p' : broken p -> ar_worker_start idx p = (o, p') -> broken p'.
Proof.
  intros Hb. unfold ar_worker_start. rewrite M_bind_get.
  apply (keeps_bind broken); [intros o1 p1; by apply broken_on_storage|]. intros r p1 o2 p2 Hb1 [= _ <-]. by eapply broken_same.
Qed.

Lemma broken_effects effs p o p' : broken p -> perform_effects (Mac:=Mac) oc effs p = (o, p') -> broken p'.
Proof.
  revert p o p'. induction effs as [|f effs IH]; intros p o p' Hb; simpl; [by intros [= _ <-]|].
  apply (keeps_bind broken); [|intros _ p1 o2 p2; by apply IH]. intros o1 p1.
  destruct f as [cmd|cmd t|idx sector|cb op]; simpl.
  - by apply broken_on_client.
  - by apply broken_on_client.
  - by apply broken_on_storage.
  - by apply broken_success_callback.
Qed.

Lemma broken_worker_turn iter id idx r msg p o p' :
  broken p -> ar_worker_turn (Mac:=Mac) oc iter id idx r msg p = (o, p') -> broken p'.
Proof.
  intros Hb. apply (keeps_bind broken).
  - intros o1 p1. destruct msg as [[cmd|s] cb]; [|by apply keeps_lift].
    apply (keeps_bind broken); [intros o2 p2; by apply keeps_lift|]. intros cb' p2 o3 p3 Hb2. by intros [= _ <-].
  - intros [r' effs] p1 o2 p2 Hb1. rewrite M_bind_modify. by apply broken_effects.
Qed.

(** A connection that is broken stays so. *)
Lemma broken_step p τ p' : process_step (Mac:=Mac) oc p τ p' -> broken p -> broken p'.
Proof.
  intros Hstep Hb. destruct Hstep as [c inc p1 Hc Hrun|c conn p1 Hc Hd Hrun|c conn why p1 Hc Hd Hrun|c conn cmd k p1 Hc Hd Hg Hrun
    |c conn cmd k why p1 Hc Hd Hg Hrun|idx p1 Hw Hrun|idx why p1 Hw Hrun
    |iter id idx r msg q p1 Hw Hq Hi Hrun|iter id idx r msg q why p1 Hw Hq Hi Hrun|msg p1 Hrun].
  - apply accept_cases in Hrun as (stream & rd & ->). destruct Hb as (c1 & conn & Hc1 & Hf). exists c1, conn.
    simpl. rewrite lookup_insert_ne; [done|]. intros ->. congruence.
  - by eapply broken_connection_turn.
  - apply broken_set_doing. by eapply broken_connection_turn.
  - by eapply broken_acquired.
  - apply broken_set_doing. eapply broken_same; [|by eapply broken_acquired]. done.
  - by eapply broken_worker_start.
  - eapply broken_same; [|by eapply broken_worker_start]. done.
  - eapply broken_worker_turn; [|exact Hrun]. by eapply broken_same.
  - eapply broken_same; [|eapply broken_worker_turn; [|exact Hrun]]; [done|]. by eapply broken_same.
  - by eapply broken_send_to_sector.
Qed.

(** ** Turns of workers *)

Definition identity p : Z * Z := (rp_self_ident p, rp_processes_count p).

Lemma success_callback_client cb op p o p' : success_callback (Mac:=Mac) oc cb op p = (o, p') -> client p' = client p.
Proof.
  unfold success_callback. apply (keeps_bind (fun p1 => client p1 = client p)); [intros o1 p1; by apply (keeps_lift (fun p1 => client p1 = client p))|].
  intros [rid mt] p1 o2 p2 E1. rewrite M_bind_get.
  apply (keeps_bind (fun p1 => client p1 = client p)); [intros o3 p3; by apply (keeps_lift (fun p1 => client p1 = client p))|].
  intros resp p3 o4 p4 E3. apply (keeps_bind (fun p1 => client p1 = client p)).
  - intros o5 p5. unfold on_writer. destruct (connections p3 !! cb_writer cb); [|by intros [= _ <-]].
    destruct (send_response _ _). by intros [= _ <-].
  - intros _ p5 o6 p6 E5. unfold release, modify. by intros [= _ <-].
Qed.

Lemma perform_effects_handed effs p o p' x :
  perform_effects (Mac:=Mac) oc effs p = (o, p') -> x ∈ rec_handed (client p') ->
  x ∈ rec_handed (client p) \/ x ∈ effs ≫= sent n.
Proof.
  revert p. induction effs as [|f effs IH]; intros p; simpl; [intros [= _ <-]; by left|].
  destruct (perform_effect oc f p) as [o1 p1] eqn:E.
  assert (x ∈ rec_handed (client p1) -> x ∈ rec_handed (client p) \/ x ∈ sent n f) as Hf.
  { clear -E. destruct f as [cmd|cmd t|idx sector|cb op]; simpl in E.
    - unfold on_client in E. simpl in E. unfold record in E. destruct (rc_broadcast cmd _) as [o2 cl]. injection E as _ <-. simpl. apply elem_of_app.
    - unfold on_client in E. simpl in E. unfold record in E. destruct (rc_send cmd t _) as [o2 cl]. injection E as _ <-. simpl. apply elem_of_app.
    - unfold on_storage in E. destruct (sm_write idx sector _) as [o2 w]. injection E as _ <-. by left.
    - rewrite (success_callback_client _ _ _ _ _ E). by left. }
  rewrite elem_of_app. destruct o1 as [[]|[]|why].
  - erewrite M_bind_Ret by exact E. intros Hrun Hx. destruct (IH p1 Hrun Hx) as [Hx1|?]; [|by auto]. destruct (Hf Hx1); auto.
  - erewrite M_bind_Panic by exact E. intros [= _ <-] Hx. destruct (Hf Hx); auto.
Qed.

(** A worker that takes a message: its handler runs and the messages it sends
    are those of the handler, or the handler panics; a panic kills the worker. *)
Lemma handles_change p iter id idx msg p' :
  process_inv p -> process_step (Mac:=Mac) oc p (Handles iter id idx msg) p' ->
  exists r q e, workers p !! idx = Some (Running r) /\ sectors_txs p !! idx = Some (msg :: q) /\ event_of id msg = Some e /\
    identity p' = identity p /\ sectors_txs p' = <[idx := q]> (sectors_txs p) /\
    ((exists r' effs, handler oc iter e r = Ret (r', effs) /\ step oc r e r' effs /\
        (workers p' = <[idx := Running r']> (workers p) \/ workers p' = <[idx := Dead]> (workers p)) /\
        forall x, x ∈ rec_handed (client p') -> x ∈ rec_handed (client p) \/ x ∈ effs ≫= sent n) \/
     (exists why, handler oc iter e r = Panic why /\ workers p' = <[idx := Dead]> (workers p) /\ client p' = client p)).
Proof.
  intros Hinv Hstep.
  assert (exists r q o p1, workers p !! idx = Some (Running r) /\ sectors_txs p !! idx = Some (msg :: q) /\ iter_ok iter /\
    ar_worker_turn (Mac:=Mac) oc iter id idx r msg (p <| sectors_txs := <[idx := q]> (sectors_txs p) |>) = (o, p1) /\
    identity p' = identity p1 /\ sectors_txs p' = sectors_txs p1 /\ client p' = client p1 /\
    (workers p' = workers p1 /\ o = Ret tt \/ workers p' = <[idx := Dead]> (workers p1)))
    as (r & q & o & p1 & Hw & Hq & Hiter & Hrun & E1 & E2 & E3 & E4).
  { inversion Hstep; subst; eexists _, _, _, _; (split; [done|]); (split; [done|]); (split; [done|]); (split; [done|]); auto 10. }
  destruct (worker_turn_cases _ _ _ _ _ _ _ _ _ _ _ Hinv Hw Hq Hiter Hrun)
    as (e & He & [(r' & effs & Hh & Hst & Heffs)|(why & Hh & -> & ->)]).
  - exists r, q, e. split; [done|]. split; [done|]. split; [done|].
    pose proof (pi_worker _ _ _ _ _ _ _ Hinv idx r Hw) as Hwo.
    assert (identity p1 = identity p /\ sectors_txs p1 = <[idx := q]> (sectors_txs p) /\ workers p1 = <[idx := Running r']> (workers p))
      as (F1 & F2 & F3).
    { assert (exists gs, core p1 = core (p <| sectors_txs := <[idx := q]> (sectors_txs p) |> <| workers := <[idx := Running r']> (workers p) |>
        <| sectors_guards := gs |>)) as [gs Hcore].
      { destruct (worker_effects_core oc _ _ _ _ _ _ _ _ _ _ _ _ _ Hwo He Hst Heffs) as [[Hc _]|[(Hc & _)|[Hc _]]]; by eexists. }
      injection Hcore as G1 G2 _ _ _ G3 _ G4 _. unfold identity. by rewrite G1, G2. }
    split; [congruence|]. split; [congruence|]. left. exists r', effs. split; [done|]. split; [done|].
    split; [destruct E4 as [[-> _]| ->]; rewrite F3; [by left|right; by rewrite insert_insert_eq]|].
    intros x Hx. rewrite E3 in Hx. by destruct (perform_effects_handed _ _ _ _ _ Heffs Hx); auto.
  - exists r, q, e. split; [done|]. split; [done|]. split; [done|]. split; [done|]. split; [done|]. right. exists why.
    split; [done|]. destruct E4 as [[_ ?]| ->]; [done|]. done.
Qed.

(** A worker whose register completes a command: the response is on the
    connection, or the connection is broken and the worker has died of it. *)
Lemma completion_responds p iter id idx r s m p' r' cb op :
  process_inv p -> process_step (Mac:=Mac) oc p (Handles iter id idx (System s, m)) p' ->
  workers p !! idx = Some (Running r) -> system_command oc iter s r = Ret (r', [Complete cb op]) ->
  responded p p' cb op = true \/ (broken p' /\ workers p' !! idx = Some Dead).
Proof.
  intros Hinv Hstep Hw Hsys.
  assert (iter_ok iter /\ exists q o p1,
    ar_worker_turn (Mac:=Mac) oc iter id idx r (System s, m) (p <| sectors_txs := <[idx := q]> (sectors_txs p) |>) = (o, p1) /\
    connections p' = connections p1 /\ (o = Ret tt \/ workers p' !! idx = Some Dead)) as (Hiter & q & o & p1 & Hrun & Econn & Ho).
  { inversion Hstep; simplify_eq; (split; [done|]); eexists _, _, _; (split; [done|]); (split; [done|]); [by left|].
    right. apply lookup_insert_eq. }
  destruct (pi_worker _ _ _ _ _ _ _ Hinv idx r Hw) as [Hri _ _ _ Hcb].
  assert (step oc r (EvSystem s) r' [Complete cb op]) as Hst by by eapply step_system.
  destruct (system_step_callback _ _ _ _ _ Hri Hst) as [(F0 & _)|(cb1 & op1 & [= <- <-] & F1 & _)].
  { destruct (F0 cb op). apply list_elem_of_here. }
  destruct (Hcb cb F1) as (cmd & (Hc1 & _ & _ & [[rd d] Hc4]) & _).
  unfold conns in Hc4. rewrite lookup_fmap in Hc4. destruct (connections p !! cb_writer cb) as [conn|] eqn:Hconn; [|done].
  unfold ar_worker_turn in Hrun. rewrite Hsys, M_bind_lift, M_bind_modify in Hrun. simpl in Hrun.
  match type of Hrun with context [success_callback oc cb op ≫= ?k] =>
    match type of Hrun with _ ?p2 = _ =>
      destruct (success_callback_cases oc cb cmd op conn p2 Hc1 Hconn) as (response & Hresp & [E|(why & w' & E & Hfull & _)]) end end.
  - left. erewrite M_bind_Ret in Hrun by exact E. injection Hrun as <- <-.
    unfold responded. rewrite Hc1, get_rid_and_msg_type_client, Hconn, Econn. simpl. rewrite lookup_insert_eq.
    simpl in Hresp. rewrite Hresp. by apply bool_decide_true.
  - right. erewrite M_bind_Panic in Hrun by exact E. injection Hrun as <- <-. destruct Ho as [?|Ho]; [done|]. split; [|done].
    exists (cb_writer cb). eexists. rewrite Econn. simpl. rewrite lookup_insert_eq. by split; [reflexivity|].
Qed.

(** A worker that starts: nothing else changes. *)
Lemma begins_change p idx p' :
  process_inv p -> process_step (Mac:=Mac) oc p (Begins idx) p' ->
  workers p !! idx = Some Starting /\ identity p' = identity p /\ sectors_txs p' = sectors_txs p /\ client p' = client p /\
  exists w, w <> Starting /\ workers p' = <[idx := w]> (workers p).
Proof.
  intros Hinv Hstep.
  assert (workers p !! idx = Some Starting /\ exists o p1, ar_worker_start idx p = (o, p1) /\
    (o = Ret tt /\ p' = p1 \/ p' = kill_worker idx 0 p1 /\ exists why, o = Panic why)) as (Hw & o & p1 & Hrun & Hp').
  { inversion Hstep; subst; (split; [done|]); eexists _, _; (split; [done|]); [by left|right; eauto]. }
  split; [done|]. unfold ar_worker_start in Hrun. rewrite M_bind_get in Hrun.
  set (build := build_atomic_register _ _ _) in Hrun. destruct (on_storage build p) as [o1 p2] eqn:E.
  assert (p2 = p <| storage := storage p2 |>) as Ep2.
  { unfold on_storage in E. destruct (build (storage p)). by injection E as _ <-. }
  destruct o1 as [r|[]|why].
  - erewrite M_bind_Ret in Hrun by exact E. injection Hrun as <- <-. destruct Hp' as [[_ ->]|[_ [why Hno]]]; [|done].
    rewrite Ep2. unfold identity. simpl. split_and!; try done. by exists (Running r).
  - erewrite M_bind_Panic in Hrun by exact E. injection Hrun as <- <-. destruct Hp' as [[? _]|[-> _]]; [done|].
    rewrite Ep2. unfold identity. simpl. split_and!; try done. by exists Dead.
Qed.

(** ** Sectors do not mix *)

(** The messages that a handler sends are for the sector of the event. *)
Lemma step_sector r e r' effs idx m :
  step oc r e r' effs ->
  match e with EvClient _ cmd _ => c_sector_idx (c_header cmd) = idx | EvSystem s => sector_idx (header s) = idx end ->
  m ∈ effs ≫= sent n -> sector_idx (header m.2) = idx.
Proof.
  intros Hstep Hidx. assert (forall cmd, m ∈ (fun q => (q, cmd)) <$> seqZ 1 n -> m.2 = cmd) as Hb
    by by intros cmd (q & -> & _)%list_elem_of_fmap.
  destruct Hstep as [id [hd ct] cb s1 effs1 _ Hc|iter [h ct] s1 effs1 _ Hsys].
  - unfold client_command in Hc. simpl in *. destruct ct; injection Hc as <- <-; simpl; rewrite app_nil_r; by intros ->%Hb.
  - unfold system_command in Hsys. simpl in *. destruct ct as [|t w v|t w v|].
    + injection Hsys as <- <-. by intros ->%list_elem_of_singleton.
    + destruct (handle_value_cases _ _ _ _ _ _ _ _ _ Hsys); simpl; rewrite ?app_nil_r; [by intros ?%not_elem_of_nil..|by intros ->%Hb|by intros ->%Hb].
    + unfold handle_write_proc in Hsys. case_decide; injection Hsys as <- <-; by intros ->%list_elem_of_singleton.
    + destruct (handle_ack_cases _ _ _ _ Hsys); by intros ?%not_elem_of_nil.
Qed.

(** What clients see of a step is what the log of the cluster shows. *)
Lemma history_step r e r' effs i :
  step oc r e r' effs ->
  history_of (invocation i e ++ (effs ≫= logged r e)) =
    match e with EvClient id cmd _ => [Inv id (c_content cmd)] | EvSystem _ => answered r effs end.
Proof.
  intros Hstep. unfold history_of. rewrite omap_app.
  destruct Hstep as [id [hd ct] cb s1 effs1 _ Hc|iter [h ct] s1 effs1 _ Hsys].
  - unfold client_command in Hc. simpl in *. destruct ct; injection Hc as <- <-; simpl; unfold logged; by destruct (op_id r).
  - unfold system_command in Hsys. simpl in *. unfold answered. destruct ct as [|t w v|t w v|].
    + injection Hsys as <- <-. simpl. unfold logged. by destruct (op_id r).
    + destruct (handle_value_cases _ _ _ _ _ _ _ _ _ Hsys) as [| |op k mt rr v' Hop _ _ _ Hr _|op k mt rr v' ts' Hop _ _ _ Hr _ _ _];
        [done..| |]; simpl; unfold logged; by rewrite Hop, ?Hr.
    + unfold handle_write_proc in Hsys. case_decide; injection Hsys as <- <-; simpl; unfold logged; by destruct (op_id r).
    + destruct (handle_ack_cases _ _ _ _ Hsys) as [| |op cb rq Hop _ _ _ _ _ _|op cb rq Hop _ _ _ _ _ _ _|op s2 _ _ _ _ _ _];
        [done..| | |done]; simpl; unfold logged; by rewrite Hop.
Qed.

(** ** The registers of a sector *)

Section Sector.
Variable idx : SectorIdx.
Variable ok : state -> event -> effect Uuid (Callback Uuid) -> Prop.
Abbreviation cluster := (cluster (Uuid:=Uuid) (Callback:=Callback Uuid)).
Implicit Types (c : cluster).

(** Process [i] of the cluster has the register of the worker. *)
Definition worker_in c i (w : worker Uuid) : Prop :=
  match w with
  | Running r => registers c !! i = Some r
  | Starting => registers c !! i = Some (AtomicRegister.new i idx n 0 0 zero_sector)
  | Dead => True
  end.

(** The answer to the last operation of process [i] can be lost: its worker is
    dead and a connection of the process is broken. *)
Definition lost σ c (op : Uuid) : Prop :=
  exists i p r, procs σ !! i = Some p /\ workers p !! idx = Some Dead /\ broken p /\
    registers c !! i = Some r /\ op_id r = Some op.

Record simulates σ c : Prop := {
  sim_procs i p : procs σ !! i = Some p -> process_inv p /\ identity p = (i, n);
  sim_worker i p w : procs σ !! i = Some p -> workers p !! idx = Some w -> worker_in c i w;
  sim_handed i s : handed_over σ i s -> sector_idx (header s) = idx -> (i, s) ∈ network c;
  sim_queued i p s : procs σ !! i = Some p -> s ∈ queued p idx -> (i, s) ∈ network c;
  sim_drawn id q o : Invoked id q o ∈ log c -> id ∈ drawn σ;
  sim_seen : erases (lost σ c) (sector_history idx σ) (history_of (log c));
}.

Definition in_sector (l : list (SectorIdx * action Uuid)) : list (action Uuid) :=
  omap (fun x => if decide (x.1 = idx) then Some x.2 else None) l.

(** Process [i] has taken a turn and the cluster has gone from [c] to [c']. *)
Lemma simulates_turn σ c c' i p τ p' :
  simulates σ c -> procs σ !! i = Some p -> process_inv p' -> identity p' = identity p ->
  (forall w, workers p' !! idx = Some w -> worker_in c' i w) ->
  (forall j, j <> i -> registers c' !! j = registers c !! j) ->
  (forall x, x ∈ network c -> x ∈ network c') ->
  (forall x, x ∈ rec_handed (client p') -> x ∈ rec_handed (client p) \/ x ∈ network c' \/ sector_idx (header x.2) <> idx) ->
  (forall s, s ∈ queued p' idx -> (i, s) ∈ network c') ->
  (forall id q o, Invoked id q o ∈ log c' -> Invoked id q o ∈ log c \/ id ∈ draws τ) ->
  (workers p !! idx = Some Dead -> workers p' !! idx = Some Dead /\ registers c' !! i = registers c !! i) ->
  (broken p -> broken p') ->
  (exists l, history_of (log c') = history_of (log c) ++ l /\
     erases (lost {| procs := <[i := p']> (procs σ); drawn := drawn σ ++ draws τ; seen := seen σ ++ observed p τ p' |} c')
       (in_sector (observed p τ p')) l) ->
  simulates {| procs := <[i := p']> (procs σ); drawn := drawn σ ++ draws τ; seen := seen σ ++ observed p τ p' |} c'.
Proof.
  intros [S1 S2 S3 S4 S5 S6] Hp Hinv Hid Hw Hregs Hnet Hhanded Hqueued Hdrawn Hdead Hbroken (l & Hlog & Her). split; simpl.
  - intros j q [[<- <-]|[Hne Hq]]%lookup_insert_Some; [|by apply S1]. split; [done|]. rewrite Hid. by apply S1.
  - intros j q w [[<- <-]|[Hne Hq]]%lookup_insert_Some; [by apply Hw|]. intros Hqw.
    specialize (S2 j q w Hq Hqw). unfold worker_in in *. by rewrite Hregs.
  - intros j s (k & q & Hq & Hs) Hidx. simpl in Hq. apply lookup_insert_Some in Hq as [[<- <-]|[Hne Hq]].
    + destruct (Hhanded _ Hs) as [Hold|[?|?]]; [|done|done]. apply Hnet, S3; [|done]. by exists i, p.
    + apply Hnet, S3; [|done]. by exists k, q.
  - intros j q s [[<- <-]|[Hne Hq]]%lookup_insert_Some; [by apply Hqueued|]. intros Hs. apply Hnet. by eapply S4.
  - intros id q o [Hin|Hin]%Hdrawn; apply elem_of_app; [left; by eapply S5|by right].
  - unfold sector_history. simpl. rewrite omap_app, Hlog. apply erases_app; [|exact Her].
    eapply erases_weaken; [|exact S6]. intros op (j & q & r & Hq & Hd & Hb & Hr & Hop).
    destruct (decide (i = j)) as [<-|Hne].
    + simplify_eq. destruct (Hdead Hd) as [Hd' Hr']. exists i, p', r. simpl. rewrite lookup_insert_eq, Hr'. auto 10.
    + exists j, q, r. simpl. rewrite lookup_insert_ne, Hregs by done. done.
Qed.

(** A turn that the cluster does not notice. *)
Lemma simulates_stutter σ c i p τ p' :
  simulates σ c -> procs σ !! i = Some p -> process_inv p' -> identity p' = identity p ->
  (forall w, workers p' !! idx = Some w -> worker_in c i w) ->
  (forall x, x ∈ rec_handed (client p') -> x ∈ rec_handed (client p) \/ sector_idx (header x.2) <> idx) ->
  (forall s, s ∈ queued p' idx -> (i, s) ∈ network c) ->
  (workers p !! idx = Some Dead -> workers p' !! idx = Some Dead) -> (broken p -> broken p') ->
  in_sector (observed p τ p') = [] ->
  simulates {| procs := <[i := p']> (procs σ); drawn := drawn σ ++ draws τ; seen := seen σ ++ observed p τ p' |} c.
Proof.
  intros Hsim Hp Hinv Hid Hw Hhanded Hqueued Hdead Hbroken Hobs. eapply simulates_turn; try done; [naive_solver|auto|auto|].
  exists []. rewrite app_nil_r, Hobs. split; [done|constructor].
Qed.

(** The sector of the messages in a channel. *)
Lemma queued_sector p s : process_inv p -> s ∈ queued p idx -> sector_idx (header s) = idx.
Proof.
  intros Hinv. unfold queued. destruct (sectors_txs p !! idx) as [q|] eqn:Hq; simpl; [|by intros ?%not_elem_of_nil].
  intros ([m cb] & Hm & Hs)%list_elem_of_omap. pose proof (pi_queue _ _ _ _ _ _ _ Hinv idx q Hq) as Hall.
  rewrite list.Forall_forall in Hall. specialize (Hall _ Hm). simpl in Hs. destruct m as [cmd|s']; [done|].
  injection Hs as ->. by destruct cb.
Qed.

Lemma quiet_simulates σ c i p τ p' :
  simulates σ c -> procs σ !! i = Some p -> process_step (Mac:=Mac) oc p τ p' -> admissible ok σ i p τ p' ->
  match τ with Begins _ | Handles _ _ _ _ => False | _ => True end ->
  simulates {| procs := <[i := p']> (procs σ); drawn := drawn σ ++ draws τ; seen := seen σ ++ observed p τ p' |} c.
Proof.
  intros Hsim Hp Hstep Hadm Hτ. destruct (sim_procs _ _ Hsim i p Hp) as [Hinv Hid].
  assert (process_inv p') as Hinv' by by eapply process_step_inv.
  destruct (quiet_step _ _ _ Hstep Hτ) as [E1 E2 E3 E4 Hq].
  apply (simulates_stutter σ c i p); [done..|by unfold identity; rewrite E1, E2| | | |by rewrite E3|by eapply broken_step|].
  - intros w. rewrite E3. by eapply sim_worker.
  - intros x. rewrite E4. by left.
  - intros s Hs. destruct (Hq idx s Hs) as [Hold|Htaken]; [by eapply sim_queued|].
    apply (sim_handed _ _ Hsim); [|by eapply queued_sector].
    destruct τ; simpl in Htaken, Hadm; try done; [|by subst]. destruct Htaken as (conn & rd & Hc & Hd). by eapply Hadm.
  - by destruct τ.
Qed.

Lemma begins_simulates σ c i p idx' p' :
  simulates σ c -> procs σ !! i = Some p -> process_step (Mac:=Mac) oc p (Begins idx') p' -> admissible ok σ i p (Begins idx') p' ->
  simulates {| procs := <[i := p']> (procs σ); drawn := drawn σ ++ []; seen := seen σ ++ [] |} c.
Proof.
  intros Hsim Hp Hstep Hadm. destruct (sim_procs _ _ Hsim i p Hp) as [Hinv Hid].
  assert (process_inv p') as Hinv' by by eapply process_step_inv.
  destruct (begins_change _ _ _ Hinv Hstep) as (Hw & E1 & E2 & E3 & w & Hne & E4).
  apply (simulates_stutter σ c i p (Begins idx')); [done..| | | | |by eapply broken_step|done].
  - intros w'. rewrite E4. intros [[-> ->]|[_ Hw']]%lookup_insert_Some; [|by eapply sim_worker].
    destruct w' as [|r|]; [done| |done]. simpl. rewrite (Hadm r) by (rewrite E4; apply lookup_insert_eq).
    exact (sim_worker _ _ Hsim i p Starting Hp Hw).
  - intros x. rewrite E3. by left.
  - intros s. unfold queued. rewrite E2. by eapply sim_queued.
  - intros Hdead. rewrite E4, lookup_insert_ne; [done|]. intros ->. congruence.
Qed.

(** The sector of the event that a message stands for. *)
Lemma event_sector cs idx' (id : Uuid) msg (e : event) :
  message_ok cs idx' msg -> event_of id msg = Some e ->
  match e with EvClient _ cmd _ => c_sector_idx (c_header cmd) = idx' | EvSystem s => sector_idx (header s) = idx' end.
Proof. destruct msg as [[cmd|s] [cb|]]; simpl; try done; intros Hok [= <-]; [apply Hok|done]. Qed.

Lemma queued_tail p p' msg q s :
  sectors_txs p !! idx = Some (msg :: q) -> sectors_txs p' = <[idx := q]> (sectors_txs p) -> s ∈ queued p' idx -> s ∈ queued p idx.
Proof.
  intros Hq E. unfold queued. rewrite E, lookup_insert_eq, Hq. simpl. destruct msg as [[cmd|s'] cb]; simpl; [done|].
  intros Hs. apply elem_of_cons. by right.
Qed.

Lemma observed_other p iter id idx' msg p' : idx' <> idx -> in_sector (observed p (Handles iter id idx' msg) p') = [].
Proof.
  intros Hne. unfold in_sector, observed. destruct msg as [[cmd|s] cb]; simpl; [by rewrite decide_False|].
  destruct (workers p !! idx') as [[|r|]|]; try done. destruct (system_command oc iter s r) as [[r1 effs]| |]; try done.
  induction (responses p p' r effs) as [|a l IH]; [done|]. simpl. by rewrite decide_False.
Qed.

Lemma in_sector_same (l : list (action Uuid)) : in_sector ((fun a => (idx, a)) <$> l) = l.
Proof. unfold in_sector. induction l as [|a l IH]; [done|]. simpl. rewrite decide_True by done. f_equal. exact IH. Qed.

Lemma no_completion_answers p p' r effs : no_completion effs -> answered r effs = [] /\ responses p p' r effs = [].
Proof.
  intros Hno. unfold answered, responses.
  split; apply elem_of_nil_inv; intros x ([] & Hx & Hin)%list_elem_of_bind; try (by apply not_elem_of_nil in Hx);
    by destruct (Hno _ _ Hin).
Qed.

(** A worker of another sector takes a message. *)
Lemma handles_elsewhere σ c i p iter id idx' msg p' :
  simulates σ c -> procs σ !! i = Some p -> process_step (Mac:=Mac) oc p (Handles iter id idx' msg) p' -> idx' <> idx ->
  let τ := Handles iter id idx' msg in
  simulates {| procs := <[i := p']> (procs σ); drawn := drawn σ ++ draws τ; seen := seen σ ++ observed p τ p' |} c.
Proof.
  intros Hsim Hp Hstep Hne τ. destruct (sim_procs _ _ Hsim i p Hp) as [Hinv Hid].
  assert (process_inv p') as Hinv' by by eapply process_step_inv.
  destruct (handles_change _ _ _ _ _ _ Hinv Hstep) as (r & q & e & Hw & Hq & He & E1 & E2 & Hcase).
  pose proof (pi_queue _ _ _ _ _ _ _ Hinv idx' _ Hq) as Hmsg. apply list.Forall_cons in Hmsg as [Hmsg _].
  apply (simulates_stutter σ c i p τ); [done..| | | | |by eapply broken_step|by apply observed_other].
  - intros w Hw'. eapply sim_worker; [done..|]. destruct Hcase as [(r' & effs & _ & _ & [E|E] & _)|(why & _ & E & _)];
      rewrite E, lookup_insert_ne in Hw' by done; exact Hw'.
  - intros x Hx. destruct Hcase as [(r' & effs & _ & Hst & _ & Hsent)|(why & _ & _ & E)]; [|rewrite E in Hx; by left].
    destruct (Hsent x Hx) as [?|Hin]; [by left|right].
    by rewrite (step_sector _ _ _ _ idx' x Hst (event_sector _ _ _ _ _ Hmsg He) Hin).
  - intros s. unfold queued. rewrite E2, lookup_insert_ne by done. by eapply sim_queued.
  - intros Hdead. destruct Hcase as [(r' & effs & _ & _ & [E|E] & _)|(why & _ & E & _)]; by rewrite E, lookup_insert_ne.
Qed.

(** The answers that a turn gives are those of the register, unless they are
    lost. *)
Lemma responses_erased σ' i p iter id s m p' r r' effs c' :
  process_inv p -> process_step (Mac:=Mac) oc p (Handles iter id idx (System s, m)) p' -> workers p !! idx = Some (Running r) ->
  system_command oc iter s r = Ret (r', effs) -> step oc r (EvSystem s) r' effs ->
  procs σ' !! i = Some p' -> registers c' !! i = Some r' ->
  erases (lost σ' c') (responses p p' r effs) (answered r effs).
Proof.
  intros Hinv Hstep Hw Hsys Hst Hp' Hr'. destruct (pi_worker _ _ _ _ _ _ _ Hinv idx r Hw) as [Hri _ _ _ _].
  destruct (system_step_callback _ _ _ _ _ Hri Hst) as [(F0 & _)|(cb & op & -> & _)].
  { destruct (no_completion_answers p p' r effs F0) as [-> ->]. constructor. }
  unfold responses, answered. simpl. destruct (op_id r) as [id'|] eqn:Hop; [|constructor]. rewrite !app_nil_r.
  destruct (completion_responds _ _ _ _ _ _ _ _ _ _ _ Hinv Hstep Hw Hsys) as [->|[Hb Hd]]; [apply erases_refl|].
  destruct (responded p p' cb op); [apply erases_refl|]. apply erases_drop; [|constructor].
  destruct (complete_by_ack _ _ _ _ _ cb op Hst (list_elem_of_here _ _)) as (h & op' & _ & Hop1 & Hop2 & _).
  exists i, p', r'. split_and!; try done. congruence.
Qed.

(** A worker of this sector takes a message: the register takes a step. *)
Lemma handles_simulates σ c i p iter id msg p' :
  simulates σ c -> procs σ !! i = Some p -> process_step (Mac:=Mac) oc p (Handles iter id idx msg) p' ->
  admissible ok σ i p (Handles iter id idx msg) p' ->
  let τ := Handles iter id idx msg in
  exists c', rtc (cluster_step oc n idx ok) c c' /\
    simulates {| procs := <[i := p']> (procs σ); drawn := drawn σ ++ draws τ; seen := seen σ ++ observed p τ p' |} c'.
Proof.
  intros Hsim Hp Hstep [Hfresh Hok] τ. destruct (sim_procs _ _ Hsim i p Hp) as [Hinv Hid].
  assert (process_inv p') as Hinv' by by eapply process_step_inv.
  destruct (handles_change _ _ _ _ _ _ Hinv Hstep) as (r & q & e & Hw & Hq & He & E1 & E2 & Hcase).
  pose proof (pi_queue _ _ _ _ _ _ _ Hinv idx _ Hq) as Hmsg. apply list.Forall_cons in Hmsg as [Hmsg _].
  assert (forall s, s ∈ queued p' idx -> (i, s) ∈ network c) as Hqueued.
  { intros s Hs. eapply sim_queued; [done..|]. by eapply queued_tail. }
  destruct Hcase as [(r' & effs & Hh & Hst & E3 & Hsent)|(why & Hh & E3 & E4)]; cycle 1.
  { exists c. split; [apply rtc_refl|]. apply (simulates_stutter σ c i p τ); [done..| | |done|by rewrite Hw|by eapply broken_step|].
    - intros w. rewrite E3, lookup_insert_eq. by intros [= <-].
    - intros x. rewrite E4. by left.
    - unfold τ, observed. destruct msg as [[cmd|s] [cb|]]; simpl in He; try done; injection He as <-; [done|].
      rewrite Hw. simpl in Hh. by rewrite Hh. }
  exists (effects_on n idx i r e effs r' c). split.
  - apply rtc_once, cs_handle; [exact (sim_worker _ _ Hsim i p _ Hp Hw)| |done|by eapply Hok].
    destruct msg as [[cmd|s] [cb|]]; simpl in He; try done; injection He as <-; simpl.
    + split; [apply Hmsg|]. intros j o Hin. eapply (Hfresh cmd); [done|]. by eapply sim_drawn.
    + eapply sim_queued; [done..|]. unfold queued. rewrite Hq. by left.
  - eapply (simulates_turn σ c _ i p τ); [done..| | | | | | |by rewrite Hw|by eapply broken_step|].
    + intros w Hw'. destruct E3 as [E3|E3]; rewrite E3, lookup_insert_eq in Hw'; injection Hw' as <-; [|done].
      simpl. apply lookup_insert_eq.
    + intros j Hne. simpl. by rewrite lookup_insert_ne.
    + intros x Hx. simpl. apply elem_of_app. by left.
    + intros x Hx. destruct (Hsent x Hx) as [?|Hin]; [by left|]. right. left. simpl. apply elem_of_app. by right.
    + intros s Hs. simpl. apply elem_of_app. left. by apply Hqueued.
    + intros id' j o. simpl. rewrite !elem_of_app. intros [?|[Hin|Hin]]; [by left| |].
      * right. unfold τ. destruct msg as [[cmd|s] [cb|]]; simpl in He; try done; injection He as <-; simpl in Hin; [|by apply not_elem_of_nil in Hin].
        apply list_elem_of_singleton in Hin as [= -> _ _]. by left.
      * apply list_elem_of_bind in Hin as (f & Hf & _). exfalso. unfold logged in Hf. repeat case_match; set_solver.
    + eexists. split; [simpl; unfold history_of; by rewrite omap_app|]. fold (history_of (invocation i e ++ (effs ≫= logged r e))).
      rewrite (history_step _ _ _ _ i Hst). unfold τ, observed.
      destruct msg as [[cmd|s] [cb|]]; simpl in He; try done; injection He as <-.
      * unfold in_sector. simpl. rewrite decide_True by done. apply erases_refl.
      * rewrite Hw. simpl in Hh. rewrite Hh, in_sector_same.
        eapply responses_erased; [done..|simpl; apply lookup_insert_eq|simpl; apply lookup_insert_eq].
Qed.

Lemma start_proc i p :
  procs system_start !! i = Some p ->
  1 <= i <= n /\ p = RegisterProcess.new i sk ck n n_sectors {| rec_client := links i; rec_handed := [] |} (files i).
Proof.
  simpl. intros H'%elem_of_list_to_map_2. apply list_elem_of_fmap in H' as (j & [= -> ->] & Hj).
  apply elem_of_seqZ in Hj. split; [lia|done].
Qed.

Lemma start_register_of i : 1 <= i <= n -> registers (start (Callback:=Callback Uuid) n idx : cluster) !! i =
  Some (AtomicRegister.new i idx n 0 0 zero_sector).
Proof.
  intros Hi. simpl. apply elem_of_list_to_map_1.
  - rewrite <- list_fmap_compose. simpl. rewrite list_fmap_id. apply NoDup_seqZ.
  - apply list_elem_of_fmap. exists i. split; [done|]. apply elem_of_seqZ. lia.
Qed.

Lemma start_simulates : 0 <= n -> simulates system_start (start n idx).
Proof.
  intros Hn. split.
  - intros i p [_ ->]%start_proc. split; [by apply new_process_inv|done].
  - intros i p w [Hi ->]%start_proc Hw. simpl in Hw. apply lookup_range in Hw as [_ <-]. by apply start_register_of.
  - intros i s (j & p & [_ ->]%start_proc & Hs). by apply not_elem_of_nil in Hs.
  - intros i p s [_ ->]%start_proc. unfold queued. simpl. destruct (list_to_map _ !! idx) as [q|] eqn:Hq; simpl.
    + apply lookup_range in Hq as [_ <-]. by intros ?%not_elem_of_nil.
    + by intros ?%not_elem_of_nil.
  - intros id q o Hin. by apply not_elem_of_nil in Hin.
  - constructor.
Qed.

Lemma reaches_simulated σ :
  0 <= n -> system_reaches ok σ ->
  exists c, cluster_reaches oc n idx ok c /\ simulates σ c.
Proof.
  intros Hn. revert σ. apply rtc_ind_r; [exists (start n idx); split; [apply rtc_refl|by apply start_simulates]|].
  intros σ σ' _ [i p τ p' Hp Hstep Hadm] (c & Hc & Hsim).
  assert (exists c', rtc (cluster_step oc n idx ok) c c' /\
    simulates {| procs := <[i := p']> (procs σ); drawn := drawn σ ++ draws τ; seen := seen σ ++ observed p τ p' |} c') as (c' & Hcc' & Hsim').
  { destruct τ as [k|k|k|idx'|iter id idx' msg|s].
    4: { exists c. split; [apply rtc_refl|]. by eapply begins_simulates. }
    4: { destruct (decide (idx' = idx)) as [->|Hne]; [by eapply handles_simulates|].
         exists c. split; [apply rtc_refl|]. by eapply handles_elsewhere. }
    all: exists c; (split; [apply rtc_refl|]); by eapply quiet_simulates. }
  exists c'. split; [|exact Hsim']. unfold cluster_reaches in *. by etrans.
Qed.

End Sector.

(** C3: The complete processes refine the cluster of registers, sector by
    sector: for every run of all tasks of all processes there is a run of the
    registers of the sector in which the running workers have the same
    registers, and clients see the same operations and answers; an answer counts
    as seen when its response is on the connection that the command came from.
    At most the answer to the last operation of a process can be missing, and
    only if the worker of the sector there is dead and a connection of that
    process is broken; so nothing is missing while connections hold. *)
Theorem system_refines_cluster ok σ idx :
  0 <= n -> system_reaches ok σ ->
  exists c, cluster_reaches oc n idx ok c /\
    erases (lost idx σ c) (sector_history idx σ) (history_of (log c)) /\
    ((forall i p, procs σ !! i = Some p -> ~ broken p) -> sector_history idx σ = history_of (log c)) /\
    forall i p r, procs σ !! i = Some p -> workers p !! idx = Some (Running r) -> registers c !! i = Some r.
Proof.
  intros Hn Hσ. destruct (reaches_simulated idx ok σ Hn Hσ) as (c & Hc & Hsim). exists c. split; [done|].
  split; [apply Hsim|]. split.
  - intros Hhold. eapply erases_none; [|apply Hsim]. intros op (i & p & r & Hp & _ & Hb & _). by eapply Hhold.
  - intros i p r Hp Hw. exact (sim_worker _ _ _ Hsim i p _ Hp Hw).
Qed.

(** C1: What clients see of a sector of the complete system is linearizable,
    for any number of processes and any interleaving of their tasks, whenever
    decisions pick the highest value. *)
Theorem system_linearizable σ idx :
  0 <= n -> system_reaches picks_highest σ -> linearizable (sector_history idx σ).
Proof.
  intros Hn Hσ. destruct (reaches_simulated idx _ σ Hn Hσ) as (c & Hc & Hsim).
  eapply erases_linearizable; [apply Hsim|]. by eapply reaches_linearizable.
Qed.

End System.

(** C15: A process alone is a linearizable disk as the code stands, in a build
    with overflow checks: every sector, under any interleaving of its tasks. *)
Theorem lone_process_linearizable {Uuid Mac St Cl : Type} `{!EqDecision Uuid} `{UuidLaws Uuid, HmacLaws Mac} `{SectorsManager St}
    `{!RegisterClient Uuid Cl} sk ck n_sectors (links : Z -> Cl) (files : Z -> St) (σ : system (Uuid:=Uuid)) idx :
  system_reaches (Mac:=Mac) true 1 sk ck n_sectors links files any_call σ -> linearizable (sector_history idx σ).
Proof.
  intros Hσ. destruct (reaches_simulated true 1 sk ck n_sectors links files idx any_call σ ltac:(lia) Hσ) as (c & Hc & Hsim).
  eapply erases_linearizable; [apply Hsim|]. by eapply reaches_linearizable, alone_reaches.
Qed.

(** ** The theorems on a concrete system

    One process, whose client reads sector 0. *)

Module WholeSystemExamples.
Import ProcessFactsExamples.

Abbreviation process1 := (Process Toy.Uuid RamDrive.t (recorded Toy.Uuid (BufferClient.t Toy.Uuid))).
Abbreviation system1 := (system (Uuid:=Toy.Uuid) (St:=RamDrive.t) (Cl:=BufferClient.t Toy.Uuid)).
#[local] Instance client1 : RegisterClient Toy.Uuid (recorded Toy.Uuid (BufferClient.t Toy.Uuid)) := recorded_client 1.

Definition no_links (i : Z) : BufferClient.t Toy.Uuid := {| BufferClient.bc_processes_count := 1; BufferClient.buffer := [] |}.
Definition no_files (i : Z) : RamDrive.t := ∅.

Definition begin1 : system1 := system_start 1 sk ck 2 no_links no_files.

Abbreviation turn1 := (@turn Toy.Uuid).

Definition done1 (τ : turn1) (r : outcome Empty_set unit * process1) : option (turn1 * process1) :=
  match r with (Ret _, p) => Some (τ, p) | _ => None end.

Section Play.
Variable ok : AtomicRegisterState Toy.Uuid (Callback Toy.Uuid) -> @event Toy.Uuid (Callback Toy.Uuid) ->
  effect Toy.Uuid (Callback Toy.Uuid) -> Prop.
Context `{!forall r e f, Decision (ok r e f)}.

Definition fresh_for (σ : system1) (msg : sector_message Toy.Uuid) : bool :=
  match msg with (Client _, _) => bool_decide (id9 ∉ drawn σ) | _ => true end.

(** A turn of process 1, if it is possible and admissible. *)
Definition take_turn (a : action) (σ : system1) (p : process1) : option (turn1 * process1) :=
  match a with
  | AAccept c input =>
      match connections p !! c with
      | None => done1 (Accepts c) (accept_connection c (Some (healthy, {| pending := input; at_end := eof |})) p)
      | Some _ => None
      end
  | AConnection c =>
      match connections p !! c with
      | Some {| reader := rd; doing := Reading |} =>
          match (deserialize_register_command (Uuid:=Toy.Uuid) (Mac:=Toy.Mac) rd (rp_hmac_system_key p) (rp_hmac_client_key p)).1 with
          | Ret (Client _, _) => done1 (Reads c) (connection_turn (Mac:=Toy.Mac) true c p)
          | _ => None
          end
      | _ => None
      end
  | AAcquire c =>
      match connections p !! c with
      | Some {| doing := Acquiring (Client cmd) |} =>
          match sectors_guards p !! c_sector_idx (c_header cmd) with
          | Some (S _) => done1 (Acquires c) (connection_acquired c (Client cmd) (c_sector_idx (c_header cmd)) p)
          | _ => None
          end
      | _ => None
      end
  | AStart idx =>
      match workers p !! idx, storage p !! idx with
      | Some Starting, None => if decide (rp_self_ident p = 1 /\ rp_processes_count p = 1) then done1 (Begins idx) (ar_worker_start idx p) else None
      | _, _ => None
      end
  | AWorker idx =>
      match workers p !! idx, sectors_txs p !! idx with
      | Some (Running r), Some (msg :: q) =>
          match event_of id9 msg with
          | Some e =>
              match handler true map_to_list e r with
              | Ret (_, effs) =>
                  if decide (Forall (ok r e) effs /\ fresh_for σ msg = true) then
                    done1 (Handles map_to_list id9 idx msg)
                      (ar_worker_turn (Mac:=Toy.Mac) true map_to_list id9 idx r msg (p <| sectors_txs := <[idx := q]> (sectors_txs p) |>))
                  else None
              | _ => None
              end
          | None => None
          end
      | _, _ => None
      end
  | ASelf msg => if decide ((1, msg) ∈ rec_handed (client p)) then done1 (Forwards msg) (handle_self_messages msg p) else None
  end.
Definition play1 (a : action) (σ : system1) : option system1 :=
  p ← procs σ !! 1;
  '(τ, p') ← take_turn a σ p;
  Some {| procs := <[1 := p']> (procs σ); drawn := drawn σ ++ draws τ; seen := seen σ ++ observed (Mac:=Toy.Mac) true p τ p' |}.

Lemma done1_Some τ r τ' p : done1 τ r = Some (τ', p) -> τ' = τ /\ r = (Ret tt, p).
Proof. destruct r as [[[]| |] p']; simpl; [|done..]. by intros [= <- <-]. Qed.

Lemma take_turn_ok a σ p τ p' :
  procs σ !! 1 = Some p -> take_turn a σ p = Some (τ, p') ->
  process_step (Mac:=Toy.Mac) true p τ p' /\ admissible (Mac:=Toy.Mac) true 1 ok σ 1 p τ p'.
Proof.
  intros Hp. destruct a as [c input|c|c|idx|idx|msg]; simpl.
  - destruct (connections p !! c) eqn:E; [done|]. intros [= <- <-].
    split; [by eapply (ps_accept true p c (Some (healthy, {| pending := input; at_end := eof |})))|done].
  - destruct (connections p !! c) as [conn|] eqn:E; [|done]. destruct conn as [rd wr [|cmd|]]; [|done..].
    destruct (deserialize_register_command rd _ _) as [[[[cmd|s] hok]| |] rd'] eqn:Hd; try done. simpl.
    intros [-> Hrun]%done1_Some. split; [by eapply ps_connection|]. simpl. intros conn s rd1 Hc Hd'. simplify_eq. simpl in Hd'. congruence.
  - destruct (connections p !! c) as [conn|] eqn:E; [|done]. destruct conn as [rd wr [|[cmd|s]|]]; [done| |done..].
    destruct (sectors_guards p !! _) as [[|k]|] eqn:Eg; [done| |done].
    intros [-> Hrun]%done1_Some. split; [by eapply ps_acquire|done].
  - destruct (workers p !! idx) as [[| |]|] eqn:E; [|done..]. destruct (storage p !! idx) eqn:Es; [done|].
    case_decide as Hid; [|done]. destruct Hid as [Hself Hn].
    intros [-> Hrun]%done1_Some. split; [by eapply ps_worker_start|]. simpl. intros r Hr.
    unfold ar_worker_start, on_storage, build_atomic_register in Hrun. simpl in Hrun.
    unfold RamDrive.read_metadata, RamDrive.read_data, mbind, M_bind, get, mret, M_ret, modify in Hrun. rewrite Es in Hrun.
    injection Hrun as <-. simpl in Hr. rewrite lookup_insert_eq, Hself, Hn in Hr. injection Hr as Hr. by rewrite <- Hr, Es.
  - destruct (workers p !! idx) as [[|r|]|] eqn:E; [done| |done..].
    destruct (sectors_txs p !! idx) as [[|msg q]|] eqn:Eq; [done| |done].
    destruct (event_of id9 msg) as [e|] eqn:He; [|done].
    destruct (handler true map_to_list e r) as [[r' effs]| |] eqn:Hh; [|done..]. case_decide as Hd; [|done]. destruct Hd as [Hok Hfresh].
    intros [-> Hrun]%done1_Some. split; [by eapply ps_worker; [..|apply map_order|]|]. simpl. split.
    + intros cmd cb ->. by apply bool_decide_eq_true in Hfresh.
    + intros r1 e1 r2 effs1 Hr1 He1 Hh1. rewrite E in Hr1. injection Hr1 as <-. rewrite He in He1. injection He1 as <-.
      rewrite Hh in Hh1. by injection Hh1 as _ <-.
  - case_decide as Hin; [|done]. intros [-> Hrun]%done1_Some. split; [by eapply ps_self|]. simpl. by exists 1, p.
Qed.

Lemma play1_reaches l σ0 σ :
  foldl (fun o a => o ≫= play1 a) (Some σ0) l = Some σ -> rtc (system_step (Mac:=Toy.Mac) true 1 ok) σ0 σ.
Proof.
  revert σ0. induction l as [|a l IH]; intros σ0; simpl; [intros [= <-]; apply rtc_refl|].
  unfold play1 at 2. destruct (procs σ0 !! 1) as [p|] eqn:Hp; simpl; [|intros Hl; exfalso; clear -Hl; by induction l].
  destruct (take_turn a σ0 p) as [[τ p']|] eqn:Ht; simpl; [|intros Hl; exfalso; clear -Hl; by induction l].
  intros Hl. destruct (take_turn_ok a σ0 p τ p' Hp Ht) as [Hstep Hadm].
  eapply rtc_l; [by apply (system_turn true 1 ok σ0 1 p τ p')|]. by apply IH.
Qed.

End Play.

(** The whole read: from the command to the answer. *)
Definition whole_read : list action := until_ack ++ [AWorker 0].

#[local] Instance action_eq_dec : EqDecision (Linearizability.action Toy.Uuid).
Proof. solve_decision. Defined.

(** No connection is going to break. *)
Definition sound (σ : system1) : bool :=
  forallb (fun x => forallb (fun y => match fault (writer y.2) with None => true | Some _ => false end) (map_to_list (connections x.2)))
    (map_to_list (procs σ)).

Lemma sound_unbroken σ : sound σ = true -> forall i p, procs σ !! i = Some p -> ~ broken p.
Proof.
  intros Hs i p Hp (c & conn & Hc & e & He). unfold sound in Hs. rewrite forallb_forall in Hs.
  specialize (Hs (i, p)). rewrite <- list_elem_of_In, elem_of_map_to_list in Hs. specialize (Hs Hp).
  rewrite forallb_forall in Hs. specialize (Hs (c, conn)). rewrite <- list_elem_of_In, elem_of_map_to_list in Hs.
  specialize (Hs Hc). simpl in Hs. by rewrite He in Hs.
Qed.

Definition read_checked : bool :=
  match foldl (fun o a => o ≫= play1 picks_highest a) (Some begin1) whole_read with
  | Some σ => bool_decide (sector_history 0 σ = [Inv id9 Read; Res id9 (ReadReturn zero_sector)]) && sound σ
  | None => false
  end.

Lemma read_plays : exists σ, foldl (fun o a => o ≫= play1 picks_highest a) (Some begin1) whole_read = Some σ /\
  sector_history 0 σ = [Inv id9 Read; Res id9 (ReadReturn zero_sector)] /\ sound σ = true.
Proof.
  assert (read_checked = true) as Hcheck by (vm_compute; reflexivity). unfold read_checked in Hcheck.
  destruct (foldl _ (Some begin1) whole_read) as [σ|] eqn:E; [|done]. apply andb_true_iff in Hcheck as [Hseen Hsound].
  exists σ. split; [done|]. split; [by apply bool_decide_eq_true in Hseen|done].
Qed.

Lemma read_reaches : exists σ, system_reaches (Mac:=Toy.Mac) true 1 sk ck 2 no_links no_files picks_highest σ /\
  sector_history 0 σ = [Inv id9 Read; Res id9 (ReadReturn zero_sector)] /\ sound σ = true.
Proof. destruct read_plays as (σ & Hplay & Hseen). exists σ. split; [exact (play1_reaches _ _ _ _ Hplay)|exact Hseen]. Qed.

Lemma system_refines_cluster_witness :
  exists c : Cluster.cluster (Uuid:=Toy.Uuid) (Callback:=Callback Toy.Uuid), cluster_reaches true 1 0 picks_highest c /\
    history_of (log c) = [Inv id9 Read; Res id9 (ReadReturn zero_sector)].
Proof.
  destruct read_reaches as (σ & Hσ & Hseen & Hsound).
  destruct (system_refines_cluster (Mac:=Toy.Mac) true 1 sk ck 2 no_links no_files picks_highest σ 0 ltac:(lia) Hσ)
    as (c & Hc & _ & Hsame & _).
  exists c. split; [exact Hc|]. rewrite <- Hseen. symmetry. exact (Hsame (sound_unbroken σ Hsound)).
Defined.

Lemma system_linearizable_witness :
  exists σ : system1, sector_history 0 σ = [Inv id9 Read; Res id9 (ReadReturn zero_sector)] /\ linearizable (sector_history 0 σ).
Proof.
  destruct read_reaches as (σ & Hσ & Hseen & _). exists σ. split; [exact Hseen|].
  apply (system_linearizable (Mac:=Toy.Mac) true 1 sk ck 2 no_links no_files σ 0); [lia|exact Hσ].
Defined.

Lemma any_reaches : exists σ, system_reaches (Mac:=Toy.Mac) true 1 sk ck 2 no_links no_files any_call σ /\
  sector_history 0 σ = [Inv id9 Read; Res id9 (ReadReturn zero_sector)].
Proof.
  destruct read_reaches as (σ & Hσ & Hseen & _). exists σ. split; [|exact Hseen].
  eapply rtc_subrel; [|exact Hσ]. intros σ1 σ2 [i p τ p' Hp Hstep Hadm]. apply system_turn; [done..|].
  destruct τ; try done. destruct Hadm as [Hfresh _]. split; [done|]. intros. apply list.Forall_forall. by intros f _.
Qed.

Lemma lone_process_linearizable_witness :
  exists σ : system1, sector_history 0 σ = [Inv id9 Read; Res id9 (ReadReturn zero_sector)] /\ linearizable (sector_history 0 σ).
Proof.
  destruct any_reaches as (σ & Hσ & Hseen). exists σ. split; [exact Hseen|].
  exact (lone_process_linearizable (Mac:=Toy.Mac) sk ck 2 no_links no_files σ 0 Hσ).
Defined.

End WholeSystemExamples.
