(* ===== verification/Startup.v ===== *)
(** * Starting a process: [run_register_process] of [solution/src/lib.rs]

    The start of a process up to the point where its tasks run: it looks up its
    own address and listens on it, connects to the other processes, recovers
    the sectors of its storage directory and spawns a worker per sector. *)

From S2P Require Import Prelude Domain Crates Transfer FileSystem SectorsManager AtomicRegister RegisterFacts Storage.
From S2P Require Import RegisterClient RegisterProcess ProcessFacts.

Section Startup.
Context {Uuid D : Type} `{!EqDecision Uuid} `{FileSystemLaws D}.
Abbreviation process := (Process Uuid (SectorsManagerState D) (linked_client Uuid)).
Variable oc : bool.

(** [TcpListener::bind(addr)] succeeds; [TcpStream::connect(addr)]. *)
Variable bind : string * Z -> bool.
Variable connect : string * Z -> option TcpStream.

(** The channels and tasks of the process, and its storage directory. *)
Record machine := { m_links : Links Uuid; m_files : SectorsManagerState D }.
Abbreviation StartM A := (M machine Empty_set A).
Implicit Types (config : Configuration) (m : machine).

Definition on_m_links {A} (f : M (Links Uuid) Empty_set A) : StartM A := fun m =>
  let '(o, w) := f (m_links m) in (o, {| m_links := w; m_files := m_files m |}).

(** [build_sectors_manager]. *)
Definition build_sectors_manager : StartM unit := fun m =>
  let '(o, w) := SectorsManager.new (m_files m) in (o, {| m_links := m_links m; m_files := w |}).

(** [self_rank as usize - 1]. *)
Definition usize_pred (x : Z) : outcome Empty_set Z :=
  if decide (1 <= x) then Ret (x - 1)
  else if oc then Panic "attempt to subtract with overflow" else Ret U64_MAX.

(** [v.get(i)] on a vector. *)
Definition vec_get {A} (v : list A) (i : Z) : option A :=
  if decide (i < Z.of_nat (length v)) then v !! Z.to_nat i else None.

(** [v.len() as u8]. *)
Definition len_as_u8 {A} (v : list A) : u8 := Z.of_nat (length v) mod 2 ^ 8.

Definition run_register_process config : StartM process :=
  let tcp_locations := tcp_locations (public config) in
  let self_rank := self_rank (public config) in
  i ← lift (usize_pred self_rank);
  addr ← lift (expect "Self rank is out of tcp_locations vector bounds" (vec_get tcp_locations i));
  _ ← lift (if bind addr then Ret tt else Panic "Failed to bind to address");
  self_tx ← on_m_links unbounded;
  register_client ← on_m_links (RegisterClient.new connect oc self_rank self_tx (len_as_u8 tcp_locations) tcp_locations);
  _ ← build_sectors_manager;
  m ← get;
  mret (RegisterProcess.new self_rank (hmac_system_key config) (hmac_client_key config)
          (len_as_u8 tcp_locations) (n_sectors (public config))
          {| lc_state := register_client; lc_links := m_links m |} (m_files m)).

(** ** Starting succeeds *)

(** Sectors that the directory holds: possibly left by a crash, or none yet. *)
Definition stored_in (A : store) (d : D) : Prop :=
  store_ok A /\ (recoverable A d \/ (files d = None /\ A = ∅)).

Lemma build_sectors_manager_runs A m :
  stored_in A (disk (m_files m)) -> m_files m = boot (disk (m_files m)) ->
  exists w, build_sectors_manager m = (Ret tt, {| m_links := m_links m; m_files := w |}) /\ represents A w.
Proof.
  intros [Hok Hd] Hboot. unfold build_sectors_manager.
  assert (exists w, SectorsManager.new (m_files m) = (Ret tt, w) /\ represents A w) as (w & -> & Hw); [|eauto].
  destruct Hd as [Hrec|[Hnone ->]]; [|by apply new_on_missing_directory].
  rewrite Hboot. by apply boot_recoverable.
Qed.

Section Config.
Variable config : Configuration.
Let tcp := tcp_locations (public config).
Let self := self_rank (public config).
Let n := Z.of_nat (length tcp).

(** The process knows its own address and can listen on it. *)
Record can_listen : Prop := {
  cl_rank : 1 <= self <= n;
  cl_count : n <= U8_MAX;
  cl_bind addr : tcp !! Z.to_nat (self - 1) = Some addr -> bind addr = true;
}.

Lemma len_small : n <= U8_MAX -> len_as_u8 tcp = n.
Proof. unfold U8_MAX, len_as_u8, n. intros Hn. apply Z.mod_small. change (2 ^ 8) with 256. lia. Qed.

Lemma listens m :
  can_listen ->
  run_register_process config m =
    (register_client ← on_m_links (RegisterClient.new connect oc self (next_channel (m_links m)) n tcp);
     _ ← build_sectors_manager;
     m ← get;
     mret (RegisterProcess.new self (hmac_system_key config) (hmac_client_key config) n (n_sectors (public config))
             {| lc_state := register_client; lc_links := m_links m |} (m_files m)))
    {| m_links := (unbounded (m_links m)).2; m_files := m_files m |}.
Proof.
  intros [Hr Hc Hb]. unfold run_register_process, usize_pred. fold tcp self.
  rewrite decide_True by lia. rewrite M_bind_lift. unfold vec_get. fold n. rewrite decide_True by lia.
  destruct (lookup_lt_is_Some_2 tcp (Z.to_nat (self - 1))) as [addr Haddr]; [unfold n in Hr; lia|].
  rewrite Haddr. cbn [expect]. rewrite M_bind_lift, (Hb addr Haddr), M_bind_lift.
  rewrite (len_small Hc). reflexivity.
Qed.

(** The process works with what it was configured with. *)
Definition configured (p : process) : Prop :=
  rp_self_ident p = self /\ rp_processes_count p = n /\ rp_n_sectors p = n_sectors (public config) /\
  rp_hmac_system_key p = hmac_system_key config /\ rp_hmac_client_key p = hmac_client_key config.

Lemma start_runs A m :
  can_listen -> reachable_peers connect self n tcp ->
  stored_in A (disk (m_files m)) -> m_files m = boot (disk (m_files m)) ->
  exists p m' roles, run_register_process config m = (Ret p, m') /\ process_inv p /\ configured p /\
    wired roles self n (lc_state (client p)) (lc_links (client p)) /\ represents A (storage p) /\
    (forall idx, is_Some (workers p !! idx) <-> 0 <= idx < n_sectors (public config)) /\
    (forall idx, 0 <= idx < n_sectors (public config) -> sectors_guards p !! idx = Some 1%nat /\
      exists r, ar_worker_start idx p = (Ret tt, p <| workers := <[idx := Running r]> (workers p) |>) /\
        r = AtomicRegister.new self idx n (ts r) (wr r) (val r) /\ in_sync A r).
Proof.
  intros Hlisten Hpeers Hstored Hboot. rewrite (listens m Hlisten). pose proof Hlisten as [Hr Hc _].
  set (w0 := m_links m). set (m0 := {| m_links := (unbounded w0).2; m_files := m_files m |}).
  assert ((next_channel w0 < next_channel (m_links m0))%nat /\ is_open (m_links m0) (next_channel w0)) as [Hlt Hopen].
  { split; [simpl; lia|]. exists []. simpl. by rewrite lookup_insert_eq. }
  destruct (new_wiring connect oc self n (next_channel w0) tcp Hr (m_links m0) Hpeers Hlt Hopen)
    as (st & w1 & roles & Hnew & Hwired & _ & _).
  destruct (build_sectors_manager_runs A {| m_links := w1; m_files := m_files m |} Hstored Hboot) as (fs & Hfs & Hrep).
  eexists _, _, roles. split.
  { erewrite M_bind_Ret by (unfold on_m_links; rewrite Hnew; reflexivity).
    erewrite M_bind_Ret by exact Hfs. rewrite M_bind_get. reflexivity. }
  cbn [m_links m_files]. split; [apply new_process_inv; lia|]. split; [done|]. split; [exact Hwired|]. split; [exact Hrep|].
  split; [intros idx; apply range_is_Some|]. intros idx Hidx. split; [by apply lookup_range|].
  assert (serves (St:=SectorsManagerState D) A fs) as Hserves by exact Hrep.
  destruct (build_in_sync (Uuid:=Uuid) (Callback:=Callback Uuid) A fs self idx n Hserves) as (r & Hb & Hsync & Er).
  exists r. split; [|done]. unfold ar_worker_start. rewrite M_bind_get.
  erewrite M_bind_Ret; [|unfold on_storage; cbn [storage rp_self_ident rp_processes_count RegisterProcess.new]; rewrite Hb; reflexivity].
  reflexivity.
Qed.

(** C13: Starting succeeds when the process can listen and the other processes
    can be reached, on any storage directory that a crash can leave.  The new
    process satisfies the invariant of processes, has the identity, the keys and
    the sectors of its configuration, is linked to every other process, serves
    the stored sectors, has a permit and a worker for each of its sectors and no
    other, and each worker starts with the stored contents of its sector. *)
Theorem process_starts A m :
  can_listen -> reachable_peers connect self n tcp ->
  stored_in A (disk (m_files m)) -> m_files m = boot (disk (m_files m)) ->
  exists p m' roles, run_register_process config m = (Ret p, m') /\ process_inv p /\ configured p /\
    wired roles self n (lc_state (client p)) (lc_links (client p)) /\ represents A (storage p) /\
    (forall idx, is_Some (workers p !! idx) <-> 0 <= idx < n_sectors (public config)) /\
    (forall idx, 0 <= idx < n_sectors (public config) -> sectors_guards p !! idx = Some 1%nat /\
      exists r, ar_worker_start idx p = (Ret tt, p <| workers := <[idx := Running r]> (workers p) |>) /\
        r = AtomicRegister.new self idx n (ts r) (wr r) (val r) /\ in_sync A r).
Proof. apply start_runs. Qed.

(** ** Starting fails *)

(** A connection is refused, or [set_nodelay] fails on it. *)
Definition unreachable (addr : string * Z) : Prop := forall stream, connect addr = Some stream -> nodelay_ok stream = false.

Lemma connect_processes_fails range i txs (w : Links Uuid) :
  1 <= self -> i ∈ range -> i + 1 <> self -> (forall addr, tcp !! Z.to_nat i = Some addr -> unreachable addr) ->
  exists why w', connect_processes connect oc self tcp range txs w = (Panic why, w').
Proof.
  intros Hself Hi Hne Hfail. revert txs w. induction range as [|j range IH]; intros txs w; [set_solver|]. simpl.
  destruct (connect_process connect oc self tcp j txs w) as [[txs'|[]|why] w'] eqn:E.
  - erewrite M_bind_Ret by exact E. apply elem_of_cons in Hi as [<-|Hi]; [|by apply IH].
    exfalso. unfold connect_process, u8_sub in E. rewrite decide_True in E by lia.
    rewrite M_bind_lift, decide_False in E by lia.
    destruct (tcp !! Z.to_nat i) as [addr|] eqn:Ha; [|done]. cbn [expect] in E. rewrite M_bind_lift in E.
    destruct (connect addr) as [stream|] eqn:Hcon; [|done]. cbn [expect] in E. rewrite M_bind_lift in E.
    unfold set_nodelay in E. by rewrite (Hfail addr eq_refl stream Hcon) in E.
  - erewrite M_bind_Panic by exact E. eauto.
Qed.

(** C39: A process cannot start on its own: it panics when its rank is not that
    of an address, when it cannot listen, and also when any single other
    process cannot be reached at that moment (connecting to it or [set_nodelay]
    fails), even if a majority can. *)
Theorem start_fails m :
  n <= U8_MAX ->
  ~ 1 <= self <= n \/ (exists addr, 1 <= self /\ tcp !! Z.to_nat (self - 1) = Some addr /\ bind addr = false) \/
  (exists i addr, 1 <= self <= n /\ i + 1 <> self /\ 0 <= i < n /\ tcp !! Z.to_nat i = Some addr /\ unreachable addr) ->
  exists why m', run_register_process config m = (Panic why, m').
Proof.
  intros Hn Hbad. unfold run_register_process. fold tcp self. unfold usize_pred.
  destruct (decide (1 <= self)) as [H1|H1]; cycle 1.
  { destruct oc; [eauto|]. rewrite M_bind_lift. unfold vec_get. fold n. rewrite decide_False by (unfold U8_MAX, U64_MAX in *; lia).
    eauto. }
  rewrite M_bind_lift. unfold vec_get. fold n.
  destruct (decide (self - 1 < n)) as [H2|H2]; [|eauto].
  destruct (lookup_lt_is_Some_2 tcp (Z.to_nat (self - 1))) as [addr Haddr]; [unfold n in H2; lia|].
  rewrite Haddr. cbn [expect]. rewrite M_bind_lift. destruct (bind addr) eqn:Hb; [|eauto]. rewrite M_bind_lift.
  destruct Hbad as [Hbad|[(a & _ & Ha & Hb')|(i & a & _ & Hi & Hr & Ha & Hcon)]]; [lia|congruence|].
  rewrite (len_small Hn). erewrite M_bind_Ret by reflexivity.
  destruct (connect_processes_fails (seqZ 0 n) i ({[ self := next_channel (m_links m) ]}, {[ self := next_channel (m_links m) ]})
    (unbounded (m_links m)).2) as (why & w' & E); [done|by apply elem_of_seqZ; lia|done|by intros a' Ha'; simplify_eq|].
  erewrite M_bind_Panic; [eauto|]. unfold on_m_links, RegisterClient.new. by erewrite M_bind_Panic by exact E.
Qed.

End Config.

End Startup.

(** ** The theorems on a concrete configuration *)

Module StartupExamples.
Import SectorsManagerExamples.

Definition config : Configuration :=
  {| hmac_system_key := replicate 64 1; hmac_client_key := replicate 32 5;
     public := {| storage_dir := "dsk"; tcp_locations := RegisterClientExamples.locations; self_rank := 1; n_sectors := 4 |} |}.

Definition bind (addr : string * Z) : bool := true.

(** A process that restarts after a crash. *)
Definition fresh : machine (Uuid:=Toy.Uuid) (D:=RamDir.t) :=
  {| m_links := {| channels := ∅; next_channel := 0; writing_tasks := ∅; retransmission_tasks := ∅ |};
     m_files := boot dir2 |}.

Lemma config_listens : can_listen bind config.
Proof. split; [by_evaluation|by_evaluation|]. intros addr _. reflexivity. Qed.

Lemma process_starts_witness :
  exists p m' roles, run_register_process true bind RegisterClientExamples.connect config fresh = (Ret p, m') /\
    wired roles 1 2 (lc_state (client p)) (lc_links (client p)) /\ represents A1 (storage p) /\
    is_Some (workers p !! 3).
Proof.
  destruct (process_starts true bind RegisterClientExamples.connect config A1 fresh config_listens
    RegisterClientExamples.peers_example) as (p & m' & roles & Hrun & _ & _ & Hwired & Hrep & Hworkers & _).
  - split; [exact A1_ok|left; exact dir2_recoverable].
  - reflexivity.
  - exists p, m', roles. split; [exact Hrun|]. split; [exact Hwired|]. split; [exact Hrep|].
    apply Hworkers. simpl. lia.
Defined.

(** The other process is down. *)
Definition refused (addr : string * Z) : option TcpStream := None.

Lemma start_fails_witness :
  exists why m', run_register_process true bind refused config fresh = (Panic why, m').
Proof.
  apply (start_fails true bind refused config fresh); [by_evaluation|].
  right. right. exists 1, ("127.0.0.1", 4002). split; [by_evaluation|]. split; [done|].
  split; [by_evaluation|]. split; [reflexivity|]. discriminate.
Defined.

End StartupExamples.
