(* ===== verification/Harness.v ===== *)
(** * Registers under test: [test-utils/atomic_register.rs]

    The set-up that the tests drive registers with: all registers of a sector
    in one vector (a crashed one is [None]), one buffer of messages that all of
    them send to, one drive, and a loop that delivers the messages until none
    is left. *)

From S2P Require Import Prelude Domain SectorsManager AtomicRegister RegisterFacts Storage RegisterClient.

(** ** The [AtomicRegister] trait of [solution/src/lib.rs]

    A handler changes the register and acts on the world [W]; [new_v4] is the
    identifier that a client command draws. *)

Class AtomicRegister (Uuid Callback R W : Type) := {
  ar_client_command : Uuid -> ClientRegisterCommand -> Callback -> R -> M W Empty_set R;
  ar_system_command : SystemRegisterCommand Uuid -> R -> M W Empty_set R;
}.

(** ** What the registers share *)

(** [b_turns] counts the handlers that have run: every [HashMap] has an order of
    its own, so each run of a handler iterates in an order of its own. *)
Record Bench {Uuid Callback : Type} := {
  b_client : BufferClient.t Uuid;
  b_drive : RamDrive.t;
  b_calls : list (Callback * OperationSuccess);
  b_turns : nat;
}.
Arguments Bench Uuid Callback : clear implicits.

Section Instance_.
Context {Uuid Callback : Type} `{!EqDecision Uuid}.
Abbreviation state := (AtomicRegisterState Uuid Callback).
Abbreviation BenchM A := (M (Bench Uuid Callback) Empty_set A).
Variables (oc : bool) (iters : nat -> gmap Z (stamp * SectorVec) -> list (Z * (stamp * SectorVec))).

Definition on_b_client {A} (f : M (BufferClient.t Uuid) Empty_set A) : BenchM A := fun b =>
  let '(o, c) := f (b_client b) in (o, {| b_client := c; b_drive := b_drive b; b_calls := b_calls b; b_turns := b_turns b |}).

Definition on_b_drive {A} (f : M RamDrive.t Empty_set A) : BenchM A := fun b =>
  let '(o, d) := f (b_drive b) in (o, {| b_client := b_client b; b_drive := d; b_calls := b_calls b; b_turns := b_turns b |}).

(** A callback is called: the call is recorded. *)
Definition call (cb : Callback) (r : OperationSuccess) : BenchM unit :=
  modify (fun b => {| b_client := b_client b; b_drive := b_drive b; b_calls := b_calls b ++ [(cb, r)];
                       b_turns := b_turns b |}).

Definition bench_effect (f : effect Uuid Callback) : BenchM unit :=
  match f with
  | Broadcast cmd => on_b_client (rc_broadcast cmd)
  | Send cmd target => on_b_client (rc_send cmd target)
  | Store idx sector => on_b_drive (sm_write idx sector)
  | Complete cb r => call cb r
  end.

Fixpoint bench_effects (effs : list (effect Uuid Callback)) : BenchM unit :=
  match effs with
  | [] => mret tt
  | f :: effs => bench_effect f ;; bench_effects effs
  end.

Definition next_turn : BenchM unit :=
  modify (fun b => {| b_client := b_client b; b_drive := b_drive b; b_calls := b_calls b; b_turns := S (b_turns b) |}).

(** [impl AtomicRegister for AtomicRegisterState]. *)
#[export] Instance register_on_bench : AtomicRegister Uuid Callback state (Bench Uuid Callback) := {
  ar_client_command new_v4 cmd cb s :=
    let '(s', effs) := client_command new_v4 cmd cb s in next_turn ;; bench_effects effs ;; mret s';
  ar_system_command cmd s :=
    b ← get;
    '(s', effs) ← lift (system_command oc (iters (b_turns b)) cmd s);
    next_turn ;; bench_effects effs ;; mret s';
}.
End Instance_.

(** ** The functions of the test utilities *)

Record Harness {Uuid Callback R : Type} := { h_registers : list (option R); h_bench : Bench Uuid Callback }.
Arguments Harness Uuid Callback R : clear implicits.

(** [build_registers]: register [i] is the one of process [i + 1]. *)
Definition build_registers {Uuid Callback : Type} (sector_idx : SectorIdx) (processes_count : u8)
  : M RamDrive.t Empty_set (list (option (AtomicRegisterState Uuid Callback))) :=
  registers ← mapM (fun ident => build_atomic_register (ident + 1) sector_idx processes_count) (seqZ 0 processes_count);
  mret (Some <$> registers).

Section Functions.
Context {Uuid Callback R : Type} `{!AtomicRegister Uuid Callback R (Bench Uuid Callback)}.
Abbreviation harness := (Harness Uuid Callback R).
Abbreviation HarnessM A := (M harness Empty_set A).
Variable oc : bool.
Implicit Types (h : harness).

Definition on_bench {A} (f : M (Bench Uuid Callback) Empty_set A) : HarnessM A := fun h =>
  let '(o, b) := f (h_bench h) in (o, {| h_registers := h_registers h; h_bench := b |}).

Definition set_register (i : nat) (r : option R) : HarnessM unit :=
  modify (fun h => {| h_registers := <[i := r]> (h_registers h); h_bench := h_bench h |}).

Definition send_client_cmd (new_v4 : Uuid) (target : nat) (cmd : ClientRegisterCommand) (operation_complete : Callback)
  : HarnessM unit :=
  h ← get;
  slot ← lift (expect "unwrap" (h_registers h !! target));
  register ← lift (expect "unwrap" slot);
  register ← on_bench (ar_client_command new_v4 cmd operation_complete register);
  set_register target (Some register).

(** The body of the loop of [propagate_all_messages]. *)
Definition propagate_message (cmd : SystemRegisterCommand Uuid) (target : u8) : HarnessM unit :=
  i ← lift (u8_sub oc target 1);
  h ← get;
  slot ← lift (expect "unwrap" (h_registers h !! Z.to_nat i));
  match slot with
  | Some register =>
      register ← on_bench (ar_system_command cmd register);
      set_register (Z.to_nat i) (Some register)
  | None => mret tt
  end.

Definition h_buffer h : list (SystemRegisterCommand Uuid * u8) := BufferClient.buffer (b_client (h_bench h)).

(** [rx_client.recv()]: the harness without the first message. *)
Definition set_buffer l h : harness :=
  {| h_registers := h_registers h;
     h_bench := {| b_client := {| BufferClient.bc_processes_count := BufferClient.bc_processes_count (b_client (h_bench h));
                                  BufferClient.buffer := l |};
                   b_drive := b_drive (h_bench h); b_calls := b_calls (h_bench h);
                   b_turns := b_turns (h_bench h) |} |}.

(** [propagate_all_messages]: the loop ends when no message comes within the
    timeout, that is when the buffer is empty.  [None] means out of fuel. *)
Fixpoint propagate_all_messages (fuel : nat) h : option (outcome Empty_set unit * harness) :=
  match h_buffer h with
  | [] => Some (Ret tt, h)
  | (cmd, target) :: rest =>
      match fuel with
      | O => None
      | S fuel =>
          match propagate_message cmd target (set_buffer rest h) with
          | (Ret _, h') => propagate_all_messages fuel h'
          | o => Some o
          end
      end
  end.

End Functions.
