(* ===== verification/HarnessFacts.v ===== *)
(** * What the test loop guarantees

    The runs that the tests can make of registers under test, what they keep,
    and that the loop that delivers messages ends. *)

From S2P Require Import Prelude Domain SectorsManager AtomicRegister RegisterFacts Storage RegisterClient Harness.

Section Facts.
Context {Uuid Callback : Type} `{!EqDecision Uuid}.
Abbreviation state := (AtomicRegisterState Uuid Callback).
Abbreviation harness := (Harness Uuid Callback state).
Abbreviation bench := (Bench Uuid Callback).
Abbreviation command := (SystemRegisterCommand Uuid).
Abbreviation message := (SystemRegisterCommand Uuid * Z)%type.
Variables (oc : bool) (iters : nat -> gmap Z (stamp * SectorVec) -> list (Z * (stamp * SectorVec))).
Hypothesis Hiters : forall k, iter_ok (iters k).
#[local] Instance bench_register : AtomicRegister Uuid Callback state bench := register_on_bench oc iters.
Implicit Types (h : harness) (b : bench) (s : state) (f : effect Uuid Callback) (effs : list (effect Uuid Callback)).
Implicit Types (p q i t : Z) (op : Uuid).

(** ** The effects of a handler *)

Definition posted (n : Z) f : list message :=
  match f with
  | Broadcast cmd => (fun t => (cmd, t)) <$> seqZ 1 n
  | Send cmd target => [(cmd, target)]
  | Store _ _ | Complete _ _ => []
  end.

Definition called f : list (Callback * OperationSuccess) :=
  match f with Complete cb r => [(cb, r)] | _ => [] end.

Definition drive_after (d : RamDrive.t) effs : RamDrive.t :=
  fold_left (fun d f => match f with Store idx sector => <[idx := sector]> d | _ => d end) effs d.

Definition b_count b : Z := BufferClient.bc_processes_count (b_client b).

Definition bench_after effs b : bench :=
  {| b_client := {| BufferClient.bc_processes_count := b_count b;
                    BufferClient.buffer := BufferClient.buffer (b_client b) ++ (effs ≫= posted (b_count b)) |};
     b_drive := drive_after (b_drive b) effs;
     b_calls := b_calls b ++ (effs ≫= called); b_turns := b_turns b |}.

Definition ticked b : bench := (next_turn b).2.

Lemma broadcast_range_run cmd l (c : BufferClient.t Uuid) :
  BufferClient.broadcast_range cmd l c =
    (Ret tt, {| BufferClient.bc_processes_count := BufferClient.bc_processes_count c;
                BufferClient.buffer := BufferClient.buffer c ++ ((fun t => (cmd, t + 1)) <$> l) |}).
Proof.
  revert c. induction l as [|t l IH]; intros [n buf]; simpl; [by rewrite app_nil_r|].
  unfold BufferClient.send. rewrite M_bind_modify, IH. simpl. by rewrite <- app_assoc.
Qed.

Lemma bench_effect_run f b : bench_effect f b = (Ret tt, bench_after [f] b).
Proof.
  destruct b as [[n buf] d calls turns]. unfold bench_after. destruct f as [cmd|cmd t|idx sector|cb r]; simpl.
  - unfold on_b_client. simpl. unfold BufferClient.broadcast. rewrite M_bind_get, broadcast_range_run. simpl.
    rewrite !app_nil_r. do 4 f_equal. unfold b_count. simpl.
    replace (seqZ 1 n) with (Z.add 1 <$> seqZ 0 n) by apply fmap_add_seqZ. rewrite <- list_fmap_compose. apply list_fmap_ext. intros j t _. simpl. f_equal. lia.
  - by rewrite app_nil_r.
  - by rewrite !app_nil_r.
  - by rewrite app_nil_r.
Qed.

Lemma bench_after_app effs effs' b : bench_after effs' (bench_after effs b) = bench_after (effs ++ effs') b.
Proof.
  destruct b as [[n buf] d calls turns]. unfold bench_after, b_count, drive_after. simpl.
  by rewrite !bind_app, !app_assoc, fold_left_app.
Qed.

Lemma bench_effects_run effs b : bench_effects effs b = (Ret tt, bench_after effs b).
Proof.
  revert b. induction effs as [|f effs IH]; intros b; simpl.
  - unfold bench_after. simpl. rewrite !app_nil_r. by destruct b as [[] ? ? ?].
  - erewrite M_bind_Ret by apply bench_effect_run. by rewrite IH, bench_after_app.
Qed.

Lemma system_command_run cmd s b :
  ar_system_command cmd s b =
    match system_command oc (iters (b_turns b)) cmd s with
    | Ret (s', effs) => (Ret s', bench_after effs (ticked b))
    | Err e => (Err e, b)
    | Panic w => (Panic w, b)
    end.
Proof.
  change (ar_system_command cmd s) with
    (b ← get; '(s', effs) ← lift (system_command oc (iters (b_turns b)) cmd s);
     next_turn ;; bench_effects effs ;; mret s').
  rewrite M_bind_get. destruct (system_command oc (iters (b_turns b)) cmd s) as [[s' effs]|[]|w].
  - rewrite M_bind_lift. unfold next_turn. rewrite M_bind_modify. by erewrite M_bind_Ret by apply bench_effects_run.
  - by erewrite M_bind_Panic by reflexivity.
Qed.

(** ** One turn *)

Definition slot h p : option state := h_registers h !! Z.to_nat (p - 1) ≫= id.

(** The harness after register [p] has handled something. *)
Definition handled p s' effs h : harness :=
  {| h_registers := <[Z.to_nat (p - 1) := Some s']> (h_registers h); h_bench := bench_after effs (ticked (h_bench h)) |}.

Lemma propagate_to_live cmd p h s :
  1 <= p -> slot h p = Some s ->
  propagate_message oc cmd p h =
    match system_command oc (iters (b_turns (h_bench h))) cmd s with
    | Ret (s', effs) => (Ret tt, handled p s' effs h)
    | Err e => (Err e, h)
    | Panic w => (Panic w, h)
    end.
Proof.
  intros Hp Hs. unfold slot in Hs. destruct (h_registers h !! Z.to_nat (p - 1)) as [[s0|]|] eqn:E; simplify_eq/=.
  unfold propagate_message, u8_sub. rewrite decide_True by lia.
  rewrite M_bind_lift, M_bind_get, E. cbn [expect]. rewrite M_bind_lift.
  unfold on_bench. destruct (system_command oc (iters (b_turns (h_bench h))) cmd s) as [[s' effs]|[]|w] eqn:Hsys.
  - erewrite M_bind_Ret; [|by rewrite system_command_run, Hsys]. done.
  - erewrite M_bind_Panic; [|by rewrite system_command_run, Hsys]. by destruct h.
Qed.

Lemma propagate_to_crashed cmd p h :
  1 <= p -> (Z.to_nat (p - 1) < length (h_registers h))%nat -> slot h p = None ->
  propagate_message oc cmd p h = (Ret tt, h).
Proof.
  intros Hp Hlen Hs. unfold slot in Hs. apply lookup_lt_is_Some_2 in Hlen as [r Hr]. rewrite Hr in Hs.
  destruct r as [s|]; [done|].
  unfold propagate_message, u8_sub. rewrite decide_True by lia. by rewrite M_bind_lift, M_bind_get, Hr.
Qed.

Lemma slot_handled p q s' effs h :
  1 <= p -> 1 <= q -> is_Some (slot h p) ->
  slot (handled p s' effs h) q = if decide (q = p) then Some s' else slot h q.
Proof.
  intros Hp Hq [s Hs]. unfold slot, handled in *. simpl. destruct (h_registers h !! Z.to_nat (p - 1)) as [r|] eqn:E; [|done].
  case_decide as Heq.
  - subst q. rewrite list_lookup_insert_eq; [done|]. by eapply lookup_lt_Some.
  - rewrite list_lookup_insert_ne by lia. done.
Qed.

Lemma slot_set_buffer l h p : slot (set_buffer l h) p = slot h p.
Proof. done. Qed.

(** ** What a handler does *)

(** The process that waits for the message, or for the reply to it. *)
Definition asker (cmd : command) t : Z :=
  match content cmd with ReadProc | WriteProc _ _ _ => process_identifier (header cmd) | Value _ _ _ | Ack => t end.

Lemma system_keeps_op s cmd s' effs : step oc s (EvSystem cmd) s' effs -> op_id s' = op_id s.
Proof.
  intros Hstep. inversion Hstep as [|it ? ? ? _ Hsys]; subst. destruct cmd as [h ct].
  unfold system_command in Hsys. simpl in Hsys. destruct ct as [|t r v|t r v|].
  - by injection Hsys as <- _.
  - by destruct (handle_value_cases _ _ _ _ _ _ _ _ _ Hsys).
  - unfold handle_write_proc in Hsys. case_decide; by injection Hsys as <- _.
  - destruct (handle_ack_cases _ _ _ _ Hsys); try done. subst. by destruct (reading s).
Qed.

(** The messages of a handler: a reply to who asked, or a broadcast of the
    operation that the register runs. *)
Lemma system_posts n s cmd s' effs m t t0 :
  step oc s (EvSystem cmd) s' effs -> (m, t) ∈ effs ≫= posted n ->
  process_identifier (header m) = self_ident s /\
  ((t = asker cmd t0 /\ asker m t = asker cmd t0) \/ (1 <= t <= n /\ asker m t = self_ident s /\ op_id s <> None)).
Proof.
  intros Hstep Hin. inversion Hstep as [|it ? ? ? _ Hsys]; subst. destruct cmd as [h ct].
  apply list_elem_of_bind in Hin as (f & Hpost & Hf).
  unfold system_command in Hsys. simpl in Hsys. destruct ct as [|ts r v|ts r v|].
  - injection Hsys as <- <-. apply list_elem_of_singleton in Hf as ->. apply list_elem_of_singleton in Hpost as [= -> ->].
    split; [done|]. by left.
  - assert (forall c : command, (m, t) ∈ posted n (Broadcast c) -> m = c /\ 1 <= t <= n) as Hb.
    { intros c (t' & [= -> ->] & Ht%elem_of_seqZ)%list_elem_of_fmap. split; [done|lia]. }
    destruct (handle_value_cases _ _ _ _ _ _ _ _ _ Hsys) as [|op rl|op k mt rr v' Hop|op k mt rr v' ts' Hop]; [set_solver..| |].
    + apply list_elem_of_singleton in Hf as ->. apply Hb in Hpost as [-> Ht]. split; [done|]. right. by rewrite Hop.
    + apply elem_of_cons in Hf as [->|Hf]; [by apply not_elem_of_nil in Hpost|].
      apply list_elem_of_singleton in Hf as ->. apply Hb in Hpost as [-> Ht]. split; [done|]. right. by rewrite Hop.
  - unfold handle_write_proc in Hsys.
    case_decide; injection Hsys as <- <-; simpl in Hf; rewrite ?elem_of_cons, elem_of_nil in Hf; destruct_or! Hf; try done;
      subst f; simpl in Hpost; try (by apply not_elem_of_nil in Hpost); apply list_elem_of_singleton in Hpost as [= -> ->]; (split; [done|]); by left.
  - exfalso. destruct (handle_ack_cases _ _ _ _ Hsys); try (by apply not_elem_of_nil in Hf);
      apply list_elem_of_singleton in Hf as ->; by apply not_elem_of_nil in Hpost.
Qed.

(** ** Set-ups in order *)

Record harness_ok h : Prop := {
  ho_length : Z.of_nat (length (h_registers h)) = b_count (h_bench h);
  ho_register p s : 1 <= p -> slot h p = Some s ->
    register_inv s /\ self_ident s = p /\ processes_count s = b_count (h_bench h);
  ho_message cmd t : (cmd, t) ∈ h_buffer h ->
    1 <= t <= b_count (h_bench h) /\ 1 <= process_identifier (header cmd) <= b_count (h_bench h) /\
    forall s, slot h (asker cmd t) = Some s -> op_id s <> None;
}.

Lemma slot_range h p s : harness_ok h -> 1 <= p -> slot h p = Some s -> 1 <= p <= b_count (h_bench h).
Proof.
  intros Hok Hp Hs. rewrite <- (ho_length h Hok). unfold slot in Hs.
  destruct (h_registers h !! Z.to_nat (p - 1)) as [r|] eqn:E; [|done]. apply lookup_lt_Some in E. lia.
Qed.

Lemma harness_ok_handled h p s e s' effs :
  harness_ok h -> 1 <= p -> slot h p = Some s -> step oc s e s' effs ->
  (op_id s <> None -> op_id s' <> None) ->
  (forall m t, (m, t) ∈ effs ≫= posted (b_count (h_bench h)) ->
    1 <= t <= b_count (h_bench h) /\ process_identifier (header m) = p /\
    forall s1, slot (handled p s' effs h) (asker m t) = Some s1 -> op_id s1 <> None) ->
  harness_ok (handled p s' effs h).
Proof.
  intros Hok Hp Hs Hstep Hop Hposts. pose proof Hok as [H1 H2 H3]. pose proof (slot_range h p s Hok Hp Hs) as Hrange.
  assert (is_Some (slot h p)) as His by eauto.
  split.
  - simpl. by rewrite length_insert.
  - intros q sq Hq. rewrite slot_handled by done. case_decide as E; [|by apply H2]. intros [= <-]. subst q.
    destruct (H2 p s Hp Hs) as (Hinv & Hself & Hcount). destruct (step_same_identity _ _ _ _ _ Hstep) as (E1 & E2 & _).
    split; [eapply step_inv; [|done..]; lia|]. split; [congruence|]. etrans; [exact E2|exact Hcount].
  - intros cmd t Hin. unfold h_buffer, handled in Hin. simpl in Hin. change (b_count (h_bench (handled p s' effs h))) with (b_count (h_bench h)).
    apply elem_of_app in Hin as [Hin|Hin].
    + destruct (H3 cmd t Hin) as (Ht & Hpid & Hask). split; [done|]. split; [done|]. intros sq.
      rewrite slot_handled; [|done| |done]; [|unfold asker; destruct (content cmd); lia].
      case_decide as E; [|apply Hask]. intros [= <-]. apply Hop. apply Hask. by rewrite E.
    + destruct (Hposts cmd t Hin) as (Ht & Hpid & Hask). split; [done|]. by rewrite Hpid.
Qed.

Lemma harness_ok_set_buffer h cmd t rest :
  harness_ok h -> h_buffer h = (cmd, t) :: rest -> harness_ok (set_buffer rest h).
Proof.
  intros [H1 H2 H3] Hbuf. split; [done|done|]. intros m q Hin. apply H3. rewrite Hbuf. apply elem_of_cons. by right.
Qed.

(** A turn of the loop on the first message: the register is gone, or it
    handles the message, or its handler panics. *)
Inductive turn_case cmd t rest h : outcome Empty_set unit * harness -> Prop :=
| turn_dropped : slot h t = None -> turn_case cmd t rest h (Ret tt, set_buffer rest h)
| turn_handled s s' effs :
    slot h t = Some s -> step oc s (EvSystem cmd) s' effs ->
    turn_case cmd t rest h (Ret tt, handled t s' effs (set_buffer rest h))
| turn_panicked s why :
    slot h t = Some s -> system_command oc (iters (b_turns (h_bench h))) cmd s = Panic why ->
    turn_case cmd t rest h (Panic why, set_buffer rest h).

Lemma turn_cases cmd t rest h :
  harness_ok h -> h_buffer h = (cmd, t) :: rest ->
  turn_case cmd t rest h (propagate_message oc cmd t (set_buffer rest h)).
Proof.
  intros Hok Hbuf. destruct (ho_message h Hok cmd t) as (Ht & _ & _); [rewrite Hbuf; by left|].
  pose proof (ho_length h Hok) as Hlen.
  destruct (slot h t) as [s|] eqn:Hs.
  - rewrite (propagate_to_live cmd t (set_buffer rest h) s) by (done || lia).
    destruct (system_command oc (iters _) cmd s) as [[s' effs]|[]|w] eqn:Hsys; [|by apply turn_panicked with s].
    eapply turn_handled; [done|]. by eapply step_system.
  - rewrite propagate_to_crashed; [by apply turn_dropped|lia| |done]. simpl. lia.
Qed.

Lemma empty_served : serves (St:=RamDrive.t) ∅ ∅.
Proof. split; [|by rewrite fmap_empty]. intros idx e. by rewrite lookup_empty. Qed.

(** ** Runs of the harness *)

(** [registers.get_mut(p - 1).unwrap().take()]. *)
Definition crash p h : harness :=
  {| h_registers := <[Z.to_nat (p - 1) := None]> (h_registers h); h_bench := h_bench h |}.

Definition fresh_bench (n : Z) (d : RamDrive.t) : bench :=
  {| b_client := {| BufferClient.bc_processes_count := n; BufferClient.buffer := [] |}; b_drive := d; b_calls := []; b_turns := 0 |}.

(** Registers over an empty drive, some of them taken out at once. *)
Definition set_up (sector_idx : SectorIdx) (n : Z) (dead : list Z) h : Prop :=
  exists (registers : list (option state)) (d : RamDrive.t),
    build_registers sector_idx n (∅ : RamDrive.t) = (Ret registers, d) /\
    h = foldr crash {| h_registers := registers; h_bench := fresh_bench n d |} dead.

(** A run with [k] client commands. *)
Inductive harness_run h0 : nat -> harness -> Prop :=
| hr_start : harness_run h0 0 h0
| hr_send k h h' p s new_v4 cmd cb :
    harness_run h0 k h -> 1 <= p -> slot h p = Some s -> idle s ->
    send_client_cmd new_v4 (Z.to_nat (p - 1)) cmd cb h = (Ret tt, h') -> harness_run h0 (S k) h'
| hr_crash k h p : harness_run h0 k h -> 1 <= p -> harness_run h0 k (crash p h)
| hr_turn k h h' cmd t rest :
    harness_run h0 k h -> h_buffer h = (cmd, t) :: rest ->
    propagate_message oc cmd t (set_buffer rest h) = (Ret tt, h') -> harness_run h0 k h'.

Lemma send_client_cmd_run new_v4 p cmd cb h s :
  1 <= p -> slot h p = Some s ->
  send_client_cmd new_v4 (Z.to_nat (p - 1)) cmd cb h =
    (Ret tt, let '(s', effs) := client_command new_v4 cmd cb s in handled p s' effs h).
Proof.
  intros Hp Hs. unfold slot in Hs. destruct (h_registers h !! Z.to_nat (p - 1)) as [[s0|]|] eqn:E; try done. injection Hs as ->.
  unfold send_client_cmd. rewrite M_bind_get, E. cbn [expect]. rewrite M_bind_lift. cbn [expect]. rewrite M_bind_lift.
  unfold on_bench. cbn [ar_client_command bench_register register_on_bench h_bench]. destruct (client_command new_v4 cmd cb s) as [s' effs].
  erewrite M_bind_Ret by (unfold next_turn; rewrite M_bind_modify; erewrite M_bind_Ret by apply bench_effects_run; reflexivity). reflexivity.
Qed.

Lemma slot_crash p q h :
  1 <= p -> 1 <= q -> slot (crash p h) q = if decide (q = p) then None else slot h q.
Proof.
  intros Hp Hq. unfold slot, crash. simpl. case_decide as E.
  - subst q. destruct (decide (Z.to_nat (p - 1) < length (h_registers h))%nat).
    + by rewrite list_lookup_insert_eq.
    + by rewrite lookup_ge_None_2 by (rewrite length_insert; lia).
  - by rewrite list_lookup_insert_ne by lia.
Qed.

Lemma slot_crash_Some p q h s : 1 <= p -> 1 <= q -> slot (crash p h) q = Some s -> slot h q = Some s.
Proof. intros Hp Hq. rewrite slot_crash by done. by case_decide. Qed.

Lemma asker_pos h cmd t : harness_ok h -> (cmd, t) ∈ h_buffer h -> 1 <= asker cmd t.
Proof. intros Hok Hin. destruct (ho_message h Hok cmd t Hin) as (? & ? & _). unfold asker. destruct (content cmd); lia. Qed.

Lemma harness_ok_crash p h : 1 <= p -> harness_ok h -> harness_ok (crash p h).
Proof.
  intros Hp Hok. pose proof Hok as [H1 H2 H3]. split.
  - simpl. by rewrite length_insert.
  - intros q s Hq Hs%slot_crash_Some; [|done..]. by apply H2.
  - intros cmd t Hin. destruct (H3 cmd t Hin) as (? & ? & Hask). split; [done|]. split; [done|].
    intros s Hs%slot_crash_Some; [by apply Hask|done|]. by eapply asker_pos.
Qed.

(** A turn keeps the set-up in order. *)
Lemma turn_ok h h' cmd t rest :
  harness_ok h -> h_buffer h = (cmd, t) :: rest -> turn_case cmd t rest h (Ret tt, h') -> harness_ok h'.
Proof.
  intros Hok Hbuf Hturn. pose proof (harness_ok_set_buffer _ _ _ _ Hok Hbuf) as Hok'.
  assert ((cmd, t) ∈ h_buffer h) as Hin by (rewrite Hbuf; by left).
  destruct (ho_message h Hok cmd t Hin) as (Ht & Hpid & Hask).
  inversion Hturn as [Hs|s s' effs Hs Hstep|]; subst; [done|]. pose proof (system_keeps_op _ _ _ _ Hstep) as Hop.
  destruct (ho_register h Hok t s) as (_ & Hself & _); [lia|done|].
  eapply harness_ok_handled; [done|lia|done..|by rewrite Hop|]. intros m q Hm.
  change (b_count (h_bench (set_buffer rest h))) with (b_count (h_bench h)) in *.
  destruct (system_posts _ _ _ _ _ _ _ t Hstep Hm) as [-> Hto]. rewrite Hself in *.
  destruct Hto as [[-> Hasker]|(Hq & Hasker & Hnone)].
  - pose proof (asker_pos h cmd t Hok Hin). split; [unfold asker in *; destruct (content cmd); simpl; lia|]. split; [done|].
    intros s1. rewrite Hasker, slot_handled by (done || lia || by eauto).
    case_decide as E; [|apply Hask]. intros [= <-]. rewrite Hop. apply Hask. by rewrite E.
  - split; [done|]. split; [done|]. intros s1. rewrite Hasker, slot_handled by (done || lia || by eauto).
    rewrite decide_True by done. intros [= <-]. by rewrite Hop.
Qed.

(** A client command posts a READ_PROC to every process. *)
Lemma client_posts n s new_v4 cmd cb s' effs :
  client_command new_v4 cmd cb s = (s', effs) ->
  op_id s' = Some new_v4 /\ exists hd, process_identifier hd = self_ident s /\ msg_ident hd = new_v4 /\
    effs ≫= posted n = (fun t => ({| header := hd; content := ReadProc |}, t)) <$> seqZ 1 n.
Proof.
  unfold client_command. destruct (c_content cmd); intros [= <- <-]; (split; [done|]);
    eexists; (split; [|split; [|simpl; apply app_nil_r]]); done.
Qed.

Lemma send_ok h p s new_v4 cmd cb s' effs :
  harness_ok h -> 1 <= p -> slot h p = Some s -> idle s -> client_command new_v4 cmd cb s = (s', effs) ->
  harness_ok (handled p s' effs h).
Proof.
  intros Hok Hp Hs Hidle Hc. destruct (client_posts (b_count (h_bench h)) _ _ _ _ _ _ Hc) as (Hop & hd & Hpid & _ & Hposted).
  destruct (ho_register h Hok p s) as (_ & Hself & _); [done..|].
  eapply harness_ok_handled; [done..|by eapply step_client|by rewrite Hop|].
  rewrite Hposted. intros m t (t' & [= -> ->] & Ht%elem_of_seqZ)%list_elem_of_fmap. split; [lia|].
  split; [by rewrite <- Hself|]. intros s1. unfold asker. cbn [content header]. rewrite Hpid, Hself, slot_handled by (done || by eauto).
  rewrite decide_True by done. intros [= <-]. by rewrite Hop.
Qed.

Definition fresh_register (idx : SectorIdx) (n : Z) (i : Z) : state := AtomicRegister.new (i + 1) idx n 0 0 zero_sector.

Lemma build_registers_run idx n :
  build_registers idx n (∅ : RamDrive.t) = (Ret (Some <$> (fresh_register idx n <$> seqZ 0 n)), ∅).
Proof.
  unfold build_registers. set (f := fun ident => build_atomic_register (ident + 1) idx n).
  assert (forall l, mapM f l (∅ : RamDrive.t) = (Ret (fresh_register idx n <$> l), ∅)) as Hrun.
  { induction l as [|i l IH]; [done|]. simpl.
    erewrite M_bind_Ret by apply (build_atomic_register_correct ∅), empty_served.
    by erewrite M_bind_Ret by exact IH. }
  by erewrite M_bind_Ret by apply Hrun.
Qed.

Lemma fresh_slot idx n b p s :
  1 <= p -> slot {| h_registers := Some <$> (fresh_register idx n <$> seqZ 0 n); h_bench := b |} p = Some s ->
  s = fresh_register idx n (p - 1).
Proof.
  intros Hp. unfold slot. simpl. rewrite !list_lookup_fmap. destruct (seqZ 0 n !! Z.to_nat (p - 1)) as [i|] eqn:E; [|done].
  apply lookup_seqZ in E as [-> _]. intros [= <-]. f_equal. lia.
Qed.

(** What holds of the registers as built and is kept when some are taken out
    holds of every set-up. *)
Lemma set_up_ind (P : harness -> Prop) idx n dead h :
  P {| h_registers := Some <$> (fresh_register idx n <$> seqZ 0 n); h_bench := fresh_bench n ∅ |} ->
  (forall p h, 1 <= p -> P h -> P (crash p h)) ->
  Forall (fun p => 1 <= p) dead -> set_up idx n dead h -> P h.
Proof.
  intros Hbuilt Hcrash Hdead (registers & d & Hrun & ->). rewrite build_registers_run in Hrun. injection Hrun as <- <-.
  induction Hdead as [|p dead Hp _ IH]; [done|]. by apply Hcrash.
Qed.

Lemma set_up_ok idx n dead h : 0 <= n -> Forall (fun p => 1 <= p) dead -> set_up idx n dead h -> harness_ok h.
Proof.
  intros Hn. apply set_up_ind; [|intros p h1 Hp; by apply harness_ok_crash]. split.
  - simpl. rewrite !length_fmap, length_seqZ. unfold b_count. simpl. lia.
  - intros p s Hp ->%fresh_slot; [|done]. unfold fresh_register. split; [by apply new_inv|]. split; [simpl; lia|done].
  - intros cmd t Hin. by apply not_elem_of_nil in Hin.
Qed.

Lemma run_ok h0 k h : harness_ok h0 -> harness_run h0 k h -> harness_ok h.
Proof.
  intros H0 Hrun. induction Hrun as [|k h h' p s new_v4 cmd cb _ IH Hp Hs Hidle Hsend|k h p _ IH Hp|k h h' cmd t rest _ IH Hbuf Hprop].
  - done.
  - rewrite (send_client_cmd_run _ _ _ _ _ _ Hp Hs) in Hsend. destruct (client_command new_v4 cmd cb s) as [s' effs] eqn:Hc.
    injection Hsend as <-. by eapply send_ok.
  - by apply harness_ok_crash.
  - eapply turn_ok; [done..|]. rewrite <- Hprop. by apply turn_cases.
Qed.

(** ** The loop ends *)

(** What handling a message may still cost: a request is answered, and the
    reply may be the one that makes the register decide. *)
Definition weight (m : message) : nat :=
  match content m.1 with ReadProc | WriteProc _ _ _ => 2 | Value _ _ _ | Ack => 1 end.

(** The register is in its first phase: it will broadcast once more. *)
Definition undecided s : nat := if (reading s || writing s) && negb (write_phase s) then 1 else 0.

Definition undecided_count h : nat := sum_list_with (from_option undecided 0%nat) (h_registers h).

Definition potential h : nat :=
  (sum_list_with weight (h_buffer h) + 2 * Z.to_nat (b_count (h_bench h)) * undecided_count h)%nat.

Lemma sum_list_with_insert {A} (f : A -> nat) (l : list A) (i : nat) x y :
  l !! i = Some x -> (sum_list_with f (<[i := y]> l) + f x = sum_list_with f l + f y)%nat.
Proof. revert i. induction l as [|a l IH]; intros [|i] Hi; simplify_eq/=; [lia|]. specialize (IH i Hi). lia. Qed.

Lemma slot_lookup h p s : slot h p = Some s -> h_registers h !! Z.to_nat (p - 1) = Some (Some s).
Proof. unfold slot. destruct (h_registers h !! Z.to_nat (p - 1)) as [[s0|]|]; naive_solver. Qed.

Lemma undecided_handled h p s s' effs :
  slot h p = Some s -> (undecided_count (handled p s' effs h) + undecided s = undecided_count h + undecided s')%nat.
Proof. intros Hs%slot_lookup. exact (sum_list_with_insert (from_option undecided 0%nat) _ _ _ (Some s') Hs). Qed.

Lemma undecided_crash h p : (undecided_count (crash p h) <= undecided_count h)%nat.
Proof.
  unfold undecided_count, crash. simpl. destruct (h_registers h !! Z.to_nat (p - 1)) as [r|] eqn:E.
  - pose proof (sum_list_with_insert (from_option undecided 0%nat) _ _ _ None E). simpl in *. lia.
  - rewrite list_insert_ge; [done|]. by apply lookup_ge_None_1.
Qed.

Lemma broadcast_weight cmd n :
  weight (cmd, 0) = 2%nat -> sum_list_with weight (posted n (Broadcast cmd)) = (2 * Z.to_nat n)%nat.
Proof.
  intros Hw. simpl. rewrite <- (Nat2Z.id (Z.to_nat n)), <- (length_seqZ 1 n). generalize (seqZ 1 n) as l.
  induction l as [|t l IH]; [done|]. cbn [fmap list_fmap sum_list_with length]. rewrite IH. unfold weight in *. simpl in *. lia.
Qed.

Lemma idle_undecided s : idle s -> undecided s = 0%nat.
Proof. intros [Hr Hw]. unfold undecided. by rewrite Hr, Hw. Qed.

(** A handler posts less than it takes away. *)
Lemma system_weight n s cmd t s' effs :
  register_inv s -> step oc s (EvSystem cmd) s' effs ->
  (sum_list_with weight (effs ≫= posted n) + 2 * Z.to_nat n * undecided s' <
   weight (cmd, t) + 2 * Z.to_nat n * undecided s)%nat.
Proof.
  intros Hinv Hstep. inversion Hstep as [|it ? ? ? _ Hsys]; subst. destruct cmd as [h ct].
  unfold system_command in Hsys. simpl in Hsys. destruct ct as [|ts r v|ts r v|].
  - injection Hsys as <- <-. simpl. unfold weight. simpl. lia.
  - assert (reading s || writing s = true -> write_phase s = false -> undecided s = 1%nat) as Hund
      by (intros Hb Hwp; unfold undecided; by rewrite Hb, Hwp).
    assert (forall s1, write_phase s1 = true -> undecided s1 = 0%nat) as Hund'
      by (intros s1 Hwp; unfold undecided; by rewrite Hwp, andb_false_r).
    destruct (handle_value_cases _ _ _ _ _ _ _ _ _ Hsys) as [| |op k mt rr v' _ _ Hwp _ Hr _|op k mt rr v' ts' _ _ Hwp _ Hr Hw _ _].
    + simpl. unfold weight. simpl. lia.
    + simpl. unfold weight, undecided. simpl. lia.
    + rewrite Hund, Hund' by (done || by rewrite Hr). cbn [mbind list_bind]. rewrite app_nil_r, broadcast_weight by done.
      unfold weight. simpl. lia.
    + rewrite Hund, Hund' by (done || by rewrite Hr, Hw). cbn [mbind list_bind]. rewrite app_nil_r, sum_list_with_app, broadcast_weight by done. unfold weight. simpl. lia.
  - unfold handle_write_proc in Hsys. case_decide; injection Hsys as <- <-; simpl; unfold weight, undecided; simpl; lia.
  - assert (forall s1, idle s1 -> (sum_list_with weight [] + 2 * Z.to_nat n * undecided s1 <
      weight ({| header := h; content := Ack |}, t) + 2 * Z.to_nat n * undecided s)%nat) as Hidle
      by (intros s1 Hs1; rewrite (idle_undecided s1 Hs1); unfold weight; simpl; lia).
    destruct (handle_ack_cases _ _ _ _ Hsys) as [| |op cb rq _ _ Hwp _ Hr Hcb Hrid|op cb rq _ _ Hwp _ Hr Hw Hcb Hrid|op s2 _ _ _ Hb Hno _].
    + simpl. unfold weight. simpl. lia.
    + simpl. unfold weight, undecided. simpl. lia.
    + apply Hidle. split; [done|]. by apply (inv_exclusive _ Hinv).
    + by apply Hidle.
    + apply (inv_callback _ Hinv) in Hb as [cb Hcb]. congruence.
Qed.

Lemma potential_set_buffer h m rest :
  h_buffer h = m :: rest -> potential h = (weight m + potential (set_buffer rest h))%nat.
Proof. intros Hbuf. unfold potential. rewrite Hbuf. cbn [sum_list_with]. unfold undecided_count, b_count, h_buffer. simpl. lia. Qed.

Lemma potential_pos h m rest : h_buffer h = m :: rest -> (potential (set_buffer rest h) < potential h)%nat.
Proof. intros Hbuf. rewrite (potential_set_buffer h m rest Hbuf). unfold weight. destruct (content _); lia. Qed.

Lemma potential_handled h p s s' effs :
  slot h p = Some s ->
  (potential (handled p s' effs h) + 2 * Z.to_nat (b_count (h_bench h)) * undecided s =
   potential h + sum_list_with weight (effs ≫= posted (b_count (h_bench h))) +
   2 * Z.to_nat (b_count (h_bench h)) * undecided s')%nat.
Proof.
  intros Hs. pose proof (undecided_handled h p s s' effs Hs) as Hu. unfold potential.
  change (b_count (h_bench (handled p s' effs h))) with (b_count (h_bench h)).
  change (h_buffer (handled p s' effs h)) with (h_buffer h ++ (effs ≫= posted (b_count (h_bench h)))).
  rewrite sum_list_with_app. nia.
Qed.

Lemma turn_decreases h h' cmd t rest :
  harness_ok h -> h_buffer h = (cmd, t) :: rest -> turn_case cmd t rest h (Ret tt, h') -> (potential h' < potential h)%nat.
Proof.
  intros Hok Hbuf Hturn. pose proof (potential_set_buffer h (cmd, t) rest Hbuf) as Hpot.
  destruct (ho_message h Hok cmd t) as (Ht & _ & _); [rewrite Hbuf; by left|].
  inversion Hturn as [Hs|s s' effs Hs Hstep|]; subst.
  - by eapply potential_pos.
  - destruct (ho_register h Hok t s) as (Hinv & _ & _); [lia|done|].
    pose proof (potential_handled (set_buffer rest h) t s s' effs Hs) as Hhandled.
    pose proof (system_weight (b_count (h_bench (set_buffer rest h))) s cmd t s' effs Hinv Hstep). lia.
Qed.

Lemma propagate_unfold fuel h cmd t rest :
  h_buffer h = (cmd, t) :: rest ->
  propagate_all_messages oc (S fuel) h =
    match propagate_message oc cmd t (set_buffer rest h) with
    | (Ret _, h') => propagate_all_messages oc fuel h'
    | o => Some o
    end.
Proof. intros Hbuf. simpl. by rewrite Hbuf. Qed.

Lemma propagate_done fuel h : h_buffer h = [] -> propagate_all_messages oc fuel h = Some (Ret tt, h).
Proof. intros Hbuf. destruct fuel; simpl; by rewrite Hbuf. Qed.

Lemma propagate_total m h :
  harness_ok h -> (potential h <= m)%nat ->
  exists r, forall fuel, (potential h <= fuel)%nat -> propagate_all_messages oc fuel h = Some r.
Proof.
  revert h. induction m as [|m IH]; intros h Hok Hm; destruct (h_buffer h) as [|[cmd t] rest] eqn:Hbuf.
  1,3: eexists; intros; by apply propagate_done.
  - pose proof (potential_pos h _ _ Hbuf). lia.
  - pose proof (turn_cases cmd t rest h Hok Hbuf) as Hturn.
    destruct (propagate_message oc cmd t (set_buffer rest h)) as [[[]|[]|w] h'] eqn:Hrun.
    + pose proof (turn_decreases h h' cmd t rest Hok Hbuf Hturn) as Hlt.
      destruct (IH h') as [r Hr]; [by eapply turn_ok|lia|]. exists r. intros [|fuel] Hfuel; [lia|].
      rewrite (propagate_unfold fuel h cmd t rest Hbuf), Hrun. apply Hr. lia.
    + pose proof (potential_pos h _ _ Hbuf). exists (Panic w, h'). intros [|fuel] Hfuel; [lia|]. by rewrite (propagate_unfold fuel h cmd t rest Hbuf), Hrun.
Qed.

(** C11: The loop that delivers messages ends, whatever commands were sent,
    registers taken out and messages delivered before: every turn takes more
    from the buffer than the handler puts into it, so [potential h] turns are
    enough, and more make no difference. *)
Theorem propagate_terminates idx n dead h0 k h :
  0 <= n -> Forall (fun p => 1 <= p) dead -> set_up idx n dead h0 -> harness_run h0 k h ->
  exists r, forall fuel, (potential h <= fuel)%nat -> propagate_all_messages oc fuel h = Some r.
Proof. intros Hn Hdead Hset Hrun. eapply propagate_total; [|done]. eapply run_ok; [|done]. by eapply set_up_ok. Qed.

(** What turns keep, and what excludes panics, describes how the loop ends. *)
Lemma propagate_ends (P : harness -> Prop) fuel h :
  (forall h, P h -> harness_ok h) ->
  (forall h cmd t rest o h', P h -> h_buffer h = (cmd, t) :: rest -> turn_case cmd t rest h (o, h') -> o = Ret tt /\ P h') ->
  P h -> (potential h <= fuel)%nat ->
  exists h', propagate_all_messages oc fuel h = Some (Ret tt, h') /\ P h' /\ h_buffer h' = [].
Proof.
  intros HPok Hturn. revert h. induction fuel as [|fuel IH]; intros h HP Hfuel;
    destruct (h_buffer h) as [|[cmd t] rest] eqn:Hbuf; try (exists h; by rewrite propagate_done).
  - pose proof (potential_pos h _ _ Hbuf). lia.
  - rewrite (propagate_unfold fuel h cmd t rest Hbuf). pose proof (turn_cases cmd t rest h (HPok h HP) Hbuf) as Hcase.
    destruct (propagate_message oc cmd t (set_buffer rest h)) as [o h'].
    destruct (Hturn h cmd t rest o h' HP Hbuf Hcase) as [-> HP']. apply IH; [done|].
    pose proof (turn_decreases h h' cmd t rest (HPok h HP) Hbuf Hcase). lia.
Qed.

(** What the loop does is a run. *)
Lemma propagate_run fuel h0 k h h' :
  harness_run h0 k h -> propagate_all_messages oc fuel h = Some (Ret tt, h') -> harness_run h0 k h'.
Proof.
  revert h. induction fuel as [|fuel IH]; intros h Hrun; destruct (h_buffer h) as [|[cmd t] rest] eqn:Hbuf;
    try (rewrite propagate_done by done; by intros [= <-]).
  - unfold propagate_all_messages. by rewrite Hbuf.
  - rewrite (propagate_unfold fuel h cmd t rest Hbuf).
    destruct (propagate_message oc cmd t (set_buffer rest h)) as [[[]| |] h1] eqn:Hturn; [|done..].
    apply IH. by eapply hr_turn.
Qed.

End Facts.

(** ** Examples *)

Module HarnessFactsExamples.

Abbreviation example := (Harness Z unit (AtomicRegisterState Z unit)).

(** Every other handler iterates backwards. *)
Definition orders (k : nat) (m : gmap Z (stamp * SectorVec)) : list (Z * (stamp * SectorVec)) :=
  if Nat.even k then map_to_list m else reverse (map_to_list m).

#[local] Instance example_register : AtomicRegister Z unit (AtomicRegisterState Z unit) (Bench Z unit) :=
  register_on_bench true orders.

Lemma orders_ok k : iter_ok (orders k).
Proof. intros m. unfold orders. destruct (Nat.even k); [done|]. apply reverse_Permutation. Qed.

(** Three registers, the ones of [dead] taken out. *)
Definition three (dead : list Z) : example :=
  foldr crash {| h_registers := Some <$> (fresh_register 7 3 <$> seqZ 0 3); h_bench := fresh_bench 3 ∅ |} dead.

(** Register 1 is told to write. *)
Definition command : ClientRegisterCommand :=
  {| c_header := {| request_identifier := 5; c_sector_idx := 7 |}; c_content := Write zero_sector |}.

Definition asked (dead : list Z) : example :=
  let '(s', effs) := client_command 42 command tt (fresh_register 7 3 0) in handled 1 s' effs (three dead).

Lemma three_set_up dead : set_up (Uuid:=Z) 7 3 dead (three dead).
Proof. eexists _, _. split; [apply build_registers_run|done]. Qed.

Lemma asked_run dead :
  slot (three dead) 1 = Some (fresh_register 7 3 0) -> harness_run true orders (three dead) 1 (asked dead).
Proof.
  intros Hs. eapply (hr_send _ _ _ 0 _ _ 1); [apply hr_start|lia|exact Hs|done|].
  rewrite (send_client_cmd_run _ _ 42 1 command tt _ _ ltac:(lia) Hs). unfold asked. by destruct (client_command _ _ _ _).
Qed.

Lemma propagate_terminates_witness :
  let h := asked [2; 3] in
  exists r, forall fuel, (potential h <= fuel)%nat -> propagate_all_messages true fuel h = Some r.
Proof.
  apply (propagate_terminates true orders orders_ok 7 3 [2; 3] (three [2; 3]) 1).
  - lia.
  - repeat constructor; lia.
  - apply three_set_up.
  - by apply asked_run.
Defined.

End HarnessFactsExamples.
