(* ===== verification/HarnessProgress.v ===== *)
(** * Commands finish under test

    A run of the harness with a majority of the registers alive ends with every
    command answered: timestamps leave room, no request or reply is lost, and a
    register that waited in vain would have a quorum.  Without a majority
    nothing is answered or stored. *)

From S2P Require Import Prelude Domain SectorsManager AtomicRegister RegisterFacts Storage RegisterClient Harness HarnessFacts.

Section Progress.
Context {Uuid Callback : Type} `{!EqDecision Uuid}.
Abbreviation state := (AtomicRegisterState Uuid Callback).
Abbreviation harness := (Harness Uuid Callback state).
Abbreviation command := (SystemRegisterCommand Uuid).
Abbreviation message := (SystemRegisterCommand Uuid * Z)%type.
Variables (oc : bool) (iters : nat -> gmap Z (stamp * SectorVec) -> list (Z * (stamp * SectorVec))).
Hypothesis Hiters : forall k, iter_ok (iters k).
#[local] Instance progress_register : AtomicRegister Uuid Callback state (Bench Uuid Callback) := register_on_bench oc iters.
Implicit Types (h : harness) (s : state) (f : effect Uuid Callback) (effs : list (effect Uuid Callback)).
Implicit Types (p q i t : Z) (op : Uuid).

Abbreviation turn_case := (HarnessFacts.turn_case oc iters).
Abbreviation turn_cases := (HarnessFacts.turn_cases oc iters Hiters).
Abbreviation turn_ok := (HarnessFacts.turn_ok oc iters Hiters).
Abbreviation send_ok := (HarnessFacts.send_ok oc).
Abbreviation harness_run := (HarnessFacts.harness_run oc iters).

(** ** Timestamps stay below the number of commands *)

Definition msg_ts (ct : SystemRegisterCommandContent) : Z :=
  match ct with Value t _ _ | WriteProc t _ _ => t | ReadProc | Ack => 0 end.

(** No timestamp of the register exceeds [c]. *)
Definition ts_below (c : Z) s : Prop := ts s <= c /\ map_Forall (fun _ en => en.1.1 <= c) (readlist s).

Record clock (k : nat) (c : Z) h : Prop := {
  clock_pos : 0 <= c;
  clock_register p s : 1 <= p -> slot h p = Some s -> ts_below c s;
  clock_message cmd t : (cmd, t) ∈ h_buffer h -> msg_ts (content cmd) <= c;
  clock_room : c + Z.of_nat (undecided_count h) <= Z.of_nat k;
}.

Lemma ts_below_mono c c1 s : c <= c1 -> ts_below c s -> ts_below c1 s.
Proof. intros Hb [H1 H2]. split; [lia|]. eapply map_Forall_impl; [exact H2|]. simpl. lia. Qed.

(** The picked value is one of the collected ones. *)
Lemma picked_below c s hd t r v it k mt rr v' :
  iter_ok it -> ts_below c s -> t <= c ->
  max_by compare_entries (it (full_readlist s hd t r v)) = Some (k, ((mt, rr), v')) -> mt <= c.
Proof.
  intros Hit [Hts Hrl] Ht Hmax. apply (picked_entry it) in Hmax; [|done].
  assert (map_Forall (fun _ (en : stamp * SectorVec) => en.1.1 <= c) (full_readlist s hd t r v)) as Hall
    by (unfold full_readlist; by repeat apply map_Forall_insert_2).
  exact (Hall _ _ Hmax).
Qed.

Lemma undecided_phase s : write_phase s = true -> undecided s = 0%nat.
Proof. intros Hwp. unfold undecided. by rewrite Hwp, andb_false_r. Qed.

Lemma undecided_first_phase s : busy s -> write_phase s = false -> undecided s = 1%nat.
Proof. intros Hb%busy_orb Hwp. unfold undecided. by rewrite Hb, Hwp. Qed.

Lemma broadcast_posts n (cmd m : command) t : (m, t) ∈ posted n (Broadcast (Callback:=Callback) cmd) <-> m = cmd /\ 1 <= t <= n.
Proof.
  simpl. rewrite list_elem_of_fmap. split.
  - intros (t' & [= -> ->] & Ht%elem_of_seqZ). split; [done|lia].
  - intros [-> Ht]. exists t. split; [done|]. apply elem_of_seqZ. lia.
Qed.

Lemma step_clock c n s cmd s' effs :
  ts_below c s -> msg_ts (content cmd) <= c -> c + Z.of_nat (undecided s) <= U64_MAX ->
  step oc s (EvSystem cmd) s' effs -> register_inv s -> 0 <= c ->
  exists c1, c <= c1 /\ c1 + Z.of_nat (undecided s') <= c + Z.of_nat (undecided s) /\ ts_below c1 s' /\
    forall m t, (m, t) ∈ effs ≫= posted n -> msg_ts (content m) <= c1.
Proof.
  intros Hbelow Hmsg Hroom Hstep Hinv Hc. inversion Hstep as [|it ? ? ? Hit Hsys]; subst. destruct cmd as [h ct].
  pose proof Hbelow as [Hts Hrl]. unfold system_command in Hsys. simpl in Hsys, Hmsg. destruct ct as [|t r v|t r v|].
  - injection Hsys as <- <-. exists c. split_and!; try done. by intros m q [= -> ->]%list_elem_of_singleton.
  - destruct (handle_value_cases _ _ _ _ _ _ _ _ _ Hsys)
      as [|op rl _ _ _ -> _|op k mt rr v' _ _ Hwp _ Hr Hmax|op k mt rr v' ts' _ _ Hwp _ Hr Hw Hmax Hadd].
    + exists c. split_and!; try done. by intros m q Hin%not_elem_of_nil.
    + exists c. split_and!; try done; [split; [done|by apply map_Forall_insert_2]|]. by intros m q Hin%not_elem_of_nil.
    + pose proof (picked_below _ _ _ _ _ _ _ _ _ _ _ Hit Hbelow Hmsg Hmax). exists c.
      split; [done|]. split; [rewrite undecided_phase by done; lia|]. split; [split; [done|by apply map_Forall_empty]|].
      intros m q Hin. cbn [mbind list_bind] in Hin. rewrite app_nil_r in Hin. by apply broadcast_posts in Hin as [-> _].
    + pose proof (picked_below _ _ _ _ _ _ _ _ _ _ _ Hit Hbelow Hmsg Hmax). exists (c + 1).
      assert (undecided s = 1%nat) as Hone by (apply undecided_first_phase; [by right|done]). unfold u64_add in Hadd. rewrite decide_True in Hadd by lia.
      injection Hadd as <-. rewrite undecided_phase by done.
      split; [lia|]. split; [lia|]. split; [split; [simpl; lia|by apply map_Forall_empty]|].
      intros m q Hin. cbn [mbind list_bind] in Hin. rewrite app_nil_r in Hin. apply elem_of_app in Hin as [Hin%not_elem_of_nil|Hin]; [done|].
      apply broadcast_posts in Hin as [-> _]. simpl. lia.
  - unfold handle_write_proc in Hsys. exists c. case_decide; injection Hsys as <- <-; split_and!; try done;
      by intros m q [= -> ->]%list_elem_of_singleton.
  - exists c. destruct (handle_ack_cases _ _ _ _ Hsys) as [| |op cb rq _ _ Hwp _ Hr Hcb Hrid|op cb rq _ _ Hwp _ Hr Hw Hcb Hrid|op s2 _ _ _ Hb Hno _].
    + split_and!; try done. by intros m q Hin%not_elem_of_nil.
    + split_and!; try done. by intros m q Hin%not_elem_of_nil.
    + rewrite idle_undecided; [|split; [done|by apply (inv_exclusive _ Hinv)]]. split_and!; try done; [lia|].
      by intros m q Hin%not_elem_of_nil.
    + rewrite idle_undecided by done. split_and!; try done; [lia|]. by intros m q Hin%not_elem_of_nil.
    + apply (inv_callback _ Hinv) in Hb as [cb Hcb]. congruence.
Qed.

Lemma undecided_le h p s : slot h p = Some s -> (undecided s <= undecided_count h)%nat.
Proof.
  intros Hs%slot_lookup. pose proof (sum_list_with_insert (from_option undecided 0%nat) _ _ _ None Hs) as H.
  unfold undecided_count. simpl in H. lia.
Qed.

(** A handler that raises the clock by as much as it takes from the undecided
    registers keeps the room. *)
Lemma clock_handled k k' c c1 h p s s' effs :
  clock k c h -> 1 <= p -> slot h p = Some s -> c <= c1 -> ts_below c1 s' ->
  c1 + Z.of_nat (undecided s') + Z.of_nat k <= c + Z.of_nat (undecided s) + Z.of_nat k' ->
  (forall m t, (m, t) ∈ effs ≫= posted (b_count (h_bench h)) -> msg_ts (content m) <= c1) ->
  clock k' c1 (handled p s' effs h).
Proof.
  intros [H1 H2 H3 H4] Hp Hs Hc Hbelow Hroom Hposts. pose proof (undecided_handled h p s s' effs Hs) as Hu. split.
  - lia.
  - intros q sq Hq. rewrite slot_handled by (done || by eauto). case_decide; [by intros [= <-]|].
    intros Hsq. eapply ts_below_mono; [done|]. by eapply H2.
  - intros cmd t Hin. unfold h_buffer, handled in Hin. simpl in Hin. apply elem_of_app in Hin as [Hin|Hin]; [|by eapply Hposts].
    specialize (H3 cmd t Hin). lia.
  - lia.
Qed.

Lemma clock_set_buffer k c h m rest : clock k c h -> h_buffer h = m :: rest -> clock k c (set_buffer rest h).
Proof.
  intros [H1 H2 H3 H4] Hbuf. split; [done..| |done]. intros cmd t Hin. apply (H3 cmd t). rewrite Hbuf. apply elem_of_cons. by right.
Qed.

Lemma turn_clock k c h h' cmd t rest :
  harness_ok h -> clock k c h -> Z.of_nat k <= U64_MAX -> h_buffer h = (cmd, t) :: rest ->
  turn_case cmd t rest h (Ret tt, h') -> exists c1, clock k c1 h'.
Proof.
  intros Hok Hclock Hk Hbuf Hturn. pose proof (clock_set_buffer _ _ _ _ _ Hclock Hbuf) as Hclock'.
  inversion Hturn as [Hs|s s' effs Hs Hstep|]; subst; [by exists c|].
  destruct (ho_message h Hok cmd t) as (Ht & _ & _); [rewrite Hbuf; by left|].
  destruct (ho_register h Hok t s) as (Hinv & _ & _); [lia|done|].
  pose proof (undecided_le h t s Hs). pose proof Hclock as [H1 H2 H3 H4].
  destruct (step_clock c (b_count (h_bench h)) s cmd s' effs) as (c1 & Hc1 & Hroom & Hbelow & Hposts); [|apply (H3 cmd t)|lia|done..|].
  - apply (H2 t); [lia|done].
  - rewrite Hbuf. by left.
  - exists c1. eapply (clock_handled k); [done|lia|done..|lia|done].
Qed.

Lemma client_clock c s new_v4 cmd cb s' effs :
  ts_below c s -> client_command new_v4 cmd cb s = (s', effs) -> ts_below c s' /\ (undecided s' <= 1)%nat.
Proof.
  intros [Hts Hrl] Hc. assert (forall s1, undecided s1 <= 1)%nat as Hle by (intros s1; unfold undecided; destruct (_ && _); lia).
  unfold client_command in Hc. destruct (c_content cmd); injection Hc as <- _;
    (split; [|apply Hle]); (split; [done|]); by apply map_Forall_empty.
Qed.

Lemma send_clock k c h p s new_v4 cmd cb s' effs :
  clock k c h -> 1 <= p -> slot h p = Some s -> client_command new_v4 cmd cb s = (s', effs) ->
  clock (S k) c (handled p s' effs h).
Proof.
  intros Hclock Hp Hs Hc. pose proof Hclock as [H1 H2 H3 H4]. destruct (client_clock c _ _ _ _ _ _ (H2 p s Hp Hs) Hc) as [Hbelow Hone].
  destruct (client_posts (b_count (h_bench h)) _ _ _ _ _ _ Hc) as (_ & hd & _ & _ & Hposted).
  eapply (clock_handled k); [done..|lia|]. rewrite Hposted. by intros m t (t' & [= -> ->] & _)%list_elem_of_fmap.
Qed.

Lemma clock_crash k c h p : 1 <= p -> clock k c h -> clock k c (crash p h).
Proof.
  intros Hp [H1 H2 H3 H4]. pose proof (undecided_crash h p). split; [done| |done|lia].
  intros q s Hq Hs%slot_crash_Some; [|done..]. by eapply H2.
Qed.

Lemma set_up_clock idx n dead h : Forall (fun p => 1 <= p) dead -> set_up idx n dead h -> clock 0 0 h.
Proof.
  apply set_up_ind; [|intros; by apply clock_crash]. split.
  - done.
  - intros p s Hp ->%fresh_slot; [|done]. split; [done|by apply map_Forall_empty].
  - intros cmd t Hin. by apply not_elem_of_nil in Hin.
  - unfold undecided_count. simpl. induction (seqZ 0 n) as [|i l IH]; [done|]. exact IH.
Qed.

(** With room for the timestamps no handler panics. *)
Lemma turn_no_panic k c h cmd t rest o h' :
  harness_ok h -> clock k c h -> Z.of_nat k <= U64_MAX -> h_buffer h = (cmd, t) :: rest ->
  turn_case cmd t rest h (o, h') -> o = Ret tt.
Proof.
  intros Hok Hclock Hk Hbuf Hturn. inversion Hturn as [| |s why Hs Hsys]; subst; [done..|]. exfalso.
  assert ((cmd, t) ∈ h_buffer h) as Hin by (rewrite Hbuf; by left).
  destruct (ho_message h Hok cmd t Hin) as (Ht & _ & Hask). destruct (ho_register h Hok t s) as (Hinv & _ & _); [lia|done|].
  pose proof (undecided_le h t s Hs) as Hu. pose proof Hclock as [H1 H2 H3 H4]. specialize (H3 cmd t Hin). specialize (H2 t s).
  destruct cmd as [hd [|ts' r v|ts' r v|]]; unfold system_command in Hsys; simpl in Hsys, H3; try done.
  - destruct (proj1 (value_panics oc (iters _) s hd ts' r v (Hiters _)) (ex_intro _ _ Hsys))
      as [Hnone|(_ & _ & (_ & Hwp & Hb & _) & q & mt & rr & v' & Hmax & Hover)]; [by apply (Hask s)|].
    assert (mt <= c) by (eapply picked_below; [exact (Hiters (b_turns (h_bench h)))|apply H2; [lia|done]|exact H3|exact Hmax]).
    rewrite (undecided_first_phase s Hb Hwp) in Hu. lia.
  - apply (Hask s); [done|]. apply (ack_panics s hd Hinv). eauto.
Qed.

(** ** No request is lost *)

Definition is_request (phase : bool) (ct : SystemRegisterCommandContent) : bool :=
  match ct with ReadProc => negb phase | WriteProc _ _ _ => phase | Value _ _ _ | Ack => false end.

Definition is_reply (phase : bool) (ct : SystemRegisterCommandContent) : bool :=
  match ct with Value _ _ _ => negb phase | Ack => phase | ReadProc | WriteProc _ _ _ => false end.

(** The processes whose replies the register has in its current phase. *)
Definition collected s : gset Z := if write_phase s then acklist s else dom (readlist s).

(** What register [p], which runs [op], is waiting for from [q] is on its way. *)
Definition on_its_way (buf : list message) p s op q : Prop :=
  (exists m, (m, q) ∈ buf /\ is_request (write_phase s) (content m) = true /\
     process_identifier (header m) = p /\ msg_ident (header m) = op) \/
  (exists m, (m, p) ∈ buf /\ is_reply (write_phase s) (content m) = true /\
     process_identifier (header m) = q /\ msg_ident (header m) = op) \/
  q ∈ collected s.

Definition nothing_lost h : Prop := forall p q s op,
  1 <= p -> 1 <= q -> slot h p = Some s -> busy s -> op_id s = Some op -> is_Some (slot h q) ->
  on_its_way (h_buffer h) p s op q.

Lemma on_its_way_mono buf buf' p s op q :
  (forall m, m ∈ buf -> m ∈ buf') -> on_its_way buf p s op q -> on_its_way buf' p s op q.
Proof. intros Hsub [(m & Hm & ?)|[(m & Hm & ?)|?]]; [left|right; left|by right; right]; exists m; eauto. Qed.

(** A request is answered at once. *)
Lemma request_answered n phase s cmd s' effs :
  step oc s (EvSystem cmd) s' effs -> is_request phase (content cmd) = true ->
  exists m, (m, process_identifier (header cmd)) ∈ effs ≫= posted n /\ is_reply phase (content m) = true /\
    process_identifier (header m) = self_ident s /\ msg_ident (header m) = msg_ident (header cmd).
Proof.
  intros Hstep Hreq. inversion Hstep as [|it ? ? ? _ Hsys]; subst. destruct cmd as [h ct].
  unfold system_command in Hsys. simpl in *. destruct ct as [|t r v|t r v|]; try done.
  - injection Hsys as <- <-. eexists. split; [by left|]. by simpl.
  - unfold handle_write_proc in Hsys. case_decide; injection Hsys as <- <-; eexists; (split; [by left|]); by simpl.
Qed.

(** A register that stays busy keeps its replies and adds the one it is given,
    or it goes to the second phase and asks every process. *)
Lemma busy_step n s cmd s' effs op :
  register_inv s -> step oc s (EvSystem cmd) s' effs -> busy s' -> op_id s = Some op ->
  (busy s /\ write_phase s' = write_phase s /\ collected s ⊆ collected s' /\
   (is_reply (write_phase s) (content cmd) = true -> msg_ident (header cmd) = op ->
    process_identifier (header cmd) ∈ collected s')) \/
  (write_phase s' = true /\ exists m, is_request true (content m) = true /\
   process_identifier (header m) = self_ident s /\ msg_ident (header m) = op /\
   forall q, 1 <= q <= n -> (m, q) ∈ effs ≫= posted n).
Proof.
  intros Hinv Hstep Hbusy Hop. inversion Hstep as [|it ? ? ? _ Hsys]; subst. destruct cmd as [h ct].
  unfold system_command in Hsys. simpl in *. destruct ct as [|t r v|t r v|].
  - injection Hsys as <- <-. by left.
  - destruct (handle_value_cases _ _ _ _ _ _ _ _ _ Hsys)
      as [op' Hop' Hig|op' rl Hop' Hid Hwp -> _|op' k mt rr v' Hop' _ Hwp _ Hr Hmax|op' k mt rr v' ts' Hop' _ Hwp _ Hr Hw Hmax Hadd];
      (rewrite Hop in Hop'; injection Hop' as <-).
    + left. split_and!; try done. intros Hwp%negb_true_iff Hid. destruct Hig as [?|?]; congruence.
    + left. split_and!; try done; unfold collected; simpl; rewrite Hwp, dom_insert_L; [set_solver|intros; set_solver].
    + right. split; [done|]. eexists. split_and!; [| | |intros q Hq; cbn [mbind list_bind]; rewrite app_nil_r; by apply broadcast_posts]; done.
    + right. split; [done|]. eexists. split_and!; [| | |intros q Hq; cbn [mbind list_bind]; rewrite app_nil_r; apply elem_of_app; right; by apply broadcast_posts]; done.
  - left. unfold handle_write_proc in Hsys. case_decide; by injection Hsys as <- <-.
  - destruct (handle_ack_cases _ _ _ _ Hsys) as [op' Hop' Hig|op' al Hop' Hid Hwp -> _|op' cb rq _ _ Hwp _ Hr Hcb Hrid|op' cb rq _ _ Hwp _ Hr Hw Hcb Hrid|op' s2 _ _ _ Hb Hno _].
    + rewrite Hop in Hop'; injection Hop' as <-. left. split_and!; try done. intros Hwp Hid. simpl in Hwp. destruct Hig as [?|?]; congruence.
    + left. split_and!; try done; unfold collected; simpl; rewrite Hwp; [set_solver|intros; set_solver].
    + destruct (busy_not_idle _ Hbusy). split; [done|]. by apply (inv_exclusive _ Hinv).
    + by destruct (busy_not_idle _ Hbusy).
    + apply (inv_callback _ Hinv) in Hb as [cb Hcb]. congruence.
Qed.

Lemma handled_buffer p s' effs h :
  h_buffer (handled p s' effs h) = h_buffer h ++ (effs ≫= posted (b_count (h_bench h))).
Proof. done. Qed.

(** The message [(cmd, t)] in front of [rest] is replaced by what its handler
    posts. *)
Lemma on_its_way_turn n rest cmd t p q s st st' op effs :
  on_its_way ((cmd, t) :: rest) p s op q -> step oc st (EvSystem cmd) st' effs -> self_ident st = t ->
  on_its_way (rest ++ (effs ≫= posted n)) p s op q \/
  (t = p /\ is_reply (write_phase s) (content cmd) = true /\ process_identifier (header cmd) = q /\ msg_ident (header cmd) = op).
Proof.
  intros [(m & [[= -> ->]|Hm]%elem_of_cons & Hreq & Hp & Hop)|[(m & [[= -> ->]|Hm]%elem_of_cons & Hrep & Hq & Hop)|Hin]] Hstep Hself.
  - left. right. left. destruct (request_answered n _ _ _ _ _ Hstep Hreq) as (m & Hm & Hrep & Hself' & Hop').
    exists m. rewrite Hp in Hm. split; [apply elem_of_app; by right|]. split; [done|]. split; congruence.
  - left. left. exists m. split; [apply elem_of_app; by left|done].
  - by right.
  - left. right. left. exists m. split; [apply elem_of_app; by left|done].
  - left. by right; right.
Qed.

Lemma turn_nothing_lost h h' cmd t rest :
  harness_ok h -> nothing_lost h -> h_buffer h = (cmd, t) :: rest -> turn_case cmd t rest h (Ret tt, h') -> nothing_lost h'.
Proof.
  intros Hok Hlost Hbuf Hturn. destruct (ho_message h Hok cmd t) as (Ht & _ & _); [rewrite Hbuf; by left|].
  inversion Hturn as [Hnone|s s' effs Hs Hstep|]; subst; intros p q sp op Hp Hq Hsp Hbusy Hop Hlive.
  - destruct (Hlost p q sp op Hp Hq Hsp Hbusy Hop Hlive) as [(m & Hm & Hreq)|[(m & Hm & Hrep)|?]]; [| |by right; right].
    + left. exists m. split; [|done]. rewrite Hbuf in Hm. apply elem_of_cons in Hm as [[= -> ->]|?]; [|done].
      destruct Hlive as [? Hlive]. change (slot h t = Some x) in Hlive. congruence.
    + right. left. exists m. split; [|done]. rewrite Hbuf in Hm. apply elem_of_cons in Hm as [[= -> ->]|?]; [|done].
      change (slot h t = Some sp) in Hsp. congruence.
  - destruct (ho_register h Hok t s) as (Hinv & Hself & _); [lia|done|].
    assert (is_Some (slot h q)) as Hlive' by (rewrite slot_handled in Hlive by (done || lia || by eauto); case_decide; [subst; eauto|done]).
    rewrite handled_buffer. change (h_buffer (set_buffer rest h)) with rest. set (n := b_count _).
    assert (forall sx, slot h p = Some sx -> busy sx -> op_id sx = Some op ->
      on_its_way (rest ++ (effs ≫= posted n)) p sx op q \/
      (t = p /\ is_reply (write_phase sx) (content cmd) = true /\ process_identifier (header cmd) = q /\ msg_ident (header cmd) = op)) as Hway.
    { intros sx Hsx Hb Hopx. eapply on_its_way_turn; [|done..]. rewrite <- Hbuf. by apply Hlost. }
    rewrite slot_handled in Hsp by (done || lia || by eauto). case_decide as E; cycle 1.
    + destruct (Hway sp Hsp Hbusy Hop) as [?|[? _]]; [done|congruence].
    + injection Hsp as ->. subst p. rewrite (system_keeps_op _ _ _ _ _ Hstep) in Hop.
      destruct (busy_step n _ _ _ _ _ Hinv Hstep Hbusy Hop) as [(Hb & Hphase & Hsub & Hadd)|(Hphase & m & Hreq & Hp' & Hid & Hall)].
      * unfold on_its_way in Hway |- *. rewrite Hphase. destruct (Hway s Hs Hb Hop) as [[?|[?|?]]|(_ & Hrep & <- & Hid)]; [by left|by right; left|right; right..].
        -- set_solver.
        -- by apply Hadd.
      * left. exists m. rewrite Hphase, Hp', Hself. split; [|done]. apply elem_of_app. right. apply Hall.
        destruct Hlive' as [sq Hsq]. exact (slot_range h q sq Hok Hq Hsq).
Qed.

Lemma send_nothing_lost h p s new_v4 cmd cb s' effs :
  harness_ok h -> nothing_lost h -> 1 <= p -> slot h p = Some s -> idle s -> client_command new_v4 cmd cb s = (s', effs) ->
  nothing_lost (handled p s' effs h).
Proof.
  intros Hok Hlost Hp Hs Hidle Hc p' q sp op Hp' Hq Hsp Hbusy Hop Hlive.
  destruct (ho_register h Hok p s) as (Hinv & Hself & _); [done..|].
  assert (is_Some (slot h q)) as [sq Hsq] by (rewrite slot_handled in Hlive by (done || by eauto); case_decide; [subst; eauto|done]).
  rewrite handled_buffer. rewrite slot_handled in Hsp by (done || by eauto). case_decide as E; cycle 1.
  - eapply on_its_way_mono; [|by eapply Hlost]. intros m Hm. apply elem_of_app. by left.
  - injection Hsp as ->. subst p'. destruct (client_posts (b_count (h_bench h)) _ _ _ _ _ _ Hc) as (Hop' & hd & Hpid & Hid & ->).
    assert (write_phase sp = false) as Hphase.
    { rewrite <- (idle_write_phase s Hinv Hidle). unfold client_command in Hc. destruct (c_content cmd); by injection Hc as <- _. }
    left. exists {| header := hd; content := ReadProc |}. rewrite Hphase. split; [|split; [done|]; split; [by rewrite <- Hself|simpl; congruence]].
    apply elem_of_app. right. apply list_elem_of_fmap. exists q. split; [done|]. apply elem_of_seqZ.
    pose proof (slot_range h q sq Hok Hq Hsq). lia.
Qed.

Lemma crash_nothing_lost h p : 1 <= p -> nothing_lost h -> nothing_lost (crash p h).
Proof.
  intros Hp Hlost p' q s op Hp' Hq Hs%slot_crash_Some Hbusy Hop [sq Hsq%slot_crash_Some]; [|done..]. eapply Hlost; eauto.
Qed.

Lemma set_up_nothing_lost idx n dead h : Forall (fun p => 1 <= p) dead -> set_up idx n dead h -> nothing_lost h.
Proof.
  apply set_up_ind; [|intros; by apply crash_nothing_lost]. intros p q s op Hp Hq ->%fresh_slot Hbusy; [|done].
  by destruct (busy_not_idle _ Hbusy).
Qed.

(** ** Commands and their answers *)

(** The commands in progress at the registers that are alive. *)
Definition pending h : list ticket := h_registers h ≫= from_option in_progress [].

Definition ticket_of (call : Callback * OperationSuccess) : ticket :=
  (call.1, os_request_identifier call.2, match op_return call.2 with ReadReturn _ => true | WriteReturn => false end).

(** Between [h] and [h'] the callbacks [calls] were called, each for a command
    that was pending. *)
Definition answers h h' : Prop :=
  exists calls, b_calls (h_bench h') = b_calls (h_bench h) ++ calls /\ pending h ≡ₚ (ticket_of <$> calls) ++ pending h'.

Lemma bind_insert {A B} (f : A -> list B) (l : list A) (i : nat) x y :
  l !! i = Some x -> f x ++ (<[i := y]> l ≫= f) ≡ₚ f y ++ (l ≫= f).
Proof.
  revert i. induction l as [|a l IH]; intros [|i] Hi; simplify_eq/=.
  - rewrite !app_assoc. apply Permutation_app_tail, Permutation_app_comm.
  - rewrite !app_assoc, (Permutation_app_comm (f x)), (Permutation_app_comm (f y)), <- !app_assoc.
    by apply Permutation_app_head, IH.
Qed.

Lemma called_tickets effs : ticket_of <$> (effs ≫= called) = effs ≫= completed_by.
Proof. induction effs as [|f effs IH]; [done|]. cbn [mbind list_bind]. rewrite fmap_app, IH. by destruct f. Qed.

Lemma answers_handled h0 h p s e s' effs :
  answers h0 h -> slot h p = Some s -> register_inv s -> step oc s e s' effs -> issued_by e = [] ->
  answers h0 (handled p s' effs h).
Proof.
  intros (calls & Hcalls & Hperm) Hs%slot_lookup Hinv Hstep Hnone. exists (calls ++ (effs ≫= called)).
  split; [simpl; by rewrite Hcalls, app_assoc|].
  rewrite fmap_app, called_tickets, <- app_assoc, Hperm. apply Permutation_app_head.
  pose proof (step_tickets _ _ _ _ _ Hinv Hstep) as Htick. rewrite Hnone, app_nil_r in Htick.
  pose proof (bind_insert (from_option in_progress []) _ _ _ (Some s') Hs) as Hins. simpl in Hins. rewrite Htick, <- app_assoc in Hins.
  apply (Permutation_app_inv_l (in_progress s')).
  etrans; [symmetry; exact Hins|]. rewrite !app_assoc. apply Permutation_app_tail, Permutation_app_comm.
Qed.

Lemma no_pending h : harness_ok h -> (forall p s, 1 <= p -> slot h p = Some s -> idle s) -> pending h = [].
Proof.
  intros Hok Hidle. unfold pending.
  assert (forall (i : nat) s, h_registers h !! i = Some (Some s) -> in_progress s = []) as Hnone.
  { intros i s Hi. assert (slot h (Z.of_nat i + 1) = Some s) as Hs.
    { unfold slot. replace (Z.to_nat (Z.of_nat i + 1 - 1)) with i by lia. by rewrite Hi. }
    apply idle_in_progress; [|apply (Hidle (Z.of_nat i + 1)); [lia|done]]. by destruct (ho_register h Hok (Z.of_nat i + 1) s) as (? & _); [lia|..]. }
  induction (h_registers h) as [|r l IH]; [done|]. cbn [mbind list_bind].
  destruct r as [s|]; simpl; [rewrite (Hnone 0%nat s) by done|]; apply IH; intros i; exact (Hnone (S i)).
Qed.

(** ** A majority is enough *)

Definition live h : gset Z := list_to_set (filter (fun p => is_Some (slot h p)) (seqZ 1 (b_count (h_bench h)))).

Lemma elem_of_live h p : p ∈ live h <-> 1 <= p <= b_count (h_bench h) /\ is_Some (slot h p).
Proof. unfold live. rewrite elem_of_list_to_set, list_elem_of_filter, elem_of_seqZ. naive_solver lia. Qed.

(** Once nothing is on its way, a busy register would have a quorum. *)
Lemma quiescent_idle h p s :
  harness_ok h -> nothing_lost h -> h_buffer h = [] -> b_count (h_bench h) / 2 < Z.of_nat (size (live h)) ->
  1 <= p -> slot h p = Some s -> idle s.
Proof.
  intros Hok Hlost Hbuf Hmaj Hp Hs. destruct (busy_or_idle s) as [Hbusy|?]; [|done]. exfalso.
  destruct (ho_register h Hok p s Hp Hs) as (Hinv & _ & Hn). destruct (inv_ids _ Hinv Hbusy) as [_ [op Hop]].
  assert (live h ⊆ collected s) as Hsub.
  { intros q [Hq Hlive]%elem_of_live.
    destruct (Hlost p q s op) as [(m & Hm & _)|[(m & Hm & _)|?]]; try done; [lia|rewrite Hbuf in Hm; by apply not_elem_of_nil in Hm..]. }
  apply subseteq_size in Hsub. unfold collected in Hsub.
  pose proof (inv_read_quorum _ Hinv Hbusy) as Hrq. pose proof (inv_ack_quorum _ Hinv) as Haq. unfold majority in *.
  rewrite Hn in Hrq, Haq. apply Nat2Z.inj_le in Hsub.
  destruct (write_phase s); [apply Haq|apply Hrq; rewrite <- size_dom]; eapply Z.lt_le_trans; done.
Qed.

Lemma live_turn h cmd t rest h' :
  harness_ok h -> h_buffer h = (cmd, t) :: rest -> turn_case cmd t rest h (Ret tt, h') ->
  b_count (h_bench h') = b_count (h_bench h) /\ live h' = live h.
Proof.
  intros Hok Hbuf Hturn. destruct (ho_message h Hok cmd t) as (Ht & _ & _); [rewrite Hbuf; by left|].
  inversion Hturn as [Hnone|s s' effs Hs Hstep|]; subst; [done|]. split; [done|].
  apply set_eq. intros p. rewrite !elem_of_live. change (b_count (h_bench (handled t s' effs (set_buffer rest h)))) with (b_count (h_bench h)).
  split; intros [Hp Hlive]; (split; [done|]); rewrite slot_handled in * by (done || lia || by eauto); case_decide; subst; eauto.
Qed.

Lemma answers_turn h0 h cmd t rest h' :
  harness_ok h -> h_buffer h = (cmd, t) :: rest -> turn_case cmd t rest h (Ret tt, h') -> answers h0 h -> answers h0 h'.
Proof.
  intros Hok Hbuf Hturn Hans. destruct (ho_message h Hok cmd t) as (Ht & _ & _); [rewrite Hbuf; by left|].
  inversion Hturn as [Hnone|s s' effs Hs Hstep|]; subst; [done|].
  destruct (ho_register h Hok t s) as (Hinv & _ & _); [lia|done|]. by eapply (answers_handled h0 (set_buffer rest h)).
Qed.

Lemma set_up_count idx n dead h : Forall (fun p => 1 <= p) dead -> set_up idx n dead h -> b_count (h_bench h) = n.
Proof. by apply (set_up_ind (fun h => b_count (h_bench h) = n)). Qed.

(** What every run keeps. *)
Record in_order (n : Z) (k : nat) h : Prop := {
  io_ok : harness_ok h;
  io_clock : exists c, clock k c h;
  io_lost : nothing_lost h;
  io_count : b_count (h_bench h) = n;
}.

Lemma turn_in_order n k h cmd t rest o h' :
  Z.of_nat k <= U64_MAX -> in_order n k h -> h_buffer h = (cmd, t) :: rest -> turn_case cmd t rest h (o, h') ->
  o = Ret tt /\ in_order n k h'.
Proof.
  intros Hk [Hok [c Hclock] Hlost Hcount] Hbuf Hturn. assert (o = Ret tt) as -> by by eapply turn_no_panic.
  split; [done|]. split; [by eapply turn_ok|by eapply turn_clock|by eapply turn_nothing_lost|].
  by destruct (live_turn h cmd t rest h') as [-> _].
Qed.

Lemma run_in_order idx n dead h0 k h :
  0 <= n -> Forall (fun p => 1 <= p) dead -> set_up idx n dead h0 -> harness_run h0 k h -> Z.of_nat k <= U64_MAX ->
  in_order n k h.
Proof.
  intros Hn Hdead Hset Hrun.
  induction Hrun as [|k h h' p s new_v4 cmd cb _ IH Hp Hs Hidle Hsend|k h p _ IH Hp|k h h' cmd t rest _ IH Hbuf Hprop]; intros Hk.
  - split.
    + exact (set_up_ok idx n dead h0 Hn Hdead Hset).
    + exists 0. exact (set_up_clock idx n dead h0 Hdead Hset).
    + exact (set_up_nothing_lost idx n dead h0 Hdead Hset).
    + exact (set_up_count idx n dead h0 Hdead Hset).
  - destruct IH as [Hok [c Hclock] Hlost Hcount]; [lia|].
    rewrite (send_client_cmd_run oc iters _ _ _ _ _ _ Hp Hs) in Hsend. destruct (client_command new_v4 cmd cb s) as [s' effs] eqn:Hc.
    injection Hsend as <-. split.
    + exact (send_ok _ _ _ _ _ _ _ _ Hok Hp Hs Hidle Hc).
    + exists c. exact (send_clock _ _ _ _ _ _ _ _ _ _ Hclock Hp Hs Hc).
    + exact (send_nothing_lost _ _ _ _ _ _ _ _ Hok Hlost Hp Hs Hidle Hc).
    + exact Hcount.
  - destruct IH as [Hok [c Hclock] Hlost Hcount]; [done|].
    split.
    + exact (harness_ok_crash p h Hp Hok).
    + exists c. exact (clock_crash k c h p Hp Hclock).
    + exact (crash_nothing_lost h p Hp Hlost).
    + exact Hcount.
  - eapply turn_in_order; [done|by apply IH|done|]. rewrite <- Hprop. apply turn_cases; [|done]. by apply IH.
Qed.

(** C10: Operations finish while a majority of the registers is alive.  From
    every state that a run of fewer than 2^64 commands reaches, the loop returns
    with no message left, every register that is alive is ready for its next
    command, and the callbacks called on the way are exactly those of the
    commands that were pending, each once and with its request identifier. *)
Theorem pending_commands_complete idx n dead h0 k h :
  0 <= n -> Forall (fun p => 1 <= p) dead -> set_up idx n dead h0 -> harness_run h0 k h ->
  Z.of_nat k <= U64_MAX -> n / 2 < Z.of_nat (size (live h)) ->
  exists h' calls, propagate_all_messages oc (potential h) h = Some (Ret tt, h') /\ h_buffer h' = [] /\
    live h' = live h /\ (forall p s, 1 <= p -> slot h' p = Some s -> idle s) /\
    b_calls (h_bench h') = b_calls (h_bench h) ++ calls /\ pending h ≡ₚ ticket_of <$> calls.
Proof.
  intros Hn Hdead Hset Hrun Hk Hmaj. pose proof (run_in_order idx n dead h0 k h Hn Hdead Hset Hrun Hk) as Hin.
  destruct (propagate_ends oc iters Hiters (fun h1 => in_order n k h1 /\ live h1 = live h /\ answers h h1) (potential h) h)
    as (h' & Hprop & ([Hok _ Hlost Hcount] & Hlive & calls & Hcalls & Hperm) & Hbuf).
  - intros h1 [Hin1 _]. apply Hin1.
  - intros h1 cmd t rest o h2 (Hin1 & Hlive1 & Hans1) Hbuf Hturn.
    destruct (turn_in_order n k h1 cmd t rest o h2 Hk Hin1 Hbuf Hturn) as [-> Hin2].
    split; [done|]. split; [done|]. pose proof (io_ok _ _ _ Hin1) as Hok1.
    destruct (live_turn h1 cmd t rest h2 Hok1 Hbuf Hturn) as [_ ->]. split; [done|]. by eapply answers_turn.
  - split; [done|]. split; [done|]. exists []. simpl. by rewrite app_nil_r.
  - done.
  - assert (forall p s, 1 <= p -> slot h' p = Some s -> idle s) as Hidle.
    { intros p s Hp Hs. eapply quiescent_idle; [done..| |done|done]. by rewrite Hlive, Hcount. }
    exists h', calls. rewrite (no_pending h' Hok Hidle), app_nil_r in Hperm. done.
Qed.

(** ** Without a majority nothing happens *)

(** Only first-phase traffic of the registers in [L]. *)
Record quiet (L : gset Z) h : Prop := {
  quiet_live p s : 1 <= p -> slot h p = Some s -> p ∈ L /\ write_phase s = false /\ dom (readlist s) ⊆ L;
  quiet_message cmd t : (cmd, t) ∈ h_buffer h ->
    match content cmd with
    | ReadProc => True
    | Value _ _ _ => process_identifier (header cmd) ∈ L
    | WriteProc _ _ _ | Ack => False
    end;
  quiet_calls : b_calls (h_bench h) = [];
  quiet_drive : b_drive (h_bench h) = ∅;
}.

Lemma quiet_handled L h p s s' effs :
  quiet L h -> 1 <= p -> slot h p = Some s -> write_phase s' = false -> dom (readlist s') ⊆ L ->
  (effs = [] \/ exists cmd, (effs = [Broadcast cmd] /\ content cmd = ReadProc) \/
     exists t t' r v, effs = [Send cmd t] /\ content cmd = Value t' r v /\ process_identifier (header cmd) = p) ->
  quiet L (handled p s' effs h).
Proof.
  intros [H1 H2 H3 H4] Hp Hs Hphase Hdom Heffs. destruct (H1 p s Hp Hs) as (HL & _ & _).
  assert (effs ≫= called = [] /\ drive_after (b_drive (h_bench h)) effs = b_drive (h_bench h)) as [Hcalled Hdrive]
    by (destruct Heffs as [->|[cmd [[-> _]|(? & ? & ? & ? & -> & _)]]]; done).
  split.
  - intros q sq Hq. rewrite slot_handled by (done || by eauto). case_decide; [|by apply H1]. intros [= <-]. by subst q.
  - intros cmd t. rewrite handled_buffer, elem_of_app. intros [Hin|Hin]; [by eapply H2|].
    destruct Heffs as [->|[cmd' [[-> Hct]|(t1 & t' & r & v & -> & Hct & Hpid)]]]; [by apply not_elem_of_nil in Hin|..];
      cbn [mbind list_bind] in Hin; rewrite app_nil_r in Hin.
    + apply broadcast_posts in Hin as [-> _]. by rewrite Hct.
    + apply list_elem_of_singleton in Hin as [= -> ->]. by rewrite Hct, Hpid.
  - simpl. by rewrite H3, Hcalled.
  - simpl. by rewrite Hdrive.
Qed.

Lemma quiet_set_buffer L h m rest : quiet L h -> h_buffer h = m :: rest -> quiet L (set_buffer rest h).
Proof.
  intros [H1 H2 H3 H4] Hbuf. split; [done| |done..]. intros cmd t Hin. apply (H2 cmd t). rewrite Hbuf. apply elem_of_cons. by right.
Qed.

Lemma quiet_turn L h cmd t rest h' :
  harness_ok h -> quiet L h -> Z.of_nat (size L) <= b_count (h_bench h) / 2 ->
  h_buffer h = (cmd, t) :: rest -> turn_case cmd t rest h (Ret tt, h') -> quiet L h'.
Proof.
  intros Hok Hquiet Hmin Hbuf Hturn. pose proof (quiet_set_buffer _ _ _ _ Hquiet Hbuf) as Hquiet'.
  inversion Hturn as [Hnone|s s' effs Hs Hstep|]; subst; [done|].
  assert ((cmd, t) ∈ h_buffer h) as Hin by (rewrite Hbuf; by left).
  destruct (ho_message h Hok cmd t Hin) as (Ht & _ & _). destruct (ho_register h Hok t s) as (_ & Hself & Hcount); [lia|done|].
  pose proof (quiet_message L h Hquiet cmd t Hin) as Hmsg. destruct (quiet_live L h Hquiet t s) as (_ & Hphase & Hdom); [lia|done|].
  inversion Hstep as [|it ? ? ? _ Hsys]; subst. destruct cmd as [hd ct]. unfold system_command in Hsys. simpl in Hsys, Hmsg.
  destruct ct as [|ts' r v|ts' r v|]; [..|done|done].
  - injection Hsys as <- <-. eapply quiet_handled; [done|lia|done..|]. right. eexists. right. by eexists _, _, _, _.
  - set (rl := <[process_identifier hd := ((ts', r), v)]> (readlist s)).
    assert (dom rl ⊆ L) as Hrl by (unfold rl; rewrite dom_insert_L; set_solver).
    assert (~ majority (size rl) s) as Hno.
    { apply subseteq_size, Nat2Z.inj_le in Hrl. rewrite size_dom in Hrl. unfold majority. rewrite Hcount. lia. }
    destruct (handle_value_cases _ _ _ _ _ _ _ _ _ Hsys)
      as [op' _ _|op' rl' _ _ _ -> _|op' k mt rr v' _ _ _ Hm _ _|op' k mt rr v' ts'' _ _ _ Hm _ _ _ _]; [..|done|done].
    + eapply quiet_handled; [done|lia|done..|]. by left.
    + eapply quiet_handled; [done|lia|done..|]. by left.
Qed.

Lemma quiet_send L h p s new_v4 cmd cb s' effs :
  harness_ok h -> quiet L h -> 1 <= p -> slot h p = Some s -> client_command new_v4 cmd cb s = (s', effs) ->
  quiet L (handled p s' effs h).
Proof.
  intros Hok Hquiet Hp Hs Hc. destruct (quiet_live L h Hquiet p s Hp Hs) as (_ & Hphase & Hdom).
  unfold client_command in Hc. destruct (c_content cmd); injection Hc as <- <-;
    (eapply quiet_handled; [done..|simpl; set_solver|]); right; eexists; by left.
Qed.

Lemma quiet_crash L h p : 1 <= p -> quiet L h -> quiet L (crash p h).
Proof. intros Hp [H1 H2 H3 H4]. split; [|done..]. intros q s Hq Hs%slot_crash_Some; [|done..]. by apply H1. Qed.

Lemma set_up_quiet idx n dead h : 0 <= n -> Forall (fun p => 1 <= p) dead -> set_up idx n dead h -> quiet (live h) h.
Proof.
  intros Hn Hdead Hset. pose proof (set_up_ok idx n dead h Hn Hdead Hset) as Hok.
  assert ((forall p s, 1 <= p -> slot h p = Some s -> write_phase s = false /\ readlist s = ∅) /\
    h_buffer h = [] /\ b_calls (h_bench h) = [] /\ b_drive (h_bench h) = ∅) as (H1 & H2 & H3 & H4).
  { clear Hok. revert Hdead Hset. apply (set_up_ind (fun h => (forall p s, 1 <= p -> slot h p = Some s -> write_phase s = false /\ readlist s = ∅) /\
      h_buffer h = [] /\ b_calls (h_bench h) = [] /\ b_drive (h_bench h) = ∅)).
    - split_and!; [|done..]. intros p s Hp ->%fresh_slot; done.
    - intros p h1 Hp (? & ? & ? & ?). split_and!; [|done..]. intros q s Hq Hs%slot_crash_Some; [by eauto|done..]. }
  split; [| |done..].
  - intros p s Hp Hs. destruct (H1 p s Hp Hs) as [Hphase ->]. split; [|by rewrite dom_empty_L].
    apply elem_of_live. split; [by eapply slot_range|by eauto].
  - intros cmd t. rewrite H2. by intros Hin%not_elem_of_nil.
Qed.

(** C24: When no majority is left from the start on, no command is ever answered
    and nothing is ever written to the drive, whatever is sent and delivered. *)
Theorem minority_answers_nothing idx n dead h0 k h :
  0 <= n -> Forall (fun p => 1 <= p) dead -> set_up idx n dead h0 -> harness_run h0 k h ->
  Z.of_nat (size (live h0)) <= n / 2 ->
  b_calls (h_bench h) = [] /\ b_drive (h_bench h) = ∅.
Proof.
  intros Hn Hdead Hset Hrun Hmin.
  cut (quiet (live h0) h); [intros [_ _ H3 H4]; done|].
  pose proof (set_up_ok idx n dead h0 Hn Hdead Hset) as Hok0. pose proof (set_up_count idx n dead h0 Hdead Hset) as Hcount0.
  assert (harness_ok h /\ b_count (h_bench h) = n /\ quiet (live h0) h) as (_ & _ & ?); [|done].
  pose proof (set_up_quiet idx n dead h0 Hn Hdead Hset) as Hquiet0. clear Hset.
  induction Hrun as [|k h h' p s new_v4 cmd cb _ IH Hp Hs Hidle Hsend|k h p _ IH Hp|k h h' cmd t rest _ IH Hbuf Hprop].
  - done.
  - destruct IH as (Hok & Hcount & Hquiet).
    rewrite (send_client_cmd_run oc iters _ _ _ _ _ _ Hp Hs) in Hsend. destruct (client_command new_v4 cmd cb s) as [s' effs] eqn:Hc.
    injection Hsend as <-. split; [exact (send_ok _ _ _ _ _ _ _ _ Hok Hp Hs Hidle Hc)|]. split; [exact Hcount|]. exact (quiet_send _ _ _ _ _ _ _ _ _ Hok Hquiet Hp Hs Hc).
  - destruct IH as (Hok & Hcount & Hquiet). split; [by apply harness_ok_crash|]. split; [done|]. by apply quiet_crash.
  - destruct IH as (Hok & Hcount & Hquiet). pose proof (turn_cases cmd t rest h Hok Hbuf) as Hturn. rewrite Hprop in Hturn.
    destruct (live_turn _ _ _ _ _ Hok Hbuf Hturn) as [Hcount' _]. split; [by eapply turn_ok|]. split; [by rewrite Hcount'|].
    eapply quiet_turn; [done..| |done|done]. by rewrite Hcount.
Qed.

End Progress.

(** ** Examples *)

Module HarnessProgressExamples.
Import HarnessFactsExamples.

#[local] Instance example_register : AtomicRegister Z unit (AtomicRegisterState Z unit) (Bench Z unit) :=
  register_on_bench true orders.

Lemma pending_commands_complete_witness :
  exists h' calls, propagate_all_messages true (potential (asked [3])) (asked [3]) = Some (Ret tt, h') /\ h_buffer h' = [] /\
    live h' = live (asked [3]) /\ (forall p s, 1 <= p -> slot h' p = Some s -> idle s) /\
    b_calls (h_bench h') = b_calls (h_bench (asked [3])) ++ calls /\ [((tt, 5), false)] ≡ₚ ticket_of <$> calls.
Proof.
  apply (pending_commands_complete true orders orders_ok 7 3 [3] (three [3]) 1).
  - lia.
  - repeat constructor; lia.
  - apply three_set_up.
  - by apply asked_run.
  - done.
  - vm_compute. reflexivity.
Defined.

(** Only register 1 is left; its command and all messages are delivered. *)
Lemma minority_answers_nothing_witness :
  exists h, propagate_all_messages true 10 (asked [2; 3]) = Some (Ret tt, h) /\ h_buffer h = [] /\
    b_calls (h_bench h) = [] /\ b_drive (h_bench h) = ∅.
Proof.
  destruct (propagate_all_messages true 10 (asked [2; 3])) as [[o h]|] eqn:E; [|vm_compute in E; discriminate E].
  assert (o = Ret tt /\ h_buffer h = []) as [-> Hbuf].
  { pose proof E as E'. vm_compute in E'. injection E' as <- <-. split; vm_compute; reflexivity. }
  exists h. split; [reflexivity|]. split; [exact Hbuf|].
  apply (minority_answers_nothing true orders orders_ok 7 3 [2; 3] (three [2; 3]) 1).
  - lia.
  - repeat constructor; lia.
  - apply three_set_up.
  - eapply propagate_run; [by apply asked_run|exact E].
  - vm_compute. discriminate.
Defined.

End HarnessProgressExamples.
