(* ===== verification/TestSystem.v ===== *)
(** * Processes under test: [test-utils/system.rs] and [test-utils/transfer.rs]

    The configuration that the system tests start processes with, and what a
    test does on a connection: it sends a command, reads the response and
    checks its header. *)

From S2P Require Import Prelude Domain Crates Transfer FileSystem SectorsManager AtomicRegister RegisterFacts Storage.
From S2P Require Import RegisterClient Responses RegisterProcess ProcessFacts Startup.

Definition U16_MAX : Z := 65535.

(** [a + b] on [u16]: an overflow panics or wraps around, by the profile. *)
Definition u16_add {E} (overflow_checks : bool) (a b : Z) : outcome E Z :=
  if decide (a + b <= U16_MAX) then Ret (a + b)
  else if overflow_checks then Panic "attempt to add with overflow"
  else Ret ((a + b) mod 2 ^ 16).

(** [storage_dirs] holds the paths of the temporary directories. *)
Record TestProcessesConfig := {
  tp_hmac_client_key : bytes;
  tp_hmac_system_key : bytes;
  storage_dirs : list string;
  tp_tcp_locations : list (string * Z);
}.

Definition N_SECTORS : u64 := 65536.

Section System.
Context {Uuid Mac : Type} `{UuidCrate Uuid, HmacCrate Mac}.
Variable oc : bool.

(** [rand::thread_rng().gen_range(0..255)] and [tempfile::tempdir()]: what the
    calls of a run return, in order. *)
Variable gen_range : nat -> u8.
Variable tempdir : nat -> option string.

(** [TestProcessesConfig::new]. *)
Definition test_config_new (processes_count : nat) (port_range_start : Z) : outcome Empty_set TestProcessesConfig :=
  let hmac_client_key := gen_range <$> seq 0 32 in
  let hmac_system_key := gen_range <$> seq 32 64 in
  storage_dirs ← mapM (fun i => expect "unwrap" (tempdir i)) (seq 0 processes_count);
  tcp_locations ← mapM (fun idx =>
    port ← u16_add oc port_range_start (Z.of_nat idx mod 2 ^ 16);
    mret ("localhost"%string, port)) (seq 0 processes_count);
  mret {| tp_hmac_client_key := hmac_client_key; tp_hmac_system_key := hmac_system_key;
          storage_dirs := storage_dirs; tp_tcp_locations := tcp_locations |}.

Implicit Types (self : TestProcessesConfig).

Definition config self (proc_idx : nat) : outcome Empty_set Configuration :=
  storage_dir ← expect "unwrap" (storage_dirs self !! proc_idx);
  hmac_system_key ← expect "unwrap" (to_array 64 (tp_hmac_system_key self));
  hmac_client_key ← expect "unwrap" (to_array 32 (tp_hmac_client_key self));
  mret {| hmac_system_key := hmac_system_key; hmac_client_key := hmac_client_key;
          public := {| storage_dir := storage_dir; tcp_locations := tp_tcp_locations self;
                       self_rank := (Z.of_nat proc_idx + 1) mod 2 ^ 8; n_sectors := N_SECTORS |} |}.

(** The loop of [start] over the indices that are left.  The state is the list
    of the configurations that processes were spawned with, in order. *)
Fixpoint start_range self (range : list nat) : M (list Configuration) Empty_set unit :=
  match range with
  | [] => mret tt
  | idx :: range =>
      config ← lift (config self idx);
      modify (fun spawned => spawned ++ [config]) ;;
      start_range self range
  end.

Definition start self : M (list Configuration) Empty_set unit :=
  let processes_count := length (storage_dirs self) in
  start_range self (seq 0 processes_count).

(** [send_cmd] to the stream of a connection. *)
Definition send_cmd self (register_cmd : RegisterCommand Uuid) : M sink Empty_set unit := fun stream =>
  match serialize_register_command (Mac:=Mac) register_cmd {| written := []; fault := None |} (tp_hmac_client_key self) with
  | (Ret _, data) =>
      match write_all (written data) stream with
      | (Ret _, stream) => (Ret tt, stream)
      | (_, stream) => (Panic "unwrap", stream)
      end
  | (Panic w, _) => (Panic w, stream)
  | (Err _, _) => (Panic "unwrap", stream)
  end.

(** [connect], with [TcpStream::connect] as in the start-up of a process. *)
Definition test_connect {Stream} (connect : string * Z -> option Stream) self (proc_idx : nat) : outcome Empty_set Stream :=
  location ← expect "unwrap" (tp_tcp_locations self !! proc_idx);
  expect "Could not connect to TCP port" (connect location).

Definition assert_response_header self (response : RegisterResponse) (cmd : ClientRegisterCommand) : outcome Empty_set unit :=
  if decide (response_request_identifier response = request_identifier (c_header cmd)) then
    if hmac_tag_is_ok (Mac:=Mac) (tp_hmac_client_key self) response then Ret tt
    else Panic "assertion failed: self.hmac_tag_is_ok(response)"
  else Panic "assertion failed: left == right".

End System.

(** [assert_system_cmd_header]; a slice or an index out of range panics. *)
Definition slice (l : bytes) (a b : nat) : outcome Empty_set bytes :=
  if decide (b <= length l)%nat then Ret (take (b - a) (drop a l)) else Panic "range end index out of range".

Definition assert_eq {A} `{EqDecision A} (x y : A) : outcome Empty_set unit :=
  if decide (x = y) then Ret tt else Panic "assertion failed: left == right".

Definition assert_system_cmd_header (serialized msg_ident : bytes) (process_identifier msg_type : u8) (sector_idx : u64)
  : outcome Empty_set unit :=
  magic ← slice serialized 0 4;
  assert_eq magic MAGIC_NUMBER ;;
  b6 ← expect "unwrap" (serialized !! 6%nat);
  assert_eq b6 process_identifier ;;
  b7 ← expect "unwrap" (serialized !! 7%nat);
  assert_eq b7 msg_type ;;
  ident ← slice serialized 8 24;
  assert_eq ident msg_ident ;;
  idx ← slice serialized 24 32;
  assert_eq (from_be_bytes idx) sector_idx.

Section Facts.
Context {Uuid Mac : Type} `{!EqDecision Uuid} `{UuidLaws Uuid} `{HmacLaws Mac}.
Variable oc : bool.
Implicit Types (cfg : TestProcessesConfig).

(** ** The configuration *)

Section Config.
Variable gen_range : nat -> u8.
Variable tempdir : nat -> option string.
Variables (count : nat) (port : Z).

(** The directories can be made and the ports fit. *)
Record available : Prop := {
  av_count : (1 <= count)%nat /\ Z.of_nat count <= U8_MAX;
  av_port : 0 <= port /\ port + Z.of_nat count - 1 <= U16_MAX;
  av_dirs i : (i < count)%nat -> is_Some (tempdir i);
}.

Definition dir (i : nat) : string := default ""%string (tempdir i).

(** What [new] makes of it. *)
Definition test_config : TestProcessesConfig :=
  {| tp_hmac_client_key := gen_range <$> seq 0 32; tp_hmac_system_key := gen_range <$> seq 32 64;
     storage_dirs := dir <$> seq 0 count;
     tp_tcp_locations := (fun i => ("localhost"%string, port + Z.of_nat i)) <$> seq 0 count |}.

(** The configuration of process [i]. *)
Definition process_config (i : nat) : Configuration :=
  {| hmac_system_key := tp_hmac_system_key test_config; hmac_client_key := tp_hmac_client_key test_config;
     public := {| storage_dir := dir i; tcp_locations := tp_tcp_locations test_config;
                  self_rank := Z.of_nat i + 1; n_sectors := N_SECTORS |} |}.

Lemma mapM_Ret {E A B} (f : A -> outcome E B) (g : A -> B) l :
  (forall x, x ∈ l -> f x = Ret (g x)) -> mapM f l = Ret (g <$> l).
Proof.
  induction l as [|x l IH]; intros Hf; [done|]. simpl. rewrite (Hf x) by by left. simpl.
  rewrite IH; [done|]. intros y Hy. apply Hf. by right.
Qed.

Lemma test_config_new_runs : available -> test_config_new oc gen_range tempdir count port = Ret test_config.
Proof.
  intros [[Hc1 Hc2] [Hp1 Hp2] Hdirs]. unfold test_config_new, test_config.
  rewrite (mapM_Ret _ dir); cycle 1.
  { intros i Hi%elem_of_seq. destruct (Hdirs i) as [d Hd]; [lia|]. unfold dir. by rewrite Hd. }
  simpl mbind. rewrite (mapM_Ret _ (fun i => ("localhost"%string, port + Z.of_nat i))); [done|].
  intros i Hi%elem_of_seq. unfold U8_MAX, U16_MAX in *. unfold u16_add, U16_MAX. rewrite Z.mod_small by lia. by rewrite decide_True by lia.
Qed.

Lemma config_runs i : available -> (i < count)%nat -> config test_config i = Ret (process_config i).
Proof.
  intros [[Hc1 Hc2] _ Hdirs] Hi. unfold config. simpl storage_dirs. rewrite list_lookup_fmap, lookup_seq_lt by lia.
  unfold to_array, test_config. cbn [tp_hmac_system_key tp_hmac_client_key].
  rewrite !length_fmap, !length_seq, !decide_True by done. cbn [mbind outcome_bind expect fmap option_fmap option_map]. unfold process_config, U8_MAX in *.
  rewrite Z.mod_small by lia. done.
Qed.

Lemma start_range_spawns range spawned :
  available -> (forall i, i ∈ range -> (i < count)%nat) ->
  start_range test_config range spawned = (Ret tt, spawned ++ (process_config <$> range)).
Proof.
  intros Hav. revert spawned. induction range as [|i range IH]; intros spawned Hin; simpl; [by rewrite app_nil_r|].
  rewrite config_runs by (done || by apply Hin; left). rewrite M_bind_lift, M_bind_modify, IH by (intros j Hj; apply Hin; by right).
  by rewrite <- app_assoc.
Qed.

Lemma start_spawns : available -> start test_config [] = (Ret tt, process_config <$> seq 0 count).
Proof.
  intros Hav. unfold start. simpl storage_dirs. rewrite length_fmap, length_seq.
  apply (start_range_spawns _ []); [done|]. intros i Hi%elem_of_seq. lia.
Qed.

(** C31: The processes of a test configuration: as many as asked for, each with
    its own directory and rank and all with the same keys and locations, no two
    of which coincide.  Each of them starts, on an empty directory, as soon as
    it can listen and reach the others, and works with the keys that the tests
    sign and check with. *)
Theorem test_processes_start {D : Type} `{FileSystemLaws D} :
  available -> exists configs, test_config_new oc gen_range tempdir count port = Ret test_config /\
    start test_config [] = (Ret tt, configs) /\ length configs = count /\ NoDup (tp_tcp_locations test_config) /\
    forall i c, configs !! i = Some c ->
      Some (storage_dir (public c)) = tempdir i /\ self_rank (public c) = Z.of_nat i + 1 /\
      forall bind connect (m : machine (Uuid:=Uuid) (D:=D)),
        (forall addr, addr ∈ tp_tcp_locations test_config -> bind addr = true /\
          exists stream, connect addr = Some stream /\ nodelay_ok stream = true) ->
        files (disk (m_files m)) = Some ∅ -> m_files m = boot (disk (m_files m)) ->
        exists p m', run_register_process oc bind connect c m = (Ret p, m') /\ process_inv p /\
          rp_self_ident p = Z.of_nat i + 1 /\ rp_processes_count p = Z.of_nat count /\ rp_n_sectors p = N_SECTORS /\
          rp_hmac_system_key p = tp_hmac_system_key test_config /\ rp_hmac_client_key p = tp_hmac_client_key test_config.
Proof.
  intros Hav. pose proof Hav as [[Hc1 Hc2] [Hp1 Hp2] Hdirs]. exists (process_config <$> seq 0 count).
  split; [by apply test_config_new_runs|]. split; [by apply start_spawns|]. split; [by rewrite length_fmap, length_seq|].
  split. { apply NoDup_fmap_2; [|apply NoDup_seq]. intros i j [= E]. lia. }
  intros i c. rewrite list_lookup_fmap. intros (j & [-> Hi]%lookup_seq & ->)%fmap_Some. simpl in *.
  split. { unfold dir. by destruct (Hdirs i Hi) as [d ->]. }
  split; [done|]. intros bind connect m Hnet Hdisk Hboot.
  set (cfg := process_config i). set (tcp := tp_tcp_locations test_config) in *.
  assert (forall j, (j < count)%nat -> exists addr, tcp !! j = Some addr /\ addr ∈ tcp) as Htcp.
  { intros j Hj. destruct (lookup_lt_is_Some_2 tcp j) as [addr Haddr]; [unfold tcp; simpl; by rewrite length_fmap, length_seq|].
    exists addr. split; [done|]. by eapply list_elem_of_lookup_2. }
  assert (Z.of_nat (length tcp) = Z.of_nat count) as Hlen by (unfold tcp; simpl; by rewrite length_fmap, length_seq).
  destruct (Startup.start_runs (Uuid:=Uuid) oc bind connect cfg ∅ m) as (p & m' & _ & Hrun & Hinv & (E1 & E2 & E3 & E4 & E5) & _).
  - split; change (tcp_locations (public cfg)) with tcp; change (self_rank (public cfg)) with (Z.of_nat i + 1); rewrite ?Hlen; [lia|done|].
    intros addr Haddr. apply Hnet. by eapply list_elem_of_lookup_2.
  - intros j Hj Hne. change (tcp_locations (public cfg)) with tcp in Hj |- *. rewrite Hlen in Hj.
    destruct (Htcp (Z.to_nat j)) as (addr & Haddr & Hin); [lia|]. destruct (Hnet addr Hin) as [_ (sk & Hsk & Hnd)]. by exists addr, sk.
  - assert (store_ok ∅) as Hok by apply map_Forall_empty. split; [done|]. left. exists ∅. split; [done|]. apply holds_dirty; [done|].
    intros nm c. rewrite lookup_empty. split; [done|]. intros (idx & s & _ & Hs). by rewrite lookup_empty in Hs.
  - done.
  - exists p, m'. change (tcp_locations (public cfg)) with tcp in E2. rewrite Hlen in E2. done.
Qed.

End Config.

(** ** A conversation with a process *)

Section Conversation.
Context {St Cl : Type} `{SectorsManager St} `{!RegisterClient Uuid Cl}.
Implicit Types (p : Process Uuid St Cl) (cmd : ClientRegisterCommand).

Lemma send_cmd_runs cfg (cmd : RegisterCommand Uuid) stream :
  fault stream = None -> exists tag, tag_of (Mac:=Mac) (tp_hmac_client_key cfg) (serialize_body cmd) = Some tag /\
    send_cmd (Mac:=Mac) cfg cmd stream =
      (Ret tt, {| written := written stream ++ serialize_body cmd ++ tag; fault := None |}).
Proof.
  intros Hf. unfold send_cmd, serialize_register_command.
  destruct (serialize_rc_ok (Mac:=Mac) cmd (tp_hmac_client_key cfg) {| written := []; fault := None |} eq_refl) as (tag & Htag & _ & ->).
  exists tag. split; [done|]. simpl. unfold write_all. by rewrite Hf.
Qed.

(** C20: What a test relies on when it talks to a process that has its key: the
    command that it sends is taken from the connection, accepted and made to
    wait for its sector; and when the operation completes, on a connection that
    can still be written to, what the process sends is read back as a success
    with the result, and passes the check of the header. *)
Theorem test_conversation cfg p c conn cmd stream :
  process_inv p -> rp_hmac_client_key p = tp_hmac_client_key cfg ->
  connections p !! c = Some conn -> fault (writer conn) = None -> fault stream = None ->
  client_ok cmd -> c_sector_idx (c_header cmd) < rp_n_sectors p ->
  exists data, send_cmd (Mac:=Mac) cfg (Client (Uuid:=Uuid) cmd) stream =
      (Ret tt, {| written := written stream ++ data; fault := None |}) /\
    (forall rest e, reader conn = {| pending := data ++ rest; at_end := e |} ->
      connection_turn (Mac:=Mac) oc c p = (Ret tt, set_conn c {| reader := {| pending := rest; at_end := e |};
        doing := Acquiring (Client cmd); writer := writer conn |} p)) /\
    (forall p2 conn2 idx op rest e,
      rp_hmac_client_key p2 = rp_hmac_client_key p -> connections p2 !! c = Some conn2 -> fault (writer conn2) = None ->
      answers cmd (op_return op) ->
      exists p3 response resp,
        success_callback (Mac:=Mac) oc {| cb_cmd := Client cmd; cb_writer := c; cb_guard := idx |} op p2 = (Ret tt, p3) /\
        connections p3 !! c = Some {| reader := reader conn2; doing := doing conn2;
          writer := {| written := written (writer conn2) ++ response; fault := None |} |} /\
        read_response {| pending := response ++ rest; at_end := e |} = (Ret resp, {| pending := rest; at_end := e |}) /\
        status_code resp = StatusCode.Ok /\ response_content resp = content_of (op_return op) /\
        assert_response_header (Mac:=Mac) cfg resp cmd = Ret tt).
Proof.
  intros Hinv Hkey Hconn Hfw Hfs Hok Hidx. pose proof Hok as (Hrid & Hsidx & _).
  destruct (send_cmd_runs cfg (Client cmd) stream Hfs) as (tag & Htag & Hsend).
  eexists. split; [exact Hsend|]. split.
  - intros rest e Hrd.
    assert (deserialize_register_command (Uuid:=Uuid) (Mac:=Mac) (reader conn) (rp_hmac_system_key p) (rp_hmac_client_key p) =
      (Ret (Client cmd, true), {| pending := rest; at_end := e |})) as Hread.
    { destruct (round_trip (Uuid:=Uuid) (Mac:=Mac) (rp_hmac_system_key p) (rp_hmac_client_key p) (Client cmd)
        {| written := []; fault := None |} [] rest e Hok eq_refl) as (wire & Hwire & Hback); [by intros []|].
      destruct (serialize_rc_ok (Mac:=Mac) (Client (Uuid:=Uuid) cmd) (tp_hmac_client_key cfg) {| written := []; fault := None |} eq_refl)
        as (tag' & Htag' & _ & Hrun). simpl key_for in Hwire. rewrite Hkey, Hrun in Hwire. injection Hwire as Hwire.
      rewrite Htag in Htag'. injection Htag' as <-. unfold deserialize_register_command. rewrite Hrd. rewrite <- Hwire in Hback. exact Hback. }
    assert (dispatched (Mac:=Mac) oc p c {| pending := rest; at_end := e |} conn (Client cmd) true (connection_turn (Mac:=Mac) oc c p)) as Hd.
    { apply turn_dispatches; [done..|]. intros cc [= <-]. apply Hsidx. }
    inversion Hd; subst; [lia|done].
  - intros p2 conn2 idx op rest e Hkey2 Hconn2 Hf2 Hans.
    destruct (success_callback_runs (Mac:=Mac) oc {| cb_cmd := Client cmd; cb_writer := c; cb_guard := idx |} cmd op conn2 p2)
      as [p3 Hcall]; [done..|].
    pose proof Hcall as Hcall'. apply (success_callback_answers oc _ cmd _ conn2) in Hcall' as (response & Hresp & ->); [|done..].
    destruct (success_read_back (Mac:=Mac) oc (rp_hmac_client_key p2) cmd op rest e Hrid Hans)
      as (response' & resp & Hresp' & Hrd & Hst & Hid & Hct & Htagok).
    rewrite Hresp in Hresp'. injection Hresp' as <-.
    eexists _, response, resp. split; [exact Hcall|].
    split; [simpl; rewrite lookup_insert_eq; unfold wrote; by rewrite Hf2|]. split; [done|]. split; [done|]. split; [done|].
    unfold assert_response_header. rewrite Hid, decide_True by done. rewrite Hkey2, Hkey in Htagok. by rewrite Htagok.
Qed.

End Conversation.

(** ** The header of a message *)

Lemma slice_app b tag i j :
  (j <= length b)%nat -> slice (b ++ tag) i j = Ret (take (j - i) (drop i b)).
Proof.
  intros Hj. unfold slice. rewrite length_app, decide_True by lia. f_equal.
  destruct (decide (i <= j)%nat) as [Hi|Hi].
  - rewrite drop_app_le by lia. rewrite take_app_le; [done|]. rewrite length_drop. lia.
  - by replace (j - i)%nat with 0%nat by lia.
Qed.

Lemma assert_eq_bind {A B} `{EqDecision A} (x y : A) (k : unit -> outcome Empty_set B) r :
  (assert_eq x y ≫= k) = Ret r <-> x = y /\ k tt = Ret r.
Proof. unfold assert_eq. case_decide; simpl; naive_solver. Qed.

(** C35: The check of the transfer tests accepts a serialized message of a
    process exactly with the identifier, the sender, the type and the sector
    that the message has. *)
Theorem system_header_checked (s : SystemRegisterCommand Uuid) key ident pid mt idx :
  system_ok s ->
  exists data, serialize_register_command (Mac:=Mac) (System s) {| written := []; fault := None |} key =
      (Ret tt, {| written := data; fault := None |}) /\
    (assert_system_cmd_header data ident pid mt idx = Ret tt <->
     ident = as_bytes (msg_ident (header s)) /\ pid = process_identifier (header s) /\
     mt = MessageType.as_u8 (system_msg_type (content s)) /\ idx = sector_idx (header s)).
Proof.
  intros Hok. destruct (serialize_rc_ok (Mac:=Mac) (System s) key {| written := []; fault := None |} eq_refl) as (tag & _ & _ & Hrun).
  exists (serialize_body (System s) ++ tag). split; [exact Hrun|].
  destruct (serialized_layout (System s) Hok) as (Hmagic & H6 & H7 & Hid & Hidx & Hlen). revert Hmagic H6 H7 Hid Hidx Hlen.
  generalize (serialize_body (System s)) as b. intros b Hmagic H6 H7 Hid Hidx Hlen.
  assert (32 <= length b)%nat as Hb by (rewrite Hlen; destruct (content s); lia).
  unfold assert_system_cmd_header. rewrite !slice_app by lia. rewrite !lookup_app_l by lia. rewrite H6, H7.
  change (take (4 - 0) (drop 0 b)) with (take 4 b). change (24 - 8)%nat with 16%nat. change (32 - 24)%nat with 8%nat.
  rewrite Hmagic, Hid. cbn [mbind outcome_bind expect].
  rewrite !assert_eq_bind. rewrite Hidx. unfold assert_eq. case_decide; naive_solver.
Qed.

End Facts.

(** ** The theorems on a concrete test *)

Module TestSystemExamples.

Definition gen (i : nat) : Z := Z.of_nat i.
Definition tmp (i : nat) : option string := ["/tmp/a"; "/tmp/b"; "/tmp/c"]%string !! i.

(** The three processes of [large_number_of_operations_execute_successfully]. *)
Definition three : TestProcessesConfig := test_config gen tmp 3 21625.

Lemma three_available : available tmp 3 21625.
Proof. split; [split; [lia|done]|split; [done|done]|]. intros i Hi. by apply lookup_lt_is_Some_2. Qed.

Definition listening (addr : string * Z) : bool := true.
Definition accepting (addr : string * Z) : option TcpStream := Some ProcessFactsExamples.healthy.

Definition fresh : machine (Uuid:=Toy.Uuid) (D:=RamDir.t) :=
  {| m_links := {| channels := ∅; next_channel := 0; writing_tasks := ∅; retransmission_tasks := ∅ |};
     m_files := boot {| RamDir.entries := Some ∅ |} |}.

Lemma test_processes_start_witness :
  exists configs c p m', start three [] = (Ret tt, configs) /\ configs !! 2%nat = Some c /\
    run_register_process true listening accepting c fresh = (Ret p, m') /\ rp_self_ident p = 3.
Proof.
  destruct (test_processes_start (Uuid:=Toy.Uuid) true gen tmp 3 21625 (D:=RamDir.t) three_available)
    as (configs & _ & Hstart & Hlen & _ & Hall).
  destruct (lookup_lt_is_Some_2 configs 2) as [c Hc]; [rewrite Hlen; lia|].
  destruct (Hall 2%nat c Hc) as (_ & _ & Hrun).
  destruct (Hrun listening accepting fresh) as (p & m' & H1 & _ & H2 & _); [by intros addr _; split; [|eexists]|reflexivity|reflexivity|].
  exists configs, c, p, m'. split; [exact Hstart|]. split; [exact Hc|]. split; [exact H1|exact H2].
Defined.

(** A test that has the key of the process of [ProcessFactsExamples]. *)
Definition client : TestProcessesConfig :=
  {| tp_hmac_client_key := ProcessFactsExamples.ck; tp_hmac_system_key := ProcessFactsExamples.sk;
     storage_dirs := ["/tmp/a"%string]; tp_tcp_locations := [("localhost"%string, 21518)] |}.

(** The process once the client has connected and sent its command. *)
Definition connected : ProcessFactsExamples.process :=
  ProcessFactsExamples.alone <| connections := {[ 0%nat :=
    {| reader := {| pending := ProcessFactsExamples.wire_of ProcessFactsExamples.ck; at_end := ProcessFactsExamples.eof |};
       writer := {| written := []; fault := None |}; doing := Reading |} ]} |>.

Lemma connected_inv : process_inv connected.
Proof.
  eapply (process_step_inv (Mac:=Toy.Mac) true ProcessFactsExamples.alone (Accepts 0)); [by apply new_process_inv|].
  by eapply (ps_accept true ProcessFactsExamples.alone 0%nat (Some (ProcessFactsExamples.healthy, _))).
Qed.

Lemma test_conversation_witness :
  exists data, send_cmd (Mac:=Toy.Mac) client (Client (Uuid:=Toy.Uuid) ProcessFactsExamples.read_0) {| written := []; fault := None |} =
      (Ret tt, {| written := data; fault := None |}) /\
    (connection_turn (Mac:=Toy.Mac) true 0 connected).1 = Ret tt.
Proof.
  destruct (test_conversation (Mac:=Toy.Mac) true client connected 0 _ ProcessFactsExamples.read_0 {| written := []; fault := None |}
    connected_inv eq_refl (lookup_insert_eq _ _ _) eq_refl eq_refl) as (data & Hsend & Hturn & _).
  - repeat split; by_evaluation.
  - by_evaluation.
  - exists data. split; [exact Hsend|].
    assert (data = ProcessFactsExamples.wire_of ProcessFactsExamples.ck ++ []) as Hdata.
    { vm_compute in Hsend. injection Hsend as <-. vm_compute. reflexivity. }
    rewrite (Hturn [] ProcessFactsExamples.eof); [reflexivity|]. rewrite Hdata. reflexivity.
Defined.

Lemma system_header_checked_witness :
  exists data, assert_system_cmd_header data (as_bytes ProcessFactsExamples.id9) 1 0x06 0 = Ret tt.
Proof.
  destruct (system_header_checked (Mac:=Toy.Mac) (ProcessFactsExamples.self_msg Ack) [1]
    (as_bytes ProcessFactsExamples.id9) 1 0x06 0) as (data & _ & Hiff); [repeat split; by_evaluation|].
  exists data. apply Hiff. split; [reflexivity|]. split; [reflexivity|]. split; reflexivity.
Defined.

End TestSystemExamples.
